(* ===== verification/_CoqProject ===== *)
-Q . S2P
Prelude.v
Float64.v
Layout.v
Cuckoo.v
CuckooSpec.v
CuckooProps.v
Extent.v
ExtentSpec.v
ExtentProps.v
Concurrency.v
ConcurrencyProps.v
Slab.v
Lru.v
Gc.v
Errors.v
Api.v
Client.v
ClientProps.v
Batch.v
Transport.v
Verbs.v
VerbsProps.v
PollerThread.v
ConnectorLife.v
Rdma.v
Gdr.v
HugePage.v
Interleave.v
Remote.v
RemoteProps.v
RemoteConc.v
RemoteTypes.v
Tcp.v
Faults.v
Network.v
Retry.v
Runtime.v
AsyncPoller.v
Replication.v
Engine.v
Session.v
Watermark.v
Connector.v
ConnectorProps.v
Director.v
