(* ===== verification/Prelude.v ===== *)
(** * RDMAS: a verification library for the RDMA key-value store

    ** The program

    RDMAS keeps a key-value cache in registered memory of a server; clients read
    and write it with one-sided operations (read, write, compare-and-swap), and
    a connector exposes it to LMCache.  Its parts, bottom up:

    - the memory layout ([src/engine/layout.rs]): 64-byte buckets whose lock word
      packs version, lease, mode, tombstone and lock bit, and extent headers;
    - the cuckoo hash table ([src/engine/cuckoo.rs]) of such buckets;
    - the large object region ([src/engine/extent.rs]), an extent allocator for
      values over 32 bytes, with epoch marks for the collector;
    - the lock protocol ([src/engine/concurrency.rs]): CAS lock with leases,
      optimistic reads, takeover;
    - the slab allocator, LRU tracker and epoch collector ([slab.rs], [lru.rs],
      [gc.rs] of [src/engine]);
    - the client paths ([src/client/read.rs], [write.rs], [opt.rs], [retry.rs])
      against local memory and against a remote memory behind the [Transport]
      trait ([src/transport/mod.rs]), which [tcp.rs] implements over a socket and
      [rdma.rs] over the verbs wrappers, with [gdr.rs] for device memory;
    - the verbs wrappers ([src/rdma]): devices, protection domains, completion
      queues, memory regions, queue pairs and their health guard; and the
      registered huge-page regions ([src/mem/region.rs]);
    - the session ([src/client/session.rs], [src/control/client.rs]), which
      discovers the server, chooses a transport and notices restarts;
    - the async runtime ([src/runtime]), which posts work requests and routes
      completions from the queue back to the waiting futures;
    - the server: bootstrap, control plane, tenants and replication
      ([src/engine/bootstrap.rs], [src/control]), and the load monitor
      ([src/engine/watermark.rs]);
    - the LMCache connector ([crates/lmcache-connector/src/lib.rs]), which drives
      table, region and LRU tracker in batches, and its optional reporting to
      the Director ([director.rs]).

    ** Conventions of the model

    A machine integer is a [Z] kept in its width by [u8], [u32], [u64]; plain
    additions wrap, as in a release build.  Bytes are [list Z].  [exec] is a
    computation that returns ([Done]) or panics ([Panic]): indexing and slicing
    out of range, failed assertions and the remainder by zero panic.  [result]
    is Rust's [Result]; operations that change a receiver and may fail are
    [stM S E A], which keeps the state reached before an error.  A [HashMap] or
    [HashSet] is a [gmap] or [gset]; where the code iterates one, the order is
    an argument and the theorems hold for every permutation.  Clock readings,
    the random jitter, the hash function of the xxhash crate and the alignment
    of a byte buffer are arguments.  A foreign function (a verb, [mmap], the gRPC
    calls of the RDMA set-up) is a constructor of [verb]; code that calls it is a
    program of the free monad [ffi] over these calls, and its theorems hold for
    every interpretation of them ([Adapter]) or, through the weakest precondition
    [wp], for every answer they may give.  Bit masks of the verbs library are
    finite sets.  A binary64 number is a [spec_float] of the Standard Library.
    A memory allocation is assumed to succeed up to [MAX_ALLOC], Rust's limit of
    [isize::MAX] bytes; where the size comes from remote bytes a larger one panics.

    ** Files

    - [Prelude]: [exec], [result], [stM] and their notations (in [rdmas_scope]),
      machine integers, byte buffers, little-endian encoding, and the hint and
      rewrite database [rdmas].  [Float64]: conversion, division and comparison
      of binary64 and when a rounded quotient decides an exact comparison.
    - [Layout]: records of layout.rs, lock-word helpers, byte images; each helper
      is proved to be the field update it stands for ([LockView]).
    - [Cuckoo]: every operation of [CuckooTable], with and without the mutex.
      [CuckooSpec]: the abstraction [table_map] (a finite map), the invariant
      [table_wf] and the specification of the kick chain.  [CuckooProps]: the
      refinement of each operation and of whole traces.
    - [Extent]: every operation of [LargeObjectRegion].  [ExtentSpec]: the
      abstract map of extents and [region_inv], the partition of the buffer into
      extents and free blocks.  [ExtentProps]: the operations against it, and the
      interface [ExtentStore] that the collector uses.
    - [Concurrency]: the lock functions and a transition system of any number of
      clients whose steps are the single atomic accesses.  [ConcurrencyProps]:
      mutual exclusion and soundness of optimistic reads by induction over runs,
      and the runs that violate them outside the leases.
    - [Slab], [Lru], [Gc]: the allocator with the set of held chunks as ghost
      state, the selection of the oldest keys, the collector over any
      [ExtentStore].
    - [Errors], [Api]: the error type; the public engine trait with its default
      methods and its contract.  [Client], [ClientProps], [Batch]: the local client
      paths, their refinement of the table map, batched writes.
    - [Transport]: the trait as a class, the contract [RemoteMemory] of a healthy
      transport and an in-memory instance.  [Remote], [RemoteProps]: the remote
      paths and the CAS bump allocator, proved against the contract.
    - [Interleave]: a client program as a resumption (the replies so far determine
      the next request) and the system of clients that share one memory.
      [RemoteConc]: allocations and insertions of the remote paths in such a
      system.  [RemoteTypes]: a program logic for well-typed requests and its use
      on every remote operation.
    - [Verbs]: the wrappers of [src/rdma] as programs over the library's calls,
      with their drop glue.  [VerbsProps]: interpretation of programs, the ledger
      of live handles and queue pair states with its program logic, the batch
      chain and the guard.
    - [PollerThread]: the closures the two pollers run, with their set-up and every
      exit, and the spawning, stopping and dropping of the threads, as programs
      against the same ledger (extended with event channels, epoll descriptors,
      threads and device memory).  [ConnectorLife]: the eventfd, the flag and the
      worker threads of the LMCache connector, in the same way.
    - [Rdma]: the RDMA transport with the poller it starts, its set-up against the
      ledger and its operations against an asynchronous adapter ([nic]: requests
      outstanding, completions queued, the poller competing for them).  [Gdr]:
      device buffers and the GPUDirect transport.  [HugePage]: the registered huge-page regions.
    - [Tcp]: the TCP transport ([src/transport/tcp.rs]) over a byte stream; the
      peer is a parameter with the frame protocol as its contract
      ([FrameServer], with an in-memory server), and the transport is proved to
      meet [RemoteMemory].  [Faults]: the promise of a transport that may fail
      ([FaultyMemory]), kept by the TCP transport whatever byte its connection
      breaks at, and the simulation of every client program over such a
      transport by the fault model of [Interleave].  [Network]: several
      connections to one server, and its refinement of that model.
    - [Runtime]: the futures and batches of [src/runtime/ops.rs], the completion poller
      ([poller.rs]) and the adapter as a transition system.  [AsyncPoller]: the
      event-driven variant of the poller with notification, re-arming, timeouts
      and the deadline of its busy-poll window, and the simulation of the thread's
      program by it.
    - [Retry]: retry loops and the pending tracker.  [Replication]: the backup.
    - [Engine]: bootstrap, control server, tenant keys.  [Watermark]: the load
      monitor and the statistics of engine and client.
    - [Session]: control client and session over a [Channel]; [ServedChannel]
      says that a control server is at its far end.
    - [Connector], [ConnectorProps]: the LMCache connector.  [Director]: the same
      with the [director] feature; the spawned reports are a pool of tasks that
      run in any order.

    ** What the theorems show

    - Functional refinement: table and region implement finite maps, on every
      branch and over whole traces, without panics; an insertion that answers
      [TableFull] loses exactly one entry.
    - Equivalence: for absent Inline keys on unlocked Inline buckets the client
      writer, the remote writer and the batch flush leave the buckets the table's
      own insertion leaves (a key that is present they store twice,
      [writer_duplicates_key]); the lock-free reads agree
      with [lookup] on a quiescent table; the TCP frames have the effect of the
      memory operations they name.
    - Safety under interleaving: at most one lock holder, and verified optimistic
      reads saw an unchanged payload, as long as holders stay within their
      leases, the 24-bit lease clock does not roll over and there are fewer than
      2^32 releases; in the runtime no completion is lost or delivered to another
      future as long as the callers of [rdma_batch] choose fresh ids, and an
      awaited operation can finish as long as the poller is not stopped.
    - Remote clients at the same time: in every interleaving of their operations,
      some of them failing, the blocks handed out by the remote allocator are
      disjoint and in range, all clients can finish and one of them succeeds
      where nothing fails and the region has room, all this once the bump offset
      is past its own word, which it is not in the region bootstrap creates
      ([remote_extent_hazards]); requests and memory keep their types, and a
      client panics only on a misaligned receive buffer or an oversized extent
      length; insertions into different slots leave what they leave one after the
      other; a value put by the remote writer is read back by the remote reader
      over any transport that meets the contract, on a table without locks and
      tombstones.
      TCP connections that break are an instance of the faults assumed, so the
      guarantees of the allocator hold for any number of clients of one server
      over such connections.
    - Threads: the event-driven poller's program follows the rules of the calls it
      makes whatever they answer, acknowledges what it takes, closes its
      descriptor on every way out, and only makes moves of the transition system,
      in which turns that nothing cuts short harvest a batch.
    - Resources: setting up and tearing down the RDMA transport and a huge-page
      region uses only live handles in the required order and states, and the
      failing branches give back what was acquired, with the exceptions named
      below; a read or write of an idle RDMA transport that reports success had
      its effect, whenever the adapter completes; a guarded post never reaches a broken queue pair; a connector that
      is not used after [close] gives back its descriptor and its threads.
    - Sessions: a session whose heartbeat asks for no reconnect knows the running
      server, through failures and restarts that change the generation.
    - Reclamation: a collection frees exactly the marked extents that precede
      every active client, with the timestamps the control plane maintains.
    - End to end: a value set through the connector is found and read back, and
      every submitted batch is answered exactly once; with the Director it is
      also reported exactly once, under the hashes its keys carry, in no
      particular order.
    - Bounds and termination: no wrap-around where sizes stay within an
      allocation, the kick chain and the retry loop end, the CAS loop ends once
      interference stops, and the load monitor's floating-point thresholds are
      exact.
    - A few theorems describe runs on which the code departs from its
      documentation (their names say so: [deleted_key_still_read],
      [table_full_loses_entry], [exclusion_needs_leases], [mark_hazards],
      [writer_kick_hazards], [remote_extent_hazards],
      [evict_lru_reclaims_nothing], [eviction_removes_nothing],
      [rdma_cas_never_false], [tcp_cas_refused_is_false],
      [drop_closes_device_early], [cas_mismatch_reported_swapped],
      [late_completion_misattributed], [failed_registration_leaks],
      [round_up_wraps], [restart_undetected], [default_poller_loses_wakeup],
      [fragmentation_of_unfragmented_region], [failed_set_reported],
      [batch_id_collision], [remote_insert_race], [poller_steals_completion],
      [shared_channel_misacknowledged], [shutdown_strands_waiters],
      [lost_reservation_leaks], [connected_client_unregistered],
      [submit_after_close], [spawn_failure_leaks], [writer_duplicates_key],
      [batch_duplicates_key], [misaligned_client_panics],
      [oversized_extent_panics], [get_remote_returns_deleted],
      [late_read_overwrites_buffer], [zero_timeout_never_polls],
      [jitter_exceeds_max_delay], [reports_unordered]).

    ** Recursion

    The kick chains recurse on the remaining kicks ([max_kick] of the table, 16
    for the client), the retry loop on the remaining attempts, all other loops on
    a list: no fuel is needed.  The CAS loop [try_acquire_loop] takes fuel,
    because it runs as long as other clients interfere; [acquire_terminates]
    shows that one iteration after the last interference is enough.  The number
    formatter [print_loop] takes the number of bits, and [print_radix_numeral]
    shows that it prints every digit.

    The poller threads run until a flag is set, so their loops take fuel and answer
    whether the thread returned; the safety theorems hold for every fuel, and
    [poller_threads_stop] shows that one turn more than the reads of an unset flag
    is enough.

    ** What the interleavings assume

    A transport operation of a remote client is one atomic step, and so are the
    accesses of the lock protocol and the statements of the runtime between two
    await points.  An operation reported as failed may or may not have taken
    effect.  A poller that has tested the shutdown flag before it was set makes
    one more turn ([LastTurn]).  The adapter executes a posted request of the RDMA
    transport at any later time, and the poller of the transport may take the
    completion first.  The other components are sequential, as their
    mutexes make them.

    ** Not modelled

    The generated bindings ([ibverbs-sys]) are the calls of [verb].  gRPC and TLS
    appear only through the calls made and their outcomes, with the types of that
    library as parameters.  A Python memory view is the bytes it returns, or none
    when the call fails; the Director's tasks are the messages they send, each sent when the task runs.
    Re-exports, tests and benches hold no logic of their own. *)

From stdpp Require Export base numbers list list_numbers option gmap fin_maps fin_map_dom sorting.
From Stdlib Require Export ZArith Lia.

Open Scope Z_scope.

(** ** Notation scope of the development *)

Declare Scope rdmas_scope.
Delimit Scope rdmas_scope with rdmas.

(** ** Rust outcomes

    [result] is [core::result::Result].  [exec] is a computation that returns a
    value or panics (slice index out of range, failed [assert!], [unwrap] of
    [None]); a Rust [Option] is Rocq's [option]. *)

Inductive result (A E : Type) : Type :=
| Ok (a : A)
| Err (e : E).
Arguments Ok {A E} a.
Arguments Err {A E} e.

#[export] Instance result_eq_dec A E `{EqDecision A, EqDecision E} : EqDecision (result A E).
Proof. solve_decision. Defined.

Inductive exec (A : Type) : Type :=
| Done (a : A)
| Panic.
Arguments Done {A} a.
Arguments Panic {A}.

#[export] Instance exec_ret : MRet exec := fun _ a => Done a.
#[export] Instance exec_bind : MBind exec := fun _ _ f m =>
  match m with Done a => f a | Panic => Panic end.
#[export] Instance exec_fmap : FMap exec := fun _ _ f m =>
  match m with Done a => Done (f a) | Panic => Panic end.

(** [assert!] and the bounds checks of indexing. *)
Definition exec_assert (b : bool) : exec unit := if b then Done tt else Panic.

(** The operations that mutate a receiver and return a [Result] are state
    transformers: the new state is there in the error case too. *)
Definition stM (S E A : Type) : Type := S -> exec (S * result A E).

Definition st_ret {S E A} (a : A) : stM S E A := fun s => Done (s, Ok a).
Definition st_err {S E A} (e : E) : stM S E A := fun s => Done (s, Err e).
Definition st_bind {S E A B} (m : stM S E A) (k : A -> stM S E B) : stM S E B :=
  fun s => match m s with
           | Done (s', Ok a) => k a s'
           | Done (s', Err e) => Done (s', Err e)
           | Panic => Panic
           end.
Definition st_get {S E} : stM S E S := fun s => Done (s, Ok s).
Definition st_lift {S E A} (m : exec A) : stM S E A :=
  fun s => match m with Done a => Done (s, Ok a) | Panic => Panic end.

Notation "'let!' x := m 'in' k" := (st_bind m (fun x => k))
  (at level 10, x pattern, m at level 100, k at level 200) : rdmas_scope.
Notation "m ;;! k" := (st_bind m (fun _ => k))
  (at level 100, k at level 200, right associativity) : rdmas_scope.

(** ** Machine integers

    A w-bit unsigned integer is a [Z] in [0 .. 2^w).  [usize] is 64 bits wide
    (the crate targets x86_64).  Arithmetic that the source leaves unchecked
    wraps, as it does in the release profile; the theorems that need exact
    arithmetic say so with a range hypothesis. *)

Definition u8 (x : Z) : Z := x mod 2 ^ 8.
Definition u32 (x : Z) : Z := x mod 2 ^ 32.
Definition u64 (x : Z) : Z := x mod 2 ^ 64.

Definition is_u8 (x : Z) : Prop := 0 <= x < 2 ^ 8.
Definition is_u32 (x : Z) : Prop := 0 <= x < 2 ^ 32.
Definition is_u64 (x : Z) : Prop := 0 <= x < 2 ^ 64.

#[export] Instance is_u8_dec x : Decision (is_u8 x).
Proof. unfold is_u8. apply _. Defined.
#[export] Instance is_u32_dec x : Decision (is_u32 x).
Proof. unfold is_u32. apply _. Defined.
#[export] Instance is_u64_dec x : Decision (is_u64 x).
Proof. unfold is_u64. apply _. Defined.

Definition wrapping_add32 (a b : Z) : Z := u32 (a + b).
Definition wrapping_sub32 (a b : Z) : Z := u32 (a - b).

(** [x << n] and [!x] on u64. *)
Definition shl64 (x n : Z) : Z := u64 (Z.shiftl x n).
Definition not64 (x : Z) : Z := 2 ^ 64 - 1 - x.

(** [u64::is_power_of_two]: exactly one bit set. *)
Definition is_power_of_two (n : Z) : bool := (0 <? n) && (Z.land n (n - 1) =? 0).

(** ** Vectors and byte buffers *)

Definition len {A} (l : list A) : Z := Z.of_nat (length l).

(** [v[i]] and [v[i] = x], panicking out of range. *)
Definition vec_get {A} (l : list A) (i : Z) : exec A :=
  match (if 0 <=? i then l !! Z.to_nat i else None) with
  | Some a => Done a
  | None => Panic
  end.
Definition vec_set {A} (l : list A) (i : Z) (x : A) : exec (list A) :=
  if (0 <=? i) && (i <? len l) then Done (<[Z.to_nat i := x]> l) else Panic.

(** The bytes [off .. off+n) of a buffer, and the buffer with [src] written at
    [off]; both total, used for positions already known to be in range. *)
Definition bread (off n : Z) (l : list Z) : list Z :=
  take (Z.to_nat n) (drop (Z.to_nat off) l).
Definition bwrite (off : Z) (src l : list Z) : list Z :=
  take (Z.to_nat off) l ++ src ++ drop (Z.to_nat off + length src) l.

(** [&buf[lo..hi]] and [buf[lo..hi].copy_from_slice(src)] with their checks. *)
Definition slice (l : list Z) (lo hi : Z) : exec (list Z) :=
  if (0 <=? lo) && (lo <=? hi) && (hi <=? len l) then Done (bread lo (hi - lo) l) else Panic.
Definition slice_write (l : list Z) (lo hi : Z) (src : list Z) : exec (list Z) :=
  if (0 <=? lo) && (lo <=? hi) && (hi <=? len l) && (len src =? hi - lo)
  then Done (bwrite lo src l) else Panic.

(** [to_le_bytes] / [from_le_bytes] of an n-byte unsigned integer. *)
Fixpoint to_le (n : nat) (x : Z) : list Z :=
  match n with
  | O => []
  | S n => x mod 256 :: to_le n (x / 256)
  end.
Fixpoint from_le (l : list Z) : Z :=
  match l with
  | [] => 0
  | b :: l => b + 256 * from_le l
  end.

Definition zeros (n : nat) : list Z := replicate n 0.

(** ** Tactics *)

Create HintDb rdmas.
Create Rewrite HintDb rdmas.

(** Split conjunctions of boolean tests in the hypotheses into arithmetic. *)
Ltac bool_simpl :=
  repeat match goal with
  | H : (_ && _) = true |- _ => apply andb_true_iff in H; destruct H
  | H : (_ || _) = false |- _ => apply orb_false_iff in H; destruct H
  | H : negb _ = true |- _ => apply negb_true_iff in H
  | H : negb _ = false |- _ => apply negb_false_iff in H
  | H : (_ =? _) = true |- _ => apply Z.eqb_eq in H
  | H : (_ =? _) = false |- _ => apply Z.eqb_neq in H
  | H : (_ <=? _) = true |- _ => apply Z.leb_le in H
  | H : (_ <=? _) = false |- _ => apply Z.leb_gt in H
  | H : (_ <? _) = true |- _ => apply Z.ltb_lt in H
  | H : (_ <? _) = false |- _ => apply Z.ltb_ge in H
  end.

(** Arithmetic with division and remainder by constants. *)
Ltac zify_lia := Z.to_euclidean_division_equations; lia.

(** ** Lemmas on [exec] *)

Lemma exec_bind_done {A B} (a : A) (f : A -> exec B) : (Done a ≫= f) = f a.
Proof. reflexivity. Qed.

Lemma exec_bind_Done_inv {A B} (m : exec A) (f : A -> exec B) b :
  (m ≫= f) = Done b -> exists a, m = Done a /\ f a = Done b.
Proof. destruct m as [a|]; [exists a; auto | done]. Qed.

(** ** Lemmas on machine integers *)

Lemma u32_small x : is_u32 x -> u32 x = x.
Proof. unfold is_u32, u32. apply Z.mod_small. Qed.
Lemma u64_small x : is_u64 x -> u64 x = x.
Proof. unfold is_u64, u64. apply Z.mod_small. Qed.
Lemma u32_range x : is_u32 (u32 x).
Proof. unfold is_u32, u32. apply Z.mod_pos_bound. lia. Qed.
Lemma u64_range x : is_u64 (u64 x).
Proof. unfold is_u64, u64. apply Z.mod_pos_bound. lia. Qed.
#[export] Hint Resolve u32_range u64_range : rdmas.

(** Bit masks and shifts as divisions and remainders. *)
Lemma land_mask x n : 0 <= n -> Z.land x (2 ^ n - 1) = x mod 2 ^ n.
Proof. intros. rewrite <- Z.land_ones by lia. f_equal. rewrite Z.ones_equiv. lia. Qed.

Lemma land_bit_zero x n : 0 <= n -> (Z.land x (2 ^ n) =? 0) = negb (Z.testbit x n).
Proof.
  intros Hn. destruct (Z.testbit x n) eqn:E; cbn.
  - apply Z.eqb_neq. intros H. assert (Z.testbit (Z.land x (2 ^ n)) n = false) as Hb
      by (rewrite H; apply Z.testbit_0_l).
    rewrite Z.land_spec, E, Z.pow2_bits_true in Hb by lia. done.
  - apply Z.eqb_eq. apply Z.bits_inj'. intros k Hk. rewrite Z.land_spec, Z.testbit_0_l.
    destruct (decide (k = n)) as [->|]; [rewrite E; done|].
    rewrite Z.pow2_bits_false by lia. apply andb_false_r.
Qed.

Lemma testbit_div_mod x n : 0 <= n -> Z.testbit x n = negb ((x / 2 ^ n) mod 2 =? 0).
Proof.
  intros. rewrite Z.testbit_eqb by lia.
  assert (0 <= (x / 2 ^ n) mod 2 < 2) as Hm by (apply Z.mod_pos_bound; lia).
  revert Hm. generalize ((x / 2 ^ n) mod 2). intros m Hm.
  destruct (m =? 0) eqn:E; bool_simpl; simpl; [apply Z.eqb_neq; lia | apply Z.eqb_eq; lia].
Qed.

Lemma testbit_high x n k : 0 <= x < 2 ^ n -> 0 <= n <= k -> Z.testbit x k = false.
Proof.
  intros Hx Hk. destruct (decide (x = 0)) as [->|]; [apply Z.testbit_0_l|].
  apply Z.bits_above_log2; [lia|]. apply Z.log2_lt_pow2; [lia|].
  eapply Z.lt_le_trans; [apply Hx|]. apply Z.pow_le_mono_r; lia.
Qed.

Lemma lor_shiftl_add a b n : 0 <= n -> 0 <= b < 2 ^ n -> Z.lor (Z.shiftl a n) b = a * 2 ^ n + b.
Proof.
  intros Hn Hb. rewrite <- Z.shiftl_mul_pow2 by lia. symmetry.
  assert (Z.land (Z.shiftl a n) b = 0) as H0.
  { apply Z.bits_inj'. intros k Hk. rewrite Z.land_spec, Z.testbit_0_l.
    destruct (decide (k < n)).
    - rewrite Z.shiftl_spec_low by lia. done.
    - rewrite (testbit_high b n k), andb_false_r by lia. done. }
  rewrite Z.add_nocarry_lxor by done. by rewrite Z.lxor_lor.
Qed.

Lemma lor_add x y n : 0 <= n -> x mod 2 ^ n = 0 -> 0 <= y < 2 ^ n -> Z.lor x y = x + y.
Proof.
  intros Hn Hx Hy. assert (0 < 2 ^ n) by lia.
  assert (Hs : Z.shiftl (x / 2 ^ n) n = x).
  { rewrite Z.shiftl_mul_pow2 by lia. pose proof (Z.div_mod x (2 ^ n)). lia. }
  rewrite <- Hs at 1. rewrite lor_shiftl_add by lia.
  pose proof (Z.div_mod x (2 ^ n)). lia.
Qed.

(** Masking a u64 with [2^64 - 2^k] clears its [k] low bits. *)
Lemma land_high x k : is_u64 x -> 0 <= k <= 64 -> Z.land x (2 ^ 64 - 2 ^ k) = x / 2 ^ k * 2 ^ k.
Proof.
  unfold is_u64. intros Hx Hk.
  replace (2 ^ 64 - 2 ^ k) with (Z.shiftl (Z.ones (64 - k)) k).
  2: { rewrite Z.shiftl_mul_pow2, Z.ones_equiv, Z.mul_pred_l, <- Z.pow_add_r by lia.
       replace (64 - k + k) with 64 by lia. done. }
  rewrite <- Z.shiftr_div_pow2, <- Z.shiftl_mul_pow2 by lia.
  apply Z.bits_inj'. intros i Hi. rewrite Z.land_spec. destruct (decide (i < k)).
  - rewrite !Z.shiftl_spec_low by lia. apply andb_false_r.
  - rewrite !Z.shiftl_spec, Z.shiftr_spec by lia. replace (i - k + k) with i by lia.
    destruct (decide (i < 64)).
    + rewrite Z.ones_spec_low by lia. apply andb_true_r.
    + rewrite Z.ones_spec_high, andb_false_r by lia.
      symmetry. by apply (testbit_high x 64); [|lia].
Qed.

Lemma is_power_of_two_pos n : is_power_of_two n = true -> 0 < n.
Proof. unfold is_power_of_two. intros. bool_simpl. lia. Qed.

(** A power of two other than 1 is even. *)
Lemma is_power_of_two_even n : is_power_of_two n = true -> n <> 1 -> n mod 2 = 0.
Proof.
  unfold is_power_of_two. intros H H1. bool_simpl.
  destruct (decide (n mod 2 = 0)) as [|Ho]; [done|]. exfalso.
  assert (n mod 2 = 1) by (pose proof (Z.mod_pos_bound n 2); lia).
  assert (Z.land n (n - 1) = n - 1) as E.
  { pose proof (Z.div_mod n 2) as Hd.
    assert (Hs : Z.shiftl (n / 2) 1 = n - 1) by (rewrite Z.shiftl_mul_pow2; lia).
    assert (Hl : Z.lor (n - 1) 1 = n) by (rewrite <- Hs, lor_shiftl_add; lia).
    rewrite <- Hl at 1.
    apply Z.bits_inj'. intros k Hk. rewrite Z.land_spec, Z.lor_spec.
    destruct (Z.testbit (n - 1) k); [done | apply andb_false_r]. }
  lia.
Qed.

(** ** Lemmas on vectors *)

Lemma len_nonneg {A} (l : list A) : 0 <= len l.
Proof. unfold len. lia. Qed.
Lemma len_app {A} (l k : list A) : len (l ++ k) = len l + len k.
Proof. unfold len. rewrite length_app. lia. Qed.
Lemma len_replicate {A} n (x : A) : len (replicate n x) = Z.of_nat n.
Proof. unfold len. by rewrite length_replicate. Qed.
#[export] Hint Rewrite @len_app @len_replicate : rdmas.

Lemma vec_get_Some {A} (l : list A) i a :
  0 <= i -> l !! Z.to_nat i = Some a -> vec_get l i = Done a.
Proof. intros ? H. unfold vec_get. destruct (0 <=? i) eqn:E; bool_simpl; [by rewrite H | lia]. Qed.

Lemma vec_get_inv {A} (l : list A) i a :
  vec_get l i = Done a -> 0 <= i /\ l !! Z.to_nat i = Some a.
Proof.
  unfold vec_get. destruct (0 <=? i) eqn:E; [|done]. bool_simpl.
  destruct (l !! Z.to_nat i) eqn:El; [|done]. intros [= ->]. auto.
Qed.

Lemma vec_get_total {A} (l : list A) i :
  0 <= i < len l -> exists a, vec_get l i = Done a /\ l !! Z.to_nat i = Some a.
Proof.
  intros H. destruct (lookup_lt_is_Some_2 l (Z.to_nat i)) as [a Ha]; [unfold len in H; lia|].
  exists a. split; [apply vec_get_Some; [lia | done] | done].
Qed.

Lemma vec_set_Done {A} (l : list A) i x :
  0 <= i < len l -> vec_set l i x = Done (<[Z.to_nat i := x]> l).
Proof.
  intros H. unfold vec_set. destruct ((0 <=? i) && (i <? len l)) eqn:E; [done|].
  apply andb_false_iff in E as [E|E]; bool_simpl; lia.
Qed.

(** ** Lemmas on byte encodings *)

Lemma length_to_le n x : length (to_le n x) = n.
Proof. revert x. induction n; intros; cbn; auto. Qed.
Lemma len_to_le n x : len (to_le n x) = Z.of_nat n.
Proof. unfold len. by rewrite length_to_le. Qed.
#[export] Hint Rewrite length_to_le len_to_le : rdmas.

Lemma from_le_to_le n x : from_le (to_le n x) = x mod 2 ^ (8 * Z.of_nat n).
Proof.
  revert x. induction n as [|n IH]; intros x; [cbn; by rewrite Z.mod_1_r|].
  cbn [to_le from_le]. rewrite IH.
  replace (8 * Z.of_nat (S n)) with (8 + 8 * Z.of_nat n) by lia.
  rewrite Z.pow_add_r by lia. change (2 ^ 8) with 256.
  rewrite Z.rem_mul_r; [done | lia | apply Z.pow_pos_nonneg; lia].
Qed.

Lemma from_le_to_le_id n x :
  0 <= x < 2 ^ (8 * Z.of_nat n) -> from_le (to_le n x) = x.
Proof. intros. rewrite from_le_to_le. by apply Z.mod_small. Qed.

Lemma from_le_to_le_8 x : is_u64 x -> from_le (to_le 8 x) = x.
Proof. intros. by apply from_le_to_le_id. Qed.
Lemma from_le_to_le_4 x : is_u32 x -> from_le (to_le 4 x) = x.
Proof. intros. by apply from_le_to_le_id. Qed.

Lemma to_le_bytes_ok n x : Forall is_u8 (to_le n x).
Proof.
  revert x. induction n; intros; cbn; constructor; auto.
  unfold is_u8. change (2 ^ 8) with 256. apply Z.mod_pos_bound. lia.
Qed.
#[export] Hint Resolve to_le_bytes_ok : rdmas.

Lemma to_le_from_le l : Forall is_u8 l -> to_le (length l) (from_le l) = l.
Proof.
  unfold is_u8. change (2 ^ 8) with 256.
  induction 1 as [|b l Hb _ IH]; [done|]. cbn [length to_le from_le].
  replace (b + 256 * from_le l) with (b + from_le l * 256) by lia.
  rewrite Z.mod_add, Z.div_add, Z.mod_small, (Z.div_small b), Z.add_0_l, IH by lia. done.
Qed.

Lemma from_le_range l : Forall is_u8 l -> 0 <= from_le l < 2 ^ (8 * len l).
Proof.
  unfold len, is_u8. change (2 ^ 8) with 256.
  induction 1 as [|b l Hb _ IH]; [cbn; lia|]. cbn [length from_le].
  replace (8 * Z.of_nat (S (length l))) with (8 + 8 * Z.of_nat (length l)) by lia.
  rewrite Z.pow_add_r by lia. change (2 ^ 8) with 256. lia.
Qed.

Lemma from_le_zeros n : from_le (zeros n) = 0.
Proof. unfold zeros. induction n as [|n IH]; [done|]. cbn [replicate from_le]. lia. Qed.

Lemma from_le_app l k : from_le (l ++ k) = from_le l + 2 ^ (8 * len l) * from_le k.
Proof.
  unfold len. induction l as [|b l IH]; [cbn; lia|]. cbn [app from_le length]. rewrite IH.
  replace (8 * Z.of_nat (S (length l))) with (8 + 8 * Z.of_nat (length l)) by lia.
  rewrite Z.pow_add_r by lia. change (2 ^ 8) with 256. ring.
Qed.

Lemma bytes_ok_zeros n : Forall is_u8 (zeros n).
Proof. apply Forall_replicate. unfold is_u8. lia. Qed.
#[export] Hint Resolve bytes_ok_zeros : rdmas.

(** ** Lemmas on buffers: a write is read back, and frames every other range *)

Section buffers.
Implicit Types (l src : list Z).

Lemma length_bread off n l :
  0 <= off -> 0 <= n -> off + n <= len l -> length (bread off n l) = Z.to_nat n.
Proof. unfold bread, len. intros. rewrite length_take, length_drop. lia. Qed.

Lemma len_bwrite off src l : 0 <= off -> off + len src <= len l -> len (bwrite off src l) = len l.
Proof. unfold bwrite, len. intros. rewrite !length_app, length_take, length_drop. lia. Qed.

Lemma len_zeros n : len (zeros n) = Z.of_nat n.
Proof. apply len_replicate. Qed.

Lemma bread_bwrite_inside off src l o n :
  0 <= off -> off + len src <= len l -> off <= o -> 0 <= n -> o + n <= off + len src ->
  bread o n (bwrite off src l) = bread (o - off) n src.
Proof.
  unfold bread, bwrite, len. intros.
  rewrite drop_app_ge by (rewrite length_take; lia). rewrite length_take.
  rewrite drop_app_le by lia. rewrite take_app_le by (rewrite length_drop; lia).
  f_equal. f_equal. lia.
Qed.

Lemma bread_all src n : n = len src -> bread 0 n src = src.
Proof. unfold bread, len. intros ->. rewrite drop_0, take_ge; [done | lia]. Qed.

Lemma bread_bwrite_same off src l :
  0 <= off -> off + len src <= len l -> bread off (len src) (bwrite off src l) = src.
Proof.
  intros. rewrite bread_bwrite_inside by (pose proof (len_nonneg src); lia).
  rewrite Z.sub_diag. by apply bread_all.
Qed.

Lemma bread_bwrite_disjoint off src l o n :
  0 <= off -> off + len src <= len l -> 0 <= o -> 0 <= n ->
  o + n <= off \/ off + len src <= o ->
  bread o n (bwrite off src l) = bread o n l.
Proof.
  unfold bread, bwrite, len. intros Hoff Hl Ho Hn [H|H].
  - rewrite drop_app_le by (rewrite length_take; lia).
    rewrite take_app_le by (rewrite length_drop, length_take; lia).
    apply list_eq. intros i. destruct (decide (i < Z.to_nat n)%nat).
    + rewrite !lookup_take_lt by lia. rewrite !lookup_drop. apply lookup_take_lt. lia.
    + rewrite !lookup_take_ge by lia. done.
  - rewrite drop_app_ge by (rewrite length_take; lia). rewrite length_take.
    rewrite drop_app_ge by lia. rewrite drop_drop. f_equal. f_equal. lia.
Qed.

Lemma bread_bread o n o' n' l :
  0 <= o -> 0 <= o' -> o' + n' <= n -> bread o' n' (bread o n l) = bread (o + o') n' l.
Proof.
  unfold bread. intros. apply list_eq. intros i. destruct (decide (i < Z.to_nat n')%nat).
  - rewrite !lookup_take_lt by lia. rewrite !lookup_drop, lookup_take_lt by lia.
    rewrite lookup_drop. f_equal. lia.
  - rewrite !lookup_take_ge by lia. done.
Qed.

Lemma bread_split o n m l :
  0 <= o -> 0 <= n -> 0 <= m -> bread o (n + m) l = bread o n l ++ bread (o + n) m l.
Proof.
  unfold bread. intros. rewrite !Z2Nat.inj_add by done. by rewrite <- take_take_drop, drop_drop.
Qed.

Lemma lookup_bread o n l i :
  0 <= o -> bread o n l !! i = if decide (Z.of_nat i < n) then l !! (Z.to_nat o + i)%nat else None.
Proof.
  intros. unfold bread. case_decide.
  - rewrite lookup_take_lt by lia. by rewrite lookup_drop.
  - by rewrite lookup_take_ge by lia.
Qed.

Lemma lookup_bwrite o src l i :
  0 <= o -> o + len src <= len l ->
  bwrite o src l !! i =
  if decide (o <= Z.of_nat i < o + len src) then src !! (i - Z.to_nat o)%nat else l !! i.
Proof.
  unfold bwrite, len. intros. case_decide.
  - rewrite lookup_app_r by (rewrite length_take; lia). rewrite length_take.
    rewrite lookup_app_l by lia. f_equal. lia.
  - destruct (decide (Z.of_nat i < o)).
    + rewrite lookup_app_l by (rewrite length_take; lia). by rewrite lookup_take_lt by lia.
    + rewrite lookup_app_r by (rewrite length_take; lia). rewrite length_take.
      rewrite lookup_app_r by lia. rewrite lookup_drop. f_equal. lia.
Qed.

(** Two adjacent writes are one. *)
Lemma bwrite_app o o' a b l :
  0 <= o -> o' = o + len a -> o + len a + len b <= len l ->
  bwrite o' b (bwrite o a l) = bwrite o (a ++ b) l.
Proof.
  intros Ho -> Hl. pose proof (len_nonneg a). pose proof (len_nonneg b).
  assert (Hw : len (bwrite o a l) = len l) by (apply len_bwrite; lia).
  apply list_eq. intros i. rewrite !lookup_bwrite by (rewrite ?len_app; lia). rewrite len_app.
  unfold len in *. repeat case_decide; try lia.
  - rewrite lookup_app_r by lia. f_equal. lia.
  - by rewrite lookup_app_l by lia.
  - done.
Qed.

(** A write seen through a window that contains it. *)
Lemma bread_bwrite_window o n k src l :
  0 <= o -> 0 <= k -> k + len src <= n -> o + n <= len l ->
  bread o n (bwrite (o + k) src l) = bwrite k src (bread o n l).
Proof.
  intros Ho Hk Hs Hl. pose proof (len_nonneg src).
  assert (Hb : len (bread o n l) = n) by (unfold len; rewrite length_bread; lia).
  apply list_eq. intros i. rewrite lookup_bread, !lookup_bwrite, lookup_bread by lia.
  unfold len in *. repeat case_decide; try lia; try done; f_equal; lia.
Qed.

Lemma bytes_ok_bread o n l : Forall is_u8 l -> Forall is_u8 (bread o n l).
Proof. intros. unfold bread. by apply Forall_take, Forall_drop. Qed.

Lemma bytes_ok_bwrite o src l :
  Forall is_u8 l -> Forall is_u8 src -> Forall is_u8 (bwrite o src l).
Proof. intros. unfold bwrite. rewrite !Forall_app. auto using Forall_take, Forall_drop. Qed.

Lemma slice_Done l lo hi : 0 <= lo <= hi -> hi <= len l -> slice l lo hi = Done (bread lo (hi - lo) l).
Proof.
  intros. unfold slice. destruct ((0 <=? lo) && (lo <=? hi) && (hi <=? len l)) eqn:E; [done|].
  rewrite !andb_false_iff in E. destruct E as [[E|E]|E]; bool_simpl; lia.
Qed.

Lemma slice_write_Done l lo hi src :
  0 <= lo -> hi <= len l -> len src = hi - lo -> slice_write l lo hi src = Done (bwrite lo src l).
Proof.
  intros. pose proof (len_nonneg src). unfold slice_write.
  destruct (_ && _) eqn:E; [done|].
  rewrite !andb_false_iff in E. destruct E as [[[E|E]|E]|E]; bool_simpl; lia.
Qed.
End buffers.

(** Arithmetic on the lengths of written buffers. *)
Ltac len_lia :=
  lazymatch goal with
  | |- context [len (bwrite ?o ?s ?l)] => rewrite (len_bwrite o s l) by len_lia; len_lia
  | _ => rewrite ?len_app, ?len_to_le, ?len_zeros; lia
  end.

#[export] Hint Resolve bytes_ok_bread bytes_ok_bwrite : rdmas.
