(* ===== verification/Float64.v ===== *)
(** * Float64: binary64 arithmetic of the statistics

    The code compares quotients of counters with thresholds in [f64].  A float is
    a [spec_float] of the Standard Library, the arithmetic is that of IEEE 754
    with rounding to nearest even.  The lemmas bound the rounding of a quotient
    and turn a comparison with a decimal threshold into exact arithmetic on the
    counters. *)

From Stdlib Require Import SpecFloat.
From S2P Require Import Prelude.

Open Scope Z_scope.

Abbreviation f64 := spec_float.

Definition f64_of_u64 (n : Z) : f64 := binary_normalize 53 1024 n 0 false.
Definition f64_div (x y : f64) : f64 := SFdiv 53 1024 x y.
Definition f64_gt (x y : f64) : bool := SFltb y x.
Definition f64_zero : f64 := S754_zero false.

(** [a as f64 / b as f64] of two counters. *)
Definition f64_ratio (a b : Z) : f64 := f64_div (f64_of_u64 a) (f64_of_u64 b).

(** ** Digits *)

Lemma digits2_size p : digits2_pos p = Pos.size p.
Proof. induction p as [p IH|p IH|]; cbn; congruence. Qed.

Lemma digits_bounds p :
  2 ^ (Z.pos (digits2_pos p) - 1) <= Z.pos p < 2 ^ Z.pos (digits2_pos p).
Proof.
  rewrite digits2_size. pose proof (Pos.size_gt p) as H1. pose proof (Pos.size_le p) as H2.
  assert (E : 2 ^ Z.pos (Pos.size p) = Z.pos (2 ^ Pos.size p)) by (by rewrite Pos2Z.inj_pow).
  split; [|rewrite E; by apply Pos2Z.pos_lt_pos].
  apply (Z.mul_le_mono_pos_l _ _ 2); [lia|]. rewrite <- Z.pow_succ_r by lia.
  replace (Z.succ _) with (Z.pos (Pos.size p)) by lia. rewrite E. change (2 * Z.pos p) with (Z.pos p~0). lia.
Qed.

Lemma Zdigits2_unique n d : 1 <= d -> 2 ^ (d - 1) <= n < 2 ^ d -> Zdigits2 n = d.
Proof.
  intros Hd Hn. assert (0 < 2 ^ (d - 1)) by (apply Z.pow_pos_nonneg; lia). destruct n as [|p|p]; [lia| |lia].
  cbn [Zdigits2]. pose proof (digits_bounds p) as Hp. set (x := Z.pos (digits2_pos p)) in *.
  destruct (Z.lt_trichotomy x d) as [Hl|[->|Hl]]; [|done|].
  - assert (2 ^ x <= 2 ^ (d - 1)) by (apply Z.pow_le_mono_r; lia). lia.
  - assert (2 ^ d <= 2 ^ (x - 1)) by (apply Z.pow_le_mono_r; lia). lia.
Qed.

(** ** Rounding *)

Lemma fexp_normal e : -1021 <= e -> fexp 53 1024 e = e - 53.
Proof. intros H. unfold fexp, emin. lia. Qed.

(** A mantissa of 53 digits is kept; one of 54 digits loses its last bit. *)
Lemma shr_fexp_53 m e l :
  2 ^ 52 <= m < 2 ^ 53 -> -1000 <= e -> shr_fexp 53 1024 m e l = (shr_record_of_loc m l, e).
Proof.
  intros Hm He. unfold shr_fexp. rewrite (Zdigits2_unique m 53), fexp_normal by lia.
  replace (53 + e - 53 - e) with 0 by lia. reflexivity.
Qed.

Lemma shr_fexp_54 m e l :
  2 ^ 53 <= m < 2 ^ 54 -> -1000 <= e -> shr_fexp 53 1024 m e l = (shr_1 (shr_record_of_loc m l), e + 1).
Proof.
  intros Hm He. unfold shr_fexp. rewrite (Zdigits2_unique m 54), fexp_normal by lia.
  replace (54 + e - 53 - e) with 1 by lia. reflexivity.
Qed.

(** After rounding, a mantissa that reached [2^53] is halved. *)
Lemma round_finish m e :
  2 ^ 52 <= m <= 2 ^ 53 -> -1000 <= e <= 900 ->
  exists p sh, (let '(mrs, e') := shr_fexp 53 1024 m e loc_Exact in
    match shr_m mrs with
    | Z0 => S754_zero false
    | Z.pos m => if e' <=? 1024 - 53 then S754_finite false m e' else S754_infinity false
    | Z.neg _ => S754_nan
    end) = S754_finite false p (e + sh)
    /\ m = Z.pos p * 2 ^ sh /\ 0 <= sh <= 1 /\ 2 ^ 52 <= Z.pos p < 2 ^ 53.
Proof.
  intros Hm He. destruct (Z.eq_dec m (2 ^ 53)) as [->|Hne].
  - rewrite shr_fexp_54 by lia. cbn [shr_record_of_loc]. change (shr_m (shr_1 {| shr_m := 2 ^ 53; shr_r := false; shr_s := false |})) with (2 ^ 52).
    exists (2 ^ 52)%positive, 1. rewrite (proj2 (Z.leb_le (e + 1) (1024 - 53))) by lia. split_and!; (done || lia).
  - rewrite shr_fexp_53 by lia. cbn [shr_record_of_loc shr_m]. destruct m as [|p|p]; [lia| |lia].
    exists p, 0. rewrite (proj2 (Z.leb_le e (1024 - 53))), Z.add_0_r by lia. split_and!; lia || done.
Qed.

(** Where [r / d] lies in the unit interval. *)
Lemma new_location_spec d r :
  new_location d r = if r =? 0 then loc_Exact else loc_Inexact (2 * r ?= d).
Proof.
  unfold new_location, new_location_even, new_location_odd. destruct (Z.even d) eqn:Ed; [done|].
  destruct (r =? 0); [done|]. f_equal. assert (Ho : Z.odd d = true) by by rewrite <- Z.negb_even, Ed.
  apply Z.odd_spec in Ho as [x ->].
  destruct (Z.compare_spec (2 * r + 1) (2 * x + 1)), (Z.compare_spec (2 * r) (2 * x + 1)); done || lia.
Qed.

(** The rounded mantissa is within half a unit of [n / d]. *)
Lemma round_53 q r d :
  0 < d -> 0 <= r < d ->
  exists m, round_nearest_even (shr_m (shr_record_of_loc q (new_location d r)))
    (loc_of_shr_record (shr_record_of_loc q (new_location d r))) = m
    /\ q <= m <= q + 1 /\ 2 * Z.abs (m * d - (q * d + r)) <= d.
Proof.
  intros Hd Hr. rewrite new_location_spec. destruct (Z.eqb_spec r 0) as [->|Hz].
  { exists q. cbn. split_and!; (done || lia). }
  destruct (Z.compare_spec (2 * r) d); cbn.
  - destruct (Z.even q); eexists; (split; [reflexivity|]); split; nia.
  - eexists. split; [reflexivity|]. split; nia.
  - eexists. split; [reflexivity|]. split; nia.
Qed.

Lemma round_54 q r d :
  0 < q -> 0 < d -> 0 <= r < d ->
  exists m, round_nearest_even (shr_m (shr_1 (shr_record_of_loc q (new_location d r))))
    (loc_of_shr_record (shr_1 (shr_record_of_loc q (new_location d r)))) = m
    /\ q / 2 <= m <= q / 2 + 1 /\ 2 * Z.abs (m * 2 * d - (q * d + r)) <= 2 * d.
Proof.
  intros Hq Hd Hr. rewrite new_location_spec. set (l := if r =? 0 then _ else _).
  assert (Hl : exists b1 b2, shr_record_of_loc q l = {| shr_m := q; shr_r := b1; shr_s := b2 |}
    /\ (b1 || b2 = negb (r =? 0))).
  { unfold l. destruct (r =? 0); [by exists false, false|]. destruct (2 * r ?= d); cbn; by eexists _, _. }
  destruct Hl as (b1 & b2 & -> & Hb). destruct q as [|p|p]; [lia| |lia].
  assert (Hs : exists x (b : bool), shr_1 {| shr_m := Z.pos p; shr_r := b1; shr_s := b2 |} = {| shr_m := x; shr_r := b; shr_s := b1 || b2 |}
    /\ Z.pos p = 2 * x + Z.b2z b).
  { destruct p as [p|p|]; cbn; do 2 eexists; split; reflexivity. }
  destruct Hs as (x & b & -> & Ex). rewrite Hb, Ex. replace ((2 * x + Z.b2z b) / 2) with x by (destruct b; cbn [Z.b2z]; Z.to_euclidean_division_equations; lia).
  destruct b, (Z.eqb_spec r 0); cbn [shr_m loc_of_shr_record negb round_nearest_even Z.b2z];
    try destruct (Z.even x); eexists; (split; [reflexivity|]); split; nia.
Qed.

(** ** Conversion *)

(** The number of binary digits of a positive counter. *)
Definition bits (n : Z) : Z := Z.log2 n + 1.

Lemma bits_bounds n : 0 < n -> 2 ^ (bits n - 1) <= n < 2 ^ bits n.
Proof.
  intros Hn. unfold bits. replace (Z.log2 n + 1 - 1) with (Z.log2 n) by lia. exact (Z.log2_spec n Hn).
Qed.

Lemma bits_digits p : Z.pos (digits2_pos p) = bits (Z.pos p).
Proof.
  apply (Zdigits2_unique (Z.pos p)); [unfold bits; pose proof (Z.log2_nonneg (Z.pos p)); lia|].
  by apply bits_bounds.
Qed.

Lemma bits_le n k : 0 < n < 2 ^ k -> 0 <= k -> 1 <= bits n <= k.
Proof.
  intros Hn Hk. unfold bits. pose proof (Z.log2_nonneg n). pose proof (proj1 (Z.log2_lt_pow2 n k ltac:(lia)) ltac:(lia)). lia.
Qed.

Lemma shift_mantissa n : 0 < n < 2 ^ 53 -> 2 ^ 52 <= n * 2 ^ (53 - bits n) < 2 ^ 53.
Proof.
  intros Hn. pose proof (bits_bounds n ltac:(lia)). pose proof (bits_le n 53 Hn ltac:(lia)).
  assert (0 < 2 ^ (53 - bits n)) by (apply Z.pow_pos_nonneg; lia).
  replace (2 ^ 52) with (2 ^ (bits n - 1) * 2 ^ (53 - bits n)) by (rewrite <- Z.pow_add_r by lia; f_equal; lia).
  replace (2 ^ 53) with (2 ^ bits n * 2 ^ (53 - bits n)) by (rewrite <- Z.pow_add_r by lia; f_equal; lia).
  nia.
Qed.

Lemma iter_xO p n : Z.pos (Pos.iter xO p n) = Z.pos p * 2 ^ Z.pos n.
Proof.
  induction n as [|n IH] using Pos.peano_ind; [cbn; lia|].
  rewrite Pos.iter_succ, Pos2Z.inj_xO, IH, Pos2Z.inj_succ, Z.pow_succ_r by lia. lia.
Qed.

(** A counter below [2^53] is represented exactly, with a full mantissa. *)
Lemma f64_of_u64_exact n :
  0 < n < 2 ^ 53 ->
  exists m, f64_of_u64 n = S754_finite false m (bits n - 53) /\ Z.pos m = n * 2 ^ (53 - bits n).
Proof.
  intros Hn. pose proof (bits_le n 53 Hn ltac:(lia)) as Hb. pose proof (shift_mantissa n Hn) as Hs.
  destruct n as [|p|p]; [lia| |lia]. unfold f64_of_u64, binary_normalize, binary_round.
  rewrite bits_digits, Z.add_0_r, fexp_normal by lia.
  assert (Ha : exists m, shl_align p 0 (bits (Z.pos p) - 53) = (m, bits (Z.pos p) - 53)
    /\ Z.pos m = Z.pos p * 2 ^ (53 - bits (Z.pos p))).
  { unfold shl_align. rewrite Z.sub_0_r. destruct (bits (Z.pos p) - 53) as [|x|x] eqn:Ex; [|lia|].
    - exists p. split; [done|]. replace (53 - _) with 0 by lia. lia.
    - exists (Pos.iter xO p x). split; [done|]. rewrite iter_xO. do 2 f_equal. lia. }
  destruct Ha as (m & -> & Em). exists m. split; [|done]. unfold binary_round_aux.
  rewrite shr_fexp_53 by lia. cbn [shr_record_of_loc shr_m loc_of_shr_record round_nearest_even].
  rewrite shr_fexp_53 by lia. cbn [shr_record_of_loc shr_m].
  rewrite (proj2 (Z.leb_le _ _)) by lia. reflexivity.
Qed.

(** ** Quotients *)

(** The quotient of two mantissas, scaled by [2^53]. *)
Lemma quotient_bounds a b :
  2 ^ 52 <= a < 2 ^ 53 -> 2 ^ 52 <= b < 2 ^ 53 -> 2 ^ 52 <= a * 2 ^ 53 / b < 2 ^ 54.
Proof. intros Ha Hb. split; [apply Z.div_le_lower_bound | apply Z.div_lt_upper_bound]; lia. Qed.

Lemma f64_div_full m1 e1 m2 e2 :
  2 ^ 52 <= Z.pos m1 < 2 ^ 53 -> 2 ^ 52 <= Z.pos m2 < 2 ^ 53 -> -100 <= e1 <= 100 -> -100 <= e2 <= 100 ->
  exists p s1 sh, f64_div (S754_finite false m1 e1) (S754_finite false m2 e2)
      = S754_finite false p (e1 - e2 - 53 + sh)
    /\ 2 ^ 52 <= Z.pos p < 2 ^ 53 /\ 0 <= s1 <= sh /\ sh <= 2
    /\ 2 * Z.abs (Z.pos p * 2 ^ sh * Z.pos m2 - Z.pos m1 * 2 ^ 53) <= 2 ^ s1 * Z.pos m2.
Proof.
  intros H1 H2 He1 He2. unfold f64_div, SFdiv, SFdiv_core_binary.
  rewrite (Zdigits2_unique (Z.pos m1) 53), (Zdigits2_unique (Z.pos m2) 53), fexp_normal by lia.
  replace (Z.min _ _) with (e1 - e2 - 53) by lia. replace (e1 - e2 - (e1 - e2 - 53)) with 53 by lia.
  rewrite Z.shiftl_mul_pow2 by lia. pose proof (quotient_bounds _ _ H1 H2) as Hq.
  pose proof (Z.div_mod (Z.pos m1 * 2 ^ 53) (Z.pos m2) ltac:(lia)) as Hdm.
  pose proof (Z.mod_pos_bound (Z.pos m1 * 2 ^ 53) (Z.pos m2) ltac:(lia)) as Hr.
  unfold Z.div, Z.modulo in Hq, Hdm, Hr. destruct (Z.div_eucl (Z.pos m1 * 2 ^ 53) (Z.pos m2)) as [q r].
  unfold binary_round_aux. cbn [xorb]. destruct (Z.lt_ge_cases q (2 ^ 53)) as [Hlt|Hge].
  - rewrite shr_fexp_53 by lia. destruct (round_53 q r (Z.pos m2) ltac:(lia) Hr) as (m & Em & Hm & Herr). rewrite Em.
    destruct (round_finish m (e1 - e2 - 53)) as (p & sh & Ep & Emp & Hsh & Hp); [lia|lia|].
    exists p, 0, sh. rewrite Ep. split_and!; done || lia.
  - rewrite shr_fexp_54 by lia. destruct (round_54 q r (Z.pos m2) ltac:(lia) ltac:(lia) Hr) as (m & Em & Hm & Herr). rewrite Em.
    assert (2 ^ 52 <= q / 2 < 2 ^ 53) by (Z.to_euclidean_division_equations; lia).
    destruct (round_finish m (e1 - e2 - 53 + 1)) as (p & sh & Ep & Emp & Hsh & Hp); [lia|lia|].
    exists p, 1, (sh + 1). rewrite Ep. replace (e1 - e2 - 53 + 1 + sh) with (e1 - e2 - 53 + (sh + 1)) by lia.
    split_and!; try (done || lia). rewrite Z.pow_add_r, Z.mul_assoc, <- Emp by lia. lia.
Qed.

(** The quotient of two counters: a full mantissa [p] at exponent [e], within half
    a unit of the exact quotient. *)
Lemma f64_ratio_bounds k c :
  0 < k < 2 ^ 53 -> 0 < c < 2 ^ 53 ->
  exists p e, f64_ratio k c = S754_finite false p e /\ 2 ^ 52 <= Z.pos p < 2 ^ 53
    /\ (e = -53 -> 2 * Z.abs (Z.pos p * c - k * 2 ^ 53) <= c)
    /\ (-53 < e -> (2 ^ 53 - 1) * c <= 2 ^ 53 * k)
    /\ (e < -53 -> 2 ^ 55 * k <= (2 ^ 54 - 1) * c).
Proof.
  intros Hk Hc. pose proof (bits_le k 53 Hk ltac:(lia)) as Bk. pose proof (bits_le c 53 Hc ltac:(lia)) as Bc.
  destruct (f64_of_u64_exact k Hk) as (m1 & E1 & V1), (f64_of_u64_exact c Hc) as (m2 & E2 & V2).
  pose proof (shift_mantissa k Hk) as S1. pose proof (shift_mantissa c Hc) as S2. rewrite <- V1 in S1. rewrite <- V2 in S2.
  destruct (f64_div_full m1 (bits k - 53) m2 (bits c - 53)) as (p & s1 & sh & Ed & Hp & Hs1 & Hsh & Herr); [lia..|].
  exists p, (bits k - 53 - (bits c - 53) - 53 + sh). unfold f64_ratio. rewrite E1, E2. split; [done|]. split; [done|].
  rewrite V1, V2 in Herr. set (a := bits k) in *. set (b := bits c) in *.
  set (P := 2 ^ (53 - a)) in *. assert (HP : 0 < P) by (apply Z.pow_pos_nonneg; lia).
  set (B := 2 ^ sh * 2 ^ (53 - b)). assert (HB : 2 ^ s1 * 2 ^ (53 - b) <= B).
  { apply Z.mul_le_mono_nonneg_r; [apply Z.pow_nonneg; lia | apply Z.pow_le_mono_r; lia]. }
  assert (HB0 : 0 < B) by (apply Z.mul_pos_pos; apply Z.pow_pos_nonneg; lia).
  assert (Herr' : 2 * Z.abs (Z.pos p * c * B - k * 2 ^ 53 * P) <= c * B).
  { replace (Z.pos p * c * B) with (Z.pos p * 2 ^ sh * (c * 2 ^ (53 - b))) by (unfold B; ring).
    replace (k * 2 ^ 53 * P) with (k * P * 2 ^ 53) by ring. nia. }
  clear Herr HB V1 V2 S1 S2 E1 E2 Ed. split_and!.
  - intros He. assert (HBP : B = P) by (unfold B, P; rewrite <- Z.pow_add_r by lia; f_equal; lia).
    rewrite HBP in Herr'. apply (Z.mul_le_mono_pos_r _ _ P HP). rewrite <- Herr'.
    rewrite <- (Z.abs_eq P) at 1 by lia. rewrite <- Z.mul_assoc, <- Z.abs_mul. apply Z.eq_le_incl. do 2 f_equal. ring.
  - intros He. assert (HBP : 2 * P <= B).
    { unfold B, P. rewrite <- Z.pow_add_r, <- Z.pow_succ_r by lia. apply Z.pow_le_mono_r; lia. }
    assert (H : (2 * Z.pos p - 1) * c * B <= 2 * (k * 2 ^ 53 * P)) by lia.
    assert (H' : (2 ^ 53 - 1) * c * (2 * P) <= (2 * Z.pos p - 1) * c * B) by (apply Z.mul_le_mono_nonneg; nia).
    apply (Z.mul_le_mono_pos_r _ _ (2 * P)); [lia|]. lia.
  - intros He. assert (HBP : 2 * B <= P).
    { unfold B, P. rewrite <- Z.pow_add_r, <- Z.pow_succ_r by lia. apply Z.pow_le_mono_r; lia. }
    assert (H : 2 * (k * 2 ^ 53 * P) <= (2 * Z.pos p + 1) * c * B) by lia.
    assert (H' : (2 * Z.pos p + 1) * c * (2 * B) <= (2 ^ 54 - 1) * c * P) by (apply Z.mul_le_mono_nonneg; nia).
    apply (Z.mul_le_mono_pos_r _ _ P HP). lia.
Qed.

(** A threshold [u / v] between one half and one, as the nearest float. *)
Definition near_fraction (t : positive) (u v : Z) : Prop :=
  2 * Z.abs (Z.pos t * v - u * 2 ^ 53) < v /\ 0 < v <= 4096 /\ v < 2 * u /\ u < v.

(** For counters up to [2^40] the rounded comparison is the exact one. *)
Lemma f64_ratio_gt k c t u v :
  0 <= k < 2 ^ 53 -> 0 < c <= 2 ^ 40 -> near_fraction t u v ->
  f64_gt (f64_ratio k c) (S754_finite false t (-53)) = (u * c <? v * k).
Proof.
  intros Hk Hc (Ht & Hv & Hu1 & Hu2). destruct (Z.eq_dec k 0) as [->|Hk0].
  { unfold f64_ratio. destruct (f64_of_u64_exact c ltac:(lia)) as (m & -> & _). rewrite (proj2 (Z.ltb_ge _ _)) by nia. reflexivity. }
  destruct (f64_ratio_bounds k c ltac:(lia) ltac:(lia)) as (p & e & -> & Hp & H0 & H1 & H2).
  unfold f64_gt, SFltb, SFcompare. destruct (Z.compare_spec (-53) e) as [<-|Hl|Hl].
  - specialize (H0 eq_refl). change (Pos.compare_cont Eq t p) with (Pos.compare t p).
    change (Pos.compare t p) with (Z.pos t ?= Z.pos p).
    destruct (Z.ltb_spec (u * c) (v * k)) as [Hx|Hx].
    + assert (Z.pos t < Z.pos p) as ->%Z.compare_lt_iff by nia. done.
    + assert (Z.pos p <= Z.pos t) as Hle by nia. destruct (Z.compare_spec (Z.pos t) (Z.pos p)); (done || lia).
  - rewrite (proj2 (Z.ltb_lt _ _)) by nia. done.
  - assert (2 * k <= c) by lia. assert (v * (2 * k) <= v * c) by (apply Z.mul_le_mono_nonneg_l; lia).
    assert (v * c <= 2 * u * c) by (apply Z.mul_le_mono_nonneg_r; lia).
    rewrite (proj2 (Z.ltb_ge _ _)) by lia. done.
Qed.
