(* ===== verification/Layout.v ===== *)
(** * Layout: the records of the shared memory (src/engine/layout.rs)

    [HashBucket] with its packed lock word, the key type, the two extent
    header formats and the free-list header, as the bytes that RDMA moves.
    The lemmas give the lock word as a tuple of fields ([lock_view]) and prove
    that each bit-twiddling helper is the field update it means, and that the
    byte images of the records decode back. *)

From S2P Require Import Prelude.

Open Scope Z_scope.

(** ** Constants *)

Definition LEASE_TIMEOUT_MS : Z := 100.
Definition EXTENT_MAGIC : Z := 0x52444D41.
Definition HEADER_SIZE_V2 : Z := 32.

(** ** Types *)

Inductive BucketMode : Type := Inline | Extent.

#[export] Instance BucketMode_eq_dec : EqDecision BucketMode.
Proof. solve_decision. Defined.

(** [mode as u64]. *)
Definition mode_u64 (m : BucketMode) : Z :=
  match m with Inline => 0 | Extent => 1 end.

Record HashedKey : Type := mkHashedKey {
  hk_hash : Z;
  hk_digest : list Z
}.

Record HashBucket : Type := mkBucket {
  lock_version : Z;
  key_hash : Z;
  key_or_digest : list Z;
  body : list Z
}.

#[export] Instance HashBucket_eq_dec : EqDecision HashBucket.
Proof. solve_decision. Defined.

(** [HashBucket::zeroed()]. *)
Definition HashBucket_zeroed : HashBucket := mkBucket 0 0 (zeros 16) (zeros 32).

(** ** Read accessors of the lock word *)

Definition is_locked (b : HashBucket) : bool := negb (Z.land (lock_version b) 0x01 =? 0).
Definition is_tombstone (b : HashBucket) : bool := negb (Z.land (lock_version b) 0x02 =? 0).
Definition is_inline (b : HashBucket) : bool := Z.land (lock_version b) 0x04 =? 0.
Definition is_extent (b : HashBucket) : bool := negb (Z.land (lock_version b) 0x04 =? 0).
Definition version (b : HashBucket) : Z := u32 (Z.shiftr (lock_version b) 32).
Definition lease_ts (b : HashBucket) : Z :=
  u32 (Z.land (Z.shiftr (lock_version b) 8) 0xFFFFFF).

(** ** Write helpers *)

Definition set_lock_version (b : HashBucket) (lv : Z) : HashBucket :=
  mkBucket lv (key_hash b) (key_or_digest b) (body b).

Definition set_locked (b : HashBucket) (lease_ts_ms : Z) (mode : BucketMode) : HashBucket :=
  let version := Z.shiftr (lock_version b) 32 in
  let lease := shl64 (Z.land lease_ts_ms 0xFFFFFF) 8 in
  let mode_bit := shl64 (mode_u64 mode) 2 in
  set_lock_version b (Z.lor (Z.lor (Z.lor (shl64 version 32) lease) mode_bit) 0x01).

Definition unlock_bucket (b : HashBucket) (new_version : Z) : HashBucket :=
  let mode := Z.land (lock_version b) 0x04 in
  set_lock_version b (Z.lor (shl64 new_version 32) mode).

Definition mark_tombstone (b : HashBucket) : HashBucket :=
  let mode := Z.land (lock_version b) 0x04 in
  let version := Z.land (lock_version b) 0xFFFFFFFF00000000 in
  set_lock_version b (Z.lor (Z.lor version mode) 0x02).

Definition is_expired (b : HashBucket) (now_ms timeout_ms : Z) : bool :=
  is_locked b && (timeout_ms <=? wrapping_sub32 now_ms (lease_ts b)).

Definition inline_value (b : HashBucket) : list Z := body b.

Definition set_inline_value (b : HashBucket) (value : list Z) : HashBucket :=
  mkBucket (lock_version b) (key_hash b) (key_or_digest b) value.

(** The two [copy_from_slice] into [body[0..8]] and [body[8..16]]; [body] is a
    [u8; 32], so the ranges are in bounds. *)
Definition set_extent_ref (b : HashBucket) (offset length : Z) : HashBucket :=
  mkBucket (lock_version b) (key_hash b) (key_or_digest b)
    (bwrite 8 (to_le 8 length) (bwrite 0 (to_le 8 offset) (body b))).

Definition extent_ref (b : HashBucket) : Z * Z :=
  (from_le (bread 0 8 (body b)), from_le (bread 8 8 (body b))).

Definition is_empty (b : HashBucket) : bool := (key_hash b =? 0) && negb (is_tombstone b).

Definition matches_key (b : HashBucket) (hash : Z) (digest : list Z) : bool :=
  (key_hash b =? hash) && bool_decide (key_or_digest b = digest).

(** ** Extent headers *)

Record ExtentHeader : Type := mkExtentHeader {
  eh_length : Z;
  eh_epoch_mark : Z;
  eh_magic : Z;
  eh_pad : Z
}.

Record ExtentHeaderV2 : Type := mkExtentHeaderV2 {
  h2_magic : Z;
  h2_version : Z;
  h2_pad1 : list Z;
  h2_data_len : Z;
  h2_pad2 : list Z;
  h2_epoch_mark : Z;
  h2_checksum : Z
}.

Definition ExtentHeaderV2_zeroed : ExtentHeaderV2 :=
  mkExtentHeaderV2 0 0 (zeros 3) 0 (zeros 4) 0 0.

(** [bytemuck::bytes_of] of the [repr(C)] records: the fields in order,
    little endian, at the offsets of the layout tables. *)
Definition bytes_of_header_v1 (h : ExtentHeader) : list Z :=
  to_le 8 (eh_length h) ++ to_le 8 (eh_epoch_mark h) ++ to_le 4 (eh_magic h) ++ to_le 4 (eh_pad h).

Definition bytes_of_header_v2 (h : ExtentHeaderV2) : list Z :=
  to_le 4 (h2_magic h) ++ to_le 1 (h2_version h) ++ h2_pad1 h ++ to_le 4 (h2_data_len h)
  ++ h2_pad2 h ++ to_le 8 (h2_epoch_mark h) ++ to_le 8 (h2_checksum h).

Definition bytes_of_bucket (b : HashBucket) : list Z :=
  to_le 8 (lock_version b) ++ to_le 8 (key_hash b) ++ key_or_digest b ++ body b.

(** [bytemuck::from_bytes::<HashBucket>] of a 64-byte buffer (its address and
    length checks are the caller's concern). *)
Definition bucket_of_bytes (l : list Z) : HashBucket :=
  mkBucket (from_le (bread 0 8 l)) (from_le (bread 8 8 l)) (bread 16 16 l) (bread 32 32 l).

(** [extent::align_up]. *)
Definition align_up (val align : Z) : Z :=
  Z.land (u64 (val + align - 1)) (not64 (align - 1)).

Definition header_total (data_len : Z) : Z := align_up (u64 (HEADER_SIZE_V2 + data_len)) 8.

Definition is_v2 (header_bytes : list Z) : bool :=
  if len header_bytes <? 5 then false
  else (from_le (bread 0 4 header_bytes) =? EXTENT_MAGIC)
       && bool_decide (header_bytes !! 4%nat = Some 1).

Definition header_size_for_version (v : Z) : Z := if v =? 0 then 24 else 32.

Record FreeListHeader : Type := mkFreeListHeader {
  bump_offset : Z;
  fl_pad : list Z
}.

(** ** Well-formed records *)

Record bucket_wf (b : HashBucket) : Prop := {
  bwf_lock : is_u64 (lock_version b);
  bwf_hash : is_u64 (key_hash b);
  bwf_digest_len : length (key_or_digest b) = 16%nat;
  bwf_digest_ok : Forall is_u8 (key_or_digest b);
  bwf_body_len : length (body b) = 32%nat;
  bwf_body_ok : Forall is_u8 (body b)
}.

Record key_wf (k : HashedKey) : Prop := {
  kwf_hash : is_u64 (hk_hash k);
  kwf_digest_len : length (hk_digest k) = 16%nat;
  kwf_digest_ok : Forall is_u8 (hk_digest k)
}.

(** The lock word as its documented fields. *)
Record LockView : Type := mkLockView {
  lv_version : Z;
  lv_lease : Z;
  lv_mode : BucketMode;
  lv_tombstone : bool;
  lv_locked : bool
}.

Definition bucket_mode (b : HashBucket) : BucketMode :=
  if is_extent b then Extent else Inline.

Definition lock_view (b : HashBucket) : LockView :=
  mkLockView (version b) (lease_ts b) (bucket_mode b) (is_tombstone b) (is_locked b).

(** The documented bit layout, as a sum of disjoint fields. *)
Definition lock_word (v : LockView) : Z :=
  lv_version v * 2 ^ 32 + lv_lease v * 2 ^ 8 + mode_u64 (lv_mode v) * 4
  + Z.b2z (lv_tombstone v) * 2 + Z.b2z (lv_locked v).

Definition lock_view_wf (v : LockView) : Prop :=
  is_u32 (lv_version v) /\ 0 <= lv_lease v < 2 ^ 24.

(** ** The accessors as divisions and remainders *)

Section accessors.
Implicit Types (b : HashBucket) (v : LockView).

Lemma is_locked_div b : is_locked b = negb (lock_version b mod 2 =? 0).
Proof.
  unfold is_locked. change 1 with (2 ^ 0). rewrite land_bit_zero, testbit_div_mod by lia.
  by rewrite Z.div_1_r, negb_involutive.
Qed.

Lemma is_tombstone_div b : is_tombstone b = negb (lock_version b / 2 mod 2 =? 0).
Proof.
  unfold is_tombstone. change 2 with (2 ^ 1) at 1. rewrite land_bit_zero, testbit_div_mod by lia.
  by rewrite negb_involutive.
Qed.

Lemma is_extent_div b : is_extent b = negb (lock_version b / 4 mod 2 =? 0).
Proof.
  unfold is_extent. change 4 with (2 ^ 2). rewrite land_bit_zero, testbit_div_mod by lia.
  by rewrite negb_involutive.
Qed.

Lemma is_inline_negb b : is_inline b = negb (is_extent b).
Proof. unfold is_inline, is_extent. by rewrite negb_involutive. Qed.

Lemma version_div b : is_u64 (lock_version b) -> version b = lock_version b / 2 ^ 32.
Proof.
  unfold is_u64, version, u32. intros. rewrite Z.shiftr_div_pow2 by lia.
  apply Z.mod_small. zify_lia.
Qed.

Lemma lease_ts_div b : lease_ts b = lock_version b / 2 ^ 8 mod 2 ^ 24.
Proof.
  unfold lease_ts, u32. change 0xFFFFFF with (2 ^ 24 - 1).
  rewrite land_mask, Z.shiftr_div_pow2 by lia. apply Z.mod_small.
  pose proof (Z.mod_pos_bound (lock_version b / 2 ^ 8) (2 ^ 24)). lia.
Qed.

(** Packing a view and reading it back. *)
Lemma lock_view_lock_word v h d bd :
  lock_view_wf v -> lock_view (mkBucket (lock_word v) h d bd) = v.
Proof.
  destruct v as [ver ls m t lk]. unfold lock_view_wf, lock_view, bucket_mode, is_u32. simpl.
  intros [Hv Hl].
  assert (is_u64 (lock_word (mkLockView ver ls m t lk))) as Hw.
  { unfold is_u64, lock_word. simpl. destruct m, t, lk; simpl; lia. }
  rewrite version_div by done. rewrite lease_ts_div, is_extent_div, is_tombstone_div, is_locked_div.
  unfold lock_word. simpl.
  f_equal; [destruct m, t, lk; simpl; zify_lia .. | | |].
  - destruct m, t, lk; simpl; case_match eqn:E; bool_simpl; try done; exfalso; zify_lia.
  - destruct m, t, lk; simpl; match goal with |- negb ?x = _ => destruct x eqn:E end;
      bool_simpl; simpl; try done; exfalso; zify_lia.
  - destruct m, t, lk; simpl; match goal with |- negb ?x = _ => destruct x eqn:E end;
      bool_simpl; simpl; try done; exfalso; zify_lia.
Qed.

Lemma version_range b : is_u32 (version b).
Proof. unfold version. apply u32_range. Qed.

Lemma lease_ts_range b : 0 <= lease_ts b < 2 ^ 24.
Proof. rewrite lease_ts_div. apply Z.mod_pos_bound. lia. Qed.

Lemma lock_view_wf_view b : lock_view_wf (lock_view b).
Proof. split; [apply version_range | apply lease_ts_range]. Qed.
End accessors.
#[export] Hint Resolve version_range lease_ts_range lock_view_wf_view : rdmas.

(** ** The write helpers, as updates of the fields *)

Section lock_updates.
Implicit Types (b : HashBucket).

Lemma shl64_small x n : 0 <= n -> is_u64 (x * 2 ^ n) -> shl64 x n = x * 2 ^ n.
Proof. intros. unfold shl64. rewrite Z.shiftl_mul_pow2 by lia. by apply u64_small. Qed.

(** The bits an acquirer writes, shared by [set_locked] and the CAS acquire. *)
Lemma lock_bits_word ver lease mode :
  is_u32 ver ->
  Z.lor (Z.lor (Z.lor (shl64 ver 32) (shl64 (Z.land lease 0xFFFFFF) 8)) (shl64 (mode_u64 mode) 2)) 1
  = lock_word (mkLockView ver (lease mod 2 ^ 24) mode false true).
Proof.
  unfold is_u32. intros Hv. change 0xFFFFFF with (2 ^ 24 - 1). rewrite land_mask by lia.
  pose proof (Z.mod_pos_bound lease (2 ^ 24)) as Hl.
  rewrite !shl64_small by (unfold is_u64; destruct mode; simpl; lia).
  rewrite (lor_add (ver * 2 ^ 32) _ 32) by (lia || apply Z.mod_mul; lia).
  rewrite (lor_add (ver * 2 ^ 32 + _) _ 8) by (destruct mode; simpl; zify_lia).
  rewrite (lor_add _ 1 1) by (destruct mode; simpl; zify_lia).
  unfold lock_word. simpl. destruct mode; simpl; lia.
Qed.

Lemma set_locked_word b ts mode :
  is_u64 (lock_version b) ->
  lock_version (set_locked b ts mode)
  = lock_word (mkLockView (version b) (ts mod 2 ^ 24) mode false true).
Proof.
  intros H. unfold set_locked, set_lock_version. simpl.
  replace (Z.shiftr (lock_version b) 32) with (version b).
  2: { rewrite version_div by done. by rewrite Z.shiftr_div_pow2 by lia. }
  apply lock_bits_word. auto with rdmas.
Qed.

Lemma land4 x : Z.land x 4 = (if Z.testbit x 2 then 4 else 0).
Proof.
  apply Z.bits_inj'. intros i Hi. rewrite Z.land_spec.
  change 4 with (2 ^ 2). destruct (decide (i = 2)) as [->|].
  - rewrite Z.pow2_bits_true by lia. rewrite andb_true_r. by destruct (Z.testbit x 2).
  - rewrite Z.pow2_bits_false, andb_false_r by lia. destruct (Z.testbit x 2).
    + change 4 with (2 ^ 2). by rewrite Z.pow2_bits_false by lia.
    + by rewrite Z.testbit_0_l.
Qed.

Lemma land4_mode b : Z.land (lock_version b) 4 = mode_u64 (bucket_mode b) * 4.
Proof.
  unfold bucket_mode. rewrite land4.
  assert (is_extent b = Z.testbit (lock_version b) 2) as ->.
  { unfold is_extent. change 4 with (2 ^ 2). rewrite land_bit_zero by lia. apply negb_involutive. }
  by destruct (Z.testbit _ 2).
Qed.

Lemma unlock_bucket_word b nv :
  is_u32 nv ->
  lock_version (unlock_bucket b nv) = lock_word (mkLockView nv 0 (bucket_mode b) false false).
Proof.
  unfold is_u32. intros H. unfold unlock_bucket, set_lock_version. simpl.
  rewrite land4_mode, shl64_small by (unfold is_u64; lia).
  rewrite (lor_add _ _ 32) by (lia || (apply Z.mod_mul; lia) || (destruct (bucket_mode b); simpl; lia)).
  unfold lock_word. simpl. lia.
Qed.

Lemma mark_tombstone_word b :
  is_u64 (lock_version b) ->
  lock_version (mark_tombstone b)
  = lock_word (mkLockView (version b) 0 (bucket_mode b) true false).
Proof.
  intros H. unfold mark_tombstone, set_lock_version. simpl.
  change 0xFFFFFFFF00000000 with (2 ^ 64 - 2 ^ 32). rewrite land_high by (done || lia).
  rewrite land4_mode, <- version_div by done.
  pose proof (version_range b) as Hr. unfold is_u32 in Hr.
  rewrite (lor_add (version b * 2 ^ 32) _ 32) by (lia || (apply Z.mod_mul; lia) || (destruct (bucket_mode b); simpl; lia)).
  rewrite (lor_add _ 2 2) by (lia || (destruct (bucket_mode b); simpl; zify_lia)).
  unfold lock_word. simpl. lia.
Qed.

Lemma lock_word_range v : lock_view_wf v -> is_u64 (lock_word v).
Proof.
  destruct v as [ver ls m t lk]. unfold lock_view_wf, is_u32, is_u64, lock_word. simpl.
  intros [? ?]. destruct m, t, lk; simpl; lia.
Qed.

Lemma lock_view_of_word b v :
  lock_view_wf v -> lock_version b = lock_word v -> lock_view b = v.
Proof. intros Hv E. destruct b as [lv h d bd]. simpl in E. subst. by apply lock_view_lock_word. Qed.
End lock_updates.

(** ** Byte images *)

Section images.
Implicit Types (b : HashBucket).

Lemma bwrite_0 src l : bwrite 0 src l = src ++ drop (length src) l.
Proof. reflexivity. Qed.

Lemma set_extent_ref_len b o n :
  length (body b) = 32%nat -> length (body (set_extent_ref b o n)) = 32%nat.
Proof.
  intros H. unfold set_extent_ref. cbn [body].
  assert (Hb : len (body b) = 32) by (unfold len; lia).
  assert (H0 : len (bwrite 0 (to_le 8 o) (body b)) = 32)
    by (rewrite len_bwrite; rewrite ?len_to_le; lia).
  assert (E : len (bwrite 8 (to_le 8 n) (bwrite 0 (to_le 8 o) (body b))) = 32)
    by (rewrite len_bwrite; rewrite ?len_to_le; lia).
  unfold len in E. lia.
Qed.

(** Reading back an extent pointer, for a 32-byte body. *)
Lemma extent_ref_set b o n :
  length (body b) = 32%nat -> is_u64 o -> is_u64 n ->
  extent_ref (set_extent_ref b o n) = (o, n).
Proof.
  unfold is_u64. intros Hb Ho Hn. unfold extent_ref, set_extent_ref. cbn [body].
  assert (Hl : len (bwrite 0 (to_le 8 o) (body b)) = 32)
    by (rewrite len_bwrite; rewrite ?len_to_le; unfold len; lia).
  f_equal.
  - rewrite bread_bwrite_disjoint by (rewrite ?len_to_le, ?Hl; lia).
    change 8 with (len (to_le 8 o)) at 1.
    rewrite bread_bwrite_same by (rewrite ?len_to_le; unfold len; lia).
    by rewrite from_le_to_le_id.
  - change 8 with (len (to_le 8 n)) at 2.
    rewrite bread_bwrite_same by (rewrite ?len_to_le, ?Hl; lia).
    by rewrite from_le_to_le_id.
Qed.

Lemma set_extent_ref_wf b o n : bucket_wf b -> bucket_wf (set_extent_ref b o n).
Proof.
  intros []. constructor; try done; [by apply set_extent_ref_len|].
  unfold set_extent_ref. cbn [body]. auto 6 with rdmas.
Qed.

Lemma bread_app_l o n l k : 0 <= o -> 0 <= n -> o + n <= len l -> bread o n (l ++ k) = bread o n l.
Proof.
  unfold bread, len. intros. rewrite drop_app_le by lia.
  by rewrite take_app_le by (rewrite length_drop; lia).
Qed.

Lemma bread_app_r o n l k : len l <= o -> bread o n (l ++ k) = bread (o - len l) n k.
Proof.
  unfold bread, len. intros. rewrite drop_app_ge by lia. f_equal. f_equal. lia.
Qed.

Lemma len_bytes_of_bucket b :
  length (key_or_digest b) = 16%nat -> length (body b) = 32%nat -> len (bytes_of_bucket b) = 64.
Proof.
  intros Hd Hb. unfold bytes_of_bucket. rewrite !len_app, !len_to_le. unfold len. rewrite Hd, Hb. lia.
Qed.

Lemma len_bytes_of_header_v2 h :
  length (h2_pad1 h) = 3%nat -> length (h2_pad2 h) = 4%nat -> len (bytes_of_header_v2 h) = 32.
Proof.
  intros H1 H2. unfold bytes_of_header_v2. rewrite !len_app, !len_to_le. unfold len. rewrite H1, H2. lia.
Qed.

Lemma bucket_bytes_roundtrip_lemma b : bucket_wf b -> bucket_of_bytes (bytes_of_bucket b) = b.
Proof.
  intros [Hlv Hkh Hdl _ Hbl _]. destruct b as [lv kh d bd]. simpl in *.
  unfold bucket_of_bytes, bytes_of_bucket. cbn [lock_version key_hash key_or_digest body].
  assert (len d = 16) by (unfold len; lia). assert (len bd = 32) by (unfold len; lia).
  f_equal.
  - rewrite bread_app_l by (rewrite ?len_to_le; lia).
    rewrite bread_all by (by rewrite len_to_le). by apply from_le_to_le_id.
  - rewrite bread_app_r by (rewrite len_to_le; lia). rewrite len_to_le.
    rewrite bread_app_l by (rewrite ?len_to_le; lia).
    rewrite bread_all by (by rewrite len_to_le). by apply from_le_to_le_id.
  - rewrite !bread_app_r by (rewrite ?len_to_le; lia). rewrite !len_to_le.
    rewrite bread_app_l by lia. by apply bread_all.
  - rewrite !bread_app_r by (rewrite ?len_to_le; lia). rewrite !len_to_le.
    replace (32 - Z.of_nat 8 - Z.of_nat 8 - len d) with 0 by lia. by apply bread_all.
Qed.
End images.

(** ** Alignment *)

Lemma align_up_8 v : 0 <= v -> v + 7 < 2 ^ 64 -> align_up v 8 = (v + 7) / 8 * 8.
Proof.
  intros. unfold align_up. replace (v + 8 - 1) with (v + 7) by lia.
  rewrite u64_small by (unfold is_u64; lia).
  unfold not64. replace (2 ^ 64 - 1 - (8 - 1)) with (2 ^ 64 - 2 ^ 3) by reflexivity.
  rewrite land_high by (unfold is_u64; lia). done.
Qed.

(** ** Properties *)

(** The lock word behaves as the tuple of its documented fields: locking
    stamps the low 24 bits of the lease and the mode, keeps the version and
    clears the tombstone; unlocking installs the new version, keeps the mode and
    clears the rest; marking a tombstone keeps version and mode.  None of them
    touches the key or the body. *)
Theorem lock_word_refines b ts mode nv :
  is_u64 (lock_version b) -> is_u32 nv ->
  lock_view (set_locked b ts mode) = mkLockView (version b) (ts mod 2 ^ 24) mode false true
  /\ lock_view (unlock_bucket b nv) = mkLockView nv 0 (bucket_mode b) false false
  /\ lock_view (mark_tombstone b) = mkLockView (version b) 0 (bucket_mode b) true false
  /\ Forall (fun b' => key_hash b' = key_hash b /\ key_or_digest b' = key_or_digest b
                       /\ body b' = body b /\ is_u64 (lock_version b'))
       [set_locked b ts mode; unlock_bucket b nv; mark_tombstone b].
Proof.
  intros Hb Hn.
  assert (Hts : lock_view_wf (mkLockView (version b) (ts mod 2 ^ 24) mode false true))
    by (split; [apply version_range | apply Z.mod_pos_bound; lia]).
  assert (Hun : lock_view_wf (mkLockView nv 0 (bucket_mode b) false false)) by (split; simpl; lia || done).
  assert (Htb : lock_view_wf (mkLockView (version b) 0 (bucket_mode b) true false))
    by (split; [apply version_range | simpl; lia]).
  split_and!.
  - by apply lock_view_of_word, set_locked_word.
  - by apply lock_view_of_word, unlock_bucket_word.
  - by apply lock_view_of_word, mark_tombstone_word.
  - repeat constructor; rewrite ?set_locked_word, ?unlock_bucket_word, ?mark_tombstone_word by done;
      by apply lock_word_range.
Qed.

(** The 64-byte image of a bucket decodes to the bucket, also after an
    extent reference was packed into its body, which then reads back. *)
Theorem bucket_bytes_roundtrip b o n :
  bucket_wf b -> is_u64 o -> is_u64 n ->
  bucket_of_bytes (bytes_of_bucket b) = b
  /\ len (bytes_of_bucket b) = 64
  /\ extent_ref (bucket_of_bytes (bytes_of_bucket (set_extent_ref b o n))) = (o, n).
Proof.
  intros Hb Ho Hn. pose proof Hb as []. split_and!.
  - by apply bucket_bytes_roundtrip_lemma.
  - by apply len_bytes_of_bucket.
  - rewrite bucket_bytes_roundtrip_lemma by (by apply set_extent_ref_wf). by apply extent_ref_set.
Qed.

Lemma HashBucket_zeroed_wf : bucket_wf HashBucket_zeroed.
Proof. constructor; try done; apply bytes_ok_zeros. Qed.
