(* ===== verification/Cuckoo.v ===== *)
(** * Cuckoo: the two-choice hash table (src/engine/cuckoo.rs)

    The table is the [Vec<HashBucket>] of the source.  Every function of the
    [impl CuckooTable] block is a definition here; indexing panics out of range
    as [Vec] indexing does, so "does not panic" is part of the theorems. *)

From S2P Require Import Prelude Layout.

Open Scope Z_scope.

Definition DEFAULT_MAX_KICK : Z := 16.

Record CuckooTable : Type := mkTable {
  buckets : list HashBucket;
  bucket_count : Z;
  max_kick : Z
}.

Inductive CuckooError : Type := TableFull | InvalidKey.

#[export] Instance CuckooError_eq_dec : EqDecision CuckooError.
Proof. solve_decision. Defined.

Record LookupResult : Type := mkLookupResult {
  lr_value : list Z;
  lr_mode : BucketMode;
  lr_extent_offset : Z;
  lr_extent_length : Z
}.

#[export] Instance LookupResult_eq_dec : EqDecision LookupResult.
Proof. solve_decision. Defined.

Definition set_buckets (t : CuckooTable) (bs : list HashBucket) : CuckooTable :=
  mkTable bs (bucket_count t) (max_kick t).

Definition CuckooTable_new (bucket_count max_kick : Z) : exec CuckooTable :=
  _ ← exec_assert (0 <? bucket_count);
  _ ← exec_assert (is_power_of_two bucket_count);
  Done (mkTable (replicate (Z.to_nat bucket_count) HashBucket_zeroed) bucket_count max_kick).

(** First and second hash function. *)
Definition h1 (t : CuckooTable) (hash : Z) : Z := hash mod bucket_count t.
Definition h2 (t : CuckooTable) (hash : Z) : Z :=
  Z.lor (Z.shiftr hash 32 mod bucket_count t) 1.

Definition pack_body (value : list Z) (mode : BucketMode) : list Z :=
  let max_len := match mode with Inline => 32 | Extent => 16 end in
  let n := Z.min (len value) max_len in
  bwrite 0 (take (Z.to_nat n) value) (zeros 32).

Definition live_match (b : HashBucket) (hash : Z) (digest : list Z) : bool :=
  matches_key b hash digest && negb (is_tombstone b).

Definition find_key_idx (t : CuckooTable) (key : HashedKey) : exec (option Z) :=
  let i1 := h1 t (hk_hash key) in
  let i2 := h2 t (hk_hash key) in
  b1 ← vec_get (buckets t) i1;
  if live_match b1 (hk_hash key) (hk_digest key) then Done (Some i1)
  else
    b2 ← vec_get (buckets t) i2;
    if live_match b2 (hk_hash key) (hk_digest key) then Done (Some i2) else Done None.

(** The fields of a bucket as [lookup] returns them. *)
Definition read_bucket_value (b : HashBucket) : option LookupResult :=
  let mode := if is_extent b then Extent else Inline in
  let '(extent_offset, extent_length) := if is_extent b then extent_ref b else (0, 0) in
  Some (mkLookupResult (body b) mode extent_offset extent_length).

(** [for &idx in &[h1, h2] { .. return Some(..) .. } None]. *)
Fixpoint lookup_loop (bs : list HashBucket) (key : HashedKey) (idxs : list Z)
  : exec (option LookupResult) :=
  match idxs with
  | [] => Done None
  | idx :: idxs =>
      bucket ← vec_get bs idx;
      if live_match bucket (hk_hash key) (hk_digest key)
      then Done (read_bucket_value bucket)
      else lookup_loop bs key idxs
  end.

Definition CuckooTable_lookup (t : CuckooTable) (key : HashedKey) : exec (option LookupResult) :=
  lookup_loop (buckets t) key [h1 t (hk_hash key); h2 t (hk_hash key)].

Definition CuckooTable_delete (t : CuckooTable) (key : HashedKey) : exec (CuckooTable * bool) :=
  found ← find_key_idx t key;
  match found with
  | Some idx =>
      b ← vec_get (buckets t) idx;
      bs ← vec_set (buckets t) idx (mark_tombstone b);
      Done (set_buckets t bs, true)
  | None => Done (t, false)
  end.

(** The bucket [write_slot] stores: lock word reset to the mode bit. *)
Definition slot_bucket (hash : Z) (digest body : list Z) (mode : BucketMode) : HashBucket :=
  mkBucket (shl64 (mode_u64 mode) 2) hash digest body.

Definition write_slot (t : CuckooTable) (idx hash : Z) (digest body : list Z) (mode : BucketMode)
  : exec CuckooTable :=
  bs ← vec_set (buckets t) idx (slot_bucket hash digest body mode);
  Done (set_buckets t bs).

Definition is_free_slot (b : HashBucket) : bool := is_empty b || is_tombstone b.

(** The [for _kick in 0..max_kick] loop; [kicks] counts the iterations left. *)
Fixpoint kick_chain_loop (kicks : nat) (t : CuckooTable) (cur_idx cur_hash : Z)
    (cur_digest cur_body : list Z) (cur_mode : BucketMode)
  : exec (CuckooTable * result unit CuckooError) :=
  match kicks with
  | O => Done (t, Err TableFull)
  | S kicks =>
      occupant ← vec_get (buckets t) cur_idx;
      let occ_hash := key_hash occupant in
      let occ_digest := key_or_digest occupant in
      let occ_body := body occupant in
      let occ_mode := if is_extent occupant then Extent else Inline in
      t ← write_slot t cur_idx cur_hash cur_digest cur_body cur_mode;
      let occ_h1 := h1 t occ_hash in
      let occ_h2 := h2 t occ_hash in
      let alt_idx := if cur_idx =? occ_h1 then occ_h2 else occ_h1 in
      alt ← vec_get (buckets t) alt_idx;
      if is_free_slot alt then
        t ← write_slot t alt_idx occ_hash occ_digest occ_body occ_mode;
        Done (t, Ok tt)
      else kick_chain_loop kicks t alt_idx occ_hash occ_digest occ_body occ_mode
  end.

Definition kick_chain (t : CuckooTable) (start_idx hash : Z) (digest body : list Z)
    (mode : BucketMode) : exec (CuckooTable * result unit CuckooError) :=
  kick_chain_loop (Z.to_nat (max_kick t)) t start_idx hash digest body mode.

(** The two [for &idx in &[h1, h2]] loops of [insert_raw]: the first slot whose
    bucket passes [p], in order. *)
Fixpoint first_slot (p : HashBucket -> bool) (bs : list HashBucket) (idxs : list Z)
  : exec (option Z) :=
  match idxs with
  | [] => Done None
  | idx :: idxs =>
      b ← vec_get bs idx;
      if p b then Done (Some idx) else first_slot p bs idxs
  end.

Definition insert_raw (t : CuckooTable) (hash : Z) (digest body : list Z) (mode : BucketMode)
  : exec (CuckooTable * result unit CuckooError) :=
  let i1 := h1 t hash in
  let i2 := h2 t hash in
  existing ← first_slot (fun b => live_match b hash digest) (buckets t) [i1; i2];
  match existing with
  | Some idx =>
      t ← write_slot t idx hash digest body mode;
      Done (t, Ok tt)
  | None =>
      free ← first_slot is_free_slot (buckets t) [i1; i2];
      match free with
      | Some idx =>
          t ← write_slot t idx hash digest body mode;
          Done (t, Ok tt)
      | None => kick_chain t i1 hash digest body mode
      end
  end.

Definition CuckooTable_insert (t : CuckooTable) (key : HashedKey) (value : list Z)
    (mode : BucketMode) : exec (CuckooTable * result unit CuckooError) :=
  if hk_hash key =? 0 then Done (t, Err InvalidKey)
  else insert_raw t (hk_hash key) (hk_digest key) (pack_body value mode) mode.

Definition CuckooTable_insert_extent (t : CuckooTable) (key : HashedKey) (offset length : Z)
  : exec (CuckooTable * result unit CuckooError) :=
  if hk_hash key =? 0 then Done (t, Err InvalidKey)
  else
    let body := bwrite 8 (to_le 8 length) (bwrite 0 (to_le 8 offset) (zeros 32)) in
    insert_raw t (hk_hash key) (hk_digest key) body Extent.

(** ** The paths without the table mutex *)

(** [write_bucket_raw]: in Extent mode the old body bytes stay. *)
Definition write_bucket_raw (old : HashBucket) (key : HashedKey) (value : list Z)
    (mode : BucketMode) : HashBucket :=
  let b := mkBucket (shl64 (mode_u64 mode) 2) (hk_hash key) (hk_digest key) (body old) in
  match mode with
  | Inline =>
      let n := Z.min (len value) 32 in
      set_inline_value b (bwrite 0 (take (Z.to_nat n) value) (zeros 32))
  | Extent => b
  end.

(** [ptr.add(idx)] is not bounds checked in the source; out of range it is
    undefined behaviour, which the model renders as a panic. *)
Definition try_cas_insert (t : CuckooTable) (key : HashedKey) (value : list Z)
    (mode : BucketMode) (idx : Z) : exec (CuckooTable * bool) :=
  bucket ← vec_get (buckets t) idx;
  if is_locked bucket then Done (t, false)
  else if is_empty bucket || is_tombstone bucket then
    bs ← vec_set (buckets t) idx (write_bucket_raw bucket key value mode);
    Done (set_buckets t bs, true)
  else Done (t, false).

Definition insert_lock_free (t : CuckooTable) (key : HashedKey) (value : list Z)
    (mode : BucketMode) : exec (CuckooTable * result unit CuckooError) :=
  if hk_hash key =? 0 then Done (t, Err InvalidKey)
  else
    let i1 := hk_hash key mod bucket_count t in
    let i2 := Z.lor (Z.shiftr (hk_hash key) 32 mod bucket_count t) 1 in
    '(t, ok) ← try_cas_insert t key value mode i1;
    if (ok : bool) then Done (t, Ok tt)
    else
      '(t, ok) ← try_cas_insert t key value mode i2;
      if (ok : bool) then Done (t, Ok tt) else Done (t, Err TableFull).

Definition lookup_lock_free (t : CuckooTable) (key : HashedKey) : exec (option LookupResult) :=
  let n := len (buckets t) in
  let i1 := (hk_hash key mod bucket_count t) mod n in
  let i2 := (Z.lor (Z.shiftr (hk_hash key) 32 mod bucket_count t) 1) mod n in
  b1 ← vec_get (buckets t) i1;
  if negb (is_locked b1) && matches_key b1 (hk_hash key) (hk_digest key)
  then Done (read_bucket_value b1)
  else
    b2 ← vec_get (buckets t) i2;
    if negb (is_locked b2) && matches_key b2 (hk_hash key) (hk_digest key)
    then Done (read_bucket_value b2)
    else Done None.

Definition try_read_bucket (t : CuckooTable) (key : HashedKey) (idx : Z)
  : exec (option (list Z * BucketMode)) :=
  bucket ← vec_get (buckets t) idx;
  if is_locked bucket then Done None
  else if negb (matches_key bucket (hk_hash key) (hk_digest key)) then Done None
  else if is_inline bucket then Done (Some (inline_value bucket, Inline))
  else Done (Some ([], Extent)).

Definition get_fast (t : CuckooTable) (key : HashedKey) : exec (option (list Z * BucketMode)) :=
  let i1 := hk_hash key mod bucket_count t in
  let i2 := Z.lor (Z.shiftr (hk_hash key) 32 mod bucket_count t) 1 in
  r ← try_read_bucket t key i1;
  match r with
  | Some result => Done (Some result)
  | None => try_read_bucket t key i2
  end.
