(* ===== verification/CuckooSpec.v ===== *)
(** * CuckooSpec: the hash table implements a finite map

    The abstract state of a table is the finite map [table_map] from
    (hash, digest) to (body, mode) of its live buckets.  [table_wf] is the
    invariant: the bucket array has the configured power-of-two size, every
    live bucket lies in one of the two slots of its key, and no key is live
    twice.  The theorems are a functional refinement: each operation returns
    (never panics), preserves [table_wf], and acts on [table_map] as the map
    operation it stands for; the one exception, [TableFull], drops exactly one
    entry. *)

From S2P Require Import Prelude Layout Cuckoo.

Open Scope Z_scope.

Abbreviation ckey := (Z * list Z)%type.
Abbreviation cval := (list Z * BucketMode)%type.

(** ** Abstraction *)

Definition bucket_entry (b : HashBucket) : option (ckey * cval) :=
  if is_free_slot b then None
  else Some ((key_hash b, key_or_digest b), (body b, bucket_mode b)).

Definition slots_map (bs : list HashBucket) : gmap ckey cval := list_to_map (omap bucket_entry bs).
Definition table_map (t : CuckooTable) : gmap ckey cval := slots_map (buckets t).

Definition key_of (k : HashedKey) : ckey := (hk_hash k, hk_digest k).

(** What a lookup returns for a stored value. *)
Definition cval_result (v : cval) : LookupResult :=
  match v.2 with
  | Inline => mkLookupResult v.1 Inline 0 0
  | Extent => mkLookupResult v.1 Extent (from_le (bread 0 8 v.1)) (from_le (bread 8 8 v.1))
  end.

(** ** Invariant *)

Definition slots_unique (bs : list HashBucket) : Prop :=
  forall i j b1 b2 k v1 v2,
    bs !! i = Some b1 -> bs !! j = Some b2 ->
    bucket_entry b1 = Some (k, v1) -> bucket_entry b2 = Some (k, v2) -> i = j.

Definition home (t : CuckooTable) (i hash : Z) : Prop := i = h1 t hash \/ i = h2 t hash.

Record table_wf (t : CuckooTable) : Prop := {
  twf_len : len (buckets t) = bucket_count t;
  twf_pow2 : is_power_of_two (bucket_count t) = true;
  twf_ne1 : bucket_count t <> 1;
  twf_kick : 0 <= max_kick t;
  twf_buckets : Forall bucket_wf (buckets t);
  twf_home : forall i b, buckets t !! i = Some b -> is_free_slot b = false ->
               home t (Z.of_nat i) (key_hash b);
  twf_unique : slots_unique (buckets t)
}.

(** ** Lemmas on slots *)

Section slots.
Implicit Types (b : HashBucket) (bs : list HashBucket).

Lemma is_free_slot_false b :
  is_free_slot b = false <-> key_hash b <> 0 /\ is_tombstone b = false.
Proof.
  unfold is_free_slot, is_empty. rewrite orb_false_iff, andb_false_iff, negb_false_iff, Z.eqb_neq.
  destruct (is_tombstone b); intuition congruence.
Qed.

Lemma matches_key_spec b h d :
  matches_key b h d = true <-> key_hash b = h /\ key_or_digest b = d.
Proof. unfold matches_key. by rewrite andb_true_iff, Z.eqb_eq, bool_decide_eq_true. Qed.

(** With a non-zero hash, the live match of the code finds the entry of the key. *)
Lemma live_match_entry b h d :
  h <> 0 ->
  live_match b h d = true <-> bucket_entry b = Some ((h, d), (body b, bucket_mode b)).
Proof.
  intros Hh. unfold live_match, bucket_entry.
  rewrite andb_true_iff, matches_key_spec, negb_true_iff.
  destruct (is_free_slot b) eqn:E.
  - split; [|done]. intros [[Hk Hd] Ht].
    assert (is_free_slot b = false) by (apply is_free_slot_false; split; congruence). congruence.
  - apply is_free_slot_false in E as [_ Ht]. split; [|by intros [= -> ->]].
    by intros [[-> ->] _].
Qed.

Lemma bucket_entry_Some b k v :
  bucket_entry b = Some (k, v) <->
  is_free_slot b = false /\ k = (key_hash b, key_or_digest b) /\ v = (body b, bucket_mode b).
Proof. unfold bucket_entry. destruct (is_free_slot b); naive_solver. Qed.

Lemma slots_unique_cons b bs : slots_unique (b :: bs) -> slots_unique bs.
Proof.
  intros H i j b1 b2 k v1 v2 H1 H2 H3 H4.
  assert (S i = S j) by (by eapply (H (S i) (S j))). lia.
Qed.

Lemma slots_unique_NoDup bs : slots_unique bs -> NoDup (omap bucket_entry bs).*1.
Proof.
  induction bs as [|b bs IH]; intros Hu; [constructor|]. cbn.
  destruct (bucket_entry b) as [[k v]|] eqn:E; [|by apply IH, slots_unique_cons with b].
  cbn. constructor; [|by apply IH, slots_unique_cons with b].
  rewrite list_elem_of_fmap. intros ([k' v'] & -> & Hin). simpl in *.
  apply list_elem_of_omap in Hin as (b' & [i Hi]%list_elem_of_lookup & E').
  assert (0%nat = S i) by (by eapply (Hu 0%nat (S i))). lia.
Qed.

(** The map of the slots, by its points. *)
Lemma slots_map_lookup bs k v :
  slots_unique bs ->
  slots_map bs !! k = Some v <-> exists i b, bs !! i = Some b /\ bucket_entry b = Some (k, v).
Proof.
  intros Hu. unfold slots_map. rewrite <- elem_of_list_to_map by (by apply slots_unique_NoDup).
  rewrite list_elem_of_omap. setoid_rewrite list_elem_of_lookup. naive_solver.
Qed.

Lemma slots_map_lookup_None bs k :
  slots_unique bs ->
  slots_map bs !! k = None <-> forall i b v, bs !! i = Some b -> bucket_entry b <> Some (k, v).
Proof.
  intros Hu. rewrite eq_None_not_Some. unfold is_Some. setoid_rewrite slots_map_lookup; [|done].
  naive_solver.
Qed.

(** The map after overwriting slot [i]. *)
Definition drop_entry (b : HashBucket) (m : gmap ckey cval) : gmap ckey cval :=
  match bucket_entry b with Some (k, _) => delete k m | None => m end.
Definition put_entry (b : HashBucket) (m : gmap ckey cval) : gmap ckey cval :=
  match bucket_entry b with Some (k, v) => <[k := v]> m | None => m end.

Lemma slots_unique_insert bs i b0 b' :
  slots_unique bs -> bs !! i = Some b0 ->
  (forall k v, bucket_entry b' = Some (k, v) -> drop_entry b0 (slots_map bs) !! k = None) ->
  slots_unique (<[i := b']> bs).
Proof.
  intros Hu Hi Hnew j1 j2 b1 b2 k v1 v2 H1 H2 E1 E2.
  assert (Hfresh : forall j b v, j <> i -> bs !! j = Some b -> bucket_entry b = Some (k, v) ->
            bucket_entry b' = Some (k, v1) \/ bucket_entry b' = Some (k, v2) -> False).
  { intros j b v Hj Hb Eb Hb'.
    assert (slots_map bs !! k = Some v) as Hm by (apply slots_map_lookup; naive_solver).
    assert (drop_entry b0 (slots_map bs) !! k = None) as Hd by naive_solver.
    unfold drop_entry in Hd. destruct (bucket_entry b0) as [[k0 v0]|] eqn:E0; [|congruence].
    destruct (decide (k0 = k)) as [->|]; [by apply Hj; eapply Hu|].
    rewrite lookup_delete_ne in Hd by done. congruence. }
  apply list_lookup_insert_Some in H1 as [(<- & <- & _)|[Hj1 H1]];
    apply list_lookup_insert_Some in H2 as [(-> & Hb2 & _)|[Hj2 H2]]; try done.
  - exfalso. eapply Hfresh; [|exact H2|exact E2|by left]; done.
  - subst. exfalso. eapply Hfresh; [|exact H1|exact E1|by right]; done.
  - by eapply Hu.
Qed.

Lemma slots_map_insert bs i b0 b' :
  slots_unique bs -> bs !! i = Some b0 -> slots_unique (<[i := b']> bs) ->
  slots_map (<[i := b']> bs) = put_entry b' (drop_entry b0 (slots_map bs)).
Proof.
  intros Hu Hi Hu'. apply map_eq. intros k. apply option_eq. intros v.
  rewrite slots_map_lookup by done.
  assert (Hlt : (i < length bs)%nat) by (by eapply lookup_lt_Some).
  assert (Hd : drop_entry b0 (slots_map bs) !! k = Some v <->
               exists j b, j <> i /\ bs !! j = Some b /\ bucket_entry b = Some (k, v)).
  { unfold drop_entry. destruct (bucket_entry b0) as [[k0 v0]|] eqn:E0.
    - rewrite lookup_delete_Some, slots_map_lookup by done. split.
      + intros (Hk & j & b & Hj & Eb). exists j, b. split; [|done]. intros ->.
        rewrite Hi in Hj. simplify_eq.
      + intros (j & b & Hji & Hj & Eb). split; [|by eauto]. intros ->. by apply Hji; eapply Hu.
    - rewrite slots_map_lookup by done. split; [|naive_solver].
      intros (j & b & Hj & Eb). exists j, b. split; [|done]. intros ->.
      rewrite Hi in Hj. simplify_eq. }
  unfold put_entry. destruct (bucket_entry b') as [[k' v']|] eqn:E'.
  - rewrite lookup_insert_Some, Hd. setoid_rewrite list_lookup_insert_Some. split.
    + intros (j & b & [(<- & <- & _)|[Hj Hb]] & Eb); [naive_solver|].
      right. split; [|by eauto]. intros ->. apply Hj.
      eapply (Hu' i j b' b); [by apply list_lookup_insert_eq | by rewrite list_lookup_insert_ne | done..].
    + intros [[-> ->]|(Hk & j & b & Hj & Hb & Eb)]; [by exists i, b'; naive_solver|].
      exists j, b. naive_solver.
  - rewrite Hd. setoid_rewrite list_lookup_insert_Some. naive_solver.
Qed.
End slots.

(** ** The two slots of a key are in range *)

Section table.
Implicit Types (t : CuckooTable).

Lemma lor_1 x : Z.lor x 1 = if Z.odd x then x else x + 1.
Proof.
  pose proof (Z.div2_odd x) as Hx. destruct (Z.odd x) eqn:E; simpl in Hx.
  - rewrite Hx. replace (2 * Z.div2 x + 1) with (Z.lor (Z.shiftl (Z.div2 x) 1) 1)
      by (rewrite lor_shiftl_add by lia; lia).
    by rewrite <- Z.lor_assoc, Z.lor_diag.
  - apply (lor_add x 1 1); [lia | | lia].
    rewrite Hx. change (2 ^ 1) with 2. replace (2 * Z.div2 x + 0) with (Z.div2 x * 2) by lia.
    by apply Z.mod_mul.
Qed.

Lemma h1_range t hash : table_wf t -> 0 <= h1 t hash < len (buckets t).
Proof.
  intros Hwf. rewrite (twf_len _ Hwf). apply Z.mod_pos_bound, is_power_of_two_pos, Hwf.
Qed.

(** The second hash is in range because the bucket count is even. *)
Lemma h2_range t hash : table_wf t -> 0 <= h2 t hash < len (buckets t).
Proof.
  intros Hwf. rewrite (twf_len _ Hwf). unfold h2.
  pose proof (is_power_of_two_pos _ (twf_pow2 _ Hwf)) as Hp.
  pose proof (is_power_of_two_even _ (twf_pow2 _ Hwf) (twf_ne1 _ Hwf)) as He.
  pose proof (Z.mod_pos_bound (Z.shiftr hash 32) (bucket_count t) Hp) as Hr.
  rewrite lor_1. destruct (Z.odd _) eqn:E; [done|].
  assert (Z.shiftr hash 32 mod bucket_count t <> bucket_count t - 1); [|lia].
  intros Hc. rewrite Hc, <- Z.negb_even in E. apply negb_false_iff, Z.even_spec in E as [k Hk].
  rewrite (Z.div_mod (bucket_count t) 2), He in Hk; lia.
Qed.

Lemma home_range t i hash : table_wf t -> home t i hash -> 0 <= i < len (buckets t).
Proof. intros ? [->| ->]; auto using h1_range, h2_range. Qed.

(** ** Writing a slot *)

Record entry_wf (h : Z) (d bd : list Z) : Prop := {
  ewf_hash : is_u64 h;
  ewf_nonzero : h <> 0;
  ewf_digest_len : length d = 16%nat;
  ewf_digest_ok : Forall is_u8 d;
  ewf_body_len : length bd = 32%nat;
  ewf_body_ok : Forall is_u8 bd
}.

Lemma slot_lock_word mode : shl64 (mode_u64 mode) 2 = lock_word (mkLockView 0 0 mode false false).
Proof. by destruct mode. Qed.

Lemma slot_bucket_view h d bd m :
  lock_view (slot_bucket h d bd m) = mkLockView 0 0 m false false.
Proof.
  unfold slot_bucket. rewrite slot_lock_word. apply lock_view_lock_word.
  unfold lock_view_wf, is_u32. simpl. lia.
Qed.

Lemma slot_bucket_wf h d bd m : entry_wf h d bd -> bucket_wf (slot_bucket h d bd m).
Proof. intros []. constructor; try done. destruct m; by vm_compute. Qed.

Lemma slot_bucket_live h d bd m : h <> 0 -> is_free_slot (slot_bucket h d bd m) = false.
Proof.
  intros. apply is_free_slot_false. split; [done|].
  exact (f_equal lv_tombstone (slot_bucket_view h d bd m)).
Qed.

Lemma slot_bucket_entry h d bd m :
  h <> 0 -> bucket_entry (slot_bucket h d bd m) = Some ((h, d), (bd, m)).
Proof.
  intros. apply bucket_entry_Some. split_and!; [by apply slot_bucket_live | done |].
  f_equal. symmetry. exact (f_equal lv_mode (slot_bucket_view h d bd m)).
Qed.

(** Two tables with the same shape; the slot functions agree on them. *)
Definition same_shape (t t' : CuckooTable) : Prop :=
  bucket_count t' = bucket_count t /\ max_kick t' = max_kick t.

Lemma same_shape_home t t' i h : same_shape t t' -> home t i h <-> home t' i h.
Proof. intros [E _]. unfold home, h1, h2. by rewrite E. Qed.

Lemma write_slot_spec t idx h d bd m b0 :
  table_wf t -> entry_wf h d bd -> home t idx h ->
  buckets t !! Z.to_nat idx = Some b0 ->
  drop_entry b0 (table_map t) !! (h, d) = None ->
  exists t', write_slot t idx h d bd m = Done t' /\ table_wf t' /\ same_shape t t'
    /\ buckets t' = <[Z.to_nat idx := slot_bucket h d bd m]> (buckets t)
    /\ table_map t' = <[(h, d) := (bd, m)]> (drop_entry b0 (table_map t)).
Proof.
  intros Hwf He Hh Hb0 Hfresh. pose proof (home_range _ _ _ Hwf Hh) as Hr.
  pose proof (ewf_nonzero _ _ _ He) as Hn.
  eexists. unfold write_slot. rewrite vec_set_Done by done. rewrite exec_bind_done.
  assert (Hu : slots_unique (<[Z.to_nat idx := slot_bucket h d bd m]> (buckets t))).
  { eapply slots_unique_insert; [apply Hwf | done |]. intros k v.
    rewrite slot_bucket_entry by done. by intros [= <- <-]. }
  split_and!; [reflexivity | | by split | done |].
  - constructor; try apply Hwf; cbn [set_buckets buckets bucket_count max_kick].
    + unfold len. rewrite length_insert. apply Hwf.
    + apply Forall_insert; [apply Hwf | by apply slot_bucket_wf].
    + intros i b [(<- & <- & _)|[_ Hi]]%list_lookup_insert_Some Hfree.
      * rewrite Z2Nat.id by lia. done.
      * by apply (twf_home _ Hwf).
    + done.
  - unfold table_map at 1. cbn [set_buckets buckets].
    rewrite (slots_map_insert _ _ b0) by (done || apply Hwf).
    unfold put_entry. by rewrite slot_bucket_entry.
Qed.

(** ** Reading buckets *)

Lemma bucket_at t i :
  table_wf t -> 0 <= i < len (buckets t) ->
  exists b, vec_get (buckets t) i = Done b /\ buckets t !! Z.to_nat i = Some b /\ bucket_wf b.
Proof.
  intros Hwf Hi. destruct (vec_get_total (buckets t) i Hi) as (b & Hg & Hb).
  exists b. split_and!; [done..|]. eapply Forall_lookup_1; [apply Hwf | done].
Qed.

(** A live bucket is the entry of its key. *)
Lemma live_entry t i b :
  table_wf t -> buckets t !! i = Some b -> is_free_slot b = false ->
  table_map t !! (key_hash b, key_or_digest b) = Some (body b, bucket_mode b)
  /\ entry_wf (key_hash b) (key_or_digest b) (body b)
  /\ drop_entry b (table_map t) = delete (key_hash b, key_or_digest b) (table_map t).
Proof.
  intros Hwf Hi Hf.
  assert (He : bucket_entry b = Some ((key_hash b, key_or_digest b), (body b, bucket_mode b)))
    by (by apply bucket_entry_Some).
  split_and!.
  - apply slots_map_lookup; [apply Hwf | by eauto].
  - apply is_free_slot_false in Hf as [? _].
    destruct (Forall_lookup_1 _ _ _ _ (twf_buckets _ Hwf) Hi). by constructor.
  - unfold drop_entry. by rewrite He.
Qed.

Lemma free_entry b m : is_free_slot b = true -> drop_entry b m = m.
Proof. intros E. unfold drop_entry, bucket_entry. by rewrite E. Qed.

(** An entry of the map sits in one of the two slots of its key. *)
Lemma entry_slot t k v :
  table_wf t -> table_map t !! k = Some v ->
  exists i b, home t i k.1 /\ buckets t !! Z.to_nat i = Some b /\ bucket_entry b = Some (k, v).
Proof.
  intros Hwf (i & b & Hi & He)%slots_map_lookup; [|apply Hwf].
  exists (Z.of_nat i), b. rewrite Nat2Z.id. split_and!; [|done..].
  apply bucket_entry_Some in He as (Hf & -> & _). by apply (twf_home _ Hwf).
Qed.

(** ** The kick chain *)

(** What an insertion that aims at the map [M] leaves: [M] itself, or, when the
    table is full, [M] without exactly one of its entries. *)
Definition insert_outcome (t : CuckooTable) (M : gmap ckey cval)
    (r : CuckooTable * result unit CuckooError) : Prop :=
  table_wf r.1 /\ same_shape t r.1 /\
  match r.2 with
  | Ok _ => table_map r.1 = M
  | Err TableFull => exists k v, M !! k = Some v /\ table_map r.1 = delete k M
  | Err InvalidKey => False
  end.

(** Swapping the entry in hand with a stored one does not change their union. *)
Lemma insert_swap (m : gmap ckey cval) k v k0 v0 :
  m !! k = None -> m !! k0 = Some v0 ->
  <[k0 := v0]> (<[k := v]> (delete k0 m)) = <[k := v]> m
  /\ <[k := v]> (delete k0 m) !! k0 = None.
Proof.
  intros Hk Hk0. assert (k <> k0) by congruence. split.
  - rewrite insert_insert_ne by done. rewrite insert_delete_eq. by rewrite (insert_id m).
  - rewrite lookup_insert_ne, lookup_delete_eq by done. done.
Qed.

Lemma alt_home t i hash :
  home t (if i =? h1 t hash then h2 t hash else h1 t hash) hash.
Proof. unfold home. destruct (i =? h1 t hash); auto. Qed.

Lemma kick_chain_loop_spec kicks t idx h d bd m b0 :
  table_wf t -> entry_wf h d bd -> home t idx h ->
  table_map t !! (h, d) = None ->
  buckets t !! Z.to_nat idx = Some b0 -> is_free_slot b0 = false ->
  exists r, kick_chain_loop kicks t idx h d bd m = Done r
    /\ insert_outcome t (<[(h, d) := (bd, m)]> (table_map t)) r.
Proof.
  revert t idx h d bd m b0.
  induction kicks as [|kicks IH]; intros t idx h d bd m b0 Hwf He Hh Hfresh Hb0 Hlive.
  { eexists. split; [reflexivity|]. split; [done|]. split; [by split|].
    exists (h, d), (bd, m). rewrite lookup_insert_eq. split; [done|].
    simpl. by rewrite delete_insert_eq, delete_id. }
  destruct (bucket_at t idx Hwf (home_range _ _ _ Hwf Hh)) as (b & Hg & Hb & _).
  simplify_eq. cbn [kick_chain_loop]. rewrite Hg, exec_bind_done.
  destruct (live_entry t _ b0 Hwf Hb0 Hlive) as (Hm0 & He0 & Hd0).
  destruct (insert_swap _ _ (bd, m) _ _ Hfresh Hm0) as [Hswap Hk0].
  destruct (write_slot_spec t idx h d bd m b0 Hwf He Hh Hb0) as (t1 & Hw & Hwf1 & Hs1 & Hbs1 & Hmap1).
  { rewrite Hd0, lookup_delete_None. auto. }
  rewrite Hd0 in Hmap1. rewrite Hw, exec_bind_done. cbv zeta.
  set (alt := if idx =? _ then _ else _).
  assert (Halt : home t1 alt (key_hash b0)) by apply alt_home.
  destruct (bucket_at t1 alt Hwf1 (home_range _ _ _ Hwf1 Halt)) as (ba & Hga & Hba & _).
  rewrite Hga, exec_bind_done, <- Hswap, <- Hmap1.
  change (if is_extent b0 then Extent else Inline) with (bucket_mode b0).
  rewrite <- Hmap1 in Hk0.
  destruct (is_free_slot ba) eqn:Hfree.
  - destruct (write_slot_spec t1 alt _ _ _ (bucket_mode b0) ba Hwf1 He0 Halt Hba)
      as (t2 & Hw2 & Hwf2 & Hs2 & _ & Hmap2); [by rewrite free_entry|].
    rewrite Hw2, exec_bind_done. eexists. split; [reflexivity|].
    rewrite free_entry in Hmap2 by done. split; [done|]. split; [|done].
    destruct Hs1, Hs2. split; simpl; congruence.
  - destruct (IH t1 alt _ _ _ (bucket_mode b0) ba Hwf1 He0 Halt Hk0 Hba Hfree) as (r & Hr & Hr1 & Hr2 & Hr3).
    exists r. split; [done|]. split; [done|]. split; [|done].
    destruct Hs1, Hr2. split; simpl; congruence.
Qed.

(** ** Insertion *)

Lemma first_slot_spec p t i1 i2 :
  table_wf t -> 0 <= i1 < len (buckets t) -> 0 <= i2 < len (buckets t) ->
  exists o, first_slot p (buckets t) [i1; i2] = Done o /\
  match o with
  | Some i => (i = i1 \/ i = i2) /\ exists b, buckets t !! Z.to_nat i = Some b /\ p b = true
  | None => forall i b, i = i1 \/ i = i2 -> buckets t !! Z.to_nat i = Some b -> p b = false
  end.
Proof.
  intros Hwf H1 H2. cbn [first_slot].
  destruct (bucket_at t i1 Hwf H1) as (b1 & Hg1 & Hb1 & _).
  destruct (bucket_at t i2 Hwf H2) as (b2 & Hg2 & Hb2 & _).
  rewrite Hg1, Hg2, !exec_bind_done.
  destruct (p b1) eqn:E1; [|destruct (p b2) eqn:E2].
  - eexists. split; [done|]. simpl. eauto.
  - eexists. split; [done|]. simpl. eauto.
  - eexists. split; [done|]. simpl. intros i b [->| ->] Hb; simplify_eq; done.
Qed.

(** No live match in the two slots: the key is not in the map. *)
Lemma no_live_match t h d :
  table_wf t -> h <> 0 ->
  (forall i b, i = h1 t h \/ i = h2 t h -> buckets t !! Z.to_nat i = Some b -> live_match b h d = false) ->
  table_map t !! (h, d) = None.
Proof.
  intros Hwf Hh Hno. destruct (table_map t !! (h, d)) as [v|] eqn:E; [|done]. exfalso.
  destruct (entry_slot _ _ _ Hwf E) as (i & b & Hhome & Hb & He).
  assert (live_match b h d = true); [|by rewrite (Hno i b Hhome Hb) in *].
  apply live_match_entry; [done|]. pose proof He as (_ & _ & ->)%bucket_entry_Some. done.
Qed.

Lemma insert_raw_spec t h d bd m :
  table_wf t -> entry_wf h d bd ->
  exists r, insert_raw t h d bd m = Done r
    /\ insert_outcome t (<[(h, d) := (bd, m)]> (table_map t)) r.
Proof.
  intros Hwf He. pose proof (ewf_nonzero _ _ _ He) as Hn.
  pose proof (h1_range t h Hwf) as R1. pose proof (h2_range t h Hwf) as R2.
  unfold insert_raw. cbv zeta.
  destruct (first_slot_spec (fun b => live_match b h d) t _ _ Hwf R1 R2) as (o & -> & Ho).
  rewrite exec_bind_done. destruct o as [i|].
  { destruct Ho as (Hi & b & Hb & Hl). apply live_match_entry in Hl; [|done].
    destruct (write_slot_spec t i h d bd m b Hwf He Hi Hb) as (t' & -> & Hwf' & Hs & _ & Hmap).
    { unfold drop_entry. rewrite Hl. apply lookup_delete_eq. }
    eexists. split; [reflexivity|]. split; [done|]. split; [done|].
    simpl. rewrite Hmap. unfold drop_entry. rewrite Hl. by rewrite insert_delete_eq. }
  assert (Hfresh : table_map t !! (h, d) = None) by (by apply no_live_match).
  destruct (first_slot_spec is_free_slot t _ _ Hwf R1 R2) as (o & -> & Hf).
  rewrite exec_bind_done. destruct o as [i|].
  { destruct Hf as (Hi & b & Hb & Hl).
    destruct (write_slot_spec t i h d bd m b Hwf He Hi Hb) as (t' & -> & Hwf' & Hs & _ & Hmap).
    { by rewrite free_entry. }
    eexists. split; [reflexivity|]. split; [done|]. split; [done|].
    simpl. by rewrite Hmap, free_entry. }
  destruct (bucket_at t (h1 t h) Hwf R1) as (b & _ & Hb & _).
  eapply kick_chain_loop_spec; [done | done | by left | done | exact Hb |].
  eapply Hf; [by left | done].
Qed.
End table.
