(* ===== verification/CuckooProps.v ===== *)
(** * CuckooProps: the theorems of the hash table

    The operations of [CuckooTable] refine the operations of a finite map, one
    by one and over whole traces; the paths that bypass the table mutex agree
    with them under the conditions stated. *)

From S2P Require Import Prelude Layout Cuckoo CuckooSpec.

Open Scope Z_scope.

(** ** Packing *)

Lemma pack_body_bytes value m :
  Forall is_u8 value -> length (pack_body value m) = 32%nat /\ Forall is_u8 (pack_body value m).
Proof.
  intros Hv. unfold pack_body.
  set (n := Z.min (len value) _). assert (0 <= n <= 32) by (destruct m; pose proof (len_nonneg value); lia).
  assert (Hl : len (take (Z.to_nat n) value) <= 32) by (unfold len; rewrite length_take; lia).
  split; [|by apply bytes_ok_bwrite; auto using Forall_take with rdmas].
  assert (len (bwrite 0 (take (Z.to_nat n) value) (zeros 32)) = 32) as E
    by (rewrite len_bwrite; unfold zeros; rewrite ?len_replicate; lia).
  unfold len in E. lia.
Qed.

(** The body [insert_extent] writes. *)
Definition extent_body (offset length : Z) : list Z :=
  bwrite 8 (to_le 8 length) (bwrite 0 (to_le 8 offset) (zeros 32)).

Lemma extent_body_set offset length :
  extent_body offset length = body (set_extent_ref HashBucket_zeroed offset length).
Proof. reflexivity. Qed.

Lemma extent_body_bytes o n :
  length (extent_body o n) = 32%nat /\ Forall is_u8 (extent_body o n).
Proof.
  rewrite extent_body_set. split; [by apply set_extent_ref_len|].
  unfold set_extent_ref. cbn [body]. apply bytes_ok_bwrite; [apply bytes_ok_bwrite|]; [apply (bytes_ok_zeros 32) | auto with rdmas..].
Qed.

Lemma extent_body_result o n :
  is_u64 o -> is_u64 n -> cval_result (extent_body o n, Extent) = mkLookupResult (extent_body o n) Extent o n.
Proof.
  intros Ho Hn. pose proof (extent_ref_set HashBucket_zeroed o n eq_refl Ho Hn) as E.
  unfold extent_ref in E. rewrite <- extent_body_set in E.
  assert (E1 := f_equal fst E). assert (E2 := f_equal snd E). cbn [fst snd] in E1, E2.
  unfold cval_result. cbn [fst snd]. by rewrite E1, E2.
Qed.

Lemma key_entry_wf key bd :
  key_wf key -> hk_hash key <> 0 -> length bd = 32%nat /\ Forall is_u8 bd ->
  entry_wf (hk_hash key) (hk_digest key) bd.
Proof. intros [] ? []. by constructor. Qed.

(** ** Lookup and delete *)

Section lookup.
Implicit Types (t : CuckooTable) (key : HashedKey).

Lemma read_bucket_value_entry b k v :
  bucket_entry b = Some (k, v) -> read_bucket_value b = Some (cval_result v).
Proof.
  intros (_ & _ & ->)%bucket_entry_Some. unfold read_bucket_value, cval_result, bucket_mode.
  by destruct (is_extent b).
Qed.

(** The two slots decide membership. *)
Lemma home_entry t i b k v :
  table_wf t -> buckets t !! i = Some b -> bucket_entry b = Some (k, v) -> table_map t !! k = Some v.
Proof. intros Hwf Hi He. apply slots_map_lookup; [apply Hwf | by eauto]. Qed.

(** Both slots of a key, with what their match says about the map. *)
Lemma two_slots t key :
  table_wf t -> hk_hash key <> 0 ->
  exists b1 b2,
    vec_get (buckets t) (h1 t (hk_hash key)) = Done b1
    /\ vec_get (buckets t) (h2 t (hk_hash key)) = Done b2
    /\ (live_match b1 (hk_hash key) (hk_digest key) = true ->
          table_map t !! key_of key = Some (body b1, bucket_mode b1))
    /\ (live_match b2 (hk_hash key) (hk_digest key) = true ->
          table_map t !! key_of key = Some (body b2, bucket_mode b2))
    /\ (live_match b1 (hk_hash key) (hk_digest key) = false ->
        live_match b2 (hk_hash key) (hk_digest key) = false -> table_map t !! key_of key = None).
Proof.
  intros Hwf Hn.
  destruct (bucket_at t _ Hwf (h1_range t (hk_hash key) Hwf)) as (b1 & Hg1 & Hb1 & _).
  destruct (bucket_at t _ Hwf (h2_range t (hk_hash key) Hwf)) as (b2 & Hg2 & Hb2 & _).
  exists b1, b2. split_and!; [done | done | | |].
  - intros Hl%live_match_entry; [|done]. exact (home_entry t _ b1 _ _ Hwf Hb1 Hl).
  - intros Hl%live_match_entry; [|done]. exact (home_entry t _ b2 _ _ Hwf Hb2 Hl).
  - intros E1 E2. apply no_live_match; [done..|]. intros i b [->| ->] Hb; simplify_eq; done.
Qed.

Lemma lookup_spec t key :
  table_wf t -> hk_hash key <> 0 ->
  CuckooTable_lookup t key = Done (cval_result <$> table_map t !! key_of key).
Proof.
  intros Hwf Hn. destruct (two_slots t key Hwf Hn) as (b1 & b2 & Hg1 & Hg2 & M1 & M2 & M3).
  unfold CuckooTable_lookup. cbn [lookup_loop]. rewrite Hg1, Hg2, !exec_bind_done.
  destruct (live_match b1 _ _) eqn:E1; [|destruct (live_match b2 _ _) eqn:E2].
  - rewrite M1 by done. by erewrite read_bucket_value_entry by (by apply live_match_entry).
  - rewrite M2 by done. by erewrite read_bucket_value_entry by (by apply live_match_entry).
  - by rewrite M3.
Qed.

Lemma find_key_idx_spec t key :
  table_wf t -> hk_hash key <> 0 ->
  exists o, find_key_idx t key = Done o /\
  match o with
  | Some i => exists b, home t i (hk_hash key) /\ buckets t !! Z.to_nat i = Some b
      /\ bucket_entry b = Some (key_of key, (body b, bucket_mode b))
  | None => table_map t !! key_of key = None
  end.
Proof.
  intros Hwf Hn. destruct (two_slots t key Hwf Hn) as (b1 & b2 & Hg1 & Hg2 & M1 & M2 & M3).
  unfold find_key_idx. rewrite Hg1, Hg2, !exec_bind_done.
  apply vec_get_inv in Hg1 as [_ Hb1]. apply vec_get_inv in Hg2 as [_ Hb2].
  destruct (live_match b1 _ _) eqn:E1; [|destruct (live_match b2 _ _) eqn:E2].
  - eexists. split; [done|]. exists b1. split_and!; [by left | done | by apply live_match_entry].
  - eexists. split; [done|]. exists b2. split_and!; [by right | done | by apply live_match_entry].
  - eexists. split; [done|]. by apply M3.
Qed.

Lemma mark_tombstone_free b :
  is_u64 (lock_version b) -> is_tombstone (mark_tombstone b) = true /\ is_free_slot (mark_tombstone b) = true.
Proof.
  intros Hb. assert (is_tombstone (mark_tombstone b) = true) as E.
  { apply (f_equal lv_tombstone (x := lock_view (mark_tombstone b))
      (y := mkLockView (version b) 0 (bucket_mode b) true false)).
    apply lock_view_of_word, mark_tombstone_word; [|done]. split; [apply version_range | simpl; lia]. }
  unfold is_free_slot. by rewrite E, orb_true_r.
Qed.

Lemma mark_tombstone_wf b : bucket_wf b -> bucket_wf (mark_tombstone b).
Proof.
  intros []. constructor; try done. rewrite mark_tombstone_word by done. apply lock_word_range.
  split; [apply version_range | simpl; lia].
Qed.

(** Marking a slot as tombstone removes its entry, if it has one. *)
Lemma tombstone_slot_spec t i b :
  table_wf t -> buckets t !! Z.to_nat i = Some b ->
  let t' := set_buckets t (<[Z.to_nat i := mark_tombstone b]> (buckets t)) in
  table_wf t' /\ same_shape t t' /\ table_map t' = drop_entry b (table_map t).
Proof.
  intros Hwf Hb t'. pose proof (Forall_lookup_1 _ _ _ _ (twf_buckets _ Hwf) Hb) as Hbw.
  destruct (mark_tombstone_free b (bwf_lock _ Hbw)) as [_ Hfree].
  assert (Hnone : bucket_entry (mark_tombstone b) = None) by (unfold bucket_entry; by rewrite Hfree).
  assert (Hu : slots_unique (<[Z.to_nat i := mark_tombstone b]> (buckets t))).
  { eapply slots_unique_insert; [apply Hwf | done | by rewrite Hnone]. }
  split_and!; [|by split|].
  - constructor; try apply Hwf; cbn [t' set_buckets buckets bucket_count max_kick]; [| | |done].
    + unfold len. rewrite length_insert. apply Hwf.
    + apply Forall_insert; [apply Hwf | by apply mark_tombstone_wf].
    + intros j b' [(<- & <- & _)|[_ Hj]]%list_lookup_insert_Some Hf; [congruence|].
      by apply (twf_home _ Hwf).
  - unfold table_map at 1. cbn [t' set_buckets buckets].
    rewrite (slots_map_insert _ _ b) by (done || apply Hwf).
    unfold put_entry. by rewrite Hnone.
Qed.

Lemma delete_spec t key :
  table_wf t -> hk_hash key <> 0 ->
  exists t', CuckooTable_delete t key = Done (t', bool_decide (is_Some (table_map t !! key_of key)))
    /\ table_wf t' /\ same_shape t t' /\ table_map t' = delete (key_of key) (table_map t).
Proof.
  intros Hwf Hn. unfold CuckooTable_delete.
  destruct (find_key_idx_spec t key Hwf Hn) as (o & -> & Ho). rewrite exec_bind_done.
  destruct o as [i|]; last first.
  { exists t. rewrite Ho. rewrite bool_decide_eq_false_2 by (intros []; done).
    split_and!; [done | done | done | by rewrite delete_id]. }
  destruct Ho as (b & Hh & Hb & He). pose proof (home_range _ _ _ Hwf Hh) as Hr.
  rewrite (vec_get_Some _ _ b), exec_bind_done, vec_set_Done, exec_bind_done by (done || lia).
  assert (Hm : table_map t !! key_of key = Some (body b, bucket_mode b)) by (by eapply home_entry).
  rewrite Hm, bool_decide_eq_true_2 by done. eexists. split; [done|].
  destruct (tombstone_slot_spec t i b Hwf Hb) as (H1 & H2 & H3). split_and!; [done..|].
  rewrite H3. unfold drop_entry. by rewrite He.
Qed.

(** With a zero hash [lookup] and [delete] can only match an unused bucket: the
    entries stay. *)
Lemma zero_hash_spec t key :
  table_wf t -> hk_hash key = 0 ->
  (exists r, CuckooTable_lookup t key = Done r)
  /\ exists t' res, CuckooTable_delete t key = Done (t', res)
       /\ table_wf t' /\ same_shape t t' /\ table_map t' = table_map t.
Proof.
  intros Hwf Hz.
  destruct (bucket_at t _ Hwf (h1_range t (hk_hash key) Hwf)) as (b1 & Hg1 & Hb1 & _).
  destruct (bucket_at t _ Hwf (h2_range t (hk_hash key) Hwf)) as (b2 & Hg2 & Hb2 & _).
  split.
  { unfold CuckooTable_lookup. cbn [lookup_loop]. rewrite Hg1, Hg2, !exec_bind_done.
    destruct (live_match b1 _ _); [by eexists|]. destruct (live_match b2 _ _); by eexists. }
  assert (Hkill : forall i b, home t i (hk_hash key) -> vec_get (buckets t) i = Done b ->
    live_match b (hk_hash key) (hk_digest key) = true ->
    exists bs, vec_set (buckets t) i (mark_tombstone b) = Done bs /\ table_wf (set_buckets t bs)
      /\ same_shape t (set_buckets t bs) /\ table_map (set_buckets t bs) = table_map t).
  { intros i b Hh Hg Hl. apply vec_get_inv in Hg as [_ Hb]. pose proof (home_range _ _ _ Hwf Hh).
    rewrite vec_set_Done by lia. eexists. split; [done|].
    destruct (tombstone_slot_spec t i b Hwf Hb) as (H1 & H2 & H3). split_and!; [done..|].
    rewrite H3. apply free_entry. unfold live_match in Hl. apply andb_true_iff in Hl as [Hm _].
    apply matches_key_spec in Hm as [Hk _]. unfold is_free_slot, is_empty. rewrite Hk, Hz.
    by destruct (is_tombstone b). }
  unfold CuckooTable_delete, find_key_idx. rewrite Hg1, Hg2, !exec_bind_done.
  destruct (live_match b1 _ _) eqn:E1; [|destruct (live_match b2 _ _) eqn:E2].
  - destruct (Hkill (h1 t (hk_hash key)) b1) as (bs & Hs & ?); [by left | done..|].
    rewrite exec_bind_done, Hg1, exec_bind_done, Hs. by do 2 eexists.
  - destruct (Hkill (h2 t (hk_hash key)) b2) as (bs & Hs & ?); [by right | done..|].
    rewrite exec_bind_done, Hg2, exec_bind_done, Hs. by do 2 eexists.
  - by exists t, false.
Qed.
End lookup.

(** ** Construction and insertion *)

Lemma new_spec n k :
  is_power_of_two n = true -> n <> 1 -> 0 <= k ->
  exists t, CuckooTable_new n k = Done t /\ table_wf t
    /\ table_map t = ∅ /\ bucket_count t = n /\ max_kick t = k.
Proof.
  intros Hp Hn Hk. pose proof (is_power_of_two_pos n Hp) as Hpos.
  unfold CuckooTable_new. rewrite (proj2 (Z.ltb_lt 0 n)), Hp by lia. cbn.
  eexists. split; [reflexivity|].
  assert (Hz : forall i b, replicate (Z.to_nat n) HashBucket_zeroed !! i = Some b -> bucket_entry b = None).
  { intros i b [-> _]%lookup_replicate. reflexivity. }
  assert (Hu : slots_unique (replicate (Z.to_nat n) HashBucket_zeroed)).
  { intros i j b1 b2 k' v1 v2 H1 _ E1. by rewrite (Hz _ _ H1) in E1. }
  split_and!; [|apply map_eq; intros k'; rewrite lookup_empty | done | done].
  - constructor; cbn [buckets bucket_count max_kick]; try done.
    + rewrite len_replicate. lia.
    + apply Forall_replicate. constructor; cbn; [unfold is_u64; lia .. | done | | done |];
        repeat constructor; unfold is_u8; lia.
    + intros i b [-> _]%lookup_replicate. by vm_compute.
  - apply slots_map_lookup_None; [done|]. intros i b v Hb. cbn in Hb. by rewrite (Hz _ _ Hb).
Qed.

Lemma insert_spec t key value mode :
  table_wf t -> key_wf key -> Forall is_u8 value -> hk_hash key <> 0 ->
  exists r, CuckooTable_insert t key value mode = Done r
    /\ insert_outcome t (<[key_of key := (pack_body value mode, mode)]> (table_map t)) r.
Proof.
  intros Hwf Hk Hv Hn. unfold CuckooTable_insert. rewrite (proj2 (Z.eqb_neq _ 0)) by done.
  apply insert_raw_spec; [done|]. by apply key_entry_wf, pack_body_bytes.
Qed.

Lemma insert_extent_spec t key o n :
  table_wf t -> key_wf key -> hk_hash key <> 0 ->
  exists r, CuckooTable_insert_extent t key o n = Done r
    /\ insert_outcome t (<[key_of key := (extent_body o n, Extent)]> (table_map t)) r.
Proof.
  intros Hwf Hk Hn. unfold CuckooTable_insert_extent. rewrite (proj2 (Z.eqb_neq _ 0)) by done.
  apply insert_raw_spec; [done|]. by apply key_entry_wf, extent_body_bytes.
Qed.

(** ** Traces of operations *)

Inductive cuckoo_op : Type :=
| CInsert (key : HashedKey) (value : list Z) (mode : BucketMode)
| CInsertExtent (key : HashedKey) (offset length : Z)
| CLookup (key : HashedKey)
| CDelete (key : HashedKey).

Inductive cuckoo_out : Type :=
| RInsert (r : result unit CuckooError)
| RLookup (r : option LookupResult)
| RDelete (r : bool).

Definition cuckoo_run (t : CuckooTable) (op : cuckoo_op) : exec (CuckooTable * cuckoo_out) :=
  match op with
  | CInsert key value mode =>
      '(t', r) ← CuckooTable_insert t key value mode; Done (t', RInsert r)
  | CInsertExtent key offset length =>
      '(t', r) ← CuckooTable_insert_extent t key offset length; Done (t', RInsert r)
  | CLookup key => r ← CuckooTable_lookup t key; Done (t, RLookup r)
  | CDelete key => '(t', r) ← CuckooTable_delete t key; Done (t', RDelete r)
  end.

Fixpoint cuckoo_trace (t : CuckooTable) (ops : list cuckoo_op) : exec (CuckooTable * list cuckoo_out) :=
  match ops with
  | [] => Done (t, [])
  | op :: ops =>
      '(t, o) ← cuckoo_run t op;
      '(t, os) ← cuckoo_trace t ops;
      Done (t, o :: os)
  end.

(** The abstract machine: a finite map.  The one freedom of an implementation
    is to refuse an insertion with [TableFull], which may cost one entry. *)
Inductive map_insert_step (m : gmap ckey cval) (key : HashedKey) (v : cval)
  : cuckoo_out -> gmap ckey cval -> Prop :=
| mis_invalid : hk_hash key = 0 -> map_insert_step m key v (RInsert (Err InvalidKey)) m
| mis_ok : hk_hash key <> 0 -> map_insert_step m key v (RInsert (Ok tt)) (<[key_of key := v]> m)
| mis_full k' v' : hk_hash key <> 0 -> <[key_of key := v]> m !! k' = Some v' ->
    map_insert_step m key v (RInsert (Err TableFull)) (delete k' (<[key_of key := v]> m)).

Inductive map_step (m : gmap ckey cval) : cuckoo_op -> cuckoo_out -> gmap ckey cval -> Prop :=
| ms_insert key value mode o m' :
    map_insert_step m key (pack_body value mode, mode) o m' ->
    map_step m (CInsert key value mode) o m'
| ms_insert_extent key offset length o m' :
    map_insert_step m key (extent_body offset length, Extent) o m' ->
    map_step m (CInsertExtent key offset length) o m'
| ms_lookup key : map_step m (CLookup key) (RLookup (cval_result <$> m !! key_of key)) m
| ms_delete key :
    map_step m (CDelete key) (RDelete (bool_decide (is_Some (m !! key_of key)))) (delete (key_of key) m).

Inductive map_steps (m : gmap ckey cval) : list cuckoo_op -> list cuckoo_out -> gmap ckey cval -> Prop :=
| mss_nil : map_steps m [] [] m
| mss_cons op ops o os m1 m2 :
    map_step m op o m1 -> map_steps m1 ops os m2 -> map_steps m (op :: ops) (o :: os) m2.

(** Arguments in the ranges of their Rust types; lookups and deletions use a
    non-zero hash (the reserved value of empty slots). *)
Definition op_wf (op : cuckoo_op) : Prop :=
  match op with
  | CInsert key value _ => key_wf key /\ Forall is_u8 value
  | CInsertExtent key _ _ => key_wf key
  | CLookup key | CDelete key => key_wf key /\ hk_hash key <> 0
  end.

Lemma insert_outcome_step t key v r :
  hk_hash key <> 0 -> insert_outcome t (<[key_of key := v]> (table_map t)) r ->
  table_wf r.1 /\ map_insert_step (table_map t) key v (RInsert r.2) (table_map r.1).
Proof.
  destruct r as [t' [[]|[]]]; intros Hn (Hwf & _ & Hr); cbn in *; (split; [done|]).
  - rewrite Hr. by constructor.
  - destruct Hr as (k' & v' & Hk' & ->). by econstructor.
  - done.
Qed.

Lemma cuckoo_run_refines t op :
  table_wf t -> op_wf op ->
  exists t' o, cuckoo_run t op = Done (t', o) /\ table_wf t' /\ map_step (table_map t) op o (table_map t').
Proof.
  intros Hwf Hop. destruct op as [key value mode|key o n|key|key]; cbn [op_wf] in Hop; cbn [cuckoo_run].
  - destruct (decide (hk_hash key = 0)) as [E|E].
    { unfold CuckooTable_insert. rewrite E. cbn. do 2 eexists. split; [done|]. split; [done|].
      by repeat constructor. }
    destruct (insert_spec t key value mode) as (r & -> & Hr); [naive_solver..|].
    apply insert_outcome_step in Hr as [Hwf' Hs]; [|done]. destruct r as [t' r].
    do 2 eexists. split; [reflexivity|]. split; [done|]. by constructor.
  - destruct (decide (hk_hash key = 0)) as [E|E].
    { unfold CuckooTable_insert_extent. rewrite E. cbn. do 2 eexists. split; [done|].
      split; [done|]. by repeat constructor. }
    destruct (insert_extent_spec t key o n) as (r & -> & Hr); [done..|].
    apply insert_outcome_step in Hr as [Hwf' Hs]; [|done]. destruct r as [t' r].
    do 2 eexists. split; [reflexivity|]. split; [done|]. by constructor.
  - rewrite lookup_spec by naive_solver. do 2 eexists. split; [done|]. split; [done|]. constructor.
  - destruct (delete_spec t key) as (t' & -> & Hwf' & _ & Hm); [naive_solver..|].
    do 2 eexists. split; [reflexivity|]. split; [done|]. rewrite Hm. constructor.
Qed.

Lemma cuckoo_trace_spec ops t :
  table_wf t -> Forall op_wf ops ->
  exists t' os, cuckoo_trace t ops = Done (t', os) /\ table_wf t'
    /\ map_steps (table_map t) ops os (table_map t').
Proof.
  revert t. induction ops as [|op ops IH]; intros t Hwf Hops.
  { do 2 eexists. split; [done|]. split; [done|]. constructor. }
  apply Forall_cons in Hops as [Hop Hops].
  destruct (cuckoo_run_refines t op Hwf Hop) as (t1 & o & E & Hwf1 & Hs).
  destruct (IH t1 Hwf1 Hops) as (t2 & os & E2 & Hwf2 & Hs2).
  exists t2, (o :: os). cbn [cuckoo_trace]. rewrite E, exec_bind_done. cbn beta iota.
  rewrite E2. split; [done|]. split; [done|]. by econstructor.
Qed.

(** ** The paths without the table mutex *)

Section lock_free.
Implicit Types (t : CuckooTable) (key : HashedKey).

(** No bucket is locked or a tombstone: no writer is active and nothing has
    been deleted. *)
Definition quiescent (t : CuckooTable) : Prop :=
  Forall (fun b => is_locked b = false /\ is_tombstone b = false) (buckets t).

(** The two slots of a key as the unchecked paths compute them. *)
Lemma lock_free_slots t hash :
  table_wf t ->
  (hash mod bucket_count t) mod len (buckets t) = h1 t hash
  /\ Z.lor (Z.shiftr hash 32 mod bucket_count t) 1 mod len (buckets t) = h2 t hash.
Proof.
  intros Hwf. split; apply Z.mod_small; [by apply h1_range | by apply h2_range].
Qed.

Lemma quiescent_match t i b h d :
  quiescent t -> buckets t !! i = Some b ->
  is_locked b = false /\ matches_key b h d = live_match b h d.
Proof.
  intros Hq Hb. destruct (Forall_lookup_1 _ _ _ _ Hq Hb) as [Hl Ht].
  split; [done|]. unfold live_match. by rewrite Ht, andb_true_r.
Qed.

(** What [get_fast] returns for a stored value. *)
Definition cval_fast (v : cval) : list Z * BucketMode :=
  match v.2 with Inline => (v.1, Inline) | Extent => ([], Extent) end.

Lemma try_read_bucket_unlocked t key i b :
  vec_get (buckets t) i = Done b -> is_locked b = false ->
  try_read_bucket t key i =
  Done (if matches_key b (hk_hash key) (hk_digest key)
        then Some (cval_fast (body b, bucket_mode b)) else None).
Proof.
  intros Hg Hl. unfold try_read_bucket. rewrite Hg, exec_bind_done, Hl.
  rewrite is_inline_negb. unfold cval_fast, bucket_mode, inline_value.
  by destruct (matches_key _ _ _), (is_extent b).
Qed.

Lemma lookup_lock_free_spec t key :
  table_wf t -> hk_hash key <> 0 -> quiescent t ->
  lookup_lock_free t key = Done (cval_result <$> table_map t !! key_of key).
Proof.
  intros Hwf Hn Hq. destruct (two_slots t key Hwf Hn) as (b1 & b2 & Hg1 & Hg2 & M1 & M2 & M3).
  unfold lookup_lock_free. destruct (lock_free_slots t (hk_hash key) Hwf) as [-> ->].
  rewrite Hg1, Hg2, !exec_bind_done.
  apply vec_get_inv in Hg1 as [_ Hb1]. apply vec_get_inv in Hg2 as [_ Hb2].
  destruct (quiescent_match _ _ _ (hk_hash key) (hk_digest key) Hq Hb1) as [-> ->].
  destruct (quiescent_match _ _ _ (hk_hash key) (hk_digest key) Hq Hb2) as [-> ->]. cbn [negb andb].
  destruct (live_match b1 _ _) eqn:E1; [|destruct (live_match b2 _ _) eqn:E2].
  - rewrite M1 by done. by erewrite read_bucket_value_entry by (by apply live_match_entry).
  - rewrite M2 by done. by erewrite read_bucket_value_entry by (by apply live_match_entry).
  - by rewrite M3.
Qed.

Lemma get_fast_spec t key :
  table_wf t -> hk_hash key <> 0 -> quiescent t ->
  get_fast t key = Done (cval_fast <$> table_map t !! key_of key).
Proof.
  intros Hwf Hn Hq. destruct (two_slots t key Hwf Hn) as (b1 & b2 & Hg1 & Hg2 & M1 & M2 & M3).
  unfold get_fast. fold (h1 t (hk_hash key)) (h2 t (hk_hash key)).
  pose proof (vec_get_inv _ _ _ Hg1) as [_ Hb1]. pose proof (vec_get_inv _ _ _ Hg2) as [_ Hb2].
  destruct (quiescent_match _ _ _ (hk_hash key) (hk_digest key) Hq Hb1) as [L1 E1].
  destruct (quiescent_match _ _ _ (hk_hash key) (hk_digest key) Hq Hb2) as [L2 E2].
  rewrite (try_read_bucket_unlocked t key _ b1 Hg1 L1), (try_read_bucket_unlocked t key _ b2 Hg2 L2), E1, E2.
  destruct (live_match b1 _ _) eqn:F1; [|destruct (live_match b2 _ _) eqn:F2]; cbn.
  - by rewrite M1.
  - by rewrite M2.
  - by rewrite M3.
Qed.

(** A tombstone keeps its key and body and is unlocked, so a path that does not
    test the tombstone bit still reads it. *)
Lemma tombstone_readable t key i b :
  table_wf t -> home t i (hk_hash key) -> vec_get (buckets t) i = Done b ->
  is_locked b = false -> matches_key b (hk_hash key) (hk_digest key) = true ->
  get_fast t key <> Done None /\ lookup_lock_free t key <> Done None.
Proof.
  intros Hwf Hh Hg Hl Hm.
  destruct (bucket_at t _ Hwf (h1_range t (hk_hash key) Hwf)) as (b1 & Hg1 & _ & _).
  destruct (bucket_at t _ Hwf (h2_range t (hk_hash key) Hwf)) as (b2 & Hg2 & _ & _).
  split.
  - unfold get_fast. fold (h1 t (hk_hash key)) (h2 t (hk_hash key)).
    destruct Hh as [->| ->]; rewrite (try_read_bucket_unlocked t key _ b Hg Hl), Hm; [done|].
    unfold try_read_bucket. rewrite Hg1, exec_bind_done. by repeat (case_match; simplify_eq/=).
  - unfold lookup_lock_free. destruct (lock_free_slots t (hk_hash key) Hwf) as [-> ->].
    rewrite Hg1, exec_bind_done.
    destruct Hh as [->| ->].
    + assert (b1 = b) as -> by congruence. rewrite Hl, Hm. cbn. unfold read_bucket_value. by case_match.
    + rewrite Hg, exec_bind_done, Hl, Hm. cbn. unfold read_bucket_value. by repeat case_match.
Qed.
End lock_free.

(** ** Lock-free insertion *)

Section lock_free_insert.
Implicit Types (t : CuckooTable) (key : HashedKey).

(** The body [write_bucket_raw] leaves. *)
Definition raw_body (old : HashBucket) (value : list Z) (mode : BucketMode) : list Z :=
  match mode with Inline => pack_body value Inline | Extent => body old end.

Lemma write_bucket_raw_slot old key value mode :
  write_bucket_raw old key value mode
  = slot_bucket (hk_hash key) (hk_digest key) (raw_body old value mode) mode.
Proof. by destruct mode. Qed.

Lemma try_cas_insert_spec t key value mode i :
  table_wf t -> key_wf key -> hk_hash key <> 0 -> Forall is_u8 value ->
  home t i (hk_hash key) -> table_map t !! key_of key = None ->
  exists t' ok, try_cas_insert t key value mode i = Done (t', ok) /\ table_wf t' /\
    if ok : bool
    then exists old, buckets t !! Z.to_nat i = Some old
         /\ table_map t' = <[key_of key := (raw_body old value mode, mode)]> (table_map t)
    else t' = t.
Proof.
  intros Hwf Hk Hn Hv Hh Hfresh.
  destruct (bucket_at t i Hwf (home_range _ _ _ Hwf Hh)) as (b & Hg & Hb & Hbw).
  unfold try_cas_insert. rewrite Hg, exec_bind_done.
  destruct (is_locked b); [by exists t, false|].
  destruct (is_empty b || is_tombstone b) eqn:Hfree; [|by exists t, false].
  assert (He : entry_wf (hk_hash key) (hk_digest key) (raw_body b value mode)).
  { apply key_entry_wf; [done..|]. destruct mode; cbn [raw_body]; [by apply pack_body_bytes|].
    destruct Hbw. done. }
  destruct (write_slot_spec t i _ _ _ mode b Hwf He Hh Hb) as (t' & Hw & Hwf' & _ & _ & Hmap).
  { by rewrite free_entry. }
  rewrite free_entry in Hmap by done. unfold write_slot in Hw.
  rewrite write_bucket_raw_slot. destruct (vec_set _ _ _) as [bs|]; [|done].
  cbn in Hw |- *. injection Hw as <-. exists (set_buckets t bs), true. eauto.
Qed.

Lemma insert_lock_free_spec t key value mode :
  table_wf t -> key_wf key -> hk_hash key <> 0 -> Forall is_u8 value ->
  table_map t !! key_of key = None ->
  exists t' r, insert_lock_free t key value mode = Done (t', r) /\ table_wf t' /\
    match r with
    | Ok _ => exists old, table_map t' = <[key_of key := (raw_body old value mode, mode)]> (table_map t)
    | Err e => e = TableFull /\ t' = t
    end.
Proof.
  intros Hwf Hk Hn Hv Hfresh. unfold insert_lock_free. rewrite (proj2 (Z.eqb_neq _ 0)) by done.
  fold (h1 t (hk_hash key)) (h2 t (hk_hash key)).
  destruct (try_cas_insert_spec t key value mode (h1 t (hk_hash key)))
    as (t1 & ok1 & -> & Hwf1 & H1); [done..|by left|done|]. cbn.
  destruct ok1; [destruct H1 as (old & _ & Hm); do 2 eexists; eauto|]. subst t1.
  destruct (try_cas_insert_spec t key value mode (h2 t (hk_hash key)))
    as (t2 & ok2 & -> & Hwf2 & H2); [done..|by right|done|]. cbn.
  destruct ok2; [destruct H2 as (old & _ & Hm); do 2 eexists; eauto|]. subst t2.
  do 2 eexists. eauto.
Qed.

Lemma try_cas_insert_quiescent t key value mode i t' ok :
  try_cas_insert t key value mode i = Done (t', ok) -> quiescent t -> quiescent t'.
Proof.
  unfold try_cas_insert. destruct (vec_get _ _) as [b|]; [|done]. cbn. destruct (is_locked b); [congruence|].
  destruct (is_empty b || is_tombstone b); [|congruence]. rewrite write_bucket_raw_slot.
  unfold vec_set. destruct (_ && _); [|done]. cbn. intros [= <- <-] Hq.
  unfold quiescent in *. cbn. apply Forall_insert; [done|]. by destruct mode.
Qed.

Lemma insert_lock_free_quiescent t key value mode t' r :
  insert_lock_free t key value mode = Done (t', r) -> quiescent t -> quiescent t'.
Proof.
  unfold insert_lock_free. destruct (hk_hash key =? 0); [congruence|].
  destruct (try_cas_insert t _ _ _ _) as [[t1 [|]]|] eqn:E1; cbn; [| |done].
  - intros [= <- _]. by eapply try_cas_insert_quiescent.
  - destruct (try_cas_insert t1 _ _ _ _) as [[t2 [|]]|] eqn:E2; cbn; [| |done];
      intros [= <- _] Hq; by eapply try_cas_insert_quiescent, try_cas_insert_quiescent.
Qed.

Lemma try_cas_insert_count t key value mode i t' ok :
  try_cas_insert t key value mode i = Done (t', ok) -> bucket_count t' = bucket_count t.
Proof.
  unfold try_cas_insert. destruct (vec_get _ _) as [b|]; [|done]. cbn. destruct (is_locked b); [congruence|].
  destruct (is_empty b || is_tombstone b); [|congruence]. destruct (vec_set _ _ _) as [bs|]; [|done]. cbn. by intros [= <- <-].
Qed.

Lemma insert_lock_free_count t key value mode t' r :
  insert_lock_free t key value mode = Done (t', r) -> bucket_count t' = bucket_count t.
Proof.
  unfold insert_lock_free. destruct (hk_hash key =? 0); [congruence|].
  destruct (try_cas_insert t _ _ _ _) as [[t1 [|]]|] eqn:E1; cbn; [| |done].
  - intros [= <- _]. by eapply try_cas_insert_count.
  - destruct (try_cas_insert t1 _ _ _ _) as [[t2 [|]]|] eqn:E2; cbn; [| |done];
      intros [= <- _]; apply try_cas_insert_count in E1, E2; congruence.
Qed.
End lock_free_insert.

(** ** Properties *)

(** A key with a given hash and the zero digest, and a table built by inserting
    such keys, for the concrete instances below. *)
Definition sample_key (hash : Z) : HashedKey := mkHashedKey hash (zeros 16).
Definition sample_inserts (hashes : list Z) : list cuckoo_op :=
  (fun h => CInsert (sample_key h) [h mod 256] Inline) <$> hashes.

Lemma sample_key_wf h : is_u64 h -> key_wf (sample_key h).
Proof. intros. constructor; [done..|apply bytes_ok_zeros]. Qed.

Lemma sample_inserts_wf hashes : forallb (fun h => bool_decide (is_u64 h)) hashes = true ->
  Forall op_wf (sample_inserts hashes).
Proof.
  induction hashes as [|h hs IH]; cbn [forallb]; intros H; bool_simpl; [constructor|].
  apply bool_decide_eq_true in H. constructor; [|auto]. split; [by apply sample_key_wf|].
  repeat constructor; unfold is_u8; change (2 ^ 8) with 256; apply Z.mod_pos_bound; lia.
Qed.

(** C1. The hash table refines a finite map over whole traces: from a new table
    (power-of-two size other than 1), every sequence of insertions, lookups and
    deletions runs without panicking, and its results are those of the map
    machine, where an insertion overwrites, a zero hash is refused, and
    [TableFull] is the only case in which an entry (exactly one) is lost. *)
Theorem cuckoo_trace_refines n k ops :
  is_power_of_two n = true -> n <> 1 -> 0 <= k -> Forall op_wf ops ->
  exists t0 t outs, CuckooTable_new n k = Done t0 /\ cuckoo_trace t0 ops = Done (t, outs)
    /\ table_wf t /\ map_steps ∅ ops outs (table_map t).
Proof.
  intros Hp Hn Hk Hops. destruct (new_spec n k Hp Hn Hk) as (t0 & E0 & Hwf0 & Hm0 & _).
  destruct (cuckoo_trace_spec ops t0 Hwf0 Hops) as (t & outs & E & Hwf & Hs).
  exists t0, t, outs. rewrite Hm0 in Hs. auto.
Qed.

Lemma cuckoo_trace_refines_witness :
  exists t0 t outs, CuckooTable_new 4 16 = Done t0
    /\ cuckoo_trace t0 (sample_inserts [4; 8; 12] ++ [CDelete (sample_key 8); CLookup (sample_key 4)])
       = Done (t, outs)
    /\ table_wf t
    /\ map_steps ∅ (sample_inserts [4; 8; 12] ++ [CDelete (sample_key 8); CLookup (sample_key 4)])
         outs (table_map t).
Proof.
  apply (cuckoo_trace_refines 4 16); [reflexivity | lia | lia |].
  apply Forall_app. split; [apply sample_inserts_wf; by vm_compute|].
  repeat constructor; by vm_compute.
Defined.

(** C17. [insert] on every branch: a zero hash is refused and changes nothing;
    otherwise the call returns, keeps the invariant, and leaves the map with the
    packed value at the key, minus exactly one entry when it answers
    [TableFull]. *)
Theorem insert_refines t key value mode :
  table_wf t -> key_wf key -> Forall is_u8 value ->
  if decide (hk_hash key = 0)
  then CuckooTable_insert t key value mode = Done (t, Err InvalidKey)
  else exists r, CuckooTable_insert t key value mode = Done r
         /\ insert_outcome t (<[key_of key := (pack_body value mode, mode)]> (table_map t)) r.
Proof.
  intros Hwf Hk Hv. case_decide as E; [|by apply insert_spec].
  unfold CuckooTable_insert. by rewrite E.
Qed.

Definition sample_table : CuckooTable :=
  mkTable [slot_bucket 4 (zeros 16) (zeros 32) Inline; HashBucket_zeroed] 2 16.

Lemma sample_bucket_wf h : is_u64 h -> bucket_wf (slot_bucket h (zeros 16) (zeros 32) Inline).
Proof. intros. constructor; try done; apply bytes_ok_zeros. Qed.

Lemma sample_table_wf : table_wf sample_table.
Proof.
  constructor; try done.
  - repeat constructor; try done; try (by vm_compute); apply bytes_ok_zeros.
  - intros [|[|i]] b [= <-] Hf; [by left | done].
  - intros [|[|i]] [|[|j]] b1 b2 k v1 v2 [= <-] [= <-] E1 E2; done.
Qed.

Lemma insert_refines_witness :
  exists r, CuckooTable_insert sample_table (sample_key 6) [7] Inline = Done r
    /\ insert_outcome sample_table
         (<[key_of (sample_key 6) := (pack_body [7] Inline, Inline)]> (table_map sample_table)) r.
Proof.
  pose proof (insert_refines sample_table (sample_key 6) [7] Inline) as H.
  rewrite decide_False in H by (cbn; lia). apply H.
  - apply sample_table_wf.
  - apply sample_key_wf. unfold is_u64. lia.
  - repeat constructor; unfold is_u8; lia.
Defined.

(** [insert_extent] stores the pointer pair, and a lookup after a successful
    call returns exactly that pair in Extent mode, while every other key reads
    as before. *)
Theorem insert_extent_lookup t key offset length t' key' :
  table_wf t -> key_wf key -> hk_hash key <> 0 -> is_u64 offset -> is_u64 length ->
  CuckooTable_insert_extent t key offset length = Done (t', Ok tt) -> hk_hash key' <> 0 ->
  CuckooTable_lookup t' key' =
  if decide (key_of key' = key_of key)
  then Done (Some (mkLookupResult (extent_body offset length) Extent offset length))
  else CuckooTable_lookup t key'.
Proof.
  intros Hwf Hk Hn Ho Hl E Hn'.
  destruct (insert_extent_spec t key offset length Hwf Hk Hn) as (r & E' & Hr).
  rewrite E in E'. injection E' as <-. destruct Hr as (Hwf' & _ & Hmap). cbn in Hwf', Hmap.
  rewrite !lookup_spec, Hmap by done. case_decide as D.
  - rewrite D, lookup_insert_eq. cbn [fmap option_fmap option_map]. by rewrite extent_body_result.
  - by rewrite lookup_insert_ne.
Qed.

(** [lookup] is the map lookup, and [delete] answers whether the key was
    present, removes it and nothing else, without panicking. *)
Theorem lookup_delete_refine t key :
  table_wf t -> hk_hash key <> 0 ->
  CuckooTable_lookup t key = Done (cval_result <$> table_map t !! key_of key)
  /\ exists t', CuckooTable_delete t key
                = Done (t', bool_decide (is_Some (table_map t !! key_of key)))
     /\ table_wf t' /\ table_map t' = delete (key_of key) (table_map t)
     /\ CuckooTable_lookup t' key = Done None.
Proof.
  intros Hwf Hn. split; [by apply lookup_spec|].
  destruct (delete_spec t key Hwf Hn) as (t' & E & Hwf' & _ & Hm).
  exists t'. split_and!; [done..|]. rewrite lookup_spec, Hm by done. by rewrite lookup_delete_eq.
Qed.

(** On a quiescent table (no lock held, no tombstone) the two reads that
    bypass the mutex agree with the map: [lookup_lock_free] with [lookup], and
    [get_fast] with its value and mode. *)
Theorem lock_free_reads_agree t key :
  table_wf t -> hk_hash key <> 0 -> quiescent t ->
  lookup_lock_free t key = CuckooTable_lookup t key
  /\ get_fast t key = Done (cval_fast <$> table_map t !! key_of key).
Proof.
  intros Hwf Hn Hq. split; [|by apply get_fast_spec].
  by rewrite lookup_lock_free_spec, lookup_spec.
Qed.

(** The reads that bypass the mutex do not test the tombstone bit: after
    deleting a key that was present, [lookup] finds nothing but [get_fast] and
    [lookup_lock_free] still return a value for it. *)
Theorem deleted_key_still_read t key t' :
  table_wf t -> hk_hash key <> 0 -> CuckooTable_delete t key = Done (t', true) ->
  CuckooTable_lookup t' key = Done None
  /\ get_fast t' key <> Done None /\ lookup_lock_free t' key <> Done None.
Proof.
  intros Hwf Hn E. destruct (delete_spec t key Hwf Hn) as (t2 & E2 & Hwf' & Hs & Hm).
  assert (t2 = t') as -> by congruence. split.
  { rewrite lookup_spec, Hm by done. by rewrite lookup_delete_eq. }
  unfold CuckooTable_delete in E.
  destruct (find_key_idx_spec t key Hwf Hn) as (o & Eo & Ho). rewrite Eo, exec_bind_done in E.
  destruct o as [i|]; [|done]. destruct Ho as (b & Hh & Hb & He).
  pose proof (home_range _ _ _ Hwf Hh) as Hr.
  pose proof (Forall_lookup_1 _ _ _ _ (twf_buckets _ Hwf) Hb) as Hbw.
  rewrite (vec_get_Some _ _ b), exec_bind_done, vec_set_Done, exec_bind_done in E by (done || lia).
  injection E as <-.
  apply (tombstone_readable _ key i (mark_tombstone b)); [done | by eapply same_shape_home | | |].
  - apply vec_get_Some; [lia|]. cbn. apply list_lookup_insert_eq. by eapply lookup_lt_Some.
  - assert (Hw : lock_view_wf (mkLockView (version b) 0 (bucket_mode b) true false))
      by (split; [apply version_range | cbn; lia]).
    exact (f_equal lv_locked (lock_view_of_word _ _ Hw (mark_tombstone_word b (bwf_lock _ Hbw)))).
  - apply bucket_entry_Some in He as (_ & [= E1 E2'] & _). apply matches_key_spec. cbn. auto.
Qed.

(** [insert_lock_free] of a key that is not in the table never panics, keeps
    the invariant, and either stores the key (Inline: the packed value) or
    leaves the table untouched and answers [TableFull]. *)
Theorem insert_lock_free_refines t key value mode :
  table_wf t -> key_wf key -> hk_hash key <> 0 -> Forall is_u8 value ->
  table_map t !! key_of key = None ->
  exists t' r, insert_lock_free t key value mode = Done (t', r) /\ table_wf t' /\
    match r with
    | Ok _ => exists old, table_map t' = <[key_of key := (raw_body old value mode, mode)]> (table_map t)
    | Err e => e = TableFull /\ t' = t
    end.
Proof. apply insert_lock_free_spec. Qed.

(** A failed insertion is not free of partial writes: with two buckets and
    one kick, inserting a third key answers [TableFull] and the first key, which
    was stored, is gone while the refused key is found. *)
Theorem table_full_loses_entry :
  (t0 ← CuckooTable_new 2 1;
   '(_, outs) ← cuckoo_trace t0 (sample_inserts [2; 4; 6]
      ++ [CLookup (sample_key 2); CLookup (sample_key 6)]);
   Done outs)
  = Done [RInsert (Ok tt); RInsert (Ok tt); RInsert (Err TableFull); RLookup None;
          RLookup (Some (mkLookupResult (pack_body [6] Inline) Inline 0 0))].
Proof. vm_compute. reflexivity. Qed.

(** A table of one bucket passes the checks of [new] but its second slot
    index is 1: every lookup whose first slot does not match panics, and so does
    the insertion of any key into the new table. *)
Theorem single_bucket_panics k key :
  hk_hash key <> 0 ->
  exists t, CuckooTable_new 1 k = Done t /\ CuckooTable_lookup t key = Panic
    /\ forall value mode, CuckooTable_insert t key value mode = Panic.
Proof.
  intros Hn. exists (mkTable [HashBucket_zeroed] 1 k). split; [reflexivity|].
  assert (E1 : forall t h, bucket_count t = 1 -> h1 t h = 0) by (intros t h E; unfold h1; rewrite E; apply Z.mod_1_r).
  assert (E2 : forall t h, bucket_count t = 1 -> h2 t h = 1) by (intros t h E; unfold h2; rewrite E, Z.mod_1_r; done).
  assert (Hm : live_match HashBucket_zeroed (hk_hash key) (hk_digest key) = false).
  { unfold live_match, matches_key. cbn [key_hash HashBucket_zeroed].
    rewrite (proj2 (Z.eqb_neq 0 _)) by done. done. }
  split.
  - unfold CuckooTable_lookup. rewrite E1, E2 by done. cbn [lookup_loop buckets].
    by rewrite (vec_get_Some _ 0 HashBucket_zeroed), exec_bind_done, Hm.
  - intros value mode. unfold CuckooTable_insert. rewrite (proj2 (Z.eqb_neq _ 0)) by done.
    unfold insert_raw. rewrite E1, E2 by done.
    assert (Hf : forall p, p HashBucket_zeroed = false ->
      first_slot p [HashBucket_zeroed] [0; 1] = Panic) by (intros p Hp; cbn [first_slot]; by rewrite (vec_get_Some _ 0 HashBucket_zeroed), exec_bind_done, Hp).
    cbn [buckets]. rewrite (Hf (fun b => live_match b (hk_hash key) (hk_digest key)) Hm). reflexivity.
Qed.

