(* ===== verification/Extent.v ===== *)
(** * Extent: the large object region (src/engine/extent.rs)

    [LargeObjectRegion] with its free list, bump pointer and allocated set over
    one byte buffer.  Every method of the [impl] block is a definition; slice
    bounds that fail are panics, [usize] additions wrap.  The iteration order of
    the [HashSet] in [sweep] is an argument. *)

From S2P Require Import Prelude Layout.

Open Scope Z_scope.

Definition HEADER_SIZE : Z := 32.
Definition EXTENT_ALIGN : Z := 8.

Definition extent_total (data_len : Z) : Z := align_up (u64 (HEADER_SIZE + data_len)) EXTENT_ALIGN.

Inductive ExtentError : Type := InvalidOffset | InvalidMagic | OutOfSpace | NotAllocated.

#[export] Instance ExtentError_eq_dec : EqDecision ExtentError.
Proof. solve_decision. Defined.

Record DecodedHeader : Type := mkDecodedHeader {
  dh_magic : Z;
  dh_data_len : Z;
  dh_epoch_mark : Z;
  dh_is_v2 : bool
}.

Definition header_size (d : DecodedHeader) : Z := if dh_is_v2 d then 32 else 24.

Record LargeObjectRegion : Type := mkRegion {
  buffer : list Z;
  free_list : list (Z * Z);
  allocated : gset Z;
  next_offset : Z;
  lor_size : Z
}.

Definition LargeObjectRegion_new (size : Z) : LargeObjectRegion :=
  mkRegion (zeros (Z.to_nat size)) [] ∅ 0 size.

Definition set_buffer (r : LargeObjectRegion) (buf : list Z) : LargeObjectRegion :=
  mkRegion buf (free_list r) (allocated r) (next_offset r) (lor_size r).

(** [u32::from_le_bytes(buffer[lo..hi])] and the like. *)
Definition read_le (buf : list Z) (lo hi : Z) : exec Z :=
  s ← slice buf lo hi; Done (from_le s).

(** ** Header decoding *)

(** The part of [read_decoded_header] after the V1 test has failed. *)
Definition decode_v2 (buf : list Z) (off : Z) : exec (option DecodedHeader) :=
  if u64 (off + 5) <=? len buf then
    magic ← read_le buf off (u64 (off + 4));
    if negb (magic =? EXTENT_MAGIC) then Done (Some (mkDecodedHeader magic 0 0 false))
    else
      version ← vec_get buf (u64 (off + 4));
      if version =? 0 then
        if len buf <? u64 (off + 24) then Done None
        else
          data_len ← read_le buf off (u64 (off + 8));
          epoch_mark ← read_le buf (u64 (off + 8)) (u64 (off + 16));
          Done (Some (mkDecodedHeader magic data_len epoch_mark false))
      else if version =? 1 then
        if len buf <? u64 (off + 32) then Done None
        else
          data_len ← read_le buf (u64 (off + 8)) (u64 (off + 12));
          epoch_mark ← read_le buf (u64 (off + 16)) (u64 (off + 24));
          Done (Some (mkDecodedHeader magic data_len epoch_mark true))
      else Done None
  else Done None.

Definition read_decoded_header (r : LargeObjectRegion) (offset : Z)
  : exec (option DecodedHeader) :=
  let buf := buffer r in
  let off := offset in
  if u64 (off + 24) <=? len buf then
    magic_v1 ← read_le buf (u64 (off + 16)) (u64 (off + 20));
    if magic_v1 =? EXTENT_MAGIC then
      data_len ← read_le buf off (u64 (off + 8));
      epoch_mark ← read_le buf (u64 (off + 8)) (u64 (off + 16));
      Done (Some (mkDecodedHeader magic_v1 data_len epoch_mark false))
    else decode_v2 buf off
  else decode_v2 buf off.

(** The footprint [free] and [sweep] return to the free list. *)
Definition decoded_total (d : DecodedHeader) : Z :=
  if dh_is_v2 d then extent_total (dh_data_len d) else u64 (24 + dh_data_len d).

(** ** Writing *)

Definition write_header_data (r : LargeObjectRegion) (offset : Z) (hdr : ExtentHeaderV2)
    (data : list Z) : exec LargeObjectRegion :=
  let off := offset in
  let lo := u64 (off + HEADER_SIZE) in
  buf ← slice_write (buffer r) off lo (bytes_of_header_v2 hdr);
  buf ← slice_write buf lo (u64 (lo + len data)) data;
  Done (set_buffer r buf).

Definition write_extent (r : LargeObjectRegion) (offset : Z) (data : list Z)
  : exec LargeObjectRegion :=
  write_header_data r offset
    (mkExtentHeaderV2 EXTENT_MAGIC 1 (zeros 3) (u32 (len data)) (zeros 4) 0 0) data.

Definition zero_magic (r : LargeObjectRegion) (offset : Z) : exec LargeObjectRegion :=
  let magic_off := offset in
  if u64 (magic_off + 4) <=? len (buffer r) then
    buf ← slice_write (buffer r) magic_off (u64 (magic_off + 4)) (zeros 4);
    Done (set_buffer r buf)
  else Done r.

(** ** Allocation, read, free *)

Definition allocate (r : LargeObjectRegion) (data : list Z)
  : exec (LargeObjectRegion * option Z) :=
  let total_needed := extent_total (len data) in
  match list_find (fun p : Z * Z => total_needed <= p.2) (free_list r) with
  | Some (idx, (offset, length)) =>
      let fl := delete idx (free_list r) in
      let fl := if total_needed <? length
                then fl ++ [(u64 (offset + total_needed), length - total_needed)] else fl in
      r1 ← write_extent r offset data;
      Done (mkRegion (buffer r1) fl ({[offset]} ∪ allocated r) (next_offset r) (lor_size r),
            Some offset)
  | None =>
      if lor_size r <? u64 (next_offset r + total_needed) then Done (r, None)
      else
        let offset := next_offset r in
        r1 ← write_extent r offset data;
        Done (mkRegion (buffer r1) (free_list r) ({[offset]} ∪ allocated r)
                (u64 (next_offset r + total_needed)) (lor_size r),
              Some offset)
  end.

Definition LargeObjectRegion_read (r : LargeObjectRegion) (offset : Z) : exec (option (list Z)) :=
  d ← read_decoded_header r offset;
  match d with
  | None => Done None
  | Some decoded =>
      if negb (dh_magic decoded =? EXTENT_MAGIC) then Done None
      else
        let hdr_sz := header_size decoded in
        let data_start := u64 (offset + hdr_sz) in
        let data_end := u64 (data_start + dh_data_len decoded) in
        if len (buffer r) <? data_end then Done None
        else
          data ← slice (buffer r) data_start data_end;
          Done (Some data)
  end.

(** The three statements [free] and [sweep] share: zero the magic, push the
    block on the free list, forget the offset. *)
Definition release_extent (r : LargeObjectRegion) (offset : Z) (decoded : DecodedHeader)
  : exec LargeObjectRegion :=
  let total_len := decoded_total decoded in
  r1 ← zero_magic r offset;
  Done (mkRegion (buffer r1) (free_list r ++ [(offset, total_len)]) (allocated r ∖ {[offset]})
          (next_offset r) (lor_size r)).

Definition LargeObjectRegion_free (r : LargeObjectRegion) (offset : Z)
  : exec (LargeObjectRegion * result unit ExtentError) :=
  if negb (bool_decide (offset ∈ allocated r)) then Done (r, Err NotAllocated)
  else
    d ← read_decoded_header r offset;
    match d with
    | None => Done (r, Err InvalidOffset)
    | Some decoded =>
        if negb (dh_magic decoded =? EXTENT_MAGIC) then Done (r, Err InvalidMagic)
        else r1 ← release_extent r offset decoded; Done (r1, Ok tt)
    end.

(** ** GC marking *)

Definition mark_for_gc (r : LargeObjectRegion) (offset epoch : Z)
  : exec (LargeObjectRegion * result unit ExtentError) :=
  d ← read_decoded_header r offset;
  match d with
  | None => Done (r, Err InvalidOffset)
  | Some decoded =>
      if negb (dh_magic decoded =? EXTENT_MAGIC) then Done (r, Err InvalidMagic)
      else
        let epoch_off := u64 (offset + 16) in
        if u64 (epoch_off + 8) <=? len (buffer r) then
          buf ← slice_write (buffer r) epoch_off (u64 (epoch_off + 8)) (to_le 8 epoch);
          Done (set_buffer r buf, Ok tt)
        else Done (r, Ok tt)
  end.

(** [order] is the order in which the [HashSet] is iterated. *)
Fixpoint sweep_loop (r : LargeObjectRegion) (order : list Z) (min_active_epoch count : Z)
  : exec (LargeObjectRegion * Z) :=
  match order with
  | [] => Done (r, count)
  | offset :: order =>
      d ← read_decoded_header r offset;
      match d with
      | Some decoded =>
          if (0 <? dh_epoch_mark decoded) && (dh_epoch_mark decoded <? min_active_epoch) then
            r1 ← release_extent r offset decoded;
            sweep_loop r1 order min_active_epoch (u64 (count + 1))
          else sweep_loop r order min_active_epoch count
      | None => sweep_loop r order min_active_epoch count
      end
  end.

Definition LargeObjectRegion_sweep (r : LargeObjectRegion) (order : list Z) (min_active_epoch : Z)
  : exec (LargeObjectRegion * Z) := sweep_loop r order min_active_epoch 0.

(** ** Statistics *)

Definition capacity (r : LargeObjectRegion) : Z := lor_size r.

Fixpoint used_bytes_loop (r : LargeObjectRegion) (order : list Z) (acc : Z) : exec Z :=
  match order with
  | [] => Done acc
  | off :: order =>
      d ← read_decoded_header r off;
      used_bytes_loop r order
        (match d with Some decoded => u64 (acc + extent_total (dh_data_len decoded)) | None => acc end)
  end.

Definition used_bytes (r : LargeObjectRegion) (order : list Z) : exec Z := used_bytes_loop r order 0.

Definition allocated_count (r : LargeObjectRegion) : Z := Z.of_nat (size (allocated r)).

(** ** The two other writers *)

Definition write_extent_v1 (r : LargeObjectRegion) (data : list Z)
  : exec (LargeObjectRegion * option Z) :=
  let header_size := 24 in
  let total := u64 (header_size + len data) in
  if lor_size r <? u64 (next_offset r + total) then Done (r, None)
  else
    let offset := next_offset r in
    let off := offset in
    buf ← slice_write (buffer r) off (u64 (off + 8)) (to_le 8 (len data));
    buf ← slice_write buf (u64 (off + 8)) (u64 (off + 16)) (to_le 8 0);
    buf ← slice_write buf (u64 (off + 16)) (u64 (off + 20)) (to_le 4 EXTENT_MAGIC);
    buf ← slice_write buf (u64 (off + 20)) (u64 (off + 24)) (zeros 4);
    buf ← slice_write buf (u64 (off + header_size)) (u64 (u64 (off + header_size) + len data)) data;
    Done (mkRegion buf (free_list r) ({[offset]} ∪ allocated r) (u64 (next_offset r + total))
            (lor_size r),
          Some offset).

(** [xxh64] is the checksum of the xxhash crate, at seed 0. *)
Definition write_extent_v2_checksummed (xxh64 : list Z -> Z) (r : LargeObjectRegion)
    (data : list Z) : exec (LargeObjectRegion * option Z) :=
  let total_needed := extent_total (len data) in
  if lor_size r <? u64 (next_offset r + total_needed) then Done (r, None)
  else
    let offset := next_offset r in
    let checksum := xxh64 data in
    r1 ← write_header_data r offset
           (mkExtentHeaderV2 EXTENT_MAGIC 1 (zeros 3) (u32 (len data)) (zeros 4) 0 checksum) data;
    Done (mkRegion (buffer r1) (free_list r) ({[offset]} ∪ allocated r)
            (u64 (next_offset r + total_needed)) (lor_size r),
          Some offset).

Definition read_checksum (r : LargeObjectRegion) (offset : Z) : exec (option Z) :=
  d ← read_decoded_header r offset;
  match d with
  | None => Done None
  | Some decoded =>
      if negb (dh_is_v2 decoded) then Done None
      else if len (buffer r) <? u64 (offset + 32) then Done None
      else c ← read_le (buffer r) (u64 (offset + 24)) (u64 (offset + 32)); Done (Some c)
  end.
