(* ===== verification/ExtentSpec.v ===== *)
(** * ExtentSpec: the region stores a finite map of extents

    The abstract state is a map from offsets to extents.  [region_inv m r] says
    that [r] stores [m]: each extent's byte image (header and payload) is at its
    offset, and the footprints of the extents together with the blocks of the
    free list partition the used part [0 .. next_offset) of the buffer. *)

From S2P Require Import Prelude Layout Extent.

Open Scope Z_scope.

(** ** Extents and their images *)

(** V1 extents have a 24-byte header; V2 headers carry a checksum word. *)
Inductive ext_format : Type := FmtV1 | FmtV2 (checksum : Z).

Record extent : Type := mkExtent {
  xt_format : ext_format;
  xt_data : list Z;
  xt_epoch : Z
}.

Definition ext_is_v2 (x : extent) : bool :=
  match xt_format x with FmtV1 => false | FmtV2 _ => true end.

Definition ext_header (x : extent) : list Z :=
  match xt_format x with
  | FmtV1 => bytes_of_header_v1 (mkExtentHeader (len (xt_data x)) (xt_epoch x) EXTENT_MAGIC 0)
  | FmtV2 c => bytes_of_header_v2
      (mkExtentHeaderV2 EXTENT_MAGIC 1 (zeros 3) (len (xt_data x)) (zeros 4) (xt_epoch x) c)
  end.

Definition ext_header_len (x : extent) : Z := if ext_is_v2 x then 32 else 24.
Definition ext_image (x : extent) : list Z := ext_header x ++ xt_data x.
Definition footprint (x : extent) : Z :=
  if ext_is_v2 x then extent_total (len (xt_data x)) else 24 + len (xt_data x).

(** The length fits the header field, and the epoch of a V2 extent is not
    mistaken for the magic number of a V1 header. *)
Record ext_wf (x : extent) : Prop := {
  xwf_len : len (xt_data x) < 2 ^ 32;
  xwf_epoch : is_u64 (xt_epoch x);
  xwf_not_magic : ext_is_v2 x = true -> xt_epoch x mod 2 ^ 32 <> EXTENT_MAGIC;
  xwf_bytes : Forall is_u8 (xt_data x);
  xwf_checksum : match xt_format x with FmtV1 => True | FmtV2 c => is_u64 c end
}.

Definition ext_at (buf : list Z) (o : Z) (x : extent) : Prop :=
  bread o (len (ext_image x)) buf = ext_image x.

(** ** Blocks *)

Definition block : Type := Z * Z.
Definition disj (a b : block) : Prop := a.1 + a.2 <= b.1 \/ b.1 + b.2 <= a.1.

Fixpoint disjoint_blocks (l : list block) : Prop :=
  match l with
  | [] => True
  | b :: l => Forall (disj b) l /\ disjoint_blocks l
  end.

Definition block_sum (l : list block) : Z := foldr (fun b s => b.2 + s) 0 l.

Definition ext_blocks (m : gmap Z extent) : list block :=
  (fun p => (p.1, footprint p.2)) <$> map_to_list m.

Definition region_blocks (m : gmap Z extent) (r : LargeObjectRegion) : list block :=
  ext_blocks m ++ free_list r.

(** A Rust allocation is at most [isize::MAX] bytes. *)
Definition MAX_ALLOC : Z := 2 ^ 63 - 1.

Record region_inv (m : gmap Z extent) (r : LargeObjectRegion) : Prop := {
  ri_alloc : allocated r = dom m;
  ri_buffer : len (buffer r) = lor_size r;
  ri_bytes : Forall is_u8 (buffer r);
  ri_max : lor_size r <= MAX_ALLOC;
  ri_next : 0 <= next_offset r <= lor_size r;
  ri_ext : map_Forall (fun o x => ext_wf x /\ ext_at (buffer r) o x) m;
  ri_range : Forall (fun b => 0 <= b.1 /\ 0 < b.2 /\ b.1 + b.2 <= next_offset r) (region_blocks m r);
  ri_disjoint : disjoint_blocks (region_blocks m r);
  ri_sum : block_sum (region_blocks m r) = next_offset r
}.

(** ** Lemmas on blocks *)

Lemma disj_sym a b : disj a b <-> disj b a.
Proof. unfold disj. tauto. Qed.

Lemma disjoint_blocks_perm l k : l ≡ₚ k -> disjoint_blocks l -> disjoint_blocks k.
Proof.
  induction 1 as [|b l k Hp IH|a b l|l1 l2 l3 _ IH1 _ IH2]; [done | | | auto].
  - intros [Hb Hl]. split; [by rewrite <- Hp | auto].
  - intros [Hb [Ha Hl]]. apply Forall_cons in Hb as [Hab Hb].
    split; [apply Forall_cons; split; [by apply disj_sym | done] | by split].
Qed.

Lemma block_sum_perm l k : l ≡ₚ k -> block_sum l = block_sum k.
Proof. unfold block_sum. induction 1; cbn [foldr]; lia. Qed.

Lemma block_sum_app l k : block_sum (l ++ k) = block_sum l + block_sum k.
Proof. unfold block_sum. induction l; cbn [foldr app]; lia. Qed.

#[export] Instance disjoint_blocks_proper : Proper ((≡ₚ) ==> iff) disjoint_blocks.
Proof. intros l k H. split; apply disjoint_blocks_perm; by rewrite H. Qed.
#[export] Instance block_sum_proper : Proper ((≡ₚ) ==> eq) block_sum.
Proof. intros l k. apply block_sum_perm. Qed.

(** Splitting a block in two keeps the partition. *)
Lemma disjoint_blocks_split o n t l :
  0 <= t <= n -> disjoint_blocks ((o, n) :: l) -> disjoint_blocks ((o, t) :: (o + t, n - t) :: l).
Proof.
  intros Ht [Hb Hl]. assert (Hsub : forall o' n', o <= o' -> o' + n' <= o + n -> Forall (disj (o', n')) l).
  { intros o' n' H1 H2. eapply Forall_impl; [exact Hb|]. unfold disj. cbn. intros b. lia. }
  cbn. split_and!; [apply Forall_cons; split | | done]; [unfold disj; cbn; lia | apply Hsub; lia..].
Qed.

(** Shrinking a block to the part that is used. *)
Lemma disjoint_blocks_shrink o n t l :
  t <= n -> disjoint_blocks ((o, n) :: l) -> disjoint_blocks ((o, t) :: l).
Proof.
  intros Ht [Hb Hl]. split; [|done]. eapply Forall_impl; [exact Hb|]. unfold disj. cbn. intros b. lia.
Qed.

Lemma ext_blocks_insert m o x :
  m !! o = None -> ext_blocks (<[o := x]> m) ≡ₚ (o, footprint x) :: ext_blocks m.
Proof. intros H. unfold ext_blocks. by rewrite map_to_list_insert. Qed.

Lemma ext_blocks_delete m o x :
  m !! o = Some x -> ext_blocks m ≡ₚ (o, footprint x) :: ext_blocks (delete o m).
Proof. intros H. unfold ext_blocks. by rewrite <- (map_to_list_delete m o x H). Qed.

Lemma ext_blocks_elem m o x : m !! o = Some x -> (o, footprint x) ∈ ext_blocks m.
Proof.
  intros H. unfold ext_blocks. apply list_elem_of_fmap. exists (o, x).
  split; [done|]. by apply elem_of_map_to_list.
Qed.

(** ** Sizes *)

Lemma extent_total_spec n :
  0 <= n <= MAX_ALLOC -> extent_total n = (32 + n + 7) / 8 * 8.
Proof.
  unfold MAX_ALLOC, extent_total, HEADER_SIZE, EXTENT_ALIGN. intros Hn.
  rewrite u64_small by (unfold is_u64; lia). rewrite align_up_8 by lia. done.
Qed.

Lemma extent_total_bounds n :
  0 <= n <= MAX_ALLOC -> 32 + n <= extent_total n < 40 + n.
Proof. intros Hn. rewrite extent_total_spec by done. zify_lia. Qed.

Lemma len_ext_header x : len (ext_header x) = ext_header_len x.
Proof. unfold ext_header, ext_header_len, ext_is_v2. by destruct (xt_format x). Qed.

Lemma len_ext_image x : len (ext_image x) = ext_header_len x + len (xt_data x).
Proof. unfold ext_image. by rewrite len_app, len_ext_header. Qed.

Lemma footprint_bounds x :
  ext_wf x -> ext_header_len x + len (xt_data x) <= footprint x < 40 + len (xt_data x).
Proof.
  intros Hx. pose proof (xwf_len _ Hx). pose proof (len_nonneg (xt_data x)).
  unfold footprint, ext_header_len. destruct (ext_is_v2 x); [|lia].
  apply extent_total_bounds. unfold MAX_ALLOC. lia.
Qed.

Lemma header_len_cases x : ext_header_len x = 24 \/ ext_header_len x = 32.
Proof. unfold ext_header_len. destruct (ext_is_v2 x); auto. Qed.

(** ** Reading an image *)

Section image.
Context (buf : list Z) (o : Z) (x : extent).
Hypothesis Hat : ext_at buf o x.
Hypothesis Hwf : ext_wf x.
Hypothesis Ho : 0 <= o.

Lemma image_bread k n :
  0 <= k -> k + n <= len (ext_image x) -> bread (o + k) n buf = bread k n (ext_image x).
Proof. intros Hk Hn. unfold ext_at in Hat. rewrite <- Hat. by rewrite bread_bread. Qed.

Lemma data_bread : bread (o + ext_header_len x) (len (xt_data x)) buf = xt_data x.
Proof.
  rewrite image_bread by (rewrite ?len_ext_image; destruct (header_len_cases x) as [-> | ->]; lia).
  unfold ext_image. rewrite bread_app_r by (rewrite len_ext_header; lia).
  rewrite len_ext_header, Z.sub_diag. by apply bread_all.
Qed.

Context (Hin : o + footprint x <= len buf) (Hmax : len buf <= MAX_ALLOC).

Lemma image_room : 0 <= o /\ o + ext_header_len x + len (xt_data x) <= len buf /\ len buf < 2 ^ 63.
Proof. pose proof (footprint_bounds x Hwf). unfold MAX_ALLOC in *. lia. Qed.

(** A checked little-endian read inside the image. *)
Lemma read_le_image k n hi :
  hi = o + k + n -> 0 <= k -> 0 <= n -> k + n <= len (ext_image x) ->
  read_le buf (u64 (o + k)) (u64 hi) = Done (from_le (bread k n (ext_image x))).
Proof.
  intros -> Hk Hn Hkn. rewrite len_ext_image in Hkn. destruct image_room as (_ & Hr & Hm).
  unfold read_le. rewrite !u64_small by (unfold is_u64; lia).
  rewrite slice_Done by lia. rewrite exec_bind_done.
  replace (o + k + n - (o + k)) with n by lia. rewrite image_bread by (rewrite ?len_ext_image; lia).
  done.
Qed.
End image.

(** The fields of the image, by computation on the header bytes. *)
Lemma image_v1_fields d e :
  let x := mkExtent FmtV1 d e in
  bread 16 4 (ext_image x) = to_le 4 EXTENT_MAGIC
  /\ bread 0 8 (ext_image x) = to_le 8 (len d) /\ bread 8 8 (ext_image x) = to_le 8 e.
Proof. split_and!; reflexivity. Qed.

Lemma image_v2_fields d e c :
  let x := mkExtent (FmtV2 c) d e in
  bread 16 4 (ext_image x) = to_le 4 e /\ bread 0 4 (ext_image x) = to_le 4 EXTENT_MAGIC
  /\ bread 4 1 (ext_image x) = [1]
  /\ bread 8 4 (ext_image x) = to_le 4 (len d) /\ bread 16 8 (ext_image x) = to_le 8 e
  /\ bread 24 8 (ext_image x) = to_le 8 c.
Proof. split_and!; reflexivity. Qed.

Lemma read_le_off buf o k : is_u64 o -> read_le buf o k = read_le buf (u64 (o + 0)) k.
Proof. intros. by rewrite Z.add_0_r, u64_small. Qed.

Lemma vec_get_bread (l : list Z) i v : 0 <= i -> bread i 1 l = [v] -> vec_get l i = Done v.
Proof.
  intros Hi H. apply vec_get_Some; [done|]. unfold bread in H.
  replace (Z.to_nat i) with (Z.to_nat i + 0)%nat by lia. rewrite <- lookup_drop.
  destruct (drop (Z.to_nat i) l) as [|y k]; [done|]. change (Z.to_nat 1) with 1%nat in H. cbn in H. injection H as ->. reflexivity.
Qed.

Section decode.
Context (r : LargeObjectRegion) (o : Z) (x : extent).
Hypothesis Hat : ext_at (buffer r) o x.
Hypothesis Hwf : ext_wf x.
Hypothesis Ho : 0 <= o.
Hypothesis Hin : o + footprint x <= len (buffer r).
Hypothesis Hmax : len (buffer r) <= MAX_ALLOC.

(** Decoding a stored extent gives back its fields, in both formats. *)
Lemma read_decoded_header_at :
  read_decoded_header r o
  = Done (Some (mkDecodedHeader EXTENT_MAGIC (len (xt_data x)) (xt_epoch x) (ext_is_v2 x))).
Proof.
  destruct (image_room _ _ _ Hwf Ho Hin Hmax) as (_ & Hr & Hm).
  pose proof (len_nonneg (xt_data x)) as Hd. pose proof (xwf_len _ Hwf) as Hl.
  pose proof (xwf_epoch _ Hwf) as He. pose proof (xwf_not_magic _ Hwf) as Hnm.
  assert (Hou : is_u64 o) by (unfold is_u64; destruct (header_len_cases x); lia).
  pose proof (fun k n hi => read_le_image _ _ _ Hat Hwf Ho Hin Hmax k n hi) as RL.
  rewrite len_ext_image in RL. unfold read_decoded_header.
  destruct x as [[|c] d e]; cbn [ext_is_v2 xt_format xt_data xt_epoch] in *;
    cbn [ext_header_len ext_is_v2 xt_format] in Hr, RL;
    rewrite (u64_small (o + 24)) by (unfold is_u64; lia); rewrite (proj2 (Z.leb_le _ _)) by lia.
  - destruct (image_v1_fields d e) as (F1 & F2 & F3).
    rewrite (RL 16 4 _) by lia. cbn [mbind exec_bind].
    rewrite F1. change (from_le (to_le 4 EXTENT_MAGIC) =? EXTENT_MAGIC) with true. cbn iota.
    rewrite (read_le_off _ o) by done. rewrite (RL 0 8 _) by lia.
    cbn [mbind exec_bind]. rewrite (RL 8 8 _), F2, F3 by lia. cbn [mbind exec_bind].
    rewrite ?from_le_to_le_4, !from_le_to_le_8 by (done || (unfold is_u32, is_u64; lia)). reflexivity.
  - destruct (image_v2_fields d e c) as (F1 & F2 & F3 & F4 & F5 & _).
    rewrite (RL 16 4 _) by lia. cbn [mbind exec_bind].
    rewrite F1, from_le_to_le. change (2 ^ (8 * Z.of_nat 4)) with (2 ^ 32).
    rewrite (proj2 (Z.eqb_neq _ EXTENT_MAGIC)) by (by apply Hnm).
    unfold decode_v2. rewrite (u64_small (o + 5)) by (unfold is_u64; lia).
    rewrite (proj2 (Z.leb_le (o + 5) _)) by lia.
    rewrite (read_le_off _ o (u64 (o + 4))) by done. rewrite (RL 0 4 _) by lia. cbn [mbind exec_bind]. rewrite F2.
    change (from_le (to_le 4 EXTENT_MAGIC) =? EXTENT_MAGIC) with true. cbn [negb].
    rewrite (u64_small (o + 4)) by (unfold is_u64; lia).
    rewrite (vec_get_bread _ _ 1); [|lia|rewrite (image_bread _ _ _ Hat) by (rewrite ?len_ext_image; cbn; lia); exact F3].
    cbn [mbind exec_bind]. change (1 =? 0) with false. change (1 =? 1) with true. cbn iota.
    rewrite (u64_small (o + 32)) by (unfold is_u64; lia).
    rewrite (proj2 (Z.ltb_ge _ (o + 32))) by lia.
    rewrite (RL 8 4 _) by lia. cbn [mbind exec_bind].
    rewrite (RL 16 8 _), F4, F5 by lia. cbn [mbind exec_bind].
    rewrite ?from_le_to_le_4, !from_le_to_le_8 by (done || (unfold is_u32, is_u64; lia)). reflexivity.
Qed.
End decode.

(** ** Frames *)

Lemma ext_at_frame buf o x w src :
  ext_wf x -> ext_at buf o x -> 0 <= o -> 0 <= w -> w + len src <= len buf ->
  disj (o, footprint x) (w, len src) -> ext_at (bwrite w src buf) o x.
Proof.
  intros Hwf Hat Ho Hw Hl Hd. unfold ext_at in *. rewrite <- Hat at 2.
  pose proof (footprint_bounds x Hwf). pose proof (len_ext_image x).
  pose proof (len_nonneg (ext_image x)).
  apply bread_bwrite_disjoint; try lia. unfold disj in Hd. cbn in Hd. lia.
Qed.

Lemma disjoint_blocks_elem b l a : disjoint_blocks (b :: l) -> a ∈ l -> disj b a.
Proof. intros [Hb _] Ha. rewrite Forall_forall in Hb. auto. Qed.

Lemma ext_blocks_elem_inv m b : b ∈ ext_blocks m -> exists x, m !! b.1 = Some x /\ b.2 = footprint x.
Proof.
  unfold ext_blocks. intros ([o x] & -> & H)%list_elem_of_fmap.
  apply elem_of_map_to_list in H. by exists x.
Qed.

(** A block that overlaps no extent does not start one. *)
Lemma block_fresh m o n l :
  0 < n -> map_Forall (fun _ x => ext_wf x) m ->
  disjoint_blocks ((o, n) :: ext_blocks m ++ l) -> m !! o = None.
Proof.
  intros Hn Hwf Hd. destruct (m !! o) as [x|] eqn:E; [|done]. exfalso.
  assert (Hx : disj (o, n) (o, footprint x)).
  { eapply disjoint_blocks_elem; [exact Hd|]. apply elem_of_app. left. by apply ext_blocks_elem. }
  pose proof (footprint_bounds x (Hwf _ _ E)). pose proof (len_nonneg (xt_data x)).
  unfold disj in Hx. cbn in Hx. destruct (header_len_cases x); lia.
Qed.

Lemma ext_image_bytes x : ext_wf x -> Forall is_u8 (ext_image x).
Proof.
  intros []. apply Forall_app. split; [|done]. unfold ext_header.
  destruct (xt_format x); unfold bytes_of_header_v1, bytes_of_header_v2; cbn [h2_pad1 h2_pad2];
    rewrite !Forall_app; auto 10 with rdmas.
Qed.

(** Storing an extent in a block that is disjoint from everything kept. *)
Lemma region_place m r o x fl nx :
  region_inv m r -> ext_wf x -> next_offset r <= nx <= lor_size r ->
  Forall (fun b => 0 <= b.1 /\ 0 < b.2 /\ b.1 + b.2 <= nx) ((o, footprint x) :: ext_blocks m ++ fl) ->
  disjoint_blocks ((o, footprint x) :: ext_blocks m ++ fl) ->
  block_sum ((o, footprint x) :: ext_blocks m ++ fl) = nx ->
  m !! o = None /\
  region_inv (<[o := x]> m)
    (mkRegion (bwrite o (ext_image x) (buffer r)) fl ({[o]} ∪ allocated r) nx (lor_size r)).
Proof.
  intros Hinv Hx Hnx Hrange Hdis Hsum.
  pose proof (footprint_bounds x Hx). pose proof (len_ext_image x). pose proof (len_nonneg (xt_data x)).
  assert (Hfresh : m !! o = None).
  { apply (block_fresh m o (footprint x) fl); [destruct (header_len_cases x); lia | | done].
    intros o' x' H'. apply (ri_ext _ _ Hinv _ _ H'). }
  split; [done|]. apply Forall_cons in Hrange as Hr. destruct Hr as [Ho _]. cbn in Ho.
  assert (Hfit : o + len (ext_image x) <= len (buffer r)) by (rewrite (ri_buffer _ _ Hinv); lia).
  assert (Hperm : region_blocks (<[o := x]> m)
      (mkRegion (bwrite o (ext_image x) (buffer r)) fl ({[o]} ∪ allocated r) nx (lor_size r))
      ≡ₚ (o, footprint x) :: ext_blocks m ++ fl).
  { unfold region_blocks. cbn [free_list]. by rewrite ext_blocks_insert. }
  constructor; cbn [allocated buffer free_list next_offset lor_size].
  - rewrite (ri_alloc _ _ Hinv). by rewrite dom_insert_L.
  - rewrite len_bwrite by lia. apply Hinv.
  - apply bytes_ok_bwrite; [apply Hinv | by apply ext_image_bytes].
  - apply Hinv.
  - pose proof (ri_next _ _ Hinv). lia.
  - apply map_Forall_insert_2.
    + split; [done|]. apply bread_bwrite_same; lia.
    + intros o' x' H'. destruct (ri_ext _ _ Hinv _ _ H') as [Hx' Hat']. split; [done|].
      assert (Hin : (o', footprint x') ∈ ext_blocks m ++ fl)
        by (apply elem_of_app; left; by apply ext_blocks_elem).
      pose proof (disjoint_blocks_elem _ _ _ Hdis Hin) as Hd.
      apply Forall_cons in Hrange as [_ Hrange]. rewrite Forall_forall in Hrange.
      specialize (Hrange _ Hin). cbn in Hrange.
      apply ext_at_frame; [done | done | lia | lia | lia |]. unfold disj in *. cbn in *. lia.
  - by rewrite Hperm.
  - by rewrite Hperm.
  - by rewrite Hperm.
Qed.

(** ** Writing an extent *)

Lemma write_header_data_Done r o hdr data :
  0 <= o -> o + 32 + len data <= len (buffer r) -> len (buffer r) <= MAX_ALLOC ->
  len (bytes_of_header_v2 hdr) = 32 ->
  write_header_data r o hdr data
  = Done (set_buffer r (bwrite o (bytes_of_header_v2 hdr ++ data) (buffer r))).
Proof.
  unfold MAX_ALLOC. intros Ho Hl Hm Hh. pose proof (len_nonneg data).
  unfold write_header_data, HEADER_SIZE.
  rewrite (u64_small (o + 32)) by (unfold is_u64; lia).
  rewrite (u64_small (o + 32 + len data)) by (unfold is_u64; lia).
  rewrite slice_write_Done, exec_bind_done by lia.
  rewrite slice_write_Done, exec_bind_done by (rewrite ?len_bwrite; lia).
  by rewrite (bwrite_app o) by lia.
Qed.

(** The extent that [allocate] and the checksummed writer store. *)
Definition new_extent (checksum : Z) (data : list Z) : extent := mkExtent (FmtV2 checksum) data 0.

Lemma new_extent_wf c data :
  len data < 2 ^ 32 -> Forall is_u8 data -> is_u64 c -> ext_wf (new_extent c data).
Proof. intros. constructor; cbn; done. Qed.

Lemma write_new_extent r o c data :
  len data < 2 ^ 32 -> 0 <= o -> o + 32 + len data <= len (buffer r) -> len (buffer r) <= MAX_ALLOC ->
  write_header_data r o (mkExtentHeaderV2 EXTENT_MAGIC 1 (zeros 3) (u32 (len data)) (zeros 4) 0 c) data
  = Done (set_buffer r (bwrite o (ext_image (new_extent c data)) (buffer r))).
Proof.
  intros Hd Ho Hl Hm. pose proof (len_nonneg data).
  rewrite u32_small by (unfold is_u32; lia). by rewrite write_header_data_Done.
Qed.

(** ** The operations *)

Section operations.
Implicit Types (m : gmap Z extent) (r : LargeObjectRegion).

Lemma region_block_range m r b :
  region_inv m r -> b ∈ region_blocks m r -> 0 <= b.1 /\ 0 < b.2 /\ b.1 + b.2 <= next_offset r.
Proof. intros Hinv Hb. pose proof (ri_range _ _ Hinv) as H. rewrite Forall_forall in H. auto. Qed.

(** A stored extent lies inside the buffer. *)
Lemma region_ext_room m r o x :
  region_inv m r -> m !! o = Some x ->
  ext_wf x /\ ext_at (buffer r) o x /\ 0 <= o /\ o + footprint x <= len (buffer r)
  /\ len (buffer r) <= MAX_ALLOC.
Proof.
  intros Hinv Hm. destruct (ri_ext _ _ Hinv _ _ Hm) as [Hx Hat].
  assert (Hb : (o, footprint x) ∈ region_blocks m r)
    by (apply elem_of_app; left; by apply ext_blocks_elem).
  apply (region_block_range _ _ _ Hinv) in Hb. cbn in Hb.
  rewrite (ri_buffer _ _ Hinv). pose proof (ri_next _ _ Hinv). pose proof (ri_max _ _ Hinv).
  split_and!; [done | done | lia..].
Qed.

Lemma read_header_spec m r o x :
  region_inv m r -> m !! o = Some x ->
  read_decoded_header r o
  = Done (Some (mkDecodedHeader EXTENT_MAGIC (len (xt_data x)) (xt_epoch x) (ext_is_v2 x))).
Proof.
  intros Hinv Hm. destruct (region_ext_room _ _ _ _ Hinv Hm) as (? & ? & ? & ? & ?).
  by apply read_decoded_header_at.
Qed.

Lemma read_spec m r o x :
  region_inv m r -> m !! o = Some x -> LargeObjectRegion_read r o = Done (Some (xt_data x)).
Proof.
  intros Hinv Hm. destruct (region_ext_room _ _ _ _ Hinv Hm) as (Hx & Hat & Ho & Hin & Hmax).
  destruct (image_room _ _ _ Hx Ho Hin Hmax) as (_ & Hr & Hb).
  pose proof (len_nonneg (xt_data x)).
  unfold LargeObjectRegion_read. rewrite (read_header_spec _ _ _ _ Hinv Hm), exec_bind_done.
  cbn [dh_magic dh_data_len]. rewrite Z.eqb_refl. cbn [negb].
  change (header_size _) with (ext_header_len x).
  assert (0 <= ext_header_len x) by (destruct (header_len_cases x); lia).
  rewrite !u64_small by (unfold is_u64; rewrite ?u64_small by (unfold is_u64; lia); lia).
  rewrite (proj2 (Z.ltb_ge _ _)) by lia. rewrite slice_Done, exec_bind_done by lia.
  replace (o + ext_header_len x + len (xt_data x) - (o + ext_header_len x)) with (len (xt_data x)) by lia.
  by rewrite data_bread.
Qed.

(** *** Allocation *)

Lemma list_find_delete (P : block -> Prop) `{!forall b, Decision (P b)} (l : list block) i b :
  list_find P l = Some (i, b) -> P b /\ l ≡ₚ b :: delete i l.
Proof. intros (Hi & HP & _)%list_find_Some. split; [done|]. by apply delete_Permutation. Qed.

Lemma bump_range m r t :
  region_inv m r -> 0 < t -> Forall (fun b => 0 <= b.1 /\ 0 < b.2 /\ b.1 + b.2 <= next_offset r + t)
    ((next_offset r, t) :: region_blocks m r).
Proof.
  intros Hinv Ht. pose proof (ri_next _ _ Hinv). constructor; [cbn; lia|].
  eapply Forall_impl; [apply Hinv|]. cbn. intros. lia.
Qed.

(** The bump pointer separates the new block from all the others. *)
Lemma bump_disjoint m r t :
  region_inv m r -> disjoint_blocks ((next_offset r, t) :: region_blocks m r).
Proof.
  intros Hinv. split; [|apply Hinv]. eapply Forall_impl; [apply Hinv|].
  unfold disj. cbn. intros. lia.
Qed.

(** Storing [x] at the bump pointer. *)
Lemma region_bump m r x :
  region_inv m r -> ext_wf x -> next_offset r + footprint x <= lor_size r ->
  m !! next_offset r = None /\
  region_inv (<[next_offset r := x]> m)
    (mkRegion (bwrite (next_offset r) (ext_image x) (buffer r)) (free_list r)
       ({[next_offset r]} ∪ allocated r) (next_offset r + footprint x) (lor_size r)).
Proof.
  intros Hinv Hx Hfit. pose proof (footprint_bounds x Hx). pose proof (len_nonneg (xt_data x)).
  assert (0 < footprint x) by (destruct (header_len_cases x); lia).
  apply region_place; [done | done | lia | by apply bump_range | by apply bump_disjoint |].
  change (block_sum (?b :: ?l)) with (b.2 + block_sum l). fold (region_blocks m r).
  rewrite (ri_sum _ _ Hinv). cbn. lia.
Qed.

Lemma split_tail_blocks o t n (fl : list block) :
  t <= n ->
  (o, t) :: (if t <? n then fl ++ [(o + t, n - t)] else fl)
  ≡ₚ (if t <? n then (o, t) :: (o + t, n - t) :: fl else (o, n) :: fl).
Proof.
  intros Ht. destruct (t <? n) eqn:E; bool_simpl.
  - by rewrite (Permutation_app_comm fl).
  - by replace t with n by lia.
Qed.

(** Storing [x] in the free block [i], whose unused tail stays free. *)
Lemma region_reuse m r x i o n :
  region_inv m r -> ext_wf x ->
  list_find (fun p : block => footprint x <= p.2) (free_list r) = Some (i, (o, n)) ->
  m !! o = None /\
  region_inv (<[o := x]> m)
    (mkRegion (bwrite o (ext_image x) (buffer r))
       (if footprint x <? n then delete i (free_list r) ++ [(o + footprint x, n - footprint x)]
        else delete i (free_list r))
       ({[o]} ∪ allocated r) (next_offset r) (lor_size r)).
Proof.
  intros Hinv Hx Hf. apply list_find_delete in Hf as [Hn Hp]. cbn in Hn.
  pose proof (footprint_bounds x Hx). pose proof (len_nonneg (xt_data x)).
  assert (0 < footprint x) by (destruct (header_len_cases x); lia).
  assert (Hall : region_blocks m r ≡ₚ (o, n) :: (ext_blocks m ++ delete i (free_list r))).
  { unfold region_blocks. rewrite Hp at 1. by rewrite <- Permutation_middle. }
  pose proof (ri_range _ _ Hinv) as HR. pose proof (ri_disjoint _ _ Hinv) as HD.
  pose proof (ri_sum _ _ Hinv) as HS. rewrite Hall in HR, HD, HS.
  apply Forall_cons in HR as [Hon HR]. cbn in Hon.
  set (fl := if _ <? n then _ else _).
  assert (Hnew : (o, footprint x) :: ext_blocks m ++ fl
    ≡ₚ if footprint x <? n
       then (o, footprint x) :: (o + footprint x, n - footprint x) :: (ext_blocks m ++ delete i (free_list r))
       else (o, n) :: (ext_blocks m ++ delete i (free_list r))).
  { rewrite Permutation_middle. subst fl. rewrite split_tail_blocks by done.
    destruct (footprint x <? n); by rewrite <- ?Permutation_middle. }
  apply region_place; [done | done | pose proof (ri_next _ _ Hinv); lia | | |]; rewrite Hnew;
    destruct (footprint x <? n) eqn:E; bool_simpl.
  - repeat (constructor; [cbn; lia|]). done.
  - constructor; [cbn; lia | done].
  - apply disjoint_blocks_split; [lia | done].
  - done.
  - unfold block_sum in *. cbn [foldr snd] in *. lia.
  - done.
Qed.
End operations.
