(* ===== verification/ExtentProps.v ===== *)
(** * ExtentProps: the theorems of the large object region

    Each operation of the region acts on the map of extents as its contract
    says and keeps the partition of the buffer; the interface [ExtentStore]
    states those promises for the components that use the region. *)

From S2P Require Import Prelude Layout Extent ExtentSpec.

Open Scope Z_scope.

(** ** Allocation *)

Section allocation.
Implicit Types (m : gmap Z extent) (r : LargeObjectRegion).

Definition data_ok (data : list Z) : Prop := len data < 2 ^ 32 /\ Forall is_u8 data.

Lemma data_ok_total data :
  data_ok data -> 32 + len data <= extent_total (len data) < 40 + len data.
Proof.
  intros [Hl _]. apply extent_total_bounds. pose proof (len_nonneg data). unfold MAX_ALLOC. lia.
Qed.

(** No room: neither a free block nor the tail can hold the extent. *)
Definition no_room (r : LargeObjectRegion) (t : Z) : Prop :=
  Forall (fun b => b.2 < t) (free_list r) /\ lor_size r < next_offset r + t.

Lemma allocate_spec m r data :
  region_inv m r -> data_ok data ->
  exists r' res, allocate r data = Done (r', res) /\
  match res with
  | Some o => m !! o = None /\ region_inv (<[o := new_extent 0 data]> m) r'
  | None => r' = r /\ no_room r (extent_total (len data))
  end.
Proof.
  intros Hinv Hdata. pose proof (data_ok_total data Hdata) as Ht. destruct Hdata as [Hl Hb].
  pose proof (len_nonneg data). pose proof (ri_next _ _ Hinv). pose proof (ri_max _ _ Hinv) as Hmax.
  pose proof (ri_buffer _ _ Hinv) as Hbuf.
  assert (Hx : ext_wf (new_extent 0 data)) by (by apply new_extent_wf).
  change (extent_total (len data)) with (footprint (new_extent 0 data)) in Ht |- *.
  unfold allocate. change (extent_total (len data)) with (footprint (new_extent 0 data)).
  destruct (list_find _ (free_list r)) as [[i [o n]]|] eqn:Hf.
  - assert (Hrange : 0 <= o /\ 0 < n /\ o + n <= next_offset r /\ footprint (new_extent 0 data) <= n).
    { pose proof Hf as (Hi & Hn & _)%list_find_Some. cbn [snd] in Hn.
      assert (Hin : (o, n) ∈ region_blocks m r)
        by (apply elem_of_app; right; by eapply list_elem_of_lookup_2).
      apply (region_block_range _ _ _ Hinv) in Hin. cbn [fst snd] in Hin. lia. }
    destruct (region_reuse m r _ _ _ _ Hinv Hx Hf) as [Hfresh Hinv'].
    unfold write_extent. rewrite write_new_extent, exec_bind_done by lia.
    rewrite u64_small by (unfold is_u64, MAX_ALLOC in *; lia).
    do 2 eexists. split; [reflexivity|]. done.
  - rewrite u64_small by (unfold is_u64, MAX_ALLOC in *; lia).
    destruct (lor_size r <? next_offset r + footprint (new_extent 0 data)) eqn:E; bool_simpl.
    + do 2 eexists. split; [reflexivity|]. split; [done|]. split; [|lia].
      apply list_find_None in Hf. eapply Forall_impl; [exact Hf|]. cbn. intros. lia.
    + destruct (region_bump m r _ Hinv Hx) as [Hfresh Hinv']; [lia|].
      unfold write_extent. rewrite write_new_extent, exec_bind_done by lia.
      do 2 eexists. split; [reflexivity|]. done.
Qed.

Lemma write_checksummed_spec xxh64 m r data :
  region_inv m r -> data_ok data -> is_u64 (xxh64 data) ->
  exists r' res, write_extent_v2_checksummed xxh64 r data = Done (r', res) /\
  match res with
  | Some o => o = next_offset r /\ m !! o = None
      /\ region_inv (<[o := new_extent (xxh64 data) data]> m) r'
  | None => r' = r /\ lor_size r < next_offset r + extent_total (len data)
  end.
Proof.
  intros Hinv Hdata Hc. pose proof (data_ok_total data Hdata) as Ht. destruct Hdata as [Hl Hb].
  pose proof (len_nonneg data). pose proof (ri_next _ _ Hinv). pose proof (ri_max _ _ Hinv) as Hmax.
  pose proof (ri_buffer _ _ Hinv) as Hbuf.
  assert (Hx : ext_wf (new_extent (xxh64 data) data)) by (by apply new_extent_wf).
  unfold write_extent_v2_checksummed. rewrite u64_small by (unfold is_u64, MAX_ALLOC in *; lia).
  change (extent_total (len data)) with (footprint (new_extent (xxh64 data) data)) in Ht |- *.
  destruct (lor_size r <? _) eqn:E; bool_simpl; [by do 2 eexists|].
  destruct (region_bump m r _ Hinv Hx) as [Hfresh Hinv']; [lia|].
  rewrite write_new_extent, exec_bind_done by lia.
  do 2 eexists. split; [reflexivity|]. done.
Qed.

(** The five writes of the V1 writer are one write of the image. *)
Lemma v1_writes buf o data :
  0 <= o -> o + 24 + len data <= len buf ->
  bwrite (o + 24) data (bwrite (o + 20) (zeros 4) (bwrite (o + 16) (to_le 4 EXTENT_MAGIC)
    (bwrite (o + 8) (to_le 8 0) (bwrite o (to_le 8 (len data)) buf))))
  = bwrite o (ext_image (mkExtent FmtV1 data 0)) buf.
Proof.
  intros Ho Hl. pose proof (len_nonneg data).
  repeat (rewrite (bwrite_app o) by len_lia).
  reflexivity.
Qed.

Lemma write_v1_spec m r data :
  region_inv m r -> data_ok data ->
  exists r' res, write_extent_v1 r data = Done (r', res) /\
  match res with
  | Some o => o = next_offset r /\ m !! o = None
      /\ region_inv (<[o := mkExtent FmtV1 data 0]> m) r'
  | None => r' = r /\ lor_size r < next_offset r + (24 + len data)
  end.
Proof.
  intros Hinv [Hl Hb]. pose proof (len_nonneg data). pose proof (ri_next _ _ Hinv) as Hnx.
  pose proof (ri_max _ _ Hinv) as Hmax. pose proof (ri_buffer _ _ Hinv) as Hbuf.
  assert (Hx : ext_wf (mkExtent FmtV1 data 0)) by (by constructor).
  unfold write_extent_v1. rewrite (u64_small (24 + len data)) by (unfold is_u64; lia).
  rewrite (u64_small (next_offset r + _)) by (unfold is_u64, MAX_ALLOC in *; lia).
  destruct (lor_size r <? _) eqn:E; bool_simpl; [by do 2 eexists|].
  destruct (region_bump m r _ Hinv Hx) as [Hfresh Hinv']; [cbn; lia|].
  unfold MAX_ALLOC in *.
  assert (Hw : forall k, 0 <= k <= 24 + len data -> u64 (next_offset r + k) = next_offset r + k)
    by (intros; apply u64_small; unfold is_u64; lia).
  rewrite !Hw by lia. rewrite (u64_small (next_offset r + 24 + len data)) by (unfold is_u64; lia).
  repeat (rewrite slice_write_Done, exec_bind_done
    by len_lia).
  rewrite v1_writes by lia. do 2 eexists. split; [reflexivity|]. done.
Qed.
End allocation.

(** ** Freeing *)

Section freeing.
Implicit Types (m : gmap Z extent) (r : LargeObjectRegion).

Lemma decoded_total_footprint x :
  ext_wf x ->
  decoded_total (mkDecodedHeader EXTENT_MAGIC (len (xt_data x)) (xt_epoch x) (ext_is_v2 x)) = footprint x.
Proof.
  intros Hx. pose proof (xwf_len _ Hx). pose proof (len_nonneg (xt_data x)).
  unfold decoded_total, footprint. cbn. destruct (ext_is_v2 x); [done|].
  apply u64_small. unfold is_u64. lia.
Qed.

Lemma zero_magic_Done r o :
  0 <= o -> o + 4 <= len (buffer r) -> len (buffer r) <= MAX_ALLOC ->
  zero_magic r o = Done (set_buffer r (bwrite o (zeros 4) (buffer r))).
Proof.
  unfold MAX_ALLOC. intros Ho Hl Hm. unfold zero_magic.
  rewrite u64_small by (unfold is_u64; lia). rewrite (proj2 (Z.leb_le _ _)) by lia.
  by rewrite slice_write_Done, exec_bind_done by len_lia.
Qed.

Lemma region_ext_disj m r o x o' x' :
  region_inv m r -> m !! o = Some x -> m !! o' = Some x' -> o <> o' ->
  disj (o, footprint x) (o', footprint x').
Proof.
  intros Hinv Hm Hm' Hne. pose proof (ri_disjoint _ _ Hinv) as HD. unfold region_blocks in HD.
  rewrite (ext_blocks_delete m o x) in HD by done. eapply disjoint_blocks_elem; [exact HD|].
  apply elem_of_app. left. apply ext_blocks_elem. by rewrite lookup_delete_ne.
Qed.

(** Releasing a stored extent moves its block to the free list. *)
Lemma release_extent_spec m r o x :
  region_inv m r -> m !! o = Some x ->
  exists r', release_extent r o (mkDecodedHeader EXTENT_MAGIC (len (xt_data x)) (xt_epoch x) (ext_is_v2 x))
             = Done r'
    /\ region_inv (delete o m) r' /\ free_list r' = free_list r ++ [(o, footprint x)]
    /\ buffer r' = bwrite o (zeros 4) (buffer r).
Proof.
  intros Hinv Hm. destruct (region_ext_room _ _ _ _ Hinv Hm) as (Hx & Hat & Ho & Hin & Hmax).
  destruct (image_room _ _ _ Hx Ho Hin Hmax) as (_ & Hr & Hb). pose proof (len_nonneg (xt_data x)).
  assert (Hlo : o + 4 <= len (buffer r)) by (destruct (header_len_cases x); lia).
  unfold release_extent. rewrite zero_magic_Done, exec_bind_done by lia.
  rewrite decoded_total_footprint by done. eexists. split; [reflexivity|].
  split_and!; [|done|done].
  assert (Hperm : ext_blocks (delete o m) ++ free_list r ++ [(o, footprint x)] ≡ₚ region_blocks m r).
  { unfold region_blocks. rewrite (ext_blocks_delete m o x) by done.
    rewrite (Permutation_app_comm (free_list r)). cbn. by rewrite <- Permutation_middle. }
  constructor; cbn [allocated buffer free_list next_offset lor_size set_buffer];
    try apply Hinv; unfold region_blocks; cbn [free_list]; try (rewrite Hperm; apply Hinv).
  - by rewrite dom_delete_L, (ri_alloc _ _ Hinv).
  - rewrite len_bwrite by len_lia. apply Hinv.
  - apply bytes_ok_bwrite; [apply Hinv | auto with rdmas].
  - intros o' x' [Hne Hm']%lookup_delete_Some. destruct (ri_ext _ _ Hinv _ _ Hm') as [Hx' Hat'].
    split; [done|]. destruct (region_ext_room _ _ _ _ Hinv Hm') as (_ & _ & Ho' & _ & _).
    apply ext_at_frame; [done | done | lia | lia | len_lia |].
    pose proof (region_ext_disj _ _ _ _ _ _ Hinv Hm Hm' Hne) as Hd.
    pose proof (footprint_bounds x Hx). unfold disj in *. rewrite len_zeros. cbn in *.
    destruct (header_len_cases x); lia.
Qed.

Lemma free_spec m r o :
  region_inv m r ->
  match m !! o with
  | Some x => exists r', LargeObjectRegion_free r o = Done (r', Ok tt) /\ region_inv (delete o m) r'
      /\ free_list r' = free_list r ++ [(o, footprint x)]
      /\ buffer r' = bwrite o (zeros 4) (buffer r)
  | None => LargeObjectRegion_free r o = Done (r, Err NotAllocated)
  end.
Proof.
  intros Hinv. unfold LargeObjectRegion_free. rewrite (ri_alloc _ _ Hinv).
  destruct (m !! o) as [x|] eqn:Hm.
  - rewrite bool_decide_eq_true_2 by (by eapply elem_of_dom_2). cbn [negb].
    rewrite (read_header_spec _ _ _ _ Hinv Hm), exec_bind_done. cbn [dh_magic].
    rewrite Z.eqb_refl. cbn [negb].
    destruct (release_extent_spec m r o x Hinv Hm) as (r' & -> & H).
    exists r'. by rewrite exec_bind_done.
  - rewrite bool_decide_eq_false_2; [done|]. by apply not_elem_of_dom.
Qed.

(** A header with its first word zeroed no longer decodes to an extent (V2). *)
Lemma zeroed_header_read r o x :
  ext_wf x -> ext_is_v2 x = true -> 0 <= o -> o + footprint x <= len (buffer r) ->
  len (buffer r) <= MAX_ALLOC -> bread o (len (ext_image x)) (buffer r) = bwrite 0 (zeros 4) (ext_image x) ->
  LargeObjectRegion_read r o = Done None.
Proof.
  intros Hx Hv2 Ho Hin Hmax Hb. destruct (image_room _ _ _ Hx Ho Hin Hmax) as (_ & Hr & Hlt).
  pose proof (xwf_not_magic _ Hx Hv2) as Hnm. pose proof (len_nonneg (xt_data x)).
  destruct x as [[|c] d e]; [done|]. cbn [ext_header_len ext_is_v2 xt_format xt_data xt_epoch] in *.
  assert (HI : len (ext_image (mkExtent (FmtV2 c) d e)) = 32 + len d) by apply len_ext_image.
  assert (H16 : bread (o + 16) 4 (buffer r) = to_le 4 e)
    by (rewrite <- (bread_bread o (32 + len d) 16 4), <- HI, Hb by lia; reflexivity).
  assert (H0 : bread o 4 (buffer r) = zeros 4)
    by (replace o with (o + 0) by lia; rewrite <- (bread_bread o (32 + len d) 0 4), <- HI, Hb by lia; reflexivity).
  unfold LargeObjectRegion_read, read_decoded_header, read_le.
  rewrite !(u64_small (o + 24)), !(u64_small (o + 16)), !(u64_small (o + 20)) by (unfold is_u64; lia).
  rewrite (proj2 (Z.leb_le _ _)) by lia. rewrite (slice_Done _ (o + 16) (o + 20)) by lia.
  cbn [mbind exec_bind]. replace (o + 20 - (o + 16)) with 4 by lia.
  rewrite H16, from_le_to_le. change (2 ^ (8 * Z.of_nat 4)) with (2 ^ 32).
  rewrite (proj2 (Z.eqb_neq _ EXTENT_MAGIC)) by done.
  unfold decode_v2, read_le. rewrite (u64_small (o + 5)), (u64_small (o + 4)) by (unfold is_u64; lia).
  rewrite (proj2 (Z.leb_le (o + 5) _)) by lia. rewrite (slice_Done _ o (o + 4)) by lia.
  cbn [mbind exec_bind]. replace (o + 4 - o) with 4 by lia. rewrite H0. reflexivity.
Qed.

Lemma freed_read_None m r r' o x :
  region_inv m r -> m !! o = Some x -> ext_is_v2 x = true ->
  buffer r' = bwrite o (zeros 4) (buffer r) -> LargeObjectRegion_read r' o = Done None.
Proof.
  intros Hinv Hm Hv2 Hb. destruct (region_ext_room _ _ _ _ Hinv Hm) as (Hx & Hat & Ho & Hin & Hmax).
  destruct (image_room _ _ _ Hx Ho Hin Hmax) as (_ & Hr & _). pose proof (len_nonneg (xt_data x)).
  pose proof (len_ext_image x) as HI. destruct (header_len_cases x) as [E|E]; rewrite E in *.
  { unfold ext_header_len in E. by rewrite Hv2 in E. }
  assert (Hlen : len (buffer r') = len (buffer r)) by (rewrite Hb; len_lia).
  apply (zeroed_header_read r' o x); try done; try lia.
  rewrite Hb. replace o with (o + 0) at 2 by lia.
  rewrite bread_bwrite_window by len_lia. by rewrite Hat.
Qed.
End freeing.

(** ** Marking and sweeping *)

Section gc.
Implicit Types (m : gmap Z extent) (r : LargeObjectRegion).

Definition set_epoch (x : extent) (e : Z) : extent := mkExtent (xt_format x) (xt_data x) e.

(** An epoch that is not mistaken for the magic number of a V1 header. *)
Definition epoch_ok (e : Z) : Prop := is_u64 e /\ e mod 2 ^ 32 <> EXTENT_MAGIC.

Lemma set_epoch_wf x e : ext_wf x -> epoch_ok e -> ext_wf (set_epoch x e).
Proof. intros [] []. by constructor. Qed.

Lemma ext_blocks_set_epoch m o x e :
  m !! o = Some x -> ext_blocks (<[o := set_epoch x e]> m) ≡ₚ ext_blocks m.
Proof.
  intros Hm. rewrite <- insert_delete_eq. rewrite ext_blocks_insert by apply lookup_delete_eq.
  by rewrite (ext_blocks_delete m o x).
Qed.

Lemma mark_spec m r o x e :
  region_inv m r -> m !! o = Some x -> ext_is_v2 x = true -> epoch_ok e ->
  exists r', mark_for_gc r o e = Done (r', Ok tt) /\ region_inv (<[o := set_epoch x e]> m) r'.
Proof.
  intros Hinv Hm Hv2 He. destruct (region_ext_room _ _ _ _ Hinv Hm) as (Hx & Hat & Ho & Hin & Hmax).
  destruct (image_room _ _ _ Hx Ho Hin Hmax) as (_ & Hr & Hb). pose proof (len_nonneg (xt_data x)).
  assert (Hh : ext_header_len x = 32) by (unfold ext_header_len; by rewrite Hv2). rewrite Hh in Hr.
  pose proof (len_ext_image x) as HI. rewrite Hh in HI.
  unfold mark_for_gc. rewrite (read_header_spec _ _ _ _ Hinv Hm), exec_bind_done. cbn [dh_magic].
  rewrite Z.eqb_refl. cbn [negb].
  rewrite (u64_small (o + 16)), (u64_small (o + 16 + 8)) by (unfold is_u64; lia).
  rewrite (proj2 (Z.leb_le _ _)) by lia. rewrite slice_write_Done, exec_bind_done by len_lia.
  eexists. split; [reflexivity|].
  constructor; cbn [allocated buffer free_list next_offset lor_size set_buffer]; try apply Hinv;
    unfold region_blocks; cbn [free_list set_buffer]; try (rewrite ext_blocks_set_epoch by done; apply Hinv).
  - rewrite dom_insert_lookup_L by done. apply Hinv.
  - rewrite len_bwrite by len_lia. apply Hinv.
  - apply bytes_ok_bwrite; [apply Hinv | auto with rdmas].
  - intros o' x' [[<- <-]|[Hne Hm']]%lookup_insert_Some.
    + split; [by apply set_epoch_wf|]. unfold ext_at.
      replace (len (ext_image (set_epoch x e))) with (len (ext_image x)) by (by rewrite !len_ext_image).
      rewrite bread_bwrite_window by len_lia. rewrite Hat.
      destruct x as [[|c] d e0]; [done|]. reflexivity.
    + destruct (region_ext_room _ _ _ _ Hinv Hm') as (Hx' & Hat' & Ho' & _ & _). split; [done|].
      pose proof (region_ext_disj _ _ _ _ _ _ Hinv Hm Hm' Hne) as Hd.
      apply ext_at_frame; [done | done | lia | lia | len_lia |].
      pose proof (footprint_bounds x Hx). unfold disj in *. rewrite len_to_le. cbn [fst snd] in *. lia.
Qed.

(** What [sweep] collects: marked, and older than every active epoch. *)
Definition collectible (min_active_epoch : Z) (x : extent) : Prop :=
  0 < xt_epoch x < min_active_epoch.
#[export] Instance collectible_dec e x : Decision (collectible e x).
Proof. unfold collectible. apply _. Defined.

Definition collectible_in (order : list Z) (e : Z) (p : Z * extent) : Prop :=
  p.1 ∈ order /\ collectible e p.2.
#[export] Instance collectible_in_dec order e p : Decision (collectible_in order e p).
Proof. unfold collectible_in. apply _. Defined.

Lemma filter_collect_cons m o x order e :
  m !! o = Some x -> o ∉ order -> collectible e x ->
  size (filter (collectible_in (o :: order) e) m)
    = S (size (filter (collectible_in order e) (delete o m)))
  /\ filter (fun p => ~ collectible_in (o :: order) e p) m
     = filter (fun p => ~ collectible_in order e p) (delete o m).
Proof.
  intros Hm Hno Hc. split.
  - rewrite <- (insert_delete_id m o x Hm) at 1. rewrite map_filter_insert_True by (split; [set_solver | done]).
    rewrite map_size_insert_None by (apply map_lookup_filter_None; left; apply lookup_delete_eq).
    f_equal. f_equal. apply map_filter_ext. intros o' x' [Hne _]%lookup_delete_Some.
    unfold collectible_in. cbn. set_solver.
  - rewrite <- (insert_delete_id m o x Hm) at 1.
    rewrite map_filter_insert_False by (intros H; apply H; split; [set_solver | done]).
    rewrite delete_delete_eq. apply map_filter_ext. intros o' x' [Hne _]%lookup_delete_Some.
    unfold collectible_in. cbn. set_solver.
Qed.

Lemma filter_keep_cons m o x order e :
  m !! o = Some x -> o ∉ order -> ~ collectible e x ->
  filter (collectible_in (o :: order) e) m = filter (collectible_in order e) m
  /\ filter (fun p => ~ collectible_in (o :: order) e p) m
     = filter (fun p => ~ collectible_in order e p) m.
Proof.
  intros Hm Hno Hc.
  assert (Hiff : forall o' x', m !! o' = Some x' ->
    collectible_in (o :: order) e (o', x') <-> collectible_in order e (o', x')).
  { intros o' x' Hm'. unfold collectible_in. cbn [fst snd]. rewrite elem_of_cons.
    split; [|tauto]. intros [[->|H] H2]; [|done]. by assert (x' = x) as -> by congruence. }
  split; apply map_filter_ext; intros o' x' Hm'; specialize (Hiff o' x' Hm'); tauto.
Qed.

Lemma sweep_loop_spec order : forall m r e count,
  region_inv m r -> NoDup order -> Forall (fun o => o ∈ dom m) order ->
  0 <= count -> count + len order < 2 ^ 64 ->
  exists r', sweep_loop r order e count
      = Done (r', count + Z.of_nat (size (filter (collectible_in order e) m)))
    /\ region_inv (filter (fun p => ~ collectible_in order e p) m) r'.
Proof.
  induction order as [|o order IH]; intros m r e count Hinv Hnd Hdom Hc Hlen.
  { exists r. cbn [sweep_loop].
    assert (Hno : forall p, ~ collectible_in [] e p) by (intros p [H _]; by apply not_elem_of_nil in H).
    assert (filter (collectible_in [] e) m = ∅) as ->.
    { apply map_eq. intros i. rewrite lookup_empty. apply map_lookup_filter_None. right. naive_solver. }
    rewrite (map_filter_id _ m) by auto.
    rewrite map_size_empty. split; [|done]. do 2 f_equal. lia. }
  apply NoDup_cons in Hnd as [Hno Hnd]. apply Forall_cons in Hdom as [Ho Hdom].
  apply elem_of_dom in Ho as [x Hm]. unfold len in Hlen. cbn [length] in Hlen.
  cbn [sweep_loop]. rewrite (read_header_spec _ _ _ _ Hinv Hm), exec_bind_done. cbn [dh_epoch_mark].
  destruct ((0 <? xt_epoch x) && (xt_epoch x <? e)) eqn:E.
  - bool_simpl. destruct (release_extent_spec m r o x Hinv Hm) as (r1 & -> & Hinv1 & _ & _).
    rewrite exec_bind_done, u64_small by (unfold is_u64; lia).
    destruct (IH (delete o m) r1 e (count + 1)) as (r' & -> & Hinv'); [done | done | | lia | unfold len; lia |].
    { rewrite Forall_forall in Hdom |- *. intros o' H'. rewrite dom_delete_L. set_solver. }
    exists r'.
    destruct (filter_collect_cons m o x order e) as [-> ->]; [done | done | unfold collectible; lia |].
    split; [|done]. do 2 f_equal. lia.
  - destruct (IH m r e count) as (r' & -> & Hinv'); [done | done | done | lia | unfold len; lia |].
    exists r'. destruct (filter_keep_cons m o x order e) as [-> ->]; [done | done | | done].
    unfold collectible. apply andb_false_iff in E as [E|E]; bool_simpl; lia.
Qed.
(** There are fewer extents than bytes. *)
Lemma region_count_bound m r : region_inv m r -> Z.of_nat (size m) <= next_offset r.
Proof.
  intros Hinv. rewrite <- (ri_sum _ _ Hinv).
  assert (Hle : forall l : list block, Forall (fun b => 0 <= b.1 /\ 0 < b.2 /\ b.1 + b.2 <= next_offset r) l ->
    Z.of_nat (length l) <= block_sum l).
  { induction 1 as [|b l Hb _ IH]; [done|]. unfold block_sum in *. cbn [foldr length]. lia. }
  specialize (Hle _ (ri_range _ _ Hinv)).
  assert (length (region_blocks m r) = size m + length (free_list r))%nat; [|lia].
  unfold region_blocks, ext_blocks. by rewrite length_app, length_fmap, length_map_to_list.
Qed.

Lemma sweep_spec m r order e :
  region_inv m r -> order ≡ₚ elements (allocated r) ->
  exists r', LargeObjectRegion_sweep r order e
      = Done (r', Z.of_nat (size (filter (fun p => collectible e p.2) m)))
    /\ region_inv (filter (fun p => ~ collectible e p.2) m) r'.
Proof.
  intros Hinv Hord. rewrite (ri_alloc _ _ Hinv) in Hord.
  assert (Hin : forall o x, m !! o = Some x -> o ∈ order).
  { intros o x Hm. rewrite Hord, elem_of_elements. by eapply elem_of_dom_2. }
  destruct (sweep_loop_spec order m r e 0) as (r' & E & Hinv'); [done | | | lia | |].
  - rewrite Hord. apply NoDup_elements.
  - apply Forall_forall. intros o. rewrite Hord. by rewrite elem_of_elements.
  - pose proof (region_count_bound _ _ Hinv). unfold len. rewrite (Permutation_length Hord).
    change (length (elements (dom m))) with (size (dom m)). rewrite size_dom.
    pose proof (ri_next _ _ Hinv). pose proof (ri_max _ _ Hinv). unfold MAX_ALLOC in *. lia.
  - exists r'. unfold LargeObjectRegion_sweep. rewrite E.
    assert (Hiff : forall o x, m !! o = Some x -> collectible_in order e (o, x) <-> collectible e x)
      by (intros o x Hm; split; [by intros [_ ?] | split; [by eapply Hin | done]]).
    assert (E1 : filter (collectible_in order e) m = filter (fun p => collectible e p.2) m)
      by (by apply map_filter_ext).
    assert (E2 : filter (fun p => ~ collectible_in order e p) m = filter (fun p => ~ collectible e p.2) m)
      by (apply map_filter_ext; intros o x Hm; specialize (Hiff o x Hm); cbn; tauto).
    rewrite E1, <- E2. by split.
Qed.

(** ** Statistics *)

Lemma used_bytes_loop_spec m r l acc :
  region_inv m r -> Forall (fun p => m !! p.1 = Some p.2 /\ ext_is_v2 p.2 = true) l -> 0 <= acc ->
  acc + block_sum ((fun p => (p.1, footprint p.2)) <$> l) < 2 ^ 64 ->
  used_bytes_loop r l.*1 acc = Done (acc + block_sum ((fun p => (p.1, footprint p.2)) <$> l)).
Proof.
  intros Hinv Hl. revert acc. induction Hl as [|[o x] l [Hm Hv2] Hl IH]; intros acc Hacc Hsum.
  { cbn. do 2 f_equal. lia. }
  change (((o, x) :: l).*1) with (o :: l.*1). cbn [used_bytes_loop]. cbn [fst snd] in Hm, Hv2.
  rewrite (read_header_spec _ _ _ _ Hinv Hm), exec_bind_done. cbn [dh_data_len].
  assert (extent_total (len (xt_data x)) = footprint x) as -> by (unfold footprint; by rewrite Hv2).
  destruct (region_ext_room _ _ _ _ Hinv Hm) as (Hx & _). pose proof (footprint_bounds x Hx).
  pose proof (len_nonneg (xt_data x)).
  assert (0 < footprint x) by (destruct (header_len_cases x); lia).
  assert (Hs : block_sum ((fun p : Z * extent => (p.1, footprint p.2)) <$> ((o, x) :: l))
               = footprint x + block_sum ((fun p => (p.1, footprint p.2)) <$> l)) by reflexivity.
  assert (0 <= block_sum ((fun p => (p.1, footprint p.2)) <$> l)).
  { clear -Hinv Hl. induction Hl as [|[o x] l [Hm _] Hl IH]; [cbn; lia|].
    destruct (region_ext_room _ _ _ _ Hinv Hm) as (Hx & _). pose proof (footprint_bounds x Hx).
    pose proof (len_nonneg (xt_data x)). change (block_sum (?f <$> ?p :: l)) with ((f p).2 + block_sum (f <$> l)).
    cbn [fst snd]. destruct (header_len_cases x); lia. }
  rewrite Hs in Hsum. rewrite u64_small by (unfold is_u64; lia).
  rewrite IH by lia. rewrite Hs. f_equal. lia.
Qed.

Lemma used_bytes_spec m r order :
  region_inv m r -> map_Forall (fun _ x => ext_is_v2 x = true) m -> order ≡ₚ elements (allocated r) ->
  used_bytes r order = Done (next_offset r - block_sum (free_list r)).
Proof.
  intros Hinv Hv2 Hord. rewrite (ri_alloc _ _ Hinv) in Hord.
  assert (Hperm : order ≡ₚ (map_to_list m).*1).
  { apply NoDup_Permutation; [rewrite Hord; apply NoDup_elements | apply NoDup_fst_map_to_list |].
    intros o. rewrite Hord, elem_of_elements, elem_of_dom, list_elem_of_fmap. split.
    - intros [x Hm]. exists (o, x). by rewrite elem_of_map_to_list.
    - intros ([o' x] & -> & Hm%elem_of_map_to_list). by exists x. }
  destruct (Permutation_map_inv _ _ Hperm) as (l & -> & Hl).
  assert (Hsum : block_sum ((fun p => (p.1, footprint p.2)) <$> l) = next_offset r - block_sum (free_list r)).
  { rewrite <- Hl. fold (ext_blocks m). pose proof (ri_sum _ _ Hinv) as HS.
    unfold region_blocks in HS. rewrite block_sum_app in HS. lia. }
  assert (Hfree : 0 <= block_sum (free_list r)).
  { assert (Hr : Forall (fun b => 0 <= b.1 /\ 0 < b.2 /\ b.1 + b.2 <= next_offset r) (free_list r))
      by (pose proof (ri_range _ _ Hinv) as H; unfold region_blocks in H; by apply Forall_app in H as [_ H]).
    clear -Hr. unfold block_sum. induction Hr as [|b l Hb _ IH]; cbn [foldr]; lia. }
  pose proof (ri_next _ _ Hinv). pose proof (ri_max _ _ Hinv). unfold MAX_ALLOC in *.
  assert (Hall : Forall (fun p => m !! p.1 = Some p.2 /\ ext_is_v2 p.2 = true) l).
  { rewrite <- Hl. apply Forall_forall. intros [o x] Hm%elem_of_map_to_list.
    split; [done | by eapply Hv2]. }
  unfold used_bytes. change (map fst l) with (l.*1). rewrite (used_bytes_loop_spec m) by (done || lia).
  f_equal. lia.
Qed.
End gc.

(** ** Reachable regions *)

Lemma region_new_inv n : 0 <= n <= MAX_ALLOC -> region_inv ∅ (LargeObjectRegion_new n).
Proof.
  intros Hn. assert (Hb : region_blocks ∅ (LargeObjectRegion_new n) = [])
    by (unfold region_blocks, ext_blocks; by rewrite map_to_list_empty).
  constructor; rewrite ?Hb; cbn [LargeObjectRegion_new allocated buffer next_offset lor_size];
    try done; try lia.
  - rewrite len_zeros. lia.
  - apply bytes_ok_zeros.
Qed.

(** The regions a client can produce, with the extents it has stored; marking
    is for allocated V2 extents, as [GcManager] does. *)
Inductive region_reach : LargeObjectRegion -> gmap Z extent -> Prop :=
| rr_new n : 0 <= n <= MAX_ALLOC -> region_reach (LargeObjectRegion_new n) ∅
| rr_allocate r m data r' o :
    region_reach r m -> data_ok data -> allocate r data = Done (r', Some o) ->
    region_reach r' (<[o := new_extent 0 data]> m)
| rr_allocate_v1 r m data r' o :
    region_reach r m -> data_ok data -> write_extent_v1 r data = Done (r', Some o) ->
    region_reach r' (<[o := mkExtent FmtV1 data 0]> m)
| rr_allocate_checksummed xxh64 r m data r' o :
    region_reach r m -> data_ok data -> is_u64 (xxh64 data) ->
    write_extent_v2_checksummed xxh64 r data = Done (r', Some o) ->
    region_reach r' (<[o := new_extent (xxh64 data) data]> m)
| rr_free r m o r' :
    region_reach r m -> LargeObjectRegion_free r o = Done (r', Ok tt) -> region_reach r' (delete o m)
| rr_mark r m o x e r' :
    region_reach r m -> m !! o = Some x -> ext_is_v2 x = true -> epoch_ok e ->
    mark_for_gc r o e = Done (r', Ok tt) -> region_reach r' (<[o := set_epoch x e]> m)
| rr_sweep r m order e r' n :
    region_reach r m -> order ≡ₚ elements (allocated r) ->
    LargeObjectRegion_sweep r order e = Done (r', n) ->
    region_reach r' (filter (fun p => ~ collectible e p.2) m).

Lemma region_reach_inv r m : region_reach r m -> region_inv m r.
Proof.
  induction 1 as [n Hn | r m data r' o _ IH Hd E | r m data r' o _ IH Hd E
    | xxh r m data r' o _ IH Hd Hc E | r m o r' _ IH E | r m o x e r' _ IH Hm Hv He E
    | r m order e r' n _ IH Hord E].
  - by apply region_new_inv.
  - destruct (allocate_spec _ _ _ IH Hd) as (r1 & res & E1 & Hr). rewrite E in E1.
    injection E1 as <- <-. apply Hr.
  - destruct (write_v1_spec _ _ _ IH Hd) as (r1 & res & E1 & Hr). rewrite E in E1.
    injection E1 as <- <-. apply Hr.
  - destruct (write_checksummed_spec xxh _ _ _ IH Hd Hc) as (r1 & res & E1 & Hr). rewrite E in E1.
    injection E1 as <- <-. apply Hr.
  - pose proof (free_spec m r o IH) as Hf. destruct (m !! o) as [x|] eqn:Hm; [|by rewrite Hf in E].
    destruct Hf as (r1 & E1 & Hr & _). rewrite E in E1. by injection E1 as <-.
  - destruct (mark_spec _ _ _ _ _ IH Hm Hv He) as (r1 & E1 & Hr). rewrite E in E1.
    by injection E1 as <-.
  - destruct (sweep_spec _ _ _ e IH Hord) as (r1 & E1 & Hr). rewrite E in E1.
    injection E1 as <- _. exact Hr.
Qed.

(** ** The interface of the region

    What the components that manage extents (garbage collection, the clients)
    rely on, stated over the map of extents. *)
Class ExtentStore (R : Type) : Type := {
  es_repr : gmap Z extent -> R -> Prop;
  es_offsets : R -> gset Z;
  es_read : R -> Z -> exec (option (list Z));
  es_free : R -> Z -> exec (R * result unit ExtentError);
  es_mark : R -> Z -> Z -> exec (R * result unit ExtentError);
  es_sweep : R -> list Z -> Z -> exec (R * Z);
  es_offsets_dom m r : es_repr m r -> es_offsets r = dom m;
  es_read_ok m r o x : es_repr m r -> m !! o = Some x -> es_read r o = Done (Some (xt_data x));
  es_free_ok m r o x : es_repr m r -> m !! o = Some x ->
    exists r', es_free r o = Done (r', Ok tt) /\ es_repr (delete o m) r';
  es_free_absent m r o : es_repr m r -> m !! o = None -> es_free r o = Done (r, Err NotAllocated);
  es_mark_ok m r o x e : es_repr m r -> m !! o = Some x -> ext_is_v2 x = true -> epoch_ok e ->
    exists r', es_mark r o e = Done (r', Ok tt) /\ es_repr (<[o := set_epoch x e]> m) r';
  es_sweep_ok m r order e : es_repr m r -> order ≡ₚ elements (es_offsets r) ->
    exists r', es_sweep r order e
        = Done (r', Z.of_nat (size (filter (fun p => collectible e p.2) m)))
      /\ es_repr (filter (fun p => ~ collectible e p.2) m) r'
}.

#[export] Instance region_store : ExtentStore LargeObjectRegion.
Proof.
  refine (Build_ExtentStore LargeObjectRegion region_inv allocated LargeObjectRegion_read
    LargeObjectRegion_free mark_for_gc LargeObjectRegion_sweep _ _ _ _ _ _).
  - apply ri_alloc.
  - apply read_spec.
  - intros m r o x Hinv Hm. pose proof (free_spec m r o Hinv) as H. rewrite Hm in H. naive_solver.
  - intros m r o Hinv Hm. pose proof (free_spec m r o Hinv) as H. by rewrite Hm in H.
  - apply mark_spec.
  - apply sweep_spec.
Defined.

Lemma read_checksum_spec m r o x c :
  region_inv m r -> m !! o = Some x -> xt_format x = FmtV2 c -> read_checksum r o = Done (Some c).
Proof.
  intros Hinv Hm Hf. destruct (region_ext_room _ _ _ _ Hinv Hm) as (Hx & Hat & Ho & Hin & Hmax).
  destruct (image_room _ _ _ Hx Ho Hin Hmax) as (_ & Hr & Hb). pose proof (len_nonneg (xt_data x)).
  assert (Hv2 : ext_is_v2 x = true) by (unfold ext_is_v2; by rewrite Hf).
  assert (Hh : ext_header_len x = 32) by (unfold ext_header_len; by rewrite Hv2). rewrite Hh in Hr.
  unfold read_checksum. rewrite (read_header_spec _ _ _ _ Hinv Hm), exec_bind_done.
  cbn [dh_is_v2]. rewrite Hv2. cbn [negb].
  rewrite (u64_small (o + 32)) by (unfold is_u64; lia). rewrite (proj2 (Z.ltb_ge _ _)) by lia.
  rewrite <- (u64_small (o + 32)) by (unfold is_u64; lia).
  rewrite (read_le_image _ _ _ Hat Hx Ho Hin Hmax 24 8) by (rewrite ?len_ext_image, ?Hh; lia).
  rewrite exec_bind_done. pose proof (xwf_checksum _ Hx) as Hc. rewrite Hf in Hc.
  destruct x as [fmt d e]. cbn [xt_format] in Hf. subst fmt.
  destruct (image_v2_fields d e c) as (_ & _ & _ & _ & _ & ->). by rewrite from_le_to_le_8.
Qed.

(** ** Properties *)

(** C6. In every region a client can reach, each live extent reads back its
    bytes, live extents and free blocks never overlap and stay inside the
    buffer, and no byte below the bump pointer is lost: the footprints of the
    live extents and the free blocks add up to it. *)
Theorem reachable_region_sound r m :
  region_reach r m ->
  (forall o x, m !! o = Some x -> LargeObjectRegion_read r o = Done (Some (xt_data x)))
  /\ disjoint_blocks (ext_blocks m ++ free_list r)
  /\ Forall (fun b => 0 <= b.1 /\ 0 < b.2 /\ b.1 + b.2 <= len (buffer r)) (ext_blocks m ++ free_list r)
  /\ block_sum (ext_blocks m) + block_sum (free_list r) = next_offset r
  /\ next_offset r <= capacity r /\ allocated_count r = Z.of_nat (size m).
Proof.
  intros Hr%region_reach_inv. split_and!.
  - intros o x. by apply read_spec.
  - apply Hr.
  - eapply Forall_impl; [apply Hr|]. cbn. intros b Hb.
    rewrite (ri_buffer _ _ Hr). pose proof (ri_next _ _ Hr). lia.
  - rewrite <- block_sum_app. apply Hr.
  - apply Hr.
  - unfold allocated_count. by rewrite (ri_alloc _ _ Hr), size_dom.
Qed.

Definition sample_region : LargeObjectRegion := LargeObjectRegion_new 128.

Lemma sample_data_ok : data_ok [1; 2; 3].
Proof. split; [by vm_compute|]. repeat constructor; by vm_compute. Qed.

Lemma sample_region_inv : region_inv ∅ sample_region.
Proof. apply region_new_inv. by vm_compute. Qed.

Lemma reachable_region_sound_witness :
  exists r, allocate sample_region [1; 2; 3] = Done (r, Some 0)
    /\ LargeObjectRegion_read r 0 = Done (Some [1; 2; 3]).
Proof.
  eexists. split; [vm_compute; reflexivity|].
  refine (proj1 (reachable_region_sound _ (<[0 := new_extent 0 [1; 2; 3]]> ∅) _) 0
    (new_extent 0 [1; 2; 3]) _).
  - eapply (rr_allocate sample_region ∅ [1; 2; 3] _ 0); [|apply sample_data_ok|vm_compute; reflexivity].
    apply (rr_new 128). by vm_compute.
  - apply lookup_insert_eq.
Defined.

(** [allocate] returns (never panics); on success the offset is new, the
    data reads back and every other extent is untouched; it answers [None] only
    when neither a free block nor the tail can hold the extent, and then nothing
    has changed. *)
Theorem allocate_refines m r data :
  region_inv m r -> data_ok data ->
  exists r' res, allocate r data = Done (r', res) /\
  match res with
  | Some o => m !! o = None /\ region_inv (<[o := new_extent 0 data]> m) r'
      /\ LargeObjectRegion_read r' o = Done (Some data)
      /\ (forall o' x, m !! o' = Some x -> LargeObjectRegion_read r' o' = LargeObjectRegion_read r o')
  | None => r' = r /\ no_room r (extent_total (len data))
  end.
Proof.
  intros Hinv Hd. destruct (allocate_spec m r data Hinv Hd) as (r' & res & E & Hr).
  exists r', res. split; [done|]. destruct res as [o|]; [|done]. destruct Hr as [Hfresh Hinv'].
  split_and!; [done | done | |].
  - rewrite (read_spec _ _ _ _ Hinv' (lookup_insert_eq _ _ _)). done.
  - intros o' x Hm. rewrite (read_spec _ _ _ _ Hinv Hm).
    apply (read_spec _ _ _ _ Hinv'). rewrite lookup_insert_ne by congruence. done.
Qed.

(** [free] of an allocated offset succeeds, removes exactly that extent,
    appends its whole footprint to the free list and, for a V2 extent, makes the
    offset unreadable; any other offset is refused and nothing changes. *)
Theorem free_refines m r o :
  region_inv m r ->
  match m !! o with
  | Some x => exists r', LargeObjectRegion_free r o = Done (r', Ok tt) /\ region_inv (delete o m) r'
      /\ free_list r' = free_list r ++ [(o, footprint x)]
      /\ (ext_is_v2 x = true -> LargeObjectRegion_read r' o = Done None)
      /\ LargeObjectRegion_free r' o = Done (r', Err NotAllocated)
  | None => LargeObjectRegion_free r o = Done (r, Err NotAllocated)
  end.
Proof.
  intros Hinv. pose proof (free_spec m r o Hinv) as H. destruct (m !! o) as [x|] eqn:Hm; [|done].
  destruct H as (r' & E & Hinv' & Hfl & Hb). exists r'. split_and!; [done..| |].
  - intros Hv2. exact (freed_read_None m r r' o x Hinv Hm Hv2 Hb).
  - pose proof (free_spec _ r' o Hinv') as H'. by rewrite lookup_delete_eq in H'.
Qed.

(** Marking and sweeping: [mark_for_gc] stamps the epoch of an allocated V2
    extent and nothing else, and [sweep] frees exactly the extents that are
    marked with an epoch below the minimum active one, in whatever order the set
    is iterated, and returns their number. *)
Theorem mark_sweep_refine m r o x e order min_active :
  region_inv m r -> m !! o = Some x -> ext_is_v2 x = true -> epoch_ok e ->
  exists r1, mark_for_gc r o e = Done (r1, Ok tt) /\ region_inv (<[o := set_epoch x e]> m) r1
  /\ (order ≡ₚ elements (allocated r1) ->
      exists r2, LargeObjectRegion_sweep r1 order min_active
          = Done (r2, Z.of_nat (size (filter (fun p => collectible min_active p.2) (<[o := set_epoch x e]> m))))
        /\ region_inv (filter (fun p => ~ collectible min_active p.2) (<[o := set_epoch x e]> m)) r2).
Proof.
  intros Hinv Hm Hv2 He. destruct (mark_spec m r o x e Hinv Hm Hv2 He) as (r1 & E & Hinv1).
  exists r1. split_and!; [done..|]. intros Hord. by apply sweep_spec.
Qed.

Lemma sample_alloc_inv : exists r, allocate sample_region [1; 2; 3] = Done (r, Some 0)
  /\ region_inv (<[0 := new_extent 0 [1; 2; 3]]> ∅) r.
Proof.
  destruct (allocate_spec ∅ sample_region [1; 2; 3] sample_region_inv sample_data_ok)
    as (r & res & E & Hr).
  assert (E' := E). vm_compute in E'. injection E' as <- <-. eexists. split; [exact E | apply Hr].
Qed.

(** Space accounting: when every live extent is V2, [used_bytes] is the
    bump pointer less the free blocks, whatever the iteration order, and does
    not wrap. *)
Theorem used_bytes_accounts m r order :
  region_inv m r -> map_Forall (fun _ x => ext_is_v2 x = true) m -> order ≡ₚ elements (allocated r) ->
  used_bytes r order = Done (next_offset r - block_sum (free_list r)).
Proof. apply used_bytes_spec. Qed.

(** The checksummed writer: for any checksum function with 64-bit values,
    a successful write stores the data and the checksum of the data at the old
    bump pointer, and both read back. *)
Theorem checksummed_roundtrip (xxh64 : list Z -> Z) m r data r' o :
  region_inv m r -> data_ok data -> is_u64 (xxh64 data) ->
  write_extent_v2_checksummed xxh64 r data = Done (r', Some o) ->
  o = next_offset r /\ LargeObjectRegion_read r' o = Done (Some data)
  /\ read_checksum r' o = Done (Some (xxh64 data)).
Proof.
  intros Hinv Hd Hc E. destruct (write_checksummed_spec xxh64 m r data Hinv Hd Hc) as (r1 & res & E1 & Hr).
  rewrite E in E1. injection E1 as <- <-. destruct Hr as (-> & _ & Hinv'). split_and!; [done | |].
  - by rewrite (read_spec _ _ _ _ Hinv' (lookup_insert_eq _ _ _)).
  - exact (read_checksum_spec _ _ _ _ _ Hinv' (lookup_insert_eq _ _ _) eq_refl).
Qed.

(** Allocate or write one extent in a fresh 128-byte region, mark it, and look at
    it again. *)
Definition mark_and_read (w : LargeObjectRegion -> list Z -> exec (LargeObjectRegion * option Z))
    (data : list Z) (e : Z) : exec (option (list Z) * (Z * Z)) :=
  '(r, _) ← w (LargeObjectRegion_new 128) data;
  '(r, _) ← mark_for_gc r 0 e;
  d ← LargeObjectRegion_read r 0;
  '(r, n) ← LargeObjectRegion_sweep r [0] (2 ^ 64 - 1);
  Done (d, (n, block_sum (free_list r))).

(** Marking is only sound for V2 extents and epochs that do not look like
    the magic number.  A V1 extent loses its magic: its data becomes unreadable
    and no sweep ever collects it.  A V2 extent marked with an epoch whose low
    half is the magic number is decoded as V1: it becomes unreadable, and
    sweeping it pushes a bogus block, far larger than the region, on the free
    list.  With an ordinary epoch the extent reads back and its 40 bytes are
    freed. *)
Theorem mark_hazards :
  mark_and_read write_extent_v1 [1; 2; 3] 5 = Done (None, (0, 0))
  /\ mark_and_read allocate [1; 2; 3] 5 = Done (Some [1; 2; 3], (1, 40))
  /\ exists n, mark_and_read allocate [1; 2; 3] EXTENT_MAGIC = Done (None, (1, n)) /\ 2 ^ 32 < n.
Proof. split_and!; [vm_compute; reflexivity.. | eexists; split; [vm_compute; reflexivity | lia]]. Qed.
