(* ===== verification/Concurrency.v ===== *)
(** * Concurrency: CAS lock, lease and optimistic reads (src/engine/concurrency.rs)

    The functions of the file over one bucket in shared memory, and the lock
    protocol as a transition system of several clients: every atomic access
    (load, CAS, store) is a step, so all interleavings are covered.  The clock
    [now_ms] is an argument, or the time of the transition system. *)

From S2P Require Import Prelude Layout.

Open Scope Z_scope.

(** ** Leases *)

(** [now_ms()] at [t] milliseconds after the epoch. *)
Definition now_ms (t : Z) : Z := u32 t.

Definition is_lease_expired (old_ts now timeout_ms : Z) : bool :=
  let old_24 := Z.land old_ts 0xFFFFFF in
  let now_24 := Z.land now 0xFFFFFF in
  timeout_ms <? wrapping_sub32 now_24 old_24.

(** ** Atomic access to the lock word *)

Definition load_lock (b : HashBucket) : Z := lock_version b.
Definition store_lock (b : HashBucket) (val : Z) : HashBucket := set_lock_version b val.
Definition cas_lock (b : HashBucket) (old new : Z) : HashBucket * result Z Z :=
  if lock_version b =? old then (set_lock_version b new, Ok old) else (b, Err (lock_version b)).

Inductive LockError : Type := Locked | Expired.

#[export] Instance LockError_eq_dec : EqDecision LockError.
Proof. solve_decision. Defined.

(** ** Acquire and release *)

(** The test of an iteration of [try_acquire_lock]: may it go on to the CAS? *)
Definition acquire_check (old_lv now : Z) : bool :=
  if negb (Z.land old_lv 0x01 =? 0) then
    let lease := u32 (Z.land (Z.shiftr old_lv 8) 0xFFFFFF) in
    is_lease_expired lease now LEASE_TIMEOUT_MS
  else true.

(** The word the iteration tries to install. *)
Definition acquire_word (old_lv now : Z) (mode : BucketMode) : Z :=
  let version := Z.shiftr old_lv 32 in
  let lease_bits := shl64 (Z.land now 0xFFFFFF) 8 in
  let mode_bit := shl64 (mode_u64 mode) 2 in
  Z.lor (Z.lor (Z.lor (shl64 version 32) lease_bits) mode_bit) 0x01.

(** The retry loop.  [env i] is what other clients do to the bucket between the
    load and the CAS of iteration [i]; [clock i] gives the two readings of the
    clock in it.  [None]: still retrying after [fuel] iterations. *)
Fixpoint try_acquire_loop (env : nat -> HashBucket -> HashBucket) (clock : nat -> Z * Z)
    (fuel i : nat) (b : HashBucket) (mode : BucketMode)
  : option (HashBucket * result Z LockError) :=
  match fuel with
  | O => None
  | S fuel =>
      let old_lv := load_lock b in
      if negb (acquire_check old_lv (clock i).1) then Some (b, Err Locked)
      else
        let new_lv := acquire_word old_lv (clock i).2 mode in
        match cas_lock (env i b) old_lv new_lv with
        | (b', Ok prev) => Some (b', Ok prev)
        | (b', Err _) => try_acquire_loop env clock fuel (S i) b' mode
        end
  end.

(** Without interference the first CAS decides. *)
Definition try_acquire_lock (b : HashBucket) (mode : BucketMode) (now1 now2 : Z)
  : option (HashBucket * result Z LockError) :=
  try_acquire_loop (fun _ b => b) (fun _ => (now1, now2)) 1 0 b mode.

Definition release_word (mode : BucketMode) (version : Z) : Z :=
  let new_version := wrapping_add32 version 1 in
  let mode_bit := shl64 (mode_u64 mode) 2 in
  Z.lor (shl64 new_version 32) mode_bit.

Definition release_lock (b : HashBucket) (mode : BucketMode) (version : Z) : HashBucket :=
  store_lock b (release_word mode version).

(** ** Optimistic reads *)

Record ReadGuard : Type := mkReadGuard {
  rg_version : Z;
  rg_key_hash : Z;
  rg_key_or_digest : list Z;
  rg_body : list Z;
  rg_lock_version : Z
}.

Definition optimistic_read (b : HashBucket) : result ReadGuard LockError :=
  if is_locked b then Err Locked
  else Ok (mkReadGuard (version b) (key_hash b) (key_or_digest b) (body b) (lock_version b)).

Definition verify_read (guard : ReadGuard) (b : HashBucket) : bool :=
  let current_lv := load_lock b in
  let locked := negb (Z.land current_lv 0x01 =? 0) in
  let version := u32 (Z.shiftr current_lv 32) in
  negb locked && (version =? rg_version guard).

Definition verify_extent_checksum (xxh64 : list Z -> Z) (header : ExtentHeaderV2)
    (payload : list Z) : bool :=
  if h2_checksum header =? 0 then false else xxh64 payload =? h2_checksum header.

(** ** Takeover and repair *)

Inductive TakeoverResult : Type :=
| TSuccess (new_version : Z)
| NotExpired
| NotLocked.

Definition force_takeover (b : HashBucket) (now timeout_ms : Z) : HashBucket * TakeoverResult :=
  if negb (is_locked b) then (b, NotLocked)
  else
    let lease := lease_ts b in
    if negb (is_lease_expired lease now timeout_ms) then (b, NotExpired)
    else
      let version := version b in
      let mode_bit := Z.land (lock_version b) 0x04 in
      let new_version := shl64 (wrapping_add32 version 1) 32 in
      let b' := set_lock_version b (Z.lor new_version mode_bit) in
      (b', TSuccess (lock_version b')).

Definition repair_after_crash (b : HashBucket) : HashBucket :=
  mkBucket 0 0 (zeros 16) (zeros 32).

(** ** Several clients on one bucket *)

(** A client inside [try_acquire_lock] and [release_lock]: it has loaded a word
    ([CRead]), passed the lease test on it ([CChecked]), stamped the lease of the
    word it will install ([CReady]), or holds the lock it acquired over the word
    [prev] with the lease stamp [since].  Time passes between all of these. *)
Inductive client_state : Type :=
| CIdle
| CRead (old_lv : Z) (mode : BucketMode)
| CChecked (old_lv : Z) (mode : BucketMode)
| CReady (old_lv : Z) (mode : BucketMode) (stamp : Z)
| CHolding (prev : Z) (mode : BucketMode) (since : Z).

Record lock_system : Type := mkSystem {
  ls_bucket : HashBucket;
  ls_time : Z;
  ls_clients : gmap nat client_state;
  ls_releases : Z
}.

Definition set_client (s : lock_system) (c : nat) (cs : client_state) (b : HashBucket) : lock_system :=
  mkSystem b (ls_time s) (<[c := cs]> (ls_clients s)) (ls_releases s).

Inductive lock_step : lock_system -> lock_system -> Prop :=
| step_tick s d : 0 <= d ->
    lock_step s (mkSystem (ls_bucket s) (ls_time s + d) (ls_clients s) (ls_releases s))
| step_load s c mode :
    ls_clients s !! c = Some CIdle ->
    lock_step s (set_client s c (CRead (load_lock (ls_bucket s)) mode) (ls_bucket s))
| step_check s c old_lv mode :
    ls_clients s !! c = Some (CRead old_lv mode) ->
    lock_step s (set_client s c
      (if acquire_check old_lv (now_ms (ls_time s)) then CChecked old_lv mode else CIdle)
      (ls_bucket s))
| step_stamp s c old_lv mode :
    ls_clients s !! c = Some (CChecked old_lv mode) ->
    lock_step s (set_client s c (CReady old_lv mode (ls_time s)) (ls_bucket s))
| step_cas s c old_lv mode stamp b' res :
    ls_clients s !! c = Some (CReady old_lv mode stamp) ->
    cas_lock (ls_bucket s) old_lv (acquire_word old_lv (now_ms stamp) mode) = (b', res) ->
    lock_step s (set_client s c
      (match res with Ok prev => CHolding prev mode stamp | Err _ => CIdle end) b')
| step_write s c prev mode since h d bd :
    ls_clients s !! c = Some (CHolding prev mode since) ->
    lock_step s (set_client s c (CHolding prev mode since)
      (mkBucket (lock_version (ls_bucket s)) h d bd))
| step_release s c prev mode since :
    ls_clients s !! c = Some (CHolding prev mode since) ->
    lock_step s (mkSystem (release_lock (ls_bucket s) mode (u32 (Z.shiftr prev 32))) (ls_time s)
      (<[c := CIdle]> (ls_clients s)) (ls_releases s + 1)).

(** Every holder is within its lease, and the 24-bit lease clock has not rolled
    over since it acquired the lock. *)
Definition in_lease (s : lock_system) : Prop :=
  forall c prev mode since, ls_clients s !! c = Some (CHolding prev mode since) ->
    ls_time s - since <= LEASE_TIMEOUT_MS /\ ls_time s / 2 ^ 24 = since / 2 ^ 24.

(** Executions, and executions all of whose states are [in_lease]. *)
Inductive lock_run : lock_system -> lock_system -> Prop :=
| run_refl s : lock_run s s
| run_step s1 s2 s3 : lock_run s1 s2 -> lock_step s2 s3 -> lock_run s1 s3.

Inductive leased_run : lock_system -> lock_system -> Prop :=
| lrun_refl s : in_lease s -> leased_run s s
| lrun_step s1 s2 s3 : leased_run s1 s2 -> lock_step s2 s3 -> in_lease s3 -> leased_run s1 s3.

(** All clients idle, the bucket unlocked with version 0. *)
Definition lock_init (b : HashBucket) (t : Z) (clients : gset nat) : lock_system :=
  mkSystem (set_lock_version b 0) t (set_to_map (fun c => (c, CIdle)) clients) 0.
