(* ===== verification/ConcurrencyProps.v ===== *)
(** * ConcurrencyProps: the lock protocol is safe within its leases

    The words the protocol writes, the lease test, and the transition system of
    several clients: mutual exclusion and soundness of optimistic reads hold in
    every execution that stays within the leases, and fail without that. *)

From S2P Require Import Prelude Layout Concurrency.

Open Scope Z_scope.

(** ** Leases *)

Lemma land24 x : Z.land x 0xFFFFFF = x mod 2 ^ 24.
Proof. change 0xFFFFFF with (2 ^ 24 - 1). by rewrite land_mask. Qed.

Lemma now_24 t : Z.land (now_ms t) 0xFFFFFF = t mod 2 ^ 24.
Proof.
  rewrite land24. unfold now_ms, u32. symmetry.
  apply Znumtheory.Zmod_div_mod; [lia | lia | exists (2 ^ 8); reflexivity].
Qed.

(** Within one era of the 24-bit clock the test compares elapsed time. *)
Lemma lease_same_era ts t timeout :
  0 <= ts <= t -> ts / 2 ^ 24 = t / 2 ^ 24 ->
  is_lease_expired (ts mod 2 ^ 24) (now_ms t) timeout = (timeout <? t - ts).
Proof.
  intros Ht Hera. unfold is_lease_expired. rewrite now_24, land24, Z.mod_mod by lia.
  unfold wrapping_sub32. f_equal. rewrite u32_small; [|unfold is_u32]; zify_lia.
Qed.

(** A lease that straddles the rollover is expired at once. *)
Lemma lease_rollover ts t timeout :
  t mod 2 ^ 24 < ts mod 2 ^ 24 -> timeout < 2 ^ 32 - 2 ^ 24 ->
  is_lease_expired (ts mod 2 ^ 24) (now_ms t) timeout = true.
Proof.
  intros Ht Hto. unfold is_lease_expired. rewrite now_24, land24, Z.mod_mod by lia.
  unfold wrapping_sub32, u32. apply Z.ltb_lt.
  assert (0 <= t mod 2 ^ 24 < 2 ^ 24) by (apply Z.mod_pos_bound; lia).
  assert (0 <= ts mod 2 ^ 24 < 2 ^ 24) by (apply Z.mod_pos_bound; lia).
  rewrite <- (Z.mod_add _ 1), Z.mod_small by lia. lia.
Qed.

(** ** The words of the protocol *)

Definition word_of (ver lease : Z) (mode : BucketMode) (locked : bool) : Z :=
  lock_word (mkLockView ver lease mode false locked).

Lemma word_of_fields ver lease mode locked :
  is_u32 ver -> 0 <= lease < 2 ^ 24 ->
  let w := word_of ver lease mode locked in
  is_u64 w /\ Z.shiftr w 32 = ver /\ negb (Z.land w 1 =? 0) = locked
  /\ Z.land (Z.shiftr w 8) 0xFFFFFF = lease.
Proof.
  intros Hv Hl w.
  assert (Hwf : lock_view_wf (mkLockView ver lease mode false locked)) by (split; done).
  pose proof (lock_view_lock_word _ 0 [] [] Hwf) as HV. change (lock_word _) with w in HV.
  assert (Hw : is_u64 w) by (by apply lock_word_range). clearbody w.
  pose proof (f_equal lv_version HV) as H1. pose proof (f_equal lv_lease HV) as H2.
  pose proof (f_equal lv_locked HV) as H3. cbn [lv_version lv_lease lv_locked lock_view] in H1, H2, H3.
  split_and!; [done | | exact H3 |].
  - rewrite version_div in H1 by done. rewrite Z.shiftr_div_pow2 by lia. exact H1.
  - unfold lease_ts in H2. cbn [lock_version] in H2. rewrite u32_small in H2; [done|].
    rewrite land24. pose proof (Z.mod_pos_bound (Z.shiftr w 8) (2 ^ 24) eq_refl). unfold is_u32. lia.
Qed.

Lemma acquire_word_spec lv now mode :
  is_u64 lv -> acquire_word lv now mode = word_of (Z.shiftr lv 32) (now mod 2 ^ 24) mode true.
Proof.
  intros H. unfold acquire_word. apply lock_bits_word.
  unfold is_u64 in H. unfold is_u32. rewrite Z.shiftr_div_pow2 by lia. zify_lia.
Qed.

Lemma release_word_spec mode ver :
  release_word mode ver = word_of (u32 (ver + 1)) 0 mode false.
Proof.
  unfold release_word, wrapping_add32. pose proof (u32_range (ver + 1)) as H. unfold is_u32 in H.
  rewrite !shl64_small by (unfold is_u64; destruct mode; simpl; lia).
  rewrite (lor_add _ _ 32) by (lia || (apply Z.mod_mul; lia) || (destruct mode; simpl; lia)).
  unfold word_of, lock_word. simpl. lia.
Qed.

Lemma cas_lock_inv b old new b' res :
  cas_lock b old new = (b', res) ->
  (lock_version b = old /\ b' = set_lock_version b new /\ res = Ok old)
  \/ (lock_version b <> old /\ b' = b /\ res = Err (lock_version b)).
Proof.
  unfold cas_lock. destruct (lock_version b =? old) eqn:E; bool_simpl; intros [= <- <-]; auto.
Qed.

(** ** The invariant of the transition system *)

Definition holds (s : lock_system) (c : nat) : Prop :=
  exists prev mode since, ls_clients s !! c = Some (CHolding prev mode since).

(** The word a client has loaded and not yet used, and whether it passed the
    lease test. *)
Definition pending (cs : client_state) : option (Z * bool) :=
  match cs with
  | CRead lv _ => Some (lv, false)
  | CChecked lv _ | CReady lv _ _ => Some (lv, true)
  | CIdle | CHolding _ _ _ => None
  end.

Definition word_free (s : lock_system) : Prop :=
  (forall c, ~ holds s c)
  /\ exists mode, lock_version (ls_bucket s) = word_of (u32 (ls_releases s)) 0 mode false.

Definition word_held (s : lock_system) (c : nat) (prev : Z) (mode : BucketMode) (since : Z) : Prop :=
  ls_clients s !! c = Some (CHolding prev mode since)
  /\ (forall c', holds s c' -> c' = c)
  /\ lock_version (ls_bucket s) = word_of (u32 (ls_releases s)) (since mod 2 ^ 24) mode true
  /\ u32 (Z.shiftr prev 32) = u32 (ls_releases s).

(** A loaded word is a word of the protocol for an earlier or the current
    version; if it was locked, that lock is over or it is the current word and
    the lease test is still to come. *)
Definition pending_ok (s : lock_system) (lv : Z) (checked : bool) : Prop :=
  exists r lease mode locked, 0 <= r <= ls_releases s /\ 0 <= lease < 2 ^ 24
    /\ lv = word_of (u32 r) lease mode locked
    /\ (locked = true -> r < ls_releases s \/ (checked = false /\ lv = lock_version (ls_bucket s))).

Record lock_inv (s : lock_system) : Prop := {
  li_time : 0 <= ls_time s;
  li_releases : 0 <= ls_releases s;
  li_word : word_free s \/ exists c prev mode since, word_held s c prev mode since;
  li_pending : forall c cs lv checked, ls_clients s !! c = Some cs ->
    pending cs = Some (lv, checked) -> pending_ok s lv checked;
  li_stamp : forall c lv mode t, ls_clients s !! c = Some (CReady lv mode t)
    \/ ls_clients s !! c = Some (CHolding lv mode t) -> 0 <= t <= ls_time s
}.

Lemma word_of_inj v l m k v' l' m' k' :
  is_u32 v -> 0 <= l < 2 ^ 24 -> is_u32 v' -> 0 <= l' < 2 ^ 24 ->
  word_of v l m k = word_of v' l' m' k' -> v = v' /\ l = l' /\ k = k'.
Proof.
  intros H1 H2 H3 H4 E. destruct (word_of_fields v l m k H1 H2) as (_ & A1 & A2 & A3).
  destruct (word_of_fields v' l' m' k' H3 H4) as (_ & B1 & B2 & B3).
  rewrite E in A1, A2, A3. split_and!; congruence.
Qed.

(** Adding a client that is not a holder, in place of one that is not. *)
Lemma set_client_holds s c cs b c' :
  ~ holds s c -> (forall p m t, cs <> CHolding p m t) ->
  holds (set_client s c cs b) c' <-> holds s c'.
Proof.
  intros Hn Hcs. unfold holds, set_client. cbn [ls_clients]. split.
  - intros (p & m & t & [[-> E]|[Hne E]]%lookup_insert_Some); [by apply Hcs in E | eauto].
  - intros (p & m & t & E). exists p, m, t. rewrite lookup_insert_ne; [done|].
    intros ->. apply Hn. by exists p, m, t.
Qed.

(** Steps that only change the program counter of a non-holder. *)
Lemma lock_inv_set_client s c cs0 cs :
  lock_inv s -> ls_clients s !! c = Some cs0 -> (forall p m t, cs0 <> CHolding p m t) ->
  (forall p m t, cs <> CHolding p m t) ->
  (forall lv m t, cs = CReady lv m t -> 0 <= t <= ls_time s) ->
  (forall lv checked, pending cs = Some (lv, checked) -> pending_ok s lv checked) ->
  lock_inv (set_client s c cs (ls_bucket s)).
Proof.
  intros [Ht HR Hw Hp Hs] Hc Hc0 Hcs Hst Hpend.
  assert (Hnh : ~ holds s c) by (intros (p & m & t & E); rewrite Hc in E; injection E as E; by apply Hc0 in E).
  constructor; try done.
  - destruct Hw as [[Hno Hw]|(c1 & p & m & t & Hc1 & Hu & Hw1 & Hw2)].
    + left. split; [|done]. intros c'. rewrite set_client_holds by done. apply Hno.
    + right. exists c1, p, m, t. split_and!; [|..|done|done].
      * unfold set_client. cbn. rewrite lookup_insert_ne; [done|]. intros ->. apply Hnh. by exists p, m, t.
      * intros c'. rewrite set_client_holds by done. apply Hu.
  - intros c' cs' lv ck. unfold set_client. cbn [ls_clients]. intros [[-> <-]|[_ E]]%lookup_insert_Some; [apply Hpend | by apply (Hp c')].
  - intros c' lv m t. cbn. rewrite !lookup_insert_Some.
    intros [[[-> E]|[_ E]]|[[-> E]|[_ E]]]; eauto. by apply Hcs in E.
Qed.

(** The current word is a loadable word. *)
Lemma current_word_ok s : lock_inv s -> pending_ok s (lock_version (ls_bucket s)) false.
Proof.
  intros [_ HR Hw _ _]. unfold pending_ok.
  destruct Hw as [[_ (m & Hw)]|(c & p & m & t & _ & _ & Hw & _)]; rewrite Hw.
  - exists (ls_releases s), 0, m, false. split_and!; [lia | lia | lia | lia | done | done].
  - exists (ls_releases s), (t mod 2 ^ 24), m, true. pose proof (Z.mod_pos_bound t (2 ^ 24) eq_refl).
    split_and!; [lia | lia | lia | lia | done | auto].
Qed.

(** The lease test refuses the word of a holder that is within its lease. *)
Lemma check_refuses s c prev mode since :
  lock_inv s -> in_lease s -> word_held s c prev mode since ->
  acquire_check (lock_version (ls_bucket s)) (now_ms (ls_time s)) = false.
Proof.
  intros Hinv Hl (Hc & _ & Hw & _). rewrite Hw.
  pose proof (Z.mod_pos_bound since (2 ^ 24) eq_refl) as Hm.
  destruct (word_of_fields (u32 (ls_releases s)) (since mod 2 ^ 24) mode true (u32_range _) Hm)
    as (_ & _ & Hlk & Hls).
  unfold acquire_check. rewrite Hlk, Hls. rewrite u32_small by (unfold is_u32; lia).
  destruct (Hl _ _ _ _ Hc) as [Hd He]. destruct (li_stamp _ Hinv c prev mode since) as [H1 H2]; [by right|].
  rewrite lease_same_era by (done || lia). apply Z.ltb_ge. lia.
Qed.

(** A checked word that the CAS finds unchanged is an unlocked word. *)
Lemma cas_word_free s lv :
  lock_inv s -> ls_releases s < 2 ^ 32 -> pending_ok s lv true -> lock_version (ls_bucket s) = lv ->
  word_free s /\ Z.shiftr lv 32 = u32 (ls_releases s) /\ is_u64 lv.
Proof.
  intros [_ HR Hw _ _] HB (r & l & m & k & Hr & Hl & Hlv & Hk) E.
  assert (Hru : is_u32 r) by (unfold is_u32; lia).
  destruct Hw as [Hf|(c & p & m1 & t & _ & _ & Hw & _)].
  - split; [done|]. destruct Hf as [_ (m1 & Hw)]. rewrite <- E, Hw.
    destruct (word_of_fields (u32 (ls_releases s)) 0 m1 false (u32_range _)) as (H1 & H2 & _); [lia|].
    auto.
  - exfalso. rewrite Hlv, Hw in E. apply word_of_inj in E as (E1 & _ & <-);
      [|auto using u32_range|apply Z.mod_pos_bound; lia|auto using u32_range|done].
    rewrite !u32_small in E1 by (done || (unfold is_u32; lia)).
    destruct Hk as [Hk|[Hk _]]; [done | lia | done].
Qed.

Lemma lock_inv_cas s c lv mode stamp :
  lock_inv s -> ls_releases s < 2 ^ 32 -> ls_clients s !! c = Some (CReady lv mode stamp) ->
  lock_version (ls_bucket s) = lv ->
  lock_inv (set_client s c (CHolding lv mode stamp)
    (set_lock_version (ls_bucket s) (acquire_word lv (now_ms stamp) mode))).
Proof.
  intros Hinv HB Hc E. assert (Hpo : pending_ok s lv true) by (by eapply (li_pending _ Hinv)).
  destruct (cas_word_free s lv Hinv HB Hpo E) as ([Hno (m1 & Hw)] & Hver & Hlv).
  destruct Hinv as [Ht HR _ Hp Hs]. constructor; try done.
  - right. exists c, lv, mode, stamp. unfold word_held, set_client. cbn [ls_clients ls_bucket ls_releases].
    split_and!.
    + apply lookup_insert_eq.
    + intros c' (p & m & t & E'). cbn [ls_clients] in E'.
      apply lookup_insert_Some in E' as [[-> _]|[_ E']]; [done|]. exfalso. apply (Hno c'). by exists p, m, t.
    + cbn [lock_version set_lock_version]. rewrite acquire_word_spec by done. rewrite Hver.
      by rewrite <- land24, now_24.
    + rewrite Hver. apply u32_small, u32_range.
  - intros c' cs' lv' ck. unfold set_client. cbn [ls_clients].
    intros [[_ <-]|[_ E']]%lookup_insert_Some Hpe; [done|].
    destruct (Hp _ _ _ _ E' Hpe) as (r & l & m & k & Hr & Hl & Hlv' & Hk).
    exists r, l, m, k. split; [exact Hr|]. split; [exact Hl|]. split; [exact Hlv'|]. intros ->. left.
    destruct Hk as [Hk|[_ Hk]]; [done | done |]. exfalso. rewrite Hlv', Hw in Hk.
    apply word_of_inj in Hk as (_ & _ & Hk); [done | auto using u32_range | done | auto using u32_range | lia].
  - intros c' lv' m t. unfold set_client. cbn [ls_clients ls_time]. rewrite !lookup_insert_Some.
    intros [[[_ E']|[_ E']]|[[_ [= <- <- <-]]|[_ E']]]; [done | | |]; eauto.
Qed.

Lemma lock_inv_release s c prev mode since :
  lock_inv s -> ls_clients s !! c = Some (CHolding prev mode since) ->
  lock_inv (mkSystem (release_lock (ls_bucket s) mode (u32 (Z.shiftr prev 32))) (ls_time s)
    (<[c := CIdle]> (ls_clients s)) (ls_releases s + 1)).
Proof.
  intros [Ht HR Hw Hp Hs] Hc.
  destruct Hw as [[Hno _]|(c1 & p1 & m1 & t1 & Hc1 & Hu & Hw & Hv)];
    [exfalso; apply (Hno c); by exists prev, mode, since|].
  assert (c = c1) as <- by (apply Hu; by exists prev, mode, since).
  rewrite Hc in Hc1. injection Hc1 as <- <- <-.
  constructor; cbn [ls_time ls_releases ls_bucket ls_clients]; [done | lia | left | |].
  - split; cbn [ls_clients ls_bucket ls_releases].
    + intros c' (p & m & t & E). cbn [ls_clients] in E.
      apply lookup_insert_Some in E as [[_ E]|[Hne E]]; [done|].
      apply Hne. symmetry. apply Hu. by exists p, m, t.
    + exists mode. cbn [lock_version release_lock store_lock set_lock_version].
      rewrite release_word_spec, Hv. f_equal. unfold u32. by rewrite Z.add_mod_idemp_l by lia.
  - intros c' cs' lv ck [[_ <-]|[_ E]]%lookup_insert_Some Hpe; [done|].
    destruct (Hp _ _ _ _ E Hpe) as (r & l & m & k & Hr & Hl & Hlv & _).
    exists r, l, m, k. cbn [ls_releases]. split; [lia|]. split; [exact Hl|]. split; [exact Hlv|].
    intros _. left. lia.
  - intros c' lv m t. rewrite !lookup_insert_Some.
    intros [[[_ E']|[_ E']]|[[_ E']|[_ E']]]; [done | | done |]; eauto.
Qed.

Lemma lock_inv_step s s' :
  lock_inv s -> in_lease s -> ls_releases s < 2 ^ 32 -> lock_step s s' -> lock_inv s'.
Proof.
  intros Hinv Hl HB Hstep. destruct Hstep as [s d Hd|s c mode Hc|s c lv mode Hc|s c lv mode Hc
    |s c lv mode stamp b' res Hc E|s c prev mode since h d bd Hc|s c prev mode since Hc].
  - destruct Hinv as [Ht HR Hw Hp Hs]. constructor; cbn [ls_time ls_releases]; try done; [lia|].
    intros c lv m t H. specialize (Hs c lv m t H). lia.
  - eapply lock_inv_set_client; try done. intros lv ck [= <- <-]. by apply current_word_ok.
  - pose proof (li_pending _ Hinv c _ lv false Hc eq_refl) as Hpo.
    destruct (acquire_check lv (now_ms (ls_time s))) eqn:Hck;
      (eapply lock_inv_set_client; [done | exact Hc | done | done | done |]); [|done].
    intros lv' ck [= <- <-]. destruct Hpo as (r & l & m & k & Hr & Hls & Hlv & Hk).
    exists r, l, m, k. split; [exact Hr|]. split; [exact Hls|]. split; [exact Hlv|]. intros ->. left.
    destruct Hk as [Hk|[_ Hk]]; [done | done |]. exfalso.
    destruct (li_word _ Hinv) as [[_ (m1 & Hw)]|(c1 & p1 & m1 & t1 & Hh)].
    + rewrite Hlv, Hw in Hk. apply word_of_inj in Hk as (_ & _ & Hk);
        [done | auto using u32_range | done | auto using u32_range | lia].
    + rewrite Hk in Hck. by rewrite (check_refuses _ _ _ _ _ Hinv Hl Hh) in Hck.
  - eapply lock_inv_set_client; try done.
    + intros lv' m t [= _ _ <-]. pose proof (li_time _ Hinv). lia.
    + intros lv' ck [= <- <-]. by eapply (li_pending _ Hinv).
  - apply cas_lock_inv in E as [(Hlv & -> & ->)|(Hlv & -> & ->)]; [by apply lock_inv_cas|].
    by eapply lock_inv_set_client.
  - destruct Hinv as [Ht HR Hw Hp Hs]. unfold set_client. rewrite insert_id by done.
    constructor; done.
  - by eapply lock_inv_release.
Qed.

(** ** Executions *)

Lemma lock_step_releases s s' : lock_step s s' -> ls_releases s <= ls_releases s'.
Proof. destruct 1; cbn; lia. Qed.

Lemma leased_run_releases s s' : leased_run s s' -> ls_releases s <= ls_releases s'.
Proof. induction 1; [lia|]. etransitivity; [done|]. by apply lock_step_releases. Qed.

Lemma leased_run_lease s s' : leased_run s s' -> in_lease s'.
Proof. by destruct 1. Qed.

Lemma leased_run_inv s s' :
  lock_inv s -> leased_run s s' -> ls_releases s' < 2 ^ 32 -> lock_inv s'.
Proof.
  intros Hinv Hrun. induction Hrun as [s Hl|s1 s2 s3 Hrun IH Hstep Hl]; intros HB; [done|].
  pose proof (lock_step_releases _ _ Hstep).
  apply (lock_inv_step s2); [apply IH; [done | lia] | by eapply leased_run_lease | lia | done].
Qed.

Lemma lock_init_idle b t cl c cs : ls_clients (lock_init b t cl) !! c = Some cs -> cs = CIdle.
Proof.
  unfold lock_init. cbn [ls_clients]. intros E.
  apply lookup_set_to_map in E as (c' & _ & [= _ <-]); [done|]. by intros ? ? _ _ [=].
Qed.

Lemma lock_init_inv b t cl : 0 <= t -> lock_inv (lock_init b t cl).
Proof.
  intros Ht. constructor; [done | done | left | |].
  - split; [|by exists Inline]. intros c (p & m & s & E). by apply lock_init_idle in E.
  - intros c cs lv ck E. by rewrite (lock_init_idle _ _ _ _ _ E).
  - intros c lv m s [E|E]; by apply lock_init_idle in E.
Qed.

(** The fields a reader takes from the bucket. *)
Definition payload (s : lock_system) : Z * list Z * list Z :=
  (key_hash (ls_bucket s), key_or_digest (ls_bucket s), body (ls_bucket s)).

Lemma frame_set_client s c cs0 cs p :
  ls_clients s !! c = Some cs0 -> (forall p m t, cs0 <> CHolding p m t) ->
  (forall p m t, cs <> CHolding p m t) ->
  (exists c', holds s c') \/ payload s = p ->
  (exists c', holds (set_client s c cs (ls_bucket s)) c') \/ payload (set_client s c cs (ls_bucket s)) = p.
Proof.
  intros Hc H0 Hcs [[c' Hh]|Hp]; [left; exists c' | by right]. apply set_client_holds; [|done|done].
  intros (q & m & t & E). rewrite Hc in E. injection E as E. by apply H0 in E.
Qed.

(** From a state where nobody holds the lock, the payload can only have changed
    if someone holds the lock now or a release has happened. *)
Lemma payload_frame s s' :
  lock_inv s -> (forall c, ~ holds s c) -> leased_run s s' -> ls_releases s' < 2 ^ 32 ->
  ls_releases s < ls_releases s' \/ (exists c, holds s' c) \/ payload s' = payload s.
Proof.
  intros Hinv Hno Hrun. induction Hrun as [s Hl|s1 s2 s3 Hrun IH Hstep Hl]; intros HB; [auto|].
  pose proof (lock_step_releases _ _ Hstep) as Hle.
  assert (Hinv2 : lock_inv s2) by (apply (leased_run_inv s1); [done | done | lia]).
  destruct IH as [H|H]; [done | done | lia | left; lia |].
  destruct Hstep as [s d Hd|s c mode Hc|s c lv mode Hc|s c lv mode Hc
    |s c lv mode stamp b' res Hc E|s c prev mode since h d bd Hc|s c prev mode since Hc].
  - right. exact H.
  - right. by eapply frame_set_client.
  - right. eapply frame_set_client; [exact Hc | done | | done]. by destruct (acquire_check _ _).
  - right. by eapply frame_set_client.
  - right. apply cas_lock_inv in E as [(_ & -> & ->)|(_ & -> & ->)]; [|by eapply frame_set_client].
    left. exists c, lv, mode, stamp. apply lookup_insert_eq.
  - right. left. exists c, prev, mode, since. apply lookup_insert_eq.
  - left. pose proof (leased_run_releases _ _ Hrun). cbn. lia.
Qed.

(** A guard that verifies: nobody holds the lock and no release has happened. *)
Lemma verify_read_inv s guard :
  lock_inv s -> verify_read guard (ls_bucket s) = true ->
  (forall c, ~ holds s c) /\ u32 (ls_releases s) = rg_version guard.
Proof.
  intros Hinv Hv. unfold verify_read, load_lock in Hv.
  destruct (li_word _ Hinv) as [[Hno (m & Hw)]|(c & p & m & t & _ & _ & Hw & _)]; rewrite Hw in Hv.
  - destruct (word_of_fields (u32 (ls_releases s)) 0 m false (u32_range _)) as (_ & H1 & H2 & _); [lia|].
    rewrite H1, H2 in Hv. cbn [negb andb] in Hv. apply Z.eqb_eq in Hv. split; [done|].
    by rewrite u32_small in Hv by apply u32_range.
  - destruct (word_of_fields (u32 (ls_releases s)) (t mod 2 ^ 24) m true (u32_range _)) as (_ & _ & H2 & _);
      [apply Z.mod_pos_bound; lia|]. by rewrite H2 in Hv.
Qed.

Lemma optimistic_read_inv s guard :
  lock_inv s -> optimistic_read (ls_bucket s) = Ok guard ->
  (forall c, ~ holds s c) /\ rg_version guard = u32 (ls_releases s)
  /\ (rg_key_hash guard, rg_key_or_digest guard, rg_body guard) = payload s.
Proof.
  intros Hinv Hr. unfold optimistic_read in Hr. destruct (is_locked (ls_bucket s)) eqn:E; [done|].
  injection Hr as <-. cbn.
  assert (Hv : verify_read (mkReadGuard (version (ls_bucket s)) 0 [] [] 0) (ls_bucket s) = true).
  { unfold verify_read, load_lock. unfold is_locked in E. rewrite E. cbn. apply Z.eqb_refl. }
  apply verify_read_inv in Hv as [Hno Hv]; [|done]. cbn in Hv. auto.
Qed.

(** ** The retry loop *)

Lemma try_acquire_done env clock n i b mode :
  (forall j b', (i + n <= j)%nat -> lock_version (env j b') = lock_version b') ->
  exists b' res, try_acquire_loop env clock (S n) i b mode = Some (b', res).
Proof.
  revert i b. induction n as [|n IH]; intros i b Henv.
  - cbn [try_acquire_loop]. destruct (negb (acquire_check _ _)); [by do 2 eexists|].
    unfold cas_lock, load_lock. rewrite Henv, Z.eqb_refl by lia. by do 2 eexists.
  - remember (S n) as n'. cbn [try_acquire_loop]. subst n'.
    destruct (negb (acquire_check _ _)); [by do 2 eexists|].
    destruct (cas_lock _ _ _) as [b' [p|a]]; [by do 2 eexists|]. apply IH. intros j b2 Hj. apply Henv. lia.
Qed.

(** A holder keeps the lock until it releases it. *)
Lemma holder_persists s s' c :
  leased_run s s' -> holds s c -> ls_releases s < ls_releases s' \/ holds s' c.
Proof.
  intros Hrun Hh. induction Hrun as [s Hl|s1 s2 s3 Hrun IH Hstep Hl]; [auto|].
  pose proof (lock_step_releases _ _ Hstep). destruct (IH Hh) as [|(p & m & t & E)]; [left; lia|].
  destruct Hstep as [s d Hd|s c' mode Hc|s c' lv mode Hc|s c' lv mode Hc
    |s c' lv mode stamp b' res Hc Ec|s c' prev mode since h d bd Hc|s c' prev mode since Hc];
    try (right; exists p, m, t; unfold set_client; cbn [ls_clients];
         rewrite lookup_insert_ne by congruence; done).
  - right. by exists p, m, t.
  - right. unfold holds, set_client. cbn [ls_clients].
    destruct (decide (c' = c)) as [->|]; [rewrite lookup_insert_eq | rewrite lookup_insert_ne by done]; eauto.
  - left. pose proof (leased_run_releases _ _ Hrun). cbn. lia.
Qed.

(** ** Executable schedules *)

Inductive lock_action : Type :=
| ATick (d : Z) | ALoad (c : nat) (mode : BucketMode) | ACheck (c : nat) | AStamp (c : nat)
| ACas (c : nat) | ARelease (c : nat).

Definition lock_exec (s : lock_system) (a : lock_action) : option lock_system :=
  match a with
  | ATick d => if 0 <=? d
      then Some (mkSystem (ls_bucket s) (ls_time s + d) (ls_clients s) (ls_releases s)) else None
  | ALoad c mode => match ls_clients s !! c with
      | Some CIdle => Some (set_client s c (CRead (load_lock (ls_bucket s)) mode) (ls_bucket s))
      | _ => None end
  | ACheck c => match ls_clients s !! c with
      | Some (CRead lv mode) => Some (set_client s c
          (if acquire_check lv (now_ms (ls_time s)) then CChecked lv mode else CIdle) (ls_bucket s))
      | _ => None end
  | AStamp c => match ls_clients s !! c with
      | Some (CChecked lv mode) => Some (set_client s c (CReady lv mode (ls_time s)) (ls_bucket s))
      | _ => None end
  | ACas c => match ls_clients s !! c with
      | Some (CReady lv mode stamp) =>
          let '(b', res) := cas_lock (ls_bucket s) lv (acquire_word lv (now_ms stamp) mode) in
          Some (set_client s c (match res with Ok prev => CHolding prev mode stamp | Err _ => CIdle end) b')
      | _ => None end
  | ARelease c => match ls_clients s !! c with
      | Some (CHolding prev mode since) =>
          Some (mkSystem (release_lock (ls_bucket s) mode (u32 (Z.shiftr prev 32))) (ls_time s)
                  (<[c := CIdle]> (ls_clients s)) (ls_releases s + 1))
      | _ => None end
  end.

Fixpoint lock_exec_all (s : lock_system) (l : list lock_action) : option lock_system :=
  match l with
  | [] => Some s
  | a :: l => s' ← lock_exec s a; lock_exec_all s' l
  end.

Lemma lock_exec_sound s a s' : lock_exec s a = Some s' -> lock_step s s'.
Proof.
  destruct a as [d|c mode|c|c|c|c]; cbn [lock_exec].
  - destruct (0 <=? d) eqn:E; [|done]. bool_simpl. intros [= <-]. by constructor.
  - repeat case_match; intros [= <-]; by constructor.
  - destruct (ls_clients s !! c) as [[]|] eqn:Hc; try done. intros [= <-]. by constructor.
  - repeat case_match; intros [= <-]; by constructor.
  - destruct (ls_clients s !! c) as [[]|] eqn:Hc; try done.
    destruct (cas_lock _ _ _) as [b' res] eqn:E. intros [= <-]. by econstructor.
  - destruct (ls_clients s !! c) as [[]|] eqn:Hc; try done. intros [= <-]. by econstructor.
Qed.

Lemma lock_exec_all_sound s l s' : lock_exec_all s l = Some s' -> lock_run s s'.
Proof.
  intros H. assert (Hgen : forall l s1, lock_run s s1 -> lock_exec_all s1 l = Some s' -> lock_run s s').
  { induction l0 as [|a l0 IH]; intros s1 Hr E; [by injection E as <-|].
    cbn in E. destruct (lock_exec s1 a) as [s2|] eqn:Ea; [|done].
    apply (IH s2); [|done]. econstructor; [done | by eapply lock_exec_sound]. }
  by apply (Hgen l s); [constructor|].
Qed.

(** The steps of one successful acquisition. *)
Definition acquire_actions (c : nat) (mode : BucketMode) : list lock_action :=
  [ALoad c mode; ACheck c; AStamp c; ACas c].

(** Schedules that stay within the leases. *)
Definition client_in_lease (t : Z) (cs : client_state) : Prop :=
  match cs with
  | CHolding _ _ since => t - since <= LEASE_TIMEOUT_MS /\ t / 2 ^ 24 = since / 2 ^ 24
  | _ => True
  end.
#[export] Instance client_in_lease_dec t cs : Decision (client_in_lease t cs).
Proof. destruct cs; cbn; apply _. Defined.

Definition in_leaseb (s : lock_system) : bool :=
  forallb (fun p => bool_decide (client_in_lease (ls_time s) p.2)) (map_to_list (ls_clients s)).

Lemma in_leaseb_sound s : in_leaseb s = true -> in_lease s.
Proof.
  unfold in_leaseb. rewrite forallb_forall. intros H c p m t Hc.
  apply elem_of_map_to_list, list_elem_of_In, H in Hc. by apply bool_decide_eq_true in Hc.
Qed.

Fixpoint leased_exec_all (s : lock_system) (l : list lock_action) : option lock_system :=
  if in_leaseb s then
    match l with
    | [] => Some s
    | a :: l => s' ← lock_exec s a; leased_exec_all s' l
    end
  else None.

Lemma leased_exec_all_sound s l s' : leased_exec_all s l = Some s' -> leased_run s s'.
Proof.
  assert (Hgen : forall l s0 s1, leased_run s0 s1 -> leased_exec_all s1 l = Some s' -> leased_run s0 s').
  { clear. induction l as [|a l IH]; intros s0 s1 Hr E; cbn [leased_exec_all] in E;
      destruct (in_leaseb s1) eqn:El; try done; [by injection E as <-|].
    destruct (lock_exec s1 a) as [s2|] eqn:Ea; [|done]. cbn in E.
    apply (IH s0 s2); [|done]. econstructor; [done | by eapply lock_exec_sound |].
    apply in_leaseb_sound. destruct l; cbn [leased_exec_all] in E; by destruct (in_leaseb s2). }
  intros H. apply (Hgen l s s); [|done]. constructor. apply in_leaseb_sound.
  destruct l; cbn [leased_exec_all] in H; by destruct (in_leaseb s).
Qed.

(** ** Properties *)

(** C2. Mutual exclusion: in every interleaving of any number of clients from
    the unlocked bucket that keeps every holder within its lease (and within one
    era of the 24-bit lease clock) and performs fewer than 2^32 releases, at most
    one client holds the lock, and the lock bit is set exactly while one does. *)
Theorem mutual_exclusion b t clients s :
  0 <= t -> leased_run (lock_init b t clients) s -> ls_releases s < 2 ^ 32 ->
  (forall c1 c2, holds s c1 -> holds s c2 -> c1 = c2)
  /\ (is_locked (ls_bucket s) = true <-> exists c, holds s c).
Proof.
  intros Ht Hrun HB. pose proof (leased_run_inv _ _ (lock_init_inv b t clients Ht) Hrun HB) as Hinv.
  unfold is_locked.
  destruct (li_word _ Hinv) as [[Hno (m & Hw)]|(c & p & m & t0 & Hc & Hu & Hw & _)]; rewrite Hw.
  - destruct (word_of_fields (u32 (ls_releases s)) 0 m false (u32_range _)) as (_ & _ & -> & _); [lia|].
    split; [intros c1 c2 H1; by apply Hno in H1|]. split; [done|]. intros [c Hc]. by apply Hno in Hc.
  - destruct (word_of_fields (u32 (ls_releases s)) (t0 mod 2 ^ 24) m true (u32_range _)) as (_ & _ & -> & _);
      [apply Z.mod_pos_bound; lia|].
    split; [intros c1 c2 H1 H2; by rewrite (Hu _ H1), (Hu _ H2)|].
    split; [|done]. intros _. exists c, p, m, t0. done.
Qed.

Lemma mutual_exclusion_witness :
  exists s, leased_exec_all (lock_init HashBucket_zeroed 5 {[0%nat; 1%nat]})
      (acquire_actions 0 Extent ++ [ATick 60; ARelease 0] ++ acquire_actions 1 Inline) = Some s
    /\ is_locked (ls_bucket s) = true /\ forall c, holds s c -> c = 1%nat.
Proof.
  eexists. split; [vm_compute; reflexivity|]. split; [vm_compute; reflexivity|].
  intros c Hc.
  refine (proj1 (mutual_exclusion HashBucket_zeroed 5 {[0%nat; 1%nat]} _ _ _ _) c 1%nat Hc _).
  - lia.
  - eapply leased_exec_all_sound with (l := acquire_actions 0 Extent ++ [ATick 60; ARelease 0]
      ++ acquire_actions 1 Inline). vm_compute. reflexivity.
  - vm_compute. reflexivity.
  - do 3 eexists. vm_compute. reflexivity.
Defined.

(** C7. Optimistic reads are sound while the writers keep their leases: if, in an
    interleaving in which every holder stays within its lease from the start to the
    verification ([leased_run], which also excludes a lease across the rollover of
    the 24-bit clock) and the lock is released fewer than [2^32] times, a reader
    takes a guard from an unlocked bucket and [verify_read] succeeds later, then at
    no moment in between (so also when the fields are read one by one) did the
    bucket hold a different payload than the one in the guard.  Past a lease a
    writer may still write while the bucket is unlocked, and after [2^32] releases
    the version in the guard comes back; neither is covered. *)
Theorem optimistic_read_sound b t clients s1 guard s s2 :
  0 <= t -> leased_run (lock_init b t clients) s1 -> optimistic_read (ls_bucket s1) = Ok guard ->
  leased_run s1 s -> leased_run s s2 -> ls_releases s2 < 2 ^ 32 ->
  verify_read guard (ls_bucket s2) = true ->
  payload s = (rg_key_hash guard, rg_key_or_digest guard, rg_body guard).
Proof.
  intros Ht H01 Hread H1 H2 HB Hv.
  pose proof (leased_run_releases _ _ H1). pose proof (leased_run_releases _ _ H2).
  assert (Hinv1 : lock_inv s1) by (apply (leased_run_inv _ _ (lock_init_inv b t clients Ht) H01); lia).
  assert (Hinv : lock_inv s) by (apply (leased_run_inv _ _ Hinv1 H1); lia).
  assert (Hinv2 : lock_inv s2) by (by apply (leased_run_inv _ _ Hinv H2)).
  destruct (optimistic_read_inv _ _ Hinv1 Hread) as (Hno1 & Hver & Hp).
  destruct (verify_read_inv _ _ Hinv2 Hv) as [Hno2 Hver2].
  pose proof (li_releases _ Hinv1).
  assert (ls_releases s1 = ls_releases s2).
  { rewrite Hver in Hver2. rewrite !u32_small in Hver2 by (unfold is_u32; lia). lia. }
  rewrite Hp. destruct (payload_frame s1 s Hinv1 Hno1 H1) as [|[[c Hc]|]]; [lia | lia | | done].
  destruct (holder_persists _ _ _ H2 Hc) as [|Hc2]; [lia|]. by apply Hno2 in Hc2.
Qed.

Lemma optimistic_read_sound_witness :
  exists s1 s2, leased_exec_all (lock_init HashBucket_zeroed 5 {[0%nat]})
      (acquire_actions 0 Inline ++ [ARelease 0]) = Some s1
    /\ leased_exec_all s1 [ATick 3; ALoad 0 Inline] = Some s2
    /\ payload s2 = (0, zeros 16, zeros 32).
Proof.
  do 2 eexists. split; [vm_compute; reflexivity|]. split; [vm_compute; reflexivity|].
  refine (optimistic_read_sound HashBucket_zeroed 5 {[0%nat]} _
    (mkReadGuard 1 0 (zeros 16) (zeros 32) (2 ^ 32)) _ _ _ _ _ _ _ _ _).
  - lia.
  - eapply leased_exec_all_sound with (l := acquire_actions 0 Inline ++ [ARelease 0]).
    vm_compute. reflexivity.
  - vm_compute. reflexivity.
  - eapply leased_exec_all_sound with (l := [ATick 3; ALoad 0 Inline]). vm_compute. reflexivity.
  - eapply leased_exec_all_sound with (l := []). vm_compute. reflexivity.
  - vm_compute. reflexivity.
  - vm_compute. reflexivity.
Defined.

(** Without the lease discipline two clients can hold the lock at once, and
    the holders are then well within their own leases.  First, [release_lock] is
    an unconditional store: a holder that was taken over after its lease releases
    the lock of its successor, and a third client gets in.  Second, a lease that
    straddles the rollover of the 24-bit clock is taken over after one
    millisecond. *)
Theorem exclusion_needs_leases :
  (exists s, lock_run (lock_init HashBucket_zeroed 0 {[0%nat; 1%nat; 2%nat]}) s
     /\ ls_clients s !! 1%nat = Some (CHolding 1 Inline 200)
     /\ ls_clients s !! 2%nat = Some (CHolding (2 ^ 32) Inline 200) /\ ls_time s = 200)
  /\ (exists s prev, lock_run (lock_init HashBucket_zeroed (2 ^ 24 - 1) {[0%nat; 1%nat]}) s
     /\ ls_clients s !! 0%nat = Some (CHolding 0 Inline (2 ^ 24 - 1))
     /\ ls_clients s !! 1%nat = Some (CHolding prev Inline (2 ^ 24)) /\ ls_time s = 2 ^ 24).
Proof.
  split.
  - eexists. split; [apply (lock_exec_all_sound _ (acquire_actions 0 Inline ++ [ATick 200]
      ++ acquire_actions 1 Inline ++ [ARelease 0] ++ acquire_actions 2 Inline)); vm_compute; reflexivity|].
    vm_compute. auto.
  - do 2 eexists. split; [apply (lock_exec_all_sound _ (acquire_actions 0 Inline ++ [ATick 1]
      ++ acquire_actions 1 Inline)); vm_compute; reflexivity|].
    vm_compute. auto.
Qed.

(** The lease test compares elapsed milliseconds exactly when both times lie
    in one era of the 24-bit clock; across a rollover it reports every lease as
    expired; and [is_expired] of the bucket, which compares the 24-bit stamp with
    the full 32-bit clock, reports a lock taken at that very moment as expired
    once the clock has passed 2^24 ms. *)
Theorem lease_expiry ts t timeout b mode :
  0 <= ts <= t -> 0 <= timeout <= 2 ^ 24 -> is_u64 (lock_version b) ->
  (ts / 2 ^ 24 = t / 2 ^ 24 ->
     is_lease_expired (ts mod 2 ^ 24) (now_ms t) timeout = (timeout <? t - ts))
  /\ (t mod 2 ^ 24 < ts mod 2 ^ 24 -> is_lease_expired (ts mod 2 ^ 24) (now_ms t) timeout = true)
  /\ (2 ^ 24 <= now_ms t -> is_expired (set_locked b (now_ms t) mode) (now_ms t) timeout = true)
  /\ (now_ms t < 2 ^ 24 -> 0 < timeout ->
      is_expired (set_locked b (now_ms t) mode) (now_ms t) timeout = false).
Proof.
  intros Ht Hto Hb. pose proof (u32_range t) as Hn. fold (now_ms t) in Hn. unfold is_u32 in Hn.
  set (v := mkLockView (version b) (now_ms t mod 2 ^ 24) mode false true).
  assert (Hv : lock_view_wf v) by (split; [apply version_range | apply Z.mod_pos_bound; lia]).
  assert (HV : lock_view (set_locked b (now_ms t) mode) = v)
    by (apply lock_view_of_word; [done | by apply set_locked_word]).
  assert (Hlk : is_locked (set_locked b (now_ms t) mode) = true) by exact (f_equal lv_locked HV).
  assert (Hls : lease_ts (set_locked b (now_ms t) mode) = now_ms t mod 2 ^ 24) by exact (f_equal lv_lease HV).
  split_and!.
  - by apply lease_same_era.
  - intros. apply lease_rollover; lia.
  - intros H. unfold is_expired, wrapping_sub32. rewrite Hlk, Hls. cbn [andb]. apply Z.leb_le.
    rewrite u32_small; [|unfold is_u32]; zify_lia.
  - intros H H0. unfold is_expired, wrapping_sub32. rewrite Hlk, Hls, Z.mod_small by lia.
    rewrite Z.sub_diag. cbn [andb]. apply Z.leb_gt. done.
Qed.

Lemma view_of_word_of b v l m k w :
  is_u32 v -> 0 <= l < 2 ^ 24 -> w = word_of v l m k ->
  lock_view (set_lock_version b w) = mkLockView v l m false k.
Proof. intros Hv Hl ->. by apply lock_view_of_word. Qed.

Lemma shiftr_version b : is_u64 (lock_version b) -> Z.shiftr (lock_version b) 32 = version b.
Proof. intros H. by rewrite version_div, Z.shiftr_div_pow2 by (done || lia). Qed.

Lemma acquire_check_view b t :
  acquire_check (lock_version b) (now_ms t)
  = negb (is_locked b) || is_lease_expired (lease_ts b) (now_ms t) LEASE_TIMEOUT_MS.
Proof. unfold acquire_check. fold (is_locked b) (lease_ts b). by destruct (is_locked b). Qed.

(** [try_acquire_lock] and [release_lock] on every branch: the lock is
    refused, with the bucket unchanged, exactly when it is held and not expired;
    otherwise the acquirer installs its mode and lease under the old version and
    gets the old word, and its release publishes the version plus one (wrapping)
    with lease and lock bit cleared.  Key and body are never touched. *)
Theorem acquire_release_cycle b mode t1 t2 :
  is_u64 (lock_version b) ->
  if is_locked b && negb (is_lease_expired (lease_ts b) (now_ms t1) LEASE_TIMEOUT_MS)
  then try_acquire_lock b mode (now_ms t1) (now_ms t2) = Some (b, Err Locked)
  else exists b', try_acquire_lock b mode (now_ms t1) (now_ms t2) = Some (b', Ok (lock_version b))
    /\ lock_view b' = mkLockView (version b) (t2 mod 2 ^ 24) mode false true
    /\ lock_view (release_lock b' mode (version b)) = mkLockView (u32 (version b + 1)) 0 mode false false
    /\ (key_hash b', key_or_digest b', body b') = (key_hash b, key_or_digest b, body b).
Proof.
  intros Hb. unfold try_acquire_lock. cbn [try_acquire_loop fst snd]. unfold load_lock.
  rewrite acquire_check_view.
  destruct (is_locked b && negb (is_lease_expired _ _ _)) eqn:E.
  - apply andb_true_iff in E as [-> E]. cbn [negb orb]. by rewrite E.
  - assert (negb (negb (is_locked b) || is_lease_expired (lease_ts b) (now_ms t1) LEASE_TIMEOUT_MS) = false) as ->
      by (destruct (is_locked b), (is_lease_expired (lease_ts b) (now_ms t1) LEASE_TIMEOUT_MS); done).
    unfold cas_lock. rewrite Z.eqb_refl. eexists. split; [reflexivity|]. split_and!; [| |done].
    + apply view_of_word_of; [apply version_range | apply Z.mod_pos_bound; lia |].
      rewrite acquire_word_spec, shiftr_version by done. by rewrite <- land24, now_24.
    + apply (view_of_word_of _ (u32 (version b + 1)) 0 mode false);
        [apply u32_range | lia | apply release_word_spec].
Qed.

(** C39. The retry loop terminates: once the other clients leave the lock word
    alone from iteration [n] on, the call returns after at most [n + 1]
    iterations, whatever they did before. *)
Theorem acquire_terminates env clock n b mode :
  (forall j b', (n <= j)%nat -> lock_version (env j b') = lock_version b') ->
  exists b' res, try_acquire_loop env clock (S n) 0 b mode = Some (b', res).
Proof. intros H. by apply try_acquire_done. Qed.

Lemma acquire_terminates_witness :
  exists b' res, try_acquire_loop
    (fun i b => if decide (i = 0%nat) then set_lock_version b (lock_version b + 2 ^ 32) else b)
    (fun i => (Z.of_nat i, Z.of_nat i)) 2 0 HashBucket_zeroed Inline = Some (b', res).
Proof. apply acquire_terminates. intros j b' Hj. by rewrite decide_False by lia. Defined.

(** [force_takeover] changes an unlocked or unexpired bucket in nothing; an
    expired lock is broken by publishing the next version with the mode kept,
    and the returned word is the one stored, so readers of the old version are
    invalidated. *)
Theorem force_takeover_spec b t timeout guard :
  is_u64 (lock_version b) ->
  if negb (is_locked b) then force_takeover b (now_ms t) timeout = (b, NotLocked)
  else if negb (is_lease_expired (lease_ts b) (now_ms t) timeout)
  then force_takeover b (now_ms t) timeout = (b, NotExpired)
  else exists b', force_takeover b (now_ms t) timeout = (b', TSuccess (lock_version b'))
    /\ lock_view b' = mkLockView (u32 (version b + 1)) 0 (bucket_mode b) false false
    /\ (key_hash b', key_or_digest b', body b') = (key_hash b, key_or_digest b, body b)
    /\ (rg_version guard = version b -> verify_read guard b' = false).
Proof.
  intros Hb. unfold force_takeover. destruct (negb (is_locked b)); [done|].
  destruct (negb (is_lease_expired _ _ _)); [done|]. cbv zeta. eexists. split; [reflexivity|].
  pose proof (u32_range (version b + 1)) as Hr. unfold is_u32 in Hr.
  assert (HV : lock_view (set_lock_version b (Z.lor (shl64 (wrapping_add32 (version b) 1) 32)
                 (Z.land (lock_version b) 0x04)))
               = mkLockView (u32 (version b + 1)) 0 (bucket_mode b) false false).
  { apply view_of_word_of; [done | lia |]. unfold wrapping_add32.
    rewrite land4_mode, shl64_small by (unfold is_u64; lia).
    rewrite (lor_add _ _ 32) by (lia || (apply Z.mod_mul; lia) || (destruct (bucket_mode b); simpl; lia)).
    unfold word_of, lock_word. simpl. lia. }
  split_and!; [done | done |]. intros Hg. unfold verify_read, load_lock. fold (version b).
  match goal with |- context [u32 (Z.shiftr (lock_version ?x) 32)] =>
    change (u32 (Z.shiftr (lock_version x) 32)) with (version x) end.
  rewrite (f_equal lv_version HV : version _ = _), Hg. cbn [lv_version].
  rewrite (proj2 (Z.eqb_neq (u32 (version b + 1)) (version b))); [by rewrite andb_false_r|].
  pose proof (version_range b). unfold u32, is_u32 in *. zify_lia.
Qed.
