(* ===== verification/Slab.v ===== *)
(** * Slab: the fixed-size chunk allocator (src/engine/slab.rs)

    [SlabAllocator] with its LIFO free list and bump index.  The ghost state of
    the theorems is the set of chunks the clients hold; [slab_inv] says that held
    and free chunks partition the chunks handed out so far. *)

From S2P Require Import Prelude Layout.

Open Scope Z_scope.

Record SlabAllocator : Type := mkSlab {
  slab_chunk_size : Z;
  slab_total_chunks : Z;
  slab_next_chunk : Z;
  slab_free_chunks : list Z;
  slab_capacity : Z
}.

Definition SlabAllocator_new (region_size chunk_size : Z) : SlabAllocator :=
  let aligned_chunk := align_up chunk_size 8 in
  let total_chunks := if 0 <? aligned_chunk then region_size / aligned_chunk else 0 in
  let capacity := u64 (total_chunks * aligned_chunk) in
  mkSlab aligned_chunk total_chunks 0 [] capacity.

Definition set_slab (s : SlabAllocator) (next : Z) (free : list Z) : SlabAllocator :=
  mkSlab (slab_chunk_size s) (slab_total_chunks s) next free (slab_capacity s).

(** [Vec::pop] takes the last element. *)
Definition allocate_chunk (s : SlabAllocator) : SlabAllocator * option Z :=
  match last (slab_free_chunks s) with
  | Some idx => (set_slab s (slab_next_chunk s) (removelast (slab_free_chunks s)), Some idx)
  | None =>
      if slab_next_chunk s <? slab_total_chunks s then
        let idx := slab_next_chunk s in
        (set_slab s (u64 (slab_next_chunk s + 1)) (slab_free_chunks s), Some idx)
      else (s, None)
  end.

Definition free_chunk (s : SlabAllocator) (chunk_index : Z) : SlabAllocator :=
  set_slab s (slab_next_chunk s) (slab_free_chunks s ++ [chunk_index]).

Definition slab_allocated_count (s : SlabAllocator) : Z :=
  u64 (slab_next_chunk s - len (slab_free_chunks s)).
Definition slab_free_count (s : SlabAllocator) : Z :=
  u64 (slab_total_chunks s - slab_allocated_count s).
Definition chunk_offset (s : SlabAllocator) (chunk_index : Z) : Z :=
  u64 (chunk_index * slab_chunk_size s).

Record DistributedSlabAllocator : Type := mkDistSlab {
  ds_chunk_size : Z;
  ds_capacity : Z;
  ds_total_chunks : Z;
  ds_local_free_chunks : list Z
}.

Definition DistributedSlabAllocator_new (region_size chunk_size : Z) : DistributedSlabAllocator :=
  let aligned_chunk := align_up chunk_size 8 in
  let total_chunks := if 0 <? aligned_chunk then region_size / aligned_chunk else 0 in
  let capacity := u64 (total_chunks * aligned_chunk) in
  mkDistSlab aligned_chunk capacity total_chunks [].

(** ** Invariant *)

Record slab_inv (held : gset Z) (s : SlabAllocator) : Prop := {
  si_size : 0 <= slab_chunk_size s;
  si_cap : slab_total_chunks s * slab_chunk_size s = slab_capacity s /\ is_u64 (slab_capacity s);
  si_next : 0 <= slab_next_chunk s <= slab_total_chunks s /\ slab_total_chunks s < 2 ^ 64;
  si_nodup : NoDup (slab_free_chunks s);
  si_disjoint : forall i, i ∈ held -> i ∈ slab_free_chunks s -> False;
  si_all : forall i, (i ∈ held \/ i ∈ slab_free_chunks s) <-> 0 <= i < slab_next_chunk s
}.

Section slab.
Implicit Types (s : SlabAllocator) (held : gset Z).

Lemma slab_new_inv region_size chunk_size :
  is_u64 region_size -> 0 <= chunk_size -> chunk_size + 7 < 2 ^ 64 ->
  slab_inv ∅ (SlabAllocator_new region_size chunk_size)
  /\ slab_capacity (SlabAllocator_new region_size chunk_size) <= region_size.
Proof.
  unfold is_u64. intros Hr Hc Hc'. unfold SlabAllocator_new. rewrite align_up_8 by lia.
  set (a := (chunk_size + 7) / 8 * 8). assert (Ha : 0 <= a) by (subst a; zify_lia).
  set (n := if 0 <? a then region_size / a else 0).
  assert (Hn : 0 <= n /\ n * a <= region_size /\ n < 2 ^ 64).
  { subst n. destruct (0 <? a) eqn:E; bool_simpl; [|lia]. clearbody a.
    pose proof (Z.mul_div_le region_size a). pose proof (Z.div_pos region_size a).
    assert (region_size / a <= region_size) by (apply Z.div_le_upper_bound; nia). nia. }
  rewrite u64_small by (unfold is_u64; nia). split; [|cbn; lia].
  constructor; cbn; try done; try lia; try set_solver; try apply NoDup_nil_2; [unfold is_u64; nia|].
  intros i. split; [set_solver | lia].
Qed.

(** [last] and [removelast] of a free list. *)
Lemma last_removelast (l : list Z) x : last l = Some x -> l = removelast l ++ [x].
Proof.
  intros H. destruct (last_Some l x) as [Hl _]. destruct (Hl H) as [l' ->].
  by rewrite removelast_last.
Qed.

Lemma allocate_chunk_spec held s :
  slab_inv held s ->
  match allocate_chunk s with
  | (s', Some i) => i ∉ held /\ 0 <= i < slab_total_chunks s /\ slab_inv ({[i]} ∪ held) s'
      /\ slab_chunk_size s' = slab_chunk_size s /\ slab_capacity s' = slab_capacity s
  | (s', None) => s' = s /\ forall i, 0 <= i < slab_total_chunks s -> i ∈ held
  end.
Proof.
  intros [Hsz Hcap Hnx Hnd Hdj Hall]. unfold allocate_chunk.
  destruct (last (slab_free_chunks s)) as [i|] eqn:El.
  - apply last_removelast in El. set (fl := removelast _) in *. rewrite El in Hnd, Hdj, Hall.
    apply NoDup_app in Hnd as (Hnd & Hno & _).
    assert (Hi : i ∉ fl) by (intros H; by apply (Hno i H), list_elem_of_singleton).
    assert (Hfi : i ∉ held) by (intros H; apply (Hdj i H), elem_of_app; right; by apply list_elem_of_singleton).
    assert (0 <= i < slab_next_chunk s).
    { apply Hall. right. apply elem_of_app. right. by apply list_elem_of_singleton. }
    split_and!; [done | lia | lia | | done | done]. constructor; cbn; try done.
    + intros j. rewrite elem_of_union, elem_of_singleton. intros [->|Hj] Hf; [done|].
      apply (Hdj j Hj), elem_of_app. auto.
    + intros j. rewrite <- Hall, elem_of_union, elem_of_singleton, elem_of_app, list_elem_of_singleton. tauto.
  - apply last_None in El. rewrite El in *.
    destruct (slab_next_chunk s <? slab_total_chunks s) eqn:E; bool_simpl.
    + assert (Hn : slab_next_chunk s ∉ held) by (intros H; assert (0 <= slab_next_chunk s < slab_next_chunk s) by (apply Hall; auto); lia).
      rewrite u64_small by (unfold is_u64; lia).
      split_and!; [done | lia | lia | | done | done]. constructor; cbn; try done; [lia | set_solver|].
      intros j. rewrite elem_of_union, elem_of_singleton. split.
      * intros [[->|Hj]|Hj]; [lia | | set_solver]. assert (0 <= j < slab_next_chunk s) by (apply Hall; auto). lia.
      * intros Hj. left. destruct (decide (j = slab_next_chunk s)); [auto|]. right.
        destruct (proj2 (Hall j)) as [|]; [lia | done | set_solver].
    + split; [done|]. intros i Hi. destruct (proj2 (Hall i)) as [|]; [lia | done | set_solver].
Qed.

Lemma free_chunk_spec held s i :
  slab_inv held s -> i ∈ held -> slab_inv (held ∖ {[i]}) (free_chunk s i).
Proof.
  intros [Hsz Hcap Hnx Hnd Hdj Hall] Hi. constructor; cbn; try done.
  - apply NoDup_app. split_and!; [done | | apply NoDup_singleton].
    intros j Hj ->%list_elem_of_singleton. by apply (Hdj i).
  - intros j. rewrite elem_of_difference, elem_of_singleton, elem_of_app, list_elem_of_singleton.
    intros [Hj Hne] [Hf|Hf]; [by apply (Hdj j) | done].
  - intros j. rewrite <- Hall, elem_of_difference, elem_of_singleton, elem_of_app, list_elem_of_singleton.
    destruct (decide (j = i)) as [->|]; tauto.
Qed.
End slab.

(** ** Counting and addressing *)

Section counting.
Implicit Types (s : SlabAllocator) (held : gset Z).

Lemma slab_count held s :
  slab_inv held s -> Z.of_nat (size held) + len (slab_free_chunks s) = slab_next_chunk s.
Proof.
  intros [_ _ Hnx Hnd Hdj Hall].
  assert (Hp : elements held ++ slab_free_chunks s ≡ₚ seqZ 0 (slab_next_chunk s)).
  { apply NoDup_Permutation; [|apply NoDup_seqZ|].
    - apply NoDup_app. split_and!; [apply NoDup_elements | | done].
      intros i Hi%elem_of_elements Hf. by apply (Hdj i).
    - intros i. rewrite elem_of_app, elem_of_elements, elem_of_seqZ, Hall. lia. }
  apply Permutation_length in Hp. rewrite length_app, length_seqZ in Hp.
  unfold len. change (length (elements held)) with (size held) in Hp. lia.
Qed.

(** A chunk below the total lies inside the capacity, and its offset is exact. *)
Lemma chunk_offset_spec held s i :
  slab_inv held s -> 0 <= i < slab_total_chunks s ->
  chunk_offset s i = i * slab_chunk_size s
  /\ 0 <= chunk_offset s i /\ chunk_offset s i + slab_chunk_size s <= slab_capacity s.
Proof.
  intros [Hsz [Hcap Hcu] _ _ _ _] Hi. unfold chunk_offset. unfold is_u64 in Hcu.
  rewrite u64_small by (unfold is_u64; nia). nia.
Qed.
End counting.

(** ** Properties *)

(** [allocate_chunk] and the counters: in a slab whose free list is sound, the
    call refuses a chunk only when every chunk is held; otherwise the
    chunk handed out is held by nobody, lies inside the capacity, overlaps no
    held chunk, and the counters count the held chunks exactly (no wrap). *)
Theorem slab_allocate_refines held s :
  slab_inv held s ->
  slab_allocated_count s = Z.of_nat (size held)
  /\ slab_free_count s = slab_total_chunks s - Z.of_nat (size held)
  /\ match allocate_chunk s with
     | (s', Some i) => slab_inv ({[i]} ∪ held) s' /\ i ∉ held
         /\ 0 <= chunk_offset s' i /\ chunk_offset s' i + slab_chunk_size s' <= slab_capacity s'
         /\ (forall j, j ∈ held -> chunk_offset s' j + slab_chunk_size s' <= chunk_offset s' i
                                   \/ chunk_offset s' i + slab_chunk_size s' <= chunk_offset s' j)
     | (s', None) => s' = s /\ Z.of_nat (size held) = slab_total_chunks s
     end.
Proof.
  intros Hinv. pose proof (slab_count _ _ Hinv) as Hc. pose proof (si_next _ _ Hinv).
  pose proof (len_nonneg (slab_free_chunks s)).
  assert (Ha : slab_allocated_count s = Z.of_nat (size held))
    by (unfold slab_allocated_count; rewrite u64_small; [|unfold is_u64]; lia).
  split; [done|]. split; [unfold slab_free_count; rewrite Ha, u64_small; [|unfold is_u64]; lia|].
  pose proof (allocate_chunk_spec _ _ Hinv) as Hs. destruct (allocate_chunk s) as [s' [i|]].
  - destruct Hs as (Hno & Hi & Hinv' & Hsz & Hcap).
    assert (Ht : forall j, j ∈ {[i]} ∪ held -> 0 <= j < slab_total_chunks s').
    { intros j Hj. assert (0 <= j < slab_next_chunk s') by (apply (si_all _ _ Hinv'); auto).
      pose proof (si_next _ _ Hinv'). lia. }
    destruct (chunk_offset_spec _ _ i Hinv' (Ht i ltac:(set_solver))) as (Eo & H1 & H2).
    split_and!; [done | done | done | done |]. intros j Hj.
    destruct (chunk_offset_spec _ _ j Hinv' (Ht j ltac:(set_solver))) as (Ej & _ & _).
    assert (i <> j) by congruence. pose proof (si_size _ _ Hinv'). rewrite Eo, Ej. nia.
  - destruct Hs as [-> Hall]. split; [done|]. destruct (slab_free_chunks s) as [|f fl] eqn:Ef.
    + unfold len in Hc. cbn in Hc. assert (~ slab_next_chunk s < slab_total_chunks s); [|lia].
      intros Hlt. assert (slab_next_chunk s ∈ held) as Hin by (apply Hall; lia).
      assert (0 <= slab_next_chunk s < slab_next_chunk s) by (apply (si_all _ _ Hinv); auto). lia.
    + exfalso. apply (si_disjoint _ _ Hinv f); [|rewrite Ef; set_solver]. apply Hall.
      assert (0 <= f < slab_next_chunk s) by (apply (si_all _ _ Hinv); right; rewrite Ef; set_solver). lia.
Qed.

(** Returning chunks: freeing a held chunk keeps the invariant without it,
    and the next allocation hands out exactly that chunk.  Freeing it a second
    time is not detected: the chunk is then handed out twice, and the counter of
    allocated chunks wraps below zero. *)
Theorem slab_free_refines held s i :
  slab_inv held s -> i ∈ held ->
  slab_inv (held ∖ {[i]}) (free_chunk s i)
  /\ allocate_chunk (free_chunk s i) = (s, Some i)
  /\ (let s2 := free_chunk (free_chunk s i) i in
      let '(s3, r1) := allocate_chunk s2 in
      let '(_, r2) := allocate_chunk s3 in
      r1 = Some i /\ r2 = Some i)
  /\ (held = {[i]} -> slab_allocated_count (free_chunk (free_chunk s i) i) = 2 ^ 64 - 1).
Proof.
  intros Hinv Hi.
  assert (Hpop : forall s', allocate_chunk (free_chunk s' i) = (s', Some i)).
  { intros [cs tc nx fl cp]. unfold allocate_chunk, free_chunk, set_slab. cbn.
    rewrite last_snoc. cbn. by rewrite removelast_last. }
  split_and!; [by apply free_chunk_spec | apply Hpop | cbv zeta; by rewrite !Hpop |].
  intros ->. pose proof (slab_count _ _ Hinv) as Hc. rewrite size_singleton in Hc.
  unfold slab_allocated_count. cbn [free_chunk set_slab slab_free_chunks slab_next_chunk].
  rewrite !len_app. change (len [i]) with 1. unfold u64.
  replace (slab_next_chunk s - (len (slab_free_chunks s) + 1 + 1)) with (-1) by lia. reflexivity.
Qed.
