(* ===== verification/Lru.v ===== *)
(** * Lru: the access tracker (src/engine/lru.rs)

    The lock-free queue of accesses is a FIFO list, the table of last accesses a
    finite map; the clock and the iteration order of the [HashMap] are
    arguments.  The theorems show that the selected candidates are the [n]
    least recently used keys. *)

From S2P Require Import Prelude Layout Concurrency.

Open Scope Z_scope.

Record LruTracker : Type := mkLru {
  accesses : list (Z * Z);
  last_access : gmap Z Z;
  lru_key_count : Z;
  watermark : Z;
  lru_evicted : Z
}.

Definition LruTracker_new (watermark : Z) : LruTracker := mkLru [] ∅ 0 watermark 0.
Definition LruTracker_default : LruTracker := LruTracker_new 100000.

(** [now] is the reading of [now_ms()], a u32. *)
Definition record_access (l : LruTracker) (key_hash now : Z) : LruTracker :=
  mkLru (accesses l ++ [(key_hash, now)]) (last_access l) (u64 (lru_key_count l + 1))
    (watermark l) (lru_evicted l).

Definition needs_eviction (l : LruTracker) : bool := watermark l <? lru_key_count l.

(** [for (key_hash, ts) in &records { la.insert(..) }]. *)
Definition merge_records (la : gmap Z Z) (records : list (Z * Z)) : gmap Z Z :=
  foldl (fun la r => <[r.1 := r.2]> la) la records.

(** [sort_by_key(|(_, ts)| ts)]: a stable sort, ascending. *)
Fixpoint insert_by_ts (r : Z * Z) (l : list (Z * Z)) : list (Z * Z) :=
  match l with
  | [] => [r]
  | x :: l => if r.2 <=? x.2 then r :: x :: l else x :: insert_by_ts r l
  end.
Definition sort_by_ts (l : list (Z * Z)) : list (Z * Z) := foldr insert_by_ts [] l.

(** [order] lists the entries of the merged map in the order the [HashMap]
    yields them. *)
Definition select_eviction_candidates (l : LruTracker) (order : list (Z * Z)) (n : Z)
  : LruTracker * list Z :=
  let records := accesses l in
  let la := merge_records (last_access l) records in
  if bool_decide (la = ∅) || (n =? 0) then
    (mkLru [] la (Z.of_nat (size la)) (watermark l) (lru_evicted l), [])
  else
    let sorted := sort_by_ts order in
    let take_n := Z.min n (len sorted) in
    let candidates := (take (Z.to_nat take_n) sorted).*1 in
    let la := foldl (fun la k => delete k la) la candidates in
    (mkLru [] la (Z.of_nat (size la)) (watermark l) (lru_evicted l), candidates).

Definition increment_evicted (l : LruTracker) (delta : Z) : LruTracker :=
  mkLru (accesses l) (last_access l) (lru_key_count l) (watermark l) (u64 (lru_evicted l + delta)).

(** ** Lemmas *)

Lemma insert_by_ts_perm r l : insert_by_ts r l ≡ₚ r :: l.
Proof.
  induction l as [|x l IH]; cbn; [done|]. destruct (r.2 <=? x.2); [done|].
  rewrite IH. apply Permutation_swap.
Qed.

Lemma sort_by_ts_perm l : sort_by_ts l ≡ₚ l.
Proof. induction l as [|r l IH]; cbn; [done|]. by rewrite insert_by_ts_perm, IH. Qed.

Definition ts_le (a b : Z * Z) : Prop := a.2 <= b.2.

Lemma insert_by_ts_sorted r l : StronglySorted ts_le l -> StronglySorted ts_le (insert_by_ts r l).
Proof.
  induction 1 as [|x l Hs IH Hx]; cbn; [repeat constructor|].
  destruct (r.2 <=? x.2) eqn:E; bool_simpl.
  - constructor; [by constructor|]. constructor; [done|].
    eapply Forall_impl; [exact Hx|]. unfold ts_le. intros. lia.
  - constructor; [done|]. rewrite insert_by_ts_perm. constructor; [unfold ts_le; lia | done].
Qed.

Lemma sort_by_ts_sorted l : StronglySorted ts_le (sort_by_ts l).
Proof. induction l; cbn; [constructor | by apply insert_by_ts_sorted]. Qed.

Lemma strongly_sorted_app (l k : list (Z * Z)) a b :
  StronglySorted ts_le (l ++ k) -> a ∈ l -> b ∈ k -> a.2 <= b.2.
Proof.
  induction l as [|x l IH]; intros Hs Ha Hb; [by apply not_elem_of_nil in Ha|].
  cbn in Hs. inversion Hs as [|? ? Hs' Hx]; subst. apply elem_of_cons in Ha as [->|Ha]; [|by apply IH].
  rewrite Forall_forall in Hx. apply Hx, elem_of_app. by right.
Qed.

Lemma foldl_delete_lookup (ks : list Z) (m : gmap Z Z) k :
  foldl (fun m k => delete k m) m ks !! k = if decide (k ∈ ks) then None else m !! k.
Proof.
  revert m. induction ks as [|k' ks IH]; intros m; cbn.
  { rewrite decide_False; [done | apply not_elem_of_nil]. }
  rewrite IH. destruct (decide (k ∈ ks)); [rewrite decide_True by set_solver; done|].
  destruct (decide (k = k')) as [->|].
  - rewrite decide_True by set_solver. by rewrite lookup_delete_eq.
  - rewrite decide_False by set_solver. by rewrite lookup_delete_ne by congruence.
Qed.

(** The last record of a key wins. *)
Lemma merge_records_snoc la records k ts :
  merge_records la (records ++ [(k, ts)]) = <[k := ts]> (merge_records la records).
Proof. unfold merge_records. by rewrite foldl_app. Qed.

Section selection.
Context (l : LruTracker) (order : list (Z * Z)) (n : Z).
Let la := merge_records (last_access l) (accesses l).
Hypothesis Horder : order ≡ₚ map_to_list la.
Hypothesis Hn : 0 <= n.

Definition chosen : list (Z * Z) := take (Z.to_nat (Z.min n (len (sort_by_ts order)))) (sort_by_ts order).

Lemma sorted_perm : sort_by_ts order ≡ₚ map_to_list la.
Proof. by rewrite sort_by_ts_perm. Qed.

Lemma chosen_elem k ts : (k, ts) ∈ chosen -> la !! k = Some ts.
Proof.
  intros H. apply elem_of_map_to_list. rewrite <- sorted_perm.
  eapply elem_of_take in H as (i & H & _). by eapply list_elem_of_lookup_2.
Qed.

(** In the "nothing to do" branch the general result is the same. *)
Lemma select_general :
  select_eviction_candidates l order n =
  (mkLru [] (foldl (fun la k => delete k la) la chosen.*1)
     (Z.of_nat (size (foldl (fun la k => delete k la) la chosen.*1))) (watermark l) (lru_evicted l),
   chosen.*1).
Proof.
  unfold select_eviction_candidates. fold la.
  destruct (bool_decide (la = ∅) || (n =? 0)) eqn:E; [|reflexivity].
  assert (chosen = []) as ->; [|reflexivity]. unfold chosen.
  apply orb_true_iff in E as [E|E]; bool_simpl.
  - apply bool_decide_eq_true in E.
    assert (sort_by_ts order = []) as -> by (apply Permutation_nil_r; rewrite sorted_perm, E; done).
    apply take_nil.
  - subst n. rewrite Z.min_l by apply len_nonneg. done.
Qed.

Lemma chosen_oldest k ts k' ts' :
  (k, ts) ∈ chosen -> la !! k' = Some ts' -> k' ∉ chosen.*1 -> ts <= ts'.
Proof.
  intros Hk Hk' Hno. change ts with (k, ts).2. change ts' with (k', ts').2.
  set (i := Z.to_nat (Z.min n (len (sort_by_ts order)))) in *.
  assert (Hin : (k', ts') ∈ drop i (sort_by_ts order)).
  { apply elem_of_map_to_list in Hk'. rewrite <- sorted_perm in Hk'.
    rewrite <- (take_drop i (sort_by_ts order)), elem_of_app in Hk'.
    destruct Hk' as [Hk'|Hk']; [|done]. exfalso. apply Hno. apply list_elem_of_fmap. by exists (k', ts'). }
  eapply (strongly_sorted_app (take i (sort_by_ts order)) (drop i (sort_by_ts order)));
    [rewrite take_drop; apply sort_by_ts_sorted | exact Hk | exact Hin].
Qed.

Lemma chosen_nodup : NoDup chosen.*1.
Proof.
  assert (H : NoDup (sort_by_ts order).*1) by (rewrite sorted_perm; apply NoDup_fst_map_to_list).
  rewrite <- (take_drop (Z.to_nat (Z.min n (len (sort_by_ts order)))) (sort_by_ts order)), fmap_app in H.
  by apply NoDup_app in H as [H _].
Qed.

Lemma chosen_length : Z.of_nat (length chosen.*1) = Z.min n (Z.of_nat (size la)).
Proof.
  assert (El : length (sort_by_ts order) = size la)
    by (rewrite sorted_perm; apply length_map_to_list).
  unfold chosen, len. rewrite length_fmap, length_take. lia.
Qed.
End selection.

(** ** Properties *)

(** C40. Eviction picks the least recently used keys: with the pending accesses
    merged (the last one of a key wins), it returns [min n] of the tracked keys,
    all different, each accessed no later than every key that stays tracked;
    exactly those are forgotten, the queue is drained and the key count is the
    number of keys left.  This holds for every iteration order of the map. *)
Theorem lru_selects_oldest l order n :
  let la := merge_records (last_access l) (accesses l) in
  order ≡ₚ map_to_list la -> 0 <= n ->
  let '(l', cs) := select_eviction_candidates l order n in
  Z.of_nat (length cs) = Z.min n (Z.of_nat (size la)) /\ NoDup cs
  /\ (forall k, last_access l' !! k = if decide (k ∈ cs) then None else la !! k)
  /\ (forall k, k ∈ cs -> exists ts, la !! k = Some ts
        /\ forall k' ts', last_access l' !! k' = Some ts' -> ts <= ts')
  /\ accesses l' = [] /\ lru_key_count l' = Z.of_nat (size (last_access l')).
Proof.
  intros la Hord Hn. rewrite select_general by done. fold la. cbn [last_access accesses lru_key_count].
  split_and!; [by apply chosen_length | by eapply chosen_nodup | | | done | done].
  - intros k. apply foldl_delete_lookup.
  - intros k ([k0 ts] & -> & Hk)%list_elem_of_fmap. exists ts. split; [by eapply chosen_elem|].
    intros k' ts'. rewrite foldl_delete_lookup. case_decide; [done|]. intros Hk'.
    by eapply (chosen_oldest l order n).
Qed.

Definition sample_lru : LruTracker :=
  record_access (record_access (record_access (LruTracker_new 2) 7 100) 8 50) 7 200.

Lemma lru_selects_oldest_witness :
  (select_eviction_candidates sample_lru [(7, 200); (8, 50)] 1).2 = [8]
  /\ NoDup (select_eviction_candidates sample_lru [(7, 200); (8, 50)] 1).2.
Proof.
  split; [vm_compute; reflexivity|].
  refine (proj1 (proj2 (lru_selects_oldest sample_lru [(7, 200); (8, 50)] 1 _ _))); [|lia].
  vm_compute. first [apply Permutation_refl | apply Permutation_swap].
Defined.
