(* ===== verification/Gc.v ===== *)
(** * Gc: epoch-based reclamation (src/engine/gc.rs)

    [EpochGc] over any extent store that satisfies the interface [ExtentStore];
    [LargeObjectRegion] is the instance of the source.  Clock readings and set
    iteration orders are arguments.  The theorems: a sweep reclaims exactly the
    marked extents below the minimum active timestamp, so no client that was
    active before an extent was scheduled can lose it. *)

From S2P Require Import Prelude Layout Extent ExtentSpec ExtentProps Concurrency Lru.

Open Scope Z_scope.

Record EpochGc : Type := mkGc {
  gc_pending : list (Z * Z);
  sweep_interval_ms : Z;
  last_sweep : Z;
  gc_lru : option LruTracker
}.

Definition EpochGc_new (sweep_interval_ms now : Z) : EpochGc := mkGc [] sweep_interval_ms now None.
Definition with_lru (sweep_interval_ms now : Z) (lru : LruTracker) : EpochGc :=
  mkGc [] sweep_interval_ms now (Some lru).
Definition EpochGc_default (now : Z) : EpochGc := EpochGc_new 1000 now.

Definition schedule_deletion (g : EpochGc) (offset now : Z) : EpochGc :=
  mkGc (gc_pending g ++ [(offset, now)]) (sweep_interval_ms g) (last_sweep g) (gc_lru g).

Definition gc_pending_count (g : EpochGc) : Z := len (gc_pending g).

(** [now - last >= interval] on u64. *)
Definition is_sweep_due (g : EpochGc) (now : Z) : bool :=
  sweep_interval_ms g <=? u64 (now - last_sweep g).

Section gc.
Context {R : Type} {ES : ExtentStore R}.

(** [for (offset, epoch) in pending.iter() { let _ = region.mark_for_gc(..) }]. *)
Fixpoint mark_pending (r : R) (pending : list (Z * Z)) : exec R :=
  match pending with
  | [] => Done r
  | (offset, epoch) :: pending =>
      '(r, _) ← es_mark r offset epoch;
      mark_pending r pending
  end.

Definition EpochGc_sweep (g : EpochGc) (r : R) (order : list Z) (min_active_ts : Z)
  : exec (EpochGc * R * Z) :=
  r ← mark_pending r (gc_pending g);
  '(r, freed) ← es_sweep r order min_active_ts;
  Done (mkGc [] (sweep_interval_ms g) (last_sweep g) (gc_lru g), r, freed).

(** The loop that schedules every candidate for deletion; [clock i]
    is the [i]-th reading of the clock. *)
Fixpoint schedule_all (g : EpochGc) (candidates : list Z) (clock : nat -> Z) : EpochGc :=
  match candidates with
  | [] => g
  | key_hash :: candidates =>
      schedule_all (schedule_deletion g key_hash (clock 0%nat)) candidates (fun i => clock (S i))
  end.

Definition set_lru (g : EpochGc) (lru : LruTracker) : EpochGc :=
  mkGc (gc_pending g) (sweep_interval_ms g) (last_sweep g) (Some lru).

Definition evict_lru (g : EpochGc) (r : R) (n : Z) (lru_order : list (Z * Z)) (order : list Z)
    (clock : nat -> Z) : exec (EpochGc * R * Z) :=
  match gc_lru g with
  | None => Done (g, r, 0)
  | Some lru =>
      let '(lru, candidates) := select_eviction_candidates lru lru_order n in
      let g := set_lru g lru in
      if bool_decide (candidates = []) then Done (g, r, 0)
      else
        let evicted_count := len candidates in
        let g := schedule_all g candidates clock in
        let min_ts := clock (length candidates) in
        '(g, r, _) ← EpochGc_sweep g r order min_ts;
        let g := match gc_lru g with
                 | Some lru => set_lru g (increment_evicted lru evicted_count)
                 | None => g
                 end in
        Done (g, r, evicted_count)
  end.

(** [order1] and [order2] are the iteration orders of the two sweeps a call can
    make; [clock 0] is the reading of [maybe_sweep] itself. *)
Definition maybe_sweep (g : EpochGc) (r : R) (min_active_ts : Z) (lru_order : list (Z * Z))
    (order1 order2 : list Z) (clock : nat -> Z) : exec (EpochGc * R * Z) :=
  let now := clock 0%nat in
  let clock := fun i => clock (S i) in
  if u64 (now - last_sweep g) <? sweep_interval_ms g then
    match gc_lru g with
    | Some lru =>
        if needs_eviction lru then
          let kc := lru_key_count lru in
          let n := Z.max (Z.max 0 (kc - Z.min kc 1) / 10) 1 in
          evict_lru g r n lru_order order1 clock
        else Done (g, r, 0)
    | None => Done (g, r, 0)
    end
  else
    let g := mkGc (gc_pending g) (sweep_interval_ms g) now (gc_lru g) in
    '(g, r) ← (match gc_lru g with
               | Some lru =>
                   if needs_eviction lru then
                     let n := Z.max (lru_key_count lru / 10) 1 in
                     '(g, r, _) ← evict_lru g r n lru_order order1 clock; Done (g, r)
                   else Done (g, r)
               | None => Done (g, r)
               end);
    EpochGc_sweep g r order2 min_active_ts.

Definition run_gc_cycle (g : EpochGc) (r : R) (order : list Z) (client_active_timestamps : list Z)
  : exec (EpochGc * R * Z) :=
  match client_active_timestamps with
  | [] => Done (g, r, 0)
  | ts :: tss => EpochGc_sweep g r order (foldr Z.min ts tss)
  end.

(** ** Lemmas *)

(** The map after marking the pending deletions. *)
Definition mark_all (m : gmap Z extent) (pending : list (Z * Z)) : gmap Z extent :=
  foldl (fun m p => alter (fun x => set_epoch x p.2) p.1 m) m pending.

(** A pending deletion names an allocated V2 extent. *)
Definition pending_wf (m : gmap Z extent) (p : Z * Z) : Prop :=
  epoch_ok p.2 /\ exists x, m !! p.1 = Some x /\ ext_is_v2 x = true.

Lemma alter_as_insert (m : gmap Z extent) f o x : m !! o = Some x -> alter f o m = <[o := f x]> m.
Proof.
  intros H. apply map_eq. intros j. destruct (decide (j = o)) as [->|].
  - by rewrite lookup_alter_eq, lookup_insert_eq, H.
  - by rewrite lookup_alter_ne, lookup_insert_ne by congruence.
Qed.

Lemma pending_wf_alter m p o e :
  pending_wf m p -> pending_wf (alter (fun x => set_epoch x e) o m) p.
Proof.
  intros (He & x & Hx & Hv). split; [done|]. destruct (decide (p.1 = o)) as [<-|].
  - exists (set_epoch x e). by rewrite lookup_alter_eq, Hx.
  - exists x. by rewrite lookup_alter_ne by congruence.
Qed.

Lemma mark_pending_spec m r pending :
  es_repr m r -> Forall (pending_wf m) pending ->
  exists r', mark_pending r pending = Done r' /\ es_repr (mark_all m pending) r'.
Proof.
  revert m r. induction pending as [|[o e] pending IH]; intros m r Hr Hp; [by exists r|].
  apply Forall_cons in Hp as [(He & x & Hx & Hv) Hp]. cbn [fst snd] in *.
  destruct (es_mark_ok m r o x e Hr Hx Hv He) as (r1 & E & Hr1).
  cbn [mark_pending]. rewrite E, exec_bind_done.
  change (mark_all m ((o, e) :: pending)) with (mark_all (alter (fun x => set_epoch x e) o m) pending).
  apply IH; [by rewrite (alter_as_insert m _ o x)|].
  eapply Forall_impl; [exact Hp|]. intros p. apply pending_wf_alter.
Qed.

Lemma mark_all_dom m pending : dom (mark_all m pending) = dom m.
Proof.
  revert m. induction pending as [|p pending IH]; intros m; [done|]. cbn. fold (mark_all).
  change (foldl _ ?m' pending) with (mark_all m' pending). rewrite IH. apply dom_alter_L.
Qed.

Lemma EpochGc_sweep_spec g m r order min_ts :
  es_repr m r -> Forall (pending_wf m) (gc_pending g) -> order ≡ₚ elements (es_offsets r) ->
  let m1 := mark_all m (gc_pending g) in
  exists r', EpochGc_sweep g r order min_ts
      = Done (mkGc [] (sweep_interval_ms g) (last_sweep g) (gc_lru g), r',
              Z.of_nat (size (filter (fun p => collectible min_ts p.2) m1)))
    /\ es_repr (filter (fun p => ~ collectible min_ts p.2) m1) r'.
Proof.
  intros Hr Hp Hord m1. destruct (mark_pending_spec m r _ Hr Hp) as (r1 & E1 & Hr1). fold m1 in Hr1.
  assert (Hord1 : order ≡ₚ elements (es_offsets r1)).
  { rewrite Hord, (es_offsets_dom _ _ Hr), (es_offsets_dom _ _ Hr1). unfold m1. by rewrite mark_all_dom. }
  destruct (es_sweep_ok m1 r1 order min_ts Hr1 Hord1) as (r2 & E2 & Hr2).
  unfold EpochGc_sweep. rewrite E1, exec_bind_done, E2, exec_bind_done. by exists r2.
Qed.

Lemma foldr_min_le ts tss t : t = ts \/ t ∈ tss -> foldr Z.min ts tss <= t.
Proof.
  induction tss as [|u tss IH]; cbn; [intros [->|H]; [lia | by apply not_elem_of_nil in H]|].
  rewrite elem_of_cons. intros [H|[->|H]]; [|lia|]; assert (foldr Z.min ts tss <= t) by auto; lia.
Qed.

Lemma foldr_min_elem ts tss : foldr Z.min ts tss = ts \/ foldr Z.min ts tss ∈ tss.
Proof.
  induction tss as [|u tss IH]; cbn; [auto|].
  destruct (Z.min_spec u (foldr Z.min ts tss)) as [[_ ->]|[_ ->]]; [set_solver|].
  destruct IH as [->|IH]; set_solver.
Qed.
End gc.

(** ** Properties *)

(** A sweep first stamps every pending deletion, then reclaims exactly the
    extents whose epoch is set and below the minimum active timestamp; it
    returns their number, empties the pending list and does not panic, in
    whatever order the allocated set is iterated.  Proved for every store with
    the [ExtentStore] promises. *)
Theorem gc_sweep_refines {R} `{ExtentStore R} g m (r : R) order min_ts :
  es_repr m r -> Forall (pending_wf m) (gc_pending g) -> order ≡ₚ elements (es_offsets r) ->
  exists g' r', EpochGc_sweep g r order min_ts
      = Done (g', r', Z.of_nat (size (filter (fun p => collectible min_ts p.2) (mark_all m (gc_pending g)))))
    /\ gc_pending g' = []
    /\ es_repr (filter (fun p => ~ collectible min_ts p.2) (mark_all m (gc_pending g))) r'.
Proof.
  intros Hr Hp Hord. destruct (EpochGc_sweep_spec g m r order min_ts Hr Hp Hord) as (r' & E & Hr').
  do 2 eexists. split; [exact E|]. by split.
Qed.

(** C16. Reclamation is safe for active clients: after a GC cycle, an extent is
    gone exactly when it was marked and every reported active timestamp is later
    than its epoch; every other extent still reads back its data. *)
Theorem gc_cycle_safe {R} `{ExtentStore R} g m (r : R) order timestamps :
  es_repr m r -> Forall (pending_wf m) (gc_pending g) -> order ≡ₚ elements (es_offsets r) ->
  timestamps <> [] ->
  exists g' r' n, run_gc_cycle g r order timestamps = Done (g', r', n) /\
  forall o x, mark_all m (gc_pending g) !! o = Some x ->
    if decide (0 < xt_epoch x /\ Forall (fun ts => xt_epoch x < ts) timestamps)
    then es_free r' o = Done (r', Err NotAllocated)
    else es_read r' o = Done (Some (xt_data x)).
Proof.
  intros Hr Hp Hord Hts. destruct timestamps as [|ts tss]; [done|]. cbn [run_gc_cycle].
  destruct (EpochGc_sweep_spec g m r order (foldr Z.min ts tss) Hr Hp Hord) as (r' & E & Hr').
  do 3 eexists. split; [exact E|]. intros o x Hx.
  assert (Hc : collectible (foldr Z.min ts tss) x
               <-> 0 < xt_epoch x /\ Forall (fun ts => xt_epoch x < ts) (ts :: tss)).
  { unfold collectible. rewrite Forall_cons, !Forall_forall. split.
    - intros [H0 H1]. split_and!; [done | |]; [|intros t Ht];
        eapply Z.lt_le_trans; [exact H1 | apply foldr_min_le; auto | exact H1 | apply foldr_min_le; auto].
    - intros (H0 & H1 & H2). split; [done|]. destruct (foldr_min_elem ts tss) as [->|Hin]; auto. }
  case_decide as Hd; rewrite <- Hc in Hd.
  - apply (es_free_absent _ _ _ Hr'). apply map_lookup_filter_None. right.
    intros x' Hx'. rewrite Hx in Hx'. injection Hx' as <-. by intros ?.
  - apply (es_read_ok _ _ _ _ Hr'). apply map_lookup_filter_Some. by split.
Qed.

Lemma gc_cycle_safe_witness :
  exists r g' r' n, run_gc_cycle (schedule_deletion (EpochGc_new 1000 0) 0 40) r [0] [70; 60] = Done (g', r', n)
    /\ es_free r' 0 = Done (r', Err NotAllocated).
Proof.
  destruct sample_alloc_inv as (r & _ & Hinv). exists r.
  destruct (gc_cycle_safe (schedule_deletion (EpochGc_new 1000 0) 0 40)
    (<[0 := new_extent 0 [1; 2; 3]]> ∅) r [0] [70; 60]) as (g' & r' & n & E & Hf).
  - exact Hinv.
  - constructor; [|constructor]. split; [split; [unfold is_u64; cbn; lia | by vm_compute]|].
    exists (new_extent 0 [1; 2; 3]). split; [apply lookup_insert_eq | reflexivity].
  - cbn [es_offsets region_store]. rewrite (ri_alloc _ _ Hinv). vm_compute. reflexivity.
  - done.
  - exists g', r', n. split; [exact E|].
    specialize (Hf 0 (set_epoch (new_extent 0 [1; 2; 3]) 40)).
    rewrite decide_True in Hf by (split; [cbn; lia | repeat constructor; cbn; lia]).
    apply Hf. vm_compute. reflexivity.
Defined.

(** Eviction by the LRU tracker does not reclaim anything: it schedules the
    key hash of the victim as if it were an extent offset.  With one extent
    allocated and one tracked key, [evict_lru] reports one eviction and counts
    it, while the region keeps its extent. *)
Theorem evict_lru_reclaims_nothing :
  ('(r, _) ← allocate (LargeObjectRegion_new 128) [1; 2; 3];
   '(g', r', n) ← evict_lru (with_lru 1000 0 (record_access (LruTracker_new 0) 12345 10)) r 1
                    [(12345, 10)] [0] (fun i => 20 + Z.of_nat i);
   d ← LargeObjectRegion_read r' 0;
   Done (n, lru_evicted <$> gc_lru g', bool_decide (buffer r' = buffer r), allocated_count r', d))
  = Done (1, Some 1, true, 1, Some [1; 2; 3]).
Proof. vm_compute. reflexivity. Qed.
