(* ===== verification/Errors.v ===== *)
(** * Errors: the error type of the crate (src/error.rs) *)

From stdpp Require Export strings pretty.
From S2P Require Import Prelude.

Open Scope Z_scope.

(** [RInvalidKey] is the source's [RdmaError::InvalidKey]; the name [InvalidKey]
    is the one of [CuckooError]. *)
Inductive RdmaError : Type :=
| Timeout
| CasFailed
| VersionMismatch
| KvFull
| RInvalidKey
| HardwareError (msg : string)
| NotConnected
| ProtocolVersionMismatch (msg : string)
| Internal (msg : string).

#[export] Instance RdmaError_eq_dec : EqDecision RdmaError.
Proof. solve_decision. Defined.

Definition is_retriable (e : RdmaError) : bool :=
  match e with
  | Timeout | CasFailed | VersionMismatch | NotConnected => true
  | _ => false
  end.
