(* ===== verification/Api.v ===== *)
(** * Api: the public engine trait (src/api.rs)

    [KvEngine] as a class of operations, with the bodies of its default methods, and
    the documented contract of an engine: a finite map of keys to values.  No
    engine of the crate implements the trait; a finite map does here. *)

From S2P Require Import Prelude Errors.

Open Scope Z_scope.

Class KvEngine (E : Type) : Type := {
  kv_get : E -> list Z -> E * result (option (list Z)) RdmaError;
  kv_put : E -> list Z -> list Z -> E * result unit RdmaError;
  kv_delete : E -> list Z -> E * result unit RdmaError;
  kv_exists : E -> list Z -> E * result bool RdmaError;
  kv_batch_get : E -> list (list Z) -> E * list (result (option (list Z)) RdmaError);
  kv_batch_put : E -> list (list Z * list Z) -> E * list (result unit RdmaError)
}.

(** The default bodies. *)
Definition default_evict {E} (e : E) (n : Z) : E * result Z RdmaError := (e, Ok 0).
Definition default_key_count {E} (e : E) : Z := 0.

(** ** The contract *)

Abbreviation kv_map := (gmap (list Z) (list Z)).

(** One operation on a list of arguments, one after the other. *)
Fixpoint each {E A B} (f : E -> A -> E * B) (e : E) (args : list A) : E * list B :=
  match args with
  | [] => (e, [])
  | a :: args =>
      let '(e, b) := f e a in
      let '(e, bs) := each f e args in (e, b :: bs)
  end.

(** [get] answers [None] for an absent key, [put] overwrites, [delete] of an absent
    key does nothing; an operation that fails leaves the map as it was; a batch
    does what its members do. *)
Class KvContract (E : Type) `{KvEngine E} : Type := {
  kv_repr : kv_map -> E -> Prop;
  kv_get_ok m e k : kv_repr m e ->
    let '(e', r) := kv_get e k in kv_repr m e' /\ forall v, r = Ok v -> v = m !! k;
  kv_put_ok m e k v : kv_repr m e ->
    let '(e', r) := kv_put e k v in match r with Ok _ => kv_repr (<[k := v]> m) e' | Err _ => kv_repr m e' end;
  kv_delete_ok m e k : kv_repr m e ->
    let '(e', r) := kv_delete e k in match r with Ok _ => kv_repr (delete k m) e' | Err _ => kv_repr m e' end;
  kv_exists_ok m e k : kv_repr m e ->
    let '(e', r) := kv_exists e k in kv_repr m e' /\ forall b, r = Ok b -> b = bool_decide (is_Some (m !! k));
  kv_batch_get_ok e ks : kv_batch_get e ks = each kv_get e ks;
  kv_batch_put_ok e kvs : kv_batch_put e kvs = each (fun e kv => kv_put e kv.1 kv.2) e kvs
}.

Section contract.
Context {E : Type} `{KvContract E}.
Implicit Types (e : E) (m : kv_map).

(** What a batch of writes leaves: the successful ones, in order. *)
Fixpoint written (kvs : list (list Z * list Z)) (rs : list (result unit RdmaError)) (m : kv_map) : kv_map :=
  match kvs, rs with
  | kv :: kvs, Ok _ :: rs => written kvs rs (<[kv.1 := kv.2]> m)
  | _ :: kvs, Err _ :: rs => written kvs rs m
  | _, _ => m
  end.

Lemma batch_put_written m e kvs :
  kv_repr m e -> let '(e', rs) := kv_batch_put e kvs in
  length rs = length kvs /\ kv_repr (written kvs rs m) e'.
Proof.
  rewrite kv_batch_put_ok. revert m e. induction kvs as [|[k v] kvs IH]; intros m e He; cbn [each]; [done|].
  pose proof (kv_put_ok m e k v He) as Hp. cbn [fst snd]. destruct (kv_put e k v) as [e1 [u|err]]; specialize (IH _ e1 Hp);
    destruct (each _ e1 kvs) as [e2 rs], IH as [Hl Hr]; cbn; split; (done || by rewrite Hl).
Qed.

Lemma batch_get_reads m e ks :
  kv_repr m e -> let '(e', rs) := kv_batch_get e ks in
  kv_repr m e' /\ Forall2 (fun k r => forall v, r = Ok v -> v = m !! k) ks rs.
Proof.
  rewrite kv_batch_get_ok. revert e. induction ks as [|k ks IH]; intros e He; cbn [each]; [by split|].
  pose proof (kv_get_ok m e k He) as Hg.
  destruct (kv_get e k) as [e1 r]. destruct Hg as [Hg Hv]. specialize (IH e1 Hg).
  destruct (each kv_get e1 ks) as [e2 rs], IH as [Hr HF]. split; [done | by constructor].
Qed.

(** The default [evict] reports what it does: nothing. *)
Lemma default_evict_reports m e n :
  kv_repr m e -> let '(e', r) := default_evict e n in kv_repr m e' /\ r = Ok 0.
Proof. done. Qed.
End contract.

(** ** A finite map as an engine *)

#[export] Instance map_engine : KvEngine kv_map := {|
  kv_get m k := (m, Ok (m !! k));
  kv_put m k v := (<[k := v]> m, Ok tt);
  kv_delete m k := (delete k m, Ok tt);
  kv_exists m k := (m, Ok (bool_decide (is_Some (m !! k))));
  kv_batch_get m ks := each (fun m k => (m, Ok (m !! k))) m ks;
  kv_batch_put m kvs := each (fun m kv => (<[kv.1 := kv.2]> m, Ok tt)) m kvs
|}.

#[export] Instance map_contract : KvContract kv_map.
Proof.
  refine (Build_KvContract kv_map map_engine (fun m e => e = m) _ _ _ _ _ _); try done.
  - intros m e k ->. cbn. split; [done|]. by intros v [= <-].
  - by intros m e k v ->.
  - by intros m e k ->.
  - intros m e k ->. cbn. split; [done|]. by intros b [= <-].
Defined.
