(* ===== verification/Client.v ===== *)
(** * Client: the read and write paths against local memory
    (src/client/read.rs, src/client/write.rs)

    [ClientReader::get] and [ClientWriter::insert] with their helpers, on a slice
    of buckets and an optional large object region.  A writer threads the pair
    of both through a state and error monad, so partial effects before an error
    are visible. *)

From S2P Require Import Prelude Layout Cuckoo Extent Errors.

Open Scope Z_scope.

(** ** Reads *)

Record ReadResult : Type := mkReadResult {
  rr_value : list Z;
  rr_mode : BucketMode
}.

#[export] Instance ReadResult_eq_dec : EqDecision ReadResult.
Proof. solve_decision. Defined.

Definition reader_try_read_bucket (key : HashedKey) (buckets : list HashBucket)
    (large_objects : option LargeObjectRegion) (idx : Z) : exec (option ReadResult) :=
  bucket ← vec_get buckets idx;
  if is_locked bucket then Done None
  else if is_tombstone bucket then Done None
  else if negb (matches_key bucket (hk_hash key) (hk_digest key)) then Done None
  else if is_inline bucket then Done (Some (mkReadResult (inline_value bucket) Inline))
  else
    let '(offset, _) := extent_ref bucket in
    match large_objects with
    | Some region =>
        data ← LargeObjectRegion_read region offset;
        match data with
        | Some data => Done (Some (mkReadResult data Extent))
        | None => Done None
        end
    | None => Done None
    end.

Definition ClientReader_get (key : HashedKey) (buckets : list HashBucket)
    (large_objects : option LargeObjectRegion) (bucket_count : Z)
  : exec (result (option ReadResult) RdmaError) :=
  if hk_hash key =? 0 then Done (Err RInvalidKey)
  else if negb (is_power_of_two bucket_count) then
    Done (Err (Internal ("bucket_count must be a power of 2, got " +:+ pretty bucket_count)))
  else
    let h1 := hk_hash key mod bucket_count in
    let h2 := Z.lor (Z.shiftr (hk_hash key) 32 mod bucket_count) 1 in
    if (len buckets <=? h1) || (len buckets <=? h2) then
      Done (Err (Internal ("computed bucket index out of bounds: h1=" +:+ pretty h1
        +:+ " h2=" +:+ pretty h2 +:+ " len=" +:+ pretty (len buckets))))
    else
      r ← reader_try_read_bucket key buckets large_objects h1;
      match r with
      | Some result => Done (Ok (Some result))
      | None =>
          r ← reader_try_read_bucket key buckets large_objects h2;
          match r with
          | Some result => Done (Ok (Some result))
          | None => Done (Ok None)
          end
      end.

(** ** Writes *)

Definition MAX_KICK : Z := 16.

Inductive WriteResult : Type :=
| Inserted (bucket_idx : Z)
| WTableFull.

#[export] Instance WriteResult_eq_dec : EqDecision WriteResult.
Proof. solve_decision. Defined.

Definition wstate : Type := list HashBucket * option LargeObjectRegion.

Local Open Scope rdmas_scope.

Definition get_bucket (idx : Z) : stM wstate RdmaError HashBucket :=
  let! s := st_get in st_lift (vec_get s.1 idx).

Definition put_bucket (idx : Z) (b : HashBucket) : stM wstate RdmaError unit :=
  fun s => match vec_set s.1 idx b with
           | Done bs => Done ((bs, s.2), Ok tt)
           | Panic => Panic
           end.

(** [region.allocate(value).ok_or_else(..)?] on the optional region. *)
Definition allocate_value (value : list Z) : stM wstate RdmaError Z :=
  fun s => match s.2 with
  | Some region =>
      match allocate region value with
      | Done (region, Some offset) => Done ((s.1, Some region), Ok offset)
      | Done (region, None) => Done ((s.1, Some region), Err (Internal "extent allocation failed"))
      | Panic => Panic
      end
  | None => Done (s, Err (Internal "Extent mode requires a LargeObjectRegion"))
  end.

Definition inline_bytes (value : list Z) : list Z :=
  let n := Z.min (len value) 32 in
  bwrite 0 (take (Z.to_nat n) value) (zeros 32).

Definition try_insert_at (key : HashedKey) (value : list Z) (mode : BucketMode) (idx : Z)
  : stM wstate RdmaError bool :=
  let! bucket := get_bucket idx in
  if is_locked bucket then st_ret false
  else if is_empty bucket || is_tombstone bucket then
    let new_bucket := mkBucket (shl64 (mode_u64 mode) 2) (hk_hash key) (hk_digest key) (zeros 32) in
    let! new_bucket := (match mode with
      | Inline => st_ret (set_inline_value new_bucket (inline_bytes value))
      | Extent =>
          let! offset := allocate_value value in
          st_ret (set_extent_ref new_bucket offset (len value))
      end) in
    put_bucket idx new_bucket ;;!
    st_ret true
  else st_ret false.

(** The key, digest and lock word are stored before the body is known; in Extent
    mode the old body stays when the allocation fails. *)
Definition write_to_bucket_internal (hash : Z) (digest value : list Z) (mode : BucketMode) (idx : Z)
  : stM wstate RdmaError unit :=
  let! old := get_bucket idx in
  let bucket := mkBucket (shl64 (mode_u64 mode) 2) hash digest (body old) in
  put_bucket idx bucket ;;!
  match mode with
  | Inline => put_bucket idx (set_inline_value bucket (inline_bytes value))
  | Extent =>
      let! offset := allocate_value value in
      put_bucket idx (set_extent_ref bucket offset (len value))
  end.

Fixpoint writer_kick_loop (kicks : nat) (bucket_count cur_hash : Z) (cur_digest cur_value : list Z)
    (cur_mode : BucketMode) (cur_idx : Z) : stM wstate RdmaError WriteResult :=
  match kicks with
  | O => st_ret WTableFull
  | S kicks =>
      let! occupant := get_bucket cur_idx in
      if is_locked occupant then st_ret WTableFull
      else
        let occ_hash := key_hash occupant in
        let occ_digest := key_or_digest occupant in
        let occ_mode := if is_extent occupant then Extent else Inline in
        if bool_decide (occ_mode = Extent) then st_ret WTableFull
        else
          let occ_value := inline_value occupant in
          write_to_bucket_internal cur_hash cur_digest cur_value cur_mode cur_idx ;;!
          let occ_h1 := occ_hash mod bucket_count in
          let occ_h2 := Z.lor (Z.shiftr occ_hash 32 mod bucket_count) 1 in
          let alt_idx := if cur_idx =? occ_h1 then occ_h2 else occ_h1 in
          let! alt := get_bucket alt_idx in
          if is_empty alt || is_tombstone alt then
            write_to_bucket_internal occ_hash occ_digest occ_value occ_mode alt_idx ;;!
            st_ret (Inserted alt_idx)
          else writer_kick_loop kicks bucket_count occ_hash occ_digest occ_value occ_mode alt_idx
  end.

Definition writer_kick_chain (start_hash : Z) (start_digest start_value : list Z)
    (start_mode : BucketMode) (bucket_count start_idx : Z) : stM wstate RdmaError WriteResult :=
  writer_kick_loop (Z.to_nat MAX_KICK) bucket_count start_hash start_digest start_value start_mode
    start_idx.

(** The remainder by a zero bucket count panics. *)
Definition ClientWriter_insert (key : HashedKey) (value : list Z) (mode : BucketMode)
    (bucket_count : Z) : stM wstate RdmaError WriteResult :=
  st_lift (exec_assert (negb (bucket_count =? 0))) ;;!
  let h1 := hk_hash key mod bucket_count in
  let h2 := Z.lor (Z.shiftr (hk_hash key) 32 mod bucket_count) 1 in
  let! ok := try_insert_at key value mode h1 in
  if (ok : bool) then st_ret (Inserted h1)
  else
    let! ok := try_insert_at key value mode h2 in
    if (ok : bool) then st_ret (Inserted h2)
    else writer_kick_chain (hk_hash key) (hk_digest key) value mode bucket_count h1.
