(* ===== verification/ClientProps.v ===== *)
(** * ClientProps: the client paths implement the map

    Reads see exactly the live entries, with extents resolved in the large
    object region; the writer's kick chain is the kick chain of the table; a
    stored extent is read back. *)

From S2P Require Import Prelude Layout Cuckoo CuckooSpec CuckooProps Extent ExtentSpec ExtentProps Errors Client.

Open Scope Z_scope.

(** ** Reads *)

Definition unlocked (bs : list HashBucket) : Prop := Forall (fun b => is_locked b = false) bs.

(** What a client reads for a stored value. *)
Definition client_view (lo : option LargeObjectRegion) (v : cval) : exec (option ReadResult) :=
  match v.2 with
  | Inline => Done (Some (mkReadResult v.1 Inline))
  | Extent =>
      match lo with
      | Some region =>
          data ← LargeObjectRegion_read region (from_le (bread 0 8 v.1));
          Done (option_map (fun d => mkReadResult d Extent) data)
      | None => Done None
      end
  end.

Section reads.
Implicit Types (t : CuckooTable) (key : HashedKey) (lo : option LargeObjectRegion).

Lemma reader_try_spec t key lo i b :
  vec_get (buckets t) i = Done b -> is_locked b = false ->
  reader_try_read_bucket key (buckets t) lo i
  = if live_match b (hk_hash key) (hk_digest key)
    then client_view lo (body b, bucket_mode b) else Done None.
Proof.
  intros Hg Hl. unfold reader_try_read_bucket. rewrite Hg, exec_bind_done, Hl.
  rewrite is_inline_negb. unfold live_match, client_view, bucket_mode, inline_value, extent_ref.
  destruct (is_tombstone b), (matches_key b (hk_hash key) (hk_digest key)), (is_extent b); cbn; try done.
  destruct lo as [r|]; [|done]. by destruct (LargeObjectRegion_read r _) as [[d|]|].
Qed.

Lemma client_get_spec t key lo :
  table_wf t -> hk_hash key <> 0 -> unlocked (buckets t) ->
  ClientReader_get key (buckets t) lo (bucket_count t)
  = match table_map t !! key_of key with
    | None => Done (Ok None)
    | Some v => r ← client_view lo v; Done (Ok r)
    end.
Proof.
  intros Hwf Hn Hu. destruct (two_slots t key Hwf Hn) as (b1 & b2 & Hg1 & Hg2 & M1 & M2 & M3).
  pose proof (h1_range t (hk_hash key) Hwf) as R1. pose proof (h2_range t (hk_hash key) Hwf) as R2.
  unfold ClientReader_get. rewrite (proj2 (Z.eqb_neq _ 0)) by done.
  rewrite (twf_pow2 _ Hwf). cbn [negb]. fold (h1 t (hk_hash key)) (h2 t (hk_hash key)).
  rewrite (proj2 (Z.leb_gt _ _)) by lia. rewrite (proj2 (Z.leb_gt _ _)) by lia. cbn [orb].
  pose proof (vec_get_inv _ _ _ Hg1) as [_ Hb1]. pose proof (vec_get_inv _ _ _ Hg2) as [_ Hb2].
  pose proof (Forall_lookup_1 _ _ _ _ Hu Hb1) as L1. pose proof (Forall_lookup_1 _ _ _ _ Hu Hb2) as L2.
  rewrite (reader_try_spec t key lo _ b1 Hg1 L1), (reader_try_spec t key lo _ b2 Hg2 L2).
  destruct (live_match b1 _ _) eqn:E1; destruct (live_match b2 _ _) eqn:E2.
  - rewrite M1 by done. assert (Hsame := M1 eq_refl). rewrite M2 in Hsame by done. injection Hsame as Ebd Emd.
    rewrite Ebd, Emd. by destruct (client_view lo _) as [[r|]|].
  - rewrite M1 by done. by destruct (client_view lo _) as [[r|]|].
  - rewrite M2 by done. cbn. by destruct (client_view lo _) as [[r|]|].
  - by rewrite M3.
Qed.
End reads.

(** ** Writes: the kick chain of the writer is the one of the table *)

Section writes.
Implicit Types (t : CuckooTable) (bs : list HashBucket).

(** Every bucket unlocked and Inline. *)
Definition inline_table (bs : list HashBucket) : Prop :=
  Forall (fun b => is_locked b = false /\ is_extent b = false) bs.

Lemma inline_bytes_pack v : inline_bytes v = pack_body v Inline.
Proof. reflexivity. Qed.

Lemma pack_body_full v : length v = 32%nat -> pack_body v Inline = v.
Proof.
  intros H. unfold pack_body. rewrite Z.min_r by (unfold len; lia).
  rewrite take_ge by lia. unfold bwrite. cbn [Z.to_nat take app]. rewrite drop_ge; [apply app_nil_r|].
  rewrite H. unfold zeros. rewrite length_replicate. lia.
Qed.

Lemma slot_bucket_inline h d bd :
  is_locked (slot_bucket h d bd Inline) = false /\ is_extent (slot_bucket h d bd Inline) = false.
Proof. split; vm_compute; reflexivity. Qed.

Lemma get_bucket_Done bs lo i b :
  vec_get bs i = Done b -> get_bucket i (bs, lo) = Done ((bs, lo), Ok b).
Proof. intros H. unfold get_bucket, st_bind, st_get, st_lift. cbn [fst]. by rewrite H. Qed.

Lemma put_bucket_Done bs lo i b :
  0 <= i < len bs -> put_bucket i b (bs, lo) = Done ((<[Z.to_nat i := b]> bs, lo), Ok tt).
Proof. intros H. unfold put_bucket. cbn [fst snd]. by rewrite vec_set_Done. Qed.

(** The writer's bucket store in Inline mode is [write_slot]. *)
Lemma writer_store_inline t lo h d v i b0 :
  vec_get (buckets t) i = Done b0 ->
  exists t', write_slot t i h d (pack_body v Inline) Inline = Done t'
    /\ write_to_bucket_internal h d v Inline i (buckets t, lo) = Done ((buckets t', lo), Ok tt)
    /\ buckets t' = <[Z.to_nat i := slot_bucket h d (pack_body v Inline) Inline]> (buckets t)
    /\ bucket_count t' = bucket_count t /\ max_kick t' = max_kick t.
Proof.
  intros Hg. pose proof (vec_get_inv _ _ _ Hg) as [Hi Hb].
  assert (Hlt : 0 <= i < len (buckets t)) by (apply lookup_lt_Some in Hb; unfold len; lia).
  unfold write_slot. rewrite vec_set_Done, exec_bind_done by done. eexists. split; [reflexivity|].
  assert (Hget : get_bucket i (buckets t, lo) = Done ((buckets t, lo), Ok b0))
    by (by apply get_bucket_Done).
  unfold write_to_bucket_internal, st_bind. rewrite Hget.
  rewrite put_bucket_Done by done. cbn [set_buckets buckets].
  rewrite put_bucket_Done by (unfold len in *; rewrite length_insert; lia).
  rewrite list_insert_insert_eq. split_and!; done.
Qed.

Lemma get_bucket_Panic bs lo i : vec_get bs i = Panic -> get_bucket i (bs, lo) = Panic.
Proof. intros H. unfold get_bucket, st_bind, st_get, st_lift. cbn [fst]. by rewrite H. Qed.

Lemma bucket_mode_inline b : is_extent b = false -> (if is_extent b then Extent else Inline) = Inline.
Proof. by intros ->. Qed.

Definition inline_bodies (bs : list HashBucket) : Prop :=
  inline_table bs /\ Forall (fun b => length (body b) = 32%nat) bs.

Lemma inline_bodies_insert bs i h d v :
  inline_bodies bs -> length v = 32%nat -> inline_bodies (<[i := slot_bucket h d v Inline]> bs).
Proof.
  intros [H1 H2] Hv. split; apply Forall_insert; [done | apply slot_bucket_inline | done | done].
Qed.

(** What the writer answers for an outcome of the table's kick chain. *)
Definition writer_outcome (lo : option LargeObjectRegion)
    (e : exec (CuckooTable * result unit CuckooError))
    (w : exec (wstate * result WriteResult RdmaError)) : Prop :=
  match e with
  | Panic => w = Panic
  | Done (t', Ok _) => exists i, w = Done ((buckets t', lo), Ok (Inserted i))
  | Done (t', Err _) => w = Done ((buckets t', lo), Ok WTableFull)
  end.

Lemma writer_kick_loop_equiv kicks t lo idx h d v :
  inline_bodies (buckets t) -> (length (pack_body v Inline) = 32)%nat ->
  writer_outcome lo (kick_chain_loop kicks t idx h d (pack_body v Inline) Inline)
    (writer_kick_loop kicks (bucket_count t) h d v Inline idx (buckets t, lo)).
Proof.
  revert t idx h d v. induction kicks as [|kicks IH]; intros t idx h d v Hbs Hv; [done|].
  cbn [kick_chain_loop writer_kick_loop].
  destruct (vec_get (buckets t) idx) as [b|] eqn:Hg; last first.
  { cbn. unfold st_bind. by rewrite get_bucket_Panic. }
  pose proof (vec_get_inv _ _ _ Hg) as [Hi Hb].
  destruct (Forall_lookup_1 _ _ _ _ (proj1 Hbs) Hb) as [Hl He].
  pose proof (Forall_lookup_1 _ _ _ _ (proj2 Hbs) Hb) as Hlen.
  unfold st_bind at 1. rewrite (get_bucket_Done _ _ _ _ Hg). cbv beta iota zeta.
  rewrite Hl, exec_bind_done, He. cbn iota. rewrite bool_decide_eq_false_2 by done.
  destruct (writer_store_inline t lo h d v idx b Hg) as (t1 & Hw & Hs & Hbs1 & Hbc & _).
  rewrite Hw, exec_bind_done.
  unfold st_bind at 1. rewrite Hs. unfold h1, h2. rewrite Hbc.
  set (alt := if idx =? _ then _ else _).
  assert (Hbs1' : inline_bodies (buckets t1)) by (rewrite Hbs1; apply inline_bodies_insert; done).
  destruct (vec_get (buckets t1) alt) as [ba|] eqn:Hga; last first.
  { cbn. unfold st_bind. by rewrite get_bucket_Panic. }
  unfold st_bind at 1. rewrite (get_bucket_Done _ _ _ _ Hga), exec_bind_done. cbv beta iota.
  fold (is_free_slot ba). destruct (is_free_slot ba).
  - destruct (writer_store_inline t1 lo (key_hash b) (key_or_digest b) (body b) alt ba Hga)
      as (t2 & Hw2 & Hs2 & _). rewrite pack_body_full in Hw2 by done.
    rewrite Hw2, exec_bind_done. unfold st_bind, inline_value. rewrite Hs2. by exists alt.
  - pose proof (IH t1 alt (key_hash b) (key_or_digest b) (body b) Hbs1') as H.
    rewrite pack_body_full, Hbc in H by done. by apply H.
Qed.

(** Direct placement. *)
Lemma try_insert_at_inline t lo key v i b :
  vec_get (buckets t) i = Done b -> is_locked b = false ->
  if is_free_slot b
  then exists t', write_slot t i (hk_hash key) (hk_digest key) (pack_body v Inline) Inline = Done t'
       /\ try_insert_at key v Inline i (buckets t, lo) = Done ((buckets t', lo), Ok true)
  else try_insert_at key v Inline i (buckets t, lo) = Done ((buckets t, lo), Ok false).
Proof.
  intros Hg Hl. unfold try_insert_at, st_bind. rewrite (get_bucket_Done _ _ _ _ Hg), Hl.
  fold (is_free_slot b). destruct (is_free_slot b); [|done].
  pose proof (vec_get_inv _ _ _ Hg) as [Hi Hb].
  assert (Hlt : 0 <= i < len (buckets t)) by (apply lookup_lt_Some in Hb; unfold len; lia).
  unfold write_slot. rewrite vec_set_Done, exec_bind_done by done. eexists. split; [reflexivity|].
  cbn [st_ret]. rewrite put_bucket_Done by done. reflexivity.
Qed.
(** The whole insertion of an absent key. *)
Lemma writer_insert_equiv t lo key value :
  table_wf t -> max_kick t = MAX_KICK -> inline_bodies (buckets t) ->
  key_wf key -> hk_hash key <> 0 -> Forall is_u8 value -> table_map t !! key_of key = None ->
  writer_outcome lo (CuckooTable_insert t key value Inline)
    (ClientWriter_insert key value Inline (bucket_count t) (buckets t, lo)).
Proof.
  intros Hwf Hk Hbs Hkey Hn Hv Habs.
  destruct (two_slots t key Hwf Hn) as (b1 & b2 & Hg1 & Hg2 & M1 & M2 & _).
  assert (E1 : live_match b1 (hk_hash key) (hk_digest key) = false)
    by (destruct (live_match b1 _ _); [by rewrite M1 in Habs | done]).
  assert (E2 : live_match b2 (hk_hash key) (hk_digest key) = false)
    by (destruct (live_match b2 _ _); [by rewrite M2 in Habs | done]).
  pose proof (vec_get_inv _ _ _ Hg1) as [_ Hb1]. pose proof (vec_get_inv _ _ _ Hg2) as [_ Hb2].
  destruct (Forall_lookup_1 _ _ _ _ (proj1 Hbs) Hb1) as [L1 _].
  destruct (Forall_lookup_1 _ _ _ _ (proj1 Hbs) Hb2) as [L2 _].
  pose proof (is_power_of_two_pos _ (twf_pow2 _ Hwf)) as Hpos.
  unfold CuckooTable_insert, ClientWriter_insert. rewrite !(proj2 (Z.eqb_neq _ 0)) by (done || lia).
  unfold insert_raw. cbv zeta. fold (h1 t (hk_hash key)) (h2 t (hk_hash key)).
  cbn [first_slot negb exec_assert]. rewrite Hg1, Hg2, !exec_bind_done, E1, E2. cbn iota.
  rewrite exec_bind_done. unfold st_bind at 1. cbn [st_lift].
  pose proof (try_insert_at_inline t lo key value _ b1 Hg1 L1) as T1.
  pose proof (try_insert_at_inline t lo key value _ b2 Hg2 L2) as T2.
  unfold st_bind at 1. destruct (is_free_slot b1).
  { destruct T1 as (t' & Hw & ->). rewrite exec_bind_done. cbn iota. rewrite Hw, exec_bind_done.
    by eexists. }
  rewrite T1. unfold st_bind at 1. destruct (is_free_slot b2).
  { destruct T2 as (t' & Hw & ->). rewrite exec_bind_done. cbn iota. rewrite Hw, exec_bind_done.
    by eexists. }
  rewrite T2, exec_bind_done. unfold kick_chain. rewrite Hk. apply writer_kick_loop_equiv; [done|].
  by apply pack_body_bytes.
Qed.

(** Direct placement of an extent in a free slot. *)
Lemma try_insert_at_extent t m r key v i b :
  table_wf t -> region_inv m r -> data_ok v -> key_wf key -> hk_hash key <> 0 ->
  table_map t !! key_of key = None -> home t i (hk_hash key) ->
  vec_get (buckets t) i = Done b -> is_locked b = false -> is_free_slot b = true ->
  (exists t' r' o, try_insert_at key v Extent i (buckets t, Some r)
       = Done ((buckets t', Some r'), Ok true)
     /\ table_wf t' /\ same_shape t t' /\ m !! o = None
     /\ region_inv (<[o := new_extent 0 v]> m) r'
     /\ buckets t' = <[Z.to_nat i := slot_bucket (hk_hash key) (hk_digest key)
                                      (extent_body o (len v)) Extent]> (buckets t)
     /\ table_map t' = <[key_of key := (extent_body o (len v), Extent)]> (table_map t))
  \/ (try_insert_at key v Extent i (buckets t, Some r)
       = Done ((buckets t, Some r), Err (Internal "extent allocation failed"))
     /\ no_room r (extent_total (len v))).
Proof.
  intros Hwf Hinv Hd Hkey Hn Habs Hh Hg Hl Hf. pose proof (vec_get_inv _ _ _ Hg) as [Hi Hb].
  pose proof (home_range _ _ _ Hwf Hh) as Hr.
  unfold try_insert_at, st_bind. rewrite (get_bucket_Done _ _ _ _ Hg), Hl.
  fold (is_free_slot b). rewrite Hf. unfold allocate_value. cbn [fst snd].
  destruct (allocate_spec m r v Hinv Hd) as (r' & res & -> & Hres). destruct res as [o|].
  - left. destruct Hres as [Hfresh Hinv']. cbn [st_ret].
    rewrite put_bucket_Done by done.
    assert (He : entry_wf (hk_hash key) (hk_digest key) (extent_body o (len v)))
      by (apply key_entry_wf; [done | done | apply extent_body_bytes]).
    destruct (write_slot_spec t i _ _ _ Extent b Hwf He Hh Hb) as (t' & _ & Hwf' & Hs & Hbs & Hmap).
    { by rewrite free_entry. }
    rewrite free_entry in Hmap by done. exists t', r', o. rewrite Hbs. split_and!; try done; apply Hs.
  - right. destruct Hres as [-> Hno]. done.
Qed.

Lemma try_insert_at_occupied key v mode i b bs lo :
  vec_get bs i = Done b -> is_locked b = false -> is_free_slot b = false ->
  try_insert_at key v mode i (bs, lo) = Done ((bs, lo), Ok false).
Proof.
  intros Hg Hl Hf. unfold try_insert_at, st_bind. rewrite (get_bucket_Done _ _ _ _ Hg), Hl.
  fold (is_free_slot b). by rewrite Hf.
Qed.

(** Reading back an extent that was just placed. *)
Lemma get_placed_extent t t' m r' key v o i :
  unlocked (buckets t) -> hk_hash key <> 0 -> data_ok v -> table_wf t' ->
  region_inv (<[o := new_extent 0 v]> m) r' ->
  buckets t' = <[i := slot_bucket (hk_hash key) (hk_digest key) (extent_body o (len v)) Extent]> (buckets t) ->
  table_map t' !! key_of key = Some (extent_body o (len v), Extent) ->
  ClientReader_get key (buckets t') (Some r') (bucket_count t')
  = Done (Ok (Some (mkReadResult v Extent))).
Proof.
  intros Hu Hn [Hd _] Hwf' Hinv' Hbs Hmap.
  destruct (region_ext_room _ _ _ _ Hinv' (lookup_insert_eq _ _ _)) as (Hx & _ & Ho & Hin & Hmax).
  pose proof (len_nonneg v). pose proof (footprint_bounds _ Hx) as Hfp.
  assert (Hou : is_u64 o) by (unfold is_u64, MAX_ALLOC in *; cbn [xt_data new_extent ext_header_len ext_is_v2 xt_format] in Hfp; lia).
  assert (Hlu : is_u64 (len v)) by (unfold is_u64; lia).
  assert (Hu' : unlocked (buckets t')).
  { rewrite Hbs. apply Forall_insert; [done|].
    exact (f_equal lv_locked (slot_bucket_view (hk_hash key) (hk_digest key) (extent_body o (len v)) Extent)). }
  rewrite client_get_spec, Hmap by done. unfold client_view. cbn [fst snd].
  assert (Hoff : from_le (bread 0 8 (extent_body o (len v))) = o)
    by exact (f_equal lr_extent_offset (extent_body_result o (len v) Hou Hlu)).
  rewrite Hoff, (read_spec _ _ _ _ Hinv' (lookup_insert_eq _ _ _)). reflexivity.
Qed.
End writes.

(** A put of a large value: the value is in a fresh extent, the pointer in the
    table, and a read returns it; or there was no room and nothing changed. *)
Definition put_outcome (t : CuckooTable) (m : gmap Z extent) (r : LargeObjectRegion) (key : HashedKey)
    (value : list Z) (s' : wstate) (res : result WriteResult RdmaError) : Prop :=
  match res with
  | Ok (Inserted _) => exists bs' r' o, s' = (bs', Some r') /\ m !! o = None
      /\ region_inv (<[o := new_extent 0 value]> m) r'
      /\ table_map (set_buckets t bs') = <[key_of key := (extent_body o (len value), Extent)]> (table_map t)
      /\ ClientReader_get key bs' (Some r') (bucket_count t)
         = Done (Ok (Some (mkReadResult value Extent)))
  | Ok WTableFull => False
  | Err e => e = Internal "extent allocation failed" /\ s' = (buckets t, Some r)
      /\ no_room r (extent_total (len value))
  end.

(** ** Properties *)

(** A client read returns exactly what the table's map holds for the key:
    nothing for an absent or deleted key, the body for an Inline entry, and the
    bytes of the referenced extent for an Extent entry (nothing when the region
    is missing or the extent is not readable). *)
Theorem client_get_refines t key lo :
  table_wf t -> hk_hash key <> 0 -> unlocked (buckets t) ->
  ClientReader_get key (buckets t) lo (bucket_count t)
  = match table_map t !! key_of key with
    | None => Done (Ok None)
    | Some v => r ← client_view lo v; Done (Ok r)
    end.
Proof. apply client_get_spec. Qed.

(** C24. The client writer mirrors the table: on a table of unlocked Inline
    buckets, inserting an absent key Inline leaves exactly the buckets that
    [CuckooTable::insert] with the same kick limit leaves, and answers
    [Inserted] or [TableFull] accordingly (and panics only if the table does).  For
    a key that is present they differ ([writer_duplicates_key]). *)
Theorem client_insert_mirrors_cuckoo t lo key value :
  table_wf t -> max_kick t = MAX_KICK -> inline_bodies (buckets t) ->
  key_wf key -> hk_hash key <> 0 -> Forall is_u8 value -> table_map t !! key_of key = None ->
  writer_outcome lo (CuckooTable_insert t key value Inline)
    (ClientWriter_insert key value Inline (bucket_count t) (buckets t, lo)).
Proof. apply writer_insert_equiv. Qed.

Lemma client_insert_mirrors_cuckoo_witness :
  writer_outcome None (CuckooTable_insert sample_table (sample_key 6) [9] Inline)
    (ClientWriter_insert (sample_key 6) [9] Inline 2 (buckets sample_table, None)).
Proof.
  apply (client_insert_mirrors_cuckoo sample_table None (sample_key 6) [9]).
  - apply sample_table_wf.
  - reflexivity.
  - split; repeat constructor.
  - apply sample_key_wf. unfold is_u64. lia.
  - cbn. lia.
  - repeat constructor; unfold is_u8; lia.
  - vm_compute. reflexivity.
Defined.

(** C9. Put and get of a large value: inserting an absent key in Extent mode,
    with a free slot among its two and no lock held, either stores the value in a
    fresh extent and the pointer in the table, after which a client read returns
    the value, or reports that the region has no room and changes neither.  A key
    that is present is stored a second time and read with its old value
    ([writer_duplicates_key]). *)
Theorem client_put_get_extent t m r key value b :
  table_wf t -> region_inv m r -> data_ok value -> key_wf key -> hk_hash key <> 0 ->
  table_map t !! key_of key = None -> unlocked (buckets t) ->
  (vec_get (buckets t) (h1 t (hk_hash key)) = Done b \/ vec_get (buckets t) (h2 t (hk_hash key)) = Done b) ->
  is_free_slot b = true ->
  exists s' res, ClientWriter_insert key value Extent (bucket_count t) (buckets t, Some r) = Done (s', res)
    /\ put_outcome t m r key value s' res.
Proof.
  intros Hwf Hinv Hd Hkey Hn Habs Hu Hgb Hfree.
  destruct (bucket_at t _ Hwf (h1_range t (hk_hash key) Hwf)) as (b1 & Hg1 & Hb1 & _).
  destruct (bucket_at t _ Hwf (h2_range t (hk_hash key) Hwf)) as (b2 & Hg2 & Hb2 & _).
  pose proof (Forall_lookup_1 _ _ _ _ Hu Hb1) as L1. pose proof (Forall_lookup_1 _ _ _ _ Hu Hb2) as L2.
  pose proof (is_power_of_two_pos _ (twf_pow2 _ Hwf)) as Hpos.
  unfold ClientWriter_insert. rewrite (proj2 (Z.eqb_neq _ 0)) by lia.
  fold (h1 t (hk_hash key)) (h2 t (hk_hash key)). unfold st_bind at 1. cbn [st_lift exec_assert negb].
  assert (Hplace : forall i bi, home t i (hk_hash key) -> vec_get (buckets t) i = Done bi ->
    is_locked bi = false -> is_free_slot bi = true ->
    forall k, exists s' res, st_bind (try_insert_at key value Extent i)
        (fun ok : bool => if ok then st_ret (Inserted i) else k) (buckets t, Some r) = Done (s', res)
    /\ put_outcome t m r key value s' res).
  { intros i bi Hh Hg Hl Hf k. unfold st_bind.
    destruct (try_insert_at_extent t m r key value i bi) as
      [(t' & r' & o & -> & Hwf' & [Hbc _] & Hfresh & Hinv' & Hbs & Hmap)|[-> Hno]]; try done.
    - do 2 eexists. split; [reflexivity|]. exists (buckets t'), r', o. split_and!; try done.
      rewrite <- Hbc. eapply get_placed_extent; try done. rewrite Hmap. apply lookup_insert_eq.
    - do 2 eexists. split; [reflexivity|]. done. }
  destruct (is_free_slot b1) eqn:F1; [apply (Hplace _ b1); [by left | done..]|].
  unfold st_bind at 1. rewrite (try_insert_at_occupied _ _ _ _ b1) by done.
  apply (Hplace _ b2); [by right | done | done |].
  destruct Hgb as [Hgb|Hgb]; [rewrite Hgb in Hg1 | rewrite Hgb in Hg2]; congruence.
Qed.

Lemma client_put_get_extent_witness :
  exists s' res, ClientWriter_insert (sample_key 6) [1; 2; 3] Extent 2 (buckets sample_table, Some sample_region)
    = Done (s', res) /\ put_outcome sample_table ∅ sample_region (sample_key 6) [1; 2; 3] s' res.
Proof.
  apply (client_put_get_extent sample_table ∅ sample_region (sample_key 6) [1; 2; 3] HashBucket_zeroed).
  - apply sample_table_wf.
  - apply sample_region_inv.
  - apply sample_data_ok.
  - apply sample_key_wf. unfold is_u64. lia.
  - cbn. lia.
  - vm_compute. reflexivity.
  - repeat constructor; vm_compute; reflexivity.
  - right. vm_compute. reflexivity.
  - vm_compute. reflexivity.
Defined.

(** Two stored keys that fill both slots of a third one; the first of them has
    its other slot free. *)
Definition crowded : wstate :=
  ([slot_bucket (4 + 2 * 2 ^ 32) (zeros 16) (zeros 32) Inline;
    slot_bucket 1 (zeros 16) (zeros 32) Inline; HashBucket_zeroed; HashBucket_zeroed],
   Some (LargeObjectRegion_new 16)).

(** What an insertion of the third key answers, and where each of the keys is
    found afterwards. *)
Definition crowded_insert (mode : BucketMode)
  : exec (result WriteResult RdmaError * (bool * bool) * list Z) :=
  '(s, res) ← ClientWriter_insert (sample_key 8) [7] mode 4 crowded;
  a ← ClientReader_get (sample_key (4 + 2 * 2 ^ 32)) s.1 s.2 4;
  c ← ClientReader_get (sample_key 8) s.1 s.2 4;
  Done (res, (bool_decide (a = Ok None), bool_decide (c = Ok None)), key_hash <$> s.1).

(** Two properties of the writer's kick chain that its contract does not
    state: the index it reports is the slot of the displaced key, not of the
    inserted one; and when the new value needs an extent and the region is full,
    the displaced key has already been overwritten and is lost although the call
    fails. *)
Theorem writer_kick_hazards :
  crowded_insert Inline = Done (Ok (Inserted 3), (false, false), [8; 1; 0; 4 + 2 * 2 ^ 32])
  /\ crowded_insert Extent
     = Done (Err (Internal "extent allocation failed"), (true, true), [8; 1; 0; 0]).
Proof. split; vm_compute; reflexivity. Qed.

(** The writer looks for a free slot only: a key that is present is stored a second
    time, in its other slot, and reads return the old value; the table's own
    insertion overwrites it. *)
Example writer_duplicates_key :
  exists t bs, CuckooTable_insert (mkTable (replicate 2 HashBucket_zeroed) 2 16) (sample_key 6) [1] Inline = Done (t, Ok tt)
    /\ ClientWriter_insert (sample_key 6) [2] Inline 2 (buckets t, None) = Done ((bs, None), Ok (Inserted 1))
    /\ ((fun b => matches_key b 6 (hk_digest (sample_key 6))) <$> bs) = [true; true]
    /\ ClientReader_get (sample_key 6) bs None 2 = Done (Ok (Some (mkReadResult (1 :: zeros 31) Inline)))
    /\ exists t', CuckooTable_insert t (sample_key 6) [2] Inline = Done (t', Ok tt)
         /\ ClientReader_get (sample_key 6) (buckets t') None 2 = Done (Ok (Some (mkReadResult (2 :: zeros 31) Inline))).
Proof.
  do 2 eexists. split; [vm_compute; reflexivity|]. split; [vm_compute; reflexivity|].
  split; [vm_compute; reflexivity|]. split; [vm_compute; reflexivity|].
  eexists. split; vm_compute; reflexivity.
Qed.
