(* ===== verification/Batch.v ===== *)
(** * Batch: batched writes and the fast read (src/client/opt.rs)

    [BatchBuilder] flushing through [ClientWriter::insert], and the read wrapper.
    The theorem: a flush is the sequence of table insertions, and its result
    counts the successful ones.  [PerfStats] is in [Watermark]. *)

From S2P Require Import Prelude Layout Cuckoo CuckooSpec CuckooProps Extent Errors Client ClientProps.

Open Scope Z_scope.

(** [OptimizedClientReader::get_fast]: [ok().flatten().map(..)]. *)
Definition optimized_get_fast (key : HashedKey) (buckets : list HashBucket)
    (large_objects : option LargeObjectRegion) (bucket_count : Z)
  : exec (option (list Z * BucketMode)) :=
  r ← ClientReader_get key buckets large_objects bucket_count;
  Done (match r with
        | Ok (Some r) => Some (rr_value r, rr_mode r)
        | _ => None
        end).

Definition batch_entry : Type := HashedKey * list Z * BucketMode.

Record BatchBuilder : Type := mkBatch {
  bb_pending : list batch_entry;
  max_batch : Z
}.

Definition BatchBuilder_new (max_batch : Z) : BatchBuilder := mkBatch [] max_batch.
Definition batch_add (b : BatchBuilder) (key : HashedKey) (value : list Z) (mode : BucketMode)
  : BatchBuilder := mkBatch (bb_pending b ++ [(key, value, mode)]) (max_batch b).
Definition batch_is_full (b : BatchBuilder) : bool := max_batch b <=? len (bb_pending b).
Definition batch_len (b : BatchBuilder) : Z := len (bb_pending b).
Definition batch_is_empty (b : BatchBuilder) : bool := bool_decide (bb_pending b = []).

(** [for (key, value, mode) in self.pending.drain(..)]. *)
Fixpoint flush_entries (pending : list batch_entry) (bucket_count : Z) (s : wstate) (success : Z)
  : exec (wstate * Z) :=
  match pending with
  | [] => Done (s, success)
  | (key, value, mode) :: pending =>
      '(s, result) ← ClientWriter_insert key value mode bucket_count s;
      let success := match result with Ok (Inserted _) => u64 (success + 1) | _ => success end in
      flush_entries pending bucket_count s success
  end.

Definition flush_local (b : BatchBuilder) (s : wstate) (bucket_count : Z)
  : exec (BatchBuilder * wstate * Z) :=
  '(s, success) ← flush_entries (bb_pending b) bucket_count s 0;
  Done (mkBatch [] (max_batch b), s, success).

(** ** Insertions keep the table Inline *)

Section inline.
Implicit Types (t : CuckooTable).

Lemma write_slot_inline t i h d bd t' :
  inline_bodies (buckets t) -> length bd = 32%nat -> write_slot t i h d bd Inline = Done t' ->
  inline_bodies (buckets t').
Proof.
  intros Hi Hb E. apply exec_bind_Done_inv in E as (bs & E & [= <-]). cbn [buckets set_buckets].
  unfold vec_set in E. destruct (_ && _); [|done]. injection E as <-. by apply inline_bodies_insert.
Qed.

Lemma inline_bodies_at t i b :
  inline_bodies (buckets t) -> vec_get (buckets t) i = Done b ->
  is_extent b = false /\ length (body b) = 32%nat.
Proof.
  intros [H1 H2] [_ Hb]%vec_get_inv. split; [|by eapply (Forall_lookup_1 _ _ _ _ H2)].
  by apply (Forall_lookup_1 _ _ _ _ H1 Hb).
Qed.

Lemma kick_chain_inline kicks t idx h d bd t' r :
  inline_bodies (buckets t) -> length bd = 32%nat ->
  kick_chain_loop kicks t idx h d bd Inline = Done (t', r) -> inline_bodies (buckets t').
Proof.
  revert t idx h d bd. induction kicks as [|kicks IH]; intros t idx h d bd Hi Hb E.
  { by injection E as <- _. }
  cbn [kick_chain_loop] in E. apply exec_bind_Done_inv in E as (b & Hg & E).
  destruct (inline_bodies_at _ _ _ Hi Hg) as [He Hlen]. rewrite He in E.
  apply exec_bind_Done_inv in E as (t1 & Hw & E). apply exec_bind_Done_inv in E as (alt & Ha & E).
  pose proof (write_slot_inline _ _ _ _ _ _ Hi Hb Hw) as Hi1. destruct (is_free_slot alt).
  - apply exec_bind_Done_inv in E as (t2 & Hw2 & [= <- _]). by eapply write_slot_inline.
  - by eapply IH.
Qed.

Lemma insert_inline t key value t' r :
  table_wf t -> Forall is_u8 value ->
  inline_bodies (buckets t) -> CuckooTable_insert t key value Inline = Done (t', r) ->
  inline_bodies (buckets t').
Proof.
  intros Hwf Hv Hi E. assert (Hb : length (pack_body value Inline) = 32%nat) by (by apply pack_body_bytes).
  unfold CuckooTable_insert in E. destruct (hk_hash key =? 0); [by injection E as <- _|].
  unfold insert_raw in E. apply exec_bind_Done_inv in E as ([i|] & _ & E).
  { apply exec_bind_Done_inv in E as (t1 & Hw & [= <- _]). by eapply write_slot_inline. }
  apply exec_bind_Done_inv in E as ([i|] & _ & E).
  { apply exec_bind_Done_inv in E as (t1 & Hw & [= <- _]). by eapply write_slot_inline. }
  by eapply kick_chain_inline.
Qed.
End inline.

(** ** A flush is a sequence of insertions *)

Definition entry_ok (e : batch_entry) : Prop :=
  key_wf e.1.1 /\ hk_hash e.1.1 <> 0 /\ Forall is_u8 e.1.2 /\ e.2 = Inline.

Definition entry_op (e : batch_entry) : cuckoo_op := CInsert e.1.1 e.1.2 e.2.

Definition is_inserted (o : cuckoo_out) : bool :=
  match o with RInsert (Ok _) => true | _ => false end.
Definition inserted_count (outs : list cuckoo_out) : Z :=
  len (filter (fun o => is_inserted o = true) outs).

Lemma flush_entries_spec es t lo success :
  table_wf t -> max_kick t = MAX_KICK -> inline_bodies (buckets t) ->
  Forall entry_ok es -> NoDup (key_of ∘ fst ∘ fst <$> es) ->
  Forall (fun e => table_map t !! key_of e.1.1 = None) es ->
  0 <= success -> success + len es < 2 ^ 64 ->
  exists t' outs, cuckoo_trace t (entry_op <$> es) = Done (t', outs) /\ table_wf t'
    /\ flush_entries es (bucket_count t) (buckets t, lo) success
       = Done ((buckets t', lo), success + inserted_count outs).
Proof.
  revert t success. induction es as [|[[key value] mode] es IH]; intros t success Hwf Hk Hi Hes Hnd Habs H0 Hl.
  { exists t, []. unfold inserted_count, len. cbn. by rewrite Z.add_0_r. }
  apply Forall_cons in Hes as [(Hkw & Hn & Hv & Hm) Hes]. apply Forall_cons in Habs as [Ha Habs].
  cbn [fst snd] in *. subst mode. rewrite fmap_cons in Hnd. apply NoDup_cons in Hnd as [Hnin Hnd].
  unfold len in Hl. cbn [length] in Hl.
  destruct (insert_spec t key value Inline Hwf Hkw Hv Hn) as ([t1 r] & E1 & Hwf1 & [Hbc Hmk] & Hr).
  pose proof (insert_inline _ _ _ _ _ Hwf Hv Hi E1) as Hi1.
  pose proof (writer_insert_equiv t lo key value Hwf Hk Hi Hkw Hn Hv Ha) as Hw. rewrite E1 in Hw.
  cbn [fst snd] in *.
  assert (Habs1 : Forall (fun e : batch_entry => table_map t1 !! key_of e.1.1 = None) es).
  { rewrite Forall_forall in Habs |- *. intros e He.
    assert (key_of key <> key_of e.1.1) by (intros Ek; apply Hnin, list_elem_of_fmap; by exists e).
    destruct r as [u|[]]; [| |done].
    - rewrite Hr, lookup_insert_ne by done. by apply Habs.
    - destruct Hr as (k & v & _ & ->). rewrite lookup_delete_None. right.
      rewrite lookup_insert_ne by done. by apply Habs. }
  cbn [flush_entries fmap list_fmap cuckoo_trace entry_op fst snd cuckoo_run]. rewrite E1, !exec_bind_done.
  set (success' := match r with Ok _ => success + 1 | Err _ => success end).
  assert (Hsucc : success <= success' <= success + 1) by (subst success'; destruct r; lia).
  destruct (IH t1 success') as (t2 & outs & E2 & Hwf2 & Hf);
    [done | congruence | done | done | done | done | lia | unfold len; lia|].
  rewrite E2, exec_bind_done. do 2 eexists. split_and!; [done | done |]. rewrite Hbc in Hf.
  destruct r as [u|e]; subst success'.
  - destruct Hw as (i & ->). rewrite exec_bind_done. cbv beta iota zeta.
    rewrite u64_small by (unfold is_u64; lia). rewrite Hf. do 2 f_equal.
    unfold inserted_count. rewrite filter_cons_True by done. unfold len. cbn [length]. lia.
  - rewrite Hw, exec_bind_done. by rewrite Hf.
Qed.

(** ** Properties *)

(** C35. On a table of unlocked Inline buckets, flushing a batch of distinct Inline
    keys that are all absent leaves exactly the buckets that inserting them one
    after the other with [CuckooTable::insert] leaves, returns the number of
    insertions that succeeded, and empties the batch.  A key that is present or
    repeated is duplicated ([batch_duplicates_key]). *)
Theorem batch_flush_refines b t lo :
  table_wf t -> max_kick t = MAX_KICK -> inline_bodies (buckets t) ->
  Forall entry_ok (bb_pending b) -> NoDup (key_of ∘ fst ∘ fst <$> bb_pending b) ->
  Forall (fun e => table_map t !! key_of e.1.1 = None) (bb_pending b) ->
  batch_len b < 2 ^ 64 ->
  exists t' outs, cuckoo_trace t (entry_op <$> bb_pending b) = Done (t', outs)
    /\ flush_local b (buckets t, lo) (bucket_count t)
       = Done (BatchBuilder_new (max_batch b), (buckets t', lo), inserted_count outs).
Proof.
  intros Hwf Hk Hi Hes Hnd Habs Hl.
  destruct (flush_entries_spec (bb_pending b) t lo 0) as (t' & outs & E & _ & Hf); try done.
  exists t', outs. split; [done|]. unfold flush_local. rewrite Hf, exec_bind_done. done.
Qed.

Lemma batch_flush_refines_witness :
  exists t' outs, cuckoo_trace sample_table [CInsert (sample_key 6) [9] Inline; CInsert (sample_key 8) [7] Inline]
      = Done (t', outs)
    /\ flush_local (batch_add (batch_add (BatchBuilder_new 4) (sample_key 6) [9] Inline) (sample_key 8) [7] Inline)
         (buckets sample_table, None) 2
       = Done (BatchBuilder_new 4, (buckets t', None), inserted_count outs).
Proof.
  apply (batch_flush_refines
    (batch_add (batch_add (BatchBuilder_new 4) (sample_key 6) [9] Inline) (sample_key 8) [7] Inline)
    sample_table None).
  - apply sample_table_wf.
  - reflexivity.
  - split; repeat constructor.
  - repeat constructor; try done; unfold is_u64, is_u8; lia.
  - vm_compute. apply NoDup_cons. split; [|apply NoDup_singleton]. rewrite list_elem_of_singleton. done.
  - repeat constructor.
  - by vm_compute.
Defined.

(** A batch with a key twice fills both of its slots and counts two successes; a
    read returns the first value, the last of two table insertions the second. *)
Example batch_duplicates_key :
  let b := batch_add (batch_add (BatchBuilder_new 4) (sample_key 6) [1] Inline) (sample_key 6) [2] Inline in
  exists bs t' outs,
    flush_local b (buckets (mkTable (replicate 2 HashBucket_zeroed) 2 16), None) 2 = Done (BatchBuilder_new 4, (bs, None), 2)
    /\ ClientReader_get (sample_key 6) bs None 2 = Done (Ok (Some (mkReadResult (1 :: zeros 31) Inline)))
    /\ cuckoo_trace (mkTable (replicate 2 HashBucket_zeroed) 2 16) (entry_op <$> bb_pending b) = Done (t', outs)
    /\ ClientReader_get (sample_key 6) (buckets t') None 2 = Done (Ok (Some (mkReadResult (2 :: zeros 31) Inline))).
Proof.
  do 3 eexists. split; [vm_compute; reflexivity|]. split; [vm_compute; reflexivity|].
  split; [vm_compute; reflexivity|]. vm_compute. reflexivity.
Qed.
