(* ===== verification/Transport.v ===== *)
(** * Transport: the remote memory interface (src/transport/mod.rs)

    The trait [Transport] as a type class of operations, the contract of a
    healthy transport over remote memory regions as a second class, and the
    in-memory transport that satisfies it.  A region is addressed by its key and
    virtual address, as RDMA memory regions are. *)

From S2P Require Import Prelude Layout Errors.

Open Scope Z_scope.

(** [read] fills a buffer of the given length; the model returns its bytes. *)
Class Transport (T : Type) : Type := {
  tr_read : T -> Z -> Z -> Z -> Z -> T * result (list Z) RdmaError;
  tr_write : T -> list Z -> Z -> Z -> Z -> T * result unit RdmaError;
  tr_cas : T -> Z -> Z -> Z -> Z -> Z -> T * result bool RdmaError
}.

(** [is_rdma] and [name]; a [Box<dyn Transport>] of the session is a sum. *)
Class TransportInfo (T : Type) : Type := { tr_is_rdma : T -> bool; tr_name : T -> string }.

#[export] Instance sum_info {T1 T2} `{TransportInfo T1} `{TransportInfo T2} : TransportInfo (T1 + T2) := {|
  tr_is_rdma t := match t with inl t => tr_is_rdma t | inr t => tr_is_rdma t end;
  tr_name t := match t with inl t => tr_name t | inr t => tr_name t end
|}.

(** The operations in the monad of the clients. *)
Section monadic.
Context {T : Type} `{Transport T}.

Definition m_read (n lkey addr rkey : Z) : stM T RdmaError (list Z) :=
  fun t => Done (tr_read t n lkey addr rkey).
Definition m_write (buf : list Z) (lkey addr rkey : Z) : stM T RdmaError unit :=
  fun t => Done (tr_write t buf lkey addr rkey).
Definition m_cas (compare swap lkey addr rkey : Z) : stM T RdmaError bool :=
  fun t => Done (tr_cas t compare swap lkey addr rkey).
End monadic.

(** ** Remote memory *)

(** Registered regions: remote key to virtual address and bytes. *)
Abbreviation rmem := (gmap Z (Z * list Z)).

(** An access of [n] bytes at [addr] lies in the region. *)
Definition in_region (base : Z) (bytes : list Z) (addr n : Z) : Prop :=
  base <= addr /\ 0 <= n /\ addr + n <= base + len bytes.
#[export] Instance in_region_dec base bytes addr n : Decision (in_region base bytes addr n).
Proof. unfold in_region. apply _. Defined.

(** The arguments of an access fit their wire fields. *)
Definition access_ok (base : Z) (bytes : list Z) (rkey addr n : Z) : Prop :=
  in_region base bytes addr n /\ is_u32 rkey /\ is_u64 addr /\ is_u32 n.

(** The contract of a healthy transport: an access inside a registered region
    succeeds and has the effect of the memory operation; CAS compares and swaps
    the little-endian 64-bit word. *)
Class RemoteMemory (T : Type) `{Transport T} : Type := {
  rm_repr : rmem -> T -> Prop;
  rm_read_ok M t rkey base bytes n lkey addr :
    rm_repr M t -> M !! rkey = Some (base, bytes) -> access_ok base bytes rkey addr n ->
    exists t', tr_read t n lkey addr rkey = (t', Ok (bread (addr - base) n bytes)) /\ rm_repr M t';
  rm_write_ok M t rkey base bytes buf lkey addr :
    rm_repr M t -> M !! rkey = Some (base, bytes) -> access_ok base bytes rkey addr (len buf) ->
    exists t', tr_write t buf lkey addr rkey = (t', Ok tt)
      /\ rm_repr (<[rkey := (base, bwrite (addr - base) buf bytes)]> M) t';
  rm_cas_ok M t rkey base bytes compare swap lkey addr :
    rm_repr M t -> M !! rkey = Some (base, bytes) -> access_ok base bytes rkey addr 8 ->
    is_u64 compare -> is_u64 swap ->
    let found := from_le (bread (addr - base) 8 bytes) =? compare in
    exists t', tr_cas t compare swap lkey addr rkey = (t', Ok found)
      /\ rm_repr (if found then <[rkey := (base, bwrite (addr - base) (to_le 8 swap) bytes)]> M else M) t'
}.

(** ** The in-memory transport *)

Definition access_error : RdmaError := HardwareError "remote access error".

Definition mem_access {A} (M : rmem) (rkey addr n : Z) (f : Z -> list Z -> rmem * A)
  : rmem * result A RdmaError :=
  match M !! rkey with
  | Some (base, bytes) =>
      if decide (in_region base bytes addr n)
      then let '(M', a) := f base bytes in (M', Ok a) else (M, Err access_error)
  | None => (M, Err access_error)
  end.

#[export] Instance mem_transport : Transport rmem := {|
  tr_read M n _ addr rkey :=
    mem_access M rkey addr n (fun base bytes => (M, bread (addr - base) n bytes));
  tr_write M buf _ addr rkey :=
    mem_access M rkey addr (len buf) (fun base bytes =>
      (<[rkey := (base, bwrite (addr - base) buf bytes)]> M, tt));
  tr_cas M compare swap _ addr rkey :=
    mem_access M rkey addr 8 (fun base bytes =>
      if from_le (bread (addr - base) 8 bytes) =? compare
      then (<[rkey := (base, bwrite (addr - base) (to_le 8 swap) bytes)]> M, true)
      else (M, false))
|}.

#[export] Instance mem_remote : RemoteMemory rmem.
Proof.
  refine (Build_RemoteMemory rmem mem_transport (fun M t => t = M) _ _ _).
  - intros M t rkey base bytes n lkey addr -> E [Hin _]. cbn. unfold mem_access.
    rewrite E, decide_True by done. eauto.
  - intros M t rkey base bytes buf lkey addr -> E [Hin _]. cbn. unfold mem_access.
    rewrite E, decide_True by done. eauto.
  - intros M t rkey base bytes compare swap lkey addr -> E [Hin _] _ _. cbn. unfold mem_access.
    rewrite E, decide_True by done. destruct (_ =? compare); eauto.
Defined.
