(* ===== verification/Verbs.v ===== *)
(** * Verbs: the wrappers over libibverbs (src/rdma, src/mem/region.rs)

    The code that talks to the RDMA library and to the kernel, as programs of the
    free monad [ffi] over its foreign calls.  A call is a constructor of [verb]
    with the arguments the code passes; what comes back is of type [answer] and
    is not defined here: the theorems quantify over the answers, or run the
    programs against an adapter given as a parameter.  A pointer is a [Z], null
    is 0.  A C bit mask is the set of its flags. *)

From stdpp Require Import finite.
From S2P Require Import Prelude Errors.

Open Scope Z_scope.
Local Open Scope rdmas_scope.

(** ** Data of the library's interface *)

Inductive ibv_qp_state : Type :=
| IBV_QPS_RESET | IBV_QPS_INIT | IBV_QPS_RTR | IBV_QPS_RTS
| IBV_QPS_SQD | IBV_QPS_SQE | IBV_QPS_ERR | IBV_QPS_UNKNOWN.

#[export] Instance ibv_qp_state_eq_dec : EqDecision ibv_qp_state.
Proof. solve_decision. Defined.

Inductive ibv_qp_attr_mask : Type :=
| IBV_QP_STATE | IBV_QP_ACCESS_FLAGS | IBV_QP_PKEY_INDEX | IBV_QP_PORT | IBV_QP_AV
| IBV_QP_PATH_MTU | IBV_QP_TIMEOUT | IBV_QP_RETRY_CNT | IBV_QP_RNR_RETRY | IBV_QP_RQ_PSN
| IBV_QP_MAX_QP_RD_ATOMIC | IBV_QP_MIN_RNR_TIMER | IBV_QP_SQ_PSN | IBV_QP_MAX_DEST_RD_ATOMIC
| IBV_QP_DEST_QPN.

#[export] Instance ibv_qp_attr_mask_eq_dec : EqDecision ibv_qp_attr_mask.
Proof. solve_decision. Defined.
#[export] Instance ibv_qp_attr_mask_finite : Finite ibv_qp_attr_mask.
Proof.
  refine {| enum := [IBV_QP_STATE; IBV_QP_ACCESS_FLAGS; IBV_QP_PKEY_INDEX; IBV_QP_PORT; IBV_QP_AV;
    IBV_QP_PATH_MTU; IBV_QP_TIMEOUT; IBV_QP_RETRY_CNT; IBV_QP_RNR_RETRY; IBV_QP_RQ_PSN;
    IBV_QP_MAX_QP_RD_ATOMIC; IBV_QP_MIN_RNR_TIMER; IBV_QP_SQ_PSN; IBV_QP_MAX_DEST_RD_ATOMIC;
    IBV_QP_DEST_QPN] |}.
  - by apply (bool_decide_unpack _).
  - intros []; by apply (bool_decide_unpack _).
Defined.

Inductive ibv_access_flag : Type :=
| IBV_ACCESS_LOCAL_WRITE | IBV_ACCESS_REMOTE_WRITE | IBV_ACCESS_REMOTE_READ | IBV_ACCESS_REMOTE_ATOMIC.

#[export] Instance ibv_access_flag_eq_dec : EqDecision ibv_access_flag.
Proof. solve_decision. Defined.
#[export] Instance ibv_access_flag_finite : Finite ibv_access_flag.
Proof.
  refine {| enum := [IBV_ACCESS_LOCAL_WRITE; IBV_ACCESS_REMOTE_WRITE; IBV_ACCESS_REMOTE_READ;
    IBV_ACCESS_REMOTE_ATOMIC] |}.
  - by apply (bool_decide_unpack _).
  - intros []; by apply (bool_decide_unpack _).
Defined.

Inductive ibv_send_flag : Type :=
| IBV_SEND_FENCE | IBV_SEND_SIGNALED | IBV_SEND_SOLICITED | IBV_SEND_INLINE.

#[export] Instance ibv_send_flag_eq_dec : EqDecision ibv_send_flag.
Proof. solve_decision. Defined.
#[export] Instance ibv_send_flag_finite : Finite ibv_send_flag.
Proof.
  refine {| enum := [IBV_SEND_FENCE; IBV_SEND_SIGNALED; IBV_SEND_SOLICITED; IBV_SEND_INLINE] |}.
  - by apply (bool_decide_unpack _).
  - intros []; by apply (bool_decide_unpack _).
Defined.

Inductive ibv_wr_opcode : Type :=
| IBV_WR_RDMA_WRITE | IBV_WR_SEND | IBV_WR_RDMA_READ | IBV_WR_ATOMIC_CMP_AND_SWP.

Inductive ibv_mtu : Type :=
| IBV_MTU_256 | IBV_MTU_512 | IBV_MTU_1024 | IBV_MTU_2048 | IBV_MTU_4096.

(** The address handle attributes and the queue pair attributes the code sets. *)
Record ibv_ah_attr : Type := mkAh {
  ah_dlid : Z; ah_port_num : Z; ah_sl : Z; ah_src_path_bits : Z; ah_static_rate : Z;
  ah_is_global : Z; grh_dgid : Z; grh_sgid_index : Z; grh_hop_limit : Z;
  grh_traffic_class : Z; grh_flow_label : Z
}.

Record ibv_qp_attr : Type := mkQpAttr {
  qa_qp_state : ibv_qp_state; qa_pkey_index : Z; qa_port_num : Z;
  qa_access_flags : gset ibv_access_flag;
  qa_path_mtu : option ibv_mtu; qa_dest_qp_num : Z; qa_rq_psn : Z; qa_sq_psn : Z;
  qa_ah_attr : ibv_ah_attr;
  qa_max_dest_rd_atomic : Z; qa_min_rnr_timer : Z;
  qa_timeout : Z; qa_retry_cnt : Z; qa_rnr_retry : Z; qa_max_rd_atomic : Z
}.

Inductive ibv_qp_type : Type := IBV_QPT_RC | IBV_QPT_UC | IBV_QPT_UD.

Record ibv_qp_init_attr : Type := mkQpInit {
  qi_send_cq : Z; qi_recv_cq : Z;
  qi_max_send_wr : Z; qi_max_recv_wr : Z; qi_max_send_sge : Z; qi_max_recv_sge : Z;
  qi_max_inline_data : Z; qi_qp_type : ibv_qp_type; qi_sq_sig_all : Z
}.

Record ibv_sge : Type := mkSge { sge_addr : Z; sge_length : Z; sge_lkey : Z }.

(** The union [wr] of a send request: zeroed, [rdma] or [atomic]. *)
Inductive ibv_wr_union : Type :=
| WrZeroed
| WrRdma (remote_addr rkey : Z)
| WrAtomic (remote_addr compare_add swap rkey : Z).

(** [swr_next] is the index, in the array that is posted, of the request the
    [next] pointer points to. *)
Record ibv_send_wr : Type := mkSendWr {
  swr_wr_id : Z; swr_next : option nat; swr_sg_list : list ibv_sge; swr_num_sge : Z;
  swr_opcode : ibv_wr_opcode; swr_send_flags : gset ibv_send_flag; swr_wr : ibv_wr_union
}.

Record ibv_recv_wr : Type := mkRecvWr {
  rwr_wr_id : Z; rwr_sg_list : list ibv_sge; rwr_num_sge : Z
}.

Record PortAttr : Type := mkPortAttr {
  pa_lid : Z; pa_state : Z; pa_max_mtu : Z; pa_active_mtu : Z; pa_port_cap_flags : Z;
  pa_max_msg_sz : Z; pa_link_layer : Z
}.

Record DeviceAttr : Type := mkDeviceAttr {
  da_fw_ver : string; da_node_guid : Z; da_vendor_id : Z; da_vendor_part_id : Z; da_hw_ver : Z;
  da_max_qp : Z; da_max_qp_wr : Z; da_max_cq : Z; da_max_cqe : Z; da_max_mr : Z; da_max_pd : Z;
  da_max_qp_rd_atom : Z; da_max_sge : Z; da_phys_port_cnt : Z
}.

Record WorkCompletion : Type := mkWc {
  wc_wr_id : Z;
  wc_status : Z;
  wc_opcode : Z;
  wc_byte_len : Z;
  wc_vendor_err : Z;
  wc_imm_data : Z;
  wc_qp_num : Z;
  wc_src_qp : Z
}.

#[export] Instance WorkCompletion_eq_dec : EqDecision WorkCompletion.
Proof. solve_decision. Defined.

Definition IBV_WC_SUCCESS : Z := 0.
Definition is_success (wc : WorkCompletion) : bool := wc_status wc =? IBV_WC_SUCCESS.

(** ** The foreign calls *)

(** [Control] calls stand for the control client that [RdmaTransport::connect]
    uses before it touches the device.  The thread calls stand for the Standard
    Library's threads and the atomic shutdown flag, which is named by the handle
    of the thread that reads it; [Dispatch] is the section of a poller that holds
    the lock of the pending map ([Runtime]). *)
Inductive verb : Type :=
| GetDeviceList
| FreeDeviceList (list : Z)
| OpenDevice (device : Z)
| GetDeviceName (device : Z)
| CloseDevice (ctx : Z)
| QueryDevice (ctx : Z)
| QueryPort (ctx port_num : Z)
| QueryGid (ctx port_num gid_index : Z)
| AllocPd (ctx : Z)
| DeallocPd (pd : Z)
| CreateCq (ctx cqe context channel comp_vector : Z)
| PollCq (cq num_entries : Z)
| ReqNotifyCq (cq : Z) (solicited_only : bool)
| DestroyCq (cq : Z)
| RegMr (pd addr length : Z) (access : gset ibv_access_flag)
| MrLkey (mr : Z)
| MrRkey (mr : Z)
| DeregMr (mr : Z)
| CreateQp (pd : Z) (init : ibv_qp_init_attr)
| GetQpNum (qp : Z)
| ModifyQp (qp : Z) (attr : ibv_qp_attr) (mask : gset ibv_qp_attr_mask)
| QueryQp (qp : Z)
| PostSend (qp : Z) (wrs : list ibv_send_wr)
| PostRecv (qp : Z) (wr : ibv_recv_wr)
| DestroyQp (qp : Z)
| Mmap (length : Z)
| Mlock (ptr length : Z)
| Munmap (ptr length : Z)
| LastOsError
| CreateCompChannel (ctx : Z)
| ChannelFd (channel : Z)
| GetCqEvent (channel : Z)
| AckCqEvents (cq count : Z)
| DestroyCompChannel (channel : Z)
| EpollCreate
| EpollAdd (epoll_fd fd : Z)
| FcntlGetFl (fd : Z)
| FcntlSetNonblock (fd flags : Z)
| EpollWait (epoll_fd timeout_ms : Z)
| CloseFd (fd : Z)
| InstantNow
| SetAffinity (core : Z)
| SpawnThread (cq : Z)
| JoinThread (handle : Z)
| LoadShutdown (flag : Z)
| StoreShutdown (flag : Z)
| Dispatch (wcs : list WorkCompletion)
| EventFd
| WriteEvent (fd : Z)
| NewFlag
| SetFlag (flag : Z)
| DropFlag (flag : Z)
| SpawnWorker (flag : Z)
| SleepMs (ms : Z)
| CudaMalloc (size : Z)
| CudaFree (ptr : Z)
| CudaMemcpyToDevice (dst : Z) (src : list Z)
| CudaMemcpyToHost (src count : Z)
| ControlConnect (addr : string)
| ControlDiscover.

(** The device list with its length and its first element; [None] of a string
    for a null pointer; [None] of [Mmap] for [MAP_FAILED]; the library's return
    code with its output parameters; whether a joined thread panicked; 0 of a
    worker that could not be spawned; the text of a control-plane error. *)
Definition answer (v : verb) : Type :=
  match v with
  | GetDeviceList => Z * Z * Z
  | GetDeviceName _ => option string
  | FreeDeviceList _ | CloseDevice _ => unit
  | QueryDevice _ => Z * DeviceAttr
  | QueryPort _ _ => Z * PortAttr
  | QueryGid _ _ _ => Z * Z
  | PollCq _ _ => Z * list WorkCompletion
  | QueryQp _ => Z * ibv_qp_state
  | Mmap _ => option Z
  | LastOsError => string
  | GetCqEvent _ => Z * Z * Z
  | AckCqEvents _ _ | StoreShutdown _ | Dispatch _ | SetFlag _ | DropFlag _ | SleepMs _ => unit
  | LoadShutdown _ | JoinThread _ => bool
  | CudaMalloc _ => Z * Z
  | CudaMemcpyToHost _ _ => Z * list Z
  | ControlConnect _ | ControlDiscover => option string
  | _ => Z
  end.

(** ** Programs *)

Inductive ffi (A : Type) : Type :=
| Ret (a : A)
| Call (v : verb) (k : answer v -> ffi A).
Arguments Ret {A} a.
Arguments Call {A} v k.

Fixpoint ffi_bind_go {A B} (k : A -> ffi B) (m : ffi A) : ffi B :=
  match m with
  | Ret a => k a
  | Call v h => Call v (fun x => ffi_bind_go k (h x))
  end.
#[export] Instance ffi_ret : MRet ffi := fun _ => Ret.
#[export] Instance ffi_bind : MBind ffi := fun _ _ => ffi_bind_go.

Definition call (v : verb) : ffi (answer v) := Call v Ret.

(** [let x = m?; k], with the locals already bound dropped by [dropping]. *)
Definition try_bind {A B E} (m : ffi (result A E)) (k : A -> ffi (result B E)) : ffi (result B E) :=
  r ← m; match r with Ok a => k a | Err e => Ret (Err e) end.
Notation "'let?' x := m 'in' k" := (try_bind m (fun x => k))
  (at level 10, x pattern, m at level 100, k at level 200) : rdmas_scope.
Notation "m ;;? k" := (try_bind m (fun _ => k))
  (at level 100, k at level 200, right associativity) : rdmas_scope.

(** An owned local that is dropped when the rest of the function returns early
    with an error, and moved into the result otherwise. *)
Definition dropping {A E} (drop : ffi unit) (m : ffi (result A E)) : ffi (result A E) :=
  r ← m; match r with Ok a => Ret (Ok a) | Err e => drop ;; Ret (Err e) end.

(** [if ret != 0 { return Err(HardwareError(format!("{} {}", text, ret))) }]. *)
Definition check_ret (text : string) (ret : Z) : ffi (result unit RdmaError) :=
  if negb (ret =? 0) then Ret (Err (HardwareError (text +:+ pretty ret))) else Ret (Ok tt).

(** A pointer that must not be null. *)
Definition non_null (e : RdmaError) (p : Z) : ffi (result Z RdmaError) :=
  if p =? 0 then Ret (Err e) else Ret (Ok p).

(** [x as libc::c_int]. *)
Definition c_int (x : Z) : Z := (x + 2 ^ 31) mod 2 ^ 32 - 2 ^ 31.

(** ** Device context (context.rs) *)

Record RdmaContext : Type := mkContext { ctx_inner : Z; ctx_name : string }.

Definition Context_open : ffi (option RdmaContext) :=
  '(device_list, num_devices, first) ← call GetDeviceList;
  if (device_list =? 0) || (num_devices =? 0) then
    (if negb (device_list =? 0) then call (FreeDeviceList device_list) else Ret tt) ;;
    Ret None
  else if first =? 0 then
    call (FreeDeviceList device_list) ;; Ret None
  else
    ctx ← call (OpenDevice first);
    call (FreeDeviceList device_list) ;;
    if ctx =? 0 then Ret None
    else
      name ← call (GetDeviceName first);
      match name with
      | None => call (CloseDevice ctx) ;; Ret None
      | Some name => Ret (Some (mkContext ctx name))
      end.

Definition query_device (c : RdmaContext) : ffi (result DeviceAttr RdmaError) :=
  '(ret, attr) ← call (QueryDevice (ctx_inner c));
  check_ret "ibv_query_device failed with return code " ret ;;?
  Ret (Ok attr).

Definition query_port (c : RdmaContext) (port_num : Z) : ffi (result PortAttr RdmaError) :=
  '(ret, attr) ← call (QueryPort (ctx_inner c) port_num);
  check_ret "ibv_query_port failed with return code " ret ;;?
  Ret (Ok attr).

Definition query_gid (c : RdmaContext) (port_num gid_index : Z) : ffi (option Z) :=
  '(ret, gid) ← call (QueryGid (ctx_inner c) port_num gid_index);
  Ret (if negb (ret =? 0) then None else Some gid).

Definition Context_drop (c : RdmaContext) : ffi unit := call (CloseDevice (ctx_inner c)).

(** ** Protection domain (pd.rs) *)

Record ProtectionDomain : Type := mkPd { pd_inner : Z }.

Definition ProtectionDomain_allocate (c : RdmaContext) : ffi (result ProtectionDomain RdmaError) :=
  pd ← call (AllocPd (ctx_inner c));
  let? pd := non_null (HardwareError "ibv_alloc_pd returned NULL") pd in
  Ret (Ok (mkPd pd)).

Definition ProtectionDomain_drop (p : ProtectionDomain) : ffi unit :=
  _ ← call (DeallocPd (pd_inner p)); Ret tt.

(** ** Completion queue (cq.rs) *)

Record CompletionQueue : Type := mkCq { cq_inner : Z }.

Definition CompletionQueue_create (c : RdmaContext) (cqe context channel comp_vector : Z)
  : ffi (result CompletionQueue RdmaError) :=
  cq ← call (CreateCq (ctx_inner c) (c_int cqe) context channel (c_int comp_vector));
  let? cq := non_null (HardwareError "ibv_create_cq returned NULL") cq in
  Ret (Ok (mkCq cq)).

(** The library fills the first [ret] entries of the array. *)
Definition CompletionQueue_poll (q : CompletionQueue) (num_entries : Z)
  : ffi (result (list WorkCompletion) RdmaError) :=
  if num_entries =? 0 then Ret (Ok [])
  else
    '(ret, wcs) ← call (PollCq (cq_inner q) (c_int num_entries));
    if ret <? 0
    then Ret (Err (HardwareError ("ibv_poll_cq failed with return code " +:+ pretty ret)))
    else Ret (Ok (take (Z.to_nat ret) wcs)).

Definition poll_single (q : CompletionQueue) : ffi (result (option WorkCompletion) RdmaError) :=
  let? wcs := CompletionQueue_poll q 1 in Ret (Ok (head wcs)).

Definition request_notification (q : CompletionQueue) (solicited_only : bool)
  : ffi (result unit RdmaError) :=
  ret ← call (ReqNotifyCq (cq_inner q) solicited_only);
  check_ret "ibv_req_notify_cq failed with return code " ret.

Definition CompletionQueue_drop (q : CompletionQueue) : ffi unit :=
  _ ← call (DestroyCq (cq_inner q)); Ret tt.

(** *** Event channel *)

Record CqEventChannel : Type := mkChannel { ch_inner : Z }.

Definition CqEventChannel_create (c : RdmaContext) : ffi (result CqEventChannel RdmaError) :=
  channel ← call (CreateCompChannel (ctx_inner c));
  let? channel := non_null (HardwareError "ibv_create_comp_channel returned NULL") channel in
  Ret (Ok (mkChannel channel)).

Definition channel_fd (ch : CqEventChannel) : ffi Z := call (ChannelFd (ch_inner ch)).

(** The queue that raised the event and its context pointer. *)
Definition get_event (ch : CqEventChannel) : ffi (result (Z * Z) RdmaError) :=
  '(ret, cq, cq_context) ← call (GetCqEvent (ch_inner ch));
  check_ret "ibv_get_cq_event failed with return code " ret ;;?
  Ret (Ok (cq, cq_context)).

Definition ack_events (q : CompletionQueue) (count : Z) : ffi unit :=
  call (AckCqEvents (cq_inner q) count).

Definition CqEventChannel_drop (ch : CqEventChannel) : ffi unit :=
  _ ← call (DestroyCompChannel (ch_inner ch)); Ret tt.

(** ** Memory region (mr.rs) *)

Record MemoryRegion : Type := mkMr { mr_ptr : Z; mr_lkey : Z; mr_rkey : Z; mr_size : Z }.

(** [fmt] is the text of [format!] on the arguments. *)
Definition MemoryRegion_register (fmt : Z -> Z -> gset ibv_access_flag -> string)
    (p : ProtectionDomain) (addr length : Z) (access : gset ibv_access_flag)
  : ffi (result MemoryRegion RdmaError) :=
  mr ← call (RegMr (pd_inner p) addr length access);
  let? mr := non_null (Internal (fmt addr length access)) mr in
  lkey ← call (MrLkey mr);
  rkey ← call (MrRkey mr);
  Ret (Ok (mkMr mr lkey rkey length)).

Definition MemoryRegion_drop (m : MemoryRegion) : ffi unit :=
  _ ← call (DeregMr (mr_ptr m)); Ret tt.

(** ** Queue pair (qp.rs) *)

Record QueuePair : Type := mkQp { qp_inner : Z; qp_num : Z }.

Definition QueuePair_create (p : ProtectionDomain) (send_cq recv_cq : CompletionQueue)
    (max_send_wr max_recv_wr max_send_sge max_recv_sge : Z) (qp_type : ibv_qp_type)
  : ffi (result QueuePair RdmaError) :=
  qp ← call (CreateQp (pd_inner p)
               (mkQpInit (cq_inner send_cq) (cq_inner recv_cq) max_send_wr max_recv_wr
                  max_send_sge max_recv_sge 0 qp_type 0));
  let? qp := non_null (HardwareError "ibv_create_qp returned NULL") qp in
  num ← call (GetQpNum qp);
  Ret (Ok (mkQp qp num)).

Definition ah_zeroed : ibv_ah_attr := mkAh 0 0 0 0 0 0 0 0 0 0 0.
Definition qp_attr_zeroed : ibv_qp_attr :=
  mkQpAttr IBV_QPS_RESET 0 0 ∅ None 0 0 0 ah_zeroed 0 0 0 0 0 0.

Definition init_mask : gset ibv_qp_attr_mask :=
  {[IBV_QP_STATE; IBV_QP_PKEY_INDEX; IBV_QP_PORT; IBV_QP_ACCESS_FLAGS]}.

Definition QueuePair_init (q : QueuePair) (port_num : Z) (access_flags : gset ibv_access_flag)
  : ffi (result unit RdmaError) :=
  let attr := mkQpAttr IBV_QPS_INIT 0 port_num access_flags None 0 0 0 ah_zeroed 0 0 0 0 0 0 in
  ret ← call (ModifyQp (qp_inner q) attr init_mask);
  check_ret "ibv_modify_qp (INIT) failed with return code " ret.

Definition rtr_mask : gset ibv_qp_attr_mask :=
  {[IBV_QP_STATE; IBV_QP_AV; IBV_QP_PATH_MTU; IBV_QP_DEST_QPN; IBV_QP_RQ_PSN;
    IBV_QP_MAX_DEST_RD_ATOMIC; IBV_QP_MIN_RNR_TIMER]}.

Definition ready_to_receive (q : QueuePair) (remote_qpn remote_lid : Z) (remote_gid : option Z)
    (port_num rq_psn : Z) : ffi (result unit RdmaError) :=
  let ah := match remote_gid with
            | Some gid => mkAh remote_lid port_num 0 0 0 1 gid 1 64 0 0
            | None => mkAh remote_lid port_num 0 0 0 0 0 0 0 0 0
            end in
  let attr := mkQpAttr IBV_QPS_RTR 0 0 ∅ (Some IBV_MTU_1024) remote_qpn rq_psn 0 ah 16 12 0 0 0 0 in
  ret ← call (ModifyQp (qp_inner q) attr rtr_mask);
  check_ret "ibv_modify_qp (RTR) failed with return code " ret.

Definition rts_mask : gset ibv_qp_attr_mask :=
  {[IBV_QP_STATE; IBV_QP_SQ_PSN; IBV_QP_TIMEOUT; IBV_QP_RETRY_CNT; IBV_QP_RNR_RETRY;
    IBV_QP_MAX_QP_RD_ATOMIC]}.

Definition ready_to_send (q : QueuePair) (sq_psn : Z) : ffi (result unit RdmaError) :=
  let attr := mkQpAttr IBV_QPS_RTS 0 0 ∅ None 0 0 sq_psn ah_zeroed 0 0 14 7 7 16 in
  ret ← call (ModifyQp (qp_inner q) attr rts_mask);
  check_ret "ibv_modify_qp (RTS) failed with return code " ret.

Definition QueuePair_drop (q : QueuePair) : ffi unit :=
  _ ← call (DestroyQp (qp_inner q)); Ret tt.

(** *** Work requests *)

Inductive SendWrOpcode : Type := RdmaRead | RdmaWrite | RdmaCompareSwap | Send.

Record SendWorkRequest : Type := mkSwr {
  wr_id : Z; wr_opcode : SendWrOpcode; wr_send_flags : gset ibv_send_flag; wr_sge : list ibv_sge;
  wr_remote_addr : option Z; wr_remote_rkey : option Z;
  wr_compare_add : option Z; wr_swap : option Z
}.

Record RecvWorkRequest : Type := mkRwr { rw_id : Z; rw_sge : list ibv_sge }.

Definition map_send_opcode (o : SendWrOpcode) : ibv_wr_opcode :=
  match o with
  | RdmaWrite => IBV_WR_RDMA_WRITE
  | RdmaRead => IBV_WR_RDMA_READ
  | RdmaCompareSwap => IBV_WR_ATOMIC_CMP_AND_SWP
  | Send => IBV_WR_SEND
  end.

(** The operation-specific fields of the union. *)
Definition wr_union_of (wr : SendWorkRequest) : ibv_wr_union :=
  match wr_opcode wr with
  | RdmaRead | RdmaWrite => WrRdma (default 0 (wr_remote_addr wr)) (default 0 (wr_remote_rkey wr))
  | RdmaCompareSwap =>
      WrAtomic (default 0 (wr_remote_addr wr)) (default 0 (wr_compare_add wr))
        (default 0 (wr_swap wr)) (default 0 (wr_remote_rkey wr))
  | Send => WrZeroed
  end.

Definition build_send_wr (wr : SendWorkRequest) (send_flags : gset ibv_send_flag) : ibv_send_wr :=
  mkSendWr (wr_id wr) None (wr_sge wr) (c_int (len (wr_sge wr))) (map_send_opcode (wr_opcode wr))
    send_flags (wr_union_of wr).

Definition post_send (q : QueuePair) (wr : SendWorkRequest) : ffi (result Z RdmaError) :=
  let send_wr := build_send_wr wr (wr_send_flags wr ∪ {[IBV_SEND_SIGNALED]}) in
  ret ← call (PostSend (qp_inner q) [send_wr]);
  check_ret "ibv_post_send failed with return code " ret ;;?
  Ret (Ok (wr_id wr)).

(** [send_wrs[i].next = &mut send_wrs[i + 1]]. *)
Definition set_next (w : ibv_send_wr) (next : option nat) : ibv_send_wr :=
  mkSendWr (swr_wr_id w) next (swr_sg_list w) (swr_num_sge w) (swr_opcode w) (swr_send_flags w)
    (swr_wr w).

(** The loop [for (i, wr) in wrs.iter().enumerate()]. *)
Definition build_chain (wrs : list SendWorkRequest) : list ibv_send_wr :=
  imap (fun i wr =>
    let is_last := Nat.eqb i (length wrs - 1) in
    build_send_wr wr (if is_last then wr_send_flags wr ∪ {[IBV_SEND_SIGNALED]}
                      else wr_send_flags wr ∖ {[IBV_SEND_SIGNALED]})) wrs.

(** The loop [for i in 0..send_wrs.len() - 1]. *)
Definition link_one (send_wrs : list ibv_send_wr) (i : nat) : list ibv_send_wr :=
  alter (fun w => set_next w (Some (S i))) i send_wrs.
Definition link_chain (send_wrs : list ibv_send_wr) : list ibv_send_wr :=
  foldl link_one send_wrs (seq 0 (length send_wrs - 1)).

Definition post_send_batch (q : QueuePair) (wrs : list SendWorkRequest) : ffi (result Z RdmaError) :=
  match last wrs with
  | None => Ret (Err (Internal "empty batch"))
  | Some last_wr =>
      ret ← call (PostSend (qp_inner q) (link_chain (build_chain wrs)));
      if negb (ret =? 0)
      then Ret (Err (HardwareError ("ibv_post_send (batch) failed: ret=" +:+ pretty ret)))
      else Ret (Ok (wr_id last_wr))
  end.

Definition post_recv (q : QueuePair) (wr : RecvWorkRequest) : ffi (result Z RdmaError) :=
  ret ← call (PostRecv (qp_inner q) (mkRecvWr (rw_id wr) (rw_sge wr) (c_int (len (rw_sge wr)))));
  check_ret "ibv_post_recv failed with return code " ret ;;?
  Ret (Ok (rw_id wr)).

(** ** Health-checked queue pair (qp_recovery.rs) *)

Record QpGuard : Type := mkQpGuard {
  qg_qp : QueuePair; recovery_count : Z; last_error : option RdmaError
}.

Definition QpGuard_new (q : QueuePair) : QpGuard := mkQpGuard q 0 None.

(** The [Debug] text of a state. *)
Definition fmt_qp_state (s : ibv_qp_state) : string :=
  match s with
  | IBV_QPS_RESET => "IBV_QPS_RESET" | IBV_QPS_INIT => "IBV_QPS_INIT" | IBV_QPS_RTR => "IBV_QPS_RTR"
  | IBV_QPS_RTS => "IBV_QPS_RTS" | IBV_QPS_SQD => "IBV_QPS_SQD" | IBV_QPS_SQE => "IBV_QPS_SQE"
  | IBV_QPS_ERR => "IBV_QPS_ERR" | IBV_QPS_UNKNOWN => "IBV_QPS_UNKNOWN"
  end.

Definition query_failed (ret : Z) : RdmaError :=
  HardwareError ("ibv_query_qp failed with return code " +:+ pretty ret).

Definition check_health (g : QpGuard) : ffi (QpGuard * result unit RdmaError) :=
  '(ret, cur_qp_state) ← call (QueryQp (qp_inner (qg_qp g)));
  if negb (ret =? 0) then
    let err := query_failed ret in
    Ret (mkQpGuard (qg_qp g) (recovery_count g) (Some err), Err err)
  else
    match cur_qp_state with
    | IBV_QPS_ERR | IBV_QPS_UNKNOWN =>
        let err := HardwareError ("QP in " +:+ fmt_qp_state cur_qp_state +:+ " state") in
        Ret (mkQpGuard (qg_qp g) (u64 (recovery_count g + 1)) (Some err), Err err)
    | _ => Ret (g, Ok tt)
    end.

(** The three guarded posts: the health check, then the post. *)
Definition guarded {A} (post : QueuePair -> ffi (result A RdmaError)) (g : QpGuard)
  : ffi (QpGuard * result A RdmaError) :=
  '(g, h) ← check_health g;
  match h with
  | Err e => Ret (g, Err e)
  | Ok _ => r ← post (qg_qp g); Ret (g, r)
  end.

Definition guard_post_send (g : QpGuard) (wr : SendWorkRequest) := guarded (fun q => post_send q wr) g.
Definition guard_post_send_batch (g : QpGuard) (wrs : list SendWorkRequest) :=
  guarded (fun q => post_send_batch q wrs) g.
Definition guard_post_recv (g : QpGuard) (wr : RecvWorkRequest) := guarded (fun q => post_recv q wr) g.

Definition query_state (g : QpGuard) : ffi (result ibv_qp_state RdmaError) :=
  '(ret, cur_qp_state) ← call (QueryQp (qp_inner (qg_qp g)));
  Ret (if negb (ret =? 0) then Err (query_failed ret) else Ok cur_qp_state).
