(* ===== verification/VerbsProps.v ===== *)
(** * VerbsProps: resources, state transitions and posting

    The documented rules of the library as a predicate transformer [wp] on
    [ffi]: the ledger of the live objects, which calls are allowed on it, which
    answers the library gives and what they do to it.  A program that satisfies
    [wp] for every ledger follows the rules whatever the library answers.
    Also the run of a program against an adapter, and the chain that
    [post_send_batch] builds. *)

From stdpp Require Import finite.
From S2P Require Import Prelude Errors Verbs.

Open Scope Z_scope.
Local Open Scope rdmas_scope.

(** ** Running a program *)

(** An adapter answers each call and changes its state. *)
Class Adapter (D : Type) : Type := perform : forall v : verb, D -> answer v * D.

Fixpoint run {D A} `{Adapter D} (p : ffi A) (d : D) : A * D :=
  match p with
  | Ret a => (a, d)
  | Call v k => let '(x, d') := perform v d in run (k x) d'
  end.

Lemma run_bind {D A B} `{Adapter D} (m : ffi A) (k : A -> ffi B) (d : D) :
  run (m ≫= k) d = let '(a, d') := run m d in run (k a) d'.
Proof.
  revert d. induction m as [a|v h IH]; intros d; [done|].
  cbn. destruct (perform v d) as [x d']. apply IH.
Qed.

(** ** The ledger *)

(** A live object with the objects it was made from.  A queue pair also has its
    state and the queue pair number it is connected to, a completion queue its
    event channel (0 for none) and the events that were taken from the channel and not
    acknowledged, a thread whether it was told to stop, device memory its size and
    the bytes known at its start. *)
Inductive res : Type :=
| RDevList (first : Z)
| RCtx (device : Z)
| RPd (ctx : Z)
| RCq (ctx channel unacked : Z)
| RChan (ctx : Z)
| RMr (pd addr : Z)
| RQp (pd send_cq recv_cq : Z) (st : ibv_qp_state) (dest : Z)
| RMap (length : Z)
| REpoll
| REvent
| RFlag (set : bool)
| RWorker (flag : Z)
| RThread (cq : Z) (stopping : bool)
| RGpu (size : Z) (known : list Z).

Abbreviation ledger := (gmap Z res).

Definition parents (r : res) : list Z :=
  match r with
  | RDevList _ | RCtx _ | RMap _ | REpoll | REvent | RFlag _ | RGpu _ _ => []
  | RWorker f => [f]
  | RPd c | RChan c => [c]
  | RCq c ch _ => c :: if ch =? 0 then [] else [ch]
  | RThread q _ => [q]
  | RMr p a => [p; a]
  | RQp p c1 c2 _ _ => [p; c1; c2]
  end.

(** No live object was made from [h]. *)
Definition unused (h : Z) (s : ledger) : Prop := map_Forall (fun _ r => h ∉ parents r) s.
(** Every live object's parents are live. *)
Definition closed (s : ledger) : Prop := map_Forall (fun _ r => Forall (fun h => is_Some (s !! h)) (parents r)) s.

Definition is_ctx (s : ledger) (h : Z) : Prop := exists d, s !! h = Some (RCtx d).
Definition is_pd (s : ledger) (h : Z) : Prop := exists c, s !! h = Some (RPd c).
Definition is_cq (s : ledger) (h : Z) : Prop := exists c ch u, s !! h = Some (RCq c ch u).
Definition is_chan (s : ledger) (h : Z) : Prop := exists c, s !! h = Some (RChan c).
Definition is_mr (s : ledger) (h : Z) : Prop := exists p a, s !! h = Some (RMr p a).
Definition is_qp (s : ledger) (h : Z) : Prop := exists p c1 c2 st n, s !! h = Some (RQp p c1 c2 st n).

(** File descriptors have keys of their own, apart from pointers. *)
Definition fd_key (fd : Z) : Z := -1 - fd.

(** The attributes ibv_modify_qp requires for a reliable connection. *)
Definition required_mask (from to : ibv_qp_state) : option (gset ibv_qp_attr_mask) :=
  match from, to with
  | IBV_QPS_RESET, IBV_QPS_INIT =>
      Some {[IBV_QP_STATE; IBV_QP_PKEY_INDEX; IBV_QP_PORT; IBV_QP_ACCESS_FLAGS]}
  | IBV_QPS_INIT, IBV_QPS_RTR =>
      Some {[IBV_QP_STATE; IBV_QP_AV; IBV_QP_PATH_MTU; IBV_QP_DEST_QPN; IBV_QP_RQ_PSN;
             IBV_QP_MAX_DEST_RD_ATOMIC; IBV_QP_MIN_RNR_TIMER]}
  | IBV_QPS_RTR, IBV_QPS_RTS =>
      Some {[IBV_QP_STATE; IBV_QP_SQ_PSN; IBV_QP_TIMEOUT; IBV_QP_RETRY_CNT; IBV_QP_RNR_RETRY;
             IBV_QP_MAX_QP_RD_ATOMIC]}
  | _, _ => None
  end.

(** What the caller must respect: handles are live and of the right kind, an
    object is released after everything made from it, a queue pair moves along
    its state machine with the required attributes, a queue is destroyed when its
    events are acknowledged and no more events are acknowledged than were taken,
    a thread is joined once and after it was told to stop, the memory of a flag
    is released after the threads that read it ended, copies stay inside
    the device memory. *)
Definition allowed (v : verb) (s : ledger) : Prop :=
  match v with
  | FreeDeviceList l => exists d, s !! l = Some (RDevList d)
  | OpenDevice d => exists l, s !! l = Some (RDevList d)
  | GetDeviceName d => (exists l, s !! l = Some (RDevList d)) \/ exists c, s !! c = Some (RCtx d)
  | CloseDevice c => is_ctx s c /\ unused c s
  | QueryDevice c | QueryPort c _ | QueryGid c _ _ | AllocPd c | CreateCompChannel c => is_ctx s c
  | CreateCq c _ _ ch _ => is_ctx s c /\ (ch = 0 \/ is_chan s ch)
  | DeallocPd p => is_pd s p /\ unused p s
  | PollCq q _ | ReqNotifyCq q _ => is_cq s q
  | DestroyCq q => (exists c ch, s !! q = Some (RCq c ch 0)) /\ unused q s
  | ChannelFd h | GetCqEvent h => is_chan s h
  | AckCqEvents q n => exists c ch u, s !! q = Some (RCq c ch u) /\ n <= u
  | DestroyCompChannel h => is_chan s h /\ unused h s
  | EpollAdd e _ | EpollWait e _ => s !! fd_key e = Some REpoll
  | CloseFd e => s !! fd_key e = Some REpoll \/ s !! fd_key e = Some REvent
  | WriteEvent e => s !! fd_key e = Some REvent
  | SetFlag f | SpawnWorker f => exists b, s !! f = Some (RFlag b)
  | DropFlag f => (exists b, s !! f = Some (RFlag b)) /\ unused f s
  | SpawnThread q => is_cq s q
  | JoinThread h => (exists q, s !! h = Some (RThread q true))
      \/ exists f, s !! h = Some (RWorker f) /\ s !! f = Some (RFlag true)
  | CudaFree p => exists n l, s !! p = Some (RGpu n l)
  | CudaMemcpyToDevice p src => exists n l, s !! p = Some (RGpu n l) /\ len src <= n
  | CudaMemcpyToHost p count => exists n l, s !! p = Some (RGpu n l) /\ count <= n
  | RegMr p a n _ => is_pd s p /\ exists m, s !! a = Some (RMap m) /\ n <= m
  | MrLkey m | MrRkey m | DeregMr m => is_mr s m
  | CreateQp p i => is_pd s p /\ is_cq s (qi_send_cq i) /\ is_cq s (qi_recv_cq i)
  | GetQpNum q | QueryQp q | DestroyQp q => is_qp s q
  | ModifyQp q attr mask => exists p c1 c2 st n m, s !! q = Some (RQp p c1 c2 st n)
      /\ required_mask st (qa_qp_state attr) = Some m /\ m ⊆ mask
  | PostSend q _ => exists p c1 c2 n, s !! q = Some (RQp p c1 c2 IBV_QPS_RTS n)
  | PostRecv q _ => exists p c1 c2 st n, s !! q = Some (RQp p c1 c2 st n) /\ st <> IBV_QPS_RESET
  | Mlock p n => s !! p = Some (RMap n)
  | Munmap p n => s !! p = Some (RMap n) /\ unused p s
  | GetDeviceList | Mmap _ | LastOsError | ControlConnect _ | ControlDiscover => True
  | EpollCreate | FcntlGetFl _ | FcntlSetNonblock _ _ | InstantNow | SetAffinity _ => True
  | LoadShutdown _ | StoreShutdown _ | Dispatch _ | CudaMalloc _ | EventFd | NewFlag | SleepMs _ => True
  end.

Definition null_or_fresh (s : ledger) (h : Z) : Prop := h = 0 \/ s !! h = None.

(** Insert an object unless the pointer is null. *)
Definition acquire (h : Z) (r : res) (s : ledger) : ledger := if h =? 0 then s else <[h := r]> s.

Definition add_events (n : Z) (r : res) : res := match r with RCq c ch u => RCq c ch (u + n) | r => r end.
Definition tell_stop (r : res) : res := match r with RThread q _ => RThread q true | r => r end.
Definition load_gpu (src : list Z) (r : res) : res :=
  match r with RGpu n l => RGpu n (src ++ drop (length src) l) | r => r end.

Section logic.
(** The number the adapter gave a queue pair. *)
Context (qp_no : Z -> Z).

(** The documented answers: a new object is none of the live ones, a release
    within the rules succeeds. *)
Definition legal (v : verb) (s : ledger) : answer v -> Prop :=
  match v with
  | GetDeviceList => fun x => null_or_fresh s x.1.1
  | OpenDevice _ | AllocPd _ | CreateCq _ _ _ _ _ | RegMr _ _ _ _ | CreateQp _ _ | CreateCompChannel _ =>
      null_or_fresh s
  | Mmap _ => fun x => match x with Some p => p <> 0 /\ s !! p = None | None => True end
  | DeallocPd _ | DestroyCq _ | DeregMr _ | DestroyQp _ | Munmap _ _ | DestroyCompChannel _ => fun x => x = 0
  | GetCqEvent h => fun x => x.1.1 = 0 -> exists c u, s !! x.1.2 = Some (RCq c h u)
  | EpollCreate | EventFd => fun x => x < 0 \/ s !! fd_key x = None
  | NewFlag => fun x => x <> 0 /\ s !! x = None
  | SpawnWorker _ => null_or_fresh s
  | SpawnThread _ => fun x => x <> 0 /\ s !! x = None
  | CudaMalloc _ => fun x => x.1 = 0 -> null_or_fresh s x.2
  | CudaMemcpyToHost p n => fun x => x.1 = 0 ->
      len x.2 = n /\ forall m l, s !! p = Some (RGpu m l) -> take (length l) x.2 = take (Z.to_nat n) l
  | GetQpNum q => fun x => x = qp_no q
  | _ => fun _ => True
  end.

Definition effect (v : verb) (s : ledger) : answer v -> ledger :=
  match v with
  | GetDeviceList => fun x => acquire x.1.1 (RDevList x.2) s
  | FreeDeviceList l => fun _ => delete l s
  | OpenDevice d => fun x => acquire x (RCtx d) s
  | AllocPd c => fun x => acquire x (RPd c) s
  | CreateCq c _ _ ch _ => fun x => acquire x (RCq c ch 0) s
  | CreateCompChannel c => fun x => acquire x (RChan c) s
  | DestroyCompChannel h => fun _ => delete h s
  | GetCqEvent _ => fun x => if x.1.1 =? 0 then alter (add_events 1) x.1.2 s else s
  | AckCqEvents q n => fun _ => alter (add_events (- n)) q s
  | EpollCreate => fun x => if x <? 0 then s else <[fd_key x := REpoll]> s
  | EventFd => fun x => if x <? 0 then s else <[fd_key x := REvent]> s
  | NewFlag => fun x => <[x := RFlag false]> s
  | SetFlag f => fun _ => <[f := RFlag true]> s
  | DropFlag f => fun _ => delete f s
  | SpawnWorker f => fun x => acquire x (RWorker f) s
  | CloseFd e => fun _ => delete (fd_key e) s
  | SpawnThread q => fun x => <[x := RThread q false]> s
  | StoreShutdown h => fun _ => alter tell_stop h s
  | JoinThread h => fun _ => delete h s
  | CudaMalloc n => fun x => if x.1 =? 0 then acquire x.2 (RGpu n []) s else s
  | CudaFree p => fun _ => delete p s
  | CudaMemcpyToDevice p src => fun x => if x =? 0 then alter (load_gpu src) p s else s
  | RegMr p a _ _ => fun x => acquire x (RMr p a) s
  | CreateQp p i => fun x => acquire x (RQp p (qi_send_cq i) (qi_recv_cq i) IBV_QPS_RESET 0) s
  | CloseDevice h => fun _ => delete h s
  | DeallocPd h | DestroyCq h | DeregMr h | DestroyQp h => fun _ => delete h s
  | Mmap n => fun x => match x with Some p => <[p := RMap n]> s | None => s end
  | Munmap p _ => fun _ => delete p s
  | ModifyQp q attr mask => fun x =>
      if x =? 0 then
        alter (fun r => match r with
                        | RQp p c1 c2 _ n => RQp p c1 c2 (qa_qp_state attr)
                            (if bool_decide (IBV_QP_DEST_QPN ∈ mask) then qa_dest_qp_num attr else n)
                        | r => r
                        end) q s
      else s
  | _ => fun _ => s
  end.

Fixpoint wp {A} (p : ffi A) (Q : A -> ledger -> Prop) (s : ledger) : Prop :=
  match p with
  | Ret a => Q a s
  | Call v k => allowed v s /\ forall x, legal v s x -> wp (k x) Q (effect v s x)
  end.

Lemma wp_mono {A} (p : ffi A) (Q Q' : A -> ledger -> Prop) s :
  (forall a s', Q a s' -> Q' a s') -> wp p Q s -> wp p Q' s.
Proof.
  intros HQ. revert s. induction p as [a|v k IH]; intros s; cbn; [apply HQ|].
  intros [Ha Hk]. split; [done|]. intros x Hx. by apply IH, Hk.
Qed.

Lemma wp_bind {A B} (m : ffi A) (k : A -> ffi B) Q s :
  wp m (fun a s' => wp (k a) Q s') s -> wp (m ≫= k) Q s.
Proof.
  revert s. induction m as [a|v h IH]; intros s; [done|]. cbn. intros [Ha Hk].
  split; [done|]. intros x Hx. by apply IH, Hk.
Qed.

Lemma wp_call v Q s :
  allowed v s -> (forall x, legal v s x -> Q x (effect v s x)) -> wp (call v) Q s.
Proof. by split. Qed.

Lemma wp_try {A B E} (m : ffi (result A E)) (k : A -> ffi (result B E)) Q s :
  wp m (fun r s' => match r with Ok a => wp (k a) Q s' | Err e => Q (Err e) s' end) s ->
  wp (try_bind m k) Q s.
Proof. intros H. apply wp_bind. eapply wp_mono, H. by intros [a|e] s'. Qed.

Lemma wp_dropping {A E} drop (m : ffi (result A E)) Q s :
  wp m (fun r s' => match r with Ok a => Q (Ok a) s' | Err e => wp drop (fun _ => Q (Err e)) s' end) s ->
  wp (dropping drop m) Q s.
Proof.
  intros H. apply wp_bind. eapply wp_mono, H. intros [a|e] s' Hs; [done|]. apply wp_bind.
  eapply wp_mono, Hs. done.
Qed.

(** [wp] is about runs: an adapter whose answers are legal leaves a ledger that
    satisfies the postcondition. *)
Lemma wp_run {D A} `{Adapter D} (led : D -> ledger) (p : ffi A) Q d :
  (forall v d, allowed v (led d) ->
     let '(x, d') := perform v d in legal v (led d) x /\ led d' = effect v (led d) x) ->
  wp p Q (led d) -> let '(a, d') := run p d in Q a (led d').
Proof.
  intros Hd. revert d. induction p as [a|v k IH]; intros d; cbn; [done|]. intros [Ha Hk].
  specialize (Hd v d Ha). destruct (perform v d) as [x d'], Hd as [Hx Hl].
  apply IH. rewrite Hl. by apply Hk.
Qed.

(** *** Ledger lemmas *)

Lemma closed_unused s h : closed s -> s !! h = None -> unused h s.
Proof.
  intros Hc Hh k r Hk Hin. specialize (Hc k r Hk). rewrite Forall_forall in Hc.
  destruct (Hc h Hin) as [r' Hr']. congruence.
Qed.

Lemma unused_insert s h k r : h ∉ parents r -> unused h s -> unused h (<[k := r]> s).
Proof. intros Hr Hs. by apply map_Forall_insert_2. Qed.

Lemma closed_insert s k r :
  s !! k = None -> Forall (fun h => is_Some (s !! h)) (parents r) -> closed s -> closed (<[k := r]> s).
Proof.
  intros Hk Hr Hs. assert (Hm : forall l, Forall (fun h => is_Some (s !! h)) l ->
    Forall (fun h => is_Some (<[k := r]> s !! h)) l).
  { intros l Hl. eapply Forall_impl; [exact Hl|]. intros h Hh. apply lookup_insert_is_Some'. by right. }
  apply map_Forall_insert_2; [by apply Hm|]. intros i x Hx. apply Hm. by apply (Hs i).
Qed.

Lemma acquire_fresh s h r : h <> 0 -> acquire h r s = <[h := r]> s.
Proof. intros Hh. unfold acquire. by rewrite (proj2 (Z.eqb_neq h 0)). Qed.

Lemma null_or_fresh_ne s h : null_or_fresh s h -> h <> 0 -> s !! h = None.
Proof. by intros [->|]. Qed.

(** *** Rules of the wrappers *)

(** A constructor call followed by the null check. *)
Lemma wp_non_null e h s Q :
  (h = 0 -> Q (Err e) s) -> (h <> 0 -> Q (Ok h) s) -> wp (non_null e h) Q s.
Proof. unfold non_null. destruct (Z.eqb_spec h 0); cbn; auto. Qed.

Lemma wp_check_ret text ret s (Q : result unit RdmaError -> ledger -> Prop) :
  (ret = 0 -> Q (Ok tt) s) -> (forall e, ret <> 0 -> Q (Err e) s) -> wp (check_ret text ret) Q s.
Proof. unfold check_ret. destruct (Z.eqb_spec ret 0); cbn; auto. Qed.

Lemma wp_context_open s Q :
  Q None s ->
  (forall c d, ctx_inner c <> 0 -> s !! ctx_inner c = None ->
     Q (Some c) (<[ctx_inner c := RCtx d]> s)) ->
  closed s -> wp Context_open Q s.
Proof.
  intros Hn Hok Hc. unfold Context_open. cbn. split; [done|]. intros [[l n] first] Hl. cbn in *.
  destruct (Z.eqb_spec l 0) as [->|Hl0]; [done|]. pose proof (null_or_fresh_ne _ _ Hl Hl0) as Hf.
  rewrite acquire_fresh by done. assert (Hd : delete l (<[l := RDevList first]> s) = s) by by apply delete_insert_id.
  destruct (n =? 0); cbn; [split; [eexists; apply lookup_insert_eq|]; intros _ _; by rewrite Hd|].
  destruct (first =? 0); cbn; [split; [eexists; apply lookup_insert_eq|]; intros _ _; by rewrite Hd|].
  split; [eexists; apply lookup_insert_eq|]. intros ctx Hctx.
  destruct (Z.eqb_spec ctx 0) as [->|Hz].
  { cbn. split; [eexists; apply lookup_insert_eq|]. intros _ _. by rewrite Hd. }
  rewrite acquire_fresh by done. apply (null_or_fresh_ne _ _ Hctx) in Hz as Hcf.
  apply lookup_insert_None in Hcf as [Hcs Hne].
  split; [eexists; rewrite lookup_insert_ne by done; apply lookup_insert_eq|]. intros _ _.
  rewrite delete_insert_ne, Hd by done. cbn.
  split; [right; eexists; apply lookup_insert_eq|]. intros [name|] _; cbn.
  - by apply (Hok (mkContext ctx name)).
  - split; [split; [eexists; apply lookup_insert_eq|]|].
    + apply unused_insert; [apply not_elem_of_nil | by apply closed_unused].
    + intros _ _. by rewrite delete_insert_id.
Qed.

Lemma wp_context_drop c s Q :
  is_ctx s (ctx_inner c) -> unused (ctx_inner c) s -> Q tt (delete (ctx_inner c) s) ->
  wp (Context_drop c) Q s.
Proof. intros H1 H2 HQ. cbn. split; [done|]. by intros []. Qed.

Lemma wp_query_port c n s Q :
  is_ctx s (ctx_inner c) -> (forall r, Q r s) -> wp (query_port c n) Q s.
Proof.
  intros H HQ. unfold query_port. cbn. split; [done|]. intros [ret attr] _.
  apply wp_try, wp_check_ret; [intros _; apply HQ | intros e _; apply HQ].
Qed.

Lemma wp_query_gid c n i s Q :
  is_ctx s (ctx_inner c) -> (forall r, Q r s) -> wp (query_gid c n i) Q s.
Proof. intros H HQ. cbn. split; [done|]. intros [ret gid] _. apply HQ. Qed.

Lemma wp_pd_allocate c s Q :
  is_ctx s (ctx_inner c) -> (forall e, Q (Err e) s) ->
  (forall p, pd_inner p <> 0 -> s !! pd_inner p = None -> Q (Ok p) (<[pd_inner p := RPd (ctx_inner c)]> s)) ->
  wp (ProtectionDomain_allocate c) Q s.
Proof.
  intros H He Hok. unfold ProtectionDomain_allocate. cbn. split; [done|]. intros p Hp.
  apply wp_try, wp_non_null; [intros ->; apply He|]. intros Hz. rewrite acquire_fresh by done.
  apply (Hok (mkPd p)); [done | by apply null_or_fresh_ne].
Qed.

Lemma wp_pd_drop p s Q :
  is_pd s (pd_inner p) -> unused (pd_inner p) s -> Q tt (delete (pd_inner p) s) ->
  wp (ProtectionDomain_drop p) Q s.
Proof. intros H1 H2 HQ. cbn. split; [done|]. by intros x ->. Qed.

Lemma wp_cq_create c n x ch v s Q :
  is_ctx s (ctx_inner c) -> ch = 0 \/ is_chan s ch -> (forall e, Q (Err e) s) ->
  (forall q, cq_inner q <> 0 -> s !! cq_inner q = None -> Q (Ok q) (<[cq_inner q := RCq (ctx_inner c) ch 0]> s)) ->
  wp (CompletionQueue_create c n x ch v) Q s.
Proof.
  intros H Hch He Hok. unfold CompletionQueue_create. cbn. split; [done|]. intros q Hq.
  apply wp_try, wp_non_null; [intros ->; apply He|]. intros Hz. rewrite acquire_fresh by done.
  apply (Hok (mkCq q)); [done | by apply null_or_fresh_ne].
Qed.

Lemma wp_cq_drop q s Q :
  (exists c ch, s !! cq_inner q = Some (RCq c ch 0)) -> unused (cq_inner q) s -> Q tt (delete (cq_inner q) s) ->
  wp (CompletionQueue_drop q) Q s.
Proof. intros H1 H2 HQ. cbn. split; [done|]. by intros x ->. Qed.

Lemma wp_qp_create p c1 c2 n1 n2 n3 n4 ty s Q :
  is_pd s (pd_inner p) -> is_cq s (cq_inner c1) -> is_cq s (cq_inner c2) -> (forall e, Q (Err e) s) ->
  (forall q, qp_inner q <> 0 -> s !! qp_inner q = None -> qp_num q = qp_no (qp_inner q) ->
     Q (Ok q) (<[qp_inner q := RQp (pd_inner p) (cq_inner c1) (cq_inner c2) IBV_QPS_RESET 0]> s)) ->
  wp (QueuePair_create p c1 c2 n1 n2 n3 n4 ty) Q s.
Proof.
  intros H H1 H2 He Hok. unfold QueuePair_create. cbn. split; [done|]. intros q Hq.
  apply wp_try, wp_non_null; [intros ->; apply He|]. intros Hz. rewrite acquire_fresh by done. cbn.
  split; [do 5 eexists; apply lookup_insert_eq|]. intros x ->.
  apply (Hok (mkQp q _)); [done | by apply null_or_fresh_ne | done].
Qed.

Lemma wp_qp_drop q s Q :
  is_qp s (qp_inner q) -> Q tt (delete (qp_inner q) s) -> wp (QueuePair_drop q) Q s.
Proof. intros H1 HQ. cbn. split; [done|]. by intros x ->. Qed.

(** A transition of the state machine with the attributes it requires. *)
Lemma wp_modify h attr mask text s p c1 c2 st n m (Q : result unit RdmaError -> ledger -> Prop) :
  required_mask st (qa_qp_state attr) = Some m -> m ⊆ mask ->
  (forall e, Q (Err e) (<[h := RQp p c1 c2 st n]> s)) ->
  Q (Ok tt) (<[h := RQp p c1 c2 (qa_qp_state attr)
     (if bool_decide (IBV_QP_DEST_QPN ∈ mask) then qa_dest_qp_num attr else n)]> s) ->
  wp (ret ← call (ModifyQp h attr mask); check_ret text ret) Q (<[h := RQp p c1 c2 st n]> s).
Proof.
  intros Hm Hsub He Hok. cbn. split; [do 6 eexists; split; [apply lookup_insert_eq | done]|].
  intros x _. apply wp_check_ret.
  - intros ->. cbn. by rewrite alter_insert_eq.
  - intros e Hx. rewrite (proj2 (Z.eqb_neq x 0)) by done. apply He.
Qed.
End logic.

(** ** The posted chain *)

(** The requests an adapter reaches from the first one along [next]. *)
Fixpoint walk (fuel : nat) (wrs : list ibv_send_wr) (i : nat) : list ibv_send_wr :=
  match fuel with
  | O => []
  | S fuel =>
      match wrs !! i with
      | None => []
      | Some w => w :: match swr_next w with Some j => walk fuel wrs j | None => [] end
      end
  end.
Definition posted (wrs : list ibv_send_wr) : list ibv_send_wr := walk (length wrs) wrs 0.

Definition signaled (w : ibv_send_wr) : bool := bool_decide (IBV_SEND_SIGNALED ∈ swr_send_flags w).

(** What a request asks of the adapter, signalling and linking apart. *)
Definition payload (w : ibv_send_wr) : Z * ibv_wr_opcode * list ibv_sge * ibv_wr_union :=
  (swr_wr_id w, swr_opcode w, swr_sg_list w, swr_wr w).
Definition request_payload (wr : SendWorkRequest) : Z * ibv_wr_opcode * list ibv_sge * ibv_wr_union :=
  (wr_id wr, map_send_opcode (wr_opcode wr), wr_sge wr, wr_union_of wr).

Lemma length_link ws k : length (foldl link_one ws (seq 0 k)) = length ws.
Proof. induction k as [|k IH]; [done|]. rewrite seq_S, foldl_app. cbn. unfold link_one at 1. by rewrite length_alter. Qed.

Lemma lookup_link ws k i :
  foldl link_one ws (seq 0 k) !! i
  = (fun w => if (i <? k)%nat then set_next w (Some (S i)) else w) <$> ws !! i.
Proof.
  induction k as [|k IH]; [cbn; by destruct (ws !! i)|]. rewrite seq_S, foldl_app. cbn [foldl Nat.add]. unfold link_one at 1.
  destruct (decide (i = k)) as [->|Hne].
  - rewrite list_lookup_alter_eq, IH, Nat.ltb_irrefl, (proj2 (Nat.ltb_lt k (S k))) by lia. by destruct (ws !! k).
  - rewrite list_lookup_alter_ne, IH by done. assert (E : (i <? S k)%nat = (i <? k)%nat).
    { destruct (Nat.ltb_spec i k), (Nat.ltb_spec i (S k)); (done || lia). }
    by rewrite E.
Qed.

(** In a linked array every request but the last points to its successor. *)
Definition linked (ws : list ibv_send_wr) : Prop :=
  forall i w, ws !! i = Some w -> swr_next w = if (S i <? length ws)%nat then Some (S i) else None.

Lemma link_chain_linked ws : Forall (fun w => swr_next w = None) ws -> linked (link_chain ws).
Proof.
  intros Hn i w Hw. unfold link_chain in *. rewrite length_link.
  rewrite lookup_link in Hw. apply fmap_Some in Hw as (w0 & Hw0 & ->).
  pose proof (lookup_lt_Some _ _ _ Hw0). pose proof (Forall_lookup_1 _ _ _ _ Hn Hw0).
  destruct (Nat.ltb_spec i (length ws - 1)), (Nat.ltb_spec (S i) (length ws)); (done || lia).
Qed.

Lemma walk_linked ws i : linked ws -> (i <= length ws)%nat -> walk (length ws - i) ws i = drop i ws.
Proof.
  intros Hl. remember (length ws - i)%nat as n eqn:En. revert i En.
  induction n as [|n IH]; intros i En Hi.
  { rewrite drop_ge by lia. done. }
  destruct (lookup_lt_is_Some_2 ws i ltac:(lia)) as [w Hw]. cbn [walk]. rewrite Hw, (Hl i w Hw).
  rewrite (drop_S _ _ _ Hw). f_equal. destruct (Nat.ltb_spec (S i) (length ws)).
  - apply IH; lia.
  - by rewrite drop_ge by lia.
Qed.

Lemma posted_linked ws : linked ws -> posted ws = ws.
Proof. intros Hl. unfold posted. rewrite <- (Nat.sub_0_r (length ws)), walk_linked by (done || lia). by rewrite drop_0. Qed.

Lemma build_chain_unlinked wrs : Forall (fun w => swr_next w = None) (build_chain wrs).
Proof.
  apply Forall_lookup_2. intros i w. unfold build_chain. rewrite list_lookup_imap.
  intros (x & _ & ->)%fmap_Some. done.
Qed.

Lemma posted_batch wrs : posted (link_chain (build_chain wrs)) = link_chain (build_chain wrs).
Proof. apply posted_linked, link_chain_linked, build_chain_unlinked. Qed.

Lemma length_build_chain wrs : length (build_chain wrs) = length wrs.
Proof. apply length_imap. Qed.

(** The [i]-th posted request is the [i]-th one of the batch. *)
Lemma lookup_batch wrs i :
  exists nxt, link_chain (build_chain wrs) !! i
  = (fun wr => set_next (build_send_wr wr
       (if (i =? length wrs - 1)%nat then wr_send_flags wr ∪ {[IBV_SEND_SIGNALED]}
        else wr_send_flags wr ∖ {[IBV_SEND_SIGNALED]})) nxt) <$> wrs !! i.
Proof.
  unfold link_chain. rewrite lookup_link, length_build_chain. unfold build_chain. rewrite list_lookup_imap.
  destruct (i <? length wrs - 1)%nat; eexists; destruct (wrs !! i); cbn; reflexivity.
Qed.

Lemma batch_payload wrs : payload <$> link_chain (build_chain wrs) = request_payload <$> wrs.
Proof.
  apply list_eq. intros i. rewrite !list_lookup_fmap. destruct (lookup_batch wrs i) as [nxt ->].
  by destruct (wrs !! i).
Qed.

Lemma batch_signaled wrs :
  signaled <$> link_chain (build_chain wrs) = imap (fun i _ => (i =? length wrs - 1)%nat) wrs.
Proof.
  apply list_eq. intros i. rewrite list_lookup_fmap, list_lookup_imap. destruct (lookup_batch wrs i) as [nxt ->].
  destruct (wrs !! i) as [wr|]; [|done]. cbn. f_equal. unfold signaled. cbn.
  destruct (i =? length wrs - 1)%nat; [by apply bool_decide_eq_true_2; set_solver | by apply bool_decide_eq_false_2; set_solver].
Qed.

Definition healthy_state (st : ibv_qp_state) : bool :=
  match st with IBV_QPS_ERR | IBV_QPS_UNKNOWN => false | _ => true end.

(** ** Properties *)

(** C31. [post_send_batch] rings the doorbell once with the whole batch: an empty
    batch is refused without a call; otherwise the adapter gets one call whose
    chain, followed along the [next] pointers, holds the requests of the batch in
    order with their ids, opcodes, scatter/gather entries and operands, exactly
    the last one is signalled, and the result is the id of the last request or
    the library's error. *)
Theorem post_send_batch_spec {D} `{Adapter D} q wrs (d : D) :
  match last wrs with
  | None => run (post_send_batch q wrs) d = (Err (Internal "empty batch"), d)
  | Some l => exists chain,
      run (post_send_batch q wrs) d
      = (let '(ret, d') := perform (PostSend (qp_inner q) chain) d in
         (if ret =? 0 then Ok (wr_id l)
          else Err (HardwareError ("ibv_post_send (batch) failed: ret=" +:+ pretty ret)), d'))
      /\ payload <$> posted chain = request_payload <$> wrs
      /\ signaled <$> posted chain = imap (fun i _ => (i =? length wrs - 1)%nat) wrs
  end.
Proof.
  unfold post_send_batch. destruct (last wrs) as [l|]; [|done].
  exists (link_chain (build_chain wrs)). rewrite posted_batch. split_and!.
  - cbn. destruct (perform _ d) as [ret d']. by destruct (ret =? 0).
  - apply batch_payload.
  - apply batch_signaled.
Qed.

(** C32. The guarded posts: the health check is one query.  When it fails or the
    queue pair is in an error state, nothing is posted, the error is recorded in
    the guard, the recovery counter counts exactly the error states, and the
    error is one that the retry layer does not retry; otherwise the guard is
    unchanged and the result is the one of the plain post. *)
Theorem qp_guard_spec {D} `{Adapter D} g wr (d : D) :
  let '(q, d1) := perform (QueryQp (qp_inner (qg_qp g))) d in
  let '(ret, st) := q in
  if (ret =? 0) && healthy_state st then
    run (guard_post_send g wr) d = (let '(r, d2) := run (post_send (qg_qp g) wr) d1 in ((g, r), d2))
  else exists e,
    run (guard_post_send g wr) d
    = ((mkQpGuard (qg_qp g) (if ret =? 0 then u64 (recovery_count g + 1) else recovery_count g) (Some e), Err e), d1)
    /\ is_retriable e = false.
Proof.
  unfold guard_post_send, guarded, check_health. rewrite !run_bind. cbn [call run].
  destruct (perform (QueryQp (qp_inner (qg_qp g))) d) as [[ret st] d1]. cbn [mbind ffi_bind ffi_bind_go run].
  destruct (ret =? 0) eqn:Er; cbn [negb andb]; [|eexists; split; done].
  destruct st; cbn [healthy_state run ffi_bind_go]; try (eexists; split; done);
    rewrite run_bind; by destruct (run (post_send (qg_qp g) wr) d1).
Qed.
