(* ===== verification/PollerThread.v ===== *)
(** * PollerThread: the poller threads as programs
    ([Poller] and [AsyncPoller] of src/runtime/poller.rs)

    The closures that the two pollers spawn, with their set-up and every exit,
    and the spawning, stopping and dropping of the threads, as programs over the
    foreign calls.  Where a loop of the source has no bound the model has fuel and
    answers whether the thread returned.  The theorems: whatever the kernel and
    the library answer, the event-driven thread follows their rules, acknowledges
    each event it takes, and closes its descriptor on every way out; and both
    threads return once their flag is set. *)

From stdpp Require Import finite.
From S2P Require Import Prelude Errors Verbs VerbsProps.

Open Scope Z_scope.
Local Open Scope rdmas_scope.

Record AsyncPollerConfig : Type := mkApConfig {
  busy_poll_fallback : bool;
  epoll_timeout_ms : Z;
  busy_poll_iterations : nat
}.

Definition AsyncPollerConfig_default : AsyncPollerConfig := mkApConfig false 1 100.

(** ** The threads *)

(** An error of the poll is logged. *)
Definition harvest_completions (cq : CompletionQueue) : ffi bool :=
  r ← CompletionQueue_poll cq 16;
  match r with
  | Ok (wc :: wcs) => call (Dispatch (wc :: wcs)) ;; Ret true
  | Ok [] => Ret false
  | Err _ => Ret false
  end.

(** A failure is logged. *)
Definition set_core_affinity (cpu_core : option Z) : ffi unit :=
  match cpu_core with Some core => _ ← call (SetAffinity core); Ret tt | None => Ret tt end.

(** The loop of [Poller]; its dispatch is written out in place in the source. *)
Fixpoint poller_loop (fuel : nat) (cq : CompletionQueue) (flag : Z) : ffi bool :=
  match fuel with
  | O => Ret false
  | S fuel =>
      stop ← call (LoadShutdown flag);
      if (stop : bool) then Ret true
      else _ ← harvest_completions cq; poller_loop fuel cq flag
  end.

Definition poller_thread (fuel : nat) (cq : CompletionQueue) (cpu_core : option Z) (flag : Z) : ffi bool :=
  set_core_affinity cpu_core ;; poller_loop fuel cq flag.

(** [for _ in 0..config.busy_poll_iterations]. *)
Fixpoint busy_poll (n : nat) (cq : CompletionQueue) (deadline : Z) : ffi unit :=
  match n with
  | O => Ret tt
  | S n =>
      now ← call InstantNow;
      if deadline <=? now then Ret tt
      else _ ← harvest_completions cq; busy_poll n cq deadline
  end.

(** A readable channel: the event is acknowledged on the poller's own queue. *)
Definition on_event (channel : CqEventChannel) (cq : CompletionQueue) : ffi unit :=
  r ← get_event channel;
  match r with
  | Ok _ =>
      ack_events cq 1 ;;
      _ ← harvest_completions cq;
      _ ← request_notification cq false;
      Ret tt
  | Err _ => Ret tt
  end.

(** [Duration::from_millis(config.epoll_timeout_ms as u64)], in nanoseconds, the
    unit of [InstantNow]. *)
Definition fallback_window (cfg : AsyncPollerConfig) : Z := u64 (epoll_timeout_ms cfg) * 1000000.

(** One turn after [epoll_wait]; after an error or a signal the loop goes on. *)
Definition on_wait (cfg : AsyncPollerConfig) (channel : CqEventChannel) (cq : CompletionQueue) (nfds : Z) : ffi unit :=
  if nfds <? 0 then _ ← call LastOsError; Ret tt
  else if 0 <? nfds then on_event channel cq
  else if busy_poll_fallback cfg then
    start ← call InstantNow;
    busy_poll (busy_poll_iterations cfg) cq (start + fallback_window cfg)
  else Ret tt.

Fixpoint async_loop (fuel : nat) (cfg : AsyncPollerConfig) (channel : CqEventChannel) (cq : CompletionQueue)
    (flag epoll_fd : Z) : ffi bool :=
  match fuel with
  | O => Ret false
  | S fuel =>
      stop ← call (LoadShutdown flag);
      if (stop : bool) then Ret true
      else
        nfds ← call (EpollWait epoll_fd (epoll_timeout_ms cfg));
        on_wait cfg channel cq nfds ;;
        async_loop fuel cfg channel cq flag epoll_fd
  end.

(** The closure of [spawn_with_config]. *)
Definition async_thread (fuel : nat) (cfg : AsyncPollerConfig) (channel : CqEventChannel) (cq : CompletionQueue)
    (cpu_core : option Z) (flag : Z) : ffi bool :=
  set_core_affinity cpu_core ;;
  epoll_fd ← call EpollCreate;
  if epoll_fd <? 0 then _ ← call LastOsError; Ret true
  else
    fd ← channel_fd channel;
    ret ← call (EpollAdd epoll_fd fd);
    if negb (ret =? 0) then
      _ ← call LastOsError;
      _ ← call (CloseFd epoll_fd);
      Ret true
    else
      flags ← call (FcntlGetFl fd);
      (if 0 <=? flags then _ ← call (FcntlSetNonblock fd flags); Ret tt else Ret tt) ;;
      r ← request_notification cq false;
      match r with
      | Err _ => _ ← call (CloseFd epoll_fd); Ret true
      | Ok _ =>
          returned ← async_loop fuel cfg channel cq flag epoll_fd;
          if (returned : bool) then _ ← call (CloseFd epoll_fd); Ret true else Ret false
      end.

(** ** Spawning and stopping *)

(** Both pollers; the reference to the queue, and of [AsyncPoller] to the channel,
    is shared with the thread.  [pl_shutdown] names the flag by the thread. *)
Record Poller : Type := mkPoller { pl_cq : CompletionQueue; pl_handle : option Z; pl_shutdown : Z }.

Definition Poller_spawn (cq : CompletionQueue) : ffi Poller :=
  handle ← call (SpawnThread (cq_inner cq));
  Ret (mkPoller cq (Some handle) handle).

(** [Drop]: the outcome of the join is ignored. *)
Definition Poller_drop (p : Poller) : ffi unit :=
  call (StoreShutdown (pl_shutdown p)) ;;
  match pl_handle p with Some handle => _ ← call (JoinThread handle); Ret tt | None => Ret tt end.

(** [text] is the error of the poller's kind; [self] is dropped on return. *)
Definition Poller_shutdown (text : string) (p : Poller) : ffi (result unit RdmaError) :=
  call (StoreShutdown (pl_shutdown p)) ;;
  r ← match pl_handle p with
      | Some handle => panicked ← call (JoinThread handle);
                       Ret (if (panicked : bool) then Err (Internal text) else Ok tt)
      | None => Ret (Ok tt)
      end;
  Poller_drop (mkPoller (pl_cq p) None (pl_shutdown p)) ;;
  Ret r.

(** The event-driven poller; it also keeps the channel alive. *)
Record AsyncPoller : Type := mkAsyncPoller { as_poller : Poller; as_channel : CqEventChannel }.

Definition AsyncPoller_spawn_with_config (cq : CompletionQueue) (channel : CqEventChannel) : ffi AsyncPoller :=
  p ← Poller_spawn cq;
  Ret (mkAsyncPoller p channel).

Definition AsyncPoller_drop (p : AsyncPoller) : ffi unit := Poller_drop (as_poller p).

Definition AsyncPoller_shutdown (p : AsyncPoller) : ffi (result unit RdmaError) :=
  Poller_shutdown "RDMA async poller thread panicked" (as_poller p).

(** ** The threads follow the rules *)

Section threads.
Context (qp_no : Z -> Z).
Abbreviation wp := (wp qp_no).
Implicit Types (s : ledger).

Lemma wp_poll cq n s Q : is_cq s (cq_inner cq) -> (forall r, Q r s) -> wp (CompletionQueue_poll cq n) Q s.
Proof.
  intros Hq HQ. unfold CompletionQueue_poll. destruct (n =? 0); [apply HQ|]. cbn.
  split; [done|]. intros [ret wcs] _. destruct (ret <? 0); apply HQ.
Qed.

Lemma wp_harvest cq s (Q : bool -> ledger -> Prop) :
  is_cq s (cq_inner cq) -> (forall b, Q b s) -> wp (harvest_completions cq) Q s.
Proof.
  intros Hq HQ. apply wp_bind, wp_poll; [done|]. intros [[|wc wcs]|e]; [apply HQ | | apply HQ].
  cbn. split; [done|]. intros _ _. apply HQ.
Qed.

Lemma wp_affinity core s (Q : unit -> ledger -> Prop) : Q tt s -> wp (set_core_affinity core) Q s.
Proof. intros HQ. destruct core; [cbn; by split | done]. Qed.

Lemma wp_notify cq b s Q : is_cq s (cq_inner cq) -> (forall r, Q r s) -> wp (request_notification cq b) Q s.
Proof. intros Hq HQ. cbn. split; [done|]. intros ret _. apply wp_check_ret; auto. Qed.

Lemma wp_busy_poll n cq deadline s (Q : unit -> ledger -> Prop) :
  is_cq s (cq_inner cq) -> Q tt s -> wp (busy_poll n cq deadline) Q s.
Proof.
  intros Hq HQ. induction n as [|n IH]; [done|]. cbn [busy_poll]. apply wp_bind, wp_call; [done|]. intros now _.
  destruct (deadline <=? now); [done|]. apply wp_bind, wp_harvest; [done|]. intros _. exact IH.
Qed.

(** The poller's queue is on the channel, and no other queue is. *)
Definition sole_queue (s : ledger) (channel cq : Z) : Prop :=
  is_chan s channel /\ (exists c u, s !! cq = Some (RCq c channel u) /\ 0 <= u)
  /\ forall q c u, s !! q = Some (RCq c channel u) -> q = cq.

Lemma sole_is_cq s channel cq : sole_queue s channel cq -> is_cq s cq.
Proof. intros (_ & (c & u & E & _) & _). by exists c, channel, u. Qed.

Lemma sole_epoll s channel cq fd : sole_queue s channel cq -> s !! fd_key fd = None -> sole_queue (<[fd_key fd := REpoll]> s) channel cq.
Proof.
  intros ([c Hc] & (c' & u & Hq & Hu) & Hs) Hf. split_and!.
  - exists c. rewrite lookup_insert_ne; congruence.
  - exists c', u. rewrite lookup_insert_ne; [done | congruence].
  - intros q c2 u2 [[_ [=]]|[_ H]]%lookup_insert_Some. by eapply Hs.
Qed.

(** An event is taken and acknowledged: the ledger is as before. *)
Lemma wp_on_event channel cq s (Q : unit -> ledger -> Prop) :
  sole_queue s (ch_inner channel) (cq_inner cq) -> Q tt s -> wp (on_event channel cq) Q s.
Proof.
  intros Hs HQ. destruct Hs as (Hch & (c & u & Hq & Hu) & Hsole).
  apply wp_bind, wp_bind, wp_call; [done|]. intros [[ret q] ctx] Hx. cbn in Hx. cbn [effect fst snd].
  apply wp_try, wp_check_ret; [intros ->|intros e Hr; by rewrite (proj2 (Z.eqb_neq ret 0))].
  change (0 =? 0) with true. cbn iota.
  destruct (Hx eq_refl) as (c' & u' & Hq'). assert (q = cq_inner cq) as -> by (by eapply Hsole).
  rewrite Hq in Hq'. injection Hq' as <- <-.
  assert (Hback : alter (add_events (-1)) (cq_inner cq) (alter (add_events 1) (cq_inner cq) s) = s).
  { apply map_eq. intros k. destruct (decide (k = cq_inner cq)) as [->|Hne]; [|by rewrite !lookup_alter_ne].
    rewrite !lookup_alter_eq, Hq. cbn. do 2 f_equal. lia. }
  apply wp_bind, wp_call.
  { exists c, (ch_inner channel), (u + 1). rewrite lookup_alter_eq, Hq. cbn. split; [done | lia]. }
  intros x _. cbn [effect]. change (- (1)) with (-1). rewrite Hback.
  apply wp_bind, wp_harvest; [by exists c, (ch_inner channel), u|]. intros _.
  apply wp_bind, wp_notify; [by exists c, (ch_inner channel), u | done].
Qed.

Lemma wp_async_loop fuel cfg channel cq flag fd s (Q : bool -> ledger -> Prop) :
  sole_queue s (ch_inner channel) (cq_inner cq) -> s !! fd_key fd = Some REpoll -> (forall b, Q b s) ->
  wp (async_loop fuel cfg channel cq flag fd) Q s.
Proof.
  intros Hs Hf HQ. induction fuel as [|fuel IH]; [apply HQ|]. cbn [async_loop].
  apply wp_bind, wp_call; [done|]. intros [|] _; [apply HQ|].
  apply wp_bind, wp_call; [done|]. intros nfds _. apply wp_bind. unfold on_wait.
  destruct (nfds <? 0); [by split|]. destruct (0 <? nfds); [by apply wp_on_event|].
  destruct (busy_poll_fallback cfg); [|exact IH]. apply wp_bind, wp_call; [done|]. intros now _.
  apply wp_busy_poll; [by eapply sole_is_cq | exact IH].
Qed.

Lemma wp_async_thread fuel cfg channel cq core flag s :
  sole_queue s (ch_inner channel) (cq_inner cq) ->
  wp (async_thread fuel cfg channel cq core flag)
    (fun returned s' => if returned then s' = s else exists fd, s !! fd_key fd = None /\ s' = <[fd_key fd := REpoll]> s) s.
Proof.
  intros Hs. apply wp_bind, wp_affinity. apply wp_bind, wp_call; [done|]. intros fd Hfd. cbn [effect].
  destruct (Z.ltb_spec fd 0) as [Hn|Hn]; [by split|]. destruct Hfd as [Hfd|Hfd]; [lia|].
  pose proof (sole_epoll s _ _ fd Hs Hfd) as Hs1. set (s1 := <[fd_key fd := REpoll]> s) in *.
  assert (He : s1 !! fd_key fd = Some REpoll) by apply lookup_insert_eq.
  assert (Hd : delete (fd_key fd) s1 = s) by (unfold s1; by rewrite delete_insert_id).
  apply wp_bind, wp_call; [apply Hs1|]. intros cfd _. apply wp_bind, wp_call; [done|]. intros ret _.
  destruct (negb (ret =? 0)); [split; [done|]; intros e _; by split; [left|]|].
  apply wp_bind, wp_call; [done|]. intros flags _. apply wp_bind.
  eapply (wp_mono qp_no _ (fun _ s' => s' = s1)); [|by destruct (0 <=? flags); [split|]].
  intros _ ? ->. apply wp_bind, wp_notify; [by eapply sole_is_cq|]. intros [_|e]; [|by split; [left|]].
  apply wp_bind, wp_async_loop; [done | done |]. intros [|]; [by split; [left|] | by exists fd].
Qed.

Lemma wp_poller_thread fuel cq core flag s (Q : bool -> ledger -> Prop) :
  is_cq s (cq_inner cq) -> (forall b, Q b s) -> wp (poller_thread fuel cq core flag) Q s.
Proof.
  intros Hq HQ. apply wp_bind, wp_affinity. induction fuel as [|fuel IH]; [apply HQ|]. cbn [poller_loop].
  apply wp_bind, wp_call; [done|]. intros [|] _; [apply HQ|]. apply wp_bind, wp_harvest; [done|]. intros _. exact IH.
Qed.

(** *** Spawn, stop and drop *)

Lemma wp_poller_spawn cq s (Q : Poller -> ledger -> Prop) :
  is_cq s (cq_inner cq) ->
  (forall h, h <> 0 -> s !! h = None -> Q (mkPoller cq (Some h) h) (<[h := RThread (cq_inner cq) false]> s)) ->
  wp (Poller_spawn cq) Q s.
Proof. intros Hq HQ. cbn. split; [done|]. intros h [Hh Hf]. by apply HQ. Qed.

Lemma wp_poller_drop cq h s (Q : unit -> ledger -> Prop) :
  s !! h = None -> Q tt s ->
  wp (Poller_drop (mkPoller cq (Some h) h)) Q (<[h := RThread (cq_inner cq) false]> s).
Proof.
  intros Hf HQ. cbn. split; [done|]. intros _ _. rewrite alter_insert_eq. cbn.
  split; [left; eexists; apply lookup_insert_eq|]. intros _ _. by rewrite delete_insert_id.
Qed.

(** The thread is joined once, after it was told to stop, and the second drop does
    not join it again. *)
Lemma wp_poller_shutdown text cq h s (Q : result unit RdmaError -> ledger -> Prop) :
  s !! h = None -> Q (Ok tt) s -> Q (Err (Internal text)) s ->
  wp (Poller_shutdown text (mkPoller cq (Some h) h)) Q (<[h := RThread (cq_inner cq) false]> s).
Proof.
  intros Hf Hok He. cbn. split; [done|]. intros _ _. rewrite alter_insert_eq. cbn.
  split; [left; eexists; apply lookup_insert_eq|]. intros panicked _. rewrite delete_insert_id by done.
  split; [done|]. intros _ _. rewrite alter_id by (intros x E; congruence). by destruct panicked.
Qed.

(** A poller that is spawned and shut down leaves the ledger as it was. *)
Lemma wp_async_poller_life cq channel s (Q : result unit RdmaError -> ledger -> Prop) :
  is_cq s (cq_inner cq) -> (forall r, Q r s) ->
  wp (p ← AsyncPoller_spawn_with_config cq channel; AsyncPoller_shutdown p) Q s.
Proof.
  intros Hq HQ. apply wp_bind. unfold AsyncPoller_spawn_with_config. apply wp_bind, wp_poller_spawn; [done|].
  intros h _ Hh. apply wp_poller_shutdown; [done | apply HQ..].
Qed.
End threads.

(** ** Properties *)

(** The channel's only queue: what [AsyncPoller::spawn] expects. *)
Definition sample_channel_ledger : ledger := {[1 := RCtx 9; 2 := RChan 1; 3 := RCq 1 2 0]}.
(** A second queue on the same channel. *)
Definition shared_channel_ledger : ledger := <[4 := RCq 1 2 0]> sample_channel_ledger.

(** C15. The event-driven poller thread, whatever the kernel and the verbs library
    answer, with any configuration and for any number of turns, when its queue is
    the only one on the channel: every call is made on live objects, each event it
    takes is acknowledged before the next one, and on every way out, the failing
    ones of the set-up included, it has closed its epoll descriptor and left all
    other objects as they were. *)
Theorem async_thread_safe qp_no fuel cfg channel cq core flag s :
  sole_queue s (ch_inner channel) (cq_inner cq) ->
  wp qp_no (async_thread fuel cfg channel cq core flag)
    (fun returned s' => if returned then s' = s
                        else exists fd, s !! fd_key fd = None /\ s' = <[fd_key fd := REpoll]> s) s.
Proof. apply wp_async_thread. Qed.

Lemma async_thread_safe_witness :
  wp (fun h => h) (async_thread 100 AsyncPollerConfig_default (mkChannel 2) (mkCq 3) (Some 0) 7)
    (fun returned s' => if returned then s' = sample_channel_ledger else s' !! 3 = Some (RCq 1 2 0)) sample_channel_ledger.
Proof.
  eapply wp_mono, (async_thread_safe (fun h => h) 100 AsyncPollerConfig_default (mkChannel 2) (mkCq 3) (Some 0) 7).
  - intros [|] s'; [done|]. intros (fd & Hf & ->). rewrite lookup_insert_ne; [reflexivity|]. intros E.
    rewrite E in Hf. discriminate Hf.
  - split_and!; [by exists 1 | by exists 1, 0|]. intros q c u. unfold sample_channel_ledger, singletonM, map_singleton.
    intros [[<- H]|[_ [[<- H]|[_ [[<- H]|[_ H]]%lookup_insert_Some]]%lookup_insert_Some]]%lookup_insert_Some;
      [discriminate H | discriminate H | done | by rewrite lookup_empty in H].
Defined.

(** With a second queue on the channel the thread can take an event of that queue
    and acknowledge one of its own, which has none. *)
Theorem shared_channel_misacknowledged qp_no :
  ~ wp qp_no (async_thread 1 AsyncPollerConfig_default (mkChannel 2) (mkCq 3) None 7) (fun _ _ => True)
      shared_channel_ledger.
Proof.
  intros [_ H]. specialize (H 5 (or_intror eq_refl)). destruct H as [_ H]. specialize (H 6 I). destruct H as [_ H].
  specialize (H 0 I). destruct H as [_ H]. specialize (H (-1) I). destruct H as [_ H]. specialize (H 0 I).
  destruct H as [_ H]. specialize (H false I). destruct H as [_ H]. specialize (H 1 I). destruct H as [_ H].
  specialize (H (0, 4, 0)). destruct H as [(c & ch & u & E & Hu) _].
  - intros _. by exists 1, 0.
  - vm_compute in E. injection E as <- <- <-. lia.
Qed.

(** ** Stopping *)

(** An environment in which the flag is set after a bounded number of reads:
    [reads_left] bounds the reads that still answer [false], and no other call
    moves the bound up. *)
Class StoppingAdapter (D : Type) `{Adapter D} (flag : Z) : Type := {
  reads_left : D -> nat;
  reads_left_le : forall v d, (reads_left (perform v d).2 <= reads_left d)%nat;
  load_shutdown_spec : forall d,
    (perform (LoadShutdown flag) d).1 = true
    \/ (reads_left (perform (LoadShutdown flag) d).2 < reads_left d)%nat
}.

(** The environment that answers every other call by [ans] and sets the flag after
    [n] reads. *)
Definition countdown_adapter (ans : forall v, answer v) : Adapter nat := fun v =>
  match v with LoadShutdown _ => fun n => (Nat.eqb n 0, Nat.pred n) | v => fun n => (ans v, n) end.

Lemma countdown_stopping ans flag : @StoppingAdapter nat (countdown_adapter ans) flag.
Proof.
  refine {| reads_left := fun n => n |}.
  - intros v d. destruct v; cbn; lia.
  - intros [|n]; cbn; [by left | right; lia].
Defined.

Section stopping.
Context {D : Type} (flag : Z) `{StoppingAdapter D flag}.

Lemma run_reads_left {A} (p : ffi A) d : (reads_left (run p d).2 <= reads_left d)%nat.
Proof.
  revert d. induction p as [a|v k IH]; intros d; cbn [run]; [done|].
  pose proof (reads_left_le v d) as Hv. destruct (perform v d) as [x d']. specialize (IH x d'). cbn in Hv. lia.
Qed.

(** A loop that tests the flag before each turn. *)
Lemma run_until_stop (turn : ffi bool) d bound :
  (forall d', (reads_left d' < bound)%nat -> (run turn d').1 = true) -> (reads_left d < S bound)%nat ->
  (run (stop ← call (LoadShutdown flag); if (stop : bool) then Ret true else turn) d).1 = true.
Proof.
  intros Hturn Hd. rewrite run_bind. cbn [call run].
  pose proof (load_shutdown_spec d) as Hs. destruct (perform (LoadShutdown flag) d) as [[|] d1]; [done|].
  destruct Hs as [Hs|Hs]; cbn in Hs; [done|]. apply Hturn. lia.
Qed.

(** A turn does not add reads. *)
Lemma run_then {A} (m : ffi A) (k : A -> ffi bool) d bound :
  (forall a d', (reads_left d' < bound)%nat -> (run (k a) d').1 = true) -> (reads_left d < bound)%nat ->
  (run (m ≫= k) d).1 = true.
Proof.
  intros Hk Hd. rewrite run_bind. pose proof (run_reads_left m d) as Hm. destruct (run m d) as [a d'].
  apply Hk. cbn in Hm. lia.
Qed.

Lemma poller_loop_stops fuel cq d : (reads_left d < fuel)%nat -> (run (poller_loop fuel cq flag) d).1 = true.
Proof.
  revert d. induction fuel as [|fuel IH]; intros d Hd; [lia|].
  apply run_until_stop with fuel; [|done]. intros d' Hd'. by apply run_then with fuel.
Qed.

Lemma async_loop_stops fuel cfg channel cq fd d :
  (reads_left d < fuel)%nat -> (run (async_loop fuel cfg channel cq flag fd) d).1 = true.
Proof.
  revert d. induction fuel as [|fuel IH]; intros d Hd; [lia|].
  apply run_until_stop with fuel; [|done]. intros d' Hd'.
  apply run_then with fuel; [|done]. intros nfds d'' Hd''. by apply run_then with fuel.
Qed.

(** Both threads return once the flag is set: if at most [n] reads of it answer
    [false], more than [n] turns are never needed, whatever the other calls
    answer, errors of the set-up included. *)
Theorem poller_threads_stop fuel cfg channel cq core d :
  (reads_left d < fuel)%nat ->
  (run (poller_thread fuel cq core flag) d).1 = true /\ (run (async_thread fuel cfg channel cq core flag) d).1 = true.
Proof.
  intros Hd. split; (apply run_then with fuel; [intros _ d1 H1 | done]); [by apply poller_loop_stops|].
  apply run_then with fuel; [|done]. intros fd d2 H2. destruct (fd <? 0); [by apply run_then with fuel|].
  apply run_then with fuel; [|done]. intros chfd d3 H3.
  apply run_then with fuel; [|done]. intros ret d4 H4.
  destruct (negb (ret =? 0)); [do 2 (apply run_then with fuel; [intros | done]); done|].
  apply run_then with fuel; [|done]. intros flags d5 H5.
  apply run_then with fuel; [|done]. intros _ d6 H6.
  apply run_then with fuel; [|done]. intros [_|e] d7 H7; [|by apply run_then with fuel].
  rewrite run_bind. pose proof (async_loop_stops fuel cfg channel cq fd d7 H7) as Hl.
  destruct (run (async_loop fuel cfg channel cq flag fd) d7) as [b d8]. cbn in Hl. subst b.
  by apply run_then with (S (reads_left d8)); [|lia].
Qed.
End stopping.

(** With the default configuration, a flag set after 40 reads, and any answers to
    the other calls. *)
Lemma poller_threads_stop_sample (ans : forall v, answer v) :
  (run (H := countdown_adapter ans) (async_thread 41 AsyncPollerConfig_default (mkChannel 2) (mkCq 3) None 7) 40%nat).1 = true.
Proof.
  apply (poller_threads_stop (H := countdown_adapter ans) (H0 := countdown_stopping ans 7) 7 41
           AsyncPollerConfig_default (mkChannel 2) (mkCq 3) None 40%nat). cbn. lia.
Qed.
