(* ===== verification/ConnectorLife.v ===== *)
(** * ConnectorLife: descriptors and threads of the LMCache connector
    (crates/lmcache-connector/src/lib.rs)

    The handles of [RDMANativeConnector] and its worker threads, as programs over
    the foreign calls: the part of [new] that creates the eventfd and spawns the
    workers, the notification of [push_completion], [close] and [Drop].  The batches
    themselves are in [Connector].  The theorems: a connector that is not used after
    [close] only touches what it owns and gives everything back, however often it
    is closed; after [close] a submission writes to a descriptor the connector no
    longer owns. *)

From S2P Require Import Prelude Errors Verbs VerbsProps PollerThread.

Open Scope Z_scope.

(** ** Worker threads *)

(** [while !shutdown.load() { sleep(10 ms) }]; the answer is whether it ended. *)
Fixpoint worker_loop (fuel : nat) (flag : Z) : ffi bool :=
  match fuel with
  | O => Ret false
  | S fuel =>
      stop ← call (LoadShutdown flag);
      if (stop : bool) then Ret true else call (SleepMs 10) ;; worker_loop fuel flag
  end.

(** ** The connector's handles *)

Record Handles : Type := mkHandles {
  hd_event_fd : Z;
  hd_shutdown : Z;
  hd_closed : bool;
  hd_workers : list Z
}.

Inductive built : Type :=
| Built (h : Handles)
| Refused (msg : string)
| Panicked.

(** [expect] panics when a thread cannot be spawned; the handles collected so far
    are dropped, which detaches the threads. *)
Fixpoint spawn_workers (n : nat) (flag : Z) (workers : list Z) : ffi (option (list Z)) :=
  match n with
  | O => Ret (Some workers)
  | S n =>
      handle ← call (SpawnWorker flag);
      if handle =? 0 then Ret None else spawn_workers n flag (workers ++ [handle])
  end.

Definition new_handles (num_workers : nat) : ffi built :=
  shutdown ← call NewFlag;
  event_fd ← call EventFd;
  if event_fd <? 0 then
    call (DropFlag shutdown) ;; Ret (Refused "failed to create eventfd")
  else
    workers ← spawn_workers num_workers shutdown [];
    Ret (match workers with Some ws => Built (mkHandles event_fd shutdown false ws) | None => Panicked end).

(** The write of [push_completion]; its outcome is ignored. *)
Definition notify (h : Handles) : ffi unit := _ ← call (WriteEvent (hd_event_fd h)); Ret tt.

Definition stop_and_close (h : Handles) : ffi unit :=
  call (SetFlag (hd_shutdown h)) ;; _ ← call (CloseFd (hd_event_fd h)); Ret tt.

Definition close_handles (h : Handles) : ffi Handles :=
  if hd_closed h then Ret h
  else stop_and_close h ;; Ret (mkHandles (hd_event_fd h) (hd_shutdown h) true (hd_workers h)).

(** [for handle in self.workers.drain(..)]. *)
Fixpoint join_all (workers : list Z) : ffi unit :=
  match workers with
  | [] => Ret tt
  | w :: workers => _ ← call (JoinThread w); join_all workers
  end.

(** [drop], then the last reference to the flag. *)
Definition drop_handles (h : Handles) : ffi unit :=
  (if hd_closed h then Ret tt else stop_and_close h) ;;
  join_all (hd_workers h) ;;
  call (DropFlag (hd_shutdown h)).

(** ** The life of a connector *)

(** A submission notifies once. *)
Inductive use : Type := Submit | Close.

Fixpoint use_all (uses : list use) (h : Handles) : ffi Handles :=
  match uses with
  | [] => Ret h
  | Submit :: uses => notify h ;; use_all uses h
  | Close :: uses => h ← close_handles h; use_all uses h
  end.

Definition connector_life (num_workers : nat) (uses : list use) : ffi built :=
  r ← new_handles num_workers;
  match r with
  | Built h => h ← use_all uses h; drop_handles h ;; Ret (Built h)
  | r => Ret r
  end.

(** Nothing is submitted once the connector is closed. *)
Fixpoint closed_last (uses : list use) : bool :=
  match uses with
  | [] => true
  | Submit :: uses => closed_last uses
  | Close :: uses => forallb (fun u => match u with Submit => false | Close => true end) uses
  end.

(** ** The ledger *)

(** The workers among the live objects. *)
Definition add_workers (flag : Z) (ws : list Z) (s : ledger) : ledger :=
  foldl (fun s w => <[w := RWorker flag]> s) s ws.

(** A connector owns a flag, a descriptor while it is open, and its workers. *)
Definition owned (h : Handles) (s : ledger) : ledger :=
  let flag := <[hd_shutdown h := RFlag (hd_closed h)]> s in
  add_workers (hd_shutdown h) (hd_workers h) (if hd_closed h then flag else <[fd_key (hd_event_fd h) := REvent]> flag).

Record owner (h : Handles) (s : ledger) : Prop := {
  ow_flag : s !! hd_shutdown h = None;
  ow_fd : s !! fd_key (hd_event_fd h) = None;
  ow_apart : fd_key (hd_event_fd h) <> hd_shutdown h;
  ow_nodup : NoDup (hd_workers h);
  ow_workers : forall w, w ∈ hd_workers h -> s !! w = None /\ w <> hd_shutdown h /\ w <> fd_key (hd_event_fd h)
}.

Lemma add_workers_cons flag w ws s : add_workers flag (w :: ws) s = add_workers flag ws (<[w := RWorker flag]> s).
Proof. done. Qed.

Lemma add_workers_insert flag ws k r s :
  k ∉ ws -> add_workers flag ws (<[k := r]> s) = <[k := r]> (add_workers flag ws s).
Proof.
  revert s. induction ws as [|w ws IH]; intros s Hk; [done|]. rewrite !add_workers_cons, <- IH by set_solver.
  by rewrite insert_insert_ne by set_solver.
Qed.

Lemma add_workers_delete flag ws k s :
  k ∉ ws -> delete k (add_workers flag ws s) = add_workers flag ws (delete k s).
Proof.
  revert s. induction ws as [|w ws IH]; intros s Hk; [done|]. rewrite !add_workers_cons, IH by set_solver.
  by rewrite delete_insert_ne by set_solver.
Qed.

Lemma lookup_add_workers flag ws k s : k ∉ ws -> add_workers flag ws s !! k = s !! k.
Proof.
  revert s. induction ws as [|w ws IH]; intros s Hk; [done|]. rewrite add_workers_cons, IH by set_solver.
  by rewrite lookup_insert_ne by set_solver.
Qed.

Section rules.
Context (qp_no : Z -> Z).
Abbreviation wp := (wp qp_no).
Implicit Types (s : ledger) (h : Handles).

Lemma owned_open fd flag ws s :
  flag ∉ ws -> fd_key fd ∉ ws -> fd_key fd <> flag ->
  owned (mkHandles fd flag false ws) s = <[fd_key fd := REvent]> (<[flag := RFlag false]> (add_workers flag ws s))
  /\ owned (mkHandles fd flag true ws) s = <[flag := RFlag true]> (add_workers flag ws s).
Proof. intros H1 H2 H3. unfold owned. cbn [hd_shutdown hd_closed hd_workers hd_event_fd]. by rewrite !add_workers_insert. Qed.

Lemma owner_keys h s :
  owner h s -> hd_shutdown h ∉ hd_workers h /\ fd_key (hd_event_fd h) ∉ hd_workers h.
Proof. intros Ho. split; intros Hin; by destruct (ow_workers _ _ Ho _ Hin) as (_ & ? & ?). Qed.

(** Spawning adds workers, all of them new. *)
Lemma wp_spawn_workers n fd flag ws s (Q : option (list Z) -> ledger -> Prop) :
  owner (mkHandles fd flag false ws) s ->
  (forall ws', owner (mkHandles fd flag false ws') s -> Q (Some ws') (owned (mkHandles fd flag false ws') s)) ->
  (forall s', Q None s') ->
  wp (spawn_workers n flag ws) Q (owned (mkHandles fd flag false ws) s).
Proof.
  intros Ho HQ Hn. revert ws Ho. induction n as [|n IH]; intros ws Ho; [by apply HQ|]. cbn [spawn_workers].
  destruct (owner_keys _ _ Ho) as [Hk1 Hk2]. cbn in Hk1, Hk2.
  pose proof (ow_apart _ _ Ho) as Hap. cbn in Hap.
  pose proof (owned_open fd flag ws s Hk1 Hk2 Hap) as [E _].
  apply wp_bind, wp_call.
  { exists false. rewrite E, lookup_insert_ne by done. apply lookup_insert_eq. }
  intros w Hw. cbn [effect]. destruct (Z.eqb_spec w 0) as [->|Hz]; [apply Hn|].
  apply null_or_fresh_ne in Hw; [|done]. rewrite acquire_fresh by done.
  rewrite E, !lookup_insert_None in Hw. destruct Hw as [[Hw Hf] Hfd].
  assert (Hnew : w ∉ ws).
  { intros Hin. clear - Hw Hin. revert s Hw. induction ws as [|v ws IH]; intros s Hw; [set_solver|]. rewrite add_workers_cons in Hw.
    destruct (decide (w ∈ ws)) as [H|H]; [by eapply IH|]. rewrite lookup_add_workers in Hw by done.
    assert (w = v) as -> by set_solver. by rewrite lookup_insert_eq in Hw. }
  rewrite lookup_add_workers in Hw by done.
  replace (<[w := RWorker flag]> (owned (mkHandles fd flag false ws) s)) with (owned (mkHandles fd flag false (ws ++ [w])) s)
    by (unfold owned, add_workers; cbn; by rewrite foldl_app).
  apply IH. destruct Ho as [O1 O2 O3 O4 O5]. constructor; cbn in *; [done | done | done | |].
  - apply NoDup_app. split_and!; [done | set_solver | apply NoDup_singleton].
  - intros v [Hv| ->%list_elem_of_singleton]%elem_of_app; [by apply O5 | done].
Qed.

(** Stopping and closing an open connector. *)
Lemma wp_stop_and_close fd flag ws s (Q : unit -> ledger -> Prop) :
  owner (mkHandles fd flag false ws) s -> Q tt (owned (mkHandles fd flag true ws) s) ->
  wp (stop_and_close (mkHandles fd flag false ws)) Q (owned (mkHandles fd flag false ws) s).
Proof.
  intros Ho HQ. destruct (owner_keys _ _ Ho) as [Hk1 Hk2]. pose proof (ow_apart _ _ Ho) as Hap. pose proof (ow_fd _ _ Ho) as Hfd.
  cbn in Hk1, Hk2, Hap, Hfd. pose proof (owned_open fd flag ws s Hk1 Hk2 Hap) as [E1 E2].
  rewrite E1. apply wp_bind, wp_call; [exists false; rewrite lookup_insert_ne by done; apply lookup_insert_eq|].
  intros [] _. cbn [effect hd_shutdown]. rewrite insert_insert_ne by done. rewrite insert_insert_eq.
  apply wp_bind, wp_call; [right; apply lookup_insert_eq|]. intros x _. cbn [effect hd_event_fd].
  rewrite delete_insert_id, <- E2; [exact HQ|].
  rewrite lookup_insert_ne by done. by rewrite lookup_add_workers.
Qed.

(** Joining the workers of a stopped connector. *)
Lemma wp_join_all flag ws b (Q : unit -> ledger -> Prop) :
  b !! flag = Some (RFlag true) -> NoDup ws -> (forall w, w ∈ ws -> b !! w = None) -> Q tt b ->
  wp (join_all ws) Q (add_workers flag ws b).
Proof.
  intros Hf. revert b Hf. induction ws as [|w ws IH]; intros b Hf Hnd Hfr HQ; [done|].
  apply NoDup_cons in Hnd as [Hw Hnd]. cbn [join_all]. rewrite add_workers_cons.
  assert (Hfl : flag ∉ ws) by (intros Hin; specialize (Hfr flag ltac:(set_solver)); congruence).
  apply wp_bind, wp_call.
  { right. exists flag. rewrite !lookup_add_workers by done. rewrite lookup_insert_eq.
    split; [done|]. rewrite lookup_insert_ne; [done|]. intros ->. specialize (Hfr flag ltac:(set_solver)). congruence. }
  intros x _. cbn [effect]. rewrite add_workers_delete by done. rewrite delete_insert_id by (apply Hfr; set_solver).
  apply IH; [done | done | intros; apply Hfr; set_solver | done].
Qed.

Lemma wp_drop_handles h s (Q : unit -> ledger -> Prop) :
  closed s -> owner h s -> Q tt s -> wp (drop_handles h) Q (owned h s).
Proof.
  intros Hc Ho HQ. destruct h as [fd flag c ws].
  assert (Hrest : wp (join_all ws ;; call (DropFlag flag)) Q (owned (mkHandles fd flag true ws) s)).
  { apply wp_bind, wp_join_all; [apply lookup_insert_eq | apply Ho | |].
    - intros w Hw. destruct (ow_workers _ _ Ho w Hw) as (H1 & H2 & _). cbn in *. by rewrite lookup_insert_ne.
    - cbn [hd_shutdown hd_closed]. pose proof (ow_flag _ _ Ho) as Hfl. cbn in Hfl. apply wp_call.
      + split; [exists true; apply lookup_insert_eq|]. apply unused_insert; [set_solver | by apply closed_unused].
      + intros [] _. cbn [effect]. by rewrite delete_insert_id. }
  unfold drop_handles. cbn [hd_closed hd_workers hd_shutdown]. destruct c; [exact Hrest|].
  apply wp_bind, wp_stop_and_close; [done | exact Hrest].
Qed.

(** Closing keeps the ownership, and a closed connector can be closed again. *)
Lemma wp_use_all uses h s (Q : Handles -> ledger -> Prop) :
  owner h s -> (if hd_closed h then forallb (fun u => match u with Submit => false | Close => true end) uses else closed_last uses) = true ->
  (forall h', owner h' s -> Q h' (owned h' s)) -> wp (use_all uses h) Q (owned h s).
Proof.
  intros Ho Hu HQ. revert h Ho Hu. induction uses as [|[|] uses IH]; intros h Ho Hu; [by apply HQ | |]; cbn [use_all].
  - destruct h as [fd flag [|] ws]; [done|]. cbn in Hu. destruct (owner_keys _ _ Ho) as [Hk1 Hk2]. cbn in Hk1, Hk2.
    unfold notify. apply wp_bind, wp_bind, wp_call.
    + unfold owned. cbn [hd_shutdown hd_closed hd_workers hd_event_fd allowed]. rewrite add_workers_insert by done. apply lookup_insert_eq.
    + intros x _. by apply IH.
  - unfold close_handles. apply wp_bind. destruct h as [fd flag [|] ws]; cbn [hd_closed hd_event_fd hd_shutdown hd_workers].
    + by apply IH.
    + apply wp_bind, wp_stop_and_close; [done|]. apply IH; [by destruct Ho | done].
Qed.

Lemma wp_connector_life n uses s :
  closed s -> closed_last uses = true ->
  wp (connector_life n uses) (fun out s' => out <> Panicked -> s' = s) s.
Proof.
  intros Hc Hu. unfold connector_life, new_handles. apply wp_bind, wp_bind, wp_call; [done|]. intros flag [Hf0 Hf]. cbn [effect].
  apply wp_bind, wp_call; [done|]. intros fd Hfd. cbn [effect]. destruct (Z.ltb_spec fd 0) as [Hn|Hn].
  - apply wp_bind, wp_call.
    + split; [exists false; apply lookup_insert_eq|]. apply unused_insert; [set_solver | by apply closed_unused].
    + intros [] _ _. cbn [effect]. by apply delete_insert_id.
  - destruct Hfd as [Hfd|Hfd]; [lia|]. apply lookup_insert_None in Hfd as [Hfd Hne].
    apply wp_bind. apply (wp_spawn_workers n fd flag [] s).
    + constructor; cbn; [done | done | congruence | constructor | set_solver].
    + intros ws Ho. apply wp_bind, wp_use_all; [done | done|]. intros h Hh.
      apply wp_bind, wp_drop_handles; [done | done | done].
    + by intros s' H.
Qed.
End rules.

(** ** Theorems *)

(** C33. A connector that is not used after [close], with any number of workers,
    however often it is closed and whatever the kernel answers: it writes to and
    closes only its own descriptor and closes it once, sets and frees only its own
    flag, joins each worker once and after telling it to stop, and when it has
    been dropped, or could not get a descriptor, nothing of it is left. *)
Theorem connector_life_safe qp_no n uses s :
  closed s -> closed_last uses = true ->
  wp qp_no (connector_life n uses) (fun out s' => out <> Panicked -> s' = s) s.
Proof. apply wp_connector_life. Qed.

Lemma connector_life_safe_witness :
  wp (fun h => h) (connector_life 2 [Submit; Submit; Close; Close]) (fun out s' => out <> Panicked -> s' !! 1 = Some (RCtx 9))
    {[1 := RCtx 9]}.
Proof.
  eapply wp_mono, (connector_life_safe (fun h => h) 2 [Submit; Submit; Close; Close] {[1 := RCtx 9]}).
  - intros out s' H Hne. rewrite (H Hne). apply lookup_singleton_eq.
  - apply map_Forall_singleton. constructor.
  - reflexivity.
Defined.

(** A submission after [close] writes to the closed descriptor, whose number may
    by then belong to another file of the process. *)
Theorem submit_after_close qp_no :
  ~ wp qp_no (connector_life 1 [Close; Submit]) (fun _ _ => True) ∅.
Proof.
  intros [_ H]. specialize (H 5 ltac:(done)). destruct H as [_ H]. specialize (H 7 ltac:(by right)).
  destruct H as [_ H]. specialize (H 9 ltac:(by right)). destruct H as [_ H]. specialize (H tt I).
  destruct H as [_ H]. specialize (H 0 I). destruct H as [H _]. by vm_compute in H.
Qed.

(** When a worker cannot be spawned the panic leaves the descriptor open and the
    workers spawned before running, with nobody left to stop them. *)
Theorem spawn_failure_leaks qp_no :
  ~ wp qp_no (connector_life 2 []) (fun out s' => out = Panicked -> s' = ∅) ∅.
Proof.
  intros [_ H]. specialize (H 5 ltac:(done)). destruct H as [_ H]. specialize (H 7 ltac:(by right)).
  destruct H as [_ H]. specialize (H 9 ltac:(by right)). destruct H as [_ H]. specialize (H 0 ltac:(by left)).
  specialize (H eq_refl). by vm_compute in H.
Qed.

(** A worker ends once its flag is set. *)
Lemma worker_loop_stops {D} (flag : Z) `{StoppingAdapter D flag} fuel d :
  (reads_left d < fuel)%nat -> (run (worker_loop fuel flag) d).1 = true.
Proof.
  revert d. induction fuel as [|fuel IH]; intros d Hd; [lia|].
  apply (run_until_stop flag _ _ fuel); [|done]. intros d' Hd'. by apply (run_then flag _ _ _ fuel).
Qed.
