(* ===== verification/Rdma.v ===== *)
(** * Rdma: the RDMA transport (src/transport/rdma.rs)

    [RdmaTransport]: setting up the device, the queue and the queue pair, the
    three one-sided operations, and the release of the resources in the order in
    which Rust drops them.  The theorems: setting up follows the rules of the
    library and releases everything when it fails; over an asynchronous adapter,
    with the poller competing for the completions, a read or write of an idle
    transport that reports success has had the effect of the remote memory
    operation; and the runs on which the transport departs from its contract. *)

From stdpp Require Import finite.
From S2P Require Import Prelude Layout Errors Transport Verbs VerbsProps PollerThread.

Open Scope Z_scope.
Local Open Scope rdmas_scope.

(** The counter and the owned resources.  The queue is shared with the poller. The
    [pending] map is left out: nothing uses it, and the poller has a map of its
    own, which [connect] drops. *)
Record RdmaTransport : Type := mkRdma {
  rd_qp_guard : QpGuard;
  rd_cq : CompletionQueue;
  rd_next_wr_id : Z;
  rd_poller : Poller;
  rd_context : RdmaContext;
  rd_pd : ProtectionDomain
}.

#[export] Instance rdma_info : TransportInfo RdmaTransport := {| tr_is_rdma _ := true; tr_name _ := "RDMA" |}.

(** ** Set-up *)

Definition rdma_access_flags : gset ibv_access_flag :=
  {[IBV_ACCESS_LOCAL_WRITE; IBV_ACCESS_REMOTE_WRITE; IBV_ACCESS_REMOTE_READ; IBV_ACCESS_REMOTE_ATOMIC]}.

Definition init_qp (context : RdmaContext) (pd : ProtectionDomain) (cq : CompletionQueue)
  : ffi (result QueuePair RdmaError) :=
  let? qp := QueuePair_create pd cq cq 128 128 1 1 IBV_QPT_RC in
  dropping (QueuePair_drop qp) (
    QueuePair_init qp 1 rdma_access_flags ;;?
    let? port_attr := query_port context 1 in
    gid ← query_gid context 1 0;
    ready_to_receive qp (qp_num qp) (pa_lid port_attr) gid 1 0 ;;?
    ready_to_send qp 0 ;;?
    Ret (Ok qp)).

Definition RdmaTransport_connect (server_addr : string) : ffi (result RdmaTransport RdmaError) :=
  r ← call (ControlConnect server_addr);
  match r with
  | Some e => Ret (Err (Internal ("gRPC connect: " +:+ e)))
  | None =>
  r ← call ControlDiscover;
  match r with
  | Some e => Ret (Err (Internal ("discover: " +:+ e)))
  | None =>
  c ← Context_open;
  match c with
  | None => Ret (Err (Internal "No RDMA device found"))
  | Some context =>
  dropping (Context_drop context) (
    let? pd := ProtectionDomain_allocate context in
    dropping (ProtectionDomain_drop pd) (
      let? cq := CompletionQueue_create context 128 0 0 0 in
      dropping (CompletionQueue_drop cq) (
        let? qp := init_qp context pd cq in
        poller ← Poller_spawn cq;
        Ret (Ok (mkRdma (QpGuard_new qp) cq 1 poller context pd)))))
  end end end.

(** A new transport; the old one is dropped by its owner. *)
Definition RdmaTransport_reconnect (t : RdmaTransport) (server_addr : string) : ffi (result RdmaTransport RdmaError) :=
  RdmaTransport_connect server_addr.

(** Fields are dropped in declaration order: the guarded queue pair, the poller,
    which gives up the last reference to the queue once its thread is joined, the
    context, the protection domain. *)
Definition RdmaTransport_drop (t : RdmaTransport) : ffi unit :=
  QueuePair_drop (qg_qp (rd_qp_guard t)) ;;
  Poller_drop (rd_poller t) ;;
  CompletionQueue_drop (rd_cq t) ;;
  Context_drop (rd_context t) ;;
  ProtectionDomain_drop (rd_pd t).

(** ** Operations *)

(** [next_wr_id.fetch_add(1)] and the health-checked post. *)
Definition rdma_post (t : RdmaTransport) (mk : Z -> SendWorkRequest)
  : ffi (RdmaTransport * result Z RdmaError) :=
  '(g, r) ← guard_post_send (rd_qp_guard t) (mk (rd_next_wr_id t));
  Ret (mkRdma g (rd_cq t) (u64 (rd_next_wr_id t + 1)) (rd_poller t) (rd_context t) (rd_pd t), r).

(** [let wcs = self.cq.poll(1)?] and the test of its first entry. *)
Definition first_success (t : RdmaTransport) : ffi (result bool RdmaError) :=
  let? wcs := CompletionQueue_poll (rd_cq t) 1 in
  Ret (Ok (match wcs with wc :: _ => is_success wc | [] => false end)).

Definition read_wr (buf buf_len lkey remote_addr rkey id : Z) : SendWorkRequest :=
  mkSwr id RdmaRead ∅ [mkSge buf (u32 buf_len) lkey] (Some remote_addr) (Some rkey) None None.
Definition write_wr (buf buf_len lkey remote_addr rkey id : Z) : SendWorkRequest :=
  mkSwr id RdmaWrite ∅ [mkSge buf (u32 buf_len) lkey] (Some remote_addr) (Some rkey) None None.
Definition cas_wr (compare swap lkey remote_addr rkey id : Z) : SendWorkRequest :=
  mkSwr id RdmaCompareSwap ∅ [mkSge 0 8 lkey] (Some remote_addr) (Some rkey) (Some compare) (Some swap).

(** Post, poll once, and require a successful completion. *)
Definition rdma_transfer (t : RdmaTransport) (mk : Z -> SendWorkRequest) (failed : string)
  : ffi (RdmaTransport * result unit RdmaError) :=
  '(t, r) ← rdma_post t mk;
  match r with
  | Err e => Ret (t, Err e)
  | Ok _ =>
      r ← first_success t;
      Ret (t, match r with
              | Err e => Err e
              | Ok true => Ok tt
              | Ok false => Err (Internal failed)
              end)
  end.

(** [buf] is the address of the caller's buffer and [buf_len] its length. *)
Definition rdma_read (t : RdmaTransport) (buf buf_len lkey remote_addr rkey : Z) :=
  rdma_transfer t (read_wr buf buf_len lkey remote_addr rkey) "READ completion failed".
Definition rdma_write (t : RdmaTransport) (buf buf_len lkey remote_addr rkey : Z) :=
  rdma_transfer t (write_wr buf buf_len lkey remote_addr rkey) "WRITE completion failed".

Definition rdma_cas (t : RdmaTransport) (compare swap lkey remote_addr rkey : Z)
  : ffi (RdmaTransport * result bool RdmaError) :=
  '(t, r) ← rdma_post t (cas_wr compare swap lkey remote_addr rkey);
  match r with
  | Err e => Ret (t, Err e)
  | Ok _ => r ← first_success t; Ret (t, r)
  end.

(** ** Set-up follows the rules *)

Section setup.
Context (qp_no : Z -> Z).
Abbreviation wp := (wp qp_no).

Lemma wp_init_qp context pd cq s Q :
  is_ctx s (ctx_inner context) -> is_pd s (pd_inner pd) -> is_cq s (cq_inner cq) ->
  (forall e, Q (Err e) s) ->
  (forall q, qp_inner q <> 0 -> s !! qp_inner q = None -> qp_num q = qp_no (qp_inner q) ->
     Q (Ok q) (<[qp_inner q := RQp (pd_inner pd) (cq_inner cq) (cq_inner cq) IBV_QPS_RTS (qp_num q)]> s)) ->
  wp (init_qp context pd cq) Q s.
Proof.
  intros Hc Hp Hq He Hok. apply wp_try, wp_qp_create; try done.
  intros q Hz Hf Hn. set (R st n := RQp (pd_inner pd) (cq_inner cq) (cq_inner cq) st n).
  assert (Hdrop : forall st n e, wp (QueuePair_drop q) (fun _ => Q (Err e)) (<[qp_inner q := R st n]> s)).
  { intros st n e. apply wp_qp_drop; [do 5 eexists; apply lookup_insert_eq|]. by rewrite delete_insert_id. }
  assert (Hctx : forall st n, is_ctx (<[qp_inner q := R st n]> s) (ctx_inner context)).
  { intros st n. destruct Hc as [d Hd]. exists d. rewrite lookup_insert_ne; congruence. }
  apply wp_dropping, wp_try, (wp_modify _ _ _ _ _ _ _ _ _ _ _ init_mask); [done | done | by intros; apply Hdrop|].
  cbn [qa_qp_state]. apply wp_try, wp_query_port; [apply Hctx|]. intros [port|e]; [|by apply Hdrop].
  apply wp_bind, wp_query_gid; [apply Hctx|]. intros gid.
  apply wp_try, (wp_modify _ _ _ _ _ _ _ _ _ _ _ rtr_mask); [done | done | by intros; apply Hdrop|].
  cbn [qa_qp_state qa_dest_qp_num].
  apply wp_try, (wp_modify _ _ _ _ _ _ _ _ _ _ _ rts_mask); [done | done | by intros; apply Hdrop|].
  by apply Hok.
Qed.

(** The resources of a connected transport, on top of the ledger before. *)
Definition connected_ledger (t : RdmaTransport) (dest device : Z) (s : ledger) : ledger :=
  <[pl_shutdown (rd_poller t) := RThread (cq_inner (rd_cq t)) false]>
  (<[qp_inner (qg_qp (rd_qp_guard t)) := RQp (pd_inner (rd_pd t)) (cq_inner (rd_cq t)) (cq_inner (rd_cq t)) IBV_QPS_RTS dest]>
  (<[cq_inner (rd_cq t) := RCq (ctx_inner (rd_context t)) 0 0]>
  (<[pd_inner (rd_pd t) := RPd (ctx_inner (rd_context t))]>
  (<[ctx_inner (rd_context t) := RCtx device]> s)))).

(** The handles are new and pairwise different, and the poller has the one of its
    running thread. *)
Definition fresh_handles (t : RdmaTransport) (s : ledger) : Prop :=
  let hs := [pl_shutdown (rd_poller t); qp_inner (qg_qp (rd_qp_guard t)); cq_inner (rd_cq t); pd_inner (rd_pd t);
             ctx_inner (rd_context t)] in
  NoDup hs /\ Forall (fun h => s !! h = None) hs
  /\ rd_poller t = mkPoller (rd_cq t) (Some (pl_shutdown (rd_poller t))) (pl_shutdown (rd_poller t)).

Lemma wp_connect addr s Q :
  closed s -> (forall e, Q (Err e) s) ->
  (forall t d, fresh_handles t s -> qp_num (qg_qp (rd_qp_guard t)) = qp_no (qp_inner (qg_qp (rd_qp_guard t))) ->
     rd_qp_guard t = QpGuard_new (qg_qp (rd_qp_guard t)) -> rd_next_wr_id t = 1 ->
     Q (Ok t) (connected_ledger t (qp_num (qg_qp (rd_qp_guard t))) d s)) ->
  wp (RdmaTransport_connect addr) Q s.
Proof.
  intros Hc He Hok. apply wp_bind, wp_call; [done|]. intros [e|] _; [apply He|].
  apply wp_bind, wp_call; [done|]. intros [e|] _; [apply He|].
  apply wp_bind, wp_context_open; [apply He | | done].
  intros c d _ Hcf. set (s1 := <[ctx_inner c := RCtx d]> s).
  assert (Hc1 : closed s1) by (apply closed_insert; [done | constructor | done]).
  assert (Hctx : s1 !! ctx_inner c = Some (RCtx d)) by apply lookup_insert_eq.
  apply wp_dropping, wp_try, wp_pd_allocate; [by exists d | |].
  { intros e. apply wp_context_drop; [by exists d | | unfold s1; by rewrite delete_insert_id].
    apply unused_insert; [apply not_elem_of_nil | by apply closed_unused]. }
  intros p _ Hpf. set (s2 := <[pd_inner p := RPd (ctx_inner c)]> s1).
  apply lookup_insert_None in Hpf as Hpf'. destruct Hpf' as [Hps Hpc].
  assert (Hc2 : closed s2) by (apply closed_insert; [done | constructor; [by eexists | constructor] | done]).
  assert (Herr : forall e, wp (ProtectionDomain_drop p) (fun _ s' => wp (Context_drop c) (fun _ => Q (Err e)) s') s2).
  { intros e. apply wp_pd_drop; [eexists; apply lookup_insert_eq | |].
    - apply unused_insert; [cbn; set_solver | by apply closed_unused].
    - unfold s2. rewrite delete_insert_id by done. apply wp_context_drop; [by exists d | | unfold s1; by rewrite delete_insert_id].
      apply unused_insert; [apply not_elem_of_nil | by apply closed_unused]. }
  apply wp_dropping, wp_try, wp_cq_create; [exists d; unfold s2; by rewrite lookup_insert_ne | by left | apply Herr|].
  intros q _ Hqf. set (s3 := <[cq_inner q := RCq (ctx_inner c) 0 0]> s2).
  apply lookup_insert_None in Hqf as Hqf'. destruct Hqf' as [[Hqs Hqc]%lookup_insert_None Hqp].
  apply wp_dropping, wp_try, wp_init_qp.
  - exists d. unfold s3. rewrite lookup_insert_ne by congruence. unfold s2. by rewrite lookup_insert_ne.
  - eexists. unfold s3. rewrite lookup_insert_ne by done. apply lookup_insert_eq.
  - do 3 eexists. apply lookup_insert_eq.
  - intros e. apply wp_cq_drop; [do 2 eexists; apply lookup_insert_eq | |].
    + apply unused_insert; [cbn; set_solver | by apply closed_unused].
    + unfold s3. rewrite delete_insert_id by done. apply Herr.
  - intros qp _ Hf Hn. apply lookup_insert_None in Hf as [[[Hf Hfc]%lookup_insert_None Hfp]%lookup_insert_None Hfq].
    apply wp_bind, wp_poller_spawn.
    { do 3 eexists. rewrite lookup_insert_ne by done. apply lookup_insert_eq. }
    intros h _ [[[[Hh Hhc]%lookup_insert_None Hhp]%lookup_insert_None Hhq]%lookup_insert_None Hhqp]%lookup_insert_None.
    apply (Hok (mkRdma (QpGuard_new qp) q 1 (mkPoller q (Some h) h) c p) d); try done.
    split_and!; [repeat constructor; cbn; set_solver | by repeat constructor | done].
Qed.
End setup.

(** ** Data path *)

Definition advance (t : RdmaTransport) (g : QpGuard) : RdmaTransport :=
  mkRdma g (rd_cq t) (u64 (rd_next_wr_id t + 1)) (rd_poller t) (rd_context t) (rd_pd t).

(** The request that [post_send] hands to the library. *)
Definition sent (wr : SendWorkRequest) : ibv_send_wr :=
  build_send_wr wr (wr_send_flags wr ∪ {[IBV_SEND_SIGNALED]}).

Lemma posted_one w : swr_next w = None -> posted [w] = [w].
Proof. intros E. unfold posted. cbn. by rewrite E. Qed.

(** The bytes of the process at a buffer. *)
Definition host_bytes (h : gmap Z (list Z)) (a n : Z) : list Z := take (Z.to_nat n) (default [] (h !! a)).

(** What the adapter does with one request: its effect on the registered regions
    and on the memory of the process, and whether it completes with success. *)
Definition execute_wr (M : rmem) (h : gmap Z (list Z)) (w : ibv_send_wr) : rmem * gmap Z (list Z) * bool :=
  match swr_opcode w, swr_sg_list w, swr_wr w with
  | IBV_WR_RDMA_READ, [sge], WrRdma addr rkey =>
      match tr_read M (sge_length sge) 0 addr rkey with
      | (_, Ok bytes) => (M, <[sge_addr sge := bytes]> h, true)
      | (_, Err _) => (M, h, false)
      end
  | IBV_WR_RDMA_WRITE, [sge], WrRdma addr rkey =>
      match tr_write M (host_bytes h (sge_addr sge) (sge_length sge)) 0 addr rkey with
      | (M', Ok _) => (M', h, true)
      | (_, Err _) => (M, h, false)
      end
  | IBV_WR_ATOMIC_CMP_AND_SWP, [_], WrAtomic addr compare swap rkey =>
      match tr_cas M compare swap 0 addr rkey with
      | (M', Ok _) => (M', h, true)
      | (_, Err _) => (M, h, false)
      end
  | _, _, _ => (M, h, false)
  end.

Definition completion_of (w : ibv_send_wr) (ok : bool) : WorkCompletion :=
  mkWc (swr_wr_id w) (if ok then IBV_WC_SUCCESS else 1) 0 0 0 0 0 0.

(** Equal lengths, and equal bytes outside the [n] bytes at [off]. *)
Definition differ_within (off n : Z) (bytes bytes' : list Z) : Prop :=
  len bytes' = len bytes
  /\ forall o k, 0 <= o -> 0 <= k -> o + k <= off \/ off + n <= o -> bread o k bytes' = bread o k bytes.

(** What a request that fails on its way may leave behind: nothing, or any part of
    the bytes it was to transfer. *)
Definition torn (M : rmem) (h : gmap Z (list Z)) (w : ibv_send_wr) (M' : rmem) (h' : gmap Z (list Z)) : Prop :=
  (M' = M /\ h' = h) \/
  match swr_opcode w, swr_sg_list w, swr_wr w with
  | IBV_WR_RDMA_READ, [sge], WrRdma _ _ => M' = M /\ exists part, h' = <[sge_addr sge := part]> h
  | IBV_WR_RDMA_WRITE, [sge], WrRdma addr rkey => h' = h /\ exists base bytes part, M !! rkey = Some (base, bytes)
      /\ M' = <[rkey := (base, part)]> M /\ differ_within (addr - base) (sge_length sge) bytes part
  | _, _, _ => (M', h') = (execute_wr M h w).1
  end.

Definition outcome (M : rmem) (h : gmap Z (list Z)) (w : ibv_send_wr) (M' : rmem) (h' : gmap Z (list Z)) (ok : bool) : Prop :=
  execute_wr M h w = (M', h', ok) \/ (ok = false /\ torn M h w M' h').

(** *** The adapter, asynchronous *)

(** Requests are outstanding until the adapter executes them, in order; their
    completions wait in the queue until somebody polls it. *)
Record nic : Type := mkNic {
  nc_mem : rmem;
  nc_host : gmap Z (list Z);
  nc_outstanding : list ibv_send_wr;
  nc_cq : list WorkCompletion
}.

(** At any time: the adapter executes the oldest request or gives it up with an
    error, and the poller that [connect] started takes completions, up to 16 at a
    time. *)
Inductive nic_env : nic -> nic -> Prop :=
| ne_execute M h w ws q M' h' ok :
    outcome M h w M' h' ok ->
    nic_env (mkNic M h (w :: ws) q)
      (mkNic M' h' ws (q ++ if signaled w || negb ok then [completion_of w ok] else []))
| ne_poller M h ws q k : (k <= 16)%nat -> nic_env (mkNic M h ws q) (mkNic M h ws (drop k q)).

(** The answers of the library: a query answers anything, a post is refused or
    accepted, and a poll fails or takes what is there. *)
Definition nic_answer (v : verb) (d : nic) : answer v -> nic -> Prop :=
  match v with
  | PostSend _ ws => fun x d' => (x <> 0 /\ d' = d)
      \/ (x = 0 /\ d' = mkNic (nc_mem d) (nc_host d) (nc_outstanding d ++ posted ws) (nc_cq d))
  | PollCq _ n => fun x d' => (x.1 < 0 /\ d' = d)
      \/ (x = (len (take (Z.to_nat n) (nc_cq d)), take (Z.to_nat n) (nc_cq d))
          /\ d' = mkNic (nc_mem d) (nc_host d) (nc_outstanding d) (drop (Z.to_nat n) (nc_cq d)))
  | _ => fun _ d' => d' = d
  end.

(** Runs of a program; the adapter and the poller act before every call and at
    the end. *)
Fixpoint nic_run {A} (p : ffi A) (d : nic) (r : A) (d' : nic) : Prop :=
  match p with
  | Ret a => r = a /\ rtc nic_env d d'
  | Call v k => exists d0 x d1, rtc nic_env d d0 /\ nic_answer v d0 x d1 /\ nic_run (k x) d1 r d'
  end.

Lemma nic_run_bind {A B} (m : ffi A) (k : A -> ffi B) d r d' :
  nic_run (m ≫= k) d r d' -> exists a d1, nic_run m d a d1 /\ nic_run (k a) d1 r d'.
Proof.
  revert d. induction m as [a|v h IH]; intros d; [by exists a, d|].
  intros (d0 & x & d1 & Hi & Hx & H). destruct (IH x d1 H) as (a & d2 & H1 & H2).
  exists a, d2. split; [|done]. by exists d0, x, d1.
Qed.

(** No request is outstanding and no completion is queued. *)
Definition idle (M : rmem) (h : gmap Z (list Z)) : nic := mkNic M h [] [].

Lemma idle_stays M h d : rtc nic_env (idle M h) d -> d = idle M h.
Proof.
  intros Hr. remember (idle M h) as d0 eqn:E. induction Hr as [|d0 d1 d2 Hs _ IH]; [done|]. subst d0.
  enough (d1 = idle M h) as -> by (by apply IH). unfold idle in *. inversion Hs; subst; by rewrite ?drop_nil.
Qed.

(** One request [w] was posted to an idle adapter: it is outstanding, or executed
    with its completion queued or taken. *)
Inductive under_way (M : rmem) (h : gmap Z (list Z)) (w : ibv_send_wr) : nic -> Prop :=
| uw_outstanding : under_way M h w (mkNic M h [w] [])
| uw_executed M' h' ok q :
    outcome M h w M' h' ok -> q = [completion_of w ok] \/ q = [] -> under_way M h w (mkNic M' h' [] q).

Lemma under_way_run M h w d d' : signaled w = true -> rtc nic_env d d' -> under_way M h w d -> under_way M h w d'.
Proof.
  intros Hw Hr. induction Hr as [|d0 d1 d2 Hs _ IH]; [done|]. intros Hu. apply IH. clear IH.
  inversion Hs as [M1 h1 w1 ws q M2 h2 ok E|M1 h1 ws q k Hk]; subst.
  - inversion Hu; subst. rewrite Hw. cbn. eapply uw_executed; [exact E | by left].
  - inversion Hu as [|M' h' ok q' E Hq]; subst; [rewrite drop_nil; constructor|].
    eapply uw_executed; [exact E|]. destruct Hq as [-> | ->]; [destruct k as [|k]; cbn; rewrite ?drop_nil; auto | rewrite drop_nil; auto].
Qed.

Lemma sent_signaled wr : signaled (sent wr) = true.
Proof. apply bool_decide_eq_true_2. cbn. set_solver. Qed.

(** The health check and the post, on an idle adapter. *)
Lemma post_run t mk M h t1 r d1 :
  nic_run (rdma_post t mk) (idle M h) (t1, r) d1 ->
  (exists g, t1 = advance t g)
  /\ match r with Ok _ => under_way M h (sent (mk (rd_next_wr_id t))) d1 | Err _ => d1 = idle M h end.
Proof.
  unfold rdma_post, guard_post_send, guarded, check_health, post_send.
  intros ([g r1] & d2 & H1 & [= -> ->] & Hi)%nic_run_bind. split; [by exists g|].
  apply nic_run_bind in H1 as ([g1 r2] & d3 & H1 & H2).
  assert (Hd3 : d3 = idle M h).
  { destruct H1 as (d0 & [ret st] & d4 & ->%idle_stays & -> & H1). cbn in H1.
    repeat case_match; destruct H1 as [_ H1]; by apply idle_stays in H1. }
  subst d3. clear H1. destruct r2 as [u|e]; cycle 1.
  { destruct H2 as [[= -> ->] ->%idle_stays]. by apply idle_stays in Hi. }
  destruct H2 as (d0 & ret & d4 & ->%idle_stays & Hp & H2). cbn in H2. unfold check_ret in H2.
  destruct Hp as [[Hret ->]|[-> ->]].
  - rewrite (proj2 (Z.eqb_neq ret 0) Hret) in H2. destruct H2 as [[= -> ->] ->%idle_stays]. by apply idle_stays in Hi.
  - destruct H2 as [[= -> ->] Hu]. eapply under_way_run; [apply sent_signaled | exact Hi|].
    eapply under_way_run; [apply sent_signaled | exact Hu|]. apply uw_outstanding.
Qed.

(** The poll of a queue that holds at most the completion of [w]. *)
Lemma poll_run t M h w r d d' :
  signaled w = true -> under_way M h w d -> nic_run (first_success t) d r d' ->
  under_way M h w d'
  /\ (r = Ok true -> exists M' h', execute_wr M h w = (M', h', true) /\ d' = idle M' h').
Proof.
  intros Hw Hu. unfold first_success, CompletionQueue_poll. change (1 =? 0) with false. cbn iota.
  intros (d0 & [ret wcs] & d1 & Hi & Ha & H). pose proof (under_way_run _ _ _ _ _ Hw Hi Hu) as Hu0. clear Hi Hu d.
  cbn [nic_answer] in Ha. change (Z.to_nat (c_int 1)) with 1%nat in Ha. cbn in H. destruct Ha as [[Hneg ->]|[E ->]].
  { cbn in Hneg. rewrite (proj2 (Z.ltb_lt _ _) Hneg) in H. destruct H as [-> Hi].
    split; [by eapply under_way_run | done]. }
  injection E as -> ->. pose proof (len_nonneg (take 1 (nc_cq d0))) as Hpos.
  rewrite (proj2 (Z.ltb_ge _ _) Hpos) in H. destruct H as [-> Hi].
  inversion Hu0 as [|M' h' ok q E Hq]; subst; cbn [nc_mem nc_host nc_outstanding nc_cq] in *.
  { split; [by eapply under_way_run; [|exact Hi|constructor] | done]. }
  destruct Hq as [-> | ->]; cbn in Hi |- *; apply idle_stays in Hi as ->.
  - split; [eapply uw_executed; [exact E | by right]|]. intros [= Hs]. exists M', h'. split; [|done].
    destruct ok; [by destruct E as [E|[? _]] | by vm_compute in Hs].
  - split; [eapply uw_executed; [exact E | by right] | done].
Qed.

Lemma transfer_run t mk text M h t' r d' :
  nic_run (rdma_transfer t mk text) (idle M h) (t', r) d' ->
  let w := sent (mk (rd_next_wr_id t)) in
  (exists g, t' = advance t g)
  /\ match r with
     | Ok _ => exists M' h', execute_wr M h w = (M', h', true) /\ d' = idle M' h'
     | Err _ => d' = idle M h \/ under_way M h w d'
     end.
Proof.
  intros ([t1 r1] & d1 & H1 & H2)%nic_run_bind. cbn zeta. apply post_run in H1 as [[g ->] Hp].
  destruct r1 as [id|e]; cycle 1.
  { subst d1. destruct H2 as [[= -> ->] ->%idle_stays]. split; [eauto | by left]. }
  apply nic_run_bind in H2 as (r2 & d2 & H2 & [= -> ->] & Hi). split; [eauto|].
  apply (poll_run _ M h _ _ _ _ (sent_signaled _) Hp) in H2 as [Hu Hok].
  destruct r2 as [[|]|e]; [|right; by eapply under_way_run; [apply sent_signaled | exact Hi|]..].
  destruct Hok as (M' & h' & E & ->); [done|]. exists M', h'. split; [done | by apply idle_stays in Hi].
Qed.

(** A run in which everything goes well. *)
Lemma transfer_succeeds t mk text M h M' h' :
  execute_wr M h (sent (mk (rd_next_wr_id t))) = (M', h', true) ->
  nic_run (rdma_transfer t mk text) (idle M h) (advance t (rd_qp_guard t), Ok tt) (idle M' h').
Proof.
  intros E. unfold rdma_transfer, rdma_post, guard_post_send, guarded, check_health, post_send, first_success, CompletionQueue_poll.
  set (w := sent (mk (rd_next_wr_id t))) in *.
  exists (idle M h), (0, IBV_QPS_RTS), (idle M h). split; [done|]. split; [done|].
  exists (idle M h), 0, (mkNic M h [w] []). split; [done|]. split; [by right|].
  exists (mkNic M' h' [] [completion_of w true]), (1, [completion_of w true]), (idle M' h').
  split; [|split; [by right | done]]. apply rtc_once.
  pose proof (ne_execute M h w [] [] M' h' true (or_introl E)) as Hs. assert (Hw : signaled w = true) by apply sent_signaled. rewrite Hw in Hs. exact Hs.
Qed.

Lemma host_bytes_len h a n : 0 <= n -> len (host_bytes h a n) <= n.
Proof. intros Hn. unfold host_bytes, len. rewrite length_take. lia. Qed.

Lemma written_within h buf n base bytes addr :
  in_region base bytes addr (len (host_bytes h buf (u32 n))) ->
  differ_within (addr - base) (u32 n) bytes (bwrite (addr - base) (host_bytes h buf (u32 n)) bytes).
Proof.
  intros (H1 & H2 & H3). pose proof (proj1 (u32_range n)). pose proof (host_bytes_len h buf (u32 n) ltac:(done)).
  split; [apply len_bwrite; lia|]. intros o k Ho Hk Hd. apply bread_bwrite_disjoint; lia.
Qed.

Lemma outcome_read M h buf n lkey addr rkey id M' h' ok :
  outcome M h (sent (read_wr buf n lkey addr rkey id)) M' h' ok ->
  M' = M /\ if ok then exists base bytes, M !! rkey = Some (base, bytes) /\ in_region base bytes addr (u32 n)
                     /\ h' = <[buf := bread (addr - base) (u32 n) bytes]> h
            else h' = h \/ exists part, h' = <[buf := part]> h.
Proof.
  intros [E|[-> [[-> ->]|[-> (part & ->)]]]]; [|by eauto..]. revert E.
  unfold execute_wr. cbn. unfold mem_access. destruct (M !! rkey) as [[base bytes]|]; [|intros [= <- <- <-]; auto].
  case_decide; intros [= <- <- <-]; [|auto]. split; [done|]. by exists base, bytes.
Qed.

Lemma outcome_write M h buf n lkey addr rkey id M' h' ok :
  outcome M h (sent (write_wr buf n lkey addr rkey id)) M' h' ok ->
  h' = h /\ if ok then exists base bytes, M !! rkey = Some (base, bytes)
                     /\ in_region base bytes addr (len (host_bytes h buf (u32 n)))
                     /\ M' = <[rkey := (base, bwrite (addr - base) (host_bytes h buf (u32 n)) bytes)]> M
            else M' = M \/ exists base bytes part, M !! rkey = Some (base, bytes) /\ M' = <[rkey := (base, part)]> M
                   /\ differ_within (addr - base) (u32 n) bytes part.
Proof.
  intros [E|[-> [[-> ->]|[-> (base & bytes & part & H1 & H2 & H3)]]]]; [|by eauto | split; [done|]; right; by exists base, bytes, part].
  revert E. unfold execute_wr. cbn. unfold mem_access. destruct (M !! rkey) as [[base bytes]|]; [|intros [= <- <- <-]; auto].
  case_decide; intros [= <- <- <-]; [|auto]. split; [done|]. by exists base, bytes.
Qed.

(** *** A simulated adapter *)

(** Completions become visible at once, or, when it lags, after one more poll. *)
Record SimAdapter : Type := mkSim {
  sim_mem : rmem;
  sim_host : gmap Z (list Z);
  sim_ready : list WorkCompletion;
  sim_late : list WorkCompletion;
  sim_lag : bool
}.

Definition sim_load (d : SimAdapter) (a n : Z) : list Z := host_bytes (sim_host d) a n.

Definition sim_post (d : SimAdapter) (w : ibv_send_wr) : SimAdapter :=
  let '(M, h, ok) := execute_wr (sim_mem d) (sim_host d) w in
  let wcs := if signaled w || negb ok then [completion_of w ok] else [] in
  if sim_lag d then mkSim M h (sim_ready d) (sim_late d ++ wcs) true
  else mkSim M h (sim_ready d ++ wcs) (sim_late d) false.

#[export] Instance sim_adapter : Adapter SimAdapter := fun v =>
  match v with
  | PostSend _ ws => fun d => (0, foldl sim_post d (posted ws))
  | PollCq _ n => fun d =>
      let wcs := take (Z.to_nat n) (sim_ready d) in
      ((len wcs, wcs), mkSim (sim_mem d) (sim_host d) (drop (Z.to_nat n) (sim_ready d) ++ sim_late d) [] (sim_lag d))
  | QueryQp _ => fun d => ((0, IBV_QPS_RTS), d)
  | GetDeviceList => fun d => ((0, 0, 0), d)
  | GetDeviceName _ => fun d => (None, d)
  | FreeDeviceList _ | CloseDevice _ => fun d => (tt, d)
  | QueryDevice _ => fun d => ((0, mkDeviceAttr "" 0 0 0 0 0 0 0 0 0 0 0 0 0), d)
  | QueryPort _ _ => fun d => ((0, mkPortAttr 0 0 0 0 0 0 0), d)
  | QueryGid _ _ _ => fun d => ((0, 0), d)
  | Mmap _ => fun d => (None, d)
  | LastOsError => fun d => ("", d)
  | GetCqEvent _ => fun d => ((1, 0, 0), d)
  | AckCqEvents _ _ | StoreShutdown _ | Dispatch _ | SetFlag _ | DropFlag _ | SleepMs _ => fun d => (tt, d)
  | LoadShutdown _ | JoinThread _ => fun d => (false, d)
  | CudaMalloc _ => fun d => ((2, 0), d)
  | CudaMemcpyToHost _ _ => fun d => ((1, []), d)
  | ControlConnect _ | ControlDiscover => fun d => (None, d)
  | _ => fun d => (0, d)
  end.

(** ** Where the transport departs from its contract *)

(** Dropping a connected transport breaks the library's rules: the device is
    closed while the protection domain made from it is live. *)
Lemma drop_closes_device_early qp_no t dest d s :
  fresh_handles t s -> ~ wp qp_no (RdmaTransport_drop t) (fun _ _ => True) (connected_ledger t dest d s).
Proof.
  intros (Hnd & _ & Hp). apply NoDup_cons in Hnd as [Ht Hnd]. apply NoDup_cons in Hnd as [Hq Hnd].
  apply NoDup_cons in Hnd as [Hc Hnd]. apply not_elem_of_cons in Ht as [_ [_ [Htp _]%not_elem_of_cons]%not_elem_of_cons].
  apply not_elem_of_cons in Hq as [_ [Hqp _]%not_elem_of_cons].
  apply not_elem_of_cons in Hc as [Hcp _]. unfold RdmaTransport_drop. rewrite Hp. intros (_ & H).
  destruct (H 0 eq_refl) as (_ & H1). destruct (H1 tt I) as (_ & H2). destruct (H2 false I) as (_ & H3).
  destruct (H3 0 eq_refl) as ((_ & Hu) & _). cbn in Hu.
  refine (Hu (pd_inner (rd_pd t)) (RPd (ctx_inner (rd_context t))) _ _); [|by apply list_elem_of_singleton].
  unfold connected_ledger. rewrite (lookup_delete_ne _ _ _ Hcp), (lookup_delete_ne _ _ _ Htp), (lookup_alter_ne _ _ _ _ Htp),
    (lookup_delete_ne _ _ _ Hqp).
  rewrite (lookup_insert_ne _ _ _ _ Htp), (lookup_insert_ne _ _ _ _ Hqp), (lookup_insert_ne _ _ _ _ Hcp). apply lookup_insert_eq.
Qed.

(** The buffer address of a compare-and-swap is null: the value the adapter
    returns has nowhere to go, and the transport never looks at it. *)
Lemma cas_wr_null_buffer compare swap lkey addr rkey id :
  sge_addr <$> wr_sge (cas_wr compare swap lkey addr rkey id) = [0].
Proof. reflexivity. Qed.

Definition sample_transport : RdmaTransport := mkRdma (QpGuard_new (mkQp 4 17)) (mkCq 3) 1 (mkPoller (mkCq 3) (Some 5) 5) (mkContext 1 "mlx5_0") (mkPd 2).
Definition sample_sim (lag : bool) : SimAdapter :=
  mkSim {[ 7 := (4096, [5; 6; 7; 8; 0; 0; 0; 0]) ]} {[ 64 := [1; 2]; 96 := [0; 0] ]} [] [] lag.

(** A compare-and-swap whose comparison fails is reported as swapped, while the
    remote word keeps its value. *)
Example cas_mismatch_reported_swapped :
  let x := run (rdma_cas sample_transport 99 1 0 4096 7) (sample_sim false) in
  x.1.2 = Ok true /\ sim_mem x.2 = sim_mem (sample_sim false).
Proof. vm_compute. by split. Qed.

(** When completions come one poll late, a read that succeeds is reported as
    failed, and its completion makes the next write, to an unknown region,
    report success. *)
Example late_completion_misattributed :
  let x := run (rdma_read sample_transport 96 2 0 4097 7) (sample_sim true) in
  x.1.2 = Err (Internal "READ completion failed") /\ sim_load x.2 96 2 = [6; 7]
  /\ (run (rdma_write x.1.1 64 2 0 4096 8) x.2).1.2 = Ok tt.
Proof. vm_compute. by split_and!. Qed.

(** The adapter with the poller thread of the transport, which takes a turn of its
    loop before every poll of the transport. *)
Record PolledAdapter : Type := mkPolled { po_sim : SimAdapter }.

#[export] Instance polled_adapter : Adapter PolledAdapter := fun v =>
  match v with
  | PollCq q n => fun d =>
      let '(_, d1) := run (poller_loop 1 (mkCq q) 5) (po_sim d) in
      let '(x, d2) := perform (PollCq q n) d1 in (x, mkPolled d2)
  | v => fun d => let '(x, d1) := perform v (po_sim d) in (x, mkPolled d1)
  end.

(** The poller that [connect] starts polls the queue that the operations poll: it
    takes the completion of a read and finds nobody waiting for it, and the read
    that succeeded is reported as failed. *)
Example poller_steals_completion :
  let x := run (rdma_read sample_transport 96 2 0 4097 7) (mkPolled (sample_sim false)) in
  x.1.2 = Err (Internal "READ completion failed") /\ sim_load (po_sim x.2) 96 2 = [6; 7].
Proof. vm_compute. by split. Qed.

(** ** Properties *)

(** C14. Setting up the RDMA transport is safe whatever the library answers: every
    call is made on live handles of the right kind, the queue pair goes through
    INIT, RTR and RTS with the attributes each transition requires, every failing
    branch releases exactly what was acquired, and on success the transport owns
    one new context, protection domain, queue, running poller thread and queue
    pair in state RTS, whose destination is its own queue pair number. *)
Theorem rdma_connect_safe qp_no addr s :
  closed s ->
  wp qp_no (RdmaTransport_connect addr)
    (fun r s' => match r with
       | Err _ => s' = s
       | Ok t => exists d,
           fresh_handles t s /\ s' = connected_ledger t (qp_num (qg_qp (rd_qp_guard t))) d s
           /\ qp_num (qg_qp (rd_qp_guard t)) = qp_no (qp_inner (qg_qp (rd_qp_guard t)))
           /\ rd_qp_guard t = QpGuard_new (qg_qp (rd_qp_guard t)) /\ rd_next_wr_id t = 1
       end) s.
Proof.
  intros Hc. apply wp_connect; [done | done|]. intros t d Hf Hn Hg Hi. by exists d.
Qed.

Lemma rdma_connect_safe_witness :
  closed ∅ /\ wp (fun h => h + 100) (RdmaTransport_connect "127.0.0.1:9400")
    (fun r s' => match r with Err _ => s' = ∅ | Ok t => rd_next_wr_id t = 1 end) ∅.
Proof.
  split; [apply map_Forall_empty|]. eapply wp_mono, (rdma_connect_safe (fun h => h + 100) _ ∅), map_Forall_empty.
  intros [t|e] s'; [|done]. by intros (d & _ & _ & _ & _ & Hi).
Defined.

(** C30. Read and write of the RDMA transport over an asynchronous adapter: it
    executes a posted request at any later time or not at all, its completion
    waits in the queue, and the poller that [connect] started may take it first.
    From a transport with nothing outstanding and an empty queue, in every run:
    if read returns [Ok] the access was inside a registered region, the caller's
    buffer holds the remote bytes, and the transport is idle again; if write
    returns [Ok] the region holds the buffer's bytes and nothing else changed.  If
    they return an error nothing outside the buffer of the read, or outside the
    addressed bytes of the write, has changed; those may hold anything, and the
    request may still be executed later.  Both can succeed, and both consume one work
    request id.  Nothing is said about a transport that is not idle: the late
    completion of a failed operation is taken for the next one
    ([late_completion_misattributed]). *)
Theorem rdma_read_write_refine t M h buf n lkey addr rkey :
  let got base bytes := <[buf := bread (addr - base) (u32 n) bytes]> h in
  let put base bytes := <[rkey := (base, bwrite (addr - base) (host_bytes h buf (u32 n)) bytes)]> M in
  (forall t' r d', nic_run (rdma_read t buf n lkey addr rkey) (idle M h) (t', r) d' ->
     rd_next_wr_id t' = u64 (rd_next_wr_id t + 1) /\ nc_mem d' = M
     /\ match r with
        | Ok _ => exists base bytes, M !! rkey = Some (base, bytes) /\ in_region base bytes addr (u32 n)
            /\ d' = idle M (got base bytes)
        | Err _ => nc_host d' = h \/ exists part, nc_host d' = <[buf := part]> h
        end)
  /\ (forall t' r d', nic_run (rdma_write t buf n lkey addr rkey) (idle M h) (t', r) d' ->
     rd_next_wr_id t' = u64 (rd_next_wr_id t + 1) /\ nc_host d' = h
     /\ match r with
        | Ok _ => exists base bytes, M !! rkey = Some (base, bytes) /\ d' = idle (put base bytes) h
        | Err _ => nc_mem d' = M \/ exists base bytes part, M !! rkey = Some (base, bytes)
            /\ nc_mem d' = <[rkey := (base, part)]> M /\ differ_within (addr - base) (u32 n) bytes part
        end)
  /\ (forall base bytes, M !! rkey = Some (base, bytes) -> in_region base bytes addr (u32 n) ->
     nic_run (rdma_read t buf n lkey addr rkey) (idle M h) (advance t (rd_qp_guard t), Ok tt) (idle M (got base bytes))
     /\ (len (host_bytes h buf (u32 n)) = u32 n ->
         nic_run (rdma_write t buf n lkey addr rkey) (idle M h) (advance t (rd_qp_guard t), Ok tt) (idle (put base bytes) h))).
Proof.
  cbn zeta. split_and!.
  - intros t' r d' [[g ->] Hr]%transfer_run. split; [done|]. destruct r as [u|e].
    + destruct Hr as (M' & h' & E & ->). destruct (outcome_read _ _ _ _ _ _ _ _ _ _ _ (or_introl E)) as (-> & base & bytes & HM & Hin & ->).
      split; [done|]. by exists base, bytes.
    + destruct Hr as [->|[|M' h' ok q (-> & E)%outcome_read _]]; [by auto..|]. split; [done|].
      destruct ok; [|done]. destruct E as (base & bytes & _ & _ & ->). right. by eexists.
  - intros t' r d' [[g ->] Hr]%transfer_run. split; [done|]. destruct r as [u|e].
    + destruct Hr as (M' & h' & E & ->). destruct (outcome_write _ _ _ _ _ _ _ _ _ _ _ (or_introl E)) as (-> & base & bytes & HM & Hin & ->).
      split; [done|]. by exists base, bytes.
    + destruct Hr as [->|[|M' h' ok q (-> & E)%outcome_write _]]; [by auto..|]. split; [done|].
      destruct ok; [|done]. destruct E as (base & bytes & HM & Hin & ->). right. exists base, bytes. eexists.
      split_and!; [done | done | by apply written_within].
  - intros base bytes HM Hin. split; [|intros Hl]; apply transfer_succeeds; unfold execute_wr; cbn; unfold mem_access;
      rewrite HM, decide_True by (rewrite ?Hl; done); done.
Qed.

(** The buffer of a read that was reported as failed is still the adapter's to
    write: the request may be executed after the caller has gone on. *)
Example late_read_overwrites_buffer :
  exists d', nic_run (rdma_read sample_transport 96 2 0 4097 7) (idle (sim_mem (sample_sim false)) {[ 96 := [0; 0] ]})
      (advance sample_transport (rd_qp_guard sample_transport), Err (Internal "READ completion failed")) d'
    /\ nc_host d' = {[ 96 := [0; 0] ]}
    /\ exists d'', nic_env d' d'' /\ nc_host d'' = {[ 96 := [6; 7] ]}.
Proof.
  set (w := sent (read_wr 96 2 0 4097 7 1)). set (M := sim_mem (sample_sim false)). set (h := {[ 96 := [0; 0] ]} : gmap Z (list Z)).
  exists (mkNic M h [w] []). split_and!; [|done|].
  - exists (idle M h), (0, IBV_QPS_RTS), (idle M h). split; [done|]. split; [done|].
    exists (idle M h), 0, (mkNic M h [w] []). split; [done|]. split; [by right|].
    exists (mkNic M h [w] []), (0, []), (mkNic M h [w] []). split; [done|]. split; [by right | done].
  - eexists. split; [apply ne_execute; left; reflexivity | by vm_compute].
Qed.

Lemma rdma_read_write_refine_witness :
  exists t' d', nic_run (rdma_write sample_transport 64 2 0 4097 7)
      (idle (sim_mem (sample_sim false)) {[ 64 := [1; 2] ]}) (t', Ok tt) d'
    /\ nc_mem d' = {[ 7 := (4096, [5; 1; 2; 8; 0; 0; 0; 0]) ]}.
Proof.
  destruct (rdma_read_write_refine sample_transport (sim_mem (sample_sim false)) {[ 64 := [1; 2] ]} 64 2 0 4097 7)
    as (_ & _ & Hs).
  destruct (Hs 4096 [5; 6; 7; 8; 0; 0; 0; 0]) as [_ Hw].
  - reflexivity.
  - change (u32 2) with 2. unfold in_region, len. cbn. lia.
  - do 2 eexists. split; [apply Hw; reflexivity | reflexivity].
Defined.
