(* ===== verification/Gdr.v ===== *)
(** * Gdr: the GPUDirect transport (src/transport/gdr.rs)

    Device buffers and the transport that owns them, as programs over the foreign
    calls (the CUDA runtime's among them), with the [gdr] feature; the [stub]
    definitions are the build without it.  The theorem: the life of a device buffer,
    whatever the runtime answers. *)

From stdpp Require Import finite.
From S2P Require Import Prelude Layout Errors Verbs VerbsProps PollerThread Rdma.

Open Scope Z_scope.
Local Open Scope rdmas_scope.

(** ** Device buffers *)

Definition CUDA_SUCCESS : Z := 0.

Record GpuBuffer : Type := mkGpu { gb_ptr : Z; gb_size : Z }.

Definition GpuBuffer_allocate (size : Z) : ffi (result GpuBuffer string) :=
  if size =? 0 then Ret (Err "GpuBuffer size must be > 0")
  else
    '(rc, ptr) ← call (CudaMalloc size);
    if negb (rc =? CUDA_SUCCESS) || (ptr =? 0)
    then Ret (Err ("cudaMalloc(" +:+ pretty size +:+ ") failed: rc=" +:+ pretty rc))
    else Ret (Ok (mkGpu ptr size)).

Definition copy_from_host (b : GpuBuffer) (src : list Z) : ffi (result unit string) :=
  if gb_size b <? len src then Ret (Err "source larger than GpuBuffer")
  else
    rc ← call (CudaMemcpyToDevice (gb_ptr b) src);
    if negb (rc =? CUDA_SUCCESS) then Ret (Err ("cudaMemcpy H2D failed: rc=" +:+ pretty rc))
    else Ret (Ok tt).

(** The destination afterwards. *)
Definition copy_to_host (b : GpuBuffer) (dst : list Z) : ffi (result (list Z) string) :=
  if len dst <? gb_size b then Ret (Err "destination too small for GpuBuffer")
  else
    '(rc, bytes) ← call (CudaMemcpyToHost (gb_ptr b) (gb_size b));
    if negb (rc =? CUDA_SUCCESS) then Ret (Err ("cudaMemcpy D2H failed: rc=" +:+ pretty rc))
    else Ret (Ok (bwrite 0 bytes dst)).

Definition GpuBuffer_drop (b : GpuBuffer) : ffi unit :=
  if negb (gb_ptr b =? 0) then _ ← call (CudaFree (gb_ptr b)); Ret tt else Ret tt.

(** ** The transport *)

Record GdrTransport : Type := mkGdr { gd_inner : RdmaTransport; gd_registered_buffers : list GpuBuffer }.

Definition GdrTransport_connect (server_addr : string) : ffi (result GdrTransport RdmaError) :=
  let? inner := RdmaTransport_connect server_addr in
  Ret (Ok (mkGdr inner [])).

Definition PLACEHOLDER_RKEY : Z := 0xDEAD0001.

Definition register_gpu_buffer (g : GdrTransport) (size : Z) : ffi (GdrTransport * result (Z * Z) RdmaError) :=
  r ← GpuBuffer_allocate size;
  match r with
  | Err e => Ret (g, Err (Internal ("GpuBuffer allocation: " +:+ e)))
  | Ok buf => Ret (mkGdr (gd_inner g) (gd_registered_buffers g ++ [buf]), Ok (u64 (gb_ptr buf), PLACEHOLDER_RKEY))
  end.

Definition gdr_read (g : GdrTransport) (gpu_buf : GpuBuffer) (gpu_offset remote_addr remote_rkey length : Z)
  : result unit RdmaError :=
  Err (Internal "GDR read requires ibv_reg_mr with GPU pointer — stub").

Definition registered_buffer_count (g : GdrTransport) : nat := length (gd_registered_buffers g).

Fixpoint drop_buffers (bs : list GpuBuffer) : ffi unit :=
  match bs with
  | [] => Ret tt
  | b :: bs => GpuBuffer_drop b ;; drop_buffers bs
  end.

(** The inner transport is dropped before the buffers. *)
Definition GdrTransport_drop (g : GdrTransport) : ffi unit :=
  RdmaTransport_drop (gd_inner g) ;; drop_buffers (gd_registered_buffers g).

(** ** Without the feature *)

Definition stub_allocate (size : Z) : result GpuBuffer string :=
  if size =? 0 then Err "GpuBuffer size must be > 0"
  else Err "CUDA not available — enable the 'gdr' feature".

Definition stub_register_gpu_buffer (size : Z) : result (Z * Z) RdmaError :=
  Err (Internal "GPUDirect not available — enable the 'gdr' feature").

Definition stub_gdr_read (gpu_buf : GpuBuffer) (gpu_offset remote_addr remote_rkey length : Z) : result unit RdmaError :=
  Err (Internal "GPUDirect not available — enable the 'gdr' feature").

(** ** Lemmas *)

Section logic.
Context (qp_no : Z -> Z).
Abbreviation wp := (wp qp_no).
Implicit Types (s : ledger).

Lemma wp_gpu_allocate size s (Q : result GpuBuffer string -> ledger -> Prop) :
  0 <= size -> (forall e, Q (Err e) s) ->
  (forall p, p <> 0 -> s !! p = None -> 0 < size -> Q (Ok (mkGpu p size)) (<[p := RGpu size []]> s)) ->
  wp (GpuBuffer_allocate size) Q s.
Proof.
  intros Hs He Hok. unfold GpuBuffer_allocate. destruct (Z.eqb_spec size 0); [apply He|].
  apply wp_bind, wp_call; [done|]. intros [rc ptr] Hx. cbn in Hx. unfold CUDA_SUCCESS. cbn [effect fst snd].
  destruct (Z.eqb_spec rc 0) as [->|Hrc]; cbn [negb orb]; [|apply He].
  destruct (Z.eqb_spec ptr 0) as [->|Hp]; [apply He|]. rewrite acquire_fresh by done.
  apply Hok; [done | by apply (null_or_fresh_ne s), Hp; apply Hx | lia].
Qed.

(** The known prefix after a copy to the device. *)
Lemma wp_copy_from_host p n l s src (Q : result unit string -> ledger -> Prop) :
  (forall e, Q (Err e) (<[p := RGpu n l]> s)) ->
  (len src <= n -> Q (Ok tt) (<[p := RGpu n (src ++ drop (length src) l)]> s)) ->
  wp (copy_from_host (mkGpu p n) src) Q (<[p := RGpu n l]> s).
Proof.
  intros He Hok. unfold copy_from_host. cbn [gb_size gb_ptr]. destruct (Z.ltb_spec n (len src)); [apply He|].
  apply wp_bind, wp_call; [exists n, l; split; [apply lookup_insert_eq | done]|]. intros rc _.
  unfold CUDA_SUCCESS. cbn [effect]. destruct (rc =? 0); cbn [negb]; [|apply He].
  rewrite alter_insert_eq. by apply Hok.
Qed.

Lemma wp_copy_to_host p n l s dst (Q : result (list Z) string -> ledger -> Prop) :
  (forall e, Q (Err e) (<[p := RGpu n l]> s)) ->
  (forall bytes, n <= len dst -> len bytes = n -> take (length l) bytes = take (Z.to_nat n) l ->
     Q (Ok (bwrite 0 bytes dst)) (<[p := RGpu n l]> s)) ->
  wp (copy_to_host (mkGpu p n) dst) Q (<[p := RGpu n l]> s).
Proof.
  intros He Hok. unfold copy_to_host. cbn [gb_size gb_ptr]. destruct (Z.ltb_spec (len dst) n); [apply He|].
  apply wp_bind, wp_call; [exists n, l; split; [apply lookup_insert_eq | done]|]. intros [rc bytes] Hx.
  unfold CUDA_SUCCESS. cbn [effect]. cbn in Hx. destruct (Z.eqb_spec rc 0) as [->|]; cbn [negb]; [|apply He].
  destruct (Hx eq_refl) as [Hl Hk]. apply Hok; [done | done |]. apply (Hk n), lookup_insert_eq.
Qed.

Lemma wp_gpu_drop p n l s (Q : unit -> ledger -> Prop) :
  p <> 0 -> s !! p = None -> Q tt s -> wp (GpuBuffer_drop (mkGpu p n)) Q (<[p := RGpu n l]> s).
Proof.
  intros Hp Hf HQ. unfold GpuBuffer_drop. cbn [gb_ptr]. rewrite (proj2 (Z.eqb_neq p 0)) by done. cbn [negb].
  apply wp_bind, wp_call; [do 2 eexists; apply lookup_insert_eq|]. intros x _. cbn [effect].
  by rewrite delete_insert_id.
Qed.

(** The objects of a list of buffers on top of a ledger. *)
Fixpoint with_buffers (bs : list GpuBuffer) (s : ledger) : ledger :=
  match bs with
  | [] => s
  | b :: bs => <[gb_ptr b := RGpu (gb_size b) []]> (with_buffers bs s)
  end.

Definition fresh_buffers (bs : list GpuBuffer) (s : ledger) : Prop :=
  NoDup (gb_ptr <$> bs) /\ Forall (fun b => gb_ptr b <> 0 /\ s !! gb_ptr b = None) bs.

Lemma with_buffers_lookup bs s p : p ∉ gb_ptr <$> bs -> with_buffers bs s !! p = s !! p.
Proof.
  induction bs as [|b bs IH]; [done|]. cbn. rewrite not_elem_of_cons. intros [Hne Hp].
  rewrite lookup_insert_ne by done. auto.
Qed.

Lemma wp_drop_buffers bs s (Q : unit -> ledger -> Prop) :
  fresh_buffers bs s -> Q tt s -> wp (drop_buffers bs) Q (with_buffers bs s).
Proof.
  intros [Hnd Hf] HQ. induction bs as [|[p n] bs IH]; [done|]. cbn in Hnd. apply NoDup_cons in Hnd as [Hp Hnd].
  apply Forall_cons in Hf as [[Hz Hs] Hf]. cbn [drop_buffers with_buffers gb_ptr gb_size].
  apply wp_bind, wp_gpu_drop; [done | by rewrite with_buffers_lookup | by apply IH].
Qed.
End logic.

Lemma with_buffers_snoc bs b s :
  gb_ptr b ∉ gb_ptr <$> bs -> with_buffers (bs ++ [b]) s = <[gb_ptr b := RGpu (gb_size b) []]> (with_buffers bs s).
Proof.
  induction bs as [|c bs IH]; [done|]. cbn. rewrite not_elem_of_cons. intros [Hne Hp].
  rewrite IH by done. by rewrite insert_insert_ne.
Qed.

Lemma with_buffers_fresh bs s p :
  with_buffers bs s !! p = None -> p ∉ gb_ptr <$> bs /\ s !! p = None.
Proof.
  induction bs as [|c bs IH]; cbn; [by split; [apply not_elem_of_nil|]|].
  intros [Hp Hne]%lookup_insert_None. destruct (IH Hp). split; [|done]. rewrite not_elem_of_cons. by split; [congruence|].
Qed.

(** ** Properties *)

(** Allocate, copy [src] in, copy the buffer out over [dst], and drop. *)
Definition gpu_session (size : Z) (src dst : list Z)
  : ffi (result (result unit string * result (list Z) string) string) :=
  r ← GpuBuffer_allocate size;
  match r with
  | Err e => Ret (Err e)
  | Ok b =>
      r1 ← copy_from_host b src;
      r2 ← copy_to_host b dst;
      GpuBuffer_drop b ;;
      Ret (Ok (r1, r2))
  end.

(** What the answers of a session say about its buffers. *)
Definition session_ok (size : Z) (src dst : list Z) (r1 : result unit string) (r2 : result (list Z) string) : Prop :=
  0 < size /\ (r1 = Ok tt -> len src <= size)
  /\ forall out, r2 = Ok out -> size <= len dst /\ len out = len dst
       /\ drop (Z.to_nat size) out = drop (Z.to_nat size) dst
       /\ (r1 = Ok tt -> take (length src) out = src).

Lemma wp_session_out qp_no p size src dst l s (r1 : result unit string) :
  p <> 0 -> s !! p = None -> 0 < size -> (r1 = Ok tt -> len src <= size /\ l = src) ->
  wp qp_no (r2 ← copy_to_host (mkGpu p size) dst; GpuBuffer_drop (mkGpu p size) ;; Ret (Ok (r1, r2)))
    (fun (r : result (result unit string * result (list Z) string) string) s' =>
       s' = s /\ match r with Err _ => True | Ok (r1, r2) => session_ok size src dst r1 r2 end)
    (<[p := RGpu size l]> s).
Proof.
  intros Hp Hf Hpos Hl. apply wp_bind, wp_copy_to_host.
  - intros e. apply wp_bind, wp_gpu_drop; [done | done|]. split; [done|]. split_and!; [done | by intros []%Hl | done].
  - intros bytes Hd Hb Hk. apply wp_bind, wp_gpu_drop; [done | done|]. split; [done|].
    split_and!; [done | by intros []%Hl|]. intros out [= <-]. rewrite bwrite_0. unfold len in *.
    split_and!.
    + lia.
    + rewrite length_app, length_drop. lia.
    + rewrite drop_app_ge by lia. rewrite drop_drop. f_equal. lia.
    + intros Hr. destruct (Hl Hr) as [Hsrc ->]. rewrite take_app_le by lia. rewrite Hk. apply take_ge. lia.
Qed.

(** The life of a device buffer, whatever the CUDA runtime answers: copies never
    leave the device memory or the host buffers, one that would is refused; what
    was copied in comes out at the start of the destination, whose bytes past the
    buffer are unchanged; and after the drop no device memory is left, also when
    the allocation or a copy failed. *)
Theorem gpu_buffer_roundtrip qp_no size src dst s :
  0 <= size ->
  wp qp_no (gpu_session size src dst)
    (fun r s' => s' = s /\ match r with Err _ => True | Ok (r1, r2) => session_ok size src dst r1 r2 end) s.
Proof.
  intros Hs. apply wp_bind, wp_gpu_allocate; [done | by split|]. intros p Hp Hf Hpos.
  apply wp_bind, wp_copy_from_host.
  - intros e. by apply wp_session_out.
  - intros Hsrc. apply wp_session_out; [done..|]. intros _. split; [done|]. by rewrite drop_nil, app_nil_r.
Qed.

(** A registration adds one buffer that the transport owns, or leaves it alone, and
    dropping the buffers of the transport frees exactly them.  The key it returns
    is not one of the verbs library, which is not called. *)
Theorem register_gpu_buffer_owned qp_no g size s :
  0 <= size -> fresh_buffers (gd_registered_buffers g) s ->
  wp qp_no (register_gpu_buffer g size)
    (fun '(g', r) s' =>
       s' = with_buffers (gd_registered_buffers g') s
       /\ match r with
          | Ok (_, rkey) => rkey = 0xDEAD0001 /\ registered_buffer_count g' = S (registered_buffer_count g)
          | Err _ => g' = g
          end
       /\ wp qp_no (drop_buffers (gd_registered_buffers g')) (fun _ s'' => s'' = s) s')
    (with_buffers (gd_registered_buffers g) s).
Proof.
  intros Hs Hg. apply wp_bind, wp_gpu_allocate; [done | | ].
  { intros e. split_and!; [done | done | by apply wp_drop_buffers]. }
  intros p Hp [Hf Hn]%with_buffers_fresh Hpos. cbn [gd_registered_buffers wp].
  rewrite (with_buffers_snoc _ (mkGpu p size)) by done. split_and!; [done | done | |].
  - unfold registered_buffer_count. cbn. rewrite length_app. cbn. lia.
  - rewrite <- (with_buffers_snoc _ (mkGpu p size)) by done. apply wp_drop_buffers; [|done].
    destruct Hg as [Hnd Hall]. split.
    + rewrite fmap_app, NoDup_app. split_and!; [done | | apply NoDup_singleton].
      intros x Hx ->%list_elem_of_singleton. done.
    + apply Forall_app_2; [done|]. by repeat constructor.
Qed.
