(* ===== verification/HugePage.v ===== *)
(** * HugePage: memory for one-sided access (src/mem/region.rs)

    [HugePageRegion]: mapping, locking and registering huge pages, and releasing
    them, as a program over the foreign calls.  The theorem: sizes are rounded to
    whole pages, a region that was allocated is released completely and in the
    required order, and the failing branches release what they mapped, except
    the one after a failed registration. *)

From stdpp Require Import finite.
From S2P Require Import Prelude Errors Verbs VerbsProps.

Open Scope Z_scope.
Local Open Scope rdmas_scope.

Definition HUGE_PAGE_SIZE : Z := 2 * 1024 * 1024.

Definition DEFAULT_ACCESS : gset ibv_access_flag :=
  {[IBV_ACCESS_LOCAL_WRITE; IBV_ACCESS_REMOTE_WRITE; IBV_ACCESS_REMOTE_READ; IBV_ACCESS_REMOTE_ATOMIC]}.

(** The sum wraps, as in a release build. *)
Definition round_up (size : Z) : Z :=
  if size =? 0 then HUGE_PAGE_SIZE
  else u64 (u64 (size + HUGE_PAGE_SIZE - 1) / HUGE_PAGE_SIZE * HUGE_PAGE_SIZE).

Record HugePageRegion : Type := mkHuge { hp_ptr : Z; hp_size : Z; hp_mr : option MemoryRegion }.

Section region.
(** The texts of the three error messages. *)
Context (fmt_mmap : Z -> Z -> string -> string) (fmt_mlock : string -> string)
  (fmt_reg : Z -> Z -> gset ibv_access_flag -> string).

Definition allocate_with_access (size : Z) (pd : ProtectionDomain) (access : gset ibv_access_flag)
  : ffi (result HugePageRegion RdmaError) :=
  let rounded := round_up size in
  ptr ← call (Mmap rounded);
  match ptr with
  | None => err ← call LastOsError; Ret (Err (Internal (fmt_mmap size rounded err)))
  | Some ptr =>
      mlock_ret ← call (Mlock ptr rounded);
      if negb (mlock_ret =? 0) then
        err ← call LastOsError;
        _ ← call (Munmap ptr rounded);
        Ret (Err (Internal (fmt_mlock err)))
      else
        let? mr := MemoryRegion_register fmt_reg pd ptr rounded access in
        Ret (Ok (mkHuge ptr rounded (Some mr)))
  end.

Definition HugePageRegion_allocate (size : Z) (pd : ProtectionDomain) : ffi (result HugePageRegion RdmaError) :=
  allocate_with_access size pd DEFAULT_ACCESS.

(** The registration is dropped while the pages are still mapped; a failed
    [munmap] is only logged. *)
Definition HugePageRegion_drop (h : HugePageRegion) : ffi unit :=
  match hp_mr h with Some mr => MemoryRegion_drop mr | None => Ret tt end ;;
  _ ← call (Munmap (hp_ptr h) (hp_size h));
  Ret tt.

Definition hp_rkey (h : HugePageRegion) : option Z := mr_rkey <$> hp_mr h.
Definition hp_lkey (h : HugePageRegion) : option Z := mr_lkey <$> hp_mr h.

(** ** Lemmas *)

Lemma round_up_spec size :
  0 <= size -> size + HUGE_PAGE_SIZE - 1 < 2 ^ 64 ->
  round_up size mod HUGE_PAGE_SIZE = 0 /\ 0 < round_up size
  /\ size <= round_up size < Z.max 1 size + HUGE_PAGE_SIZE.
Proof.
  unfold round_up, u64, HUGE_PAGE_SIZE. intros Hs Hb. destruct (Z.eqb_spec size 0) as [->|Hz]; [by split_and!|].
  change (2 * 1024 * 1024) with 2097152 in *. rewrite (Z.mod_small (size + _ - 1)) by lia.
  pose proof (Z.div_mod (size + 2097152 - 1) 2097152 ltac:(lia)) as Hd.
  pose proof (Z.mod_pos_bound (size + 2097152 - 1) 2097152 ltac:(lia)) as Hr.
  rewrite (Z.mod_small (_ * _)) by lia. rewrite Z.mod_mul by lia. lia.
Qed.

(** Beyond that the sum wraps and the region has no page at all. *)
Lemma round_up_wraps size :
  2 ^ 64 - HUGE_PAGE_SIZE < size < 2 ^ 64 -> round_up size = 0.
Proof.
  unfold round_up, u64, HUGE_PAGE_SIZE. intros Hs. destruct (Z.eqb_spec size 0) as [->|Hz]; [lia|].
  assert ((size + 2 * 1024 * 1024 - 1) mod 2 ^ 64 = size + 2 * 1024 * 1024 - 1 - 2 ^ 64) as ->
    by (symmetry; apply (Z.mod_unique _ _ 1); lia).
  rewrite Z.div_small by lia. reflexivity.
Qed.

Section logic.
Context (qp_no : Z -> Z).
Abbreviation wp := (wp qp_no).

Lemma wp_register pd addr n access s Q :
  is_pd s (pd_inner pd) -> s !! addr = Some (RMap n) ->
  Q (Err (Internal (fmt_reg addr n access))) s ->
  (forall mr, mr_ptr mr <> 0 -> s !! mr_ptr mr = None -> mr_size mr = n ->
     Q (Ok mr) (<[mr_ptr mr := RMr (pd_inner pd) addr]> s)) ->
  wp (MemoryRegion_register fmt_reg pd addr n access) Q s.
Proof.
  intros Hp Ha He Hok. apply wp_bind, wp_call; [split; [done | by exists n]|]. intros mr Hmr.
  apply wp_try, wp_non_null; [intros ->; apply He|]. intros Hz. cbn [effect]. rewrite acquire_fresh by done.
  apply wp_bind, wp_call; [do 2 eexists; apply lookup_insert_eq|]. intros lkey _.
  apply wp_bind, wp_call; [do 2 eexists; apply lookup_insert_eq|]. intros rkey _.
  apply (Hok (mkMr mr lkey rkey n)); [done | by apply (null_or_fresh_ne s) | done].
Qed.

Lemma wp_huge_drop h mr pd s Q :
  closed s -> s !! hp_ptr h = None -> hp_ptr h <> mr_ptr mr -> s !! mr_ptr mr = None ->
  hp_ptr h <> pd -> hp_mr h = Some mr -> Q tt s ->
  wp (HugePageRegion_drop h) Q
    (<[mr_ptr mr := RMr pd (hp_ptr h)]> (<[hp_ptr h := RMap (hp_size h)]> s)).
Proof.
  intros Hc Hf Hne Hfm Hpd Hm HQ. unfold HugePageRegion_drop. rewrite Hm.
  apply wp_bind, wp_bind, wp_call; [do 2 eexists; apply lookup_insert_eq|]. intros x Hx. cbn [effect].
  rewrite delete_insert_id by (by rewrite lookup_insert_ne).
  apply wp_bind, wp_call.
  - split; [apply lookup_insert_eq|]. apply unused_insert; [apply not_elem_of_nil | by apply closed_unused].
  - intros y _. cbn [effect]. by rewrite delete_insert_id.
Qed.
End logic.

(** The calls a program makes when the answers are given by [o]. *)
Fixpoint calls {A} (p : ffi A) (o : forall v, answer v) : list verb :=
  match p with
  | Ret _ => []
  | Call v k => v :: calls (k (o v)) o
  end.

(** After a failed registration the pages stay mapped: [munmap] is not among the
    calls, and the region is not returned either. *)
Lemma failed_registration_leaks size pd access (o : forall v, answer v) ptr :
  o (Mmap (round_up size)) = Some ptr -> o (Mlock ptr (round_up size)) = 0 ->
  o (RegMr (pd_inner pd) ptr (round_up size) access) = 0 ->
  calls (allocate_with_access size pd access) o
  = [Mmap (round_up size); Mlock ptr (round_up size); RegMr (pd_inner pd) ptr (round_up size) access].
Proof. intros E1 E2 E3. unfold allocate_with_access. cbn. rewrite E1. cbn. rewrite E2. cbn. by rewrite E3. Qed.

(** ** Properties *)

(** C34. The life of a huge-page region whose size does not wrap when it is
    rounded up, whatever the kernel and the library answer: an allocated region
    is registered over whole pages that cover the request, dropping it
    deregisters before unmapping and leaves exactly the resources there were
    before. When the mapping or the locking of the pages fails, which the error
    says, nothing is left; when the registration fails, and then only, the
    mapping is left behind ([failed_registration_leaks]). *)
Theorem hugepage_lifecycle qp_no size pd access s :
  closed s -> is_pd s (pd_inner pd) -> 0 <= size -> size + HUGE_PAGE_SIZE - 1 < 2 ^ 64 ->
  wp qp_no (allocate_with_access size pd access)
    (fun r s' => match r with
       | Ok h => hp_size h mod HUGE_PAGE_SIZE = 0 /\ 0 < hp_size h
           /\ size <= hp_size h < Z.max 1 size + HUGE_PAGE_SIZE
           /\ (exists mr, hp_mr h = Some mr /\ mr_size mr = hp_size h
                 /\ s' !! mr_ptr mr = Some (RMr (pd_inner pd) (hp_ptr h)))
           /\ s' !! hp_ptr h = Some (RMap (hp_size h))
           /\ wp qp_no (HugePageRegion_drop h) (fun _ s'' => s'' = s) s'
       | Err e =>
           (s' = s /\ exists err, e = Internal (fmt_mmap size (round_up size) err) \/ e = Internal (fmt_mlock err))
           \/ exists ptr, e = Internal (fmt_reg ptr (round_up size) access)
                /\ s !! ptr = None /\ s' = <[ptr := RMap (round_up size)]> s
       end) s.
Proof.
  intros Hc [c Hpd] H0 Hb. pose proof (round_up_spec size H0 Hb) as (Hm & Hp & Hr).
  apply wp_bind, wp_call; [done|]. intros [ptr|].
  2:{ intros _. apply wp_bind, wp_call; [done|]. intros err _. left. split; [done|]. exists err. by left. }
  intros [Hz Hf]. cbn [effect]. set (s1 := <[ptr := RMap (round_up size)]> s).
  apply wp_bind, wp_call; [apply lookup_insert_eq|]. intros ret _. cbn [effect]. destruct (negb (ret =? 0)).
  - apply wp_bind, wp_call; [done|]. intros err _. apply wp_bind, wp_call.
    + split; [apply lookup_insert_eq|]. apply unused_insert; [apply not_elem_of_nil | by apply closed_unused].
    + intros x _. left. cbn [effect]. unfold s1. rewrite delete_insert_id by done. split; [done|]. exists err. by right.
  - assert (Hne : ptr <> pd_inner pd) by congruence.
    apply wp_try, wp_register; [exists c; unfold s1; by rewrite lookup_insert_ne | apply lookup_insert_eq | |].
    { right. by exists ptr. }
    intros mr _ [Hfm Hpm]%lookup_insert_None Hsz. split_and!; try (apply Hr || done).
    + exists mr. split_and!; [done | done | apply lookup_insert_eq].
    + cbn. rewrite lookup_insert_ne by done. apply lookup_insert_eq.
    + by apply (wp_huge_drop qp_no (mkHuge ptr (round_up size) (Some mr)) mr).
Qed.
End region.

Lemma hugepage_lifecycle_witness :
  wp (fun h => h) (allocate_with_access (fun _ _ e => e) (fun e => e) (fun _ _ _ => "ibv_reg_mr failed") 100
      (mkPd 2) DEFAULT_ACCESS)
    (fun r s' => match r with
       | Ok h => wp (fun h => h) (HugePageRegion_drop h) (fun _ s'' => s'' = {[1 := RCtx 9; 2 := RPd 1]}) s'
       | Err _ => True
       end) {[1 := RCtx 9; 2 := RPd 1]}.
Proof.
  eapply wp_mono, (hugepage_lifecycle (fun _ _ e => e) (fun e => e) (fun _ _ _ => "ibv_reg_mr failed") (fun h => h) 100 (mkPd 2)
    DEFAULT_ACCESS {[1 := RCtx 9; 2 := RPd 1]}).
  - intros [h|e] s' H; [apply H | done].
  - intros k r Hk. apply lookup_insert_Some in Hk as [[_ <-]|[_ [_ <-]%lookup_singleton_Some]]; [constructor|].
    constructor; [by eexists | constructor].
  - by exists 1.
  - lia.
  - unfold HUGE_PAGE_SIZE. lia.
Defined.
