(* ===== verification/Interleave.v ===== *)
(** * Interleave: several clients on one remote memory

    A client program ([Remote]) is a function over any transport.  Run against
    [recorder], a transport that answers from a list of replies and stops at the
    first question it has no reply for, it becomes a resumption: the history of
    replies determines the next request.  A system of clients interleaves such
    requests on one remote memory, and a request may also fail before or after
    it took effect.  Two results hold for every program built from the transport
    operations ([client_prog]): a client that runs alone does what the program does on
    the memory, and clients whose requests stay in disjoint parts of the memory
    behave as if each ran alone. *)

From S2P Require Import Prelude Errors Transport.

Open Scope Z_scope.
Local Open Scope rdmas_scope.

(** ** Requests and replies *)

Inductive request : Type :=
| QRead (n lkey addr rkey : Z)
| QWrite (buf : list Z) (lkey addr rkey : Z)
| QCas (compare swap lkey addr rkey : Z).

Inductive reply : Type :=
| ARead (r : result (list Z) RdmaError)
| AWrite (r : result unit RdmaError)
| ACas (r : result bool RdmaError).

Definition perform {T} `{Transport T} (t : T) (q : request) : T * reply :=
  match q with
  | QRead n lkey addr rkey => let '(t, r) := tr_read t n lkey addr rkey in (t, ARead r)
  | QWrite buf lkey addr rkey => let '(t, r) := tr_write t buf lkey addr rkey in (t, AWrite r)
  | QCas compare swap lkey addr rkey => let '(t, r) := tr_cas t compare swap lkey addr rkey in (t, ACas r)
  end.

(** The reply when the operation is reported as failed. *)
Definition failed (q : request) (e : RdmaError) : reply :=
  match q with QRead _ _ _ _ => ARead (Err e) | QWrite _ _ _ _ => AWrite (Err e) | QCas _ _ _ _ _ => ACas (Err e) end.

(** ** The recorder *)

Record recorder : Type := mkRec { rc_replies : list reply; rc_asked : option request }.

Definition suspended : RdmaError := Internal "suspended".

Definition ask {A} (take : reply -> option (result A RdmaError)) (q : request) (t : recorder)
  : recorder * result A RdmaError :=
  match rc_asked t, rc_replies t with
  | None, a :: rest => (mkRec rest None, default (Err suspended) (take a))
  | None, [] => (mkRec [] (Some q), Err suspended)
  | Some _, _ => (t, Err suspended)
  end.

#[export] Instance recorder_transport : Transport recorder := {|
  tr_read t n lkey addr rkey :=
    ask (fun a => match a with ARead r => Some r | _ => None end) (QRead n lkey addr rkey) t;
  tr_write t buf lkey addr rkey :=
    ask (fun a => match a with AWrite r => Some r | _ => None end) (QWrite buf lkey addr rkey) t;
  tr_cas t compare swap lkey addr rkey :=
    ask (fun a => match a with ACas r => Some r | _ => None end) (QCas compare swap lkey addr rkey) t
|}.

(** What a program does after the replies [h]. *)
Inductive outcome (A : Type) : Type :=
| Asks (q : request)
| Returns (r : result A RdmaError)
| Panics.
Arguments Asks {A} q.
Arguments Returns {A} r.
Arguments Panics {A}.

Definition resume {A} (m : stM recorder RdmaError A) (h : list reply) : outcome A :=
  match m (mkRec h None) with
  | Done (t, r) => match rc_asked t with Some q => Asks q | None => Returns r end
  | Panic => Panics
  end.

(** ** Client programs *)

(** [m1] is a program over the recorder and [m2] the same program over another
    transport, and every request satisfies [F]. *)
Inductive client_prog {T} `{Transport T} (F : request -> Prop)
  : forall {A}, stM recorder RdmaError A -> stM T RdmaError A -> Prop :=
| cp_ret {A} (a : A) : client_prog F (st_ret a) (st_ret a)
| cp_err {A} e : client_prog F (A := A) (st_err e) (st_err e)
| cp_lift {A} (m : exec A) : client_prog F (st_lift m) (st_lift m)
| cp_bind {A B} m1 m2 (k1 : A -> stM recorder RdmaError B) k2 :
    client_prog F m1 m2 -> (forall a, client_prog F (k1 a) (k2 a)) ->
    client_prog F (st_bind m1 k1) (st_bind m2 k2)
| cp_read n lkey addr rkey : F (QRead n lkey addr rkey) ->
    client_prog F (m_read n lkey addr rkey) (m_read n lkey addr rkey)
| cp_write buf lkey addr rkey : F (QWrite buf lkey addr rkey) ->
    client_prog F (m_write buf lkey addr rkey) (m_write buf lkey addr rkey)
| cp_cas compare swap lkey addr rkey : F (QCas compare swap lkey addr rkey) ->
    client_prog F (m_cas compare swap lkey addr rkey) (m_cas compare swap lkey addr rkey).

(** Discharges [client_prog] for a concrete program. *)
Ltac client_prog_tac :=
  repeat first
    [ apply cp_ret | apply cp_err | apply cp_lift | apply cp_read | apply cp_write | apply cp_cas
    | apply cp_bind; [|intros ?]
    | match goal with |- client_prog _ (if ?b then _ else _) _ => destruct b end
    | match goal with |- client_prog _ (match ?b with _ => _ end) _ => destruct b end ].

(** A run of the recorder ends with an unanswered request or leaves replies. *)
Lemma client_prog_shape {T} `{Transport T} F {A} (m1 : stM recorder RdmaError A) (m2 : stM T RdmaError A) h :
  client_prog F m1 m2 ->
  match m1 (mkRec h None) with
  | Done (t, r) => (exists q, t = mkRec [] (Some q) /\ r = Err suspended /\ F q) \/ rc_asked t = None
  | Panic => True
  end.
Proof.
  intros Hc. revert h. induction Hc as [A a|A e|A m|A B m1 m2 k1 k2 _ IH _ IHk|n lkey addr rkey HF|buf lkey addr rkey HF|c s lkey addr rkey HF];
    intros h; cbn.
  - by right.
  - by right.
  - unfold st_lift. destruct m; [by right | done].
  - unfold st_bind. specialize (IH h). destruct (m1 (mkRec h None)) as [[t [a|e]]|]; [| |done].
    + destruct IH as [(q & _ & [=] & _)|Ht]. destruct t as [h' asked]. cbn in Ht. subst. apply IHk.
    + destruct IH as [(q & -> & [= ->] & HF)|Ht]; [left; eauto | by right].
  - unfold m_read. cbn. unfold ask. destruct h; cbn; [left; eauto | by right].
  - unfold m_write. cbn. unfold ask. destruct h; cbn; [left; eauto | by right].
  - unfold m_cas. cbn. unfold ask. destruct h; cbn; [left; eauto | by right].
Qed.

Lemma resume_asks {T} `{Transport T} F {A} (m1 : stM recorder RdmaError A) (m2 : stM T RdmaError A) h q :
  client_prog F m1 m2 -> resume m1 h = Asks q ->
  m1 (mkRec h None) = Done (mkRec [] (Some q), Err suspended) /\ F q.
Proof.
  intros Hc. pose proof (client_prog_shape F m1 m2 h Hc) as Hs. unfold resume.
  destruct (m1 (mkRec h None)) as [[t r]|]; [|done].
  destruct Hs as [(q' & -> & -> & HF)|Ht]; cbn; [by intros [= ->] | by rewrite Ht].
Qed.

(** Further replies do not change what the program did with the first ones. *)
Lemma recorder_frame {T} `{Transport T} F {A} (m1 : stM recorder RdmaError A) (m2 : stM T RdmaError A) h h' r rest :
  client_prog F m1 m2 -> m1 (mkRec h None) = Done (mkRec h' None, r) ->
  m1 (mkRec (h ++ rest) None) = Done (mkRec (h' ++ rest) None, r).
Proof.
  intros Hc. revert h h' r. induction Hc as [A a|A e|A m|A B m1 m2 k1 k2 Hc IH _ IHk|n lkey addr rkey HF|buf lkey addr rkey HF|c s lkey addr rkey HF];
    intros h h' r E.
  - by injection E as <- <-.
  - by injection E as <- <-.
  - unfold st_lift in *. destruct m; [|done]. by injection E as <- <-.
  - revert E. unfold st_bind. pose proof (client_prog_shape F m1 m2 h Hc) as Hs.
    destruct (m1 (mkRec h None)) as [[[h1 asked] [a|e]]|] eqn:E1; [| |done]; cbn in Hs.
    + destruct Hs as [(? & _ & [=] & _)| ->]. rewrite (IH _ _ _ E1). apply IHk.
    + intros [= -> -> <-]. by rewrite (IH _ _ _ E1).
  - revert E. unfold m_read. cbn. unfold ask. destruct h; cbn; [done|]. by intros [= -> <-].
  - revert E. unfold m_write. cbn. unfold ask. destruct h; cbn; [done|]. by intros [= -> <-].
  - revert E. unfold m_cas. cbn. unfold ask. destruct h; cbn; [done|]. by intros [= -> <-].
Qed.

(** An error ends the program, which returns it. *)
Lemma resume_failed {T} `{Transport T} F {A} (m1 : stM recorder RdmaError A) (m2 : stM T RdmaError A) h q e :
  client_prog F m1 m2 -> resume m1 h = Asks q -> resume m1 (h ++ [failed q e]) = Returns (Err e).
Proof.
  intros Hc Hq. destruct (resume_asks F m1 m2 h q Hc Hq) as [E _]. clear Hq. unfold resume.
  enough (m1 (mkRec (h ++ [failed q e]) None) = Done (mkRec [] None, Err e)) as -> by done.
  revert h E. induction Hc as [A a|A e'|A m|A B m1 m2 k1 k2 Hc IH _ IHk|n lkey addr rkey HF|buf lkey addr rkey HF|c s lkey addr rkey HF];
    intros h E.
  - done.
  - done.
  - unfold st_lift in E. by destruct m.
  - revert E. unfold st_bind. pose proof (client_prog_shape F m1 m2 h Hc) as Hs.
    destruct (m1 (mkRec h None)) as [[[h1 asked] [a|e']]|] eqn:E1; [| |done]; cbn in Hs.
    + destruct Hs as [(? & _ & [=] & _)| ->]. rewrite (recorder_frame F m1 m2 _ _ _ _ Hc E1). apply IHk.
    + intros [= -> -> ->]. by rewrite (IH _ E1).
  - revert E. unfold m_read. cbn. unfold ask. destruct h; cbn; [|done]. by intros [= <-].
  - revert E. unfold m_write. cbn. unfold ask. destruct h; cbn; [|done]. by intros [= <-].
  - revert E. unfold m_cas. cbn. unfold ask. destruct h; cbn; [|done]. by intros [= <-].
Qed.

(** ** A client alone *)

(** From [M] the program receives the replies [h], one request at a time. *)
Inductive trail {A} (m : stM recorder RdmaError A) (M : rmem) : list reply -> rmem -> Prop :=
| trail_nil : trail m M [] M
| trail_snoc h M1 q : trail m M h M1 -> resume m h = Asks q ->
    trail m M (h ++ [(perform M1 q).2]) (perform M1 q).1.

Lemma trail_bind_l {T} `{Transport T} F {A B} m1 (m2 : stM T RdmaError A) (k : A -> stM recorder RdmaError B) M h M1 :
  client_prog F m1 m2 -> trail m1 M h M1 -> trail (st_bind m1 k) M h M1.
Proof.
  intros Hc Ht. induction Ht as [|h M1 q _ IH Hq]; [constructor|]. apply trail_snoc; [done|].
  apply (resume_asks F m1 m2) in Hq as [E _]; [|done]. unfold resume, st_bind. by rewrite E.
Qed.

Lemma trail_bind_r {A B} m (k : A -> stM recorder RdmaError B) a M h1 M1 h2 M2 :
  (forall rest, m (mkRec (h1 ++ rest) None) = Done (mkRec rest None, Ok a)) ->
  trail (st_bind m k) M h1 M1 -> trail (k a) M1 h2 M2 -> trail (st_bind m k) M (h1 ++ h2) M2.
Proof.
  intros Hm H1 H2. induction H2 as [|h2 M2 q _ IH Hq]; [by rewrite app_nil_r|].
  rewrite app_assoc. apply trail_snoc; [done|]. revert Hq. unfold resume, st_bind. by rewrite Hm.
Qed.

Lemma done_inj {A} (a b : A) : Done a = Done b -> a = b.
Proof. congruence. Qed.

(** A client alone does what the program does on the memory. *)
Lemma client_alone F {A} (m1 : stM recorder RdmaError A) (m2 : stM rmem RdmaError A) M M' r :
  client_prog F m1 m2 -> m2 M = Done (M', r) ->
  exists h, trail m1 M h M' /\ forall rest, m1 (mkRec (h ++ rest) None) = Done (mkRec rest None, r).
Proof.
  intros Hc. revert M M' r. induction Hc as [A a|A e|A m|A B m1 m2 k1 k2 Hc IH _ IHk|n lkey addr rkey HF|buf lkey addr rkey HF|c s lkey addr rkey HF];
    intros M M' r E.
  - injection E as <- <-. exists []. by split; [constructor|].
  - injection E as <- <-. exists []. by split; [constructor|].
  - unfold st_lift in E. destruct m as [a|] eqn:Em; [|done]. injection E as <- <-. exists []. by split; [constructor|].
  - unfold st_bind in E. destruct (m2 M) as [[M1 [a|e]]|] eqn:E1; [| |done].
    + destruct (IH _ _ _ E1) as (h1 & T1 & R1). destruct (IHk a _ _ _ E) as (h2 & T2 & R2).
      exists (h1 ++ h2). split; [eapply trail_bind_r; [done | by apply (trail_bind_l F _ m2) | done]|].
      intros rest. unfold st_bind. by rewrite <- app_assoc, R1, R2.
    + injection E as <- <-. destruct (IH _ _ _ E1) as (h1 & T1 & R1). exists h1.
      split; [by apply (trail_bind_l F _ m2)|]. intros rest. unfold st_bind. by rewrite R1.
  - assert (Hq : perform M (QRead n lkey addr rkey) = (M', ARead r)) by (apply done_inj in E; cbn [perform]; by rewrite E).
    exists [ARead r]. split; [|done].
    pose proof (trail_snoc (m_read n lkey addr rkey) M [] M _ (trail_nil _ _) eq_refl) as T. by rewrite Hq in T.
  - assert (Hq : perform M (QWrite buf lkey addr rkey) = (M', AWrite r)) by (apply done_inj in E; cbn [perform]; by rewrite E).
    exists [AWrite r]. split; [|done].
    pose proof (trail_snoc (m_write buf lkey addr rkey) M [] M _ (trail_nil _ _) eq_refl) as T. by rewrite Hq in T.
  - assert (Hq : perform M (QCas c s lkey addr rkey) = (M', ACas r)) by (apply done_inj in E; cbn [perform]; by rewrite E).
    exists [ACas r]. split; [|done].
    pose proof (trail_snoc (m_cas c s lkey addr rkey) M [] M _ (trail_nil _ _) eq_refl) as T. by rewrite Hq in T.
Qed.

Lemma trail_det {A} (m : stM recorder RdmaError A) M h1 M1 h2 M2 :
  trail m M h1 M1 -> trail m M h2 M2 -> length h1 = length h2 -> h1 = h2 /\ M1 = M2.
Proof.
  intros H1. revert h2 M2. induction H1 as [|h1 M1 q H1 IH Hq]; intros h2 M2 H2 Hl.
  - destruct H2; [done|]. rewrite length_app in Hl. cbn in Hl. lia.
  - destruct H2 as [|h2 M2 q2 H2 Hq2]; rewrite !length_app in Hl; cbn in Hl; [lia|].
    destruct (IH _ _ H2) as [<- <-]; [lia|]. by replace q2 with q by congruence.
Qed.

Lemma trail_take {A} (m : stM recorder RdmaError A) M h M' k :
  trail m M h M' -> (k < length h)%nat -> exists M1 q, trail m M (take k h) M1 /\ resume m (take k h) = Asks q.
Proof.
  intros H. induction H as [|h M1 q H IH Hq]; cbn; [lia|]. rewrite length_app. cbn. intros Hk.
  destruct (decide (k = length h)) as [->|]; [rewrite take_app_length; eauto|].
  rewrite take_app_le by lia. apply IH. lia.
Qed.

(** A program returns at one point only. *)
Lemma trail_returns {A} (m : stM recorder RdmaError A) M h1 M1 h2 M2 r1 r2 :
  trail m M h1 M1 -> trail m M h2 M2 -> resume m h1 = Returns r1 -> resume m h2 = Returns r2 ->
  h1 = h2 /\ M1 = M2 /\ r1 = r2.
Proof.
  assert (Hno : forall h1 M1 h2 M2 r1, trail m M h1 M1 -> trail m M h2 M2 -> resume m h1 = Returns r1 ->
    ~ (length h1 < length h2)%nat).
  { intros a A1 b B1 r Ha Hb Hr Hlt. destruct (trail_take m M b B1 _ Hb Hlt) as (C & q & Hc & Hq).
    destruct (trail_det m M a A1 (take (length a) b) C Ha Hc) as [E _]; [rewrite length_take; lia|].
    rewrite <- E in Hq. congruence. }
  intros H1 H2 E1 E2. pose proof (Hno _ _ _ _ _ H1 H2 E1). pose proof (Hno _ _ _ _ _ H2 H1 E2).
  destruct (trail_det m M h1 M1 h2 M2 H1 H2) as [-> ->]; [lia|]. split_and!; congruence.
Qed.

(** ** Systems of clients *)

Definition system : Type := rmem * gmap nat (list reply).

Section system.
Context {A : Type} (prog : nat -> stM recorder RdmaError A) (faults : bool).

Inductive sys_step : system -> system -> Prop :=
| sys_op M T i h q :
    T !! i = Some h -> resume (prog i) h = Asks q ->
    sys_step (M, T) ((perform M q).1, <[i := h ++ [(perform M q).2]]> T)
(** The client sees a failure; the operation may have taken effect. *)
| sys_fault M T i h q M' e :
    faults = true -> T !! i = Some h -> resume (prog i) h = Asks q -> M' = M \/ M' = (perform M q).1 ->
    sys_step (M, T) (M', <[i := h ++ [failed q e]]> T).

(** The system that follows a schedule of client numbers. *)
Fixpoint schedule (order : list nat) (s : system) : system :=
  match order with
  | [] => s
  | i :: order =>
      match s.2 !! i with
      | Some h =>
          match resume (prog i) h with
          | Asks q => schedule order ((perform s.1 q).1, <[i := h ++ [(perform s.1 q).2]]> s.2)
          | _ => schedule order s
          end
      | None => schedule order s
      end
  end.

Lemma schedule_run order s : rtc sys_step s (schedule order s).
Proof.
  revert s. induction order as [|i order IH]; intros [M T]; cbn [schedule fst snd]; [done|].
  destruct (T !! i) as [h|] eqn:Ei; [|done]. destruct (resume (prog i) h) eqn:Er; [|done..].
  eapply rtc_l; [by eapply sys_op | apply IH].
Qed.

(** *** Completion *)

Definition returned (s : system) (i : nat) : Prop :=
  exists h r, s.2 !! i = Some h /\ resume (prog i) h = Returns r.

(** Clients that never panic and take at most [N] operations can all finish. *)
Context (I : system -> Prop) (N : nat) (I_step : forall s s', I s -> sys_step s s' -> I s')
  (I_bound : forall s i h, I s -> s.2 !! i = Some h -> (length h <= N)%nat /\ resume (prog i) h <> Panics).

Lemma finish_client i s :
  I s -> i ∈ dom s.2 ->
  exists s', rtc sys_step s s' /\ I s' /\ returned s' i /\ forall j, j <> i -> s'.2 !! j = s.2 !! j.
Proof using I_step I_bound.
  intros HI [h Hh]%elem_of_dom. remember (N - length h)%nat as n eqn:Hn. revert s h HI Hh Hn.
  induction n as [n IH] using lt_wf_ind. intros s h HI Hh Hn.
  destruct (resume (prog i) h) as [q|r|] eqn:Er; [| |by destruct (I_bound s i h HI Hh)].
  2: { exists s. split_and!; [done | done | by exists h, r | done]. }
  destruct s as [M T]. cbn [snd] in *. pose proof (sys_op M T i h q Hh Er) as Hs.
  set (s1 := ((perform M q).1, <[i:=h ++ [(perform M q).2]]> T)) in *.
  assert (H1 : s1.2 !! i = Some (h ++ [(perform M q).2])) by apply lookup_insert_eq.
  assert (HI1 : I s1) by (by eapply I_step). destruct (I_bound s1 i _ HI1 H1) as [Hb _].
  rewrite length_app in Hb. cbn in Hb.
  destruct (IH (N - length (h ++ [(perform M q).2]))%nat ltac:(rewrite length_app; cbn; lia) s1 _ HI1 H1 eq_refl)
    as (s' & Hr & HI' & Hret & Hj).
  exists s'. split_and!; [by eapply rtc_l | done | done |]. intros j Hne. rewrite Hj by done. cbn.
  by rewrite lookup_insert_ne.
Qed.

Lemma finish_clients s : I s -> exists s', rtc sys_step s s' /\ I s' /\ forall i, i ∈ dom s.2 -> returned s' i.
Proof using I_step I_bound.
  intros HI. enough (forall X : gset nat, X ⊆ dom s.2 -> exists s', rtc sys_step s s' /\ I s' /\ dom s.2 ⊆ dom s'.2
    /\ forall i, i ∈ X -> returned s' i) as H by (destruct (H (dom s.2)) as (s' & ? & ? & _ & ?); eauto).
  intros X. induction X as [|i X Hi IH] using set_ind_L; intros HX.
  { exists s. split_and!; [done | done | done | set_solver]. }
  destruct IH as (s1 & Hr1 & HI1 & Hd1 & Hret1); [set_solver|].
  destruct (finish_client i s1 HI1) as (s2 & Hr2 & HI2 & Hret2 & Hj); [set_solver|].
  assert (Hold : forall j, j <> i -> returned s1 j -> returned s2 j).
  { intros j Hne (h & r & Hh & Er). exists h, r. by rewrite Hj. }
  exists s2. split_and!; [by etrans | done | |].
  - intros j Hin. destruct (decide (j = i)) as [->|Hne].
    + destruct Hret2 as (h & r & Hh & _). by eapply elem_of_dom_2.
    + apply elem_of_dom. rewrite Hj by done. apply elem_of_dom. set_solver.
  - intros j [->%elem_of_singleton|Hin]%elem_of_union; [done|]. apply Hold; [set_solver | by apply Hret1].
Qed.
End system.

Definition start (clients : gset nat) (M : rmem) : system := (M, gset_to_gmap [] clients).

(** ** Clients apart *)

(** A set of remote bytes: remote key and address. *)
Definition area : Type := Z -> Z -> Prop.

(** The request reads inside [R] and writes inside [W]. *)
Definition within (R W : area) (q : request) : Prop :=
  match q with
  | QRead n _ addr rkey => forall x, addr <= x < addr + n -> R rkey x
  | QWrite buf _ addr rkey => forall x, addr <= x < addr + len buf -> W rkey x
  | QCas _ _ _ addr rkey => forall x, addr <= x < addr + 8 -> W rkey x
  end.

(** Two regions at the same place with the same bytes in [P]. *)
Definition region_agree (P : Z -> Prop) (r r' : option (Z * list Z)) : Prop :=
  match r, r' with
  | Some (b, l), Some (b', l') => b = b' /\ length l = length l' /\ forall k, P (b + Z.of_nat k) -> l !! k = l' !! k
  | None, None => True
  | _, _ => False
  end.

Definition agree (P : area) (M M' : rmem) : Prop := forall rkey, region_agree (P rkey) (M !! rkey) (M' !! rkey).

#[export] Instance agree_equiv P : Equivalence (agree P).
Proof.
  split.
  - intros M rkey. by destruct (M !! rkey) as [[b l]|].
  - intros M M' H rkey. specialize (H rkey). destruct (M !! rkey) as [[b l]|], (M' !! rkey) as [[b' l']|]; [|done..].
    destruct H as (-> & Hl & Hk). split_and!; [done | done |]. intros k HP. symmetry. auto.
  - intros M1 M2 M3 H H' rkey. specialize (H rkey). specialize (H' rkey).
    destruct (M1 !! rkey) as [[b l]|], (M2 !! rkey) as [[b' l']|], (M3 !! rkey) as [[b2 l2]|]; try done.
    destruct H as (-> & Hl & Hk), H' as (-> & Hl' & Hk'). split_and!; [done | congruence |].
    intros k HP. rewrite Hk by done. auto.
Qed.

Lemma agree_insert P M M' rkey b l l' :
  agree P M M' -> region_agree (P rkey) (Some (b, l)) (Some (b, l')) ->
  agree P (<[rkey := (b, l)]> M) (<[rkey := (b, l')]> M').
Proof.
  intros HM Hr k. destruct (decide (k = rkey)) as [->|Hne]; [by rewrite !lookup_insert_eq|].
  rewrite !lookup_insert_ne by done. apply HM.
Qed.

(** Stores inside the region, on both sides or outside [P]. *)
Lemma region_agree_store P b l l' o x :
  0 <= o -> o + len x <= len l ->
  region_agree P (Some (b, l)) (Some (b, l')) -> region_agree P (Some (b, bwrite o x l)) (Some (b, bwrite o x l')).
Proof.
  intros Ho Hx (_ & Hl & Hk). pose proof (len_nonneg x).
  assert (Hl' : len l' = len l) by (unfold len; lia). split_and!; [done | |].
  - apply Nat2Z.inj. fold (len (bwrite o x l)) (len (bwrite o x l')). rewrite !len_bwrite by lia. lia.
  - intros k HP. rewrite !lookup_bwrite by lia. case_decide; [done|]. by apply Hk.
Qed.

Lemma region_agree_apart P b l o x :
  0 <= o -> o + len x <= len l -> (forall y, b + o <= y < b + o + len x -> ~ P y) ->
  region_agree P (Some (b, bwrite o x l)) (Some (b, l)).
Proof.
  intros Ho Hx Hno. split_and!; [done | |].
  - apply Nat2Z.inj. fold (len (bwrite o x l)) (len l). by apply len_bwrite.
  - intros k HP. rewrite lookup_bwrite by lia. case_decide; [|done]. exfalso. apply (Hno (b + Z.of_nat k)); [lia | done].
Qed.

Lemma region_agree_read P b l l' o n :
  0 <= o -> 0 <= n -> (forall y, b + o <= y < b + o + n -> P y) ->
  region_agree P (Some (b, l)) (Some (b, l')) -> bread o n l = bread o n l'.
Proof.
  intros Ho Hn HP (_ & Hl & Hk). apply list_eq. intros i. rewrite !lookup_bread by done. case_decide; [|done].
  apply Hk, HP. lia.
Qed.

(** The reply of a request depends only on what it reads. *)
Lemma perform_agree (R W : area) q M M' :
  (forall k x, W k x -> R k x) -> within R W q -> agree R M M' ->
  (perform M q).2 = (perform M' q).2 /\ agree R (perform M q).1 (perform M' q).1.
Proof.
  intros HW Hq HM. destruct q as [n lkey addr rkey|buf lkey addr rkey|c s lkey addr rkey]; cbn [perform tr_read tr_write tr_cas mem_transport]; unfold mem_access;
    pose proof (HM rkey) as Hr; destruct (M !! rkey) as [[b l]|] eqn:E, (M' !! rkey) as [[b' l']|] eqn:E'; try done;
    destruct Hr as (<- & Hl & Hk); (assert (Hin : forall a n, in_region b l a n <-> in_region b l' a n) by
      (intros; unfold in_region, len; by rewrite Hl)); case_decide as Hd; rewrite Hin in Hd;
    rewrite ?(decide_True _ _ Hd), ?(decide_False _ _ Hd) by done; try done; cbn [fst snd]; destruct Hd as (H1 & H2 & H3).
  - split; [|done]. do 2 f_equal. apply (region_agree_read (R rkey) b); [lia | done | | done].
    intros y Hy. apply Hq. lia.
  - split; [done|]. apply agree_insert; [done|]. apply region_agree_store; [lia | unfold len in *; lia | done].
  - assert (Er : bread (addr - b) 8 l = bread (addr - b) 8 l').
    { apply (region_agree_read (R rkey) b); [lia | done | | done]. intros y Hy. apply HW, Hq. lia. }
    rewrite Er. destruct (_ =? c); cbn [fst snd]; [|done]. split; [done|]. apply agree_insert; [done|].
    apply region_agree_store; [lia | rewrite len_to_le; unfold len in *; lia | done].
Qed.

(** A request changes only what it may write. *)
Lemma perform_apart (R W P : area) q M :
  within R W q -> (forall k x, W k x -> ~ P k x) -> agree P (perform M q).1 M.
Proof.
  intros Hq HP. destruct q as [n lkey addr rkey|buf lkey addr rkey|c s lkey addr rkey]; cbn [perform tr_read tr_write tr_cas mem_transport]; unfold mem_access;
    destruct (M !! rkey) as [[b l]|] eqn:E; try reflexivity; case_decide as Hd; try reflexivity; cbn [fst snd];
    destruct Hd as (H1 & H2 & H3).
  - rewrite <- (insert_id M rkey (b, l) E) at 2. apply agree_insert; [reflexivity|].
    apply region_agree_apart; [lia | lia |]. intros y Hy. apply HP, Hq. lia.
  - destruct (_ =? c); cbn [fst snd]; [|reflexivity]. rewrite <- (insert_id M rkey (b, l) E) at 2.
    apply agree_insert; [reflexivity|].
    apply region_agree_apart; [lia | rewrite len_to_le; lia |]. intros y Hy. apply HP, Hq. rewrite len_to_le in Hy. lia.
Qed.

Section apart.
Context {A : Type} (prog : nat -> stM recorder RdmaError A) (alone : nat -> stM rmem RdmaError A)
  (clients : gset nat) (R W : nat -> area) (M0 : rmem).

(** The programs stay in their areas, and nobody writes what another one reads. *)
Record apart : Prop := {
  ap_prog : forall i, i ∈ clients -> client_prog (within (R i) (W i)) (prog i) (alone i);
  ap_sub : forall i k x, i ∈ clients -> W i k x -> R i k x;
  ap_disj : forall i j k x, i ∈ clients -> j ∈ clients -> i <> j -> W i k x -> ~ R j k x
}.

Record apart_inv (s : system) : Prop := {
  ai_dom : dom s.2 = clients;
  ai_trail : forall i h, s.2 !! i = Some h -> exists Mi, trail (prog i) M0 h Mi /\ agree (R i) s.1 Mi;
  ai_rest : forall P : area, (forall i k x, i ∈ clients -> W i k x -> ~ P k x) -> agree P s.1 M0
}.

Lemma apart_step s s' : apart -> sys_step prog false s s' -> apart_inv s -> apart_inv s'.
Proof.
  intros Hap Hs Hi. destruct Hs as [M T i h q Hh Hq|]; [|done]. destruct Hi as [HT Htr Hrest]. cbn [fst snd] in *.
  assert (Hin : i ∈ clients) by (rewrite <- HT; by eapply elem_of_dom_2).
  destruct (resume_asks _ _ _ _ _ (ap_prog Hap i Hin) Hq) as [_ Hw]. constructor; cbn [fst snd].
  - rewrite dom_insert_L. set_solver.
  - intros j g [[<- <-]|[Hne Hj]]%lookup_insert_Some.
    + destruct (Htr i h Hh) as (Mi & Ht & Ha). exists (perform Mi q).1.
      destruct (perform_agree (R i) (W i) q M Mi) as [E Ha']; [by eauto using ap_sub | done | done |].
      rewrite E. by split; [constructor|].
    + destruct (Htr j g Hj) as (Mj & Ht & Ha). exists Mj. split; [done|].
      assert (j ∈ clients) by (rewrite <- HT; by eapply elem_of_dom_2).
      transitivity M; [|done]. apply (perform_apart (R i) (W i)); [done|]. intros k x. by eapply (ap_disj Hap).
  - intros P HP. transitivity M; [|by apply Hrest]. apply (perform_apart (R i) (W i)); [done|]. by eauto.
Qed.

Lemma apart_reachable s : apart -> rtc (sys_step prog false) (start clients M0) s -> apart_inv s.
Proof.
  intros Hap Hr. assert (H0 : apart_inv (start clients M0)).
  { constructor; cbn.
    - apply dom_gset_to_gmap.
    - intros i h [_ <-]%lookup_gset_to_gmap_Some. exists M0. by split; [constructor|].
    - reflexivity. }
  revert H0. induction Hr as [|s1 s2 s3 Hs _ IH]; [done|]. intros H0. by eapply IH, apart_step.
Qed.

(** A client that returned has the result of its program run alone, and what it
    can read is as that run left it. *)
Lemma apart_returns s i h r Mi r' :
  apart -> rtc (sys_step prog false) (start clients M0) s -> s.2 !! i = Some h -> resume (prog i) h = Returns r ->
  alone i M0 = Done (Mi, r') -> r = r' /\ agree (R i) s.1 Mi.
Proof.
  intros Hap Hr Hh Hret Ha. destruct (apart_reachable s Hap Hr) as [HT Htr _].
  assert (Hin : i ∈ clients) by (rewrite <- HT; by eapply elem_of_dom_2).
  destruct (Htr i h Hh) as (M1 & Ht & Hag).
  destruct (client_alone _ _ _ _ _ _ (ap_prog Hap i Hin) Ha) as (h' & Ht' & Hrun).
  destruct (trail_returns (prog i) M0 h M1 h' Mi r r') as (_ & -> & ->); [done | done | done | |done].
  unfold resume. specialize (Hrun []). rewrite app_nil_r in Hrun. by rewrite Hrun.
Qed.

(** Every complete interleaving ends in the same state. *)
Lemma apart_confluent s1 s2 :
  apart -> rtc (sys_step prog false) (start clients M0) s1 -> rtc (sys_step prog false) (start clients M0) s2 ->
  (forall i, i ∈ clients -> returned prog s1 i) -> (forall i, i ∈ clients -> returned prog s2 i) -> s1 = s2.
Proof.
  intros Hap Hr1 Hr2 Hc1 Hc2. destruct (apart_reachable s1 Hap Hr1) as [HT1 Ht1 Hp1].
  destruct (apart_reachable s2 Hap Hr2) as [HT2 Ht2 Hp2].
  assert (Hcl : forall i, i ∈ clients -> s1.2 !! i = s2.2 !! i /\ agree (R i) s1.1 s2.1).
  { intros i Hi. destruct (Hc1 i Hi) as (h1 & r1 & E1 & R1). destruct (Hc2 i Hi) as (h2 & r2 & E2 & R2).
    destruct (Ht1 i h1 E1) as (A1 & T1 & G1). destruct (Ht2 i h2 E2) as (A2 & T2 & G2).
    destruct (trail_returns (prog i) M0 h1 A1 h2 A2 r1 r2) as (-> & -> & _); [done..|].
    split; [congruence|]. transitivity A2; [done | by symmetry]. }
  assert (Hrest : agree (fun k x => forall i, i ∈ clients -> ~ W i k x) s1.1 s2.1).
  { transitivity M0; [|symmetry]; [apply Hp1 | apply Hp2]; intros i k x Hi Hw Hno; by eapply Hno. }
  destruct s1 as [M1 T1], s2 as [M2 T2]. cbn [fst snd] in *. f_equal; apply map_eq; intros k.
  - specialize (Hrest k). assert (Hk := fun i Hi => proj2 (Hcl i Hi) k).
    destruct (M1 !! k) as [[b1 l1]|], (M2 !! k) as [[b2 l2]|]; try done. destruct Hrest as (-> & _ & Hl).
    do 2 f_equal. apply list_eq. intros x. destruct (decide (l1 !! x = l2 !! x)) as [|Hne]; [done|].
    apply Hl. intros i Hi Hw. apply Hne. destruct (Hk i Hi) as (_ & _ & He). by eapply He, ap_sub.
  - destruct (decide (k ∈ clients)) as [Hk|Hk]; [by apply Hcl|].
    rewrite (not_elem_of_dom_1 T1), (not_elem_of_dom_1 T2); congruence.
Qed.

(** Running the clients one after the other. *)
Fixpoint in_turn (l : list nat) (M : rmem) : exec (rmem * list (result A RdmaError)) :=
  match l with
  | [] => Done (M, [])
  | i :: l =>
      match alone i M with
      | Done (M1, r) => match in_turn l M1 with Done (M2, rs) => Done (M2, r :: rs) | Panic => Panic end
      | Panic => Panic
      end
  end.

Lemma trail_run i M h M' (T : gmap nat (list reply)) :
  trail (prog i) M h M' -> T !! i = Some [] -> rtc (sys_step prog false) (M, T) (M', <[i := h]> T).
Proof.
  intros Ht Hi. induction Ht as [|h M1 q _ IH Hq]; [by rewrite insert_id|].
  eapply rtc_r; [exact IH|]. pose proof (sys_op prog false M1 (<[i := h]> T) i h q) as Hs.
  rewrite insert_insert_eq in Hs. apply Hs; [apply lookup_insert_eq | done].
Qed.

Lemma in_turn_run l M (T : gmap nat (list reply)) M' rs :
  apart -> NoDup l -> (forall i, i ∈ l -> i ∈ clients /\ T !! i = Some []) -> in_turn l M = Done (M', rs) ->
  exists T', rtc (sys_step prog false) (M, T) (M', T') /\ length rs = length l
    /\ (forall i, i ∉ l -> T' !! i = T !! i)
    /\ (forall k i r, l !! k = Some i -> rs !! k = Some r -> exists h, T' !! i = Some h /\ resume (prog i) h = Returns r).
Proof.
  intros Hap Hnd. revert M T rs. induction Hnd as [|i l Hni Hnd IH]; intros M T rs HT E; cbn in E.
  { injection E as <- <-. exists T. split_and!; [done | done | done |]. intros k i r H. by rewrite lookup_nil in H. }
  destruct (alone i M) as [[M1 r]|] eqn:Ea; [|done]. destruct (in_turn l M1) as [[M2 rs']|] eqn:El; [|done].
  injection E as <- <-. destruct (HT i) as [Hi HTi]; [by left|].
  destruct (client_alone _ _ _ _ _ _ (ap_prog Hap i Hi) Ea) as (h & Ht & Hrun).
  destruct (IH M1 (<[i := h]> T) rs') as (T' & Hr & Hl & Hno & Hyes); [|done|].
  { intros j Hj. destruct (HT j) as [Hj1 Hj2]; [by right|]. split; [done|]. rewrite lookup_insert_ne; [done | by intros ->]. }
  exists T'. split_and!.
  - etrans; [by eapply trail_run | done].
  - cbn. congruence.
  - intros j Hj. rewrite not_elem_of_cons in Hj. destruct Hj as [Hne Hj]. rewrite Hno by done. by rewrite lookup_insert_ne.
  - intros [|k] j r0 Hj Hr0; cbn in Hj, Hr0; [|by eapply Hyes]. injection Hj as <-. injection Hr0 as <-.
    exists h. split; [rewrite Hno by done; apply lookup_insert_eq|]. unfold resume.
    specialize (Hrun []). rewrite app_nil_r in Hrun. by rewrite Hrun.
Qed.

(** A complete interleaving ends as the clients one after the other do, in any
    order. *)
Lemma apart_in_turn s l M' rs :
  apart -> l ≡ₚ elements clients -> in_turn l M0 = Done (M', rs) ->
  rtc (sys_step prog false) (start clients M0) s -> (forall i, i ∈ clients -> returned prog s i) ->
  s.1 = M' /\ length rs = length l
  /\ forall k i r, l !! k = Some i -> rs !! k = Some r -> exists h, s.2 !! i = Some h /\ resume (prog i) h = Returns r.
Proof.
  intros Hap Hl E Hr Hc. assert (Hin : forall i, i ∈ l <-> i ∈ clients) by (intros i; rewrite Hl; apply elem_of_elements).
  destruct (in_turn_run l M0 (start clients M0).2 M' rs Hap) as (T' & Hr' & Hlen & _ & Hyes).
  { rewrite Hl. apply NoDup_elements. }
  { intros i Hi. rewrite Hin in Hi. split; [done|]. cbn. by apply lookup_gset_to_gmap_Some. }
  { done. }
  assert (s = (M', T')) as ->; [|by split_and!].
  apply apart_confluent; [done | done | done | done |]. intros i Hi. rewrite <- Hin in Hi.
  apply list_elem_of_lookup in Hi as [k Hk]. destruct (lookup_lt_is_Some_2 rs k) as [r Hrk];
    [rewrite Hlen; by eapply lookup_lt_Some|]. destruct (Hyes k i r Hk Hrk) as (h & Hh & Er). by exists h, r.
Qed.
End apart.
