(* ===== verification/Remote.v ===== *)
(** * Remote: the client paths over a transport
    (src/client/read.rs, src/client/write.rs, src/engine/extent.rs)

    [get_remote], [insert_remote] and the CAS bump allocator, as sequences of
    transport operations.  [xxh64] is the checksum of the xxhash crate;
    [aligned] says whether the heap buffer that receives a bucket is 64-byte
    aligned, which [bytemuck::from_bytes] checks: it is a [Vec<u8>], so nothing
    makes it so. *)

From S2P Require Import Prelude Layout Extent ExtentSpec Errors Client Transport.

Open Scope Z_scope.
Local Open Scope rdmas_scope.

Section remote.
Context {T : Type} `{Transport T}.

(** [bytemuck::from_bytes::<HashBucket>(&buf)] panics on a misaligned buffer. *)
Definition bucket_from_bytes (aligned : bool) (buf : list Z) : exec HashBucket :=
  _ ← exec_assert (aligned && (len buf =? 64));
  Done (bucket_of_bytes buf).

(** ** Reads *)

(** [vec![0u8; length as usize]]: the length comes from the remote bucket, and a
    capacity above [isize::MAX] panics. *)
Definition extract_value (bucket : HashBucket) (large_obj_vaddr large_obj_rkey lkey : Z)
  : stM T RdmaError ReadResult :=
  if is_inline bucket then st_ret (mkReadResult (inline_value bucket) Inline)
  else
    let '(offset, length) := extent_ref bucket in
    st_lift (exec_assert (length <=? MAX_ALLOC)) ;;!
    let! buf := m_read length lkey (u64 (large_obj_vaddr + offset)) large_obj_rkey in
    st_ret (mkReadResult buf Extent).

Definition get_remote (aligned : bool) (key : HashedKey) (hash_table_vaddr hash_table_rkey
    large_obj_vaddr large_obj_rkey bucket_count lkey : Z) : stM T RdmaError (option ReadResult) :=
  if hk_hash key =? 0 then st_err RInvalidKey
  else if negb (is_power_of_two bucket_count) then
    st_err (Internal ("bucket_count must be a power of 2, got " +:+ pretty bucket_count))
  else
    let h1 := hk_hash key mod bucket_count in
    let h2 := Z.lor (Z.shiftr (hk_hash key) 32 mod bucket_count) 1 in
    let bucket_size := 64 in
    let! buf := m_read bucket_size lkey (u64 (hash_table_vaddr + u64 (h1 * bucket_size))) hash_table_rkey in
    let! bucket := st_lift (bucket_from_bytes aligned buf) in
    if negb (is_locked bucket) && matches_key bucket (hk_hash key) (hk_digest key) then
      let! v := extract_value bucket large_obj_vaddr large_obj_rkey lkey in
      st_ret (Some v)
    else
      let! buf := m_read bucket_size lkey (u64 (hash_table_vaddr + u64 (h2 * bucket_size))) hash_table_rkey in
      let! bucket := st_lift (bucket_from_bytes aligned buf) in
      if negb (is_locked bucket) && matches_key bucket (hk_hash key) (hk_digest key) then
        let! v := extract_value bucket large_obj_vaddr large_obj_rkey lkey in
        st_ret (Some v)
      else st_ret None.

(** ** The CAS bump allocator *)

Definition remote_header (data : list Z) : ExtentHeaderV2 :=
  mkExtentHeaderV2 EXTENT_MAGIC 1 (zeros 3) (u32 (len data)) (zeros 4) 0 0.

Record DistributedExtentAllocator : Type := mkDistAlloc {
  da_free_list_vaddr : Z;
  da_free_list_rkey : Z;
  da_local_lkey : Z;
  da_local_free_offsets : list Z
}.

Definition DistributedExtentAllocator_new (free_list_vaddr free_list_rkey local_lkey : Z)
  : DistributedExtentAllocator := mkDistAlloc free_list_vaddr free_list_rkey local_lkey [].

(** Reserve space by CAS, write the header with checksum 0, the payload, then
    the checksum. *)
Definition allocate_remote (xxh64 : list Z -> Z) (a : DistributedExtentAllocator) (data : list Z)
  : stM T RdmaError Z :=
  let total := extent_total (len data) in
  let! old_buf := m_read 8 (da_local_lkey a) (da_free_list_vaddr a) (da_free_list_rkey a) in
  let old_offset := from_le old_buf in
  let new_offset := u64 (old_offset + total) in
  let! cas_ok := m_cas old_offset new_offset (da_local_lkey a) (da_free_list_vaddr a)
                   (da_free_list_rkey a) in
  if negb cas_ok then st_err CasFailed
  else
    let extent_addr := u64 (da_free_list_vaddr a + old_offset) in
    m_write (bytes_of_header_v2 (remote_header data)) (da_local_lkey a) extent_addr
      (da_free_list_rkey a) ;;!
    m_write data (da_local_lkey a) (u64 (extent_addr + HEADER_SIZE)) (da_free_list_rkey a) ;;!
    m_write (to_le 8 (xxh64 data)) (da_local_lkey a) (u64 (extent_addr + 24)) (da_free_list_rkey a) ;;!
    st_ret old_offset.

(** ** Writes *)

(** In Extent mode the source writes out the statements of [allocate_remote]
    in place, with the same keys; here it is a call. *)
Definition try_insert_remote_at (xxh64 : list Z -> Z) (aligned : bool) (key : HashedKey)
    (value : list Z) (mode : BucketMode) (remote_addr remote_rkey free_list_vaddr free_list_rkey
    lkey bucket_size : Z) : stM T RdmaError bool :=
  let! bucket_buf := m_read bucket_size lkey remote_addr remote_rkey in
  let! bucket := st_lift (bucket_from_bytes aligned bucket_buf) in
  if is_locked bucket then st_ret false
  else if is_empty bucket || is_tombstone bucket then
    let new_bucket := mkBucket (shl64 (mode_u64 mode) 2) (hk_hash key) (hk_digest key) (zeros 32) in
    let! new_bucket := (match mode with
      | Inline => st_ret (set_inline_value new_bucket (inline_bytes value))
      | Extent =>
          let! old_offset := allocate_remote xxh64
            (mkDistAlloc free_list_vaddr free_list_rkey lkey []) value in
          st_ret (set_extent_ref new_bucket old_offset (len value))
      end) in
    let old_lv := lock_version bucket in
    let! cas_ok := m_cas old_lv (lock_version new_bucket) lkey remote_addr remote_rkey in
    if (cas_ok : bool) then
      m_write (bytes_of_bucket new_bucket) lkey remote_addr remote_rkey ;;!
      st_ret true
    else st_ret false
  else st_ret false.

Definition insert_remote (xxh64 : list Z -> Z) (aligned : bool) (key : HashedKey) (value : list Z)
    (mode : BucketMode) (hash_table_vaddr hash_table_rkey free_list_vaddr free_list_rkey
    bucket_count lkey : Z) : stM T RdmaError WriteResult :=
  st_lift (exec_assert (negb (bucket_count =? 0))) ;;!
  let h1 := hk_hash key mod bucket_count in
  let h2 := Z.lor (Z.shiftr (hk_hash key) 32 mod bucket_count) 1 in
  let bucket_size := 64 in
  let addr_h1 := u64 (hash_table_vaddr + u64 (h1 * bucket_size)) in
  let addr_h2 := u64 (hash_table_vaddr + u64 (h2 * bucket_size)) in
  let! ok := try_insert_remote_at xxh64 aligned key value mode addr_h1 hash_table_rkey
               free_list_vaddr free_list_rkey lkey bucket_size in
  if (ok : bool) then st_ret (Inserted h1)
  else
    let! ok := try_insert_remote_at xxh64 aligned key value mode addr_h2 hash_table_rkey
                 free_list_vaddr free_list_rkey lkey bucket_size in
    if (ok : bool) then st_ret (Inserted h2) else st_ret WTableFull.
End remote.
