(* ===== verification/RemoteProps.v ===== *)
(** * RemoteProps: the remote paths over a healthy transport

    With the table's bytes registered as a remote region, [get_remote] reads the
    table's map and [insert_remote] is [insert_lock_free] on it; the bump
    allocator stores an extent that the region decoder reads. *)

From S2P Require Import Prelude Layout Cuckoo CuckooSpec CuckooProps Extent ExtentSpec ExtentProps Errors Client ClientProps Transport Remote.

Open Scope Z_scope.

(** ** The bytes of a table *)

Definition table_bytes (bs : list HashBucket) : list Z := mjoin (bytes_of_bucket <$> bs).

Section image.
Implicit Types (bs : list HashBucket) (b : HashBucket).

Lemma bucket_bytes_len b : bucket_wf b -> len (bytes_of_bucket b) = 64.
Proof. intros []. by apply len_bytes_of_bucket. Qed.

Lemma table_bytes_cons b bs : table_bytes (b :: bs) = bytes_of_bucket b ++ table_bytes bs.
Proof. reflexivity. Qed.

Lemma len_table_bytes bs : Forall bucket_wf bs -> len (table_bytes bs) = 64 * len bs.
Proof.
  induction 1 as [|b bs Hb Hbs IH]; [done|].
  rewrite table_bytes_cons, len_app, bucket_bytes_len, IH by done. unfold len. cbn [length]. lia.
Qed.

(** Splitting the image at a bucket. *)
Lemma table_bytes_split bs i b :
  Forall bucket_wf bs -> bs !! i = Some b ->
  exists pre post, table_bytes bs = pre ++ bytes_of_bucket b ++ post /\ len pre = 64 * Z.of_nat i
    /\ (forall b', table_bytes (<[i := b']> bs) = pre ++ bytes_of_bucket b' ++ post).
Proof.
  intros Hbs Hi. exists (table_bytes (take i bs)), (table_bytes (drop (S i) bs)).
  assert (Happ : forall l k, table_bytes (l ++ k) = table_bytes l ++ table_bytes k).
  { intros l k. unfold table_bytes. rewrite fmap_app. apply join_app. }
  assert (Hlt := lookup_lt_Some _ _ _ Hi). split_and!.
  - rewrite <- (take_drop_middle bs i b Hi) at 1. by rewrite Happ, table_bytes_cons.
  - rewrite len_table_bytes by (by apply Forall_take). unfold len. rewrite length_take. lia.
  - intros b'. rewrite insert_take_drop by done. by rewrite Happ, table_bytes_cons.
Qed.

Lemma bread_middle pre x post o n : o = len pre -> n = len x -> bread o n (pre ++ x ++ post) = x.
Proof.
  intros -> ->. rewrite bread_app_r by lia. rewrite Z.sub_diag.
  pose proof (len_nonneg x). rewrite bread_app_l by lia. by apply bread_all.
Qed.

Lemma bwrite_middle pre x y post o : o = len pre -> len y = len x -> bwrite o y (pre ++ x ++ post) = pre ++ y ++ post.
Proof.
  intros -> Hl. unfold bwrite, len in *. rewrite Nat2Z.id.
  rewrite take_app_length by done. f_equal. f_equal.
  rewrite drop_app_ge by lia. rewrite drop_app_ge by lia.
  replace (length pre + length y - length pre - length x)%nat with 0%nat by lia. done.
Qed.

Lemma table_bytes_read bs i b :
  Forall bucket_wf bs -> bs !! i = Some b -> bread (Z.of_nat i * 64) 64 (table_bytes bs) = bytes_of_bucket b.
Proof.
  intros Hbs Hi. destruct (table_bytes_split bs i b Hbs Hi) as (pre & post & -> & Hp & _).
  apply bread_middle; [lia|]. symmetry. apply bucket_bytes_len. by eapply Forall_lookup_1.
Qed.

Lemma table_bytes_write bs i b b' :
  Forall bucket_wf bs -> bs !! i = Some b -> bucket_wf b' ->
  bwrite (Z.of_nat i * 64) (bytes_of_bucket b') (table_bytes bs) = table_bytes (<[i := b']> bs).
Proof.
  intros Hbs Hi Hb'. destruct (table_bytes_split bs i b Hbs Hi) as (pre & post & -> & Hp & ->).
  apply bwrite_middle; [lia|]. rewrite !bucket_bytes_len; [done | by eapply Forall_lookup_1 | done].
Qed.

(** The first word of a bucket's image is its lock word. *)
Lemma table_bytes_lock bs i b lv :
  Forall bucket_wf bs -> bs !! i = Some b ->
  from_le (bread (Z.of_nat i * 64) 8 (table_bytes bs)) = lock_version b
  /\ bwrite (Z.of_nat i * 64) (to_le 8 lv) (table_bytes bs) = table_bytes (<[i := set_lock_version b lv]> bs).
Proof.
  intros Hbs Hi. destruct (table_bytes_split bs i b Hbs Hi) as (pre & post & -> & Hp & Hw).
  pose proof (Forall_lookup_1 _ _ _ _ Hbs Hi) as Hb. rewrite Hw.
  unfold bytes_of_bucket. rewrite <- !app_assoc. split.
  - rewrite bread_middle by (rewrite ?len_to_le; lia). apply from_le_to_le_8, Hb.
  - apply bwrite_middle; [lia | by rewrite !len_to_le].
Qed.
End image.

(** ** Reading a table through a transport *)

Section remote.
Context {T : Type} `{RemoteMemory T}.
Implicit Types (t : CuckooTable) (tr : T) (M : rmem).

(** The bytes of [t] are registered under [rkey] at [va]. *)
Definition served (M : rmem) (rkey va : Z) (t : CuckooTable) : Prop :=
  M !! rkey = Some (va, table_bytes (buckets t)) /\ 0 <= va /\ va + 64 * bucket_count t < 2 ^ 64
  /\ is_u32 rkey.

Lemma served_addr M rkey va t i n :
  table_wf t -> served M rkey va t -> 0 <= i < len (buckets t) -> 0 <= n <= 64 ->
  u64 (va + u64 (i * 64)) = va + i * 64
  /\ access_ok va (table_bytes (buckets t)) rkey (va + i * 64) n.
Proof.
  intros Hwf (_ & Hva & Hend & Hrk) Hi Hn. pose proof (twf_len _ Hwf) as Hl.
  rewrite (u64_small (i * 64)) by (unfold is_u64; lia). rewrite u64_small by (unfold is_u64; lia).
  split; [done|]. unfold access_ok, in_region, is_u64, is_u32. rewrite len_table_bytes by apply Hwf.
  unfold is_u32 in Hrk. lia.
Qed.

Lemma read_slot M rkey va t tr lkey i :
  rm_repr M tr -> table_wf t -> served M rkey va t -> 0 <= i < len (buckets t) ->
  exists b, vec_get (buckets t) i = Done b /\ buckets t !! Z.to_nat i = Some b /\ bucket_wf b
    /\ (exists tr', m_read 64 lkey (u64 (va + u64 (i * 64))) rkey tr = Done (tr', Ok (bytes_of_bucket b))
          /\ rm_repr M tr')
    /\ bucket_from_bytes true (bytes_of_bucket b) = Done b.
Proof.
  intros Hr Hwf Hs Hi. destruct (bucket_at t i Hwf Hi) as (b & Hg & Hb & Hbw).
  exists b. split_and!; [done | done | done | |].
  - destruct (served_addr M rkey va t i 64 Hwf Hs Hi) as [-> Hin]; [lia|].
    destruct (rm_read_ok M tr rkey va (table_bytes (buckets t)) 64 lkey _ Hr (proj1 Hs) Hin) as (tr' & E & Hr').
    exists tr'. split; [|done]. unfold m_read. rewrite E.
    replace (va + i * 64 - va) with (Z.of_nat (Z.to_nat i) * 64) by lia.
    by rewrite (table_bytes_read _ _ b) by (done || apply Hwf).
  - unfold bucket_from_bytes. rewrite bucket_bytes_len by done. cbn [andb]. change (64 =? 64) with true. cbn [exec_assert]. rewrite exec_bind_done.
    by rewrite bucket_bytes_roundtrip_lemma.
Qed.

(** The value of a matched bucket: Inline bodies directly, Extent references by
    one more read at the referenced offset, after a panic if the length is more
    than can be allocated. *)
Definition remote_view (tr : T) (lva lrk lkey : Z) (v : cval)
  : exec (T * result (option ReadResult) RdmaError) :=
  match v.2 with
  | Inline => Done (tr, Ok (Some (mkReadResult v.1 Inline)))
  | Extent =>
      if from_le (bread 8 8 v.1) <=? MAX_ALLOC then
        match tr_read tr (from_le (bread 8 8 v.1)) lkey (u64 (lva + from_le (bread 0 8 v.1))) lrk with
        | (tr', Ok buf) => Done (tr', Ok (Some (mkReadResult buf Extent)))
        | (tr', Err e) => Done (tr', Err e)
        end
      else Panic
  end.

Lemma extract_value_view tr b lva lrk lkey :
  st_bind (extract_value b lva lrk lkey) (fun v => st_ret (Some v)) tr
  = remote_view tr lva lrk lkey (body b, bucket_mode b).
Proof.
  unfold extract_value, remote_view, bucket_mode, extent_ref, st_bind, m_read.
  rewrite is_inline_negb. destruct (is_extent b); [|done]. cbn -[MAX_ALLOC].
  destruct (_ <=? MAX_ALLOC); [|done]. cbn. by destruct (tr_read _ _ _ _ _) as [tr' [buf|e]].
Qed.

Lemma get_remote_spec M rkey va t tr key lva lrk lkey :
  rm_repr M tr -> table_wf t -> served M rkey va t -> hk_hash key <> 0 -> quiescent t ->
  exists tr', rm_repr M tr' /\
  get_remote true key va rkey lva lrk (bucket_count t) lkey tr
  = match table_map t !! key_of key with
    | None => Done (tr', Ok None)
    | Some v => remote_view tr' lva lrk lkey v
    end.
Proof.
  intros Hr Hwf Hs Hn Hq. destruct (two_slots t key Hwf Hn) as (b1 & b2 & Hg1 & Hg2 & M1 & M2 & M3).
  destruct (read_slot M rkey va t tr lkey _ Hr Hwf Hs (h1_range t (hk_hash key) Hwf))
    as (b & Hg & Hb1 & _ & (tr1 & Hread1 & Hr1) & Hfb1). assert (b = b1) as -> by congruence.
  destruct (read_slot M rkey va t tr1 lkey _ Hr1 Hwf Hs (h2_range t (hk_hash key) Hwf))
    as (b & Hg' & Hb2 & _ & (tr2 & Hread2 & Hr2) & Hfb2). assert (b = b2) as -> by congruence.
  destruct (quiescent_match _ _ _ (hk_hash key) (hk_digest key) Hq Hb1) as [L1 E1].
  destruct (quiescent_match _ _ _ (hk_hash key) (hk_digest key) Hq Hb2) as [L2 E2].
  unfold get_remote. rewrite (proj2 (Z.eqb_neq _ 0)), (twf_pow2 _ Hwf) by done. cbn [negb].
  fold (h1 t (hk_hash key)) (h2 t (hk_hash key)). cbv zeta.
  unfold st_bind at 1. rewrite Hread1. unfold st_bind at 1. unfold st_lift at 1. rewrite Hfb1, L1, E1.
  cbn [negb andb]. destruct (live_match b1 _ _) eqn:F1.
  { exists tr1. split; [done|]. rewrite M1 by done. apply extract_value_view. }
  exists tr2. split; [done|].
  unfold st_bind at 1. rewrite Hread2. unfold st_bind at 1. unfold st_lift at 1. rewrite Hfb2, L2, E2.
  cbn [negb andb]. destruct (live_match b2 _ _) eqn:F2.
  { rewrite M2 by done. apply extract_value_view. }
  by rewrite M3.
Qed.

(** ** Inserting through a transport *)

Lemma served_after M rkey va t bs t' :
  served M rkey va t -> buckets t' = bs -> bucket_count t' = bucket_count t ->
  served (<[rkey := (va, table_bytes bs)]> M) rkey va t'.
Proof. intros (_ & H1 & H2) <- Hc. split; [by rewrite lookup_insert_eq | by rewrite Hc]. Qed.

Lemma try_insert_remote_inline xxh64 M rkey va t tr key v i fva frk lkey :
  rm_repr M tr -> table_wf t -> served M rkey va t -> key_wf key -> hk_hash key <> 0 ->
  Forall is_u8 v -> 0 <= i < len (buckets t) ->
  exists t' ok, try_cas_insert t key v Inline i = Done (t', ok)
    /\ exists tr', try_insert_remote_at xxh64 true key v Inline (u64 (va + u64 (i * 64))) rkey fva frk
                     lkey 64 tr = Done (tr', Ok ok)
    /\ exists M', rm_repr M' tr' /\ served M' rkey va t' /\ (forall k, k <> rkey -> M' !! k = M !! k)
    /\ (ok = false -> M' = M /\ t' = t).
Proof.
  intros Hr0 Hwf Hs Hk Hn Hv Hi.
  destruct (read_slot M rkey va t tr lkey i Hr0 Hwf Hs Hi) as (b & Hg & Hb & Hbw & (tr0 & Hread & Hr) & Hfb).
  unfold try_cas_insert, try_insert_remote_at. rewrite Hg, exec_bind_done.
  unfold st_bind at 1. rewrite Hread. unfold st_bind at 1. unfold st_lift. rewrite Hfb.
  destruct (is_locked b); [exists t, false; split; [done|]; exists tr0; split; [done|]; exists M; naive_solver|].
  destruct (is_empty b || is_tombstone b);
    [|exists t, false; split; [done|]; exists tr0; split; [done|]; exists M; naive_solver].
  rewrite vec_set_Done, exec_bind_done by done. do 2 eexists. split; [reflexivity|].
  rewrite write_bucket_raw_slot. cbn [raw_body].
  set (nb := slot_bucket (hk_hash key) (hk_digest key) (pack_body v Inline) Inline).
  assert (Hnb : bucket_wf nb) by (apply slot_bucket_wf, key_entry_wf; [done | done | by apply pack_body_bytes]).
  destruct (served_addr M rkey va t i 64 Hwf Hs Hi) as [Ea Hin64]; [lia|].
  destruct (served_addr M rkey va t i 8 Hwf Hs Hi) as [_ Hin8]; [lia|]. rewrite Ea.
  assert (Eo : va + i * 64 - va = Z.of_nat (Z.to_nat i) * 64) by lia.
  assert (Hbs : Forall bucket_wf (buckets t)) by apply Hwf.
  destruct (table_bytes_lock (buckets t) (Z.to_nat i) b (lock_version nb) Hbs Hb) as [Hlock Hwlock].
  pose proof (rm_cas_ok M tr0 rkey va (table_bytes (buckets t)) (lock_version b) (lock_version nb) lkey
    (va + i * 64) Hr (proj1 Hs) Hin8 (bwf_lock _ Hbw) (bwf_lock _ Hnb)) as Hcas.
  cbv zeta in Hcas. rewrite Eo, Hlock, Z.eqb_refl, Hwlock in Hcas.
  destruct Hcas as (tr1 & Hcas & Hr1).
  set (bs1 := <[Z.to_nat i := set_lock_version b (lock_version nb)]> (buckets t)) in *.
  assert (Hb1 : bs1 !! Z.to_nat i = Some (set_lock_version b (lock_version nb)))
    by (apply list_lookup_insert_eq; by eapply lookup_lt_Some).
  assert (Hbs1 : Forall bucket_wf bs1).
  { apply Forall_insert; [done|]. destruct Hbw, Hnb. by constructor. }
  destruct (rm_write_ok _ tr1 rkey va (table_bytes bs1) (bytes_of_bucket nb) lkey (va + i * 64) Hr1)
    as (tr2 & Hw & Hr2); [apply lookup_insert_eq| |].
  { unfold access_ok, in_region in *. rewrite bucket_bytes_len, len_table_bytes in * by done.
    subst bs1. unfold len in *. rewrite length_insert. tauto. }
  rewrite Eo, (table_bytes_write bs1 _ _ nb Hbs1 Hb1 Hnb), insert_insert_eq in Hr2. subst bs1.
  rewrite list_insert_insert_eq in Hr2.
  exists tr2. split.
  { unfold st_bind, m_cas, m_write. cbn [st_ret]. change (set_inline_value _ _) with nb.
    by rewrite Hcas, Hw. }
  eexists. split_and!; [exact Hr2 | by eapply served_after | | done].
  intros k Hne. by rewrite lookup_insert_ne.
Qed.

Lemma insert_remote_inline xxh64 M rkey va t tr key value fva frk lkey :
  rm_repr M tr -> table_wf t -> served M rkey va t -> key_wf key -> hk_hash key <> 0 ->
  Forall is_u8 value ->
  exists t' r, insert_lock_free t key value Inline = Done (t', r)
  /\ exists tr' w M', insert_remote xxh64 true key value Inline va rkey fva frk (bucket_count t) lkey tr
                      = Done (tr', Ok w)
  /\ rm_repr M' tr' /\ served M' rkey va t' /\ (forall k, k <> rkey -> M' !! k = M !! k)
  /\ (w = WTableFull <-> r = Err TableFull).
Proof.
  intros Hr Hwf Hs Hk Hn Hv. pose proof (is_power_of_two_pos _ (twf_pow2 _ Hwf)) as Hpos.
  destruct (try_insert_remote_inline xxh64 M rkey va t tr key value _ fva frk lkey Hr Hwf Hs Hk Hn Hv
    (h1_range t (hk_hash key) Hwf)) as (t1 & ok1 & E1 & tr1 & R1 & M1 & Hr1 & Hs1 & Hf1 & Hno1).
  unfold insert_lock_free, insert_remote. rewrite !(proj2 (Z.eqb_neq _ 0)) by (done || lia).
  fold (h1 t (hk_hash key)) (h2 t (hk_hash key)). cbv zeta.
  rewrite E1, exec_bind_done. unfold st_bind at 1. cbn [st_lift exec_assert negb].
  unfold st_bind at 1. rewrite R1. destruct ok1.
  { do 2 eexists. split; [reflexivity|]. do 3 eexists. split; [reflexivity|]. naive_solver. }
  destruct Hno1 as [-> ->]; [done|].
  destruct (try_insert_remote_inline xxh64 M rkey va t tr1 key value _ fva frk lkey Hr1 Hwf Hs Hk Hn Hv
    (h2_range t (hk_hash key) Hwf)) as (t2 & ok2 & E2 & tr2 & R2 & M2 & Hr2 & Hs2 & Hf2 & Hno2).
  rewrite E2, exec_bind_done. unfold st_bind at 1. rewrite R2.
  destruct ok2.
  { do 2 eexists. split; [reflexivity|]. do 3 eexists. split; [reflexivity|]. naive_solver. }
  do 2 eexists. split; [reflexivity|]. do 3 eexists. split; [reflexivity|]. naive_solver.
Qed.

(** What a read finds after an insertion of a fresh key. *)
Lemma insert_get_remote xxh64 M rkey va t tr key value fva frk lkey :
  rm_repr M tr -> table_wf t -> served M rkey va t -> quiescent t -> key_wf key -> hk_hash key <> 0 ->
  Forall is_u8 value -> table_map t !! key_of key = None ->
  exists tr' w M' t', insert_remote xxh64 true key value Inline va rkey fva frk (bucket_count t) lkey tr = Done (tr', Ok w)
  /\ rm_repr M' tr' /\ served M' rkey va t' /\ table_wf t' /\ quiescent t' /\ bucket_count t' = bucket_count t
  /\ table_map t' = (if decide (w = WTableFull) then table_map t
                     else <[key_of key := (pack_body value Inline, Inline)]> (table_map t)).
Proof.
  intros Hr Hwf Hs Hq Hk Hn Hv Hfresh.
  destruct (insert_remote_inline xxh64 M rkey va t tr key value fva frk lkey Hr Hwf Hs Hk Hn Hv)
    as (t' & r & E & tr' & w & M' & E' & Hr' & Hs' & _ & Hw).
  destruct (insert_lock_free_spec t key value Inline Hwf Hk Hn Hv Hfresh) as (t2 & r2 & E2 & Hwf' & Hm).
  rewrite E in E2. injection E2 as <- <-. exists tr', w, M', t'.
  split_and!; [done | done | done | done | by eapply insert_lock_free_quiescent | by eapply insert_lock_free_count |].
  destruct r as [[]|e].
  - destruct Hm as [old ->]. rewrite decide_False; [done|]. by intros [=]%Hw.
  - destruct Hm as [-> ->]. rewrite decide_True; [done|]. by apply Hw.
Qed.

(** ** The bump allocator *)

(** The four stores of an allocation are: the bump word, and the extent. *)
Lemma remote_extent_stores bytes old total data c :
  8 <= old -> 32 + len data <= total -> old + total <= len bytes -> len data < 2 ^ 32 ->
  let bytes' := bwrite (old + 24) (to_le 8 c) (bwrite (old + 32) data
    (bwrite old (bytes_of_header_v2 (remote_header data)) (bwrite 0 (to_le 8 (old + total)) bytes))) in
  len bytes' = len bytes /\ bread 0 8 bytes' = to_le 8 (old + total)
  /\ ext_at bytes' old (new_extent c data)
  /\ (forall o n, 8 <= o -> 0 <= n -> o + n <= old \/ old + total <= o -> bread o n bytes' = bread o n bytes).
Proof.
  intros Ho Ht Hend Hd bytes'. pose proof (len_nonneg data).
  assert (Hh : len (bytes_of_header_v2 (remote_header data)) = 32) by (by apply len_bytes_of_header_v2).
  set (x0 := new_extent 0 data). assert (Hx0 : len (ext_image x0) = 32 + len data) by apply len_ext_image.
  set (b0 := bwrite 0 (to_le 8 (old + total)) bytes).
  assert (Hb0 : len b0 = len bytes) by (subst b0; len_lia).
  assert (E : bytes' = bwrite (old + 24) (to_le 8 c) (bwrite old (ext_image x0) b0)).
  { unfold bytes'. fold b0. rewrite (bwrite_app old) by lia. do 2 f_equal.
    unfold remote_header. by rewrite u32_small by (unfold is_u32; lia). }
  assert (Hb1 : len (bwrite old (ext_image x0) b0) = len bytes) by len_lia.
  rewrite E. split_and!.
  - len_lia.
  - rewrite !bread_bwrite_disjoint by len_lia. subst b0.
    change 8 with (len (to_le 8 (old + total))) at 1. apply bread_bwrite_same; len_lia.
  - unfold ext_at. change (len (ext_image (new_extent c data))) with (len (ext_image x0)).
    rewrite bread_bwrite_window by len_lia. rewrite bread_bwrite_same by lia. reflexivity.
  - intros o n H8 Hn Hdis. rewrite !bread_bwrite_disjoint by len_lia. subst b0.
    apply bread_bwrite_disjoint; len_lia.
Qed.

(** The CAS bump allocator: without interference, and when the bump offset
    lies past its own word and the extent fits, [allocate_remote] returns the old
    bump offset, advances the bump word by the footprint, and leaves there a
    complete V2 extent (header, payload, checksum of the payload); every byte
    outside the bump word and the new extent is unchanged. *)
Lemma allocate_remote_ok xxh64 M tr a data bytes :
  let old := from_le (bread 0 8 bytes) in
  let total := extent_total (len data) in
  rm_repr M tr -> M !! da_free_list_rkey a = Some (da_free_list_vaddr a, bytes) ->
  is_u32 (da_free_list_rkey a) -> 0 <= da_free_list_vaddr a -> da_free_list_vaddr a + len bytes < 2 ^ 64 ->
  data_ok data -> 8 <= old -> old + total <= len bytes ->
  exists tr' bytes', allocate_remote xxh64 a data tr = Done (tr', Ok old)
    /\ rm_repr (<[da_free_list_rkey a := (da_free_list_vaddr a, bytes')]> M) tr'
    /\ len bytes' = len bytes /\ bread 0 8 bytes' = to_le 8 (old + total)
    /\ ext_at bytes' old (new_extent (xxh64 data) data)
    /\ (forall o n, 8 <= o -> 0 <= n -> o + n <= old \/ old + total <= o -> bread o n bytes' = bread o n bytes).
Proof.
  intros old total Hr0 HM Hrk Hva Hend Hd H8 Hfit. pose proof (data_ok_total data Hd) as Ht. fold total in Ht.
  destruct Hd as [Hl _]. pose proof (len_nonneg data).
  destruct a as [va rk lk fo]. cbn [da_free_list_rkey da_free_list_vaddr da_local_lkey] in *.
  assert (Hh : len (bytes_of_header_v2 (remote_header data)) = 32) by (by apply len_bytes_of_header_v2).
  pose proof (remote_extent_stores bytes old total data (xxh64 data) H8 (proj1 Ht) Hfit Hl) as HS.
  cbv zeta in HS.
  unfold allocate_remote. cbn [da_free_list_rkey da_free_list_vaddr da_local_lkey]. fold total. cbv zeta.
  assert (Hacc : forall n, 0 <= n -> forall o, 0 <= o -> o + n <= len bytes -> n < 2 ^ 32 ->
    forall bs, len bs = len bytes -> access_ok va bs rk (va + o) n)
    by (intros n ? o ? ? ? bs ?; unfold access_ok, in_region, is_u64, is_u32 in *; lia).
  destruct (rm_read_ok M tr rk va bytes 8 lk va Hr0 HM) as (tr0 & Hread & Hr);
    [rewrite <- (Z.add_0_r va) at 2; apply Hacc; done || lia|].
  unfold st_bind at 1. unfold m_read. rewrite Hread.
  rewrite Z.sub_diag. fold old. rewrite (u64_small (old + total)) by (unfold is_u64; lia).
  pose proof (rm_cas_ok M tr0 rk va bytes old (old + total) lk va Hr HM) as Hcas.
  cbv zeta in Hcas. rewrite Z.sub_diag in Hcas. fold old in Hcas. rewrite Z.eqb_refl in Hcas.
  destruct Hcas as (tr1 & Hcas & Hr1);
    [rewrite <- (Z.add_0_r va) at 2; apply Hacc; done || lia | unfold is_u64; lia | unfold is_u64; lia|].
  unfold st_bind at 1. unfold m_cas. rewrite Hcas. cbn [negb].
  rewrite (u64_small (va + old)) by (unfold is_u64; lia).
  unfold HEADER_SIZE. rewrite (u64_small (va + old + 32)), (u64_small (va + old + 24)) by (unfold is_u64; lia).
  set (b1 := bwrite 0 (to_le 8 (old + total)) bytes) in *.
  assert (Hb1 : len b1 = len bytes) by (subst b1; len_lia).
  destruct (rm_write_ok _ tr1 rk va b1 (bytes_of_header_v2 (remote_header data)) lk (va + old) Hr1)
    as (tr2 & Hw2 & Hr2); [apply lookup_insert_eq | apply Hacc; done || lia|].
  replace (va + old - va) with old in Hr2 by lia. rewrite insert_insert_eq in Hr2.
  set (b2 := bwrite old _ b1) in *. assert (Hb2 : len b2 = len bytes) by (subst b2; len_lia).
  destruct (rm_write_ok _ tr2 rk va b2 data lk (va + old + 32) Hr2)
    as (tr3 & Hw3 & Hr3); [apply lookup_insert_eq | rewrite <- Z.add_assoc; apply Hacc; done || lia|].
  replace (va + old + 32 - va) with (old + 32) in Hr3 by lia. rewrite insert_insert_eq in Hr3.
  set (b3 := bwrite (old + 32) data b2) in *. assert (Hb3 : len b3 = len bytes) by (subst b3; len_lia).
  destruct (rm_write_ok _ tr3 rk va b3 (to_le 8 (xxh64 data)) lk (va + old + 24) Hr3)
    as (tr4 & Hw4 & Hr4); [apply lookup_insert_eq | rewrite <- Z.add_assoc, len_to_le; apply Hacc; done || lia|].
  replace (va + old + 24 - va) with (old + 24) in Hr4 by lia. rewrite insert_insert_eq in Hr4.
  unfold st_bind, m_write. rewrite Hw2, Hw3, Hw4.
  exists tr4, (bwrite (old + 24) (to_le 8 (xxh64 data)) b3). split; [done|]. split; [done|]. exact HS.
Qed.
End remote.

(** ** Properties *)

(** A remote read over any healthy transport: with the table's bytes
    registered at [va] and no lock held or tombstone present, [get_remote]
    answers [None] for an absent key, the stored body for an Inline entry without
    changing anything, and for an Extent entry whatever one further read of the
    referenced length at the referenced offset returns.  The receive buffer is
    aligned. *)
Theorem remote_get_refines {T} `{RemoteMemory T} M rkey va t (tr : T) key lva lrk lkey :
  rm_repr M tr -> table_wf t -> served M rkey va t -> hk_hash key <> 0 -> quiescent t ->
  exists tr', rm_repr M tr' /\
  get_remote true key va rkey lva lrk (bucket_count t) lkey tr
  = match table_map t !! key_of key with
    | None => Done (tr', Ok None)
    | Some v => remote_view tr' lva lrk lkey v
    end.
Proof. apply get_remote_spec. Qed.

Definition sample_mem : rmem := {[ 7 := (4096, table_bytes (buckets sample_table)) ]}.

Lemma sample_served : served sample_mem 7 4096 sample_table.
Proof. split; [apply lookup_singleton_eq | unfold is_u32; cbn; lia]. Qed.

(** C18. A remote Inline insertion whose receive buffer is aligned (otherwise it
    panics) is the lock-free insertion: over any healthy transport it makes the
    same decision on the two slots, and leaves registered the bytes of exactly
    the table that [insert_lock_free] leaves; no other region is touched. *)
Theorem remote_insert_mirrors {T} `{RemoteMemory T} xxh64 M rkey va t (tr : T) key value fva frk lkey :
  rm_repr M tr -> table_wf t -> served M rkey va t -> key_wf key -> hk_hash key <> 0 ->
  Forall is_u8 value ->
  exists t' r, insert_lock_free t key value Inline = Done (t', r)
  /\ exists tr' w M', insert_remote xxh64 true key value Inline va rkey fva frk (bucket_count t) lkey tr
                      = Done (tr', Ok w)
  /\ rm_repr M' tr' /\ served M' rkey va t' /\ (forall k, k <> rkey -> M' !! k = M !! k)
  /\ (w = WTableFull <-> r = Err TableFull).
Proof. apply insert_remote_inline. Qed.

Lemma remote_insert_mirrors_witness :
  exists tr' w, insert_remote (fun _ => 0) true (sample_key 6) [9] Inline 4096 7 0 8 2 0 sample_mem
    = Done (tr', Ok w).
Proof.
  destruct (remote_insert_mirrors (fun _ => 0) sample_mem 7 4096 sample_table sample_mem (sample_key 6)
    [9] 0 8 0) as (t' & r & _ & tr' & w & M' & E & _).
  - reflexivity.
  - apply sample_table_wf.
  - apply sample_served.
  - apply sample_key_wf. unfold is_u64. lia.
  - cbn. lia.
  - repeat constructor; unfold is_u8; lia.
  - exists tr', w. exact E.
Defined.

(** C19. Put and get over a transport that behaves as a remote memory (shared
    memory does, and TCP over a connection that stays up; the compare-and-swap
    of the RDMA transport does not), with aligned receive buffers, on a table in
    which no lock is held and no tombstone is present ([quiescent]): an absent
    Inline key that a remote insertion reports as inserted is then read with the
    bytes that were stored, zero-padded or cut to 32; every other key reads as
    before (an Extent entry by one more read of its reference), and all keys do
    when the insertion reports a full table. [get_remote] does not look at
    tombstones: with deleted keys in the table a read may return a deleted value
    ([get_remote_returns_deleted]). *)
Theorem remote_put_get {T} `{RemoteMemory T} xxh64 M rkey va t (tr : T) key value fva frk lkey lva lrk :
  rm_repr M tr -> table_wf t -> served M rkey va t -> quiescent t -> key_wf key -> hk_hash key <> 0 ->
  Forall is_u8 value -> table_map t !! key_of key = None ->
  exists tr' w, insert_remote xxh64 true key value Inline va rkey fva frk (bucket_count t) lkey tr = Done (tr', Ok w)
  /\ forall other, hk_hash other <> 0 ->
       exists tr2, get_remote true other va rkey lva lrk (bucket_count t) lkey tr'
       = if decide (w <> WTableFull /\ key_of other = key_of key)
         then Done (tr2, Ok (Some (mkReadResult (pack_body value Inline) Inline)))
         else match table_map t !! key_of other with
              | None => Done (tr2, Ok None)
              | Some v => remote_view tr2 lva lrk lkey v
              end.
Proof.
  intros Hr Hwf Hs Hq Hk Hn Hv Hfresh.
  destruct (insert_get_remote xxh64 M rkey va t tr key value fva frk lkey Hr Hwf Hs Hq Hk Hn Hv Hfresh)
    as (tr' & w & M' & t' & E & Hr' & Hs' & Hwf' & Hq' & Hc & Hm).
  exists tr', w. split; [done|]. intros other Ho.
  destruct (get_remote_spec M' rkey va t' tr' other lva lrk lkey Hr' Hwf' Hs' Ho Hq') as (tr2 & _ & Eg).
  exists tr2. rewrite <- Hc, Eg, Hm. destruct (decide (w = WTableFull)) as [->|Hw].
  - by rewrite decide_False by naive_solver.
  - destruct (decide (key_of other = key_of key)) as [->|Hne].
    + by rewrite lookup_insert_eq, decide_True.
    + rewrite lookup_insert_ne by done. by rewrite decide_False by naive_solver.
Qed.

Lemma remote_put_get_witness :
  exists tr' w, insert_remote (fun _ => 0) true (sample_key 6) [9] Inline 4096 7 0 8 2 0 sample_mem = Done (tr', Ok w)
  /\ exists tr2, get_remote true (sample_key 6) 4096 7 0 8 2 0 tr' = Done (tr2, Ok (Some (mkReadResult (9 :: zeros 31) Inline))).
Proof.
  destruct (remote_put_get (fun _ => 0) sample_mem 7 4096 sample_table sample_mem (sample_key 6) [9] 0 8 0 0 8)
    as (tr' & w & E & Hg).
  - reflexivity.
  - apply sample_table_wf.
  - apply sample_served.
  - repeat constructor; vm_compute; reflexivity.
  - apply sample_key_wf. unfold is_u64. lia.
  - cbn. lia.
  - repeat constructor; unfold is_u8; lia.
  - vm_compute. reflexivity.
  - exists tr', w. split; [exact E|]. destruct (Hg (sample_key 6)) as [tr2 E2]; [cbn; lia|]. exists tr2.
    etransitivity; [exact E2|]. rewrite decide_True; [reflexivity|]. split; [|done]. intros ->.
    vm_compute in E. discriminate E.
Defined.

(** A remote read does not look at the tombstone bit: a deleted key is returned
    with its old value, where the local read finds nothing. *)
Example get_remote_returns_deleted :
  let b := mark_tombstone (slot_bucket 4 (hk_digest (sample_key 4)) (zeros 32) Inline) in
  is_tombstone b = true
  /\ exists M', get_remote true (sample_key 4) 4096 7 0 8 2 0
       ({[ 7 := (4096, table_bytes [b; HashBucket_zeroed]) ]} : rmem)
     = Done (M', Ok (Some (mkReadResult (zeros 32) Inline))).
Proof. split; [by vm_compute|]. eexists. vm_compute. reflexivity. Qed.

(** Two defects of the remote extent path.  A fresh FreeList region has bump
    offset 0, so the first extent is written over the bump word itself: the next
    allocation reads the header's magic number as its offset and fails.  And a
    remote read of an Extent entry does not skip the header: for a V2 extent it
    returns the first bytes of the header instead of the data. *)
Theorem remote_extent_hazards :
  (exists M1, allocate_remote (fun _ => 5) (DistributedExtentAllocator_new 4096 3 0) [1; 2; 3]
       ({[ 3 := (4096, zeros 128) ]} : rmem) = Done (M1, Ok 0)
     /\ ((fun p => from_le (bread 0 8 p.2)) <$> M1 !! 3) = Some (EXTENT_MAGIC + 2 ^ 32)
     /\ exists M2, allocate_remote (fun _ => 5) (DistributedExtentAllocator_new 4096 3 0) [1; 2; 3] M1
        = Done (M2, Err access_error))
  /\ ('(r, o) ← allocate (LargeObjectRegion_new 128) [1; 2; 3; 4; 5; 6; 7; 8];
      '(_, v) ← get_remote true (sample_key 4) 4096 7 0x10000 8 2 0
         ({[ 7 := (4096, table_bytes [slot_bucket 4 (zeros 16) (extent_body (default 0 o) 8) Extent;
                                      HashBucket_zeroed]);
             8 := (0x10000, buffer r) ]} : rmem);
      Done v)
     = Done (Ok (Some (mkReadResult (to_le 4 EXTENT_MAGIC ++ [1; 0; 0; 0]) Extent))).
Proof.
  split; [|vm_compute; reflexivity]. eexists. split; [vm_compute; reflexivity|].
  split; [vm_compute; reflexivity|]. eexists. vm_compute. reflexivity.
Qed.
