(* ===== verification/RemoteConc.v ===== *)
(** * RemoteConc: remote clients that run at the same time
    (src/client/write.rs, src/engine/extent.rs)

    The remote paths of [Remote] as clients of [Interleave]: any number of
    them issue their operations one by one, in any order, and an operation may be
    reported as failed. *)

From S2P Require Import Prelude Layout Cuckoo CuckooSpec CuckooProps Extent ExtentSpec ExtentProps Errors Client ClientProps Transport Remote RemoteProps Interleave.

Open Scope Z_scope.

Lemma len_new_extent c data : len (ext_image (new_extent c data)) = 32 + len data.
Proof. apply len_ext_image. Qed.

(** ** Concurrent allocators *)

Section allocators.
Context (xxh64 : list Z -> Z) (a : DistributedExtentAllocator) (data : nat -> list Z) (clients : gset nat)
  (faults : bool) (M0 : rmem) (bytes0 : list Z) (b0 : Z).

Notation frk := (da_free_list_rkey a).
Notation fva := (da_free_list_vaddr a).
Notation size_of i := (extent_total (len (data i))).

(** What the clients of [X] reserve together. *)
Definition demand (X : gset nat) : Z := set_fold (fun i acc => size_of i + acc) 0 X.

(** The regions while clients allocate: the allocator's bytes change, the rest
    does not. *)
Definition alloc_state (bytes : list Z) : rmem := <[frk := (fva, bytes)]> M0.

Definition allocator (i : nat) : stM recorder RdmaError Z := allocate_remote xxh64 a (data i).

Lemma allocator_client {T} `{Transport T} i :
  client_prog (T := T) (fun _ => True) (allocator i) (allocate_remote xxh64 a (data i)).
Proof. unfold allocator, allocate_remote. cbv zeta. client_prog_tac; done. Qed.

(** The request of a client in each of its phases. *)
Lemma allocator_start i : resume (allocator i) [] = Asks (QRead 8 (da_local_lkey a) fva frk).
Proof. reflexivity. Qed.

Lemma allocator_read i buf :
  resume (allocator i) [ARead (Ok buf)]
  = Asks (QCas (from_le buf) (u64 (from_le buf + size_of i)) (da_local_lkey a) fva frk).
Proof. reflexivity. Qed.

Lemma allocator_lost i buf : resume (allocator i) [ARead (Ok buf); ACas (Ok false)] = Returns (Err CasFailed).
Proof. reflexivity. Qed.

Definition store (i : nat) (off : Z) (k : nat) : request :=
  let addr := u64 (fva + off) in
  match k with
  | 0%nat => QWrite (bytes_of_header_v2 (remote_header (data i))) (da_local_lkey a) addr frk
  | 1%nat => QWrite (data i) (da_local_lkey a) (u64 (addr + HEADER_SIZE)) frk
  | _ => QWrite (to_le 8 (xxh64 (data i))) (da_local_lkey a) (u64 (addr + 24)) frk
  end.

Definition writing (buf : list Z) (k : nat) : list reply :=
  [ARead (Ok buf); ACas (Ok true)] ++ replicate k (AWrite (Ok tt)).

Lemma allocator_writing i buf k :
  (k <= 3)%nat ->
  resume (allocator i) (writing buf k)
  = if decide (k = 3%nat) then Returns (Ok (from_le buf)) else Asks (store i (from_le buf) k).
Proof.
  intros Hk. destruct k as [|[|[|[|k]]]]; [reflexivity..|lia].
Qed.

(** *** The invariant *)

(** [res] gives the offset each client reserved, if it did. *)
Record alloc_mem (res : gmap nat Z) (bump : Z) (bytes : list Z) : Prop := {
  am_len : len bytes = len bytes0;
  am_word : bread 0 8 bytes = to_le 8 bump;
  am_bump : bump = b0 + demand (dom res);
  am_dom : dom res ⊆ clients;
  am_in : forall i off, res !! i = Some off -> b0 <= off /\ off + size_of i <= bump;
  am_sep : forall i j oi oj, i <> j -> res !! i = Some oi -> res !! j = Some oj ->
             oi + size_of i <= oj \/ oj + size_of j <= oi;
  am_rest : forall o n, 8 <= o -> 0 <= n -> o + n <= b0 \/ bump <= o -> bread o n bytes = bread o n bytes0
}.

(** What a client has stored after [k] writes. *)
Definition stored (i : nat) (off : Z) (bytes : list Z) (k : nat) : Prop :=
  match k with
  | 0%nat => True
  | 1%nat => off + 32 <= len bytes /\ bread off 32 bytes = bytes_of_header_v2 (remote_header (data i))
  | 2%nat => off + 32 + len (data i) <= len bytes /\ ext_at bytes off (new_extent 0 (data i))
  | _ => off + 32 + len (data i) <= len bytes /\ ext_at bytes off (new_extent (xxh64 (data i)) (data i))
  end.

(** Where a client is, by the replies it has received. *)
Inductive alloc_client (res : gmap nat Z) (bump : Z) (bytes : list Z) (i : nat) : list reply -> Prop :=
| ac_start : res !! i = None -> alloc_client res bump bytes i []
| ac_read buf : res !! i = None -> b0 <= from_le buf <= bump -> alloc_client res bump bytes i [ARead (Ok buf)]
| ac_lost buf : res !! i = None -> b0 <= from_le buf < bump ->
    alloc_client res bump bytes i [ARead (Ok buf); ACas (Ok false)]
| ac_writing buf k : (k <= 3)%nat -> res !! i = Some (from_le buf) -> stored i (from_le buf) bytes k ->
    alloc_client res bump bytes i (writing buf k)
| ac_failed h e : faults = true \/ len bytes0 < b0 + demand clients -> (length h <= 5)%nat ->
    resume (allocator i) h = Returns (Err e) -> alloc_client res bump bytes i h.

Definition alloc_inv (s : system) : Prop :=
  exists res bump bytes, s.1 = alloc_state bytes /\ alloc_mem res bump bytes /\ dom s.2 = clients
    /\ forall i h, s.2 !! i = Some h -> alloc_client res bump bytes i h.

(** *** Demand *)

Lemma demand_union X Y : X ## Y -> demand (X ∪ Y) = demand X + demand Y.
Proof.
  intros Hd. unfold demand.
  rewrite (set_fold_disj_union_strong eq) by (done || solve_proper || (intros; lia)).
  rewrite <- (Z.add_0_r (set_fold _ 0 X)) at 1.
  by rewrite (set_fold_comm_acc _ (Z.add (set_fold _ 0 X))) by (intros; lia).
Qed.

Lemma demand_insert i X : i ∉ X -> demand ({[i]} ∪ X) = size_of i + demand X.
Proof.
  intros Hi. rewrite demand_union by set_solver. unfold demand at 1. rewrite set_fold_singleton. lia.
Qed.

Context (Hdata : forall i, i ∈ clients -> data_ok (data i)).

Lemma size_bounds i : i ∈ clients -> 32 + len (data i) <= size_of i.
Proof. intros Hi. apply data_ok_total. auto. Qed.

Lemma demand_nonneg X : X ⊆ clients -> 0 <= demand X.
Proof.
  intros HX. unfold demand. apply (set_fold_ind_L (fun acc Y => Y ⊆ clients -> 0 <= acc)); [done| |done].
  intros i Y acc _ IH HY. pose proof (size_bounds i ltac:(set_solver)). pose proof (len_nonneg (data i)).
  specialize (IH ltac:(set_solver)). lia.
Qed.

Lemma demand_mono X Y : X ⊆ Y -> Y ⊆ clients -> demand X <= demand Y.
Proof.
  intros HX HY. rewrite (union_difference_L X Y HX), demand_union by set_solver.
  pose proof (demand_nonneg (Y ∖ X) ltac:(set_solver)). lia.
Qed.

(** *** The memory *)

Context (Hb0 : 8 <= b0) (Hlen : 8 <= len bytes0) (Hva : 0 <= fva) (Hroom : fva + b0 + demand clients < 2 ^ 64).

Lemma alloc_reserve res bump bytes i :
  alloc_mem res bump bytes -> i ∈ clients -> res !! i = None ->
  alloc_mem (<[i := bump]> res) (bump + size_of i) (bwrite 0 (to_le 8 (bump + size_of i)) bytes).
Proof.
  intros Hm Hi Hn. pose proof (size_bounds i Hi). pose proof (len_nonneg (data i)).
  pose proof (am_bump _ _ _ Hm). pose proof (demand_nonneg _ (am_dom _ _ _ Hm)). pose proof (am_len _ _ _ Hm).
  constructor.
  - len_lia.
  - change 8 with (len (to_le 8 (bump + size_of i))) at 1. apply bread_bwrite_same; len_lia.
  - rewrite dom_insert_L, demand_insert by (by apply not_elem_of_dom). lia.
  - rewrite dom_insert_L. pose proof (am_dom _ _ _ Hm). set_solver.
  - intros j off [[<- <-]|[Hne Hj]]%lookup_insert_Some; [lia|]. apply (am_in _ _ _ Hm) in Hj. lia.
  - intros j k oj ok Hne [[<- <-]|[Hj1 Hj]]%lookup_insert_Some [[<- <-]|[Hk1 Hk]]%lookup_insert_Some.
    + done.
    + apply (am_in _ _ _ Hm) in Hk. lia.
    + apply (am_in _ _ _ Hm) in Hj. lia.
    + by apply (am_sep _ _ _ Hm j k).
  - intros o n Ho Hn0 Hd. rewrite bread_bwrite_disjoint by len_lia. apply Hm; lia.
Qed.

Lemma alloc_store res bump bytes i off o x :
  alloc_mem res bump bytes -> res !! i = Some off -> off <= o -> o + len x <= off + size_of i ->
  o + len x <= len bytes -> alloc_mem res bump (bwrite o x bytes).
Proof.
  intros Hm Hi Ho Hx Hl. destruct (am_in _ _ _ Hm i off Hi). pose proof (am_len _ _ _ Hm). pose proof (len_nonneg x).
  constructor; try apply Hm.
  - len_lia.
  - rewrite bread_bwrite_disjoint by len_lia. apply Hm.
  - intros p n Hp Hn Hd. rewrite bread_bwrite_disjoint by len_lia. apply Hm; lia.
Qed.

(** A client keeps its place when nobody touches what it reserved. *)
Definition kept (res : gmap nat Z) (bytes : list Z) (res' : gmap nat Z) (bytes' : list Z) (j : nat) : Prop :=
  res' !! j = res !! j /\ forall off o n, res !! j = Some off -> off <= o -> 0 <= n -> o + n <= off + size_of j ->
    bread o n bytes' = bread o n bytes.

Lemma alloc_client_kept res bump bytes res' bump' bytes' j h :
  j ∈ clients -> len bytes' = len bytes -> bump <= bump' -> kept res bytes res' bytes' j ->
  alloc_client res bump bytes j h -> alloc_client res' bump' bytes' j h.
Proof.
  intros Hj Hl Hb [Hr Hk]. pose proof (size_bounds j Hj). pose proof (len_nonneg (data j)).
  destruct 1 as [Hn|buf Hn Hv|buf Hn Hv|buf k Hle Hn Hs|h e Hf Hle Hres].
  - constructor. congruence.
  - constructor; [congruence | lia].
  - constructor; [congruence | lia].
  - constructor; [done | congruence |]. destruct k as [|[|[|k]]]; cbn [stored] in *; [done|..]; rewrite Hl.
    + rewrite (Hk (from_le buf)) by (done || lia). done.
    + unfold ext_at in *. rewrite len_new_extent in *. rewrite (Hk (from_le buf)) by (done || lia). done.
    + unfold ext_at in *. rewrite len_new_extent in *. rewrite (Hk (from_le buf)) by (done || lia). done.
  - by eapply ac_failed.
Qed.

Lemma alloc_state_read bytes n lkey : 0 <= n <= len bytes ->
  perform (alloc_state bytes) (QRead n lkey fva frk) = (alloc_state bytes, ARead (Ok (bread 0 n bytes))).
Proof.
  intros Hn. cbn. unfold mem_access, alloc_state at 1. rewrite lookup_insert_eq, decide_True by (unfold in_region; lia).
  by rewrite Z.sub_diag.
Qed.

Lemma alloc_state_cas bytes c s lkey : 8 <= len bytes ->
  perform (alloc_state bytes) (QCas c s lkey fva frk)
  = if from_le (bread 0 8 bytes) =? c then (alloc_state (bwrite 0 (to_le 8 s) bytes), ACas (Ok true))
    else (alloc_state bytes, ACas (Ok false)).
Proof.
  intros Hn. cbn. unfold mem_access, alloc_state at 1. rewrite lookup_insert_eq, decide_True by (unfold in_region; lia).
  rewrite Z.sub_diag. destruct (_ =? c); [|done]. unfold alloc_state. by rewrite insert_insert_eq.
Qed.

Lemma alloc_state_write bytes x lkey o : 0 <= o ->
  perform (alloc_state bytes) (QWrite x lkey (fva + o) frk)
  = if decide (o + len x <= len bytes) then (alloc_state (bwrite o x bytes), AWrite (Ok tt))
    else (alloc_state bytes, AWrite (Err access_error)).
Proof.
  intros Ho. pose proof (len_nonneg x). cbn. unfold mem_access, alloc_state at 1. rewrite lookup_insert_eq.
  destruct (decide (o + _ <= _)).
  - rewrite decide_True by (unfold in_region; lia). unfold alloc_state. rewrite insert_insert_eq.
    by replace (fva + o - fva) with o by lia.
  - by rewrite decide_False by (unfold in_region; lia).
Qed.

(** The place and the bytes of the store after [k] others. *)
Definition store_at (i : nat) (off : Z) (k : nat) : Z * list Z :=
  match k with
  | 0%nat => (off, bytes_of_header_v2 (remote_header (data i)))
  | 1%nat => (off + 32, data i)
  | _ => (off + 24, to_le 8 (xxh64 (data i)))
  end.

Lemma store_bounds i off k : i ∈ clients ->
  off <= (store_at i off k).1 /\ (store_at i off k).1 + len (store_at i off k).2 <= off + size_of i.
Proof.
  intros Hi. pose proof (size_bounds i Hi). pose proof (len_nonneg (data i)).
  assert (len (bytes_of_header_v2 (remote_header (data i))) = 32) by (by apply len_bytes_of_header_v2).
  destruct k as [|[|k]]; cbn [store_at fst snd]; rewrite ?len_to_le; lia.
Qed.

Lemma store_request i off k : i ∈ clients -> 0 <= off -> fva + off + size_of i < 2 ^ 64 ->
  store i off k = QWrite (store_at i off k).2 (da_local_lkey a) (fva + (store_at i off k).1) frk.
Proof.
  intros Hi Ho Hend. pose proof (size_bounds i Hi). pose proof (len_nonneg (data i)). unfold store, HEADER_SIZE.
  rewrite (u64_small (fva + off)) by (unfold is_u64; lia).
  rewrite !u64_small by (unfold is_u64; lia). by destruct k as [|[|k]]; cbn [store_at fst snd]; rewrite ?Z.add_assoc.
Qed.

Lemma stored_next i off bytes k :
  i ∈ clients -> 0 <= off -> (k < 3)%nat -> stored i off bytes k ->
  (store_at i off k).1 + len (store_at i off k).2 <= len bytes ->
  stored i off (bwrite (store_at i off k).1 (store_at i off k).2 bytes) (S k).
Proof.
  intros Hi Ho Hk Hs Hfit. pose proof (len_nonneg (data i)). destruct (Hdata i Hi) as [Hl _].
  assert (Hh : len (bytes_of_header_v2 (remote_header (data i))) = 32) by (by apply len_bytes_of_header_v2).
  destruct k as [|[|[|k]]]; [| | |lia]; cbn [store_at fst snd stored] in *.
  - rewrite Hh in Hfit. split; [len_lia|]. rewrite <- Hh at 1. apply bread_bwrite_same; lia.
  - split; [len_lia|]. unfold ext_at. rewrite len_new_extent. destruct Hs as [_ Hs].
    rewrite bread_split, bread_bwrite_disjoint, Hs, bread_bwrite_same by lia.
    unfold remote_header. by rewrite u32_small by (unfold is_u32; lia).
  - rewrite len_to_le in Hfit. destruct Hs as [Hin Hs]. split; [len_lia|]. unfold ext_at in *.
    rewrite len_new_extent in *. rewrite bread_bwrite_window, Hs by len_lia. reflexivity.
Qed.

(** *** Steps *)

Lemma alloc_client_asks res bump bytes i h q :
  alloc_client res bump bytes i h -> resume (allocator i) h = Asks q ->
  (length h <= 4)%nat /\
  ((h = [] /\ q = QRead 8 (da_local_lkey a) fva frk /\ res !! i = None)
   \/ (exists buf, h = [ARead (Ok buf)] /\ res !! i = None /\ b0 <= from_le buf <= bump
        /\ q = QCas (from_le buf) (u64 (from_le buf + size_of i)) (da_local_lkey a) fva frk)
   \/ (exists buf k, h = writing buf k /\ (k < 3)%nat /\ res !! i = Some (from_le buf)
        /\ stored i (from_le buf) bytes k /\ q = store i (from_le buf) k)).
Proof.
  intros [Hn|buf Hn Hv|buf Hn Hv|buf k Hle Hn Hs|h' e Hf Hle Hres] Hq.
  - split; [cbn; lia|]. left. rewrite allocator_start in Hq. naive_solver.
  - split; [cbn; lia|]. right; left. rewrite allocator_read in Hq. injection Hq as <-. eauto.
  - by rewrite allocator_lost in Hq.
  - rewrite allocator_writing in Hq by done. case_decide; [done|]. injection Hq as <-.
    split; [cbn; rewrite length_replicate; lia|]. right; right. exists buf, k. split_and!; [done | lia | done..].
  - congruence.
Qed.

Lemma alloc_bump_room res bump bytes : alloc_mem res bump bytes -> b0 <= bump <= b0 + demand clients.
Proof.
  intros Hm. rewrite (am_bump _ _ _ Hm). pose proof (demand_nonneg _ (am_dom _ _ _ Hm)).
  pose proof (demand_mono _ clients (am_dom _ _ _ Hm) ltac:(done)). lia.
Qed.

Lemma writing_next buf k : writing buf k ++ [AWrite (Ok tt)] = writing buf (S k).
Proof. unfold writing. by rewrite <- app_assoc, replicate_S_end. Qed.

(** The effect of a request on the allocator, and where it leaves its client. *)
Definition alloc_effect (res : gmap nat Z) (bump : Z) (bytes : list Z) (i : nat) (h : list reply) (q : request) : Prop :=
  exists res' bump' bytes', (perform (alloc_state bytes) q).1 = alloc_state bytes' /\ alloc_mem res' bump' bytes'
    /\ bump <= bump' /\ (forall j, j <> i -> kept res bytes res' bytes' j)
    /\ alloc_client res' bump' bytes' i (h ++ [(perform (alloc_state bytes) q).2]).

Lemma kept_refl res bytes j : kept res bytes res bytes j.
Proof. done. Qed.

Lemma alloc_read_effect res bump bytes i :
  alloc_mem res bump bytes -> res !! i = None ->
  alloc_effect res bump bytes i [] (QRead 8 (da_local_lkey a) fva frk).
Proof.
  intros Hm Hn. pose proof (alloc_bump_room _ _ _ Hm). exists res, bump, bytes.
  rewrite alloc_state_read by (rewrite (am_len _ _ _ Hm); lia).
  split_and!; [done | done | lia | intros; apply kept_refl |]. apply ac_read; [done|].
  rewrite (am_word _ _ _ Hm), from_le_to_le_8 by (unfold is_u64; lia). lia.
Qed.

Lemma alloc_cas_effect res bump bytes i buf :
  alloc_mem res bump bytes -> i ∈ clients -> res !! i = None -> b0 <= from_le buf <= bump ->
  alloc_effect res bump bytes i [ARead (Ok buf)]
    (QCas (from_le buf) (u64 (from_le buf + size_of i)) (da_local_lkey a) fva frk).
Proof.
  intros Hm Hi Hn Hv. pose proof (alloc_bump_room _ _ _ Hm). pose proof (size_bounds i Hi). pose proof (len_nonneg (data i)).
  unfold alloc_effect. rewrite alloc_state_cas by (rewrite (am_len _ _ _ Hm); lia).
  rewrite (am_word _ _ _ Hm), from_le_to_le_8 by (unfold is_u64; lia).
  destruct (bump =? from_le buf) eqn:E; bool_simpl.
  - pose proof (alloc_reserve _ _ _ i Hm Hi Hn) as Hm'. pose proof (alloc_bump_room _ _ _ Hm'). subst bump.
    rewrite u64_small by (unfold is_u64; lia). do 3 eexists. split_and!; [done | exact Hm' | lia | |].
    + intros j Hj. split; [by rewrite lookup_insert_ne|]. intros off o n Hoff Ho Hn0 He.
      apply (am_in _ _ _ Hm) in Hoff. apply bread_bwrite_disjoint; rewrite ?len_to_le, ?(am_len _ _ _ Hm); lia.
    + apply (ac_writing _ _ _ _ buf 0); [lia | apply lookup_insert_eq | done].
  - exists res, bump, bytes. split_and!; [done | done | lia | intros; apply kept_refl |]. apply ac_lost; [done | lia].
Qed.

Lemma alloc_store_effect res bump bytes i buf k :
  alloc_mem res bump bytes -> i ∈ clients -> (k < 3)%nat -> res !! i = Some (from_le buf) ->
  stored i (from_le buf) bytes k -> alloc_effect res bump bytes i (writing buf k) (store i (from_le buf) k).
Proof.
  intros Hm Hi Hk Hn Hs. pose proof (alloc_bump_room _ _ _ Hm). destruct (am_in _ _ _ Hm _ _ Hn).
  destruct (store_bounds i (from_le buf) k Hi). pose proof (len_nonneg (store_at i (from_le buf) k).2).
  unfold alloc_effect. pose proof (store_request i (from_le buf) k Hi) as Hq. rewrite Hq by lia.
  rewrite alloc_state_write by lia. case_decide as Hfit.
  - eexists res, bump, _. split_and!; [done | by eapply alloc_store | lia | |].
    + intros j Hj. split; [done|]. intros off o n Hoff Ho Hn0 He. pose proof (am_in _ _ _ Hm _ _ Hoff).
      destruct (am_sep _ _ _ Hm i j _ _ ltac:(done) Hn Hoff); apply bread_bwrite_disjoint; lia.
    + cbn [snd]. rewrite writing_next. apply ac_writing; [lia | done | by apply stored_next; [|lia|..]].
  - exists res, bump, bytes. split_and!; [done | done | lia | intros; apply kept_refl |].
    eapply ac_failed; [right; pose proof (am_len _ _ _ Hm); lia | cbn; rewrite length_app, length_replicate; cbn; lia |].
    cbn [snd]. replace (AWrite _) with (failed (store i (from_le buf) k) access_error) by (by rewrite Hq by lia).
    eapply resume_failed; [apply allocator_client|]. rewrite allocator_writing by lia. by rewrite decide_False by lia.
Qed.

Lemma alloc_client_effect res bump bytes i h q :
  alloc_mem res bump bytes -> i ∈ clients -> alloc_client res bump bytes i h -> resume (allocator i) h = Asks q ->
  alloc_effect res bump bytes i h q.
Proof.
  intros Hm Hi Hc Hq. destruct (alloc_client_asks _ _ _ _ _ _ Hc Hq) as
    (_ & [(-> & -> & Hn)|[(buf & -> & Hn & Hv & ->)|(buf & k & -> & Hk & Hn & Hs & ->)]]).
  - by apply alloc_read_effect.
  - by apply alloc_cas_effect.
  - by apply alloc_store_effect.
Qed.

Lemma alloc_inv_start : M0 !! frk = Some (fva, bytes0) -> bread 0 8 bytes0 = to_le 8 b0 -> alloc_inv (start clients M0).
Proof.
  intros HM Hw. exists ∅, b0, bytes0. split_and!.
  - unfold alloc_state. by rewrite insert_id.
  - constructor; [done | done | rewrite dom_empty_L; unfold demand; rewrite set_fold_empty; lia | | | | done].
    + rewrite dom_empty_L. set_solver.
    + intros i off Hi. by rewrite lookup_empty in Hi.
    + intros i j oi oj _ Hi. by rewrite lookup_empty in Hi.
  - cbn. apply dom_gset_to_gmap.
  - cbn. intros i h [_ <-]%lookup_gset_to_gmap_Some. by constructor.
Qed.

(** One client moves. *)
Lemma alloc_inv_next M T i h res bump bytes res' bump' bytes' h' :
  dom T = clients -> T !! i = Some h -> (forall j g, T !! j = Some g -> alloc_client res bump bytes j g) ->
  alloc_mem res bump bytes -> M = alloc_state bytes' -> alloc_mem res' bump' bytes' -> bump <= bump' ->
  (forall j, j <> i -> kept res bytes res' bytes' j) ->
  alloc_client res' bump' bytes' i h' -> alloc_inv (M, <[i := h']> T).
Proof.
  intros HT Hi Hc Hm HM Hm' Hb Hk Hi'. exists res', bump', bytes'. cbn [fst snd]. split_and!; [done | done | |].
  - rewrite dom_insert_L, <- HT. apply elem_of_dom_2 in Hi. set_solver.
  - intros j g [[<- <-]|[Hne Hj]]%lookup_insert_Some; [done|].
    apply (alloc_client_kept res bump bytes); [rewrite <- HT; by eapply elem_of_dom_2 | | done | by apply Hk | by apply Hc].
    by rewrite (am_len _ _ _ Hm), (am_len _ _ _ Hm').
Qed.

Lemma alloc_inv_step s s' : sys_step allocator faults s s' -> alloc_inv s -> alloc_inv s'.
Proof.
  intros Hstep (res & bump & bytes & HM & Hm & HT & Hc).
  destruct Hstep as [M T i h q Hi Hq|M T i h q M' e Hfa Hi Hq HM'];
    cbn [fst snd] in *; subst M; assert (Hin : i ∈ clients) by (rewrite <- HT; by eapply elem_of_dom_2);
    destruct (alloc_client_effect _ _ _ _ _ _ Hm Hin (Hc _ _ Hi) Hq) as (res' & bump' & bytes' & E1 & Hm' & Hb & Hk & Hi');
    [by eapply alloc_inv_next|].
  assert (Hfail : forall res bump bytes, alloc_client res bump bytes i (h ++ [failed q e])).
  { intros. eapply ac_failed; [by left | rewrite length_app; cbn; apply (alloc_client_asks _ _ _ _ _ _ (Hc _ _ Hi)) in Hq; lia |].
    eapply resume_failed; [apply allocator_client | done]. }
  destruct HM' as [->| ->]; [|by eapply alloc_inv_next].
  eapply (alloc_inv_next _ _ _ _ res bump bytes); [done.. | lia | intros; apply kept_refl | done].
Qed.

Lemma alloc_inv_reachable s :
  M0 !! frk = Some (fva, bytes0) -> bread 0 8 bytes0 = to_le 8 b0 ->
  rtc (sys_step allocator faults) (start clients M0) s -> alloc_inv s.
Proof.
  intros HM Hw Hr. pose proof (alloc_inv_start HM Hw) as H0. revert H0.
  induction Hr as [|s1 s2 s3 Hs _ IH]; [done|]. intros H0. by eapply IH, alloc_inv_step.
Qed.

(** What a client that returned has. *)
Lemma alloc_client_returned res bump bytes i h r :
  alloc_client res bump bytes i h -> resume (allocator i) h = Returns r ->
  match r with
  | Ok off => res !! i = Some off /\ ext_at bytes off (new_extent (xxh64 (data i)) (data i))
  | Err e => (e = CasFailed /\ res !! i = None /\ b0 < bump) \/ faults = true \/ len bytes0 < b0 + demand clients
  end.
Proof.
  intros [Hn|buf Hn Hv|buf Hn Hv|buf k Hle Hn Hs|h' e Hf Hle Hres] Hq.
  - done.
  - done.
  - rewrite allocator_lost in Hq. injection Hq as <-. left. split_and!; [done | done | lia].
  - rewrite allocator_writing in Hq by done. case_decide; [|done]. injection Hq as <-. subst k. by destruct Hs.
  - rewrite Hq in Hres. injection Hres as ->. by right.
Qed.

Lemma alloc_client_runs res bump bytes i h :
  alloc_client res bump bytes i h -> (length h <= 5)%nat /\ resume (allocator i) h <> Panics.
Proof.
  intros [Hn|buf Hn Hv|buf Hn Hv|buf k Hle Hn Hs|h' e Hf Hle Hres]; [split; [cbn; lia | done]..| |].
  - split; [cbn; rewrite length_replicate; lia|]. rewrite allocator_writing by done. by case_decide.
  - split; [done | congruence].
Qed.
End allocators.

(** *** Theorems *)

Section allocator_theorems.
Context (xxh64 : list Z -> Z) (a : DistributedExtentAllocator) (data : nat -> list Z) (clients : gset nat)
  (faults : bool) (M0 : rmem) (bytes0 : list Z) (b0 : Z).

(** The initial region: [b0] is the bump offset, and the addresses of all
    requested extents fit 64 bits. *)
Record alloc_setup : Prop := {
  al_region : M0 !! da_free_list_rkey a = Some (da_free_list_vaddr a, bytes0);
  al_bump : bread 0 8 bytes0 = to_le 8 b0;
  al_word : 8 <= len bytes0;
  al_data : forall i, i ∈ clients -> data_ok (data i);
  al_vaddr : 0 <= da_free_list_vaddr a;
  al_room : da_free_list_vaddr a + b0 + demand data clients < 2 ^ 64
}.

Definition client_returned (s : system) (i : nat) (r : result Z RdmaError) : Prop :=
  exists h, s.2 !! i = Some h /\ resume (allocator xxh64 a data i) h = Returns r.

(** What the allocations guarantee of a state of the system: the bump word is at most the
    initial offset plus what the clients ask for, the extents handed out are
    complete, in range and disjoint, and everything else is unchanged. *)
Definition alloc_guarantee (s : system) : Prop :=
  exists bump bytes, s.1 = <[da_free_list_rkey a := (da_free_list_vaddr a, bytes)]> M0
  /\ len bytes = len bytes0 /\ bread 0 8 bytes = to_le 8 bump /\ b0 <= bump <= b0 + demand data clients
  /\ (forall o n, 8 <= o -> 0 <= n -> o + n <= b0 \/ bump <= o -> bread o n bytes = bread o n bytes0)
  /\ (forall i off, client_returned s i (Ok off) ->
        b0 <= off /\ off + extent_total (len (data i)) <= bump
        /\ ext_at bytes off (new_extent (xxh64 (data i)) (data i)))
  /\ (forall i j oi oj, i <> j -> client_returned s i (Ok oi) -> client_returned s j (Ok oj) ->
        oi + extent_total (len (data i)) <= oj \/ oj + extent_total (len (data j)) <= oi)
  /\ (forall i h, s.2 !! i = Some h -> (length h <= 5)%nat /\ resume (allocator xxh64 a data i) h <> Panics).

Lemma alloc_inv_guarantee s :
  alloc_setup -> alloc_inv xxh64 a data clients faults M0 bytes0 b0 s -> alloc_guarantee s.
Proof.
  intros [HM Hw Hl Hd Hva Hroom] (res & bump & bytes & E & Hm & HT & Hc).
  assert (Hret : forall i off, client_returned s i (Ok off) ->
    res !! i = Some off /\ ext_at bytes off (new_extent (xxh64 (data i)) (data i))).
  { intros i off (h & Hi & Hq). apply (alloc_client_returned _ _ _ _ _ _ _ _ _ _ _ _ _ (Hc i h Hi) Hq). }
  exists bump, bytes. split_and!; [exact E | apply Hm | apply Hm | by eapply alloc_bump_room.. | apply Hm | | |].
  - intros i off [Hi Hx]%Hret. by destruct (am_in _ _ _ _ _ _ _ Hm i off Hi).
  - intros i j oi oj Hne [Hi _]%Hret [Hj _]%Hret. by apply (am_sep _ _ _ _ _ _ _ Hm i j).
  - intros i h Hi. by eapply alloc_client_runs, Hc.
Qed.

(** C3. The CAS bump allocator under concurrency: any number of clients run
    [allocate_remote] on one region, their operations interleave in any order,
    and any operation may be reported as failed whether or not it took effect.
    In every reachable state the bump word is at most the initial offset plus
    what the clients ask for; a client that returned an offset owns a complete
    extent there (header, payload, checksum) between the initial offset and the
    bump, apart from the extents of all others; the bytes outside that range and
    all other regions are unchanged; no client panics or takes more than five
    operations. The guarantee needs a bump offset past the bump word itself, [8
    <= b0], and addresses of all requested extents that fit 64 bits. The regions
    that bootstrap creates start at 0, where it fails: the first extent is
    written over the bump word ([remote_extent_hazards]). *)
Theorem concurrent_allocations_safe s :
  8 <= b0 -> alloc_setup -> rtc (sys_step (allocator xxh64 a data) faults) (start clients M0) s ->
  exists bump bytes, s.1 = <[da_free_list_rkey a := (da_free_list_vaddr a, bytes)]> M0
  /\ len bytes = len bytes0 /\ bread 0 8 bytes = to_le 8 bump /\ b0 <= bump <= b0 + demand data clients
  /\ (forall o n, 8 <= o -> 0 <= n -> o + n <= b0 \/ bump <= o -> bread o n bytes = bread o n bytes0)
  /\ (forall i off, client_returned s i (Ok off) ->
        b0 <= off /\ off + extent_total (len (data i)) <= bump
        /\ ext_at bytes off (new_extent (xxh64 (data i)) (data i)))
  /\ (forall i j oi oj, i <> j -> client_returned s i (Ok oi) -> client_returned s j (Ok oj) ->
        oi + extent_total (len (data i)) <= oj \/ oj + extent_total (len (data j)) <= oi)
  /\ (forall i h, s.2 !! i = Some h -> (length h <= 5)%nat /\ resume (allocator xxh64 a data i) h <> Panics).
Proof.
  intros H8 Hset Hr. apply alloc_inv_guarantee; [done|]. destruct Hset. by apply alloc_inv_reachable.
Qed.

(** C23. The allocator is lock-free: when the region holds what all clients ask
    for and no operation is lost, from every reachable state all clients can
    finish, and once all have returned at least one of them owns an extent and
    every other one that did not get an extent lost the compare-and-swap. This
    too needs a bump offset past the bump word itself, [8 <= b0], and addresses
    of all requested extents that fit 64 bits. The regions that bootstrap
    creates start at 0, where it fails: the first extent is written over the
    bump word ([remote_extent_hazards]). *)
Theorem concurrent_allocation_progress s :
  8 <= b0 -> alloc_setup -> clients <> ∅ -> b0 + demand data clients <= len bytes0 ->
  rtc (sys_step (allocator xxh64 a data) false) (start clients M0) s ->
  (exists s', rtc (sys_step (allocator xxh64 a data) false) s s'
     /\ forall i, i ∈ clients -> exists r, client_returned s' i r)
  /\ ((forall i, i ∈ clients -> exists r, client_returned s i r) ->
      (exists i off, client_returned s i (Ok off)) /\ forall i e, client_returned s i (Err e) -> e = CasFailed).
Proof.
  intros H8 [HM Hw Hl Hd Hva Hroom] Hne Hfit Hr.
  assert (Hinv : forall s, rtc (sys_step (allocator xxh64 a data) false) (start clients M0) s ->
    alloc_inv xxh64 a data clients false M0 bytes0 b0 s) by (intros; by eapply alloc_inv_reachable).
  split.
  - destruct (finish_clients (allocator xxh64 a data) false (alloc_inv xxh64 a data clients false M0 bytes0 b0) 5)
      with (s := s) as (s' & Hr' & _ & Hret); [| |by apply Hinv|].
    + intros s1 s2 HI Hs. by eapply alloc_inv_step.
    + intros s1 i h (res & bump & bytes & _ & _ & _ & Hc) Hi. by eapply alloc_client_runs, Hc.
    + exists s'. split; [done|]. destruct (Hinv s Hr) as (_ & _ & _ & _ & _ & HT & _). rewrite HT in Hret.
      intros i Hi. destruct (Hret i Hi) as (h & r & Hh & Er). by exists r, h.
  - intros Hall. destruct (Hinv s Hr) as (res & bump & bytes & _ & Hm & HT & Hc).
    assert (Hret : forall i r, client_returned s i r -> match r with Ok off => res !! i = Some off
      | Err e => e = CasFailed /\ res !! i = None /\ b0 < bump end).
    { intros i r (h & Hi & Hq). pose proof (alloc_client_returned _ _ _ _ _ _ _ _ _ _ _ _ _ (Hc i h Hi) Hq) as Hx.
      destruct r; [tauto|]. destruct Hx as [Hx|[Hx|Hx]]; [done | done | lia]. }
    split; [|intros i e Hi; apply (Hret _ _ Hi)].
    assert (Hgot : forall i off, res !! i = Some off -> exists off, client_returned s i (Ok off)).
    { intros i off Hi. destruct (Hall i) as [[o|e] Hx]; [apply (am_dom _ _ _ _ _ _ _ Hm); by eapply elem_of_dom_2 | eauto |].
      apply Hret in Hx. destruct Hx as (_ & Hx & _). congruence. }
    destruct (set_choose_L clients Hne) as [i Hi]. destruct (Hall i Hi) as [[off|e] Hx]; [eauto|].
    apply Hret in Hx as (_ & _ & Hlt). destruct (decide (res = ∅)) as [->|Hres].
    { pose proof (am_bump _ _ _ _ _ _ _ Hm) as Hb. rewrite dom_empty_L in Hb. unfold demand in Hb. rewrite set_fold_empty in Hb. lia. }
    destruct (map_choose _ Hres) as (j & off & Hj). destruct (Hgot j off Hj) as [o Ho]. eauto.
Qed.
End allocator_theorems.

(** *** Two clients *)

Definition sample_pool : rmem := {[ 3 := (4096, to_le 8 64 ++ zeros 248) ]}.
Definition sample_data (i : nat) : list Z := [1; 2; Z.of_nat i].

Lemma sample_alloc_setup :
  alloc_setup (DistributedExtentAllocator_new 4096 3 0) sample_data {[0%nat; 1%nat]} sample_pool (to_le 8 64 ++ zeros 248) 64.
Proof.
  constructor; [apply lookup_singleton_eq | by vm_compute | by vm_compute | | cbn; lia | by vm_compute].
  intros i [->%elem_of_singleton| ->%elem_of_singleton]%elem_of_union;
    (split; [by vm_compute | repeat constructor; unfold is_u8; lia]).
Qed.

(** The first client reads and reserves, then the second, then both write. *)
Definition sample_order : list nat := [0; 0; 1; 1; 0; 1; 1; 0; 1; 0]%nat.
Definition sample_allocations : system :=
  schedule (allocator (fun _ => 5) (DistributedExtentAllocator_new 4096 3 0) sample_data) sample_order
    (start {[0%nat; 1%nat]} sample_pool).

Lemma sample_returned :
  client_returned (fun _ => 5) (DistributedExtentAllocator_new 4096 3 0) sample_data sample_allocations 0 (Ok 64)
  /\ client_returned (fun _ => 5) (DistributedExtentAllocator_new 4096 3 0) sample_data sample_allocations 1 (Ok 104).
Proof. split; eexists; (split; [vm_compute; reflexivity | vm_compute; reflexivity]). Qed.

Lemma concurrent_allocations_safe_witness :
  exists bump bytes, sample_allocations.1 = <[3 := (4096, bytes)]> sample_pool /\ 64 <= bump
  /\ ext_at bytes 64 (new_extent 5 (sample_data 0)) /\ ext_at bytes 104 (new_extent 5 (sample_data 1)).
Proof.
  destruct (concurrent_allocations_safe (fun _ => 5) (DistributedExtentAllocator_new 4096 3 0) sample_data
    {[0%nat; 1%nat]} false sample_pool (to_le 8 64 ++ zeros 248) 64 sample_allocations)
    as (bump & bytes & E & _ & _ & Hb & _ & Hx & _).
  - lia.
  - apply sample_alloc_setup.
  - apply schedule_run.
  - exists bump, bytes. split_and!; [exact E | apply Hb | apply (Hx 0%nat), sample_returned | apply (Hx 1%nat), sample_returned].
Defined.

Lemma concurrent_allocation_progress_witness :
  (exists i off, client_returned (fun _ => 5) (DistributedExtentAllocator_new 4096 3 0) sample_data sample_allocations i (Ok off)).
Proof.
  destruct (concurrent_allocation_progress (fun _ => 5) (DistributedExtentAllocator_new 4096 3 0) sample_data
    {[0%nat; 1%nat]} sample_pool (to_le 8 64 ++ zeros 248) 64 sample_allocations) as [_ [H _]].
  - lia.
  - apply sample_alloc_setup.
  - by apply (non_empty_inhabited_L 0%nat), elem_of_union_l, elem_of_singleton.
  - vm_compute. congruence.
  - apply schedule_run.
  - intros i [->%elem_of_singleton| ->%elem_of_singleton]%elem_of_union; eexists; apply sample_returned.
  - exact H.
Defined.

(** ** Two clients on one bucket *)

(** Two clients insert different keys with the same first slot. *)
Definition race_writer (mode : BucketMode) (i : nat) : stM recorder RdmaError WriteResult :=
  insert_remote (fun _ => 5) true (sample_key (4 + 2 * Z.of_nat i)) [9] mode 4096 7 4096 3 2 0.

Definition race_memory : rmem :=
  {[ 7 := (4096, table_bytes [HashBucket_zeroed; HashBucket_zeroed]); 3 := (4096, to_le 8 64 ++ zeros 248) ]}.

(** The first client stops after its compare-and-swap, the second one runs, the
    first one goes on. *)
Definition race_order (mode : BucketMode) : list nat :=
  match mode with
  | Inline => [0; 0; 1; 1; 1; 0]%nat
  | Extent => replicate 7 0%nat ++ replicate 8 1%nat ++ [0%nat]
  end.

(** The compare-and-swap of the lock word does not reserve the bucket: the new
    word has no lock bit, and between it and the store of the body the bucket
    still reads as empty.  In either mode both clients report their key as
    inserted in the same slot, and the key of the second one is not in the table. *)
Theorem remote_insert_race mode :
  exists s, rtc (sys_step (race_writer mode) false) (start {[0%nat; 1%nat]} race_memory) s
  /\ (resume (race_writer mode 0) <$> s.2 !! 0%nat) = Some (Returns (Ok (Inserted 0)))
  /\ (resume (race_writer mode 1) <$> s.2 !! 1%nat) = Some (Returns (Ok (Inserted 0)))
  /\ (exists v, get_remote true (sample_key 4) 4096 7 4096 3 2 0 s.1 = Done (s.1, Ok (Some v)))
  /\ get_remote true (sample_key 6) 4096 7 4096 3 2 0 s.1 = Done (s.1, Ok None).
Proof.
  exists (schedule (race_writer mode) (race_order mode) (start {[0%nat; 1%nat]} race_memory)).
  split; [apply schedule_run|]. destruct mode; split_and!.
  all: try (vm_compute; reflexivity).
  - exists (mkReadResult (9 :: zeros 31) Inline). vm_compute. reflexivity.
  - exists (mkReadResult [65] Extent). vm_compute. reflexivity.
Qed.

(** ** Clients with slots of their own *)

Lemma try_insert_client {T} `{Transport T} F xxh64 aligned key value addr rkey fva frk lkey :
  F (QRead 64 lkey addr rkey) -> (forall c s, F (QCas c s lkey addr rkey)) ->
  F (QWrite (bytes_of_bucket (slot_bucket (hk_hash key) (hk_digest key) (pack_body value Inline) Inline)) lkey addr rkey) ->
  client_prog (T := T) F (try_insert_remote_at xxh64 aligned key value Inline addr rkey fva frk lkey 64)
    (try_insert_remote_at xxh64 aligned key value Inline addr rkey fva frk lkey 64).
Proof.
  intros H1 H2 H3. unfold try_insert_remote_at. cbv zeta.
  apply cp_bind; [by apply cp_read | intros buf]. apply cp_bind; [apply cp_lift | intros b].
  destruct (is_locked b); [apply cp_ret|]. destruct (is_empty b || is_tombstone b); [|apply cp_ret].
  match goal with |- client_prog _ (st_bind (st_ret ?x) ?k1) (st_bind _ ?k2) => change (client_prog F (k1 x) (k2 x)) end.
  cbv beta. apply cp_bind; [apply cp_cas, H2 | intros ok]. destruct ok; [|apply cp_ret].
  apply cp_bind; [by apply cp_write | intros _; apply cp_ret].
Qed.

Section inserters.
Context (xxh64 : list Z -> Z) (t : CuckooTable) (key : nat -> HashedKey) (value : nat -> list Z)
  (clients : gset nat) (rkey va fva frk lkey : Z).

Definition inserter {T} `{Transport T} (i : nat) : stM T RdmaError WriteResult :=
  insert_remote xxh64 true (key i) (value i) Inline va rkey fva frk (bucket_count t) lkey.

(** The two slots of a client. *)
Definition slot_of (i : nat) (s : Z) : Prop := s = h1 t (hk_hash (key i)) \/ s = h2 t (hk_hash (key i)).

Definition slot_bytes (i : nat) : area :=
  fun k x => k = rkey /\ exists s, slot_of i s /\ va + s * 64 <= x < va + s * 64 + 64.

Record insert_setup (M0 : rmem) : Prop := {
  is_table : table_wf t;
  is_served : served M0 rkey va t;
  is_keys : forall i, i ∈ clients -> key_wf (key i) /\ hk_hash (key i) <> 0 /\ Forall is_u8 (value i);
  is_apart : forall i j s, i ∈ clients -> j ∈ clients -> i <> j -> slot_of i s -> ~ slot_of j s
}.

Lemma slot_of_range i s : table_wf t -> slot_of i s -> 0 <= s < len (buckets t).
Proof. intros Hwf [->| ->]; [by apply h1_range | by apply h2_range]. Qed.

Lemma inserter_client {T} `{Transport T} M0 i :
  insert_setup M0 -> i ∈ clients ->
  client_prog (T := T) (within (slot_bytes i) (slot_bytes i)) (inserter i) (inserter i).
Proof.
  intros [Hwf Hs Hk _] Hi. destruct (Hk i Hi) as (Hkw & Hn & Hv).
  assert (Hslot : forall s, slot_of i s -> client_prog (T := T) (within (slot_bytes i) (slot_bytes i))
    (try_insert_remote_at xxh64 true (key i) (value i) Inline (u64 (va + u64 (s * 64))) rkey fva frk lkey 64)
    (try_insert_remote_at xxh64 true (key i) (value i) Inline (u64 (va + u64 (s * 64))) rkey fva frk lkey 64)).
  { intros s Hsl. destruct (served_addr M0 rkey va t s 64 Hwf Hs (slot_of_range i s Hwf Hsl)) as [-> _]; [lia|].
    apply try_insert_client; cbn [within].
    - intros x Hx. split; [done | eauto].
    - intros _ _ x Hx. split; [done|]. exists s. split; [done | lia].
    - intros x. rewrite bucket_bytes_len by (apply slot_bucket_wf, key_entry_wf; [done | done | by apply pack_body_bytes]).
      intros Hx. split; [done | eauto]. }
  unfold inserter, insert_remote. cbv zeta. fold (h1 t (hk_hash (key i))) (h2 t (hk_hash (key i))).
  apply cp_bind; [apply cp_lift | intros _]. apply cp_bind; [apply Hslot; by left | intros ok].
  destruct ok; [apply cp_ret|]. apply cp_bind; [apply Hslot; by right | intros ok]. destruct ok; apply cp_ret.
Qed.

Lemma inserters_apart M0 : insert_setup M0 -> apart inserter inserter clients slot_bytes slot_bytes.
Proof.
  intros Hset. constructor; [by eauto using inserter_client | done |].
  intros i j k x Hi Hj Hne (-> & s & Hs & Hx) (_ & s' & Hs' & Hx').
  apply (is_apart _ Hset i j s Hi Hj Hne Hs). by replace s with s' by lia.
Qed.

(** The lock-free insertions of the clients of [l], one after the other. *)
Fixpoint insert_all (t : CuckooTable) (l : list nat) : exec (CuckooTable * list (result unit CuckooError)) :=
  match l with
  | [] => Done (t, [])
  | i :: l =>
      '(t1, r) ← insert_lock_free t (key i) (value i) Inline;
      '(t2, rs) ← insert_all t1 l;
      Done (t2, r :: rs)
  end.

(** The keys of [l] are fresh in [t1], a table of the same shape. *)
Definition fresh_keys (t1 : CuckooTable) (l : list nat) : Prop :=
  bucket_count t1 = bucket_count t /\ forall i, i ∈ l -> i ∈ clients /\ table_map t1 !! key_of (key i) = None.

Lemma fresh_keys_next M0 t1 i l t2 r :
  insert_setup M0 -> table_wf t1 -> fresh_keys t1 (i :: l) -> i ∉ l ->
  insert_lock_free t1 (key i) (value i) Inline = Done (t2, r) -> table_wf t2 /\ fresh_keys t2 l.
Proof.
  intros Hset Hwf [Hc Hf] Hni E. destruct (Hf i) as [Hi Hfr]; [by left|]. destruct (is_keys _ Hset i Hi) as (Hk & Hn & Hv).
  destruct (insert_lock_free_spec t1 (key i) (value i) Inline Hwf Hk Hn Hv Hfr) as (t2' & r' & E' & Hwf2 & Hm).
  rewrite E in E'. injection E' as <- <-. split; [done|]. split; [by rewrite (insert_lock_free_count _ _ _ _ _ _ E)|].
  intros j Hj. destruct (Hf j) as [Hjc Hjf]; [by right|]. split; [done|]. destruct r as [idx|e].
  - destruct Hm as [old ->]. rewrite lookup_insert_ne; [done|]. intros [= Hh _].
    apply (is_apart _ Hset i j (h1 t (hk_hash (key i)))); [done | done | by intros -> | by left |]. left. by rewrite Hh.
  - by destruct Hm as [_ ->].
Qed.

Lemma insert_all_mirrors M0 l t1 M :
  insert_setup M0 -> NoDup l -> table_wf t1 -> served M rkey va t1 -> fresh_keys t1 l ->
  exists t' rs M' ws, insert_all t1 l = Done (t', rs) /\ in_turn inserter l M = Done (M', ws)
  /\ table_wf t' /\ served M' rkey va t' /\ (forall k, k <> rkey -> M' !! k = M !! k)
  /\ Forall2 (fun r w => exists x, w = Ok x /\ (x = WTableFull <-> r = Err TableFull)) rs ws.
Proof.
  intros Hset Hnd. revert t1 M. induction Hnd as [|i l Hni Hnd IH]; intros t1 M Hwf Hs Hf.
  { by exists t1, [], M, []. }
  destruct (proj2 Hf i) as [Hi Hfr]; [by left|]. destruct (is_keys _ Hset i Hi) as (Hk & Hn & Hv).
  assert (HR : rm_repr M M) by reflexivity.
  destruct (insert_remote_inline xxh64 M rkey va t1 M (key i) (value i) fva frk lkey HR Hwf Hs Hk Hn Hv)
    as (t2 & r & E & M1 & w & M1' & E1 & Hr1 & Hs2 & Hframe & Hw). cbn in Hr1. subst M1'.
  destruct (fresh_keys_next M0 t1 i l t2 r Hset Hwf Hf Hni E) as [Hwf2 Hf2].
  destruct (IH t2 M1 Hwf2 Hs2 Hf2) as (t' & rs & M' & ws & E2 & E3 & Hwf' & Hs' & Hfr' & HF).
  exists t', (r :: rs), M', (Ok w :: ws). split_and!; [|  | done | done | |].
  - cbn [insert_all]. by rewrite E, exec_bind_done, E2, exec_bind_done.
  - cbn [in_turn]. unfold inserter at 1. rewrite <- (proj1 Hf). by rewrite E1, E3.
  - intros k Hk'. rewrite Hfr', Hframe; done.
  - constructor; [by exists w | done].
Qed.
End inserters.

(** C5. Insertions into slots of their own are serialisable: clients insert fresh
    Inline keys whose candidate slots are pairwise different, all at the same time
    on one registered table, with aligned receive buffers.  Every complete interleaving of their operations
    leaves registered exactly the bytes of the table that the lock-free insertions
    leave when they run one after the other, in whatever order, with the same
    answers; the other regions are unchanged. *)
Theorem concurrent_inserts_serialise xxh64 t key value clients rkey va fva frk lkey M0 s l :
  insert_setup t key value clients rkey va M0 ->
  (forall i, i ∈ clients -> table_map t !! key_of (key i) = None) ->
  rtc (sys_step (inserter xxh64 t key value rkey va fva frk lkey) false) (start clients M0) s ->
  (forall i, i ∈ clients -> returned (inserter xxh64 t key value rkey va fva frk lkey) s i) ->
  l ≡ₚ elements clients ->
  exists t' rs, insert_all key value t l = Done (t', rs) /\ table_wf t' /\ served s.1 rkey va t'
  /\ (forall k, k <> rkey -> s.1 !! k = M0 !! k) /\ length rs = length l
  /\ (forall k i r, l !! k = Some i -> rs !! k = Some r ->
        exists h w, s.2 !! i = Some h
          /\ resume (inserter xxh64 t key value rkey va fva frk lkey i) h = Returns (Ok w)
          /\ (w = WTableFull <-> r = Err TableFull)).
Proof.
  intros Hset Hfresh Hr Hc Hl.
  assert (Hnd : NoDup l) by (rewrite Hl; apply NoDup_elements).
  destruct (insert_all_mirrors xxh64 t key value clients rkey va fva frk lkey M0 l t M0 Hset Hnd)
    as (t' & rs & M' & ws & E & Et & Hwf' & Hs' & Hframe & HF); [apply Hset | apply Hset | |].
  { split; [done|]. intros i Hi. rewrite Hl, elem_of_elements in Hi. eauto. }
  destruct (apart_in_turn _ _ clients _ _ M0 s l M' ws (inserters_apart xxh64 t key value clients rkey va fva frk lkey M0 Hset)
    Hl Et Hr Hc) as (-> & Hlen & Hret).
  exists t', rs. split_and!; [done | done | done | done | by rewrite (Forall2_length _ _ _ HF) |].
  intros k i r Hk Hrk. destruct (Forall2_lookup_l _ _ _ _ _ HF Hrk) as (w & Hw & x & -> & Hx).
  destruct (Hret k i _ Hk Hw) as (h & Hh & Eh). by exists h, x.
Qed.

(** Two clients with slots 0, 1 and 2, 3 of an empty table. *)
Definition sample_keys (i : nat) : HashedKey := sample_key (4 + (2 + 2 ^ 33) * Z.of_nat i).
Definition sample_empty : CuckooTable := mkTable (replicate 4 HashBucket_zeroed) 4 16.
Definition sample_empty_mem : rmem := {[ 7 := (4096, table_bytes (buckets sample_empty)) ]}.
Definition sample_inserters : nat -> stM recorder RdmaError WriteResult :=
  inserter (fun _ => 0) sample_empty sample_keys (fun _ => [9]) 7 4096 0 8 0.
Definition sample_inserted : system :=
  schedule sample_inserters [0; 1; 1; 0; 1; 0]%nat (start {[0%nat; 1%nat]} sample_empty_mem).

Lemma sample_empty_wf : table_wf sample_empty.
Proof.
  constructor; try done.
  - repeat constructor; try done; try (by vm_compute); apply bytes_ok_zeros.
  - intros i b Hb Hf. apply lookup_replicate in Hb as [-> _]. by vm_compute in Hf.
  - intros i j b b' k v v' Hb _ He. apply lookup_replicate in Hb as [-> _]. by vm_compute in He.
Qed.

Lemma sample_insert_setup : insert_setup sample_empty sample_keys (fun _ => [9]) {[0%nat; 1%nat]} 7 4096 sample_empty_mem.
Proof.
  assert (Hcl : forall i, i ∈ ({[0%nat; 1%nat]} : gset nat) -> i = 0%nat \/ i = 1%nat).
  { intros i [?%elem_of_singleton|?%elem_of_singleton]%elem_of_union; auto. }
  constructor.
  - apply sample_empty_wf.
  - split; [apply lookup_singleton_eq | unfold is_u32; cbn; lia].
  - intros i [->| ->]%Hcl; (split; [apply sample_key_wf; by vm_compute | split; [by vm_compute |]]);
      repeat constructor; unfold is_u8; lia.
  - intros i j s [->| ->]%Hcl [->| ->]%Hcl Hne; try done; intros [->| ->] [H|H]; by vm_compute in H.
Qed.

Lemma concurrent_inserts_serialise_witness :
  exists t' rs, insert_all sample_keys (fun _ => [9]) sample_empty [1%nat; 0%nat] = Done (t', rs)
    /\ served sample_inserted.1 7 4096 t'.
Proof.
  destruct (concurrent_inserts_serialise (fun _ => 0) sample_empty sample_keys (fun _ => [9]) {[0%nat; 1%nat]} 7 4096 0 8 0
    sample_empty_mem sample_inserted [1%nat; 0%nat]) as (t' & rs & E & _ & Hs & _).
  - apply sample_insert_setup.
  - intros i _. by vm_compute.
  - apply schedule_run.
  - intros i [->%elem_of_singleton| ->%elem_of_singleton]%elem_of_union; do 2 eexists;
      (split; [vm_compute; reflexivity | vm_compute; reflexivity]).
  - by vm_compute.
  - by exists t', rs.
Defined.
