(* ===== verification/RemoteTypes.v ===== *)
(** * RemoteTypes: the types of remote requests and of the memory
    (src/client/read.rs, src/client/write.rs, src/engine/extent.rs)

    A program logic for clients that may rely on well-typed replies, and its use on
    the three remote operations: in every interleaving of any number of them,
    with operations failing, requests carry values of their widths, the regions
    keep their places and lengths and hold bytes, and a client panics only when
    its receive buffer is misaligned or the bucket it read refers to an extent
    larger than can be allocated. *)

From S2P Require Import Prelude Layout Cuckoo CuckooSpec CuckooProps Extent ExtentSpec ExtentProps Errors Client ClientProps Transport Remote RemoteProps Interleave RemoteConc.

Open Scope Z_scope.

(** ** Types *)

Definition bytes_ok (l : list Z) : Prop := Forall is_u8 l.

(** The arguments of a request fit their machine types. *)
Definition request_ok (q : request) : Prop :=
  match q with
  | QRead n _ addr _ => is_u64 n /\ is_u64 addr
  | QWrite buf _ addr _ => bytes_ok buf /\ is_u64 addr
  | QCas compare swap _ addr _ => is_u64 compare /\ is_u64 swap /\ is_u64 addr
  end.

(** The reply is one of this request: a read returns as many bytes as asked. *)
Definition reply_ok (q : request) (a : reply) : Prop :=
  match q, a with
  | QRead n _ _ _, ARead (Ok buf) => len buf = n /\ bytes_ok buf
  | QRead _ _ _ _, ARead (Err _) | QWrite _ _ _ _, AWrite _ | QCas _ _ _ _ _, ACas _ => True
  | _, _ => False
  end.

Definition mem_ok (M : rmem) : Prop := map_Forall (fun _ r => bytes_ok r.2) M.

(** The same regions at the same places with the same lengths. *)
Definition same_regions : rmem -> rmem -> Prop := agree (fun _ _ => False).

Lemma perform_ok M q :
  mem_ok M -> request_ok q ->
  mem_ok (perform M q).1 /\ same_regions (perform M q).1 M /\ reply_ok q (perform M q).2.
Proof.
  intros HM Hq. split_and!.
  - destruct q as [n lkey addr rkey|buf lkey addr rkey|c s lkey addr rkey];
      cbn [perform tr_read tr_write tr_cas mem_transport]; unfold mem_access;
      destruct (M !! rkey) as [[b l]|] eqn:E; try done; case_decide; try done; cbn [fst snd].
    + apply map_Forall_insert_2; [|done]. apply bytes_ok_bwrite; [exact (HM rkey (b, l) E) | exact (proj1 Hq)].
    + destruct (_ =? c); [|done]. apply map_Forall_insert_2; [|done].
      apply bytes_ok_bwrite; [exact (HM rkey (b, l) E) | apply to_le_bytes_ok].
  - apply (perform_apart (fun _ _ => True) (fun _ _ => True)); [by destruct q | intros k x _ []].
  - destruct q as [n lkey addr rkey|buf lkey addr rkey|c s lkey addr rkey];
      cbn [perform tr_read tr_write tr_cas mem_transport]; unfold mem_access;
      destruct (M !! rkey) as [[b l]|] eqn:E; try done; case_decide as Hd; try done; cbn [fst snd reply_ok].
    + destruct Hd as (H1 & H2 & H3). unfold len at 1. rewrite length_bread by lia.
      split; [lia | apply bytes_ok_bread, (HM rkey (b, l) E)].
    + by destruct (_ =? c).
Qed.

Lemma failed_ok q e : reply_ok q (failed q e).
Proof. by destruct q. Qed.

(** ** Programs with typed replies *)

(** Each reply is one of the request it answers. *)
Definition valid {A} (m : stM recorder RdmaError A) (h : list reply) : Prop :=
  forall h1 a h2 q, h = h1 ++ a :: h2 -> resume m h1 = Asks q -> reply_ok q a.

(** What a program did with its replies: it stopped at a question, or used up a
    part of them. *)
Definition regular {A} (m : stM recorder RdmaError A) : Prop :=
  forall h, match m (mkRec h None) with
    | Panic => True
    | Done (t, r) =>
        (exists q, t = mkRec [] (Some q) /\ r = Err suspended)
        \/ exists h1 h2, h = h1 ++ h2 /\ t = mkRec h2 None
             /\ forall rest, m (mkRec (h1 ++ rest) None) = Done (mkRec rest None, r)
    end.

Lemma regular_ret {A} (a : A) : regular (st_ret a).
Proof. intros h. right. by exists [], h. Qed.

Lemma regular_err {A} e : regular (A := A) (st_err e).
Proof. intros h. right. by exists [], h. Qed.

Lemma regular_lift {A} (m : exec A) : regular (st_lift m).
Proof. intros h. unfold st_lift. destruct m; [|done]. right. by exists [], h. Qed.

Lemma regular_bind {A B} m (k : A -> stM recorder RdmaError B) :
  regular m -> (forall a, regular (k a)) -> regular (st_bind m k).
Proof.
  intros Hm Hk h. unfold st_bind. specialize (Hm h). destruct (m (mkRec h None)) as [[t r]|]; [|done].
  destruct Hm as [(q & -> & ->)|(h1 & h2 & -> & -> & Hr)]; [by left; exists q|]. destruct r as [a|e].
  - specialize (Hk a h2). destruct (k a (mkRec h2 None)) as [[t r]|]; [|done].
    destruct Hk as [(q & -> & ->)|(g1 & g2 & -> & -> & Hr2)]; [by left; exists q|].
    right. exists (h1 ++ g1), g2. split_and!; [by rewrite <- app_assoc | done|].
    intros rest. by rewrite <- app_assoc, Hr, Hr2.
  - right. exists h1, h2. split_and!; [done | done|]. intros rest. by rewrite Hr.
Qed.

(** A single question. *)
Lemma regular_ask {A} take q : regular (fun t => Done (ask (A := A) take q t)).
Proof. intros h. unfold ask. destruct h as [|a h]; cbn; [left; eauto|]. right. by exists [a], h. Qed.

Ltac regular_tac :=
  repeat first
    [ apply regular_ret | apply regular_err | apply regular_lift | apply regular_ask
    | apply regular_bind; [|intros ?]
    | match goal with |- regular (if ?b then _ else _) => destruct b end
    | match goal with |- regular (match ?b with _ => _ end) => destruct b end ].

Section typed.
(** The read replies after which a program may panic. *)
Context (cause : list Z -> Prop).

(** The requests are well-typed and nothing panics, except right after a reply
    that is a [cause], as long as the replies are typed; then a result satisfies
    [Q]. *)
Inductive typed : forall {A}, stM recorder RdmaError A -> (A -> Prop) -> Prop :=
| ty_ret {A} (a : A) (Q : A -> Prop) : Q a -> typed (st_ret a) Q
| ty_err {A} e (Q : A -> Prop) : typed (st_err e) Q
| ty_lift {A} (m : exec A) (Q : A -> Prop) a : m = Done a -> Q a -> typed (st_lift m) Q
| ty_bind {A B} m (k : A -> stM recorder RdmaError B) P Q :
    regular m -> typed m P -> (forall a, P a -> typed (k a) Q) -> typed (st_bind m k) Q
| ty_read_then {B} panics n lkey addr rkey (k : list Z -> stM recorder RdmaError B) (Q : B -> Prop) :
    request_ok (QRead n lkey addr rkey) ->
    (forall buf, len buf = n -> bytes_ok buf -> panics buf = false -> typed (k buf) Q) ->
    (forall buf, panics buf = true -> cause buf /\ forall t, k buf t = Panic) ->
    typed (st_bind (m_read n lkey addr rkey) k) Q
| ty_read n lkey addr rkey (Q : list Z -> Prop) :
    request_ok (QRead n lkey addr rkey) -> (forall buf, len buf = n -> bytes_ok buf -> Q buf) ->
    typed (m_read n lkey addr rkey) Q
| ty_write buf lkey addr rkey (Q : unit -> Prop) :
    request_ok (QWrite buf lkey addr rkey) -> Q tt -> typed (m_write buf lkey addr rkey) Q
| ty_cas compare swap lkey addr rkey (Q : bool -> Prop) :
    request_ok (QCas compare swap lkey addr rkey) -> (forall b, Q b) -> typed (m_cas compare swap lkey addr rkey) Q.

Lemma valid_bind_l {A B} m (k : A -> stM recorder RdmaError B) h :
  regular m -> valid (st_bind m k) h -> valid m h.
Proof.
  intros Hm Hv h1 a h2 q -> Hq. apply (Hv h1 a h2 q eq_refl). revert Hq. unfold resume, st_bind.
  specialize (Hm h1). destruct (m (mkRec h1 None)) as [[t r]|]; [|done].
  destruct Hm as [(q' & -> & ->)|(g1 & g2 & _ & -> & _)]; [by intros [= ->] | discriminate].
Qed.

Lemma valid_bind_r {A B} m (k : A -> stM recorder RdmaError B) a h1 h2 :
  (forall rest, m (mkRec (h1 ++ rest) None) = Done (mkRec rest None, Ok a)) ->
  valid (st_bind m k) (h1 ++ h2) -> valid (k a) h2.
Proof.
  intros Hm Hv g1 b g2 q -> Hq. apply (Hv (h1 ++ g1) b g2 q); [by rewrite app_assoc|].
  revert Hq. unfold resume, st_bind. by rewrite Hm.
Qed.

Lemma typed_sound {A} (m : stM recorder RdmaError A) Q h :
  typed m Q -> valid m h ->
  match m (mkRec h None) with
  | Panic => exists buf, ARead (Ok buf) ∈ h /\ cause buf
  | Done (t, r) => (forall q, rc_asked t = Some q -> request_ok q) /\ (forall a, r = Ok a -> Q a)
  end.
Proof.
  intros Ht. revert h. induction Ht as [A a Q HQ|A e Q|A m Q a E HQ|A B m k P Q Hm _ IH _ IHk
    |B panics n lkey addr rkey k Q Hq _ IHk Hp|n lkey addr rkey Q Hq HQ
    |buf lkey addr rkey Q Hq HQ|c s lkey addr rkey Q Hq HQ]; intros h Hv.
  - split; [done | by intros ? [= <-]].
  - by split.
  - unfold st_lift. rewrite E. split; [done | by intros ? [= <-]].
  - unfold st_bind. specialize (IH h (valid_bind_l m k h Hm Hv)). specialize (Hm h).
    destruct (m (mkRec h None)) as [[t r]|]; [|done]. destruct IH as [H1 H2]. destruct r as [a|e]; [|by split].
    destruct Hm as [(q & _ & [=])|(h1 & h2 & -> & -> & Hr)].
    specialize (IHk a (H2 a eq_refl) h2 (valid_bind_r m k a h1 h2 Hr Hv)).
    destruct (k a (mkRec h2 None)) as [[t r]|]; [done|]. destruct IHk as (buf & Hin & Hc).
    exists buf. split; [by apply elem_of_app; right | done].
  - assert (Hread : regular (m_read n lkey addr rkey)) by apply regular_ask.
    pose proof (valid_bind_l _ k h Hread Hv) as Hv1. destruct h as [|a h].
    { cbn. split; [intros ? [= <-]; exact Hq | done]. }
    pose proof (Hv1 [] a h _ eq_refl eq_refl) as Ha. unfold st_bind, m_read. cbn. unfold ask.
    destruct a as [[buf|e]| |]; try done. cbn.
    assert (Hvk : valid (k buf) h) by (apply (valid_bind_r (m_read n lkey addr rkey) k buf [ARead (Ok buf)] h); [done | exact Hv]).
    destruct (panics buf) eqn:Eb.
    + destruct (Hp buf Eb) as [Hc Hpan]. rewrite Hpan. exists buf. split; [by apply list_elem_of_here | done].
    + specialize (IHk buf (proj1 Ha) (proj2 Ha) Eb h Hvk). destruct (k buf (mkRec h None)) as [[t r]|]; [done|].
      destruct IHk as (buf' & Hin & Hc). exists buf'. split; [by apply list_elem_of_further | done].
  - unfold m_read. cbn. unfold ask. destruct h as [|a h]; cbn; [split; [intros ? [= <-]; exact Hq | done]|].
    pose proof (Hv [] a h _ eq_refl eq_refl) as Ha. split; [done|]. intros buf Hb.
    destruct a as [[l|e]| |]; cbn in Hb, Ha; try done. injection Hb as <-. apply HQ; apply Ha.
  - unfold m_write. cbn. unfold ask. destruct h as [|a h]; cbn; [split; [intros ? [= <-]; exact Hq | done]|].
    split; [done|]. by intros [] _.
  - unfold m_cas. cbn. unfold ask. destruct h as [|a h]; cbn; [split; [intros ? [= <-]; exact Hq | done]|].
    split; [done|]. intros b _. apply HQ.
Qed.

End typed.

(** ** The remote operations *)

Lemma bucket_of_bytes_wf l : len l = 64 -> bytes_ok l -> bucket_wf (bucket_of_bytes l).
Proof.
  intros Hl Hb. assert (Hlen : forall o n, 0 <= o -> 0 <= n -> o + n <= 64 -> length (bread o n l) = Z.to_nat n)
    by (intros; apply length_bread; lia).
  assert (H8 : forall o, 0 <= o -> o + 8 <= 64 -> is_u64 (from_le (bread o 8 l))).
  { intros o H1 H2. pose proof (from_le_range _ (bytes_ok_bread o 8 l Hb)) as Hr.
    unfold len in Hr. rewrite Hlen in Hr by lia. exact Hr. }
  constructor; cbn; [apply H8; lia | apply H8; lia | by apply (Hlen 16 16) | by apply bytes_ok_bread
    | by apply (Hlen 32 32) | by apply bytes_ok_bread].
Qed.

Lemma extent_ref_typed b : bucket_wf b -> is_u64 (extent_ref b).1 /\ is_u64 (extent_ref b).2.
Proof.
  intros [_ _ _ _ Hl Hb].
  assert (H8 : forall o, 0 <= o -> o + 8 <= 32 -> is_u64 (from_le (bread o 8 (body b)))).
  { intros o H1 H2. pose proof (from_le_range _ (bytes_ok_bread o 8 _ Hb)) as Hr. unfold len in Hr.
    rewrite length_bread in Hr by (unfold len; lia). exact Hr. }
  split; apply H8; lia.
Qed.

Definition value_ok (v : ReadResult) : Prop := bytes_ok (rr_value v).

(** The length in the bucket is more than can be allocated. *)
Definition oversized (b : HashBucket) : bool := negb (is_inline b) && (MAX_ALLOC <? (extent_ref b).2).

Definition slot_hit (key : HashedKey) (b : HashBucket) : bool :=
  negb (is_locked b) && matches_key b (hk_hash key) (hk_digest key).

(** A misaligned receive buffer, or an entry of the key that is too large. *)
Definition get_cause (aligned : bool) (key : HashedKey) (buf : list Z) : Prop :=
  aligned = false \/ (slot_hit key (bucket_of_bytes buf) = true /\ oversized (bucket_of_bytes buf) = true).

Lemma extract_oversized b lva lrk lkey (t : recorder) :
  oversized b = true -> extract_value b lva lrk lkey t = Panic.
Proof.
  unfold oversized, extract_value. intros [Hi Ho]%andb_prop. destruct (is_inline b); [done|].
  destruct (extent_ref b) as [o n]. cbn [snd] in Ho. unfold st_bind, st_lift.
  apply Z.ltb_lt in Ho. by rewrite (proj2 (Z.leb_gt _ _) Ho).
Qed.

Section operations.
Context (aligned : bool) (cause : list Z -> Prop) (Hal : aligned = false -> forall buf, cause buf).

Lemma typed_extract b lva lrk lkey :
  bucket_wf b -> oversized b = false -> typed cause (extract_value b lva lrk lkey) value_ok.
Proof using.
  intros Hb Ho. unfold extract_value, oversized in *. destruct (is_inline b); [apply ty_ret, Hb|].
  pose proof (extent_ref_typed b Hb) as [_ Hn]. destruct (extent_ref b) as [o n]. cbn in Ho, Hn.
  eapply (ty_bind _ _ _ (fun _ => True)); [apply regular_lift | |].
  { apply (ty_lift _ _ _ tt); [|done]. apply Z.ltb_ge in Ho. by rewrite (proj2 (Z.leb_le _ _) Ho). }
  intros _ _. eapply (ty_bind _ _ _ bytes_ok); [apply regular_ask | | by intros buf Hbuf; apply ty_ret].
  apply ty_read; [split; [done | apply u64_range] | done].
Qed.

(** One slot: the read, the decoding, and what follows. *)
Lemma typed_slot {A} panics lkey addr rkey (k : HashBucket -> stM recorder RdmaError A) Q :
  is_u64 addr -> (forall b, bucket_wf b -> panics b = false -> typed cause (k b) Q) ->
  (forall buf, panics (bucket_of_bytes buf) = true -> cause buf /\ forall t, k (bucket_of_bytes buf) t = Panic) ->
  typed cause (st_bind (m_read 64 lkey addr rkey)
    (fun buf => st_bind (st_lift (bucket_from_bytes aligned buf)) k)) Q.
Proof using Hal.
  intros Ha Hk Hp.
  apply (ty_read_then _ (fun buf => negb aligned || ((len buf =? 64) && panics (bucket_of_bytes buf)))); [by split | |].
  - intros buf Hl Hb Hno. apply orb_false_elim in Hno as [Hal'%negb_false_iff Hno]. subst aligned.
    rewrite Hl in Hno. cbn in Hno. apply (ty_bind _ _ _ (fun b => bucket_wf b /\ panics b = false));
      [apply regular_lift | | by intros b [? ?]; apply Hk].
    apply (ty_lift _ _ _ (bucket_of_bytes buf)); [unfold bucket_from_bytes; by rewrite Hl|].
    split; [by apply bucket_of_bytes_wf | done].
  - intros buf Hpan. destruct aligned; cbn in Hpan; [|by split; [apply Hal|]].
    apply andb_prop in Hpan as [Hl Hpan]. destruct (Hp buf Hpan) as [Hc Hk']. split; [done|].
    intros t. unfold st_bind, st_lift, bucket_from_bytes. rewrite Hl. cbn. apply Hk'.
Qed.
End operations.

Lemma typed_found cause b lva lrk lkey :
  bucket_wf b -> oversized b = false ->
  typed cause (st_bind (extract_value b lva lrk lkey) (fun v => st_ret (Some v))) (fun v => forall r, v = Some r -> value_ok r).
Proof.
  intros Hb Ho. apply (ty_bind _ _ _ value_ok); [unfold extract_value; regular_tac | by apply typed_extract |].
  intros v Hv. apply ty_ret. by intros r [= <-].
Qed.

Lemma typed_get aligned key va rk lva lrk count lkey :
  typed (get_cause aligned key) (get_remote aligned key va rk lva lrk count lkey) (fun v => forall r, v = Some r -> value_ok r).
Proof.
  unfold get_remote. destruct (hk_hash key =? 0); [apply ty_err|]. destruct (is_power_of_two count); [|apply ty_err].
  cbn [negb]. cbv zeta.
  assert (Hal : aligned = false -> forall buf, get_cause aligned key buf) by (intros; by left).
  assert (Hslot : forall addr (rest : stM recorder RdmaError (option ReadResult)), is_u64 addr ->
    typed (get_cause aligned key) rest (fun v => forall r, v = Some r -> value_ok r) ->
    typed (get_cause aligned key) (st_bind (m_read 64 lkey addr rk) (fun buf =>
      st_bind (st_lift (bucket_from_bytes aligned buf)) (fun b =>
        if slot_hit key b then st_bind (extract_value b lva lrk lkey) (fun v => st_ret (Some v)) else rest)))
      (fun v => forall r, v = Some r -> value_ok r)).
  { intros addr rest Ha Hrest. apply (typed_slot _ _ Hal (fun b => slot_hit key b && oversized b)); [done | |].
    - intros b Hb Hno. destruct (slot_hit key b); [by apply typed_found | done].
    - intros buf [Hh Ho]%andb_prop. split; [by right|]. intros t. rewrite Hh. unfold st_bind. by rewrite extract_oversized. }
  apply Hslot; [apply u64_range|]. apply Hslot; [apply u64_range | by apply ty_ret].
Qed.

Lemma header_bytes_ok data : bytes_ok (bytes_of_header_v2 (remote_header data)).
Proof.
  unfold bytes_ok, bytes_of_header_v2, remote_header. cbn [h2_magic h2_version h2_pad1 h2_data_len h2_pad2 h2_epoch_mark h2_checksum].
  rewrite !Forall_app. split_and!; (apply to_le_bytes_ok || apply bytes_ok_zeros).
Qed.

Lemma typed_allocate cause xxh64 a data :
  is_u64 (da_free_list_vaddr a) -> bytes_ok data -> typed cause (allocate_remote xxh64 a data) is_u64.
Proof.
  intros Hva Hd. unfold allocate_remote. cbv zeta.
  apply (ty_bind _ _ _ (fun buf => len buf = 8 /\ bytes_ok buf)); [apply regular_ask | apply ty_read; [by split|done] |].
  intros buf [Hl Hb]. assert (Ho : is_u64 (from_le buf)) by (pose proof (from_le_range buf Hb) as Hr; by rewrite Hl in Hr).
  apply (ty_bind _ _ _ (fun _ => True)); [apply regular_ask | apply ty_cas; [split_and!; [done | apply u64_range | done] | done] |].
  intros ok _. destruct ok; [|apply ty_err]. cbn [negb].
  assert (Hw : forall x addr, bytes_ok x -> typed cause (m_write x (da_local_lkey a) (u64 addr) (da_free_list_rkey a)) (fun _ => True)).
  { intros x addr Hx. apply ty_write; [split; [done | apply u64_range] | done]. }
  apply (ty_bind _ _ _ (fun _ => True)); [apply regular_ask | apply Hw, header_bytes_ok | intros _ _].
  apply (ty_bind _ _ _ (fun _ => True)); [apply regular_ask | by apply Hw | intros _ _].
  apply (ty_bind _ _ _ (fun _ => True)); [apply regular_ask | apply Hw, to_le_bytes_ok | intros _ _; by apply ty_ret].
Qed.

Lemma bucket_bytes_ok b : bucket_wf b -> bytes_ok (bytes_of_bucket b).
Proof. intros [_ _ _ Hd _ Hb]. unfold bytes_ok, bytes_of_bucket. rewrite !Forall_app. auto using to_le_bytes_ok. Qed.

(** The bucket that an insertion builds in either mode. *)
Lemma typed_new_bucket cause xxh64 key value mode fva frk lkey :
  is_u64 fva -> key_wf key -> bytes_ok value ->
  typed cause (match mode with
         | Inline => st_ret (set_inline_value (mkBucket (shl64 (mode_u64 mode) 2) (hk_hash key) (hk_digest key) (zeros 32)) (inline_bytes value))
         | Extent => st_bind (allocate_remote xxh64 (mkDistAlloc fva frk lkey []) value) (fun old_offset =>
             st_ret (set_extent_ref (mkBucket (shl64 (mode_u64 mode) 2) (hk_hash key) (hk_digest key) (zeros 32)) old_offset (len value)))
         end) bucket_wf.
Proof.
  intros Hva [H1 H2 H3] Hv.
  assert (Hb : bucket_wf (mkBucket (shl64 (mode_u64 mode) 2) (hk_hash key) (hk_digest key) (zeros 32))).
  { constructor; [by destruct mode; vm_compute | done | done | done | done | apply (bytes_ok_zeros 32)]. }
  destruct mode.
  - destruct (pack_body_bytes value Inline Hv) as [Hl Hok]. apply ty_ret. destruct Hb. by constructor.
  - apply (ty_bind _ _ _ is_u64); [unfold allocate_remote; cbv zeta; regular_tac | by apply typed_allocate |].
    intros o _. by apply ty_ret, set_extent_ref_wf.
Qed.

Lemma typed_try_insert aligned xxh64 key value mode addr rkey fva frk lkey :
  is_u64 addr -> is_u64 fva -> key_wf key -> bytes_ok value ->
  typed (fun _ => aligned = false) (try_insert_remote_at xxh64 aligned key value mode addr rkey fva frk lkey 64) (fun _ => True).
Proof.
  intros Ha Hf Hk Hv. unfold try_insert_remote_at. cbv zeta. apply (typed_slot aligned _ (fun E _ => E) (fun _ => false)); [done | | done]. intros b Hb _.
  destruct (is_locked b); [by apply ty_ret|]. destruct (is_empty b || is_tombstone b); [|by apply ty_ret].
  apply (ty_bind _ _ _ bucket_wf); [unfold allocate_remote; cbv zeta; regular_tac | by apply typed_new_bucket |].
  intros nb Hnb. apply (ty_bind _ _ _ (fun _ => True)); [apply regular_ask | |].
  { apply ty_cas; [split_and!; [apply Hb | apply Hnb | done] | done]. }
  intros ok _. destruct ok; [|by apply ty_ret].
  apply (ty_bind _ _ _ (fun _ => True)); [apply regular_ask | | intros _ _; by apply ty_ret].
  apply ty_write; [split; [by apply bucket_bytes_ok | done] | done].
Qed.

Lemma typed_insert aligned xxh64 key value mode va rk fva frk count lkey :
  count <> 0 -> is_u64 fva -> key_wf key -> bytes_ok value ->
  typed (fun _ => aligned = false) (insert_remote xxh64 aligned key value mode va rk fva frk count lkey) (fun _ => True).
Proof.
  intros Hc Hf Hk Hv. unfold insert_remote. cbv zeta.
  assert (Hreg : forall addr, regular (try_insert_remote_at xxh64 aligned key value mode addr rk fva frk lkey 64)).
  { intros addr. unfold try_insert_remote_at, allocate_remote. cbv zeta. regular_tac. }
  apply (ty_bind _ _ _ (fun _ => True)); [apply regular_lift | |].
  { apply (ty_lift _ _ _ tt); [|done]. by rewrite (proj2 (Z.eqb_neq count 0)). }
  intros _ _. apply (ty_bind _ _ _ (fun _ => True)); [apply Hreg | by apply typed_try_insert; [apply u64_range|..] |].
  intros ok _. destruct ok; [by apply ty_ret|].
  apply (ty_bind _ _ _ (fun _ => True)); [apply Hreg | by apply typed_try_insert; [apply u64_range|..] |].
  intros ok _. destruct ok; by apply ty_ret.
Qed.

(** ** Systems of clients *)

(** What a client of the system does; [aligned] is whether its receive buffer
    happens to be. *)
Inductive remote_op : Type :=
| OpGet (aligned : bool) (key : HashedKey) (va rk lva lrk count lkey : Z)
| OpInsert (aligned : bool) (key : HashedKey) (value : list Z) (mode : BucketMode) (va rk fva frk count lkey : Z)
| OpAllocate (a : DistributedExtentAllocator) (data : list Z).

Inductive remote_result : Type :=
| GotValue (v : option ReadResult)
| Wrote (w : WriteResult)
| Allocated (offset : Z).

Definition remote_client (xxh64 : list Z -> Z) {T} `{Transport T} (op : remote_op) : stM T RdmaError remote_result :=
  match op with
  | OpGet aligned key va rk lva lrk count lkey =>
      st_bind (get_remote aligned key va rk lva lrk count lkey) (fun v => st_ret (GotValue v))
  | OpInsert aligned key value mode va rk fva frk count lkey =>
      st_bind (insert_remote xxh64 aligned key value mode va rk fva frk count lkey) (fun w => st_ret (Wrote w))
  | OpAllocate a data => st_bind (allocate_remote xxh64 a data) (fun o => st_ret (Allocated o))
  end.

(** The arguments fit their machine types, and the table has buckets. *)
Definition op_ok (op : remote_op) : Prop :=
  match op with
  | OpGet _ _ _ _ _ _ _ _ => True
  | OpInsert _ key value _ _ _ fva _ count _ => count <> 0 /\ is_u64 fva /\ key_wf key /\ bytes_ok value
  | OpAllocate a data => is_u64 (da_free_list_vaddr a) /\ bytes_ok data
  end.

Definition result_ok (r : remote_result) : Prop :=
  match r with
  | GotValue (Some v) => value_ok v
  | GotValue None | Wrote _ => True
  | Allocated o => is_u64 o
  end.

(** The bucket after which a client may panic. *)
Definition panic_cause (op : remote_op) (buf : list Z) : Prop :=
  match op with
  | OpGet aligned key _ _ _ _ _ _ => get_cause aligned key buf
  | OpInsert aligned _ _ _ _ _ _ _ _ _ => aligned = false
  | OpAllocate _ _ => False
  end.

Lemma typed_client xxh64 op : op_ok op -> typed (panic_cause op) (remote_client xxh64 op) result_ok.
Proof.
  destruct op as [aligned key va rk lva lrk count lkey|aligned key value mode va rk fva frk count lkey|a data]; cbn [remote_client op_ok].
  - intros _. apply (ty_bind _ _ _ (fun v => forall r, v = Some r -> value_ok r));
      [unfold get_remote, extract_value; cbv zeta; regular_tac | apply typed_get|].
    intros [v|] Hv; apply ty_ret; [by apply Hv | done].
  - intros (Hc & Hf & Hk & Hv). apply (ty_bind _ _ _ (fun _ => True)); [| by apply typed_insert | intros w _; by apply ty_ret].
    unfold insert_remote, try_insert_remote_at, allocate_remote. cbv zeta. regular_tac.
  - intros [Ha Hd]. apply (ty_bind _ _ _ is_u64); [unfold allocate_remote; cbv zeta; regular_tac | by apply typed_allocate|].
    intros o Ho. by apply ty_ret.
Qed.

Section typed_system.
Context {A : Type} (prog : nat -> stM recorder RdmaError A) (cause : nat -> list Z -> Prop) (Q : A -> Prop)
  (clients : gset nat) (M0 : rmem) (Hprog : forall i, i ∈ clients -> typed (cause i) (prog i) Q).

Record typed_inv (s : system) : Prop := {
  ti_dom : dom s.2 = clients;
  ti_mem : mem_ok s.1;
  ti_regions : same_regions s.1 M0;
  ti_valid : forall i h, s.2 !! i = Some h -> valid (prog i) h
}.

Lemma valid_snoc i h q a :
  valid (prog i) h -> resume (prog i) h = Asks q -> reply_ok q a -> valid (prog i) (h ++ [a]).
Proof.
  intros Hv Hq Ha h1 b h2 q' E Hq'. destruct h2 as [|c h2 _] using rev_ind.
  - apply app_inj_tail in E as [-> ->]. congruence.
  - rewrite app_comm_cons, app_assoc in E. apply app_inj_tail in E as [-> _]. by eapply Hv.
Qed.

Lemma typed_resume i h :
  i ∈ clients -> valid (prog i) h ->
  match resume (prog i) h with
  | Asks q => request_ok q
  | Returns r => forall a, r = Ok a -> Q a
  | Panics => exists buf, ARead (Ok buf) ∈ h /\ cause i buf
  end.
Proof using Hprog.
  intros Hi Hv. pose proof (typed_sound (cause i) (prog i) Q h (Hprog i Hi) Hv) as H. unfold resume.
  destruct (prog i (mkRec h None)) as [[t r]|]; [|done]. destruct H as [H1 H2].
  destruct (rc_asked t); [by apply H1 | exact H2].
Qed.

Lemma typed_inv_step faults s s' : sys_step prog faults s s' -> typed_inv s -> typed_inv s'.
Proof using Hprog.
  intros Hs [HT HM HR Hv]. assert (Hdom : forall i (h h' : list reply) (T : gmap nat (list reply)), T !! i = Some h -> dom T = clients ->
    i ∈ clients /\ dom (<[i := h']> T) = clients).
  { intros i h h' T Hi HD. apply elem_of_dom_2 in Hi. rewrite dom_insert_L. set_solver. }
  assert (Hnext : forall M T i h q M' a, T !! i = Some h -> resume (prog i) h = Asks q -> dom T = clients ->
    (forall j g, T !! j = Some g -> valid (prog j) g) -> mem_ok M -> same_regions M M0 ->
    M' = M \/ M' = (perform M q).1 -> reply_ok q a -> typed_inv (M', <[i := h ++ [a]]> T)).
  { intros M T i h q M' a Hi Hq HD Hall Hm Hr HM' Ha. destruct (Hdom i h (h ++ [a]) T Hi HD) as [Hic HD'].
    pose proof (typed_resume i h Hic (Hall i h Hi)) as Hok. rewrite Hq in Hok.
    destruct (perform_ok M q Hm Hok) as (Hm' & Hr' & _). constructor; cbn; [done | by destruct HM' as [->| ->] | |].
    - destruct HM' as [->| ->]; [done|]. by transitivity M.
    - intros j g [[<- <-]|[_ Hj]]%lookup_insert_Some; [by eapply valid_snoc; [apply Hall | |] | by apply Hall]. }
  destruct Hs as [M T i h q Hi Hq|M T i h q M' e _ Hi Hq HM']; cbn [fst snd] in *.
  - eapply (Hnext M); [done.. | by right |].
    destruct (Hdom i h h T Hi HT) as [Hic _]. pose proof (typed_resume i h Hic (Hv i h Hi)) as Hok.
    rewrite Hq in Hok. by apply perform_ok.
  - eapply (Hnext M); [done.. | apply failed_ok].
Qed.

Lemma typed_inv_reachable faults s : mem_ok M0 -> rtc (sys_step prog faults) (start clients M0) s -> typed_inv s.
Proof using Hprog.
  intros HM Hr. assert (H0 : typed_inv (start clients M0)).
  { constructor; cbn; [apply dom_gset_to_gmap | done | reflexivity |].
    intros i h [_ <-]%lookup_gset_to_gmap_Some h1 a h2 q E _. by destruct h1. }
  revert H0. induction Hr as [|s1 s2 s3 Hs _ IH]; [done|]. intros H0. by eapply IH, typed_inv_step.
Qed.
End typed_system.

(** ** Properties *)

(** C8. Type safety of remote clients: any number of clients run reads,
    insertions (Inline or Extent) and allocations at the same time on one remote
    memory, in any interleaving, with any operation reported as failed whether
    or not it took effect; their arguments are of their types and the bucket
    count is not 0. In every reachable state each region is where it was, has
    the length it had, and holds bytes; each client's next request has arguments
    that fit their machine types; and a client that returned a value or an
    offset returned bytes or a 64-bit number. A client panics only after reading
    a bucket, and only if its receive buffer is not 64-byte aligned, or if it is
    a reader and the bucket is an entry of its key whose extent length exceeds
    what can be allocated; an allocation never panics. Both do happen
    ([misaligned_client_panics], [oversized_extent_panics]). *)
Theorem remote_clients_typed xxh64 (ops : nat -> remote_op) clients M0 faults s :
  mem_ok M0 -> (forall i, i ∈ clients -> op_ok (ops i)) ->
  rtc (sys_step (fun i => remote_client xxh64 (ops i)) faults) (start clients M0) s ->
  mem_ok s.1 /\ same_regions s.1 M0
  /\ forall i h, s.2 !! i = Some h ->
       match resume (remote_client xxh64 (ops i)) h with
       | Asks q => request_ok q
       | Returns r => forall a, r = Ok a -> result_ok a
       | Panics => exists buf, ARead (Ok buf) ∈ h /\ panic_cause (ops i) buf
       end.
Proof.
  intros HM Hops Hr.
  assert (Hprog : forall i, i ∈ clients -> typed (panic_cause (ops i)) (remote_client xxh64 (ops i)) result_ok)
    by (intros; by apply typed_client, Hops).
  destruct (typed_inv_reachable _ (fun i => panic_cause (ops i)) result_ok clients M0 Hprog faults s HM Hr) as [HT Hm HR Hv].
  split_and!; [done | done|]. intros i h Hi.
  apply (typed_resume (fun i => remote_client xxh64 (ops i)) (fun i => panic_cause (ops i)) result_ok clients Hprog);
    [|by apply Hv].
  rewrite <- HT. by eapply elem_of_dom_2.
Qed.

(** A reader of a key and a writer that stores it in an extent, interleaved. *)
Definition sample_ops (i : nat) : remote_op :=
  match i with
  | O => OpInsert true (sample_key 4) [9] Extent 4096 7 4096 3 2 0
  | _ => OpGet true (sample_key 4) 4096 7 4096 3 2 0
  end.

Definition sample_mixed : system :=
  schedule (fun i => remote_client (fun _ => 5) (sample_ops i)) (replicate 7 0%nat ++ [1%nat; 0%nat; 1%nat])
    (start {[0%nat; 1%nat]} race_memory).

Lemma race_memory_ok : mem_ok race_memory.
Proof.
  pose proof (bucket_bytes_ok _ HashBucket_zeroed_wf) as Hb. unfold race_memory, mem_ok.
  apply map_Forall_insert_2; [|apply map_Forall_singleton]; unfold bytes_ok; cbn [snd].
  - unfold table_bytes. change (mjoin _) with (bytes_of_bucket HashBucket_zeroed ++ bytes_of_bucket HashBucket_zeroed ++ []).
    rewrite !Forall_app. by split_and!.
  - rewrite Forall_app. split; [apply to_le_bytes_ok | apply bytes_ok_zeros].
Qed.

Lemma remote_clients_typed_witness :
  mem_ok sample_mixed.1 /\ same_regions sample_mixed.1 race_memory.
Proof.
  destruct (remote_clients_typed (fun _ => 5) sample_ops {[0%nat; 1%nat]} race_memory false sample_mixed) as (H1 & H2 & _).
  - apply race_memory_ok.
  - intros i [->%elem_of_singleton| ->%elem_of_singleton]%elem_of_union; cbn; [|done].
    split_and!; [lia | unfold is_u64; lia | by apply sample_key_wf; unfold is_u64; lia |].
    repeat constructor; unfold is_u8; lia.
  - apply schedule_run.
  - by split.
Defined.

(** A client whose receive buffer is misaligned panics as soon as it has read a
    bucket, whatever the bucket holds. *)
Theorem misaligned_client_panics {T} `{Transport T} xxh64 key value mode va rk fva frk lva lrk count lkey (tr tr' : T) buf :
  hk_hash key <> 0 -> is_power_of_two count = true -> count <> 0 ->
  tr_read tr 64 lkey (u64 (va + u64 (hk_hash key mod count * 64))) rk = (tr', Ok buf) ->
  get_remote false key va rk lva lrk count lkey tr = Panic
  /\ insert_remote xxh64 false key value mode va rk fva frk count lkey tr = Panic.
Proof.
  intros Hk Hp Hc E. unfold get_remote, insert_remote, try_insert_remote_at.
  rewrite (proj2 (Z.eqb_neq _ 0) Hk), Hp, (proj2 (Z.eqb_neq _ 0) Hc). cbn [negb].
  unfold st_bind, st_lift, m_read. cbn. rewrite E. by split.
Qed.

(** An Extent entry of the key with a length of [2^63] bytes. *)
Example oversized_extent_panics :
  get_remote true (sample_key 4) 4096 7 0x10000 8 2 0
    ({[ 7 := (4096, table_bytes [slot_bucket 4 (zeros 16) (extent_body 0 (2 ^ 63)) Extent; HashBucket_zeroed]) ]} : rmem)
  = Panic.
Proof. by vm_compute. Qed.
