(* ===== verification/Tcp.v ===== *)
(** * Tcp: the TCP transport (src/transport/tcp.rs)

    [read], [write] and [cas] of [TcpTransport] on a byte stream.  The peer at
    the other end is the parameter [serve]: what it does with the bytes it has
    received; the connection may break after any number of bytes in either
    direction.  The class [FrameServer] states the documented frame protocol for
    it, and an in-memory server satisfies it.  The theorem: over such a peer and a
    connection that stays up the transport is a healthy remote memory, so the remote client theorems hold
    over TCP. *)

From S2P Require Import Prelude Layout Errors Transport.

Open Scope Z_scope.
Local Open Scope rdmas_scope.

Definition OP_READ : Z := 0x01.
Definition OP_WRITE : Z := 0x02.
Definition OP_CAS : Z := 0x03.

(** ** The byte stream *)

(** [serve p bytes] consumes a prefix of the received bytes; it returns the new
    peer, the bytes left and its response. *)
Class Peer (P : Type) : Type := serve : P -> list Z -> P * list Z * list Z.

(** [ts_sent] has not been served yet, [ts_received] has not been read yet.
    [ts_out] and [ts_in] are how many more bytes the connection carries in each
    direction before it breaks; [None] if it does not. *)
Record TcpStream (P : Type) : Type := mkStream {
  ts_peer : P;
  ts_sent : list Z;
  ts_received : list Z;
  ts_out : option Z;
  ts_in : option Z
}.
Arguments mkStream {P}.
Arguments ts_out {P}.
Arguments ts_in {P}.
Arguments ts_peer {P}.
Arguments ts_sent {P}.
Arguments ts_received {P}.

Record TcpTransport (P : Type) : Type := mkTcp {
  tt_stream : TcpStream P;
  tt_request_id : Z
}.
Arguments mkTcp {P}.
Arguments tt_stream {P}.
Arguments tt_request_id {P}.

Section tcp.
Context {P : Type} `{Peer P}.
Abbreviation tcpM := (stM (TcpTransport P) RdmaError).

Definition set_stream (t : TcpTransport P) (s : TcpStream P) : TcpTransport P := mkTcp s (tt_request_id t).

(** What a direction with a remaining capacity carries, and what it then has left. *)
Definition carried (capacity : option Z) (bytes : list Z) : list Z * option Z :=
  match capacity with
  | None => (bytes, None)
  | Some n => (take (Z.to_nat n) bytes, Some (Z.max 0 (n - len bytes)))
  end.

(** [stream.write_all(bytes)]: what is carried before an error has been sent. *)
Definition write_all (bytes : list Z) : tcpM unit := fun t =>
  let s := tt_stream t in
  let '(sent, out) := carried (ts_out s) bytes in
  Done (set_stream t (mkStream (ts_peer s) (ts_sent s ++ sent) (ts_received s) out (ts_in s)),
        if len sent =? len bytes then Ok tt else Err (Internal "Broken pipe (os error 32)")).

(** [stream.read_exact(&mut [0; n])]: the peer gets what was sent; too few bytes
    from it are an end of file, after which there is nothing to read. *)
Definition read_exact (n : Z) : tcpM (list Z) := fun t =>
  let s := tt_stream t in
  let '(p, rest, response) := serve (ts_peer s) (ts_sent s) in
  let '(arrived, inn) := carried (ts_in s) response in
  let received := ts_received s ++ arrived in
  if n <=? len received
  then Done (set_stream t (mkStream p rest (drop (Z.to_nat n) received) (ts_out s) inn), Ok (take (Z.to_nat n) received))
  else Done (set_stream t (mkStream p rest [] (ts_out s) (Some 0)), Err (Internal "early eof")).

(** [opened] and [nodelay] are what [TcpStream::connect] and [set_nodelay] answer. *)
Definition TcpTransport_connect (addr : string) (opened : result (TcpStream P) string) (nodelay : result unit string)
  : result (TcpTransport P) RdmaError :=
  match opened with
  | Err e => Err (Internal ("TCP connect to " +:+ addr +:+ ": " +:+ e))
  | Ok stream =>
      match nodelay with
      | Err e => Err (Internal ("set_nodelay: " +:+ e))
      | Ok _ => Ok (mkTcp stream 1)
      end
  end.

(** A reconnect makes a new transport. *)
Definition tcp_reconnect (t : TcpTransport P) (server_addr : string) (opened : result (TcpStream P) string) (nodelay : result unit string)
  : result (TcpTransport P) RdmaError := TcpTransport_connect server_addr opened nodelay.

(** [request_id.fetch_add(1)]. *)
Definition next_request_id : tcpM Z := fun t =>
  Done (mkTcp (tt_stream t) (u64 (tt_request_id t + 1)), Ok (tt_request_id t)).

(** ** The three operations *)

(** [n] is the length of the caller's buffer, which is zero before the call. *)
Definition tcp_read (n remote_addr rkey : Z) : tcpM (list Z) :=
  let! req_id := next_request_id in
  write_all [OP_READ] ;;!
  write_all (to_le 8 req_id) ;;!
  write_all (to_le 8 remote_addr) ;;!
  write_all (to_le 4 rkey) ;;!
  write_all (to_le 4 (u32 n)) ;;!
  let! header := read_exact 13 in
  let! status := st_lift (vec_get header 8) in
  if negb (status =? 0) then st_err (Internal "TCP READ failed")
  else
    let data_len := from_le (bread 9 4 header) in
    let copy_len := Z.min data_len n in
    let! data := read_exact data_len in
    let! src := st_lift (slice data 0 copy_len) in
    st_lift (slice_write (zeros (Z.to_nat n)) 0 copy_len src).

Definition tcp_write (buf : list Z) (remote_addr rkey : Z) : tcpM unit :=
  let! req_id := next_request_id in
  write_all [OP_WRITE] ;;!
  write_all (to_le 8 req_id) ;;!
  write_all (to_le 8 remote_addr) ;;!
  write_all (to_le 4 rkey) ;;!
  write_all (to_le 4 (u32 (len buf))) ;;!
  write_all buf ;;!
  let! resp := read_exact 9 in
  let! status := st_lift (vec_get resp 8) in
  if negb (status =? 0) then st_err (Internal "TCP WRITE failed") else st_ret tt.

Definition tcp_cas (compare swap remote_addr rkey : Z) : tcpM bool :=
  let! req_id := next_request_id in
  write_all [OP_CAS] ;;!
  write_all (to_le 8 req_id) ;;!
  write_all (to_le 8 remote_addr) ;;!
  write_all (to_le 4 rkey) ;;!
  write_all (to_le 8 compare) ;;!
  write_all (to_le 8 swap) ;;!
  let! resp := read_exact 10 in
  let! status := st_lift (vec_get resp 8) in
  let! swapped := st_lift (vec_get resp 9) in
  st_ret ((status =? 0) && (swapped =? 1)).
End tcp.

(** ** Frames *)

Definition read_frame (req_id addr rkey n : Z) : list Z :=
  [OP_READ] ++ to_le 8 req_id ++ to_le 8 addr ++ to_le 4 rkey ++ to_le 4 n.
Definition write_frame (req_id addr rkey : Z) (buf : list Z) : list Z :=
  [OP_WRITE] ++ to_le 8 req_id ++ to_le 8 addr ++ to_le 4 rkey ++ to_le 4 (len buf) ++ buf.
Definition cas_frame (req_id addr rkey compare swap : Z) : list Z :=
  [OP_CAS] ++ to_le 8 req_id ++ to_le 8 addr ++ to_le 4 rkey ++ to_le 8 compare ++ to_le 8 swap.

(** A request whose fields have their widths. *)
Inductive frame : list Z -> Prop :=
| frame_read id addr rkey n : is_u64 id -> is_u64 addr -> is_u32 rkey -> is_u32 n -> frame (read_frame id addr rkey n)
| frame_write id addr rkey buf :
    is_u64 id -> is_u64 addr -> is_u32 rkey -> is_u32 (len buf) -> frame (write_frame id addr rkey buf)
| frame_cas id addr rkey compare swap :
    is_u64 id -> is_u64 addr -> is_u32 rkey -> is_u64 compare -> is_u64 swap -> frame (cas_frame id addr rkey compare swap).

(** The access lies in no registered region. *)
Definition outside (M : rmem) (rkey addr n : Z) : Prop :=
  forall base bytes, M !! rkey = Some (base, bytes) -> ~ in_region base bytes addr n.

(** The documented protocol: a peer that holds the regions [M] answers each frame
    with the request id, the status and the data.  An access outside the regions
    is answered with an error status and changes nothing; a frame that breaks off
    is not acted on. *)
Class FrameServer (P : Type) `{Peer P} : Type := {
  fs_repr : rmem -> P -> Prop;
  fs_idle M p : fs_repr M p -> serve p [] = (p, [], []);
  fs_read M p id rkey base bytes addr n :
    fs_repr M p -> M !! rkey = Some (base, bytes) -> access_ok base bytes rkey addr n -> is_u64 id ->
    serve p (read_frame id addr rkey n)
    = (p, [], to_le 8 id ++ [0] ++ to_le 4 n ++ bread (addr - base) n bytes);
  fs_write M p id rkey base bytes addr buf :
    fs_repr M p -> M !! rkey = Some (base, bytes) -> access_ok base bytes rkey addr (len buf) -> is_u64 id ->
    exists p', serve p (write_frame id addr rkey buf) = (p', [], to_le 8 id ++ [0])
      /\ fs_repr (<[rkey := (base, bwrite (addr - base) buf bytes)]> M) p';
  fs_cas M p id rkey base bytes addr compare swap :
    fs_repr M p -> M !! rkey = Some (base, bytes) -> access_ok base bytes rkey addr 8 -> is_u64 id ->
    is_u64 compare -> is_u64 swap ->
    let found := from_le (bread (addr - base) 8 bytes) =? compare in
    exists p', serve p (cas_frame id addr rkey compare swap)
        = (p', [], to_le 8 id ++ [0] ++ [if found then 1 else 0])
      /\ fs_repr (if found then <[rkey := (base, bwrite (addr - base) (to_le 8 swap) bytes)]> M else M) p';
  fs_read_err M p id rkey addr n :
    fs_repr M p -> outside M rkey addr n -> is_u32 rkey -> is_u64 addr -> is_u32 n -> is_u64 id ->
    serve p (read_frame id addr rkey n) = (p, [], to_le 8 id ++ [1] ++ to_le 4 0);
  fs_write_err M p id rkey addr buf :
    fs_repr M p -> outside M rkey addr (len buf) -> is_u32 rkey -> is_u64 addr -> is_u32 (len buf) -> is_u64 id ->
    serve p (write_frame id addr rkey buf) = (p, [], to_le 8 id ++ [1]);
  fs_cas_err M p id rkey addr compare swap :
    fs_repr M p -> outside M rkey addr 8 -> is_u32 rkey -> is_u64 addr -> is_u64 id ->
    is_u64 compare -> is_u64 swap ->
    serve p (cas_frame id addr rkey compare swap) = (p, [], to_le 8 id ++ [1] ++ [0]);
  fs_partial M p f k :
    fs_repr M p -> frame f -> (k < length f)%nat -> fs_repr M (serve p (take k f)).1.1
}.

(** ** The transport over a frame server *)

Section healthy.
Context {P : Type} `{FrameServer P}.
Implicit Types (t : TcpTransport P) (M : rmem) (p : P).

(** The connection is between requests and does not break. *)
Definition tcp_repr M t : Prop :=
  fs_repr M (ts_peer (tt_stream t)) /\ ts_sent (tt_stream t) = [] /\ ts_received (tt_stream t) = []
  /\ is_u64 (tt_request_id t) /\ ts_out (tt_stream t) = None /\ ts_in (tt_stream t) = None.

Definition sent_state p (sent : list Z) (id : Z) : TcpTransport P := mkTcp (mkStream p sent [] None None) id.

(** A new connection to a peer that holds the memory. *)
Lemma tcp_connect_repr M addr peer t :
  fs_repr M peer -> TcpTransport_connect addr (Ok (mkStream peer [] [] None None)) (Ok tt) = Ok t -> tcp_repr M t.
Proof. intros Hp [= <-]. by split_and!. Qed.

Lemma read_exact_response p p' sent id resp n :
  serve p sent = (p', [], resp) -> n <= len resp ->
  read_exact n (sent_state p sent id)
  = Done (mkTcp (mkStream p' [] (drop (Z.to_nat n) resp) None None) id, Ok (take (Z.to_nat n) resp)).
Proof.
  intros Hs Hn. unfold read_exact, sent_state.
  cbn [tt_stream ts_peer ts_sent ts_received ts_out ts_in app].
  rewrite Hs. cbn [carried]. by rewrite (proj2 (Z.leb_le _ _)).
Qed.

Lemma read_exact_rest M p id data :
  fs_repr M p ->
  read_exact (len data) (mkTcp (mkStream p [] data None None) id) = Done (sent_state p [] id, Ok data).
Proof.
  intros Hp. unfold read_exact.
  cbn [tt_stream ts_peer ts_sent ts_received ts_out ts_in].
  rewrite (fs_idle M p Hp). cbn [carried]. rewrite app_nil_r, Z.leb_refl. unfold len. rewrite Nat2Z.id, take_ge, drop_ge by lia. done.
Qed.

(** Sending a frame piece by piece is sending the frame. *)
Lemma write_all_app {A} a b (k : stM (TcpTransport P) RdmaError A) t :
  (write_all a ;;! write_all b ;;! k) t = (write_all (a ++ b) ;;! k) t.
Proof.
  destruct t as [[p sent rec [n|] i] id]; unfold st_bind, write_all; cbn [tt_stream ts_peer ts_sent ts_received ts_out ts_in carried].
  - unfold len. rewrite !length_take, length_app.
    destruct (decide (Z.to_nat n < length a)%nat) as [Ha|Ha].
    + rewrite !(proj2 (Z.eqb_neq _ _)) by lia. rewrite take_app_le by lia.
      by replace (Z.max 0 (n - Z.of_nat (length a))) with (Z.max 0 (n - Z.of_nat (length a + length b))) by lia.
    + rewrite (proj2 (Z.eqb_eq (Z.of_nat (Nat.min (Z.to_nat n) (length a))) _)) by lia.
      cbn [set_stream tt_stream ts_peer ts_sent ts_received ts_out ts_in carried tt_request_id]. rewrite length_take.
      replace (Z.to_nat (Z.max 0 (n - Z.of_nat (length a)))) with (Z.to_nat n - length a)%nat by lia.
      rewrite (take_app_ge a b) by lia. rewrite (take_ge a) by lia. rewrite app_assoc.
      replace (Z.max 0 (Z.max 0 (n - Z.of_nat (length a)) - len b)) with (Z.max 0 (n - Z.of_nat (length a + length b)))
        by (unfold len; lia). unfold len.
      destruct (decide (Z.of_nat (Nat.min (Z.to_nat n - length a) (length b)) = Z.of_nat (length b))) as [E|E].
      * by rewrite !(proj2 (Z.eqb_eq _ _)) by lia.
      * by rewrite !(proj2 (Z.eqb_neq _ _)) by lia.
  - rewrite !Z.eqb_refl. cbn [set_stream tt_stream ts_peer ts_sent ts_received ts_out ts_in carried tt_request_id].
    by rewrite Z.eqb_refl, app_assoc.
Qed.

Definition read_reply (n : Z) : stM (TcpTransport P) RdmaError (list Z) :=
  let! header := read_exact 13 in
  let! status := st_lift (vec_get header 8) in
  if negb (status =? 0) then st_err (Internal "TCP READ failed")
  else
    let! data := read_exact (from_le (bread 9 4 header)) in
    let! src := st_lift (slice data 0 (Z.min (from_le (bread 9 4 header)) n)) in
    st_lift (slice_write (zeros (Z.to_nat n)) 0 (Z.min (from_le (bread 9 4 header)) n) src).

Definition write_reply : stM (TcpTransport P) RdmaError unit :=
  let! resp := read_exact 9 in
  let! status := st_lift (vec_get resp 8) in
  if negb (status =? 0) then st_err (Internal "TCP WRITE failed") else st_ret tt.

Definition cas_reply : stM (TcpTransport P) RdmaError bool :=
  let! resp := read_exact 10 in
  let! status := st_lift (vec_get resp 8) in
  let! swapped := st_lift (vec_get resp 9) in
  st_ret ((status =? 0) && (swapped =? 1)).

(** The state of the transport once the request has its id. *)
Definition numbered t : TcpTransport P := mkTcp (tt_stream t) (u64 (tt_request_id t + 1)).

Lemma tcp_read_sends n addr rkey t :
  tcp_read n addr rkey t = (write_all (read_frame (tt_request_id t) addr rkey (u32 n)) ;;! read_reply n) (numbered t).
Proof.
  unfold tcp_read, read_frame. unfold st_bind at 1, next_request_id. fold (numbered t).
  by rewrite !write_all_app, <- !app_assoc.
Qed.

Lemma tcp_write_sends buf addr rkey t :
  is_u32 (len buf) ->
  tcp_write buf addr rkey t = (write_all (write_frame (tt_request_id t) addr rkey buf) ;;! write_reply) (numbered t).
Proof.
  intros Hl. unfold tcp_write, write_frame. unfold st_bind at 1, next_request_id. fold (numbered t).
  by rewrite (u32_small (len buf) Hl), !write_all_app, <- !app_assoc.
Qed.

Lemma tcp_cas_sends compare swap addr rkey t :
  tcp_cas compare swap addr rkey t
  = (write_all (cas_frame (tt_request_id t) addr rkey compare swap) ;;! cas_reply) (numbered t).
Proof.
  unfold tcp_cas, cas_frame. unfold st_bind at 1, next_request_id. fold (numbered t).
  by rewrite !write_all_app, <- !app_assoc.
Qed.

(** On a connection that does not break. *)
Lemma write_all_up {A} p id frame (k : stM (TcpTransport P) RdmaError A) :
  (write_all frame ;;! k) (numbered (sent_state p [] id)) = k (sent_state p frame (u64 (id + 1))).
Proof. unfold st_bind, write_all. cbn. by rewrite Z.eqb_refl. Qed.
Lemma tcp_repr_state M t :
  tcp_repr M t -> exists p id, t = sent_state p [] id /\ fs_repr M p /\ is_u64 id.
Proof. destruct t as [[p sent rec o i] id]. intros (Hp & Hs & Hr & Hid & Ho & Hi). cbn in *. subst. by exists p, id. Qed.

Lemma tcp_repr_sent M p id : fs_repr M p -> tcp_repr M (sent_state p [] (u64 id)).
Proof. intros Hp. split_and!; [done | done | done | apply u64_range | done | done]. Qed.

Lemma tcp_read_spec M t rkey base bytes n addr :
  tcp_repr M t -> M !! rkey = Some (base, bytes) -> access_ok base bytes rkey addr n ->
  exists t', tcp_read n addr rkey t = Done (t', Ok (bread (addr - base) n bytes)) /\ tcp_repr M t'.
Proof.
  intros (p & id & -> & Hp & Hid)%tcp_repr_state HM Ha.
  pose proof Ha as ((Hb & Hn0 & Hend) & _ & _ & Hn).
  assert (Hdata : len (bread (addr - base) n bytes) = n) by (unfold len; rewrite length_bread by lia; lia).
  set (data := bread (addr - base) n bytes) in *.
  rewrite tcp_read_sends, write_all_up, (u32_small n Hn). unfold read_reply. pose proof (fs_read M p id rkey base bytes addr n Hp HM Ha Hid) as Hs.
  fold data in Hs. set (resp := to_le 8 id ++ [0] ++ to_le 4 n ++ data) in *.
  assert (Hresp : resp = (to_le 8 id ++ [0] ++ to_le 4 n) ++ data) by (unfold resp; by rewrite <- !app_assoc).
  assert (Hh : length (to_le 8 id ++ [0] ++ to_le 4 n) = 13%nat) by reflexivity.
  unfold st_bind at 1. rewrite (read_exact_response _ _ _ _ _ _ Hs) by (rewrite Hresp; unfold len; rewrite length_app, Hh; lia).
  rewrite Hresp. change (Z.to_nat 13) with 13%nat. rewrite <- Hh, take_app_length, drop_app_length.
  unfold st_bind at 1. change (vec_get (to_le 8 id ++ [0] ++ to_le 4 n) 8) with (Done 0).
  cbn [st_lift Z.eqb negb].
  change (bread 9 4 (to_le 8 id ++ [0] ++ to_le 4 n)) with (to_le 4 n). rewrite from_le_to_le_4 by done.
  unfold st_bind at 1. replace (read_exact n) with (read_exact (P := P) (len data)) by (by rewrite Hdata). rewrite (read_exact_rest M) by done.
  rewrite Z.min_id. unfold st_bind. rewrite slice_Done by lia. cbn [st_lift].
  rewrite Z.sub_0_r, (bread_all data) by done.
  rewrite slice_write_Done by (rewrite ?len_zeros; lia). eexists. split; [|by apply tcp_repr_sent].
  do 2 f_equal. f_equal. rewrite <- (app_nil_r data) at 2. unfold bwrite. cbn [Z.to_nat take app].
  rewrite drop_ge; [done|]. unfold zeros. rewrite length_replicate. unfold len in Hdata. lia.
Qed.

Lemma tcp_read_error M t rkey n addr :
  tcp_repr M t -> outside M rkey addr n -> is_u32 rkey -> is_u64 addr -> is_u32 n ->
  exists t', tcp_read n addr rkey t = Done (t', Err (Internal "TCP READ failed")) /\ tcp_repr M t'.
Proof.
  intros (p & id & -> & Hp & Hid)%tcp_repr_state HM Hrk Ha Hn. rewrite tcp_read_sends, write_all_up, (u32_small n Hn). unfold read_reply.
  unfold st_bind at 1. rewrite (read_exact_response _ _ _ _ _ _ (fs_read_err M p id rkey addr n Hp HM Hrk Ha Hn Hid)) by (by vm_compute).
  eexists. split; [reflexivity|]. by apply tcp_repr_sent.
Qed.

Lemma tcp_write_error M t rkey buf addr :
  tcp_repr M t -> outside M rkey addr (len buf) -> is_u32 rkey -> is_u64 addr -> is_u32 (len buf) ->
  exists t', tcp_write buf addr rkey t = Done (t', Err (Internal "TCP WRITE failed")) /\ tcp_repr M t'.
Proof.
  intros (p & id & -> & Hp & Hid)%tcp_repr_state HM Hrk Ha Hn. rewrite tcp_write_sends, write_all_up by done. unfold write_reply.
  unfold st_bind at 1. rewrite (read_exact_response _ _ _ _ _ _ (fs_write_err M p id rkey addr buf Hp HM Hrk Ha Hn Hid)) by (by vm_compute).
  eexists. split; [reflexivity|]. by apply tcp_repr_sent.
Qed.

(** [cas] has no error branch of its own: a refused request looks like a lost
    comparison. *)
Lemma tcp_cas_refused_is_false M t rkey compare swap addr :
  tcp_repr M t -> outside M rkey addr 8 -> is_u32 rkey -> is_u64 addr -> is_u64 compare -> is_u64 swap ->
  exists t', tcp_cas compare swap addr rkey t = Done (t', Ok false) /\ tcp_repr M t'.
Proof.
  intros (p & id & -> & Hp & Hid)%tcp_repr_state HM Hrk Ha Hc Hs. rewrite tcp_cas_sends, write_all_up. unfold cas_reply.
  unfold st_bind at 1. rewrite (read_exact_response _ _ _ _ _ _ (fs_cas_err M p id rkey addr compare swap Hp HM Hrk Ha Hid Hc Hs)) by (by vm_compute).
  eexists. split; [reflexivity|]. by apply tcp_repr_sent.
Qed.

Lemma tcp_write_spec M t rkey base bytes buf addr :
  tcp_repr M t -> M !! rkey = Some (base, bytes) -> access_ok base bytes rkey addr (len buf) ->
  exists t', tcp_write buf addr rkey t = Done (t', Ok tt)
    /\ tcp_repr (<[rkey := (base, bwrite (addr - base) buf bytes)]> M) t'.
Proof.
  intros (p & id & -> & Hp & Hid)%tcp_repr_state HM Ha. rewrite tcp_write_sends, write_all_up by apply Ha. unfold write_reply.
  destruct (fs_write M p id rkey base bytes addr buf Hp HM Ha Hid) as (p' & Hs & Hp').
  unfold st_bind at 1. rewrite (read_exact_response _ _ _ _ _ _ Hs) by (by vm_compute).
  eexists. split; [reflexivity|]. by apply tcp_repr_sent.
Qed.

Lemma tcp_cas_spec M t rkey base bytes compare swap addr :
  tcp_repr M t -> M !! rkey = Some (base, bytes) -> access_ok base bytes rkey addr 8 ->
  is_u64 compare -> is_u64 swap ->
  let found := from_le (bread (addr - base) 8 bytes) =? compare in
  exists t', tcp_cas compare swap addr rkey t = Done (t', Ok found)
    /\ tcp_repr (if found then <[rkey := (base, bwrite (addr - base) (to_le 8 swap) bytes)]> M else M) t'.
Proof.
  intros (p & id & -> & Hp & Hid)%tcp_repr_state HM Ha Hc Hsw found. rewrite tcp_cas_sends, write_all_up. unfold cas_reply.
  destruct (fs_cas M p id rkey base bytes addr compare swap Hp HM Ha Hid Hc Hsw) as (p' & Hs & Hp').
  fold found in Hs, Hp'. unfold st_bind at 1. rewrite (read_exact_response _ _ _ _ _ _ Hs) by (by vm_compute).
  eexists. split; [by destruct found|]. by apply tcp_repr_sent.
Qed.

#[export] Instance tcp_info : TransportInfo (TcpTransport P) := {| tr_is_rdma _ := false; tr_name _ := "TCP" |}.

(** A panic of the code would abort the request; on the sizes the stream
    returns there is none. *)
Definition finished {A} (m : stM (TcpTransport P) RdmaError A) (t : TcpTransport P)
  : TcpTransport P * result A RdmaError :=
  match m t with Done r => r | Panic => (t, Err (Internal "panic")) end.

#[export] Instance tcp_transport : Transport (TcpTransport P) := {|
  tr_read t n _ addr rkey := finished (tcp_read n addr rkey) t;
  tr_write t buf _ addr rkey := finished (tcp_write buf addr rkey) t;
  tr_cas t compare swap _ addr rkey := finished (tcp_cas compare swap addr rkey) t
|}.

#[export] Instance tcp_remote : RemoteMemory (TcpTransport P).
Proof.
  refine (Build_RemoteMemory _ tcp_transport tcp_repr _ _ _).
  - intros M t rkey base bytes n lkey addr Ht HM Ha. cbn. unfold finished.
    destruct (tcp_read_spec M t rkey base bytes n addr Ht HM Ha) as (t' & -> & Ht'). by exists t'.
  - intros M t rkey base bytes buf lkey addr Ht HM Ha. cbn. unfold finished.
    destruct (tcp_write_spec M t rkey base bytes buf addr Ht HM Ha) as (t' & -> & Ht'). by exists t'.
  - intros M t rkey base bytes compare swap lkey addr Ht HM Ha Hc Hs found. cbn. unfold finished.
    destruct (tcp_cas_spec M t rkey base bytes compare swap addr Ht HM Ha Hc Hs) as (t' & -> & Ht'). by exists t'.
Defined.
End healthy.

(** ** An in-memory frame server *)

(** Whether the bytes after the opcode hold a whole request. *)
Definition complete (op : Z) (args : list Z) : bool :=
  if op =? OP_READ then 24 <=? len args
  else if op =? OP_WRITE then (24 <=? len args) && (24 + from_le (bread 20 4 args) <=? len args)
  else if op =? OP_CAS then 36 <=? len args
  else false.

(** It waits for a frame, decodes it and performs the access on its regions. *)
#[export] Instance mem_peer : Peer rmem := fun M bytes =>
  match bytes with
  | [] => (M, [], [])
  | op :: args =>
      if negb (complete op args) then (M, bytes, []) else
      let id := bread 0 8 args in
      let addr := from_le (bread 8 8 args) in
      let rkey := from_le (bread 16 4 args) in
      let n := from_le (bread 20 4 args) in
      if op =? OP_READ then
        match tr_read M n 0 addr rkey with
        | (M, Ok data) => (M, [], id ++ [0] ++ to_le 4 n ++ data)
        | (M, Err _) => (M, [], id ++ [1] ++ to_le 4 0)
        end
      else if op =? OP_WRITE then
        match tr_write M (bread 24 n args) 0 addr rkey with
        | (M, Ok _) => (M, [], id ++ [0])
        | (M, Err _) => (M, [], id ++ [1])
        end
      else if op =? OP_CAS then
        match tr_cas M (from_le (bread 20 8 args)) (from_le (bread 28 8 args)) 0 addr rkey with
        | (M, Ok swapped) => (M, [], id ++ [0] ++ [if (swapped : bool) then 1 else 0])
        | (M, Err _) => (M, [], id ++ [1] ++ [0])
        end
      else (M, bytes, [])
  end.

Lemma frame_args id addr rkey (rest : list Z) :
  is_u64 addr -> is_u32 rkey ->
  let args := to_le 8 id ++ to_le 8 addr ++ to_le 4 rkey ++ rest in
  bread 0 8 args = to_le 8 id /\ from_le (bread 8 8 args) = addr /\ from_le (bread 16 4 args) = rkey
  /\ (forall k k' n, 0 <= k -> k' = 20 + k -> bread k' n args = bread k n rest).
Proof.
  intros Ha Hr args. split_and!.
  - reflexivity.
  - change (bread 8 8 args) with (to_le 8 addr). by apply from_le_to_le_8.
  - change (bread 16 4 args) with (to_le 4 rkey). by apply from_le_to_le_4.
  - intros k k' n Hk ->. unfold bread. rewrite Z2Nat.inj_add by lia. change (Z.to_nat 20) with 20%nat.
    by rewrite <- drop_drop.
Qed.

Lemma take_short k c (l : list Z) : Z.of_nat k < c -> (c <=? len (take k l)) = false.
Proof. intros Hk. apply Z.leb_gt. unfold len. rewrite length_take. lia. Qed.

(** A frame holds a whole request, and no less of it does. *)
Definition whole_request (f : list Z) : Prop :=
  match f with
  | op :: args => complete op args = true /\ forall k, (k < length args)%nat -> complete op (take k args) = false
  | [] => False
  end.

Lemma frame_complete f : frame f -> whole_request f.
Proof.
  intros [id addr rkey n _ Ha Hr Hn|id addr rkey buf _ Ha Hr Hb|id addr rkey c sw _ Ha Hr Hc Hs].
  - split; [done|]. intros k Hk. change (k < 24)%nat in Hk. apply take_short. lia.
  - set (args := to_le 8 id ++ to_le 8 addr ++ to_le 4 rkey ++ to_le 4 (len buf) ++ buf).
    assert (Hl : length args = (24 + length buf)%nat) by reflexivity.
    assert (Hn : forall k, (24 <= k)%nat -> from_le (bread 20 4 (take k args)) = len buf).
    { intros k Hk. replace k with (24 + (k - 24))%nat by lia. change (from_le (to_le 4 (len buf)) = len buf). by apply from_le_to_le_4. }
    pose (whole args := (24 <=? len args) && (24 + from_le (bread 20 4 args) <=? len args)).
    change (whole args = true /\ forall k, (k < length args)%nat -> whole (take k args) = false). unfold whole. split.
    + pose proof (Hn (length args) ltac:(lia)) as E. rewrite take_ge in E by lia. rewrite E.
      apply andb_true_iff. split; apply Z.leb_le; unfold len; rewrite Hl; lia.
    + intros k Hk. destruct (decide (24 <= k)%nat) as [H24|H24]; [|by rewrite take_short by lia].
      rewrite (Hn k H24), (take_short k (24 + len buf)) by (unfold len; lia). apply andb_false_r.
  - split; [done|]. intros k Hk. change (k < 36)%nat in Hk. apply take_short. lia.
Qed.

(** Serving a whole frame. *)
Lemma mem_peer_frame M op args :
  frame (op :: args) -> serve M (op :: args)
  = let id := bread 0 8 args in
    let addr := from_le (bread 8 8 args) in
    let rkey := from_le (bread 16 4 args) in
    let n := from_le (bread 20 4 args) in
    if op =? OP_READ then
      match tr_read M n 0 addr rkey with
      | (M, Ok data) => (M, [], id ++ [0] ++ to_le 4 n ++ data)
      | (M, Err _) => (M, [], id ++ [1] ++ to_le 4 0)
      end
    else if op =? OP_WRITE then
      match tr_write M (bread 24 n args) 0 addr rkey with
      | (M, Ok _) => (M, [], id ++ [0])
      | (M, Err _) => (M, [], id ++ [1])
      end
    else if op =? OP_CAS then
      match tr_cas M (from_le (bread 20 8 args)) (from_le (bread 28 8 args)) 0 addr rkey with
      | (M, Ok swapped) => (M, [], id ++ [0] ++ [if (swapped : bool) then 1 else 0])
      | (M, Err _) => (M, [], id ++ [1] ++ [0])
      end
    else (M, op :: args, []).
Proof. intros Hf. destruct (frame_complete _ Hf) as [E _]. unfold serve, mem_peer. by rewrite E. Qed.

Lemma mem_access_outside {A} M rkey addr n (f : Z -> list Z -> rmem * A) :
  outside M rkey addr n -> mem_access M rkey addr n f = (M, Err access_error).
Proof.
  intros Ho. unfold mem_access. destruct (M !! rkey) as [[base bytes]|] eqn:E; [|done].
  by rewrite decide_False by (by apply Ho).
Qed.

#[export] Instance mem_server : FrameServer rmem.
Proof.
  refine (Build_FrameServer rmem mem_peer (fun M p => p = M) _ _ _ _ _ _ _ _).
  - by intros M p ->.
  - intros M p id rkey base bytes addr n -> HM Ha Hid. pose proof Ha as (_ & Hrk & Had & Hn).
    destruct (frame_args id addr rkey (to_le 4 n) Had Hrk) as (E1 & E2 & E3 & E4).
    unfold read_frame. cbn [app]. rewrite mem_peer_frame by (by apply frame_read). cbv zeta. change (OP_READ =? OP_READ) with true. cbn iota.
    rewrite E1, E2, E3. rewrite (E4 0 20 4) by lia. change (bread 0 4 (to_le 4 n)) with (to_le 4 n).
    rewrite from_le_to_le_4 by done.
    cbn [tr_read mem_transport]. unfold mem_access. by rewrite HM, decide_True by apply Ha.
  - intros M p id rkey base bytes addr buf -> HM Ha Hid. pose proof Ha as (_ & Hrk & Had & Hn).
    destruct (frame_args id addr rkey (to_le 4 (len buf) ++ buf) Had Hrk) as (E1 & E2 & E3 & E4).
    unfold write_frame. cbn [app]. rewrite mem_peer_frame by (by apply frame_write). cbv zeta. change (OP_WRITE =? OP_READ) with false.
    change (OP_WRITE =? OP_WRITE) with true. cbn iota.
    rewrite E1, E2, E3. rewrite (E4 0 20 4) by lia.
    change (bread 0 4 (to_le 4 (len buf) ++ buf)) with (to_le 4 (len buf)). rewrite from_le_to_le_4 by done.
    rewrite (E4 4 24 (len buf)) by lia. change (bread 4 (len buf) (to_le 4 (len buf) ++ buf)) with (bread 0 (len buf) buf).
    rewrite bread_all by done.
    cbn [tr_write mem_transport]. unfold mem_access. rewrite HM, decide_True by apply Ha. by eexists.
  - intros M p id rkey base bytes addr compare swap -> HM Ha Hid Hc Hs found. pose proof Ha as (_ & Hrk & Had & Hn).
    destruct (frame_args id addr rkey (to_le 8 compare ++ to_le 8 swap) Had Hrk) as (E1 & E2 & E3 & E4).
    unfold cas_frame. cbn [app]. rewrite mem_peer_frame by (by apply frame_cas). cbv zeta. change (OP_CAS =? OP_READ) with false.
    change (OP_CAS =? OP_WRITE) with false. change (OP_CAS =? OP_CAS) with true. cbn iota.
    rewrite E1, E2, E3. rewrite (E4 0 20 8), (E4 8 28 8) by lia.
    change (bread 0 8 (to_le 8 compare ++ to_le 8 swap)) with (to_le 8 compare).
    change (bread 8 8 (to_le 8 compare ++ to_le 8 swap)) with (to_le 8 swap).
    rewrite !from_le_to_le_8 by done. cbn [tr_cas mem_transport]. unfold mem_access.
    rewrite HM, decide_True by apply Ha. fold found. destruct found; by eexists.
  - intros M p id rkey addr n -> HM Hrk Had Hn Hid.
    destruct (frame_args id addr rkey (to_le 4 n) Had Hrk) as (E1 & E2 & E3 & E4).
    unfold read_frame. cbn [app]. rewrite mem_peer_frame by (by apply frame_read). cbv zeta. change (OP_READ =? OP_READ) with true. cbn iota.
    rewrite E1, E2, E3. rewrite (E4 0 20 4) by lia. change (bread 0 4 (to_le 4 n)) with (to_le 4 n).
    rewrite from_le_to_le_4 by done. cbn [tr_read mem_transport]. by rewrite mem_access_outside.
  - intros M p id rkey addr buf -> HM Hrk Had Hn Hid.
    destruct (frame_args id addr rkey (to_le 4 (len buf) ++ buf) Had Hrk) as (E1 & E2 & E3 & E4).
    unfold write_frame. cbn [app]. rewrite mem_peer_frame by (by apply frame_write). cbv zeta. change (OP_WRITE =? OP_READ) with false.
    change (OP_WRITE =? OP_WRITE) with true. cbn iota.
    rewrite E1, E2, E3. rewrite (E4 0 20 4) by lia. change (bread 0 4 (to_le 4 (len buf) ++ buf)) with (to_le 4 (len buf)).
    rewrite from_le_to_le_4 by done. rewrite (E4 4 24 (len buf)) by lia.
    change (bread 4 (len buf) (to_le 4 (len buf) ++ buf)) with (bread 0 (len buf) buf). rewrite bread_all by done.
    cbn [tr_write mem_transport]. by rewrite mem_access_outside.
  - intros M p id rkey addr compare swap -> HM Hrk Had Hid Hc Hs.
    destruct (frame_args id addr rkey (to_le 8 compare ++ to_le 8 swap) Had Hrk) as (E1 & E2 & E3 & E4).
    unfold cas_frame. cbn [app]. rewrite mem_peer_frame by (by apply frame_cas). cbv zeta. change (OP_CAS =? OP_READ) with false.
    change (OP_CAS =? OP_WRITE) with false. change (OP_CAS =? OP_CAS) with true. cbn iota.
    rewrite E1, E2, E3. cbn [tr_cas mem_transport]. by rewrite mem_access_outside.
  - intros M p f k -> Hf Hk. destruct f as [|op args]; [cbn in Hk; lia|]. destruct k as [|k]; [done|]. cbn in Hk.
    cbn [take]. unfold serve, mem_peer. by rewrite (proj2 (frame_complete _ Hf) k) by lia.
Defined.

(** ** Properties *)

(** C28. The TCP transport is a faithful remote memory: over any peer that speaks
    the documented frames, a read, write or compare-and-swap inside a registered
    region returns, without panicking, what the memory operation returns, leaves
    exactly its effect at the peer, and leaves the connection between requests
    (nothing unread, nothing half-sent).  Outside the registered regions nothing
    changes at the peer: a read and a write return their errors, a
    compare-and-swap [false]. *)
Theorem tcp_transport_refines {P} `{FrameServer P} M (t : TcpTransport P) rkey addr :
  tcp_repr M t -> is_u32 rkey -> is_u64 addr ->
  (forall base bytes, M !! rkey = Some (base, bytes) ->
      (forall n, access_ok base bytes rkey addr n ->
         exists t', tcp_read n addr rkey t = Done (t', Ok (bread (addr - base) n bytes)) /\ tcp_repr M t')
      /\ (forall buf, access_ok base bytes rkey addr (len buf) ->
         exists t', tcp_write buf addr rkey t = Done (t', Ok tt)
           /\ tcp_repr (<[rkey := (base, bwrite (addr - base) buf bytes)]> M) t')
      /\ (forall compare swap, access_ok base bytes rkey addr 8 -> is_u64 compare -> is_u64 swap ->
         let found := from_le (bread (addr - base) 8 bytes) =? compare in
         exists t', tcp_cas compare swap addr rkey t = Done (t', Ok found)
           /\ tcp_repr (if found then <[rkey := (base, bwrite (addr - base) (to_le 8 swap) bytes)]> M else M) t'))
  /\ (forall n, outside M rkey addr n -> is_u32 n ->
         exists t', tcp_read n addr rkey t = Done (t', Err (Internal "TCP READ failed")) /\ tcp_repr M t')
  /\ (forall buf, outside M rkey addr (len buf) -> is_u32 (len buf) ->
         exists t', tcp_write buf addr rkey t = Done (t', Err (Internal "TCP WRITE failed")) /\ tcp_repr M t')
  /\ (forall compare swap, outside M rkey addr 8 -> is_u64 compare -> is_u64 swap ->
         exists t', tcp_cas compare swap addr rkey t = Done (t', Ok false) /\ tcp_repr M t').
Proof.
  intros Ht Hrk Ha. split.
  - intros base bytes HM. split_and!; intros; [by apply tcp_read_spec | by apply tcp_write_spec | by apply tcp_cas_spec].
  - split_and!; intros; [by apply tcp_read_error | by apply tcp_write_error | by apply tcp_cas_refused_is_false].
Qed.

Lemma tcp_transport_refines_witness :
  exists t', tcp_read 2 4097 7 (sent_state ({[ 7 := (4096, [5; 6; 7; 8]) ]} : rmem) [] 1)
    = Done (t', Ok [6; 7]).
Proof.
  destruct (tcp_transport_refines {[ 7 := (4096, [5; 6; 7; 8]) ]}
    (sent_state ({[ 7 := (4096, [5; 6; 7; 8]) ]} : rmem) [] 1) 7 4097) as [Hin _].
  - split_and!; try done; unfold is_u64; cbn; lia.
  - unfold is_u32. lia.
  - unfold is_u64. lia.
  - destruct (Hin 4096 [5; 6; 7; 8] (lookup_singleton_eq _ _)) as [Hr _]. destruct (Hr 2) as (t' & E & _).
    + unfold access_ok, in_region, is_u32, is_u64, len. cbn. lia.
    + exists t'. exact E.
Defined.
