(* ===== verification/Faults.v ===== *)
(** * Faults: remote clients over a connection that breaks
    (src/transport/tcp.rs under src/client and src/engine/extent.rs)

    What a transport that may fail promises: each operation answers as the memory
    does or reports a failure, and a failed operation took effect completely or not
    at all.  This is the fault model of [Interleave].  The TCP transport keeps the
    promise whatever byte its connection breaks at, and every client program over
    such a transport makes a run of the fault model, so the theorems about faults
    hold for clients over TCP. *)

From S2P Require Import Prelude Layout Extent ExtentSpec ExtentProps Errors Transport Interleave Remote RemoteConc RemoteTypes Tcp.

Open Scope Z_scope.
Local Open Scope rdmas_scope.

(** ** The promise *)

(** The arguments fit the fields of a frame. *)
Definition request_fits (q : request) : Prop :=
  match q with
  | QRead n _ addr rkey => is_u32 n /\ is_u64 addr /\ is_u32 rkey
  | QWrite buf _ addr rkey => is_u32 (len buf) /\ is_u64 addr /\ is_u32 rkey
  | QCas compare swap _ addr rkey => is_u64 compare /\ is_u64 swap /\ is_u64 addr /\ is_u32 rkey
  end.

(** A compare-and-swap is on a registered word.  A refused one is answered
    [Ok false] and not as the error of the memory, so it is left out of the
    promise; [tcp_cas_refused] says what it does. *)
Definition cas_registered (M : rmem) (q : request) : Prop :=
  match q with QCas _ _ _ addr rkey => ~ outside M rkey addr 8 | _ => True end.

Definition request_promised (M : rmem) (q : request) : Prop := request_fits q /\ cas_registered M q.

(** The memory's answer, or a failure of an operation that took effect or not. *)
Definition faulty_answer (M : rmem) (q : request) (M' : rmem) (a : reply) : Prop :=
  (M', a) = perform M q \/ exists e, a = failed q e /\ (M' = M \/ M' = (perform M q).1).

Class FaultyMemory (T : Type) `{Transport T} : Type := {
  fm_repr : rmem -> T -> Prop;
  fm_perform M t q : fm_repr M t -> request_promised M q ->
    exists M', fm_repr M' (perform t q).1 /\ faulty_answer M q M' (perform t q).2
}.

(** ** Client programs *)

(** From [M] the program receives the replies [h], failures among them. *)
Inductive faulty_trail {A} (m : stM recorder RdmaError A) (M : rmem) : list reply -> rmem -> Prop :=
| ft_nil : faulty_trail m M [] M
| ft_snoc h M1 q M2 a :
    faulty_trail m M h M1 -> resume m h = Asks q -> faulty_answer M1 q M2 a -> faulty_trail m M (h ++ [a]) M2.

(** All requests of such runs are within the promise. *)
Definition requests_fit {A} (m : stM recorder RdmaError A) (M : rmem) : Prop :=
  forall h M' q, faulty_trail m M h M' -> resume m h = Asks q -> request_promised M' q.

Lemma faulty_trail_run {A} (m : stM recorder RdmaError A) M h M' i :
  faulty_trail m M h M' -> rtc (sys_step (fun _ => m) true) (start {[i]} M) (M', {[i := h]}).
Proof.
  intros Ht. induction Ht as [|h M1 q M2 a _ IH Hq Ha].
  - unfold start. by rewrite gset_to_gmap_singleton.
  - eapply rtc_r; [exact IH|]. rewrite <- (insert_singleton_eq i (h ++ [a]) h).
    destruct Ha as [Ha|(e & -> & HM)].
    + pose proof (sys_op (fun _ => m) true M1 {[i := h]} i h q (lookup_singleton_eq _ _) Hq) as Hs. by rewrite <- Ha in Hs.
    + by eapply sys_fault; [|apply lookup_singleton_eq | |].
Qed.

Lemma faulty_bind_l {T} `{Transport T} F {A B} m1 (m2 : stM T RdmaError A) (k : A -> stM recorder RdmaError B) M h M1 :
  client_prog F m1 m2 -> faulty_trail m1 M h M1 -> faulty_trail (st_bind m1 k) M h M1.
Proof.
  intros Hc Ht. induction Ht as [|h M1 q M2 a _ IH Hq Ha]; [constructor|]. apply (ft_snoc _ _ h M1 q); [done | | done].
  apply (resume_asks F m1 m2) in Hq as [E _]; [|done]. unfold resume, st_bind. by rewrite E.
Qed.

Lemma faulty_bind_r {A B} m (k : A -> stM recorder RdmaError B) a M h1 M1 h2 M2 :
  (forall rest, m (mkRec (h1 ++ rest) None) = Done (mkRec rest None, Ok a)) ->
  faulty_trail (st_bind m k) M h1 M1 -> faulty_trail (k a) M1 h2 M2 -> faulty_trail (st_bind m k) M (h1 ++ h2) M2.
Proof.
  intros Hm H1 H2. induction H2 as [|h2 M2 q M3 x _ IH Hq Hx]; [by rewrite app_nil_r|].
  rewrite app_assoc. apply (ft_snoc _ _ _ M2 q); [done | | done]. revert Hq. unfold resume, st_bind. by rewrite Hm.
Qed.

Section clients.
Context {T : Type} `{FaultyMemory T}.

(** The run of [m2] on [t] is the run [h] of the fault model. *)
Definition simulated {A} (m1 : stM recorder RdmaError A) (m2 : stM T RdmaError A) M t : Prop :=
  match m2 t with
  | Done (t', r) => exists h M', faulty_trail m1 M h M' /\ fm_repr M' t'
      /\ forall rest, m1 (mkRec (h ++ rest) None) = Done (mkRec rest None, r)
  | Panic => exists h M', faulty_trail m1 M h M' /\ m1 (mkRec h None) = Panic
  end.

Lemma simulated_request {A} (m1 : stM recorder RdmaError A) (m2 : stM T RdmaError A) q M t t' r :
  fm_repr M t -> requests_fit m1 M -> resume m1 [] = Asks q -> m2 t = Done (t', r) -> (perform t q).1 = t' ->
  (forall rest, m1 (mkRec ((perform t q).2 :: rest) None) = Done (mkRec rest None, r)) -> simulated m1 m2 M t.
Proof.
  intros Hr Hf Hq E <- Hrest. unfold simulated. rewrite E.
  destruct (fm_perform M t q Hr) as (M' & HM' & Ha); [exact (Hf [] M q (ft_nil _ _) Hq)|].
  exists [(perform t q).2], M'. split_and!; [|done | exact Hrest].
  apply (ft_snoc m1 M [] M q M'); [constructor | done | done].
Qed.

(** Every client program over the transport makes a run of the fault model. *)
Lemma client_simulated F {A} (m1 : stM recorder RdmaError A) (m2 : stM T RdmaError A) M t :
  client_prog F m1 m2 -> fm_repr M t -> requests_fit m1 M -> simulated m1 m2 M t.
Proof.
  intros Hc. revert M t.
  induction Hc as [A a|A e|A m|A B m1 m2 k1 k2 Hc IH _ IHk|n lkey addr rkey _|buf lkey addr rkey _|c s lkey addr rkey _];
    intros M t Hr Hf.
  - exists [], M. split_and!; [constructor | done | done].
  - exists [], M. split_and!; [constructor | done | done].
  - unfold simulated, st_lift. destruct m; exists [], M; split_and!; (constructor || done).
  - assert (Hf1 : requests_fit m1 M).
    { intros h M' q Ht Hq. apply (Hf h M' q); [by apply (faulty_bind_l F _ m2)|].
      apply (resume_asks F m1 m2) in Hq as [E _]; [|done]. unfold resume, st_bind. by rewrite E. }
    specialize (IH M t Hr Hf1). unfold simulated, st_bind in *.
    destruct (m2 t) as [[t1 [a|e]]|].
    + destruct IH as (h1 & M1 & T1 & Hr1 & R1). pose proof (faulty_bind_l F _ m2 k1 M h1 M1 Hc T1) as T1'.
      specialize (IHk a M1 t1 Hr1). unfold simulated in IHk. destruct (k2 a t1) as [[t2 r]|].
      * destruct IHk as (h2 & M2 & T2 & Hr2 & R2).
        { intros h M' q Ht Hq. apply (Hf (h1 ++ h) M' q); [by eapply faulty_bind_r|].
          revert Hq. unfold resume, st_bind. by rewrite R1. }
        exists (h1 ++ h2), M2. split_and!; [by eapply faulty_bind_r | done |]. intros rest. by rewrite <- app_assoc, R1, R2.
      * destruct IHk as (h2 & M2 & T2 & R2).
        { intros h M' q Ht Hq. apply (Hf (h1 ++ h) M' q); [by eapply faulty_bind_r|].
          revert Hq. unfold resume, st_bind. by rewrite R1. }
        exists (h1 ++ h2), M2. split; [by eapply faulty_bind_r|]. by rewrite R1, R2.
    + destruct IH as (h1 & M1 & T1 & Hr1 & R1). exists h1, M1.
      split_and!; [by apply (faulty_bind_l F _ m2) | done|]. intros rest. by rewrite R1.
    + destruct IH as (h1 & M1 & T1 & R1). exists h1, M1. split; [by apply (faulty_bind_l F _ m2)|]. by rewrite R1.
  - destruct (tr_read t n lkey addr rkey) as [t' r] eqn:E.
    apply (simulated_request _ _ (QRead n lkey addr rkey) M t t' r); try done; cbn [perform]; unfold m_read; by rewrite E.
  - destruct (tr_write t buf lkey addr rkey) as [t' r] eqn:E.
    apply (simulated_request _ _ (QWrite buf lkey addr rkey) M t t' r); try done; cbn [perform]; unfold m_write; by rewrite E.
  - destruct (tr_cas t c s lkey addr rkey) as [t' r] eqn:E.
    apply (simulated_request _ _ (QCas c s lkey addr rkey) M t t' r); try done; cbn [perform]; unfold m_cas; by rewrite E.
Qed.
End clients.

(** ** The TCP transport *)

Section tcp.
Context {P : Type} `{FrameServer P}.
Implicit Types (M : rmem) (t : TcpTransport P) (p : P).

(** A request that broke off. *)
Definition unfinished (bytes : list Z) : Prop := exists f k, frame f /\ (k < length f)%nat /\ bytes = take k f.

(** The connection is between requests, and may break anywhere; or it has broken
    in the middle of a request. *)
Definition line_ok {Q} (t : TcpTransport Q) : Prop :=
  let s := tt_stream t in
  is_u64 (tt_request_id t)
  /\ ((ts_sent s = [] /\ ts_received s = []) \/ (ts_out s = Some 0 /\ unfinished (ts_sent s))).

Definition tcp_line M t : Prop := fs_repr M (ts_peer (tt_stream t)) /\ line_ok t.

(** The memory is the same once the peer has got what was sent. *)
Lemma tcp_line_served M t : tcp_line M t -> fs_repr M (serve (ts_peer (tt_stream t)) (ts_sent (tt_stream t))).1.1.
Proof.
  intros (Hp & _ & [(-> & _)|(_ & f & k & Hf & Hk & ->)]); [by rewrite (fs_idle M) | by apply fs_partial].
Qed.

Lemma tcp_line_idle M p o i id : fs_repr M p -> tcp_line M (mkTcp (mkStream p [] [] o i) (u64 id)).
Proof. intros Hp. split; [done|]. split; [apply u64_range | by left]. Qed.

Lemma tcp_repr_line M t : tcp_repr M t -> tcp_line M t.
Proof. intros (Hp & Hs & Hr & Hid & _). split; [done|]. split; [done | by left]. Qed.

(** A new connection, wherever it will break. *)
Lemma tcp_connect_line M addr peer o i t :
  fs_repr M peer -> TcpTransport_connect addr (Ok (mkStream peer [] [] o i)) (Ok tt) = Ok t -> tcp_line M t.
Proof. intros Hp [= <-]. by apply (tcp_line_idle M peer o i 1). Qed.

Lemma frame_len f : frame f -> 0 < len f.
Proof. intros []; unfold len, read_frame, write_frame, cas_frame; cbn; lia. Qed.

(** A request is sent completely, or the call returns an error and the peer has
    not acted. *)
Lemma send_or_break {A} M t f (k : stM (TcpTransport P) RdmaError A) :
  tcp_line M t -> frame f ->
  (exists t' e, (write_all f ;;! k) (numbered t) = Done (t', Err e) /\ tcp_line M t')
  \/ (exists p o i id, fs_repr M p /\ (write_all f ;;! k) (numbered t) = k (mkTcp (mkStream p f [] o i) (u64 id))).
Proof.
  intros (Hp & Hid & Hs) Hf. pose proof (frame_len f Hf) as Hpos. destruct t as [[p sent rec o i] id]. cbn in Hp, Hid, Hs.
  destruct Hs as [[-> ->]|[-> Hu]]; unfold st_bind, write_all; cbn [numbered tt_stream ts_peer ts_sent ts_received ts_out ts_in].
  - destruct o as [n|]; cbn [carried app].
    + assert (Hl : len (take (Z.to_nat n) f) = Z.min (Z.max 0 n) (len f)) by (unfold len; rewrite length_take; lia).
      destruct (len (take (Z.to_nat n) f) =? len f) eqn:E; rewrite Hl in E.
      * apply Z.eqb_eq in E. rewrite take_ge by (unfold len in *; lia). right. by eexists p, _, i, (id + 1).
      * apply Z.eqb_neq in E. left. eexists _, _. split; [reflexivity|]. split; [done|]. split; [apply u64_range|]. right. cbn. split.
        -- f_equal. lia.
        -- exists f, (Z.to_nat n). split_and!; [done | unfold len in *; lia | done].
    + rewrite Z.eqb_refl. right. by exists p, None, i, (id + 1).
  - left. cbn [carried]. change (take (Z.to_nat 0) f) with (@nil Z). change (len (A := Z) []) with 0. rewrite app_nil_r.
    destruct (Z.eqb_spec 0 (len f)) as [E|_]; [lia|]. eexists _, _. split; [reflexivity|]. split; [done|]. split; [apply u64_range|]. right.
    cbn. split; [f_equal; lia | done].
Qed.

(** A response arrives, or the call returns an error. *)
Lemma receive_or_break p p' f resp n o i id :
  serve p f = (p', [], resp) -> 0 <= n <= len resp ->
  (exists m i', read_exact n (mkTcp (mkStream p f [] o i) id)
     = Done (mkTcp (mkStream p' [] (take m (drop (Z.to_nat n) resp)) o i') id, Ok (take (Z.to_nat n) resp)))
  \/ (exists e, read_exact n (mkTcp (mkStream p f [] o i) id) = Done (mkTcp (mkStream p' [] [] o (Some 0)) id, Err e)).
Proof.
  intros Hs Hn. unfold read_exact. cbn [tt_stream ts_peer ts_sent ts_received ts_out ts_in app]. rewrite Hs.
  destruct i as [c|]; cbn [carried].
  - destruct (n <=? len (take (Z.to_nat c) resp)) eqn:E; [left | right; by eexists].
    apply Z.leb_le in E. unfold len in E. rewrite length_take in E.
    exists (Z.to_nat c - Z.to_nat n)%nat, (Some (Z.max 0 (c - len resp))). rewrite take_take, Nat.min_l by lia.
    by rewrite skipn_firstn_comm.
  - rewrite (proj2 (Z.leb_le _ _)) by lia. left. exists (length (drop (Z.to_nat n) resp)), None. by rewrite firstn_all.
Qed.

(** A response that is read at once. *)
Lemma receive_whole p p' f resp n o i id :
  serve p f = (p', [], resp) -> n = len resp ->
  exists i' r, read_exact n (mkTcp (mkStream p f [] o i) id) = Done (mkTcp (mkStream p' [] [] o i') id, r)
    /\ (r = Ok resp \/ exists e, r = Err e).
Proof.
  intros Hs ->. pose proof (len_nonneg resp).
  destruct (receive_or_break p p' f resp (len resp) o i id Hs) as [(m & i' & R)|(e & R)]; [lia | |]; rewrite R; eexists _, _.
  - unfold len. rewrite Nat2Z.id, firstn_all, drop_all, take_nil. eauto.
  - eauto.
Qed.

(** The rest of a response. *)
Lemma receive_rest M p data m o i id :
  fs_repr M p ->
  (exists i', read_exact (len data) (mkTcp (mkStream p [] (take m data) o i) id)
     = Done (mkTcp (mkStream p [] [] o i') id, Ok data))
  \/ (exists e, read_exact (len data) (mkTcp (mkStream p [] (take m data) o i) id)
     = Done (mkTcp (mkStream p [] [] o (Some 0)) id, Err e)).
Proof.
  intros Hp. unfold read_exact. cbn [tt_stream ts_peer ts_sent ts_received ts_out ts_in]. rewrite (fs_idle M p Hp).
  assert (Hc : exists i', carried i [] = ([], i')) by (destruct i; cbn; rewrite ?take_nil; eauto).
  destruct Hc as [i' ->]. rewrite app_nil_r.
  destruct (len data <=? len (take m data)) eqn:E; [left | right; by eexists].
  apply Z.leb_le in E. unfold len in E. rewrite length_take in E. rewrite (take_ge data m) by lia.
  exists i'. unfold len. rewrite Nat2Z.id, firstn_all, drop_all. done.
Qed.

Lemma region_cases M rkey addr n :
  (exists base bytes, M !! rkey = Some (base, bytes) /\ in_region base bytes addr n) \/ outside M rkey addr n.
Proof.
  destruct (M !! rkey) as [[base bytes]|] eqn:E; [|right; intros b l; rewrite E; done].
  destruct (decide (in_region base bytes addr n)) as [Hin|Hin]; [left; eauto|].
  right. intros b l. rewrite E. by intros [= <- <-].
Qed.

(** An operation on the connection, as a request of the fault model. *)
Definition tcp_faulty {A} (m : stM (TcpTransport P) RdmaError A) (wrap : result A RdmaError -> reply) M t q : Prop :=
  exists t' r M', m t = Done (t', r) /\ tcp_line M' t' /\ faulty_answer M q M' (wrap r).

Lemma failed_before {A} (m : stM (TcpTransport P) RdmaError A) wrap M t t' q e :
  m t = Done (t', Err e) -> tcp_line M t' -> wrap (Err e) = failed q e -> tcp_faulty m wrap M t q.
Proof. intros E Ht Hw. exists t', (Err e), M. split_and!; [done | done |]. right. exists e. auto. Qed.

Lemma failed_after {A} (m : stM (TcpTransport P) RdmaError A) wrap M t t' q e :
  m t = Done (t', Err e) -> tcp_line (perform M q).1 t' -> wrap (Err e) = failed q e -> tcp_faulty m wrap M t q.
Proof. intros E Ht Hw. exists t', (Err e), (perform M q).1. split_and!; [done | done |]. right. exists e. auto. Qed.

Lemma answered {A} (m : stM (TcpTransport P) RdmaError A) wrap M t t' q r :
  m t = Done (t', r) -> tcp_line (perform M q).1 t' -> (perform M q).2 = wrap r -> tcp_faulty m wrap M t q.
Proof.
  intros E Ht Ha. exists t', r, (perform M q).1. split_and!; [done | done |]. left. rewrite <- Ha. by destruct (perform M q).
Qed.

Lemma perform_inside_read M rkey base bytes n lkey addr :
  M !! rkey = Some (base, bytes) -> in_region base bytes addr n ->
  perform M (QRead n lkey addr rkey) = (M, ARead (Ok (bread (addr - base) n bytes))).
Proof. intros HM Hin. cbn. unfold mem_access. by rewrite HM, decide_True. Qed.

Lemma perform_inside_write M rkey base bytes buf lkey addr :
  M !! rkey = Some (base, bytes) -> in_region base bytes addr (len buf) ->
  perform M (QWrite buf lkey addr rkey) = (<[rkey := (base, bwrite (addr - base) buf bytes)]> M, AWrite (Ok tt)).
Proof. intros HM Hin. cbn. unfold mem_access. by rewrite HM, decide_True. Qed.

Lemma perform_inside_cas M rkey base bytes compare swap lkey addr :
  M !! rkey = Some (base, bytes) -> in_region base bytes addr 8 ->
  let found := from_le (bread (addr - base) 8 bytes) =? compare in
  perform M (QCas compare swap lkey addr rkey)
  = (if found then <[rkey := (base, bwrite (addr - base) (to_le 8 swap) bytes)]> M else M, ACas (Ok found)).
Proof. intros HM Hin found. cbn. unfold mem_access. rewrite HM, decide_True by done. fold found. by destruct found. Qed.

Lemma tcp_write_faulty M t buf lkey addr rkey :
  tcp_line M t -> request_fits (QWrite buf lkey addr rkey) ->
  tcp_faulty (tcp_write buf addr rkey) AWrite M t (QWrite buf lkey addr rkey).
Proof.
  intros Ht (Hn & Ha & Hr). pose proof (proj1 (proj2 Ht)) as Hid.
  destruct (send_or_break M t (write_frame (tt_request_id t) addr rkey buf) write_reply Ht) as [(t' & e & E & Ht')|(p & o & i & id & Hp & E)];
    [by constructor | |]; rewrite <- tcp_write_sends in E by done; [by eapply failed_before|].
  destruct (region_cases M rkey addr (len buf)) as [(base & bytes & HM & Hin)|Hout].
  - destruct (fs_write M p (tt_request_id t) rkey base bytes addr buf Hp HM) as (p' & Hs & Hp'); [by split_and! | done |].
    pose proof (perform_inside_write M rkey base bytes buf lkey addr HM Hin) as Hq.
    destruct (receive_whole p p' _ _ 9 o i (u64 id) Hs eq_refl) as (i' & r & R & [->|[e ->]]);
      unfold write_reply, st_bind in E; rewrite R in E.
    + eapply answered; [exact E | rewrite Hq; by apply tcp_line_idle | by rewrite Hq].
    + eapply failed_after; [exact E | rewrite Hq; by apply tcp_line_idle | done].
  - pose proof (fs_write_err M p (tt_request_id t) rkey addr buf Hp Hout Hr Ha Hn Hid) as Hs.
    destruct (receive_whole p p _ _ 9 o i (u64 id) Hs eq_refl) as (i' & r & R & [->|[e ->]]);
      unfold write_reply, st_bind in E; rewrite R in E; (eapply failed_before; [exact E | by apply tcp_line_idle | done]).
Qed.

Lemma tcp_cas_faulty M t compare swap lkey addr rkey :
  tcp_line M t -> request_fits (QCas compare swap lkey addr rkey) -> ~ outside M rkey addr 8 ->
  tcp_faulty (tcp_cas compare swap addr rkey) ACas M t (QCas compare swap lkey addr rkey).
Proof.
  intros Ht (Hc & Hsw & Ha & Hr) Hno. pose proof (proj1 (proj2 Ht)) as Hid.
  destruct (send_or_break M t (cas_frame (tt_request_id t) addr rkey compare swap) cas_reply Ht)
    as [(t' & e & E & Ht')|(p & o & i & id & Hp & E)]; [by constructor | |];
    rewrite <- tcp_cas_sends in E; [by eapply failed_before|].
  destruct (region_cases M rkey addr 8) as [(base & bytes & HM & Hin)|]; [|done].
  destruct (fs_cas M p (tt_request_id t) rkey base bytes addr compare swap Hp HM) as (p' & Hs & Hp');
    [split_and!; [apply Hin.. | done | done | unfold is_u32; lia] | done..|].
  pose proof (perform_inside_cas M rkey base bytes compare swap lkey addr HM Hin) as Hq. cbv zeta in Hs, Hp', Hq.
  destruct (from_le (bread (addr - base) 8 bytes) =? compare);
    (destruct (receive_whole p p' _ _ 10 o i (u64 id) Hs eq_refl) as (i' & r & R & [->|[e ->]]);
      unfold cas_reply, st_bind in E; rewrite R in E;
      [eapply answered; [exact E | rewrite Hq; by apply tcp_line_idle | by rewrite Hq]
      |eapply failed_after; [exact E | rewrite Hq; by apply tcp_line_idle | done]]).
Qed.

(** A compare-and-swap outside the regions: no effect, and no error either when
    the response arrives. *)
Lemma tcp_cas_refused M t compare swap lkey addr rkey :
  tcp_line M t -> request_fits (QCas compare swap lkey addr rkey) -> outside M rkey addr 8 ->
  exists t' r, tcp_cas compare swap addr rkey t = Done (t', r) /\ tcp_line M t' /\ (r = Ok false \/ exists e, r = Err e).
Proof.
  intros Ht (Hc & Hsw & Ha & Hr) Hno. pose proof (proj1 (proj2 Ht)) as Hid.
  destruct (send_or_break M t (cas_frame (tt_request_id t) addr rkey compare swap) cas_reply Ht)
    as [(t' & e & E & Ht')|(p & o & i & id & Hp & E)]; [by constructor | |];
    rewrite <- tcp_cas_sends in E; [by eauto 7|].
  pose proof (fs_cas_err M p (tt_request_id t) rkey addr compare swap Hp Hno Hr Ha Hid Hc Hsw) as Hs.
  destruct (receive_whole p p _ _ 10 o i (u64 id) Hs eq_refl) as (i' & r & R & [->|[e ->]]);
    unfold cas_reply, st_bind in E; rewrite R in E; (eexists _, _; split_and!; [exact E | by apply tcp_line_idle | eauto]).
Qed.

(** Reading the two parts of a successful response. *)
Lemma read_reply_faulty M p f id0 n data o i id :
  fs_repr M p -> serve p f = (p, [], to_le 8 id0 ++ [0] ++ to_le 4 n ++ data) -> is_u32 n -> len data = n ->
  exists i' r, read_reply n (mkTcp (mkStream p f [] o i) id) = Done (mkTcp (mkStream p [] [] o i') id, r)
    /\ (r = Ok data \/ exists e, r = Err e).
Proof.
  intros Hp Hs Hn Hd. set (header := to_le 8 id0 ++ [0] ++ to_le 4 n).
  replace (to_le 8 id0 ++ [0] ++ to_le 4 n ++ data) with (header ++ data) in Hs by (unfold header; by rewrite <- !app_assoc).
  assert (Hh : length header = 13%nat) by reflexivity. unfold read_reply, st_bind at 1.
  destruct (receive_or_break p p f _ 13 o i id Hs) as [(m & i' & R)|(e & R)];
    [unfold len; rewrite length_app, Hh; lia | | rewrite R; eauto 6].
  change (Z.to_nat 13) with 13%nat in R. rewrite <- Hh, take_app_length, drop_app_length in R. rewrite R.
  unfold st_bind at 1. change (vec_get header 8) with (Done 0). cbn [st_lift Z.eqb negb].
  change (bread 9 4 header) with (to_le 4 n). rewrite from_le_to_le_4, Z.min_id by done. unfold st_bind at 1.
  rewrite <- Hd. destruct (receive_rest M p data m o i' id Hp) as [(i2 & R2)|(e & R2)]; rewrite R2; [|eauto 6].
  pose proof (len_nonneg data). unfold st_bind. rewrite slice_Done by lia. cbn [st_lift].
  rewrite Z.sub_0_r, bread_all by done. rewrite slice_write_Done by (rewrite ?len_zeros; lia).
  eexists i2, (Ok _). split; [reflexivity|]. left. f_equal. rewrite <- (app_nil_r data) at 3. unfold bwrite. cbn [Z.to_nat take app].
  rewrite drop_ge; [done|]. unfold zeros. rewrite length_replicate. unfold len. lia.
Qed.

Lemma tcp_read_faulty M t n lkey addr rkey :
  tcp_line M t -> request_fits (QRead n lkey addr rkey) ->
  tcp_faulty (tcp_read n addr rkey) ARead M t (QRead n lkey addr rkey).
Proof.
  intros Ht (Hn & Ha & Hr). pose proof (proj1 (proj2 Ht)) as Hid.
  destruct (send_or_break M t (read_frame (tt_request_id t) addr rkey n) (read_reply n) Ht)
    as [(t' & e & E & Ht')|(p & o & i & id & Hp & E)]; [by constructor | |];
    rewrite <- (u32_small n Hn) in E at 1; rewrite <- tcp_read_sends in E; [by eapply failed_before|].
  destruct (region_cases M rkey addr n) as [(base & bytes & HM & Hin)|Hout].
  - pose proof (fs_read M p (tt_request_id t) rkey base bytes addr n Hp HM ltac:(by split_and!) Hid) as Hs.
    pose proof (perform_inside_read M rkey base bytes n lkey addr HM Hin) as Hq.
    destruct (read_reply_faulty M p _ _ n _ o i (u64 id) Hp Hs Hn) as (i' & r & R & [->|[e ->]]);
      [destruct Hin; unfold len; rewrite length_bread; lia | |]; rewrite R in E.
    + eapply answered; [exact E | rewrite Hq; by apply tcp_line_idle | by rewrite Hq].
    + eapply failed_before; [exact E | by apply tcp_line_idle | done].
  - pose proof (fs_read_err M p (tt_request_id t) rkey addr n Hp Hout Hr Ha Hn Hid) as Hs.
    destruct (receive_whole p p _ _ 13 o i (u64 id) Hs eq_refl) as (i' & r & R & [->|[e ->]]);
      unfold read_reply, st_bind in E; rewrite R in E; (eapply failed_before; [exact E | by apply tcp_line_idle | done]).
Qed.

Lemma tcp_faulty_perform {A} (m : stM (TcpTransport P) RdmaError A) wrap M t q :
  tcp_faulty m wrap M t q -> perform t q = (let '(t', r) := finished m t in (t', wrap r)) ->
  exists M', tcp_line M' (perform t q).1 /\ faulty_answer M q M' (perform t q).2.
Proof. intros (t' & r & M' & E & Ht & Ha) ->. unfold finished. rewrite E. by exists M'. Qed.

#[export] Instance tcp_faulty_memory : FaultyMemory (TcpTransport P).
Proof.
  refine (Build_FaultyMemory (TcpTransport P) tcp_transport tcp_line _).
  intros M t [n lkey addr rkey|buf lkey addr rkey|c s lkey addr rkey] Ht [Hq Hc].
  - by eapply tcp_faulty_perform; [apply tcp_read_faulty|].
  - by eapply tcp_faulty_perform; [apply tcp_write_faulty|].
  - by eapply tcp_faulty_perform; [apply tcp_cas_faulty|].
Defined.
End tcp.

(** ** Allocations over failing transports *)

Section allocations.
Context (xxh64 : list Z -> Z) (a : DistributedExtentAllocator) (data : nat -> list Z) (clients : gset nat)
  (M0 : rmem) (bytes0 : list Z) (b0 : Z)
  (H8 : 8 <= b0) (Hset : alloc_setup a data clients M0 bytes0 b0) (Hrk : is_u32 (da_free_list_rkey a)).

Abbreviation inv := (alloc_inv xxh64 a data clients true M0 bytes0 b0).

Lemma faulty_alloc_inv s : rtc (sys_step (allocator xxh64 a data) true) (start clients M0) s -> inv s.
Proof. destruct Hset as [HM Hw Hl Hd Hva Hroom]. by apply alloc_inv_reachable. Qed.

(** The writes of an allocation fit their fields. *)
Lemma store_fits i off k M :
  i ∈ clients -> 0 <= off -> da_free_list_vaddr a + off + extent_total (len (data i)) < 2 ^ 64 ->
  request_promised M (store xxh64 a data i off k).
Proof using H8 Hset Hrk.
  intros Hi Ho Hend. destruct Hset as [_ _ _ Hd Hva _]. specialize (Hd i Hi).
  pose proof (len_nonneg (data i)). pose proof (data_ok_total _ Hd) as Ht. destruct Hd as [Hl _].
  assert (Hh : len (bytes_of_header_v2 (remote_header (data i))) = 32) by (by apply len_bytes_of_header_v2).
  unfold store. destruct k as [|[|k]]; (split; [split_and!; [unfold is_u32; rewrite ?Hh, ?len_to_le; lia | apply u64_range | done] | done]).
Qed.

(** So do all requests, however the clients interleave. *)
Lemma allocations_fit s i h q :
  inv s -> s.2 !! i = Some h -> resume (allocator xxh64 a data i) h = Asks q -> request_promised s.1 q.
Proof using H8 Hset Hrk.
  intros (res & bump & bytes & E & Hm & HT & Hc) Hh Hq.
  assert (Hi : i ∈ clients) by (rewrite <- HT; by eapply elem_of_dom_2). specialize (Hc i h Hh).
  destruct Hset as [HM Hw Hl Hd Hva Hroom].
  assert (Hb : b0 <= bump <= b0 + demand data clients) by (by eapply alloc_bump_room).
  pose proof (data_ok_total _ (Hd i Hi)) as Htot. pose proof (len_nonneg (data i)).
  destruct Hc as [Hn|buf Hn Hv|buf Hn Hv|buf k Hle Hn Hs|h' e Hf Hle Hres].
  - injection Hq as <-. split; [split_and!; [unfold is_u32; lia | unfold is_u64; lia | done] | done].
  - injection Hq as <-. split; [split_and!; [unfold is_u64; lia | apply u64_range | unfold is_u64; lia | done]|].
    intros Hout. apply (Hout (da_free_list_vaddr a) bytes); [rewrite E; apply lookup_insert_eq|].
    unfold in_region. rewrite (am_len _ _ _ _ _ _ _ Hm). lia.
  - done.
  - rewrite allocator_writing in Hq by done. case_decide; [done|]. injection Hq as <-.
    pose proof (am_in _ _ _ _ _ _ _ Hm _ _ Hn). apply store_fits; [done | lia..].
  - congruence.
Qed.
End allocations.

Section allocation.
Context (xxh64 : list Z -> Z) (a : DistributedExtentAllocator) (data : list Z) (M0 : rmem) (bytes0 : list Z) (b0 : Z)
  (H8 : 8 <= b0) (Hset : alloc_setup a (fun _ => data) {[0%nat]} M0 bytes0 b0) (Hrk : is_u32 (da_free_list_rkey a)).

Abbreviation prog := (allocator xxh64 a (fun _ => data) 0).

Lemma demand_one : demand (fun _ => data) {[0%nat]} = extent_total (len data).
Proof. unfold demand. rewrite set_fold_singleton. lia. Qed.

Lemma faulty_trail_inv h M :
  faulty_trail prog M0 h M -> alloc_inv xxh64 a (fun _ => data) {[0%nat]} true M0 bytes0 b0 (M, {[0%nat := h]}).
Proof. intros Ht%(faulty_trail_run _ _ _ _ 0%nat). by apply faulty_alloc_inv. Qed.

Lemma allocation_fits : requests_fit prog M0.
Proof using H8 Hset Hrk.
  intros h M q Ht%faulty_trail_inv Hq.
  by apply (allocations_fit xxh64 a (fun _ => data) {[0%nat]} M0 bytes0 b0 H8 Hset Hrk (M, {[0%nat := h]}) 0 h q Ht
    (lookup_singleton_eq _ _)).
Qed.

(** The outcome, over any transport that keeps the promise. *)
Lemma faulty_allocation {T} `{FaultyMemory T} (t : T) :
  fm_repr M0 t ->
  exists t' r bump bytes, allocate_remote xxh64 a data t = Done (t', r)
  /\ fm_repr (<[da_free_list_rkey a := (da_free_list_vaddr a, bytes)]> M0) t'
  /\ len bytes = len bytes0 /\ bread 0 8 bytes = to_le 8 bump
  /\ (bump = b0 \/ bump = b0 + extent_total (len data))
  /\ (forall o n, 8 <= o -> 0 <= n -> o + n <= b0 \/ bump <= o -> bread o n bytes = bread o n bytes0)
  /\ (forall off, r = Ok off ->
        off = b0 /\ bump = b0 + extent_total (len data) /\ ext_at bytes off (new_extent (xxh64 data) data)).
Proof using H8 Hset Hrk.
  intros Ht. pose proof (client_simulated _ _ _ M0 t (allocator_client xxh64 a (fun _ => data) 0%nat) Ht allocation_fits) as Hs.
  unfold simulated in Hs. destruct (allocate_remote xxh64 a data t) as [[t' r]|].
  - destruct Hs as (h & M & Htr & Hr & R). destruct (faulty_trail_inv h M Htr) as (res & bump & bytes & E & Hm & _ & Hc).
    cbn [fst snd] in *. specialize (Hc 0%nat h (lookup_singleton_eq _ _)). subst M.
    assert (Hret : resume prog h = Returns r) by (unfold resume; specialize (R []); rewrite app_nil_r in R; by rewrite R).
    pose proof (alloc_client_returned _ _ _ _ _ _ _ _ _ _ _ _ _ Hc Hret) as Hx.
    assert (Hb : bump = b0 \/ bump = b0 + extent_total (len data)).
    { rewrite (am_bump _ _ _ _ _ _ _ Hm). pose proof (am_dom _ _ _ _ _ _ _ Hm) as Hdom.
      destruct (decide (0%nat ∈ dom res)) as [Hin|Hout].
      - right. rewrite <- demand_one. do 2 f_equal. set_solver.
      - left. replace (dom res) with (∅ : gset nat) by set_solver. unfold demand. rewrite set_fold_empty. lia. }
    exists t', r, bump, bytes. split_and!; [done | exact Hr | apply Hm | apply Hm | exact Hb | apply Hm |].
    intros off ->. destruct Hx as [Hi He]. destruct (am_in _ _ _ _ _ _ _ Hm _ _ Hi) as [H1 H2]. cbv beta in H2.
    pose proof (data_ok_total data (al_data _ _ _ _ _ _ Hset 0%nat ltac:(set_solver))). pose proof (len_nonneg data).
    split_and!; [lia | lia | exact He].
  - destruct Hs as (h & M & Htr & Hp). destruct (faulty_trail_inv h M Htr) as (res & bump & bytes & _ & _ & _ & Hc).
    destruct (alloc_client_runs _ _ _ _ _ _ _ _ _ _ _ _ (Hc 0%nat h (lookup_singleton_eq _ _))) as [_ Hno].
    destruct Hno. unfold resume. by rewrite Hp.
Qed.
End allocation.

(** ** Properties *)

(** C29. A TCP connection that breaks: whatever byte the connection breaks at, in
    either direction, with a peer that speaks the documented frames, each operation
    whose arguments fit their fields returns without a panic.  Every read, every
    write, and a compare-and-swap inside the registered regions answers what the
    memory answers and has exactly that effect at the peer, or returns an error and
    has had that effect or none.  A compare-and-swap outside the regions has no
    effect and returns [Ok false] (the refusal itself is not reported) or an error.
    The connection is left so that the same holds for every later operation. *)
Theorem tcp_faults_atomic {P} `{FrameServer P} M (t : TcpTransport P) :
  tcp_line M t ->
  (forall n lkey addr rkey, let q := QRead n lkey addr rkey in request_fits q ->
     exists t' r M', tcp_read n addr rkey t = Done (t', r) /\ tcp_line M' t' /\ faulty_answer M q M' (ARead r))
  /\ (forall buf lkey addr rkey, let q := QWrite buf lkey addr rkey in request_fits q ->
     exists t' r M', tcp_write buf addr rkey t = Done (t', r) /\ tcp_line M' t' /\ faulty_answer M q M' (AWrite r))
  /\ (forall compare swap lkey addr rkey, let q := QCas compare swap lkey addr rkey in request_fits q ->
     ~ outside M rkey addr 8 ->
     exists t' r M', tcp_cas compare swap addr rkey t = Done (t', r) /\ tcp_line M' t' /\ faulty_answer M q M' (ACas r))
  /\ (forall compare swap lkey addr rkey, request_fits (QCas compare swap lkey addr rkey) -> outside M rkey addr 8 ->
     exists t' r, tcp_cas compare swap addr rkey t = Done (t', r) /\ tcp_line M t'
       /\ (r = Ok false \/ exists e, r = Err e)).
Proof.
  intros Ht. split_and!; intros;
    [by apply tcp_read_faulty | by apply tcp_write_faulty | by apply tcp_cas_faulty | by eapply tcp_cas_refused].

Qed.

(** A connection that carries 30 more bytes to the peer, 20 from it. *)
Definition sample_failing : TcpTransport rmem :=
  mkTcp (mkStream {[ 3 := (4096, to_le 8 64 ++ zeros 248) ]} [] [] (Some 30) (Some 20)) 1.

Lemma sample_failing_line : tcp_line sample_pool sample_failing.
Proof. split; [done|]. split; [unfold is_u64; cbn; lia | by left]. Qed.

Lemma tcp_faults_atomic_witness :
  exists t' r M', tcp_write [1; 2; 3; 4; 5; 6] 4100 3 sample_failing = Done (t', r) /\ tcp_line M' t'
    /\ faulty_answer sample_pool (QWrite [1; 2; 3; 4; 5; 6] 0 4100 3) M' (AWrite r)
    /\ r = Err (Internal "Broken pipe (os error 32)").
Proof.
  destruct (tcp_faults_atomic sample_pool sample_failing) as (_ & Hw & _).
  - apply sample_failing_line.
  - destruct (Hw [1; 2; 3; 4; 5; 6] 0 4100 3) as (t' & r & M' & E & Ht & Ha).
    + split_and!; unfold is_u32, is_u64, len; cbn; lia.
    + exists t', r, M'. split_and!; [exact E | exact Ht | exact Ha |]. vm_compute in E. by injection E as _ <-.
Defined.

(** An allocation over TCP whose connection may break anywhere: [allocate_remote]
    returns without a panic; the server's bump word has moved by exactly the size
    of the extent or not at all, the bytes outside the extent and all other regions
    are unchanged, and if the client got an offset it is the old bump offset and
    the extent there is complete (header, payload, checksum).  The bump
    offset must be past its own word, as for concurrent clients. *)
Theorem tcp_allocation_survives_faults {P} `{FrameServer P} xxh64 a data M0 bytes0 b0 (t : TcpTransport P) :
  8 <= b0 -> alloc_setup a (fun _ => data) {[0%nat]} M0 bytes0 b0 -> is_u32 (da_free_list_rkey a) -> tcp_line M0 t ->
  exists t' r bump bytes, allocate_remote xxh64 a data t = Done (t', r)
  /\ tcp_line (<[da_free_list_rkey a := (da_free_list_vaddr a, bytes)]> M0) t'
  /\ len bytes = len bytes0 /\ bread 0 8 bytes = to_le 8 bump
  /\ (bump = b0 \/ bump = b0 + extent_total (len data))
  /\ (forall o n, 8 <= o -> 0 <= n -> o + n <= b0 \/ bump <= o -> bread o n bytes = bread o n bytes0)
  /\ (forall off, r = Ok off ->
        off = b0 /\ bump = b0 + extent_total (len data) /\ ext_at bytes off (new_extent (xxh64 data) data)).
Proof. intros H8 Hset Hrk Ht. exact (faulty_allocation xxh64 a data M0 bytes0 b0 H8 Hset Hrk t Ht). Qed.

(** The connection carries the read and the compare-and-swap, then breaks. *)
Definition sample_lost : TcpTransport rmem := mkTcp (mkStream sample_pool [] [] (Some 62) None) 1.

(** It has reserved the space it never got: the bump word moved from 64 to 104. *)
Lemma lost_reservation_leaks :
  match allocate_remote (fun _ => 5) (DistributedExtentAllocator_new 4096 3 0) (sample_data 0) sample_lost with
  | Done (t', Err _) => (fun r => bread 0 8 r.2) <$> (ts_peer (tt_stream t') !! 3) = Some (to_le 8 104)
  | _ => False
  end.
Proof. by vm_compute. Qed.
