(* ===== verification/Network.v ===== *)
(** * Network: clients of one server over several TCP connections
    (src/transport/tcp.rs under src/client and src/engine/extent.rs)

    The server is one peer; each connection has its own stream, request ids and
    breaking point, and any number of operations may share a connection, as the
    mutex around the stream allows.  An operation is sent and answered in one step,
    by the code of [Tcp].  The network refines the system of clients with faults of
    [Interleave], so what is proved there of every interleaving holds of clients
    over TCP connections that break. *)

From S2P Require Import Prelude Errors Transport Extent ExtentSpec Interleave Remote RemoteConc Tcp Faults.

Open Scope Z_scope.

(** A transport with another peer at its far end; [TcpTransport unit] is a
    connection on its own. *)
Definition with_peer {P Q} (q : Q) (t : TcpTransport P) : TcpTransport Q :=
  let s := tt_stream t in
  mkTcp (mkStream q (ts_sent s) (ts_received s) (ts_out s) (ts_in s)) (tt_request_id t).

Lemma line_ok_with_peer {P Q} (q : Q) (t : TcpTransport P) : line_ok (with_peer q t) <-> line_ok t.
Proof. done. Qed.

Section network.
Context {P : Type} `{FrameServer P} {A : Type} (prog : nat -> stM recorder RdmaError A) (conn_of : nat -> nat).

(** The server, the connections, and what each client has received. *)
Definition network : Type := P * gmap nat (TcpTransport unit) * gmap nat (list reply).

(** Client [i] performs its next operation on its connection. *)
Inductive net_step : network -> network -> Prop :=
| net_op p C T i c h q t a :
    T !! i = Some h -> resume (prog i) h = Asks q -> C !! conn_of i = Some c ->
    perform (with_peer p c) q = (t, a) ->
    net_step (p, C, T) (ts_peer (tt_stream t), <[conn_of i := with_peer tt t]> C, <[i := h ++ [a]]> T)
(** A connection is opened, or opened again; it may break anywhere. *)
| net_connect p C T j out inn t :
    TcpTransport_connect "" (Ok (mkStream p [] [] out inn)) (Ok tt) = Ok t ->
    net_step (p, C, T) (p, <[j := with_peer tt t]> C, T).

Definition connections_ok (C : gmap nat (TcpTransport unit)) : Prop := map_Forall (fun _ c => line_ok c) C.

(** The network is in the state [(M, T)] of the system. *)
Definition net_repr (n : network) (s : system) : Prop :=
  fs_repr s.1 n.1.1 /\ connections_ok n.1.2 /\ s.2 = n.2.

Context (clients : gset nat) (M0 : rmem)
  (fits : forall s i h q, rtc (sys_step prog true) (start clients M0) s -> s.2 !! i = Some h ->
    resume (prog i) h = Asks q -> request_promised s.1 q).

Lemma net_step_simulated n n' s :
  rtc (sys_step prog true) (start clients M0) s -> net_repr n s -> net_step n n' ->
  exists s', rtc (sys_step prog true) s s' /\ net_repr n' s'.
Proof using fits.
  intros Hr (Hp & HC & HT) Hs. destruct s as [M T0]. cbn [fst snd] in *. destruct Hs as [p C T i c h q t a Hh Hq Hc E|p C T j o inn t E].
  - cbn [fst snd] in *. subst T0. pose proof (fits _ i h q Hr Hh Hq) as Hf.
    destruct (fm_perform M (with_peer p c) q) as (M' & Ht & Ha); [split; [done | exact (HC _ _ Hc)] | done |].
    rewrite E in Ht, Ha. cbn [fst snd] in *. destruct Ht as [Hp' Hl].
    exists (M', <[i := h ++ [a]]> T). split.
    + apply rtc_once. destruct Ha as [Ha|(e & -> & HM)]; [|by eapply sys_fault].
      pose proof (sys_op prog true M T i h q Hh Hq) as Hs. by rewrite <- Ha in Hs.
    + split_and!; [done | by apply map_Forall_insert_2 | done].
  - exists (M, T). cbn [fst snd] in *. subst T0. injection E as <-. split; [done|].
    split_and!; [done | | done]. apply map_Forall_insert_2; [|done]. split; [unfold is_u64; cbn; lia | by left].
Qed.

Lemma net_run_simulated n n' s :
  rtc net_step n n' -> rtc (sys_step prog true) (start clients M0) s -> net_repr n s ->
  exists s', rtc (sys_step prog true) (start clients M0) s' /\ net_repr n' s'.
Proof using fits.
  intros Hr. revert s. induction Hr as [n|n1 n2 n3 Hs _ IH]; intros s Hrs Hn; [eauto|].
  destruct (net_step_simulated n1 n2 s Hrs Hn Hs) as (s' & Hs' & Hn'). apply (IH s'); [by etrans | done].
Qed.

(** Every run of the network is a run of the system with faults. *)
Lemma network_simulated p0 C0 n :
  fs_repr M0 p0 -> connections_ok C0 -> rtc net_step (p0, C0, gset_to_gmap [] clients) n ->
  exists s, rtc (sys_step prog true) (start clients M0) s /\ net_repr n s.
Proof using fits. intros Hp HC Hr. by eapply net_run_simulated. Qed.
End network.

(** The network that follows a schedule of client numbers. *)
Fixpoint net_schedule {P A} `{FrameServer P} (prog : nat -> stM recorder RdmaError A) (conn_of : nat -> nat)
    (order : list nat) (n : network (P := P)) : network :=
  match order with
  | [] => n
  | i :: order =>
      let '(p, C, T) := n in
      match T !! i, C !! conn_of i with
      | Some h, Some c =>
          match resume (prog i) h with
          | Asks q =>
              let '(t, a) := perform (with_peer p c) q in
              net_schedule prog conn_of order
                (ts_peer (tt_stream t), <[conn_of i := with_peer tt t]> C, <[i := h ++ [a]]> T)
          | _ => net_schedule prog conn_of order n
          end
      | _, _ => net_schedule prog conn_of order n
      end
  end.

Lemma net_schedule_run {P A} `{FrameServer P} (prog : nat -> stM recorder RdmaError A) conn_of order (n : network (P := P)) :
  rtc (net_step prog conn_of) n (net_schedule prog conn_of order n).
Proof.
  revert n. induction order as [|i order IH]; intros [[p C] T]; cbn [net_schedule]; [done|].
  destruct (T !! i) as [h|] eqn:Ei; [|done]. destruct (C !! conn_of i) as [c|] eqn:Ec; [|done].
  destruct (resume (prog i) h) as [q| |] eqn:Eq; [|done..].
  destruct (perform (with_peer p c) q) as [t a] eqn:Ep. eapply rtc_l; [by eapply net_op | apply IH].
Qed.

(** ** Properties *)

(** C20. Remote allocation over TCP: any number of clients allocate on one
    server that speaks the documented frames, over any number of connections,
    several clients on one connection if they like; the operations interleave in
    any order, each connection may break at any byte in either direction, and
    connections may be opened at any time. In every reachable state the server's
    memory is the initial one except for the allocator's region; there the bump
    word is at most the initial offset plus what the clients ask for, a client
    that returned an offset owns a complete extent (header, payload, checksum)
    before the bump, apart from all others, and the bytes outside are unchanged;
    no client panics or takes more than five operations. The guarantee needs a
    bump offset past the bump word itself, [8 <= b0], and addresses of all
    requested extents that fit 64 bits. The regions that bootstrap creates start
    at 0, where it fails: the first extent is written over the bump word
    ([remote_extent_hazards]). *)
Theorem tcp_network_allocations_safe {P} `{FrameServer P} xxh64 a data clients conn_of M0 bytes0 b0 (p0 p : P) C0 C T :
  8 <= b0 -> alloc_setup a data clients M0 bytes0 b0 -> is_u32 (da_free_list_rkey a) ->
  fs_repr M0 p0 -> connections_ok C0 ->
  rtc (net_step (allocator xxh64 a data) conn_of) (p0, C0, gset_to_gmap [] clients) (p, C, T) ->
  exists M, fs_repr M p /\ connections_ok C /\ alloc_guarantee xxh64 a data clients M0 bytes0 b0 (M, T).
Proof.
  intros H8 Hset Hrk Hp HC Hr.
  destruct (network_simulated (allocator xxh64 a data) conn_of clients M0) with (p0 := p0) (C0 := C0) (n := (p, C, T))
    as ([M T'] & Hs & Hp' & HC' & HT); [|done..|].
  - intros s i h q Hs%(faulty_alloc_inv xxh64 a data clients M0 bytes0 b0 H8 Hset). by apply (allocations_fit _ _ _ _ _ _ _ H8 Hset Hrk).
  - cbn in HT. subst T'. exists M. split_and!; [done | done |].
    by eapply alloc_inv_guarantee, faulty_alloc_inv.
Qed.

(** Two clients: the connection of the second one breaks after its read. *)
Definition sample_connections : gmap nat (TcpTransport unit) :=
  {[ 0%nat := mkTcp (mkStream tt [] [] None None) 1; 1%nat := mkTcp (mkStream tt [] [] (Some 40) None) 1 ]}.

Definition sample_network : network (P := rmem) :=
  net_schedule (allocator (fun _ => 5) (DistributedExtentAllocator_new 4096 3 0) sample_data) (fun i => i)
    [0; 1; 0; 1; 0; 0; 0]%nat (sample_pool, sample_connections, gset_to_gmap [] {[0%nat; 1%nat]}).

Lemma tcp_network_allocations_safe_witness :
  exists M, sample_network.1.1 = M
    /\ alloc_guarantee (fun _ => 5) (DistributedExtentAllocator_new 4096 3 0) sample_data {[0%nat; 1%nat]} sample_pool
         (to_le 8 64 ++ zeros 248) 64 (M, sample_network.2)
    /\ resume (allocator (fun _ => 5) (DistributedExtentAllocator_new 4096 3 0) sample_data 0)
         (default [] (sample_network.2 !! 0%nat)) = Returns (Ok 64).
Proof.
  destruct (tcp_network_allocations_safe (fun _ => 5) (DistributedExtentAllocator_new 4096 3 0) sample_data {[0%nat; 1%nat]}
    (fun i => i) sample_pool (to_le 8 64 ++ zeros 248) 64 sample_pool sample_network.1.1 sample_connections
    sample_network.1.2 sample_network.2) as (M & HM & _ & Hg).
  - lia.
  - apply sample_alloc_setup.
  - unfold is_u32. cbn. lia.
  - done.
  - apply map_Forall_insert_2; [|apply map_Forall_singleton]; (split; [unfold is_u64; cbn; lia | by left]).
  - replace (sample_network.1.1, sample_network.1.2, sample_network.2) with sample_network by (by destruct sample_network as [[??]?]).
    apply net_schedule_run.
  - exists M. split_and!; [exact HM | exact Hg | vm_compute; reflexivity].
Defined.
