(* ===== verification/Retry.v ===== *)
(** * Retry: backoff and timeouts of client operations (src/client/retry.rs)

    An operation ([FnMut]) is a function on a state; the loop returns the final
    state, the result and the delays slept.  Durations are in nanoseconds; the
    random jitter, in microseconds, is an argument. *)

From S2P Require Import Prelude Errors.

Open Scope Z_scope.

Record RetryConfig : Type := mkRetryConfig {
  max_retries : Z;
  base_delay : Z;
  max_delay : Z
}.


(** [Duration] holds at most u64::MAX seconds; multiplication beyond panics. *)
Definition DURATION_MAX : Z := 2 ^ 64 * 10 ^ 9 - 1.

(** [base_delay * 2u32.pow(attempt)], capped; [2u32.pow] wraps. *)
Definition backoff_delay (c : RetryConfig) (attempt : Z) : exec Z :=
  let d := base_delay c * u32 (2 ^ attempt) in
  _ ← exec_assert (d <=? DURATION_MAX);
  Done (Z.min d (max_delay c)).

(** The delay slept, in microseconds: never negative. *)
Definition final_delay (delay jitter : Z) : Z := Z.max (delay / 1000 + jitter) 0.

Section retry.
Context {S A E : Type} (op : S -> S * result A E) (c : RetryConfig) (jitter : Z -> Z -> Z).

(** [jitter attempt delay] is the jitter drawn for that attempt.  [remaining] is
    [max_retries - attempt]; [retriable] is the test of [retry_rdma_op] and
    constantly true for [retry_with_backoff]. *)
Fixpoint retry_loop (retriable : E -> bool) (remaining : nat) (attempt : Z) (s : S) (slept : list Z)
  : exec (S * result A E * list Z) :=
  let '(s, r) := op s in
  match r with
  | Ok result => Done (s, Ok result, slept)
  | Err err =>
      match remaining with
      | O => Done (s, Err err, slept)
      | Datatypes.S remaining =>
          if negb (retriable err) then Done (s, Err err, slept)
          else
            let attempt := attempt + 1 in
            delay ← backoff_delay c attempt;
            retry_loop retriable remaining attempt s
              (slept ++ [final_delay delay (jitter attempt delay)])
      end
  end.

Definition retry_with_backoff (s : S) : exec (S * result A E * list Z) :=
  retry_loop (fun _ => true) (Z.to_nat (max_retries c)) 0 s [].


(** ** Lemmas *)







End retry.

Definition retry_rdma_op {S A} (op : S -> S * result A RdmaError) (c : RetryConfig)
    (jitter : Z -> Z -> Z) (s : S) : exec (S * result A RdmaError * list Z) :=
  retry_loop op c jitter is_retriable (Z.to_nat (max_retries c)) 0 s [].

(** ** Pending operations *)

Record PendingTracker : Type := mkPendingTracker {
  pt_pending : gmap Z (Z * string);
  pt_timeout : Z
}.

Definition PendingTracker_new (timeout : Z) : PendingTracker := mkPendingTracker ∅ timeout.
Definition PendingTracker_default : PendingTracker := PendingTracker_new 1000000.

Definition pt_register (p : PendingTracker) (future_id : Z) (description : string) (now : Z) : PendingTracker :=
  mkPendingTracker (<[future_id := (now, description)]> (pt_pending p)) (pt_timeout p).
Definition pt_complete (p : PendingTracker) (future_id : Z) : PendingTracker :=
  mkPendingTracker (delete future_id (pt_pending p)) (pt_timeout p).

(** [Instant::duration_since] saturates at zero. *)
Definition duration_since (now start : Z) : Z := Z.max (now - start) 0.

Definition scan_timeouts (p : PendingTracker) (order : list (Z * (Z * string))) (now : Z) : list (Z * Z) :=
  (fun e => (e.1, duration_since now e.2.1))
    <$> filter (fun e => pt_timeout p < duration_since now e.2.1) order.

Definition collect_timeouts (p : PendingTracker) (now : Z) : PendingTracker * Z :=
  let kept := filter (fun e : Z * (Z * string) => duration_since now e.2.1 <= pt_timeout p) (pt_pending p) in
  (mkPendingTracker kept (pt_timeout p), Z.of_nat (size (pt_pending p)) - Z.of_nat (size kept)).

Definition pt_pending_count (p : PendingTracker) : Z := Z.of_nat (size (pt_pending p)).

(** ** Properties *)



(** The largest jitter on a delay at its cap of 10 ms: the sleep is 12.5 ms. *)
Example jitter_exceeds_max_delay :
  let c := mkRetryConfig 1 10000000 10000000 in
  exists out, retry_rdma_op (fun _ : unit => (tt, (Err CasFailed : result unit RdmaError))) c (fun _ d => d / 4000) tt = Done out
    /\ out.2 = [12500] /\ max_delay c / 1000 = 10000.
Proof. eexists. by vm_compute. Qed.
