(* ===== verification/Runtime.v ===== *)
(** * Runtime: async operations and the completion poller
    (src/runtime/ops.rs, src/runtime/poller.rs, src/rdma/cq.rs)

    Futures inside [post_and_wait] and [rdma_batch], the poller thread and the
    adapter as a transition system: every lock section of the pending map, every post and
    every delivery is a step, so all interleavings of any number of futures with
    the poller are covered.  The adapter completes posted work requests in any
    order and with any status.  The ids of a batch are chosen by the caller:
    [allowed] is what callers may choose.  The theorems: when these ids are fresh
    and apart from the runtime's own, no completion is lost or misdelivered, and
    every awaited operation can finish. *)

From S2P Require Import Prelude Errors Verbs.

Open Scope Z_scope.

Abbreviation wc_res := (result WorkCompletion RdmaError).

Section runtime.
(** The [Debug] text of a completion status. *)
Context (fmt_status : Z -> string).

Definition dropped_text (batch : bool) (w : Z) : string :=
  "Oneshot channel dropped for " +:+ (if batch then "batch " else "") +:+ "wr_id=" +:+ pretty w
    +:+ ": poller may have panicked".

(** What the poller sends for a completion. *)
Definition wc_result (wc : WorkCompletion) : wc_res :=
  if is_success wc then Ok wc
  else Err (HardwareError ("WC error: status=" +:+ fmt_status (wc_status wc)
              +:+ ", vendor_err=" +:+ pretty (wc_vendor_err wc))).

(** The results of the three operations from the one of [post_and_wait]. *)
Definition rdma_read_result (r : wc_res) : result Z RdmaError :=
  match r with Ok wc => Ok (wc_byte_len wc) | Err e => Err e end.
Definition rdma_write_result (r : wc_res) : result unit RdmaError :=
  match r with Ok _ => Ok tt | Err e => Err e end.
Definition rdma_cas_result (r : wc_res) : result bool RdmaError :=
  match r with Ok wc => Ok (is_success wc) | Err e => Err e end.

(** The result of [rdma_batch] from what it receives. *)
Definition rdma_batch_result (last_id : Z) (r : wc_res) : result Z RdmaError :=
  match r with
  | Ok wc => if negb (is_success wc)
             then Err (HardwareError ("batch WC error: status=" +:+ fmt_status (wc_status wc)))
             else Ok last_id
  | Err e => Err e
  end.

(** ** State *)

(** A future in [post_and_wait]: it has its work request id, has registered its
    sender, has posted and awaits the channel [ch], has failed to post and will
    clean up, was dropped while waiting, or has returned.  A future in
    [rdma_batch] registers under the last id of its batch and then is like one
    that waits for this id. *)
Inductive fut_state : Type :=
| FIdle
| FHaveId (w : Z)
| FRegistered (w : Z)
| FBatch (w : Z)
| FWaiting (w : Z) (ch : option wc_res)
| FFailed (w : Z) (e : RdmaError)
| FDropped (w : Z)
| FDone (w : Z) (r : wc_res).

(** The stop flag and the poller thread: not set; set after the thread read it
    at the top of its loop, so that one more poll follows; set and seen. *)
Inductive stop_state : Type := Running | LastTurn | Stopped.

(** [rt_inflight] are the posted requests the adapter has not completed, [rt_cq]
    the completion queue, [rt_hand] the completions the poller has polled but
    not dispatched.  [rt_unsignalled] are the requests of batches that report
    only failures.  [rt_started], [rt_batched] and [rt_log] are ghost: the ids
    the counter gave out, those callers chose, and the completions the adapter
    generated. *)
Record rt_state : Type := mkRt {
  rt_next_wr_id : Z;
  rt_pending : gmap Z nat;
  rt_futures : gmap nat fut_state;
  rt_inflight : list Z;
  rt_cq : list WorkCompletion;
  rt_hand : list WorkCompletion;
  rt_shutdown : stop_state;
  rt_started : Z;
  rt_log : list WorkCompletion;
  rt_batched : gset Z;
  rt_unsignalled : gset Z
}.

(** ** The code between steps *)

(** [sender.send(result)]: the value reaches the channel of a waiting future and
    is ignored when the receiver is gone. *)
Definition send (futs : gmap nat fut_state) (f : nat) (r : wc_res) : gmap nat fut_state :=
  match futs !! f with
  | Some (FWaiting w None) => <[f := FWaiting w (Some r)]> futs
  | _ => futs
  end.

(** [for wc in wcs { if let Some(sender) = map.remove(&wc.wr_id) { .. } }]. *)
Fixpoint dispatch (pending : gmap Z nat) (futs : gmap nat fut_state) (wcs : list WorkCompletion)
  : gmap Z nat * gmap nat fut_state :=
  match wcs with
  | [] => (pending, futs)
  | wc :: wcs =>
      match pending !! wc_wr_id wc with
      | Some sender => dispatch (delete (wc_wr_id wc) pending) (send futs sender (wc_result wc)) wcs
      | None => dispatch pending futs wcs
      end
  end.

Definition set_fut (s : rt_state) (f : nat) (st : fut_state) : rt_state :=
  mkRt (rt_next_wr_id s) (rt_pending s) (<[f := st]> (rt_futures s)) (rt_inflight s) (rt_cq s)
    (rt_hand s) (rt_shutdown s) (rt_started s) (rt_log s) (rt_batched s) (rt_unsignalled s).
Definition set_pending (s : rt_state) (p : gmap Z nat) : rt_state :=
  mkRt (rt_next_wr_id s) p (rt_futures s) (rt_inflight s) (rt_cq s) (rt_hand s) (rt_shutdown s)
    (rt_started s) (rt_log s) (rt_batched s) (rt_unsignalled s).
Definition set_inflight (s : rt_state) (l : list Z) : rt_state :=
  mkRt (rt_next_wr_id s) (rt_pending s) (rt_futures s) l (rt_cq s) (rt_hand s) (rt_shutdown s)
    (rt_started s) (rt_log s) (rt_batched s) (rt_unsignalled s).
(** The caller of [rdma_batch] uses the ids [ws], of which [us] are unsignalled. *)
Definition use_ids (s : rt_state) (ws us : gset Z) : rt_state :=
  mkRt (rt_next_wr_id s) (rt_pending s) (rt_futures s) (rt_inflight s) (rt_cq s) (rt_hand s)
    (rt_shutdown s) (rt_started s) (rt_log s) (ws ∪ rt_batched s) (us ∪ rt_unsignalled s).

Definition after_poll (st : stop_state) : stop_state :=
  match st with Running => Running | LastTurn | Stopped => Stopped end.

(** ** Steps *)

(** The ids that callers of [rdma_batch] may choose in a state. *)
Context (allowed : rt_state -> list Z -> Prop).

Inductive rt_step : rt_state -> rt_state -> Prop :=
(** [self.next_wr_id()]. *)
| rs_take_id s f :
    rt_futures s !! f = Some FIdle ->
    rt_step s (mkRt (u64 (rt_next_wr_id s + 1)) (rt_pending s)
      (<[f := FHaveId (rt_next_wr_id s)]> (rt_futures s)) (rt_inflight s) (rt_cq s) (rt_hand s)
      (rt_shutdown s) (rt_started s + 1) (rt_log s) (rt_batched s) (rt_unsignalled s))
(** [map.insert(wr_id, tx)] under the lock. *)
| rs_register s f w :
    rt_futures s !! f = Some (FHaveId w) ->
    rt_step s (set_pending (set_fut s f (FRegistered w)) (<[w := f]> (rt_pending s)))
(** [post_send] succeeds. *)
| rs_post s f w :
    rt_futures s !! f = Some (FRegistered w) ->
    rt_step s (set_inflight (set_fut s f (FWaiting w None)) (w :: rt_inflight s))
(** [post_send] fails. *)
| rs_post_fail s f w e :
    rt_futures s !! f = Some (FRegistered w) ->
    rt_step s (set_fut s f (FFailed w e))
(** [rdma_batch]: [map.insert(last_id, tx)] under the lock. *)
| rs_batch s f w :
    rt_futures s !! f = Some FIdle -> allowed s [w] ->
    rt_step s (set_pending (set_fut (use_ids s {[w]} ∅) f (FBatch w)) (<[w := f]> (rt_pending s)))
(** [post_send_batch] succeeds: only the last request is signalled. *)
| rs_post_batch s f w ws :
    rt_futures s !! f = Some (FBatch w) -> allowed s ws ->
    rt_step s (set_inflight (set_fut (use_ids s (list_to_set ws) (list_to_set ws)) f (FWaiting w None))
                 (w :: ws ++ rt_inflight s))
(** [post_send_batch] fails. *)
| rs_post_batch_fail s f w e :
    rt_futures s !! f = Some (FBatch w) ->
    rt_step s (set_fut s f (FFailed w e))
(** An unsignalled request succeeds: no completion. *)
| rs_silent s w :
    w ∈ rt_inflight s -> w ∈ rt_unsignalled s ->
    rt_step s (set_inflight s (list_difference (rt_inflight s) [w]))
(** [map.remove(&wr_id)] under the lock, and the error is returned. *)
| rs_cleanup s f w e :
    rt_futures s !! f = Some (FFailed w e) ->
    rt_step s (set_pending (set_fut s f (FDone w (Err e))) (delete w (rt_pending s)))
(** The adapter completes a request. *)
| rs_complete s wc :
    wc_wr_id wc ∈ rt_inflight s ->
    rt_step s (mkRt (rt_next_wr_id s) (rt_pending s) (rt_futures s)
      (list_difference (rt_inflight s) [wc_wr_id wc]) (rt_cq s ++ [wc]) (rt_hand s) (rt_shutdown s)
      (rt_started s) (wc :: rt_log s) (rt_batched s) (rt_unsignalled s))
(** [cq.poll(16)] in the poller loop. *)
| rs_poll s k :
    rt_shutdown s <> Stopped -> rt_hand s = [] -> (k <= 16)%nat ->
    rt_step s (mkRt (rt_next_wr_id s) (rt_pending s) (rt_futures s) (rt_inflight s)
      (drop k (rt_cq s)) (take k (rt_cq s)) (after_poll (rt_shutdown s)) (rt_started s) (rt_log s)
      (rt_batched s) (rt_unsignalled s))
(** The dispatch loop under the lock. *)
| rs_dispatch s p futs :
    dispatch (rt_pending s) (rt_futures s) (rt_hand s) = (p, futs) ->
    rt_step s (mkRt (rt_next_wr_id s) p futs (rt_inflight s) (rt_cq s) [] (rt_shutdown s)
      (rt_started s) (rt_log s) (rt_batched s) (rt_unsignalled s))
(** [rx.await] resolves. *)
| rs_receive s f w r :
    rt_futures s !! f = Some (FWaiting w (Some r)) -> rt_step s (set_fut s f (FDone w r))
(** [rx.await] fails: the sender was in the pending map and is there no more. *)
| rs_sender_gone s f w batch :
    rt_futures s !! f = Some (FWaiting w None) -> (forall w', rt_pending s !! w' <> Some f) ->
    rt_step s (set_fut s f (FDone w (Err (Internal (dropped_text batch w)))))
(** The future is dropped while it waits. *)
| rs_cancel s f w ch :
    rt_futures s !! f = Some (FWaiting w ch) -> rt_step s (set_fut s f (FDropped w))
(** [Poller::shutdown] or its [Drop]. *)
| rs_shutdown s st :
    rt_shutdown s = Running -> st <> Running ->
    rt_step s (mkRt (rt_next_wr_id s) (rt_pending s) (rt_futures s) (rt_inflight s) (rt_cq s)
      (rt_hand s) st (rt_started s) (rt_log s) (rt_batched s) (rt_unsignalled s)).

Inductive rt_run : rt_state -> rt_state -> Prop :=
| rr_refl s : rt_run s s
| rr_step s1 s2 s3 : rt_run s1 s2 -> rt_step s2 s3 -> rt_run s1 s3.

(** [RdmaRuntime::new] with a fresh pending map, and idle futures. *)
Definition rt_init (futs : gset nat) : rt_state :=
  mkRt 1 ∅ (set_to_map (fun f => (f, FIdle)) futs) [] [] [] Running 0 [] ∅ ∅.

(** ** Invariant *)

(** The discipline of callers: fresh ids from [B] on, where the counter does not
    get to. *)
Definition fresh_ids (B : Z) (s : rt_state) (ws : list Z) : Prop :=
  NoDup ws /\ forall w, w ∈ ws -> B <= w /\ w ∉ rt_batched s.

Context (B : Z) (B_u64 : B <= 2 ^ 64) (allowed_fresh : forall s ws, allowed s ws -> fresh_ids B s ws).

(** The id was given out or chosen. *)
Definition issued (s : rt_state) (w : Z) : Prop := 0 < w < rt_next_wr_id s \/ w ∈ rt_batched s.

Definition fut_id (st : fut_state) : option Z :=
  match st with
  | FIdle => None
  | FHaveId w | FRegistered w | FBatch w | FWaiting w _ | FFailed w _ | FDropped w | FDone w _ => Some w
  end.

(** The ids that the adapter, the queue or the poller still hold. *)
Definition live (s : rt_state) : list Z :=
  rt_inflight s ++ (wc_wr_id <$> rt_cq s) ++ (wc_wr_id <$> rt_hand s).

(** No request with this id is or was posted. *)
Definition unposted (s : rt_state) (w : Z) : Prop :=
  w ∉ live s /\ w ∉ wc_wr_id <$> rt_log s.

(** The result is the one of the completion of this id. *)
Definition completed_with (s : rt_state) (w : Z) (r : wc_res) : Prop :=
  w ∉ live s /\ exists wc, wc ∈ rt_log s /\ wc_wr_id wc = w /\ r = wc_result wc.

(** Where the sender and the completion of a future are in each of its states. *)
Definition fut_ok (s : rt_state) (f : nat) (st : fut_state) : Prop :=
  match st with
  | FIdle | FDropped _ => True
  | FHaveId w => unposted s w
  | FRegistered w | FBatch w | FFailed w _ => rt_pending s !! w = Some f /\ unposted s w
  | FWaiting w None => rt_pending s !! w = Some f /\ w ∈ live s
  | FWaiting w (Some r) => completed_with s w r
  | FDone w r => completed_with s w r \/ (unposted s w /\ exists e, r = Err e)
  end.

Record rt_inv (s : rt_state) : Prop := {
  rv_next : rt_next_wr_id s = 1 + rt_started s;
  rv_started : 0 <= rt_started s;
  rv_ids : forall f st w, rt_futures s !! f = Some st -> fut_id st = Some w -> issued s w;
  rv_inj : forall f g st st' w, rt_futures s !! f = Some st -> rt_futures s !! g = Some st' ->
             fut_id st = Some w -> fut_id st' = Some w -> f = g;
  rv_pending : forall w f, rt_pending s !! w = Some f -> exists st, rt_futures s !! f = Some st /\ fut_id st = Some w;
  rv_nodup : NoDup (live s);
  rv_live : forall w, w ∈ live s -> issued s w;
  rv_log_ids : forall w, w ∈ wc_wr_id <$> rt_log s -> issued s w;
  rv_batched : forall w, w ∈ rt_batched s -> B <= w;
  rv_unsignalled : forall w, w ∈ rt_unsignalled s ->
    w ∈ rt_batched s /\ forall f st, rt_futures s !! f = Some st -> fut_id st <> Some w;
  rv_log_nodup : NoDup (wc_wr_id <$> rt_log s);
  rv_inflight : forall w, w ∈ rt_inflight s -> w ∉ wc_wr_id <$> rt_log s;
  rv_log : forall wc, wc ∈ rt_cq s ++ rt_hand s -> wc ∈ rt_log s;
  rv_futs : forall f st, rt_futures s !! f = Some st -> fut_ok s f st
}.

(** ** Preservation *)

(** Two states agree on everything an id is about. *)
Definition same_at (s s' : rt_state) (w : Z) : Prop :=
  rt_pending s' !! w = rt_pending s !! w /\ (w ∈ live s' <-> w ∈ live s)
  /\ (w ∈ live s \/ (w ∈ wc_wr_id <$> rt_log s' <-> w ∈ wc_wr_id <$> rt_log s)).

Lemma fut_ok_frame s s' f st :
  rt_log s ⊆ rt_log s' -> (forall w, fut_id st = Some w -> same_at s s' w) ->
  fut_ok s f st -> fut_ok s' f st.
Proof.
  intros Hlog Hs. assert (Hu : forall w, fut_id st = Some w -> unposted s w -> unposted s' w).
  { intros w Hw [H1 H2]. destruct (Hs w Hw) as (_ & Hl & [Hin|Hlg]); [done|].
    split; [by rewrite Hl | by rewrite Hlg]. }
  assert (Hc : forall w r, fut_id st = Some w -> completed_with s w r -> completed_with s' w r).
  { intros w r Hw (H1 & wc & H2 & H3). destruct (Hs w Hw) as (_ & Hl & _).
    split; [by rewrite Hl|]. exists wc. split; [by apply Hlog | done]. }
  destruct st as [|w|w|w|w [r|]|w e|w|w r]; cbn [fut_ok]; try done.
  - by apply Hu.
  - intros [H1 H2]. destruct (Hs w eq_refl) as (-> & _). split; [done | by apply Hu].
  - intros [H1 H2]. destruct (Hs w eq_refl) as (-> & _). split; [done | by apply Hu].
  - by apply Hc.
  - intros [H1 H2]. destruct (Hs w eq_refl) as (-> & -> & _). done.
  - intros [H1 H2]. destruct (Hs w eq_refl) as (-> & _). split; [done | by apply Hu].
  - intros [H|[H1 H2]]; [left; by apply Hc | right; split; [by apply Hu | done]].
Qed.

(** A step of future [f] with id [w] that leaves the other ids alone. *)
Lemma rt_inv_fut s s' f st st' w :
  rt_inv s -> rt_futures s !! f = Some st -> fut_id st = Some w -> fut_id st' = Some w ->
  rt_next_wr_id s' = rt_next_wr_id s -> rt_started s' = rt_started s ->
  rt_futures s' = <[f := st']> (rt_futures s) -> rt_log s' = rt_log s ->
  rt_batched s' = rt_batched s -> rt_unsignalled s' = rt_unsignalled s ->
  (forall w', w' <> w -> rt_pending s' !! w' = rt_pending s !! w') ->
  (forall g, rt_pending s' !! w = Some g -> g = f) ->
  (forall w', w' <> w -> w' ∈ live s' <-> w' ∈ live s) ->
  (forall w', w' ∈ rt_inflight s' -> w' ∈ rt_inflight s \/ w' ∉ wc_wr_id <$> rt_log s) ->
  (forall wc, wc ∈ rt_cq s' ++ rt_hand s' -> wc ∈ rt_cq s ++ rt_hand s) ->
  NoDup (live s') -> fut_ok s' f st' -> rt_inv s'.
Proof.
  intros Hi Hf Hw Hw' Hn Hs Hfs Hlog Hba Hun Hp Hpw Hlive Hinf Hcq Hnd Hok.
  assert (Hother : forall g stg, <[f := st']> (rt_futures s) !! g = Some stg ->
    exists stg0, rt_futures s !! g = Some stg0 /\ fut_id stg0 = fut_id stg /\ (g <> f -> stg = stg0)).
  { intros g stg [[<- <-]|[Hne Hg]]%lookup_insert_Some.
    - exists st. split_and!; [done | congruence | done].
    - exists stg. done. }
  assert (Hiss : issued s' = issued s) by (unfold issued; by rewrite Hn, Hba).
  constructor; rewrite ?Hiss, ?Hn, ?Hs, ?Hfs, ?Hlog, ?Hba, ?Hun; try apply Hi; try done.
  - intros g stg w' Hg Hid. destruct (Hother _ _ Hg) as (stg0 & Hg0 & Hid0 & _).
    apply (rv_ids _ Hi g stg0 w'); congruence.
  - intros g g' stg stg' w' Hg Hg' Hid Hid'. destruct (Hother _ _ Hg) as (s1 & H1 & E1 & _).
    destruct (Hother _ _ Hg') as (s2 & H2 & E2 & _). apply (rv_inj _ Hi g g' s1 s2 w'); congruence.
  - intros w' g Hg. destruct (decide (w' = w)) as [->|Hne].
    + rewrite (Hpw g Hg). exists st'. by rewrite lookup_insert_eq.
    + rewrite Hp in Hg by done. destruct (rv_pending _ Hi _ _ Hg) as (stg & Hg' & Hid).
      exists stg. rewrite lookup_insert_ne; [done|]. intros <-. congruence.
  - intros w' Hl. destruct (decide (w' = w)) as [->|Hne]; [by apply (rv_ids _ Hi f st)|].
    rewrite Hlive in Hl by done. by apply (rv_live _ Hi).
  - intros w' Hu. destruct (rv_unsignalled _ Hi w' Hu) as [Hb Hno]. split; [done|]. intros g stg Hg.
    destruct (Hother _ _ Hg) as (stg0 & Hg0 & <- & _). by apply (Hno g).
  - intros w' [Hl|Hl]%Hinf; [by apply (rv_inflight _ Hi) | done].
  - intros wc Hwc. by apply (rv_log _ Hi), Hcq.
  - intros g stg Hg. destruct (decide (g = f)) as [->|Hne].
    + rewrite lookup_insert_eq in Hg. by injection Hg as <-.
    + rewrite lookup_insert_ne in Hg by congruence.
      apply (fut_ok_frame s s'); [by rewrite Hlog | | by apply (rv_futs _ Hi)].
      intros w' Hid. assert (w' <> w) by (intros ->; apply Hne; by apply (rv_inj _ Hi g f stg st w)).
      split_and!; [by apply Hp | by apply Hlive | right; by rewrite Hlog].
Qed.
(** The adapter and the poller move completions around. *)
Lemma rt_inv_move s s' :
  rt_inv s -> rt_next_wr_id s' = rt_next_wr_id s -> rt_started s' = rt_started s ->
  rt_futures s' = rt_futures s -> rt_pending s' = rt_pending s ->
  rt_batched s' = rt_batched s -> rt_unsignalled s' = rt_unsignalled s -> live s' ≡ₚ live s -> rt_log s ⊆ rt_log s' -> NoDup (wc_wr_id <$> rt_log s') ->
  (forall w, w ∈ wc_wr_id <$> rt_log s' -> w ∈ wc_wr_id <$> rt_log s \/ w ∈ live s) ->
  (forall w, w ∈ rt_inflight s' -> w ∉ wc_wr_id <$> rt_log s') ->
  (forall wc, wc ∈ rt_cq s' ++ rt_hand s' -> wc ∈ rt_log s') -> rt_inv s'.
Proof.
  intros Hi Hn Hs Hf Hp Hba Hun Hl Hlog Hnd Hold Hinf Hcq.
  assert (Hiss : issued s' = issued s) by (unfold issued; by rewrite Hn, Hba).
  constructor; rewrite ?Hiss, ?Hn, ?Hs, ?Hf, ?Hp, ?Hba, ?Hun; try apply Hi; try done.
  - rewrite Hl. apply Hi.
  - intros w Hw. rewrite Hl in Hw. by apply (rv_live _ Hi).
  - intros w [Hw|Hw]%Hold; [by apply (rv_log_ids _ Hi) | by apply (rv_live _ Hi)].
  - intros f st Hst. apply (fut_ok_frame s s'); [done | | by apply (rv_futs _ Hi)].
    intros w _. split_and!; [by rewrite Hp | by rewrite Hl |].
    destruct (decide (w ∈ live s)) as [Hin|Hin]; [by left | right]. split; [|].
    + intros [Hw|Hw]%Hold; done.
    + intros (wc & -> & Hwc)%list_elem_of_fmap. apply list_elem_of_fmap. eauto.
Qed.

Lemma removed_perm (l : list Z) w : NoDup l -> w ∈ l -> l ≡ₚ w :: list_difference l [w].
Proof.
  intros Hnd Hw. apply NoDup_Permutation; [done | |].
  - apply NoDup_cons. split; [rewrite list_elem_of_difference; set_solver | by apply NoDup_list_difference].
  - intros x. rewrite elem_of_cons, list_elem_of_difference, list_elem_of_singleton.
    destruct (decide (x = w)) as [->|]; naive_solver.
Qed.

Lemma rt_inv_complete s wc :
  rt_inv s -> wc_wr_id wc ∈ rt_inflight s ->
  rt_inv (mkRt (rt_next_wr_id s) (rt_pending s) (rt_futures s)
      (list_difference (rt_inflight s) [wc_wr_id wc]) (rt_cq s ++ [wc]) (rt_hand s) (rt_shutdown s)
      (rt_started s) (wc :: rt_log s) (rt_batched s) (rt_unsignalled s)).
Proof.
  intros Hi Hw. assert (Hnd : NoDup (rt_inflight s)) by (pose proof (rv_nodup _ Hi) as H; by apply NoDup_app in H as [H _]).
  apply (rt_inv_move s); try done; cbn [rt_log rt_inflight rt_cq rt_hand].
  - unfold live. cbn [rt_inflight rt_cq rt_hand]. rewrite (removed_perm _ _ Hnd Hw) at 2.
    rewrite fmap_app. cbn [fmap list_fmap app]. solve_Permutation.
  - set_solver.
  - cbn [fmap list_fmap]. apply NoDup_cons. split; [by apply (rv_inflight _ Hi) | apply Hi].
  - intros w. cbn [fmap list_fmap]. rewrite elem_of_cons. intros [->|]; [right|by left].
    unfold live. apply elem_of_app. by left.
  - intros w [Hin Hne]%list_elem_of_difference. rewrite list_elem_of_singleton in Hne.
    cbn [fmap list_fmap]. rewrite elem_of_cons. intros [|H]; [done|]. by apply (rv_inflight _ Hi w).
  - intros wc' Hwc. rewrite elem_of_cons. destruct (decide (wc' = wc)) as [->|Hne]; [by left | right].
    apply (rv_log _ Hi). set_solver.
Qed.
(** The state while the dispatch loop is at [wcs]. *)
Definition dispatching (s : rt_state) (p : gmap Z nat) (futs : gmap nat fut_state)
    (wcs : list WorkCompletion) : rt_state :=
  mkRt (rt_next_wr_id s) p futs (rt_inflight s) (rt_cq s) wcs (rt_shutdown s) (rt_started s) (rt_log s)
    (rt_batched s) (rt_unsignalled s).

Lemma live_hand s wc wcs :
  rt_hand s = wc :: wcs ->
  live s ≡ₚ wc_wr_id wc :: live (dispatching s (rt_pending s) (rt_futures s) wcs).
Proof. intros E. unfold live. rewrite E. cbn. solve_Permutation. Qed.

(** A future whose id is still live waits for it or was dropped. *)
Lemma live_fut s f st w :
  fut_ok s f st -> fut_id st = Some w -> w ∈ live s ->
  (st = FWaiting w None /\ rt_pending s !! w = Some f) \/ st = FDropped w.
Proof.
  intros Hok Hid Hl. destruct st as [|w'|w'|w'|w' [r|]|w' e|w'|w' r]; try done; injection Hid as ->; cbn in Hok;
    unfold unposted, completed_with in Hok; naive_solver.
Qed.

Lemma dispatch_one_inv s wc wcs :
  rt_inv s -> rt_hand s = wc :: wcs ->
  match rt_pending s !! wc_wr_id wc with
  | Some f => rt_inv (dispatching s (delete (wc_wr_id wc) (rt_pending s))
                        (send (rt_futures s) f (wc_result wc)) wcs)
  | None => rt_inv (dispatching s (rt_pending s) (rt_futures s) wcs)
  end.
Proof.
  intros Hi Eh. set (w := wc_wr_id wc). pose proof (live_hand s wc wcs Eh) as Hperm. fold w in Hperm.
  assert (Hin : w ∈ live s) by (rewrite Hperm; set_solver).
  pose proof (rv_nodup _ Hi) as Hnd. rewrite Hperm in Hnd. apply NoDup_cons in Hnd as [Hout Hnd].
  assert (Hlive : forall w', w' <> w -> w' ∈ live (dispatching s (rt_pending s) (rt_futures s) wcs) <-> w' ∈ live s)
    by (intros w' Hne; rewrite Hperm, elem_of_cons; naive_solver).
  assert (Hcq : forall wc', wc' ∈ rt_cq s ++ wcs -> wc' ∈ rt_cq s ++ rt_hand s) by (rewrite Eh; set_solver).
  assert (Hwc : wc ∈ rt_log s) by (apply (rv_log _ Hi); rewrite Eh; set_solver).
  destruct (rt_pending s !! w) as [f|] eqn:Hp.
  - destruct (rv_pending _ Hi _ _ Hp) as (st & Hf & Hid).
    assert (Hst : exists st', send (rt_futures s) f (wc_result wc) = <[f := st']> (rt_futures s)
      /\ fut_id st' = Some w /\ (st' = FWaiting w (Some (wc_result wc)) \/ st' = FDropped w)).
    { unfold send. rewrite Hf.
      destruct (live_fut s f st w (rv_futs _ Hi _ _ Hf) Hid Hin) as [[-> _]| ->].
      - eexists. split_and!; [done | done | by left].
      - exists (FDropped w). rewrite insert_id by done. split_and!; [done | done | by right]. }
    destruct Hst as (st' & -> & Hid' & Hst').
    apply (rt_inv_fut s _ f st st' w); try done; cbn [rt_pending dispatching].
    + intros w' Hne. by rewrite lookup_delete_ne.
    + intros g. by rewrite lookup_delete_eq.
    + intros w' Hw'. by left.
    + destruct Hst' as [->| ->]; [|done]. split; [done|]. by exists wc.
  - constructor; try apply Hi; try done; cbn [dispatching rt_futures].
    + intros w' Hw'. apply (rv_live _ Hi). rewrite Hperm. by right.
    + intros wc' H. by apply (rv_log _ Hi), Hcq.
    + intros g st Hg. pose proof (rv_futs _ Hi _ _ Hg) as Hok.
      destruct (decide (fut_id st = Some w)) as [Hid|Hid].
      * destruct (live_fut s g st w Hok Hid Hin) as [[_ Hpg]| ->]; [congruence | done].
      * apply (fut_ok_frame s); [done | | done]. intros w' Hw'. assert (w' <> w) by congruence.
        split_and!; [done | by apply Hlive | by right].
Qed.

Lemma dispatch_inv s p futs :
  rt_inv s -> dispatch (rt_pending s) (rt_futures s) (rt_hand s) = (p, futs) ->
  rt_inv (dispatching s p futs []).
Proof.
  remember (rt_hand s) as wcs eqn:Eh. revert s Eh.
  induction wcs as [|wc wcs IH]; intros s Eh Hi E.
  { injection E as <- <-. destruct s; cbn in *; subst. done. }
  cbn [dispatch] in E. pose proof (dispatch_one_inv s wc wcs Hi (eq_sym Eh)) as H1.
  destruct (rt_pending s !! wc_wr_id wc) as [f|].
  - exact (IH (dispatching s _ _ wcs) eq_refl H1 E).
  - exact (IH (dispatching s _ _ wcs) eq_refl H1 E).
Qed.

(** An idle future gets an id that was not issued before. *)
Lemma rt_inv_new_id s s' f w :
  rt_inv s -> rt_futures s !! f = Some FIdle -> ~ issued s w -> issued s' w ->
  (forall w', issued s w' -> issued s' w') -> rt_next_wr_id s' = 1 + rt_started s' -> 0 <= rt_started s' ->
  (forall w', w' ∈ rt_batched s' -> B <= w') -> rt_batched s ⊆ rt_batched s' ->
  rt_futures s' = <[f := FHaveId w]> (rt_futures s) -> rt_pending s' = rt_pending s ->
  rt_inflight s' = rt_inflight s -> rt_cq s' = rt_cq s -> rt_hand s' = rt_hand s -> rt_log s' = rt_log s ->
  rt_unsignalled s' = rt_unsignalled s -> rt_inv s'.
Proof.
  intros Hi Hf Hw Hw' Hmono Hn Hst HB Hsub Hfs Hp Hin Hcq Hh Hlog Hun.
  assert (Hlive : live s' = live s) by (unfold live; by rewrite Hin, Hcq, Hh).
  assert (Hfresh : forall g st, rt_futures s !! g = Some st -> fut_id st <> Some w).
  { intros g st Hg Hid. by apply Hw, (rv_ids _ Hi g st). }
  constructor; rewrite ?Hlive, ?Hlog, ?Hfs, ?Hp, ?Hin, ?Hcq, ?Hh, ?Hun; try apply Hi; try done.
  - intros g st w' [[<- <-]|[Hne Hg]]%lookup_insert_Some Hid; [by injection Hid as <-|].
    by apply Hmono, (rv_ids _ Hi g st).
  - intros g g' st st' w' [[<- <-]|[Hne Hg]]%lookup_insert_Some [[<- <-]|[Hne' Hg']]%lookup_insert_Some Hid Hid';
      [done | injection Hid as <-; by destruct (Hfresh _ _ Hg') | injection Hid' as <-; by destruct (Hfresh _ _ Hg) |].
    by apply (rv_inj _ Hi g g' st st' w').
  - intros w' g Hg. destruct (rv_pending _ Hi w' g Hg) as (st & Hst' & Hid). exists st.
    rewrite lookup_insert_ne; [done|]. intros ->. by rewrite Hf in Hst'; simplify_eq.
  - intros w' Hl. by apply Hmono, (rv_live _ Hi).
  - intros w' Hl. by apply Hmono, (rv_log_ids _ Hi).
  - intros w' Hu. destruct (rv_unsignalled _ Hi w' Hu) as [Hb Hno]. split; [by apply Hsub|].
    intros g st [[<- <-]|[Hne Hg]]%lookup_insert_Some; [|by apply (Hno g)]. intros [= ->]. apply Hw. by right.
  - intros g st [[<- <-]|[Hne Hg]]%lookup_insert_Some.
    + split; [rewrite Hlive; intros H%(rv_live _ Hi) | rewrite Hlog; intros H%(rv_log_ids _ Hi)]; done.
    + apply (fut_ok_frame s); [by rewrite Hlog | | by apply (rv_futs _ Hi)]. intros w' _.
      split_and!; [by rewrite Hp | by rewrite Hlive | right; by rewrite Hlog].
Qed.

Lemma rt_inv_take_id s f :
  rt_inv s -> rt_futures s !! f = Some FIdle -> rt_started s + 1 < B - 1 ->
  rt_inv (mkRt (u64 (rt_next_wr_id s + 1)) (rt_pending s)
      (<[f := FHaveId (rt_next_wr_id s)]> (rt_futures s)) (rt_inflight s) (rt_cq s) (rt_hand s)
      (rt_shutdown s) (rt_started s + 1) (rt_log s) (rt_batched s) (rt_unsignalled s)).
Proof using B_u64.
  intros Hi Hf Hb. pose proof (rv_next _ Hi) as Hn. pose proof (rv_started _ Hi).
  rewrite u64_small by (unfold is_u64; lia).
  apply (rt_inv_new_id s _ f (rt_next_wr_id s)); try done; unfold issued; cbn; try lia; try apply Hi.
  - intros [?|Hbt%(rv_batched _ Hi)]; lia.
  - intros w' [?|?]; [left; lia | by right].
Qed.

Lemma fresh_not_issued s w : rt_inv s -> rt_started s < B - 1 -> B <= w -> w ∉ rt_batched s -> ~ issued s w.
Proof. intros Hi Hb HB Hw [H|H]; [rewrite (rv_next _ Hi) in H; lia | done]. Qed.

(** A caller puts unsignalled requests into the adapter. *)
Lemma rt_inv_spread s ws :
  rt_inv s -> rt_started s < B - 1 -> allowed s ws ->
  rt_inv (set_inflight (use_ids s (list_to_set ws) (list_to_set ws)) (ws ++ rt_inflight s)).
Proof using allowed_fresh B_u64.
  intros Hi Hb [Hnd Hws]%allowed_fresh.
  assert (Hni : forall w, w ∈ ws -> ~ issued s w) by (intros w [H1 H2]%Hws; by apply fresh_not_issued).
  assert (Hmono : forall w, issued s w -> issued (set_inflight (use_ids s (list_to_set ws) (list_to_set ws)) (ws ++ rt_inflight s)) w).
  { intros w [H|H]; [by left | right; cbn; set_solver]. }
  assert (Hnew : forall w, w ∈ ws -> issued (set_inflight (use_ids s (list_to_set ws) (list_to_set ws)) (ws ++ rt_inflight s)) w)
    by (intros w H; right; cbn; set_solver).
  assert (Hlive : live (set_inflight (use_ids s (list_to_set ws) (list_to_set ws)) (ws ++ rt_inflight s)) = ws ++ live s)
    by (unfold live; cbn; by rewrite <- app_assoc).
  constructor; cbn [set_inflight use_ids rt_next_wr_id rt_started rt_futures rt_pending rt_log rt_cq rt_hand
    rt_inflight rt_batched rt_unsignalled]; try apply Hi.
  - intros f st w Hf Hid. by apply Hmono, (rv_ids _ Hi f st).
  - rewrite Hlive. apply NoDup_app. split_and!; [done | | apply Hi]. intros w Hw Hl. by apply (Hni w Hw), (rv_live _ Hi).
  - rewrite Hlive. intros w [Hw|Hw]%elem_of_app; [by apply Hnew | by apply Hmono, (rv_live _ Hi)].
  - intros w Hw. by apply Hmono, (rv_log_ids _ Hi).
  - intros w [Hw%elem_of_list_to_set|Hw]%elem_of_union; [by apply Hws | by apply (rv_batched _ Hi)].
  - intros w [Hw%elem_of_list_to_set|Hw]%elem_of_union.
    + split; [set_solver|]. intros f st Hf Hid. by apply (Hni w Hw), (rv_ids _ Hi f st).
    + destruct (rv_unsignalled _ Hi w Hw) as [H1 H2]. split; [set_solver | done].
  - intros w [Hw|Hw]%elem_of_app; [|by apply (rv_inflight _ Hi)]. intros Hl. by apply (Hni w Hw), (rv_log_ids _ Hi).
  - intros f st Hf. apply (fut_ok_frame s); [done | | by apply (rv_futs _ Hi)]. intros w Hid. split_and!; [done | | by right].
    rewrite Hlive, elem_of_app. split; [|by right]. intros [Hw|Hw]; [|done].
    destruct (Hni w Hw). by apply (rv_ids _ Hi f st).
Qed.

(** An unsignalled request disappears. *)
Lemma rt_inv_silent s w :
  rt_inv s -> w ∈ rt_inflight s -> w ∈ rt_unsignalled s ->
  rt_inv (set_inflight s (list_difference (rt_inflight s) [w])).
Proof.
  intros Hi Hw Hu. destruct (rv_unsignalled _ Hi w Hu) as [_ Hno].
  assert (Hnd : NoDup (rt_inflight s)) by (pose proof (rv_nodup _ Hi) as H; by apply NoDup_app in H as [H _]).
  assert (Hperm : live s ≡ₚ w :: live (set_inflight s (list_difference (rt_inflight s) [w])))
    by exact (Permutation_app_tail _ (removed_perm _ _ Hnd Hw)).
  assert (Hlive : forall w', w' <> w -> w' ∈ live (set_inflight s (list_difference (rt_inflight s) [w])) <-> w' ∈ live s)
    by (intros w' Hne; rewrite Hperm, elem_of_cons; naive_solver).
  constructor; cbn [set_inflight rt_next_wr_id rt_started rt_futures rt_pending rt_log rt_cq rt_hand rt_inflight
    rt_batched rt_unsignalled]; try apply Hi.
  - pose proof (rv_nodup _ Hi) as H. rewrite Hperm in H. by apply NoDup_cons in H as [_ H].
  - intros w' Hl. apply (rv_live _ Hi). rewrite Hperm. by right.
  - intros w' [Hl _]%list_elem_of_difference. by apply (rv_inflight _ Hi).
  - intros f st Hf. apply (fut_ok_frame s); [done | | by apply (rv_futs _ Hi)]. intros w' Hid.
    assert (w' <> w) by (intros ->; by apply (Hno f st)). split_and!; [done | by apply Hlive | by right].
Qed.

(** The batch steps, each as a step on ids followed by one of the future. *)
Lemma rt_inv_batch s f w :
  rt_inv s -> rt_started s < B - 1 -> rt_futures s !! f = Some FIdle -> allowed s [w] ->
  rt_inv (set_pending (set_fut (use_ids s {[w]} ∅) f (FBatch w)) (<[w := f]> (rt_pending s))).
Proof using allowed_fresh B_u64.
  intros Hi Hb Hf [_ Hw]%allowed_fresh. destruct (Hw w) as [HB Hnb]; [set_solver|].
  pose proof (fresh_not_issued s w Hi Hb HB Hnb) as Hni.
  assert (Hi1 : rt_inv (set_fut (use_ids s {[w]} ∅) f (FHaveId w))).
  { apply (rt_inv_new_id s _ f w); try done; unfold issued; cbn; try apply Hi.
    - right. by apply elem_of_union_l, elem_of_singleton.
    - intros w' [?|?]; [by left | right; by apply elem_of_union_r].
    - intros w' [->%elem_of_singleton|H]%elem_of_union; [done | by apply (rv_batched _ Hi)].
    - apply union_subseteq_r.
    - apply union_empty_l_L. }
  eapply (rt_inv_fut _ _ f (FHaveId w) (FBatch w) w Hi1); try done; cbn [rt_pending set_pending rt_futures set_fut].
  - apply lookup_insert_eq.
  - by rewrite insert_insert_eq.
  - intros w' Hne. by rewrite lookup_insert_ne.
  - intros g. rewrite lookup_insert_eq. congruence.
  - intros w' ?. by left.
  - apply Hi1.
  - split; [apply lookup_insert_eq|]. apply (rv_futs _ Hi1 f (FHaveId w)), lookup_insert_eq.
Qed.

Lemma rt_inv_post s f st w :
  rt_inv s -> rt_futures s !! f = Some st -> fut_id st = Some w -> rt_pending s !! w = Some f -> unposted s w ->
  rt_inv (set_inflight (set_fut s f (FWaiting w None)) (w :: rt_inflight s)).
Proof.
  intros Hi Hf Hid Hp [Hnl Hnlog].
  eapply (rt_inv_fut s _ f st (FWaiting w None) w); try done; cbn [rt_inflight rt_pending set_inflight set_fut].
  - intros g. rewrite Hp. congruence.
  - intros w' Hne. unfold live. cbn. rewrite elem_of_cons. naive_solver.
  - intros w' [->|]%elem_of_cons; [by right | by left].
  - unfold live. cbn. apply NoDup_cons. split; [exact Hnl | apply Hi].
  - split; [done|]. unfold live. cbn. by left.
Qed.

Lemma rt_inv_post_fail s f st w e :
  rt_inv s -> rt_futures s !! f = Some st -> fut_id st = Some w -> rt_pending s !! w = Some f -> unposted s w ->
  rt_inv (set_fut s f (FFailed w e)).
Proof.
  intros Hi Hf Hid Hp Hun. eapply (rt_inv_fut s _ f st (FFailed w e) w); try done; cbn [rt_pending set_fut].
  - intros g. rewrite Hp. congruence.
  - intros w' ?. by left.
  - apply Hi.
Qed.

Lemma rt_inv_post_batch s f w ws :
  rt_inv s -> rt_started s < B - 1 -> rt_futures s !! f = Some (FBatch w) -> allowed s ws ->
  rt_inv (set_inflight (set_fut (use_ids s (list_to_set ws) (list_to_set ws)) f (FWaiting w None))
            (w :: ws ++ rt_inflight s)).
Proof using allowed_fresh B_u64.
  intros Hi Hb Hf Ha. pose proof (rt_inv_spread s ws Hi Hb Ha) as Hi1.
  destruct (rv_futs _ Hi1 f (FBatch w) Hf) as [Hp Hun].
  exact (rt_inv_post _ f (FBatch w) w Hi1 Hf eq_refl Hp Hun).
Qed.

Lemma rt_inv_step s s' : rt_step s s' -> rt_started s' < B - 1 -> rt_inv s -> rt_inv s'.
Proof using allowed_fresh B_u64.
  intros Hstep Hb Hi. destruct Hstep as [s f Hf|s f w Hf|s f w Hf|s f w e Hf|s f w Hf Ha|s f w ws Hf Ha|s f w e Hf
    |s w Hw Hu|s f w e Hf|s wc Hw|s k Hsd Hh Hk|s p futs E|s f w r Hf|s f w batch Hf Hno|s f w ch Hf|s].
  - by apply rt_inv_take_id.
  - eapply (rt_inv_fut s _ f _ (FRegistered w) w); try done; cbn [rt_pending set_pending].
    + intros w' Hne. by rewrite lookup_insert_ne.
    + intros g. rewrite lookup_insert_eq. congruence.
    + intros w' ?. by left.
    + apply Hi.
    + split; [apply lookup_insert_eq|]. exact (rv_futs _ Hi _ _ Hf).
  - destruct (rv_futs _ Hi _ _ Hf) as [Hp Hun]. by apply (rt_inv_post s f (FRegistered w) w).
  - destruct (rv_futs _ Hi _ _ Hf) as [Hp Hun]. by apply (rt_inv_post_fail s f (FRegistered w) w).
  - by apply rt_inv_batch.
  - by apply rt_inv_post_batch.
  - destruct (rv_futs _ Hi _ _ Hf) as [Hp Hun]. by apply (rt_inv_post_fail s f (FBatch w) w).
  - by apply rt_inv_silent.
  - destruct (rv_futs _ Hi _ _ Hf) as [Hp Hun].
    eapply (rt_inv_fut s _ f _ (FDone w (Err e)) w); try done; cbn [rt_pending set_pending].
    + intros w' Hne. by rewrite lookup_delete_ne.
    + intros g. by rewrite lookup_delete_eq.
    + intros w' ?. by left.
    + apply Hi.
    + right. split; [exact Hun | by eexists].
  - by apply rt_inv_complete.
  - apply (rt_inv_move s); try done; cbn [rt_log rt_inflight rt_cq rt_hand]; try apply Hi.
    + unfold live. cbn. rewrite Hh. rewrite <- (take_drop k (rt_cq s)) at 3. rewrite fmap_app. cbn. solve_Permutation.
    + by left.
    + intros wc Hwc. apply (rv_log _ Hi). rewrite Hh, app_nil_r, <- (take_drop k (rt_cq s)). set_solver.
  - by apply dispatch_inv.
  - eapply (rt_inv_fut s _ f _ (FDone w r) w); try done; cbn [rt_pending set_fut].
    + intros g Hg. destruct (rv_pending _ Hi _ _ Hg) as (st & Hst & Hid). by apply (rv_inj _ Hi g f st (FWaiting w (Some r)) w).
    + intros w' ?. by left.
    + apply Hi.
    + left. exact (rv_futs _ Hi _ _ Hf).
  - destruct (rv_futs _ Hi _ _ Hf) as [Hp _]. by destruct (Hno w).
  - eapply (rt_inv_fut s _ f _ (FDropped w) w); try done; cbn [rt_pending set_fut].
    + intros g Hg. destruct (rv_pending _ Hi _ _ Hg) as (st & Hst & Hid). by apply (rv_inj _ Hi g f st (FWaiting w ch) w).
    + intros w' ?. by left.
    + apply Hi.
  - apply (rt_inv_move s); try done; cbn [rt_log rt_inflight rt_cq rt_hand]; try apply Hi. by left.
Qed.
Lemma wr_id_unique (l : list WorkCompletion) wc wc' :
  NoDup (wc_wr_id <$> l) -> wc ∈ l -> wc' ∈ l -> wc_wr_id wc = wc_wr_id wc' -> wc = wc'.
Proof.
  intros Hnd H1 H2 E. induction l as [|x l IH]; [by apply not_elem_of_nil in H1|].
  cbn in Hnd. apply NoDup_cons in Hnd as [Hx Hnd]. rewrite list_elem_of_fmap in Hx.
  apply elem_of_cons in H1 as [->|H1]; apply elem_of_cons in H2 as [->|H2];
    [done | destruct Hx; eauto | destruct Hx; eauto | auto].
Qed.

Lemma rt_step_started s s' : rt_step s s' -> rt_started s <= rt_started s'.
Proof. destruct 1; cbn; lia. Qed.

Lemma rt_init_inv futs : rt_inv (rt_init futs).
Proof.
  assert (Hidle : forall f st, rt_futures (rt_init futs) !! f = Some st -> st = FIdle).
  { intros f st Hf. apply lookup_set_to_map in Hf as (x & _ & [= _ <-]); [done|]. intros ? ? ? ? [= ->]. done. }
  constructor; try done; try (by constructor); try (intros ? H; by apply not_elem_of_nil in H).
  - intros f st w Hf Hid. by rewrite (Hidle _ _ Hf) in Hid.
  - intros f g st st' w Hf _ Hid. by rewrite (Hidle _ _ Hf) in Hid.
  - intros f st Hf. by rewrite (Hidle _ _ Hf).
Qed.

Lemma rt_run_inv s s' : rt_run s s' -> rt_started s' < B - 1 -> rt_inv s -> rt_inv s'.
Proof.
  induction 1 as [|s1 s2 s3 Hr IH Hs]; intros Hb Hi; [done|]. pose proof (rt_step_started _ _ Hs).
  apply (rt_inv_step s2); [done | done |]. apply IH; [lia | done].
Qed.

Lemma rt_run_trans s1 s2 s3 : rt_run s1 s2 -> rt_run s2 s3 -> rt_run s1 s3.
Proof. intros H1 H2. induction H2 as [|s2 s2' s3 _ IH Hs]; [done|]. eapply rr_step; [by apply IH | exact Hs]. Qed.

(** ** Progress *)

Definition can_finish (s : rt_state) (f : nat) (w : Z) : Prop :=
  exists s' wc, rt_run s s' /\ rt_futures s' !! f = Some (FDone w (wc_result wc)) /\ wc_wr_id wc = w.

Lemma can_finish_step s s1 f w : rt_step s s1 -> can_finish s1 f w -> can_finish s f w.
Proof.
  intros Hs (s' & wc & Hr & Hf). exists s', wc. split; [|done].
  eapply rt_run_trans; [|exact Hr]. eapply rr_step; [apply rr_refl | exact Hs].
Qed.

Lemma can_finish_delivered s f w r :
  rt_inv s -> rt_futures s !! f = Some (FWaiting w (Some r)) -> can_finish s f w.
Proof.
  intros Hi Hf. destruct (rv_futs _ Hi _ _ Hf) as (_ & wc & _ & Hw & ->).
  exists (set_fut s f (FDone w (wc_result wc))), wc. split_and!; [|apply lookup_insert_eq | done].
  eapply rr_step; [apply rr_refl | by apply rs_receive].
Qed.

Lemma dispatch_keeps p futs wcs f w ch :
  futs !! f = Some (FWaiting w ch) -> exists ch', (dispatch p futs wcs).2 !! f = Some (FWaiting w ch').
Proof.
  revert p futs ch. induction wcs as [|wc wcs IH]; intros p futs ch Hf; cbn [dispatch]; [by exists ch|].
  destruct (p !! wc_wr_id wc) as [g|]; [|by eapply IH].
  assert (exists ch', send futs g (wc_result wc) !! f = Some (FWaiting w ch')) as (ch' & Hf'); [|by eapply IH].
  unfold send. destruct (decide (g = f)) as [->|Hne].
  - rewrite Hf. destruct ch as [r|]; [by eexists|]. rewrite lookup_insert_eq. by eexists.
  - destruct (futs !! g) as [[]|]; try by eexists. destruct ch0; [by eexists|].
    rewrite lookup_insert_ne by done. by eexists.
Qed.

(** After a dispatch the future has its result, or still waits with an empty hand. *)
Lemma after_dispatch s f w ch :
  rt_inv s -> rt_started s < B - 1 -> rt_futures s !! f = Some (FWaiting w ch) ->
  (forall s1, rt_inv s1 -> rt_hand s1 = [] -> rt_cq s1 = rt_cq s -> rt_inflight s1 = rt_inflight s ->
     rt_shutdown s1 = rt_shutdown s -> rt_started s1 = rt_started s ->
     rt_futures s1 !! f = Some (FWaiting w None) -> can_finish s1 f w) ->
  can_finish s f w.
Proof.
  intros Hi Hb Hf Hk. destruct (dispatch (rt_pending s) (rt_futures s) (rt_hand s)) as [p futs] eqn:E.
  destruct (dispatch_keeps (rt_pending s) _ (rt_hand s) f w ch Hf) as (ch' & Hf'). rewrite E in Hf'.
  eapply can_finish_step; [by apply rs_dispatch|].
  pose proof (dispatch_inv s p futs Hi E) as Hi1.
  destruct ch' as [r|]; [by eapply can_finish_delivered | by apply Hk].
Qed.

Lemma can_finish_queued n s f w :
  (length (rt_cq s) <= n)%nat -> rt_inv s -> rt_started s < B - 1 -> rt_hand s = [] ->
  rt_shutdown s = Running -> w ∉ rt_inflight s -> rt_futures s !! f = Some (FWaiting w None) ->
  can_finish s f w.
Proof.
  revert s. induction n as [|n IH]; intros s Hn Hi Hb Hh Hsd Hnot Hf;
    destruct (rv_futs _ Hi _ _ Hf) as [_ Hl]; unfold live in Hl; rewrite Hh, !elem_of_app in Hl;
    destruct (rt_cq s) as [|wc cq] eqn:Ec; cbn [length fmap list_fmap] in *;
    try (by destruct Hl as [|[?%not_elem_of_nil|?%not_elem_of_nil]]); [lia|].
  pose proof (rs_poll s 1 ltac:(congruence) Hh ltac:(lia)) as Hstep. eapply can_finish_step; [exact Hstep|].
  pose proof (rt_inv_step _ _ Hstep Hb Hi) as Hi1. eapply after_dispatch; [exact Hi1 | done | exact Hf|].
  intros s1 Hi2 Hh2 Hc2 Hin2 Hsd2 Hb2 Hf2. cbn in Hc2, Hin2, Hsd2, Hb2. rewrite Hsd in Hsd2. cbn in Hsd2. rewrite Ec in Hc2. cbn in Hc2.
  apply IH; [rewrite Hc2; rewrite drop_0; lia | done | lia | done | congruence | congruence | done].
Qed.

(** ** After the poller *)

(** The poller has returned, and the future waits or was dropped. *)
Definition stranded (f : nat) (w : Z) (s : rt_state) : Prop :=
  rt_shutdown s = Stopped /\ rt_hand s = []
  /\ (rt_futures s !! f = Some (FWaiting w None) \/ rt_futures s !! f = Some (FDropped w)).

Lemma stranded_other s g st f w :
  rt_futures s !! g <> rt_futures s !! f ->
  rt_futures s !! f = Some (FWaiting w None) \/ rt_futures s !! f = Some (FDropped w) ->
  <[g := st]> (rt_futures s) !! f = Some (FWaiting w None) \/ <[g := st]> (rt_futures s) !! f = Some (FDropped w).
Proof. intros Hne. rewrite lookup_insert_ne; [done | by intros ->]. Qed.

Lemma stranded_step s s' f w : rt_step s s' -> rt_inv s -> stranded f w s -> stranded f w s'.
Proof.
  intros Hstep Hi (Hsd & Hh & Hf). destruct Hstep as [s g Hg|s g v Hg|s g v Hg|s g v e Hg|s g v Hg Ha|s g v ws Hg Ha|s g v e Hg
    |s v Hv Hu|s g v e Hg|s wc Hw|s k Hst _ _|s p futs E|s g v r Hg|s g v batch Hg Hno|s g v ch Hg|s st Hst _];
    try congruence; try by split_and!.
  all: try (split_and!; [done | done |]; cbn; apply stranded_other; [|done]; naive_solver congruence).
  - (* dispatch of an empty hand *) rewrite Hh in E. injection E as <- <-. by split.
  - (* the sender is still in the map *)
    split; [done | split; [done|]]. destruct (decide (g = f)) as [->|Hne]; [|cbn; by rewrite lookup_insert_ne].
    assert (v = w) as -> by naive_solver. destruct Hf as [Hf|Hf]; [|congruence].
    destruct (rv_futs _ Hi _ _ Hf) as [Hp _]. by destruct (Hno w).
  - split; [done | split; [done|]]. destruct (decide (g = f)) as [->|Hne]; [|cbn; by rewrite lookup_insert_ne].
    right. cbn. rewrite lookup_insert_eq. naive_solver congruence.
Qed.

Lemma stranded_run s s' f w : rt_run s s' -> rt_started s' < B - 1 -> rt_inv s -> stranded f w s -> stranded f w s'.
Proof.
  induction 1 as [|s1 s2 s3 Hr IH Hs]; intros Hb Hi Hf; [done|]. pose proof (rt_step_started _ _ Hs).
  apply (stranded_step s2); [done | apply (rt_run_inv s1); [done | lia | done] | apply IH; [lia | done | done]].
Qed.
End runtime.

(** ** Properties *)

(** C11. Completions are neither lost nor misdelivered, in any interleaving of the
    futures, batches, the poller and the adapter, as long as the ids of batches
    are fresh and not below [B], and fewer than [B] single operations are started
    ([B] up to 2^64): a future that has returned has the result of the only completion of its own work request,
    or an error of a request that was never posted; one that waits either has
    its sender registered and its request still in the adapter, the queue or
    the poller's hand, or has that result in its channel. *)
Theorem completions_routed fmt allowed B futs s f st :
  B <= 2 ^ 64 -> (forall s ws, allowed s ws -> fresh_ids B s ws) ->
  rt_run fmt allowed (rt_init futs) s -> rt_started s < B - 1 -> rt_futures s !! f = Some st ->
  match st with
  | FDone w r =>
      (exists wc, wc ∈ rt_log s /\ wc_wr_id wc = w /\ r = wc_result fmt wc
         /\ forall wc', wc' ∈ rt_log s -> wc_wr_id wc' = w -> wc' = wc)
      \/ ((exists e, r = Err e) /\ forall wc, wc ∈ rt_log s -> wc_wr_id wc <> w)
  | FWaiting w None => rt_pending s !! w = Some f /\ w ∈ live s
  | FWaiting w (Some r) => exists wc, wc ∈ rt_log s /\ wc_wr_id wc = w /\ r = wc_result fmt wc
  | _ => True
  end.
Proof.
  intros HB Ha Hr Hb Hf. pose proof (rt_run_inv fmt allowed B HB Ha _ _ Hr Hb (rt_init_inv fmt B futs)) as Hi.
  pose proof (rv_futs _ _ _ Hi _ _ Hf) as Hok. destruct st as [|w|w|w|w [r|]|w e|w|w r]; try done.
  - by destruct Hok as [_ Hok].
  - destruct Hok as [(_ & wc & Hwc & Hw & ->)|[[_ Hn] He]].
    + left. exists wc. split_and!; [done..|]. intros wc' Hwc' Hw'.
      apply (wr_id_unique (rt_log s)); [apply Hi | done | done | congruence].
    + right. split; [done|]. intros wc Hwc <-. apply Hn, list_elem_of_fmap. eauto.
Qed.

(** The run of one read, then a batch of two requests. *)
Definition sample_wc : WorkCompletion := mkWc 1 0 0 8 0 0 0 0.

Lemma sample_waiting :
  exists s, rt_run (fun _ => ""%string) (fresh_ids (2 ^ 63)) (rt_init {[0%nat; 1%nat]}) s
    /\ rt_started s = 1 /\ rt_shutdown s = Running
    /\ rt_futures s !! 0%nat = Some (FWaiting 1 None) /\ rt_futures s !! 1%nat = Some (FWaiting (2 ^ 63) None).
Proof.
  eexists. split.
  - eapply rr_step; [eapply rr_step; [eapply rr_step; [eapply rr_step; [eapply rr_step; [apply rr_refl|]|]|]|]|].
    + apply (rs_take_id _ _ _ 0%nat). vm_compute. reflexivity.
    + apply (rs_register _ _ _ 0%nat 1). vm_compute. reflexivity.
    + apply (rs_post _ _ _ 0%nat 1). vm_compute. reflexivity.
    + apply (rs_batch _ _ _ 1%nat (2 ^ 63)); [vm_compute; reflexivity|]. split; [apply NoDup_singleton|].
      intros w ->%list_elem_of_singleton. split; [done | apply not_elem_of_empty].
    + apply (rs_post_batch _ _ _ 1%nat (2 ^ 63) [2 ^ 63 + 1]); [vm_compute; reflexivity|].
      split; [apply NoDup_singleton|]. intros w ->%list_elem_of_singleton. split; [done|].
      by apply (bool_decide_unpack _).
  - split_and!; vm_compute; reflexivity.
Qed.

Lemma completions_routed_witness :
  exists s, rt_run (fun _ => ""%string) (fresh_ids (2 ^ 63)) (rt_init {[0%nat; 1%nat]}) s
    /\ rt_pending s !! (2 ^ 63) = Some 1%nat /\ 2 ^ 63 ∈ live s.
Proof.
  destruct sample_waiting as (s & Hr & Hs & _ & _ & Hf). exists s. split; [exact Hr|].
  apply (completions_routed (fun _ => ""%string) (fresh_ids (2 ^ 63)) (2 ^ 63) {[0%nat; 1%nat]} s 1%nat
    (FWaiting (2 ^ 63) None)); [lia | done | exact Hr | rewrite Hs; lia | exact Hf].
Defined.

(** C26. Every awaited operation can finish: from any reachable state in which the
    poller has not been shut down, a waiting future has a run (the adapter
    completes its request, the poller drains its queue and dispatches) that ends
    with the future returning the result of its own completion.  Request ids are
    fresh.  After a stop it can wait for ever ([shutdown_strands_waiters]). *)
Theorem awaited_operation_can_finish fmt allowed B futs s f w ch :
  B <= 2 ^ 64 -> (forall s ws, allowed s ws -> fresh_ids B s ws) ->
  rt_run fmt allowed (rt_init futs) s -> rt_started s < B - 1 -> rt_shutdown s = Running ->
  rt_futures s !! f = Some (FWaiting w ch) ->
  exists s' wc, rt_run fmt allowed s s' /\ rt_futures s' !! f = Some (FDone w (wc_result fmt wc))
    /\ wc_wr_id wc = w.
Proof.
  intros HB Ha Hr Hb Hsd Hf. pose proof (rt_run_inv fmt allowed B HB Ha _ _ Hr Hb (rt_init_inv fmt B futs)) as Hi.
  eapply (after_dispatch fmt allowed B); [done.. | |].
  { exact Hf. }
  intros s1 Hi1 Hh1 _ _ Hsd1 Hb1 Hf1. rewrite <- Hb1 in Hb.
  destruct (decide (w ∈ rt_inflight s1)) as [Hin|Hin];
    [|by eapply (can_finish_queued fmt allowed B); [done.. | reflexivity | done | done | done | congruence | done | done]].
  set (wc := mkWc w IBV_WC_SUCCESS 0 0 0 0 0 0).
  pose proof (rs_complete fmt allowed s1 wc Hin) as Hstep. eapply can_finish_step; [exact Hstep|].
  eapply (can_finish_queued fmt allowed B); [done.. | reflexivity | by eapply rt_inv_step | done | done | cbn; congruence | | done].
  cbn. rewrite list_elem_of_difference. set_solver.
Qed.

Lemma awaited_operation_can_finish_witness :
  exists s s' wc, rt_run (fun _ => ""%string) (fresh_ids (2 ^ 63)) s s'
    /\ rt_futures s' !! 0%nat = Some (FDone 1 (wc_result (fun _ => ""%string) wc)) /\ wc_wr_id wc = 1.
Proof.
  destruct sample_waiting as (s & Hr & Hs & Hsd & Hf & _). exists s.
  apply (awaited_operation_can_finish (fun _ => ""%string) (fresh_ids (2 ^ 63)) (2 ^ 63) {[0%nat; 1%nat]} s 0%nat 1 None);
    [lia | done | exact Hr | rewrite Hs; lia | exact Hsd | exact Hf].
Defined.

(** Stopping the poller strands the futures that still wait: their senders stay in
    the pending map, which the runtime keeps alive, so they neither receive a
    result nor an error, whatever the adapter completes. *)
Theorem shutdown_strands_waiters fmt allowed B futs s s' f w :
  B <= 2 ^ 64 -> (forall s ws, allowed s ws -> fresh_ids B s ws) ->
  rt_run fmt allowed (rt_init futs) s -> rt_run fmt allowed s s' -> rt_started s' < B - 1 ->
  rt_shutdown s = Stopped -> rt_hand s = [] -> rt_futures s !! f = Some (FWaiting w None) ->
  rt_futures s' !! f = Some (FWaiting w None) \/ rt_futures s' !! f = Some (FDropped w).
Proof.
  intros HB Ha H0 Hr Hb Hsd Hh Hf. assert (Hi : rt_inv fmt B s).
  { apply (rt_run_inv fmt allowed B HB Ha _ _ H0); [|apply rt_init_inv].
    enough (rt_started s <= rt_started s') by lia. clear -Hr. induction Hr as [|s1 s2 s3 _ IH Hs]; [done|].
    pose proof (rt_step_started _ _ _ _ Hs). lia. }
  destruct (stranded_run fmt allowed B HB Ha s s' f w Hr Hb Hi) as (_ & _ & H); [by split_and!; [| |left] | done].
Qed.

(** The compare-and-swap operation never answers [false]: the poller turns every
    completion that is not a success into an error, and a completed swap that
    did not match is a success for the adapter. *)
Lemma rdma_cas_never_false fmt wc : rdma_cas_result (wc_result fmt wc) <> Ok false.
Proof. unfold wc_result. destruct (is_success wc) eqn:E; cbn; congruence. Qed.

(** A read is posted and completes; a batch registers and posts under the same
    id; the poller polls the completion of the read. *)
Definition collided : rt_state :=
  mkRt 2 {[1 := 1%nat]} {[0%nat := FWaiting 1 None; 1%nat := FWaiting 1 None]} [1] [] [sample_wc]
    Running 1 [sample_wc] {[1]} ∅.

Lemma collision_run fmt : rt_run fmt (fun _ _ => True) (rt_init {[0%nat; 1%nat]}) collided.
Proof.
  eassert (H : rt_run fmt (fun _ _ => True) (rt_init {[0%nat; 1%nat]}) _).
  { eapply rr_step; [eapply rr_step; [eapply rr_step; [eapply rr_step; [eapply rr_step; [eapply rr_step; [eapply rr_step; [apply rr_refl|]|]|]|]|]|]|].
    - apply (rs_take_id _ _ _ 0%nat). vm_compute. reflexivity.
    - apply (rs_register _ _ _ 0%nat 1). vm_compute. reflexivity.
    - apply (rs_post _ _ _ 0%nat 1). vm_compute. reflexivity.
    - apply (rs_complete _ _ _ sample_wc). by left.
    - apply (rs_batch _ _ _ 1%nat 1); [vm_compute; reflexivity | done].
    - apply (rs_post_batch _ _ _ 1%nat 1 []); [vm_compute; reflexivity | done].
    - apply (rs_poll _ _ _ 1); [done | done | lia]. }
  match type of H with rt_run _ _ _ ?s => replace s with collided in H by (vm_compute; reflexivity) end.
  exact H.
Qed.

(** The poller delivers the completion to the batch. *)
Lemma collision_dispatch fmt :
  rt_step fmt (fun _ _ => True) collided
    (mkRt 2 ∅ (<[1%nat := FWaiting 1 (Some (wc_result fmt sample_wc))]> (rt_futures collided)) [1] [] []
      Running 1 [sample_wc] {[1]} ∅).
Proof.
  apply (rs_dispatch fmt (fun _ _ => True) collided). cbn [dispatch collided rt_pending rt_hand rt_futures].
  rewrite (lookup_singleton_eq (M := gmap Z) 1 1%nat : {[1 := 1%nat]} !! wc_wr_id sample_wc = Some 1%nat).
  f_equal.
Qed.

(** Without the discipline, a batch whose last id is the one of a pending read
    takes over its entry in the map: the read returns an error although its
    request succeeds, and the batch receives the completion of the read while
    its own requests are still in the adapter. *)
Theorem batch_id_collision fmt :
  exists s wc e, rt_run fmt (fun _ _ => True) (rt_init {[0%nat; 1%nat]}) s
    /\ rt_futures s !! 0%nat = Some (FDone 1 (Err e)) /\ is_success wc = true
    /\ rt_log s = [wc] /\ rt_futures s !! 1%nat = Some (FWaiting 1 (Some (wc_result fmt wc)))
    /\ 1 ∈ rt_inflight s.
Proof.
  pose proof (rr_step _ _ _ _ _ (collision_run fmt) (collision_dispatch fmt)) as Hr.
  eexists _, sample_wc, (Internal (dropped_text false 1)).
  split; [eapply rr_step; [exact Hr | apply (rs_sender_gone _ _ _ 0%nat 1 false)]|].
  - cbn [rt_futures]. by rewrite lookup_insert_ne.
  - done.
  - cbn [set_fut rt_futures rt_log rt_inflight]. split_and!; [apply lookup_insert_eq | done | done | | by left].
    rewrite lookup_insert_ne by done. apply lookup_insert_eq.
Qed.
