(* ===== verification/AsyncPoller.v ===== *)
(** * AsyncPoller: the event-driven completion poller
    ([AsyncPoller] of src/runtime/poller.rs, [CqEventChannel] of src/rdma/cq.rs)

    The thread of [spawn_with_config] and its environment as a transition system:
    the completion queue, its notification flag and the event channel, with the
    documented behaviour that a request for notification yields one event for the
    next completion that is added, and none for those already queued.  The clock
    is part of the state: [epoll_wait] times out only after its timeout, and the
    busy-poll window ends at its deadline.  Every call of the loop may fail.  The
    theorems: completions are harvested in order, without loss or duplication; a
    turn that no failure and no deadline cuts short harvests a batch, and with
    the busy-poll fallback and a positive timeout such turns are always possible;
    without the fallback a completion can be left behind. *)

From S2P Require Import Prelude Errors Verbs PollerThread.

Open Scope Z_scope.

(** The points of the thread: before the loop is entered, at the top of the loop,
    about to wait, waiting since an instant, with a readable channel, about to
    harvest, about to re-arm, about to open the busy-poll window, before the
    deadline test of an iteration of it with the iterations left, past that test,
    returned. *)
Inductive ap_point : Type :=
| PSetup | PTop | PWait | PBlocked (since : Z) | PEvent | PHarvest | PRearm
| PStart | PSpin (n : nat) (deadline : Z) | PPoll (n : nat) (deadline : Z) | PExit.

(** [ap_clock] is the monotonic clock, in nanoseconds; [ap_log] is ghost: every
    completion the adapter has added. *)
Record ap_state : Type := mkAp {
  ap_pc : ap_point;
  ap_cq : list WorkCompletion;
  ap_armed : bool;
  ap_events : nat;
  ap_harvested : list WorkCompletion;
  ap_shutdown : bool;
  ap_clock : Z;
  ap_log : list WorkCompletion
}.

Definition ap_init : ap_state := mkAp PSetup [] false 0 [] false 0 [].

Definition at_point (s : ap_state) (pc : ap_point) : ap_state :=
  mkAp pc (ap_cq s) (ap_armed s) (ap_events s) (ap_harvested s) (ap_shutdown s) (ap_clock s) (ap_log s).

(** [harvest_completions]: up to 16 entries are taken and dispatched. *)
Definition harvest (s : ap_state) (pc : ap_point) : ap_state :=
  mkAp pc (drop 16 (ap_cq s)) (ap_armed s) (ap_events s) (ap_harvested s ++ take 16 (ap_cq s))
    (ap_shutdown s) (ap_clock s) (ap_log s).

Definition arm (s : ap_state) (pc : ap_point) : ap_state :=
  mkAp pc (ap_cq s) true (ap_events s) (ap_harvested s) (ap_shutdown s) (ap_clock s) (ap_log s).

Definition take_event (s : ap_state) (n : nat) (pc : ap_point) : ap_state :=
  mkAp pc (ap_cq s) (ap_armed s) n (ap_harvested s) (ap_shutdown s) (ap_clock s) (ap_log s).

(** The adapter adds a completion; an armed queue sends one event. *)
Definition add_completion (s : ap_state) (wc : WorkCompletion) : ap_state :=
  mkAp (ap_pc s) (ap_cq s ++ [wc]) false (if ap_armed s then S (ap_events s) else ap_events s)
    (ap_harvested s) (ap_shutdown s) (ap_clock s) (ap_log s ++ [wc]).

Definition stop (s : ap_state) : ap_state :=
  mkAp (ap_pc s) (ap_cq s) (ap_armed s) (ap_events s) (ap_harvested s) true (ap_clock s) (ap_log s).

Definition pass_time (s : ap_state) (dt : Z) : ap_state :=
  mkAp (ap_pc s) (ap_cq s) (ap_armed s) (ap_events s) (ap_harvested s) (ap_shutdown s) (ap_clock s + dt) (ap_log s).

(** [epoll_wait] with this timeout may answer that nothing happened: not with a
    negative timeout, which waits for ever, and not before the timeout is over. *)
Definition timed_out (timeout_ms since now : Z) : Prop := 0 <= timeout_ms /\ since + timeout_ms * 1000000 <= now.

Section poller.
Context (cfg : AsyncPollerConfig).

Inductive poller_step : ap_state -> ap_state -> Prop :=
(** epoll set-up and the first [request_notification]. *)
| ps_setup s : ap_pc s = PSetup -> poller_step s (arm s PTop)
| ps_setup_fail s : ap_pc s = PSetup -> poller_step s (at_point s PExit)
| ps_shutdown s : ap_pc s = PTop -> ap_shutdown s = true -> poller_step s (at_point s PExit)
| ps_go_on s : ap_pc s = PTop -> ap_shutdown s = false -> poller_step s (at_point s PWait)
(** [epoll_wait]: a readable channel, an error or a signal, the timeout. *)
| ps_block s : ap_pc s = PWait -> poller_step s (at_point s (PBlocked (ap_clock s)))
| ps_ready s t : ap_pc s = PBlocked t -> (0 < ap_events s)%nat -> poller_step s (at_point s PEvent)
| ps_interrupted s t : ap_pc s = PBlocked t -> poller_step s (at_point s PTop)
| ps_timeout s t : ap_pc s = PBlocked t -> ap_events s = 0%nat -> timed_out (epoll_timeout_ms cfg) t (ap_clock s) ->
    poller_step s (at_point s (if busy_poll_fallback cfg then PStart else PTop))
(** [get_event] and [ack_events]. *)
| ps_get_event s n : ap_pc s = PEvent -> ap_events s = S n -> poller_step s (take_event s n PHarvest)
| ps_get_event_fail s : ap_pc s = PEvent -> poller_step s (at_point s PTop)
| ps_harvest s : ap_pc s = PHarvest -> poller_step s (harvest s PRearm)
| ps_harvest_fail s : ap_pc s = PHarvest -> poller_step s (at_point s PRearm)
| ps_rearm s : ap_pc s = PRearm -> poller_step s (arm s PTop)
| ps_rearm_fail s : ap_pc s = PRearm -> poller_step s (at_point s PTop)
(** The busy-poll window: its deadline, the test of the deadline before every
    poll, and the last iteration. *)
| ps_window s : ap_pc s = PStart ->
    poller_step s (at_point s (PSpin (busy_poll_iterations cfg) (ap_clock s + fallback_window cfg)))
| ps_in_time s n d : ap_pc s = PSpin (S n) d -> ap_clock s < d -> poller_step s (at_point s (PPoll n d))
| ps_deadline s n d : ap_pc s = PSpin (S n) d -> d <= ap_clock s -> poller_step s (at_point s PTop)
| ps_spin_end s d : ap_pc s = PSpin 0 d -> poller_step s (at_point s PTop)
| ps_poll s n d : ap_pc s = PPoll n d -> poller_step s (harvest s (PSpin n d))
| ps_poll_fail s n d : ap_pc s = PPoll n d -> poller_step s (at_point s (PSpin n d)).

(** The adapter, the clock and the caller of [shutdown], at any time. *)
Inductive interference : ap_state -> ap_state -> Prop :=
| if_complete s wc : interference s (add_completion s wc)
| if_time s dt : 0 <= dt -> interference s (pass_time s dt)
| if_shutdown s : interference s (stop s).

Inductive ap_step : ap_state -> ap_state -> Prop :=
| as_poller s s' : poller_step s s' -> ap_step s s'
| as_env s s' : interference s s' -> ap_step s s'.

(** A step that no failure, signal or early deadline cuts short: [epoll_wait] is
    not interrupted, no call that fetches an event or polls fails, and the
    busy-poll window is not over before its first poll. *)
Definition unhindered (s s' : ap_state) : Prop :=
  poller_step s s' /\
  match ap_pc s, ap_pc s' with
  | PBlocked _, PTop | PEvent, PTop => False
  | PHarvest, pc' | PPoll _ _, pc' => s' = harvest s pc'
  | PSpin n _, PTop => n <> busy_poll_iterations cfg
  | _, _ => True
  end.

Definition is_top (pc : ap_point) : bool := match pc with PTop => true | _ => false end.

(** Runs with unhindered steps of the thread among any steps of the environment,
    and the number of turns of the loop they complete. *)
Inductive turns : nat -> ap_state -> ap_state -> Prop :=
| tn_refl s : turns 0 s s
| tn_step k s1 s2 s3 : turns k s1 s2 -> unhindered s2 s3 -> turns (if is_top (ap_pc s3) then S k else k) s1 s3
| tn_env k s1 s2 s3 : turns k s1 s2 -> interference s2 s3 -> turns k s1 s3.

(** The thread alone, while time passes. *)
Inductive alone : ap_state -> ap_state -> Prop :=
| al_step s s' : poller_step s s' -> alone s s'
| al_time s dt : 0 <= dt -> alone s (pass_time s dt).

(** ** Lemmas *)

Definition ap_inv (s : ap_state) : Prop := ap_log s = ap_harvested s ++ ap_cq s.

Lemma harvest_inv s pc : ap_inv s -> ap_inv (harvest s pc).
Proof. unfold ap_inv. cbn. intros ->. by rewrite <- app_assoc, take_drop. Qed.

Lemma poller_step_inv s s' : poller_step s s' -> ap_inv s -> ap_inv s'.
Proof. intros []; try done; apply harvest_inv. Qed.

Lemma interference_inv s s' : interference s s' -> ap_inv s -> ap_inv s'.
Proof. intros [s1 wc|s1 dt|s1] Hi; try done. unfold ap_inv in *. cbn. by rewrite Hi, <- app_assoc. Qed.

Lemma ap_step_inv s s' : ap_step s s' -> ap_inv s -> ap_inv s'.
Proof. intros [? ? Hp|? ? Hi]; [by eapply poller_step_inv | by apply interference_inv]. Qed.

Lemma ap_run_inv s s' : rtc ap_step s s' -> ap_inv s -> ap_inv s'.
Proof. induction 1; eauto using ap_step_inv. Qed.

(** *** Unhindered turns *)

(** Whether the current turn has harvested. *)
Definition past (pc : ap_point) : nat :=
  match pc with
  | PRearm => 1
  | PSpin n _ => if (n =? busy_poll_iterations cfg)%nat then 0 else 1
  | PPoll n _ => if (S n =? busy_poll_iterations cfg)%nat then 0 else 1
  | _ => 0
  end.

(** After [k] turns from a state with [h] completions harvested of [l] added. *)
Record turn_inv (h l k : nat) (s : ap_state) : Prop := {
  ti_inv : ap_inv s;
  ti_log : (l <= length (ap_log s))%nat;
  ti_pc : match ap_pc s with PSetup => False | PSpin n _ => (n <= busy_poll_iterations cfg)%nat
          | PPoll n _ => (n < busy_poll_iterations cfg)%nat | _ => True end;
  ti_harvested : (min l (h + 16 * (k + past (ap_pc s))) <= length (ap_harvested s))%nat
}.

Lemma turn_inv_harvest h l k s pc j :
  turn_inv h l k s -> (j <= S k)%nat ->
  match pc with PSetup => False | PSpin n _ => (n <= busy_poll_iterations cfg)%nat
    | PPoll n _ => (n < busy_poll_iterations cfg)%nat | _ => True end ->
  (j + past pc <= S (k + past (ap_pc s)))%nat -> turn_inv h l j (harvest s pc).
Proof.
  intros [Hi Hl Hp Hh] Hj Hpc Hpast. split; [by apply harvest_inv | done | done|].
  cbn [harvest ap_pc ap_harvested]. rewrite length_app, length_take.
  assert (length (ap_log s) = length (ap_harvested s) + length (ap_cq s))%nat by (by rewrite Hi, length_app). lia.
Qed.

Lemma turn_inv_move h l k s s' j :
  turn_inv h l k s -> ap_log s' = ap_log s -> ap_harvested s' = ap_harvested s -> ap_cq s' = ap_cq s ->
  match ap_pc s' with PSetup => False | PSpin n _ => (n <= busy_poll_iterations cfg)%nat
    | PPoll n _ => (n < busy_poll_iterations cfg)%nat | _ => True end ->
  (j + past (ap_pc s') <= k + past (ap_pc s))%nat -> turn_inv h l j s'.
Proof. intros [Hi Hl Hp Hh] E1 E2 E3 Hpc Hj. unfold ap_inv in *. split; [congruence | by rewrite E1 | done | rewrite E2; lia]. Qed.

Lemma turn_inv_step h l k s s' :
  unhindered s s' -> turn_inv h l k s -> turn_inv h l (if is_top (ap_pc s') then S k else k) s'.
Proof.
  intros [Hst Hu] Hinv. pose proof (ti_pc _ _ _ _ Hinv) as Hp.
  destruct Hst; match goal with E : ap_pc _ = _ |- _ => rewrite E in Hu, Hp end; cbn in Hu; try done;
    try (destruct (busy_poll_fallback cfg); [|done]);
    try (match type of Hu with _ = harvest _ _ => try rewrite Hu end;
         eapply turn_inv_harvest; [exact Hinv | cbn; lia | cbn; try lia; done |]);
    try (eapply turn_inv_move; [exact Hinv | done | done | done | cbn; try lia; done |]);
    match goal with E : ap_pc _ = _ |- _ => rewrite E end; cbn -[Nat.eqb];
    repeat match goal with |- context [(?a =? ?b)%nat] => destruct (Nat.eqb_spec a b) end; lia.
Qed.

Lemma turn_inv_env h l k s s' : interference s s' -> turn_inv h l k s -> turn_inv h l k s'.
Proof.
  intros Hst Hinv. pose proof (interference_inv _ _ Hst (ti_inv _ _ _ _ Hinv)) as Hi.
  destruct Hinv as [_ Hl Hp Hh]. destruct Hst; split; cbn; try done. rewrite length_app. cbn. lia.
Qed.

Lemma turns_harvest k s s' :
  turns k s s' -> ap_pc s = PTop -> ap_inv s -> turn_inv (length (ap_harvested s)) (length (ap_log s)) k s'.
Proof.
  intros Ht Hp Hi. induction Ht as [s|k s1 s2 s3 Ht IH Hu|k s1 s2 s3 Ht IH He].
  - split; [done | done | by rewrite Hp | rewrite Hp; cbn; lia].
  - eapply turn_inv_step; eauto.
  - eapply turn_inv_env; eauto.
Qed.

(** *** Draining *)

(** The thread alone leads back to the top of its loop, and keeps the order of
    what it harvests. *)
Record progress (s s' : ap_state) : Prop := {
  pr_run : rtc alone s s';
  pr_pc : ap_pc s' = PTop;
  pr_shutdown : ap_shutdown s' = ap_shutdown s;
  pr_order : ap_harvested s' ++ ap_cq s' = ap_harvested s ++ ap_cq s;
  pr_length : (length (ap_cq s') <= length (ap_cq s))%nat
}.

Lemma progress_step s1 s2 s3 :
  poller_step s1 s2 -> ap_shutdown s2 = ap_shutdown s1 -> ap_harvested s2 = ap_harvested s1 -> ap_cq s2 = ap_cq s1 ->
  progress s2 s3 -> progress s1 s3.
Proof.
  intros Hst E1 E2 E3 [Hr Hp Hs Ho Hl].
  split; [eapply rtc_l; [by apply al_step | done] | done | congruence | congruence | by rewrite <- E3].
Qed.

Lemma progress_here s : ap_pc s = PTop -> progress s s.
Proof. intros Hp. split; [apply rtc_refl | done..]. Qed.

Lemma progress_spin s n d : ap_pc s = PSpin n d -> progress s (at_point (pass_time s (Z.max 0 (d - ap_clock s))) PTop).
Proof.
  intros Hp. split; [|done..]. eapply rtc_l; [apply al_time with (dt := Z.max 0 (d - ap_clock s)); lia|]. apply rtc_once, al_step.
  destruct n as [|n]; [by eapply ps_spin_end | eapply ps_deadline; [exact Hp | cbn [ap_clock pass_time]; lia]].
Qed.

Lemma progress_to_top s : ap_pc s <> PExit -> exists s', progress s s'.
Proof.
  intros Hp.
  assert (Hblk : forall s t, ap_pc s = PBlocked t -> exists s', progress s s').
  { intros s0 t E. eexists. eapply progress_step; [by eapply ps_interrupted | done..|]. by apply progress_here. }
  assert (Hspin : forall s n d, ap_pc s = PSpin n d -> exists s', progress s s') by (eauto using progress_spin).
  assert (Hrearm : forall s, ap_pc s = PRearm -> exists s', progress s s').
  { intros s0 E. eexists. eapply progress_step; [by eapply ps_rearm | done..|]. by apply progress_here. }
  destruct (ap_pc s) as [| | |t| | | | |n d|n d|] eqn:E; try done; eauto.
  - eexists. eapply progress_step; [by eapply ps_setup | done..|]. by apply progress_here.
  - exists s. by apply progress_here.
  - destruct (Hblk (at_point s (PBlocked (ap_clock s))) _ eq_refl) as [s' H]. exists s'.
    by eapply progress_step; [by apply ps_block|..].
  - eexists. eapply progress_step; [by eapply ps_get_event_fail | done..|]. by apply progress_here.
  - destruct (Hrearm (at_point s PRearm) eq_refl) as [s' H]. exists s'. by eapply progress_step; [by apply ps_harvest_fail|..].
  - edestruct (Hspin (at_point s (PSpin (busy_poll_iterations cfg) (ap_clock s + fallback_window cfg)))) as [s' H]; [done|].
    exists s'. by eapply progress_step; [by apply ps_window|..].
  - destruct (Hspin (at_point s (PSpin n d)) _ _ eq_refl) as [s' H]. exists s'. by eapply progress_step; [by eapply ps_poll_fail|..].
Qed.

Lemma progress_trans s1 s2 s3 : progress s1 s2 -> progress s2 s3 -> progress s1 s3.
Proof. intros [] []. split; [by etrans | done | congruence | congruence | lia]. Qed.

Hypothesis fallback : busy_poll_fallback cfg = true.
Hypothesis iterations : (0 < busy_poll_iterations cfg)%nat.
Hypothesis timeout : 0 < epoll_timeout_ms cfg < 2 ^ 31.

Lemma window_open : 0 < fallback_window cfg.
Proof using timeout. unfold fallback_window. rewrite u64_small by (unfold is_u64; clear iterations; lia). clear iterations. lia. Qed.

(** One turn of the loop that harvests a batch. *)
Lemma harvest_round s :
  ap_pc s = PTop -> ap_shutdown s = false ->
  exists s', progress s s' /\ ap_cq s' = drop 16 (ap_cq s).
Proof using fallback iterations timeout.
  intros Hp Hs. pose proof window_open as Hw. destruct (ap_events s) as [|n] eqn:Ee.
  - destruct (busy_poll_iterations cfg) as [|k] eqn:Ek; [lia|].
    set (s1 := pass_time (at_point s (PBlocked (ap_clock s))) (epoll_timeout_ms cfg * 1000000)).
    set (d := ap_clock s1 + fallback_window cfg).
    set (s2 := harvest (at_point s1 (PPoll k d)) (PSpin k d)).
    exists (at_point (pass_time s2 (Z.max 0 (d - ap_clock s2))) PTop). split; [|done]. split; [|done|done| |].
    + eapply rtc_l; [by apply al_step, ps_go_on|]. eapply rtc_l; [by apply al_step, ps_block|].
      eapply rtc_l; [apply al_time with (dt := epoll_timeout_ms cfg * 1000000); lia|].
      eapply rtc_l; [eapply al_step, ps_timeout; [done | done | split; cbn -[Z.mul Z.add]; lia]|]. rewrite fallback.
      eapply rtc_l; [by apply al_step, ps_window|]. rewrite Ek.
      eapply rtc_l; [eapply al_step, ps_in_time; [done | cbn -[Z.mul Z.add fallback_window]; lia]|].
      eapply rtc_l; [by eapply al_step, ps_poll|]. by apply (pr_run s2), (progress_spin s2 k d).
    + cbn. by rewrite <- app_assoc, take_drop.
    + cbn. rewrite length_drop. lia.
  - set (s1 := take_event s n PHarvest). exists (arm (harvest s1 PRearm) PTop). split; [|done]. split; [|done|done| |].
    + eapply rtc_l; [by apply al_step, ps_go_on|]. eapply rtc_l; [by apply al_step, ps_block|].
      eapply rtc_l; [eapply al_step, ps_ready; (done || cbn; lia)|].
      eapply rtc_l; [by eapply al_step, (ps_get_event (at_point s PEvent) n)|].
      eapply rtc_l; [by apply al_step, (ps_harvest s1) | by eapply rtc_once, al_step, ps_rearm].
    + cbn. by rewrite <- app_assoc, take_drop.
    + cbn. rewrite length_drop. lia.
Qed.

Lemma drain_from_top n s :
  (length (ap_cq s) <= n)%nat -> ap_pc s = PTop -> ap_shutdown s = false ->
  exists s', progress s s' /\ ap_cq s' = [].
Proof using fallback iterations timeout.
  revert s. induction n as [|n IH]; intros s Hn Hp Hs.
  { exists s. split; [split; [apply rtc_refl | done..]|]. apply length_zero_iff_nil. lia. }
  destruct (harvest_round s Hp Hs) as (s1 & H1 & Hq).
  destruct (IH s1) as (s2 & H2 & He); [rewrite Hq, length_drop; lia | apply H1 | by rewrite (pr_shutdown _ _ H1)|].
  exists s2. split; [by eapply progress_trans | done].
Qed.
End poller.

(** ** Without the fallback *)

(** Nothing in the channel, at the top of the loop, waiting or returned. *)
Definition asleep (s : ap_state) : Prop := ap_events s = 0%nat /\ match ap_pc s with PTop | PWait | PBlocked _ | PExit => True | _ => False end.

Lemma asleep_step s s' :
  poller_step AsyncPollerConfig_default s s' -> asleep s -> asleep s' /\ ap_cq s' = ap_cq s /\ ap_harvested s' = ap_harvested s.
Proof.
  unfold asleep. intros Hst (He & Hp).
  destruct Hst; match goal with E : ap_pc _ = _ |- _ => rewrite E in Hp end; try done; try lia; cbn; auto.
Qed.

Lemma asleep_run s s' :
  rtc (alone AsyncPollerConfig_default) s s' -> asleep s -> ap_cq s' = ap_cq s /\ ap_harvested s' = ap_harvested s.
Proof.
  induction 1 as [s|s1 s2 s3 Hst _ IH]; [done|]. intros Ha. destruct Hst as [s1 s2 Hst|s1 dt Hdt]; [|by apply IH].
  destruct (asleep_step _ _ Hst Ha) as (Ha2 & E1 & E2). destruct (IH Ha2). split; congruence.
Qed.

(** The state after a completion arrived between the harvest of another one and
    the re-arming of the queue. *)
Definition left_behind (wc1 wc2 : WorkCompletion) : ap_state := mkAp PTop [wc2] true 0 [wc1] false 0 [wc1; wc2].

Lemma left_behind_reachable cfg wc1 wc2 : rtc (ap_step cfg) ap_init (left_behind wc1 wc2).
Proof.
  eapply rtc_l; [by apply as_poller, ps_setup|]. eapply rtc_l; [apply as_env, (if_complete _ wc1)|].
  eapply rtc_l; [by apply as_poller, ps_go_on|]. eapply rtc_l; [by apply as_poller, ps_block|].
  eapply rtc_l; [eapply as_poller, ps_ready; (done || cbn; lia)|].
  eapply rtc_l; [by eapply as_poller, ps_get_event|]. eapply rtc_l; [by apply as_poller, ps_harvest|].
  eapply rtc_l; [apply as_env, (if_complete _ wc2)|]. eapply rtc_l; [by apply as_poller, ps_rearm|]. apply rtc_refl.
Qed.

(** ** The program of the thread *)

(** What a call of the thread that was made in the state [s0] answers and does in
    the state [s], by the documentation of the kernel and the library; calls that
    fail change nothing. *)
Definition env_answer (v : verb) (s0 s : ap_state) : answer v -> ap_state -> Prop :=
  match v with
  | LoadShutdown _ => fun x s' => x = ap_shutdown s /\ s' = s
  | EpollWait _ timeout_ms => fun x s' => s' = s /\ (0 < x -> (0 < ap_events s)%nat)
      /\ (x = 0 -> ap_events s = 0%nat /\ timed_out timeout_ms (ap_clock s0) (ap_clock s))
  | GetCqEvent _ => fun x s' => (x.1.1 <> 0 /\ s' = s)
      \/ (x.1.1 = 0 /\ exists n, ap_events s = S n /\ s' = take_event s n (ap_pc s))
  | PollCq _ n => fun x s' => (x.1 < 0 /\ s' = s)
      \/ (x = (len x.2, take (Z.to_nat n) (ap_cq s))
          /\ s' = mkAp (ap_pc s) (drop (Z.to_nat n) (ap_cq s)) (ap_armed s) (ap_events s)
                     (ap_harvested s ++ take (Z.to_nat n) (ap_cq s)) (ap_shutdown s) (ap_clock s) (ap_log s))
  | ReqNotifyCq _ _ => fun x s' => (x <> 0 /\ s' = s) \/ (x = 0 /\ s' = arm s (ap_pc s))
  | InstantNow => fun x s' => x = ap_clock s /\ s' = s
  | _ => fun _ s' => s' = s
  end.

(** Runs of a program among the environment, which acts before a call and while
    it is under way; the program point of the state is not used. *)
Fixpoint thread_run {A} (p : ffi A) (s : ap_state) (r : A) (s' : ap_state) : Prop :=
  match p with
  | Ret a => r = a /\ rtc interference s s'
  | Call v k => exists s0 s1 x s2, rtc interference s s0 /\ rtc interference s0 s1
      /\ env_answer v s0 s1 x s2 /\ thread_run (k x) s2 r s'
  end.

Section simulation.
Context (cfg : AsyncPollerConfig).

(** From the point [pc] the runs of the program are runs of the transition
    system, which end at the point [post] of the result. *)
Definition simulated {A} (m : ffi A) (pc : ap_point) (post : A -> ap_point) : Prop :=
  forall s a s', thread_run m s a s' -> rtc (ap_step cfg) (at_point s pc) (at_point s' (post a)).

Lemma interference_run s s' pc : rtc interference s s' -> rtc (ap_step cfg) (at_point s pc) (at_point s' pc).
Proof.
  induction 1 as [s|s1 s2 s3 Hi _ IH]; [done|]. eapply rtc_l; [|exact IH].
  apply as_env. destruct Hi as [s wc|s dt|s];
    [apply (if_complete (at_point s pc)) | by apply (if_time (at_point s pc)) | apply (if_shutdown (at_point s pc))].
Qed.

Lemma thread_run_bind {A B} (m : ffi A) (k : A -> ffi B) s r s2 :
  thread_run (m ≫= k) s r s2 -> exists a s1, thread_run m s a s1 /\ thread_run (k a) s1 r s2.
Proof.
  revert s. induction m as [a|v h IH]; intros s; [by exists a, s|].
  intros (s0 & s1 & x & s3 & Hi & Hd & Hx & H). destruct (IH x s3 H) as (a & s4 & H1 & H2).
  exists a, s4. split; [|done]. by exists s0, s1, x, s3.
Qed.

Lemma sim_bind {A B} (m : ffi A) (k : A -> ffi B) pc mid post :
  simulated m pc mid -> (forall a, simulated (k a) (mid a) post) -> simulated (m ≫= k) pc post.
Proof.
  intros Hm Hk s r s2 (a & s1 & H1 & H2)%thread_run_bind. etrans; [by apply Hm | by apply Hk].
Qed.

Lemma sim_ret {A} (a : A) pc post : post a = pc -> simulated (Ret a) pc post.
Proof. intros <- s r s' [-> Hi]. by apply interference_run. Qed.

(** A call that takes the system from one point to another while the environment
    acts. *)
Lemma sim_blocking v pc post :
  (forall s0 s x s1, rtc interference s0 s -> env_answer v s0 s x s1 ->
     rtc (ap_step cfg) (at_point s0 pc) (at_point s1 (post x))) ->
  simulated (call v) pc post.
Proof.
  intros Hv s r s' (s0 & s1 & x & s2 & Hi & Hd & Hx & -> & Hi'). etrans; [by apply interference_run|].
  etrans; [by eapply Hv | by apply interference_run].
Qed.

(** A call that is a step of the system when it returns, or none. *)
Lemma sim_call v pc post :
  (forall s0 s x s1, env_answer v s0 s x s1 -> rtc (ap_step cfg) (at_point s pc) (at_point s1 (post x))) ->
  simulated (call v) pc post.
Proof.
  intros Hv. apply sim_blocking. intros s0 s x s1 Hd Hx. etrans; [by apply interference_run | by eapply Hv].
Qed.

Lemma sim_pre {A} (m : ffi A) pc pc' post :
  (forall s, rtc (ap_step cfg) (at_point s pc) (at_point s pc')) -> simulated m pc' post -> simulated m pc post.
Proof. intros Hp Hm s r s' H. etrans; [apply Hp | by apply Hm]. Qed.

(** A call that changes nothing at a point where it is no step. *)
Lemma sim_skip v pc : (forall s0 s x s1, env_answer v s0 s x s1 -> s1 = s) -> simulated (call v) pc (fun _ => pc).
Proof. intros Hv. apply sim_call. intros s0 s x s1 ->%Hv. done. Qed.

Lemma sim_step {A} (m : ffi A) pc pc' post :
  (forall s, poller_step cfg (at_point s pc) (at_point s pc')) -> simulated m pc' post -> simulated m pc post.
Proof. intros Hs. apply sim_pre. intros s. by apply rtc_once, as_poller. Qed.

Lemma sim_harvest cq pc pc' :
  (forall s, ap_pc s = pc -> poller_step cfg s (harvest s pc')) ->
  (forall s, ap_pc s = pc -> poller_step cfg s (at_point s pc')) ->
  simulated (harvest_completions cq) pc (fun _ => pc').
Proof.
  intros Hh Hf. unfold harvest_completions.
  apply (sim_bind _ _ pc (fun _ => pc')).
  - unfold CompletionQueue_poll. change (16 =? 0) with false. cbn iota.
    apply (sim_bind _ _ pc (fun _ => pc')).
    + apply (sim_call (PollCq (cq_inner cq) (c_int 16)) pc (fun _ => pc')). change (c_int 16) with 16. intros s0 s x s1 [[_ ->]|[_ ->]]; apply rtc_once, as_poller.
      * by apply (Hf (at_point s pc)).
      * by apply (Hh (at_point s pc)).
    + intros [ret wcs]. destruct (ret <? 0); by apply sim_ret.
  - intros [[|wc wcs]|e]; [by apply sim_ret | | by apply sim_ret].
    apply (sim_bind _ _ pc' (fun _ => pc')); [by apply (sim_skip (Dispatch _)) | intros _; by apply sim_ret].
Qed.

Lemma sim_notify cq pc pc' :
  (forall s, ap_pc s = pc -> poller_step cfg s (arm s pc')) ->
  simulated (request_notification cq false) pc (fun r => match r with Ok _ => pc' | Err _ => pc end).
Proof.
  intros Ha. unfold request_notification.
  apply (sim_bind _ _ pc (fun ret => if ret =? 0 then pc' else pc)).
  - apply (sim_call (ReqNotifyCq _ _) pc (fun ret => if ret =? 0 then pc' else pc)). intros s0 s x s1 [[Hx ->]|[-> ->]].
    + by rewrite (proj2 (Z.eqb_neq x 0)).
    + apply rtc_once, as_poller. by apply (Ha (at_point s pc)).
  - intros ret. unfold check_ret. destruct (ret =? 0); by apply sim_ret.
Qed.

Lemma sim_busy_poll n cq deadline : simulated (busy_poll n cq deadline) (PSpin n deadline) (fun _ => PTop).
Proof.
  induction n as [|n IH]; cbn [busy_poll].
  { apply (sim_step _ _ PTop); [intros s; by eapply (ps_spin_end cfg (at_point s _)) | by apply sim_ret]. }
  set (next := fun now => if deadline <=? now then PTop else PPoll n deadline).
  apply (sim_bind _ _ (PSpin (S n) deadline) next).
  { apply (sim_call InstantNow _ next). intros s0 s x s1 [-> ->]. apply rtc_once, as_poller. unfold next.
    destruct (Z.leb_spec deadline (ap_clock s));
      [by eapply (ps_deadline cfg (at_point s _)) | by eapply (ps_in_time cfg (at_point s _))]. }
  intros now. unfold next. destruct (deadline <=? now); [by apply sim_ret|].
  apply (sim_bind _ _ (PPoll n deadline) (fun _ => PSpin n deadline)); [|by intros _].
  apply sim_harvest; intros s E; [by eapply ps_poll | by eapply ps_poll_fail].
Qed.

Lemma sim_on_event channel cq : simulated (on_event channel cq) PEvent (fun _ => PTop).
Proof.
  unfold on_event.
  apply (sim_bind _ _ PEvent (fun r => match r with Ok _ => PHarvest | Err _ => PTop end)).
  - unfold get_event. apply (sim_bind _ _ PEvent (fun x : Z * Z * Z => if x.1.1 =? 0 then PHarvest else PTop)).
    + apply (sim_call (GetCqEvent _) PEvent (fun x : Z * Z * Z => if x.1.1 =? 0 then PHarvest else PTop)).
      intros s0 s x s1 [[Hx ->]|[-> (n & Hn & ->)]]; [rewrite (proj2 (Z.eqb_neq _ 0)) by done | cbn]; apply rtc_once, as_poller.
      * by apply (ps_get_event_fail cfg (at_point s PEvent)).
      * by apply (ps_get_event cfg (at_point s PEvent)).
    + intros [[ret q] ctx]. unfold check_ret. cbn. destruct (ret =? 0); cbn; by apply sim_ret.
  - intros [_|e]; [|by apply sim_ret].
    apply (sim_bind _ _ PHarvest (fun _ => PHarvest)); [by apply (sim_skip (AckCqEvents _ _))|]. intros _.
    apply (sim_bind _ _ PHarvest (fun _ => PRearm)).
    { apply sim_harvest; intros s E; [by apply ps_harvest | by apply ps_harvest_fail]. }
    intros _. apply (sim_bind _ _ PRearm (fun r => match r with Ok _ => PTop | Err _ => PRearm end)).
    { apply sim_notify. intros s E. by apply ps_rearm. }
    intros [_|e]; [by apply sim_ret|].
    apply (sim_step _ _ PTop); [intros s; by apply (ps_rearm_fail cfg (at_point s PRearm)) | by apply sim_ret].
Qed.

Definition after_wait (nfds : Z) : ap_point :=
  if nfds <? 0 then PTop else if 0 <? nfds then PEvent
  else if busy_poll_fallback cfg then PStart else PTop.

Lemma sim_on_wait channel cq nfds : simulated (on_wait cfg channel cq nfds) (after_wait nfds) (fun _ => PTop).
Proof.
  unfold on_wait, after_wait. destruct (nfds <? 0).
  { apply (sim_bind _ _ PTop (fun _ => PTop)); [by apply (sim_skip LastOsError) | intros _; by apply sim_ret]. }
  destruct (0 <? nfds); [apply sim_on_event|]. destruct (busy_poll_fallback cfg); [|by apply sim_ret].
  apply (sim_bind _ _ _ (fun start => PSpin (busy_poll_iterations cfg) (start + fallback_window cfg)));
    [|intros start; apply sim_busy_poll].
  apply (sim_call InstantNow PStart (fun start => PSpin (busy_poll_iterations cfg) (start + fallback_window cfg))).
  intros s0 s x s1 [-> ->]. by apply rtc_once, as_poller, (ps_window cfg (at_point s PStart)).
Qed.

Lemma sim_async_loop fuel channel cq flag fd :
  simulated (async_loop fuel cfg channel cq flag fd) PTop (fun returned : bool => if returned then PExit else PTop).
Proof.
  induction fuel as [|fuel IH]; [by apply sim_ret|]. cbn [async_loop].
  apply (sim_bind _ _ PTop (fun stop : bool => if stop then PExit else PWait)).
  { apply (sim_call (LoadShutdown _) PTop (fun stop : bool => if stop then PExit else PWait)). intros s0 s x s1 [-> ->].
    apply rtc_once, as_poller. destruct (ap_shutdown s) eqn:E;
      [by apply (ps_shutdown cfg (at_point s PTop)) | by apply (ps_go_on cfg (at_point s PTop))]. }
  intros [|]; [by apply sim_ret|].
  apply (sim_bind _ _ PWait after_wait); [|intros nfds; apply (sim_bind _ _ _ (fun _ => PTop)); [apply sim_on_wait | by intros _]].
  apply (sim_blocking (EpollWait _ _) PWait after_wait). intros s0 s x s1 Hd (-> & H1 & H2). set (t := ap_clock s0).
  eapply rtc_l; [by apply as_poller, (ps_block cfg (at_point s0 PWait))|].
  etrans; [exact (interference_run s0 s (PBlocked t) Hd)|]. apply rtc_once, as_poller. unfold after_wait.
  destruct (Z.ltb_spec x 0); [by apply (ps_interrupted cfg (at_point s _) t)|].
  destruct (Z.ltb_spec 0 x); [apply (ps_ready cfg (at_point s _) t); [done | by apply H1]|].
  apply (ps_timeout cfg (at_point s _) t); [done | apply H2; lia..].
Qed.

Lemma sim_async_thread fuel channel cq core flag :
  simulated (async_thread fuel cfg channel cq core flag) PSetup (fun returned : bool => if returned then PExit else PTop).
Proof.
  assert (Hskip : forall v (k : answer v -> ffi bool) pc post, (forall s0 s x s1, env_answer v s0 s x s1 -> s1 = s) ->
    (forall x, simulated (k x) pc post) -> simulated (call v ≫= k) pc post).
  { intros v k pc post Hv Hk. eapply sim_bind; [by apply sim_skip | exact Hk]. }
  assert (Hfail : simulated (Ret true) PSetup (fun returned : bool => if returned then PExit else PTop)).
  { apply (sim_step _ _ PExit); [intros s; by apply (ps_setup_fail cfg (at_point s PSetup)) | by apply sim_ret]. }
  unfold async_thread. apply (sim_bind _ _ PSetup (fun _ => PSetup)).
  { destruct core; [|by apply sim_ret]. apply (sim_bind _ _ PSetup (fun _ => PSetup)); [by apply (sim_skip (SetAffinity _)) | intros _; by apply sim_ret]. }
  intros _. apply Hskip; [done|]. intros fd. destruct (fd <? 0); [by apply Hskip|].
  apply Hskip; [done|]. intros cfd. apply Hskip; [done|]. intros ret.
  destruct (negb (ret =? 0)); [by apply Hskip; [|intros _; apply Hskip]|].
  apply Hskip; [done|]. intros flags. apply (sim_bind _ _ PSetup (fun _ => PSetup)).
  { destruct (0 <=? flags); [|by apply sim_ret]. apply (sim_bind _ _ PSetup (fun _ => PSetup)); [by apply (sim_skip (FcntlSetNonblock _ _)) | intros _; by apply sim_ret]. }
  intros _. apply (sim_bind _ _ PSetup (fun r => match r with Ok _ => PTop | Err _ => PSetup end)).
  { apply sim_notify. intros s E. by apply ps_setup. }
  intros [_|e]; [|by apply Hskip]. eapply sim_bind; [apply sim_async_loop|].
  intros [|]; [by apply Hskip; [|intros _; apply sim_ret] | by apply sim_ret].
Qed.
End simulation.

(** ** Properties *)

(** C22. The event-driven poller.  Safety, in every interleaving and with any of
    its calls failing: it harvests every completion once and in the order in which
    the adapter added them.  Progress: from the top of its loop, in every run in
    which [epoll_wait] is not interrupted, no call that fetches an event or polls
    fails and no busy-poll window is over before its first poll, [k] turns have
    harvested [16 * k] more of the completions that were queued, or all of them,
    whatever the adapter and the clock do meanwhile.  Such turns need an event or
    the fallback; with the fallback, at least one iteration and a positive timeout
    a run that drains the queue exists from every reachable state in which the
    thread has not returned and has not been told to stop (a possibility: the
    deadline may pass before a window's first poll).  With a timeout of 0 the
    window is always over before its first poll ([zero_timeout_never_polls]). *)
Theorem async_poller_drains cfg s :
  rtc (ap_step cfg) ap_init s ->
  ap_log s = ap_harvested s ++ ap_cq s
  /\ (forall k s', ap_pc s = PTop -> turns cfg k s s' ->
       ap_log s' = ap_harvested s' ++ ap_cq s'
       /\ (min (length (ap_log s)) (length (ap_harvested s) + 16 * k) <= length (ap_harvested s'))%nat)
  /\ (busy_poll_fallback cfg = true -> (0 < busy_poll_iterations cfg)%nat -> 0 < epoll_timeout_ms cfg < 2 ^ 31 ->
      ap_pc s <> PExit -> ap_shutdown s = false ->
      exists s', rtc (alone cfg) s s' /\ ap_cq s' = [] /\ ap_harvested s' = ap_log s).
Proof.
  intros Hrun. apply ap_run_inv in Hrun as Hi; [|done]. split_and!; [done | |].
  { intros k s' Hp Ht. destruct (turns_harvest cfg k s s' Ht Hp Hi) as [Hi' _ _ Hh]. split; [done|]. lia. }
  intros Hf Hn Ht Hp Hs. destruct (progress_to_top cfg s Hp) as (s1 & H1).
  destruct (drain_from_top cfg Hf Hn Ht (length (ap_cq s1)) s1) as (s2 & H2 & He); [done | apply H1 | by rewrite (pr_shutdown _ _ _ H1)|].
  pose proof (progress_trans cfg s s1 s2 H1 H2) as H. exists s2. split_and!; [apply H | done|].
  pose proof (pr_order _ _ _ H) as Ho. rewrite He, app_nil_r in Ho. congruence.
Qed.

Definition sample_wc (id : Z) : WorkCompletion := mkWc id 0 0 0 0 0 0 0.

Lemma async_poller_drains_witness :
  exists s', rtc (alone (mkApConfig true 1 100)) (left_behind (sample_wc 1) (sample_wc 2)) s'
    /\ ap_harvested s' = [sample_wc 1; sample_wc 2].
Proof.
  destruct (async_poller_drains (mkApConfig true 1 100) (left_behind (sample_wc 1) (sample_wc 2))
    (left_behind_reachable _ _ _)) as (_ & _ & H).
  destruct (H eq_refl ltac:(cbn; lia) ltac:(by cbn) ltac:(done) eq_refl) as (s' & Hr & _ & Hh).
  exists s'. split; [exact Hr | exact Hh].
Defined.

(** With [epoll_timeout_ms] of 0 the busy-poll window never polls: its deadline is
    the instant at which it was opened. *)
Definition window_shut (s : ap_state) : Prop :=
  match ap_pc s with PSpin _ d => d <= ap_clock s | PPoll _ _ => False | _ => True end.

Lemma window_shut_step cfg s s' : epoll_timeout_ms cfg = 0 -> ap_step cfg s s' -> window_shut s -> window_shut s'.
Proof.
  intros H0 Hst Hw. unfold window_shut in *. destruct Hst as [s s' Hst|s s' Hst]; destruct Hst;
    try match goal with E : ap_pc ?s = _ |- _ => rewrite E in Hw end; cbn in *; try done; try lia.
  - by destruct (busy_poll_fallback cfg).
  - unfold fallback_window. rewrite H0. change (u64 0 * 1000000) with 0. lia.
  - destruct (ap_pc s); try done. lia.
Qed.

Theorem zero_timeout_never_polls cfg s n d :
  epoll_timeout_ms cfg = 0 -> rtc (ap_step cfg) ap_init s -> ap_pc s <> PPoll n d.
Proof.
  intros H0 Hr Hp. enough (window_shut s) as Hw by (unfold window_shut in Hw; by rewrite Hp in Hw).
  assert (Hi : window_shut ap_init) by done. revert Hi. clear Hp. induction Hr; eauto using window_shut_step.
Qed.

(** With the default configuration a wake-up can be lost: for any two
    completions there is a reachable state, not told to stop, in which the second
    one is queued and no sequence of steps of the poller, however long it waits, harvests it; only a
    further completion can wake the thread. *)
Theorem default_poller_loses_wakeup wc1 wc2 :
  exists s, rtc (ap_step AsyncPollerConfig_default) ap_init s /\ ap_shutdown s = false /\ ap_cq s = [wc2]
    /\ forall s', rtc (alone AsyncPollerConfig_default) s s' -> ap_cq s' = [wc2] /\ ap_harvested s' = [wc1].
Proof.
  exists (left_behind wc1 wc2). split_and!; [apply left_behind_reachable | done | done|].
  intros s' Hr. apply asleep_run in Hr; [done|]. by split.
Qed.

(** C12. The program of the event-driven thread refines the transition system:
    in every run of [async_thread] (any number of turns, calls answered as the
    kernel and the library document, or failing, completions added, time passing
    and the stop flag set at any time) the state of the queue, the notification
    flag, the event channel and the harvested completions is one that the
    transition system reaches, at its exit when the thread has returned and at
    the top of its loop otherwise; so the thread has harvested a prefix of what
    the adapter added, in order. *)
Theorem async_thread_refines fuel cfg channel cq core flag returned s :
  thread_run (async_thread fuel cfg channel cq core flag) ap_init returned s ->
  rtc (ap_step cfg) ap_init (at_point s (if returned then PExit else PTop))
  /\ ap_log s = ap_harvested s ++ ap_cq s.
Proof.
  intros Hr. pose proof (sim_async_thread cfg fuel channel cq core flag _ _ _ Hr) as H.
  split; [exact H|]. by apply ap_run_inv in H.
Qed.

(** One completion, its event and one turn of the loop. *)
Definition one_turn : ap_state := mkAp PSetup [] true 0 [sample_wc 1] false 0 [sample_wc 1].

Ltac answered x s1 := eexists _, _, x, s1; split; [apply rtc_refl|]; split; [apply rtc_refl|]; split; [cbn; try done; eauto|].

Lemma one_turn_run : thread_run (async_thread 1 AsyncPollerConfig_default (mkChannel 2) (mkCq 3) None 7) ap_init false one_turn.
Proof.
  set (s1 := mkAp PSetup [] true 0 [] false 0 []). set (s2 := mkAp PSetup [sample_wc 1] false 1 [] false 0 [sample_wc 1]).
  set (s3 := mkAp PSetup [sample_wc 1] false 0 [] false 0 [sample_wc 1]).
  set (s4 := mkAp PSetup [] false 0 [sample_wc 1] false 0 [sample_wc 1]).
  answered 5 ap_init. answered 6 ap_init. answered 0 ap_init. answered (-1) ap_init. answered 0 s1.
  exists s2, s2, false, s2. split; [apply rtc_once, (if_complete s1 (sample_wc 1))|]. split; [apply rtc_refl|]. split; [done|].
  answered 1 s2; [split_and!; [done | lia | lia]|]. answered (0, 3, 0) s3. answered tt s3.
  answered (1, [sample_wc 1]) s4. answered tt s4. answered 0 one_turn. by split.
Qed.

Lemma async_thread_refines_witness :
  rtc (ap_step AsyncPollerConfig_default) ap_init (at_point one_turn PTop).
Proof.
  apply (async_thread_refines 1 AsyncPollerConfig_default (mkChannel 2) (mkCq 3) None 7 false one_turn), one_turn_run.
Defined.
