(* ===== verification/Replication.v ===== *)
(** * Replication: the asynchronous backup (src/control/replication.rs)

    The backup store with its queue, and the manager that writes locally and
    enqueues.  The theorem: whatever the interleaving of writes and flushes, a
    final flush makes the backup equal to the local store. *)

From S2P Require Import Prelude.

Open Scope Z_scope.

Record BackupStore : Type := mkBackup {
  bk_objects : list Z;
  bk_pending : list (Z * list Z)
}.

Definition BackupStore_new (capacity : Z) : BackupStore := mkBackup (zeros (Z.to_nat capacity)) [].

Definition enqueue_write (b : BackupStore) (offset : Z) (data : list Z) : BackupStore :=
  mkBackup (bk_objects b) (bk_pending b ++ [(offset, data)]).

(** [store[offset..end].copy_from_slice(&data[..end - offset])] with
    [end = min(offset + data.len(), store.len())]; panics if [offset > end]. *)
Definition clamped_write (store : list Z) (offset : Z) (data : list Z) : exec (list Z) :=
  let end_ := Z.min (u64 (offset + len data)) (len store) in
  slice_write store offset end_ (take (Z.to_nat (end_ - offset)) data).

Fixpoint flush_loop (objects : list Z) (pending : list (Z * list Z)) : exec (list Z) :=
  match pending with
  | [] => Done objects
  | (offset, data) :: pending =>
      objects ← clamped_write objects offset data;
      flush_loop objects pending
  end.

Definition BackupStore_flush (b : BackupStore) : exec (BackupStore * Z) :=
  let count := len (bk_pending b) in
  objects ← flush_loop (bk_objects b) (bk_pending b);
  Done (mkBackup objects [], count).

Definition BackupStore_read (b : BackupStore) (offset length : Z) : exec (option (list Z)) :=
  let end_ := Z.min (u64 (offset + length)) (len (bk_objects b)) in
  if len (bk_objects b) <=? offset then Done None
  else s ← slice (bk_objects b) offset end_; Done (Some s).

Definition backup_pending_count (b : BackupStore) : Z := len (bk_pending b).

Record ReplicationManager : Type := mkReplication {
  rp_backup : BackupStore;
  max_lag : Z
}.

Definition ReplicationManager_new (backup_capacity max_lag : Z) : ReplicationManager :=
  mkReplication (BackupStore_new backup_capacity) max_lag.

Definition write_with_replication (r : ReplicationManager) (offset : Z) (data local_store : list Z)
  : exec (ReplicationManager * list Z) :=
  local_store ← clamped_write local_store offset data;
  Done (mkReplication (enqueue_write (rp_backup r) offset data) (max_lag r), local_store).

Definition flush_replication (r : ReplicationManager) : exec (ReplicationManager * Z) :=
  '(b, n) ← BackupStore_flush (rp_backup r);
  Done (mkReplication b (max_lag r), n).

Definition is_lagging (r : ReplicationManager) : bool := max_lag r <? backup_pending_count (rp_backup r).

Definition read_from_backup (r : ReplicationManager) (offset length : Z) : exec (option (list Z)) :=
  BackupStore_read (rp_backup r) offset length.

(** ** Interleavings of writes and flushes *)

Inductive repl_op : Type :=
| RWrite (offset : Z) (data : list Z)
| RFlush.

Fixpoint repl_run (r : ReplicationManager) (local : list Z) (ops : list repl_op)
  : exec (ReplicationManager * list Z) :=
  match ops with
  | [] => Done (r, local)
  | RWrite offset data :: ops =>
      '(r, local) ← write_with_replication r offset data local;
      repl_run r local ops
  | RFlush :: ops =>
      '(r, _) ← flush_replication r;
      repl_run r local ops
  end.

(** ** Lemmas *)

Lemma clamped_write_Done store offset data :
  0 <= offset <= len store -> offset + len data < 2 ^ 64 ->
  exists store', clamped_write store offset data = Done store' /\ len store' = len store.
Proof.
  intros Ho Hl. unfold clamped_write. pose proof (len_nonneg data).
  rewrite u64_small by (unfold is_u64; lia). set (e := Z.min _ _).
  assert (Hlen : len (take (Z.to_nat (e - offset)) data) = e - offset)
    by (unfold len in *; rewrite length_take; lia).
  rewrite slice_write_Done by lia. eexists. split; [done|]. apply len_bwrite; lia.
Qed.

Lemma clamped_write_Panic store offset data :
  len store < offset -> clamped_write store offset data = Panic.
Proof.
  intros Ho. unfold clamped_write, slice_write.
  rewrite (proj2 (Z.leb_gt offset _)) by lia. by rewrite andb_false_r.
Qed.

Lemma flush_loop_app objects p q :
  flush_loop objects (p ++ q) = (o ← flush_loop objects p; flush_loop o q).
Proof.
  revert objects. induction p as [|[o d] p IH]; intros objects; [done|]. cbn [app flush_loop].
  destruct (clamped_write objects o d); cbn; [apply IH | done].
Qed.

(** The backup plus its queue is the local store. *)
Definition repl_inv (r : ReplicationManager) (local : list Z) : Prop :=
  flush_loop (bk_objects (rp_backup r)) (bk_pending (rp_backup r)) = Done local.

Definition repl_op_ok (n : Z) (op : repl_op) : Prop :=
  match op with
  | RWrite offset data => 0 <= offset <= n /\ offset + len data < 2 ^ 64
  | RFlush => True
  end.

Lemma repl_run_spec ops r local :
  repl_inv r local -> Forall (repl_op_ok (len local)) ops ->
  exists r' local', repl_run r local ops = Done (r', local') /\ repl_inv r' local'
    /\ len local' = len local.
Proof.
  revert r local. induction ops as [|op ops IH]; intros r local Hinv Hops; [by do 2 eexists|].
  apply Forall_cons in Hops as [Hop Hops]. destruct op as [o d|]; cbn [repl_run].
  - destruct Hop as [Ho Hl]. destruct (clamped_write_Done local o d Ho Hl) as (l' & E & Hlen).
    unfold write_with_replication. rewrite E, !exec_bind_done. rewrite <- Hlen in Hops |- *.
    apply IH; [|done]. unfold repl_inv. cbn. rewrite flush_loop_app, Hinv. cbn. by rewrite E.
  - unfold flush_replication, BackupStore_flush. rewrite Hinv, !exec_bind_done. apply IH; [|done].
    reflexivity.
Qed.

(** ** Properties *)

(** C36. Replication converges: starting from a local store of zeros and a backup
    of the same size, after any interleaving of in-range writes and flushes a
    further flush returns the number of queued writes and leaves the backup equal
    to the local store; a write that starts beyond the store panics. *)
Theorem replication_converges n lag ops :
  0 <= n -> Forall (repl_op_ok n) ops ->
  exists r local r', repl_run (ReplicationManager_new n lag) (zeros (Z.to_nat n)) ops = Done (r, local)
    /\ flush_replication r = Done (r', backup_pending_count (rp_backup r))
    /\ bk_objects (rp_backup r') = local /\ bk_pending (rp_backup r') = []
    /\ (forall offset data, n < offset -> write_with_replication r offset data local = Panic).
Proof.
  intros Hn Hops. assert (Hlen : len (zeros (Z.to_nat n)) = n) by (rewrite len_zeros; lia).
  destruct (repl_run_spec ops (ReplicationManager_new n lag) (zeros (Z.to_nat n))) as (r & local & E & Hinv & Hl);
    [reflexivity | by rewrite Hlen|].
  do 3 eexists. split; [exact E|].
  unfold flush_replication, BackupStore_flush. rewrite Hinv, !exec_bind_done.
  split_and!; [done | done | done |]. intros o d Ho. unfold write_with_replication.
  by rewrite clamped_write_Panic by lia.
Qed.

Lemma replication_converges_witness :
  exists r local r', repl_run (ReplicationManager_new 8 2) (zeros 8) [RWrite 2 [5; 6]; RFlush; RWrite 7 [1; 2; 3]]
      = Done (r, local)
    /\ flush_replication r = Done (r', 1) /\ bk_objects (rp_backup r') = local.
Proof.
  destruct (replication_converges 8 2 [RWrite 2 [5; 6]; RFlush; RWrite 7 [1; 2; 3]])
    as (r & local & r' & E & Ef & Eo & _).
  - lia.
  - repeat constructor; cbn; lia.
  - exists r, local, r'. split; [exact E|]. split; [|exact Eo].
    rewrite Ef. pose proof E as E'. vm_compute in E'. injection E' as <- _. vm_compute. reflexivity.
Defined.
