(* ===== verification/Engine.v ===== *)
(** * Engine: bootstrap, control plane and tenants
    (src/engine/bootstrap.rs, src/control/server.rs, src/control/tenant.rs)

    The server engine as [bootstrap_with_slab] builds it, the control server
    with its client registry, and the tenant key hashing.  The theorems: a
    bootstrapped engine establishes the invariants of every component and
    [discover] advertises its true sizes; the registry gives the garbage
    collector a timestamp that protects every registered client. *)

From stdpp Require Import strings.
From S2P Require Import Prelude Layout Cuckoo CuckooSpec CuckooProps Extent ExtentSpec ExtentProps Slab Lru Gc.

Open Scope Z_scope.

(** ** Bootstrap *)

Record BootstrappedEngine : Type := mkEngine {
  eng_table : CuckooTable;
  eng_large_objects : LargeObjectRegion;
  eng_free_list : FreeListHeader;
  eng_slab : SlabAllocator
}.

Definition bootstrap_with_slab (bucket_count large_object_region_size max_kick slab_chunk_size
    slab_region_size : Z) : exec BootstrappedEngine :=
  table ← CuckooTable_new bucket_count max_kick;
  let large_objects := LargeObjectRegion_new large_object_region_size in
  let free_list := mkFreeListHeader 0 (zeros 56) in
  let slab := SlabAllocator_new slab_region_size slab_chunk_size in
  Done (mkEngine table large_objects free_list slab).

Definition bootstrap (bucket_count large_object_region_size max_kick : Z)
  : exec BootstrappedEngine :=
  bootstrap_with_slab bucket_count large_object_region_size max_kick 0 0.

Definition engine_bucket_count (e : BootstrappedEngine) : Z := bucket_count (eng_table e).
Definition large_object_capacity (e : BootstrappedEngine) : Z := capacity (eng_large_objects e).
Definition slab_chunk_count (e : BootstrappedEngine) : Z := slab_total_chunks (eng_slab e).

(** ** Control server *)

Definition SERVICE_VERSION : Z := 1.
Definition SERVICE_VERSION_STR : string := "1.0.0".
Definition MIN_COMPATIBLE_VERSION : Z := 1.

(** The registry maps a client to its active timestamp and the time of its last
    heartbeat. *)
Record ControlServer : Type := mkControl {
  cs_engine : BootstrappedEngine;
  cs_generation : Z;
  cs_clients : gmap Z (Z * Z);
  use_tls : bool
}.

Definition ControlServer_new (engine : BootstrappedEngine) : ControlServer :=
  mkControl engine 1 ∅ false.
Definition with_tls (s : ControlServer) : ControlServer :=
  mkControl (cs_engine s) (cs_generation s) (cs_clients s) true.

Definition set_clients (s : ControlServer) (clients : gmap Z (Z * Z)) : ControlServer :=
  mkControl (cs_engine s) (cs_generation s) clients (use_tls s).

Inductive RegionType : Type := HashTable | LargeObject | FreeList.

#[export] Instance RegionType_eq_dec : EqDecision RegionType.
Proof. solve_decision. Defined.

Record RegionMetadata : Type := mkRegionMetadata {
  rm_vaddr : Z;
  rm_rkey : Z;
  rm_size : Z;
  rm_type : RegionType;
  rm_generation : Z
}.

Record ServerMetadata : Type := mkServerMetadata {
  sm_generation : Z;
  sm_bucket_count : Z;
  sm_regions : list RegionMetadata
}.

(** [free_list_header_addr] is the address of the header in the server process. *)
Definition discover (s : ControlServer) (free_list_header_addr : Z) : ServerMetadata :=
  let engine := cs_engine s in
  mkServerMetadata (cs_generation s) (engine_bucket_count engine)
    [mkRegionMetadata 0 0 (u64 (engine_bucket_count engine * 64)) HashTable (cs_generation s);
     mkRegionMetadata 0 0 (large_object_capacity engine) LargeObject (cs_generation s);
     mkRegionMetadata free_list_header_addr 0 64 FreeList (cs_generation s)].

Record HeartbeatResponse : Type := mkHeartbeatResponse {
  hr_generation : Z;
  hr_reconnect : bool;
  hr_server_version : Z
}.

(** [now] is the reading of [Instant::now()]. *)
Definition heartbeat (s : ControlServer) (client_id active_ts now : Z)
  : ControlServer * HeartbeatResponse :=
  (set_clients s (<[client_id := (active_ts, now)]> (cs_clients s)),
   mkHeartbeatResponse (cs_generation s) false SERVICE_VERSION).

Definition deregister (s : ControlServer) (client_id : Z) : ControlServer :=
  set_clients s (delete client_id (cs_clients s)).

(** The offsets are only counted. *)
Definition sync_free_list (s : ControlServer) (freed_offsets : list Z) : ControlServer * Z :=
  (s, u32 (len freed_offsets)).

Definition get_version (s : ControlServer) : Z * string * Z :=
  (SERVICE_VERSION, SERVICE_VERSION_STR, MIN_COMPATIBLE_VERSION).

(** The TLS types of the gRPC library and the calls that build them. *)
Class TlsLibrary (ServerTls ClientTls : Type) : Type := {
  Identity : Type;
  Certificate : Type;
  identity_from_pem : string -> string -> Identity;
  certificate_from_pem : string -> Certificate;
  server_tls_new : ServerTls;
  server_identity : Identity -> ServerTls -> ServerTls;
  client_ca_root : Certificate -> ServerTls -> ServerTls;
  client_tls_new : ClientTls;
  ca_certificate : Certificate -> ClientTls -> ClientTls;
  client_identity : Identity -> ClientTls -> ClientTls
}.

(** With a CA certificate the clients must present one of their own. *)
Definition tls_config {ServerTls ClientTls} `{TlsLibrary ServerTls ClientTls} (cert_pem key_pem : string)
    (ca_cert_pem : option string) : result ServerTls string :=
  let config := server_identity (identity_from_pem cert_pem key_pem) server_tls_new in
  match ca_cert_pem with
  | Some ca_pem => Ok (client_ca_root (certificate_from_pem ca_pem) config)
  | None => Ok config
  end.

(** [values().map(|(ts, _)| ts).min().unwrap_or(0)]; the minimum does not depend
    on the iteration order. *)
Definition min_active_ts (clients : gmap Z (Z * Z)) : Z :=
  match (fun p : Z * (Z * Z) => p.2.1) <$> map_to_list clients with
  | [] => 0
  | ts :: tss => foldr Z.min ts tss
  end.

(** ** Tenants *)

Section hashing.
Context (xxh64 : list Z -> Z -> Z).

(** A hash and its 16-byte digest from two 64-bit hashes. *)
Definition digest_of (hash second : Z) : list Z :=
  bwrite 8 (to_le 8 second) (bwrite 0 (to_le 8 hash) (zeros 16)).

Record TenantNamespace : Type := mkTenant { tenant_id : Z }.

Definition tenant_hash_key (n : TenantNamespace) (key : list Z) : Z := xxh64 key (tenant_id n).

Definition tenant_hashed_key (n : TenantNamespace) (key : list Z) : HashedKey :=
  let hash := xxh64 key (tenant_id n) in
  let digest_seed := Z.lxor (tenant_id n) 0xFFFFFFFFFFFFFFFF in
  let digest_hash := xxh64 key digest_seed in
  mkHashedKey hash (digest_of hash digest_hash).
End hashing.

(** ** Lemmas *)

Lemma digest_of_app hash second : digest_of hash second = to_le 8 hash ++ to_le 8 second.
Proof. reflexivity. Qed.

Lemma digest_of_wf hash second :
  length (digest_of hash second) = 16%nat /\ Forall is_u8 (digest_of hash second).
Proof.
  rewrite digest_of_app. split; [by rewrite length_app, !length_to_le|].
  apply Forall_app. split; apply to_le_bytes_ok.
Qed.

Lemma tenant_key_wf (xxh64 : list Z -> Z -> Z) n key :
  (forall k s, is_u64 (xxh64 k s)) -> key_wf (tenant_hashed_key xxh64 n key).
Proof. intros Hx. constructor; [apply Hx | apply digest_of_wf..]. Qed.

(** Equal hashes and digests come from equal pairs of 64-bit hashes. *)
Lemma digest_of_inj h s h' s' : is_u64 s -> is_u64 s' -> digest_of h s = digest_of h' s' -> s = s'.
Proof.
  rewrite !digest_of_app. intros Hs Hs' [_ E]%app_inj_1; [|by rewrite !length_to_le].
  rewrite <- (from_le_to_le_8 s Hs), <- (from_le_to_le_8 s' Hs'). congruence.
Qed.

(** *** The registry over a history of requests *)

Inductive control_op : Type :=
| Heartbeat (client_id active_ts now : Z)
| Deregister (client_id : Z)
| SyncFreeList (freed_offsets : list Z).

Definition control_step (s : ControlServer) (op : control_op) : ControlServer :=
  match op with
  | Heartbeat c ts now => (heartbeat s c ts now).1
  | Deregister c => deregister s c
  | SyncFreeList offs => (sync_free_list s offs).1
  end.

Definition control_run (s : ControlServer) (ops : list control_op) : ControlServer :=
  foldl control_step s ops.

(** What the history says of a client: its last report, unless it left since. *)
Fixpoint last_report (acc : option Z) (ops : list control_op) (c : Z) : option Z :=
  match ops with
  | [] => acc
  | Heartbeat c' ts _ :: ops => last_report (if decide (c' = c) then Some ts else acc) ops c
  | Deregister c' :: ops => last_report (if decide (c' = c) then None else acc) ops c
  | SyncFreeList _ :: ops => last_report acc ops c
  end.

Lemma control_run_report s ops c :
  fst <$> cs_clients (control_run s ops) !! c = last_report (fst <$> cs_clients s !! c) ops c.
Proof.
  revert s. induction ops as [|op ops IH]; intros s; [done|].
  change (control_run s (op :: ops)) with (control_run (control_step s op) ops).
  rewrite IH. destruct op as [c' ts now|c'|offs]; cbn [last_report control_step]; f_equal.
  - cbn. case_decide as D; [subst; by rewrite lookup_insert_eq | by rewrite lookup_insert_ne].
  - cbn. case_decide as D; [subst; by rewrite lookup_delete_eq | by rewrite lookup_delete_ne].
Qed.

Lemma min_active_ts_le clients c e : clients !! c = Some e -> min_active_ts clients <= e.1.
Proof.
  intros H. unfold min_active_ts.
  assert (Hin : e.1 ∈ (fun p : Z * (Z * Z) => p.2.1) <$> map_to_list clients).
  { apply list_elem_of_fmap. exists (c, e). split; [done|]. by apply elem_of_map_to_list. }
  destruct (_ <$> map_to_list clients) as [|ts tss]; [by apply not_elem_of_nil in Hin|].
  apply foldr_min_le. by apply elem_of_cons in Hin.
Qed.

Lemma min_active_ts_empty : min_active_ts ∅ = 0.
Proof. unfold min_active_ts. by rewrite map_to_list_empty. Qed.

(** ** Properties *)

(** Bootstrapping establishes every component's invariant: for a
    power-of-two bucket count other than one and sizes within an allocation, the
    engine has an empty well-formed table, an empty region, a slab with no chunk
    handed out and a zero bump offset, and [discover] on the server advertises
    the exact byte sizes of the table and the region under one generation; a
    bucket count that is not a power of two panics. *)
Theorem bootstrap_sound n size k chunk slab_size addr :
  0 <= size <= MAX_ALLOC -> 0 <= k -> is_u64 slab_size -> 0 <= chunk -> chunk + 7 < 2 ^ 64 ->
  n <> 1 -> n * 64 < 2 ^ 64 ->
  if is_power_of_two n then
    exists e, bootstrap_with_slab n size k chunk slab_size = Done e
      /\ table_wf (eng_table e) /\ table_map (eng_table e) = ∅
      /\ region_inv ∅ (eng_large_objects e) /\ slab_inv ∅ (eng_slab e)
      /\ bump_offset (eng_free_list e) = 0
      /\ let md := discover (ControlServer_new e) addr in
         rm_size <$> sm_regions md
           = [len (concat (bytes_of_bucket <$> buckets (eng_table e)));
              len (buffer (eng_large_objects e));
              len (to_le 8 (bump_offset (eng_free_list e)) ++ fl_pad (eng_free_list e))]
         /\ Forall (fun g => g = sm_generation md) (rm_generation <$> sm_regions md)
         /\ sm_bucket_count md = n
  else bootstrap_with_slab n size k chunk slab_size = Panic.
Proof.
  intros Hs Hk Hss Hc Hc' Hn Hn64. destruct (is_power_of_two n) eqn:Hp.
  - destruct (new_spec n k Hp Hn Hk) as (t & E & Hwf & Hm & Hbc & _).
    unfold bootstrap_with_slab. rewrite E, exec_bind_done. eexists. split; [reflexivity|].
    split_and!; [done | done | by apply region_new_inv | by apply slab_new_inv | done | | by repeat constructor | done].
    cbn [fmap list_fmap sm_regions discover rm_size cs_engine ControlServer_new engine_bucket_count
      large_object_capacity eng_table eng_large_objects eng_free_list capacity lor_size buffer
      LargeObjectRegion_new bump_offset fl_pad].
    pose proof (is_power_of_two_pos n Hp). unfold engine_bucket_count. cbn [eng_table].
    rewrite Hbc, u64_small by (unfold is_u64; lia).
    f_equal; [|f_equal; rewrite len_zeros; lia].
    rewrite <- Hbc, <- (twf_len _ Hwf). pose proof (twf_buckets _ Hwf) as Hb. clear -Hb.
    induction Hb as [|b bs Hb _ IH]; [done|]. rewrite fmap_cons. cbn [concat].
    unfold bytes_of_bucket at 1. rewrite !len_app, !len_to_le, <- IH. pose proof (bwf_digest_len _ Hb). pose proof (bwf_body_len _ Hb).
    unfold len. cbn [length]. lia.
  - unfold bootstrap_with_slab, CuckooTable_new. rewrite Hp. by destruct (0 <? n).
Qed.

(** C25. The control plane keeps the garbage collector safe: after any history of
    heartbeats, departures and free-list reports, a sweep up to the registry's
    minimum timestamp keeps every extent whose epoch is not below the last
    report of some client that has not left, and reclaims nothing at all when no
    client is registered. *)
Theorem control_gc_safe {R} `{ExtentStore R} e ops g m (r : R) order :
  es_repr m r -> Forall (pending_wf m) (gc_pending g) -> order ≡ₚ elements (es_offsets r) ->
  let s := control_run (ControlServer_new e) ops in
  exists g' r' n, EpochGc_sweep g r order (min_active_ts (cs_clients s)) = Done (g', r', n)
    /\ forall o x, mark_all m (gc_pending g) !! o = Some x ->
       (exists c ts, last_report None ops c = Some ts /\ ts <= xt_epoch x) \/ cs_clients s = ∅ ->
       es_read r' o = Done (Some (xt_data x)).
Proof.
  intros Hr Hp Hord s.
  destruct (EpochGc_sweep_spec g m r order (min_active_ts (cs_clients s)) Hr Hp Hord) as (r' & E & Hr').
  do 3 eexists. split; [exact E|]. intros o x Hx Hkeep. apply (es_read_ok _ _ _ _ Hr').
  apply map_lookup_filter_Some. split; [done|]. cbn. intros [H0 H1].
  destruct Hkeep as [(c & ts & Hts & Hle)|He]; [|rewrite He, min_active_ts_empty in H1; lia].
  pose proof (control_run_report (ControlServer_new e) ops c) as Hc. cbn in Hc.
  rewrite lookup_empty in Hc. cbn in Hc. rewrite Hts in Hc. fold s in Hc.
  apply fmap_Some in Hc as (en & Hen & ->). pose proof (min_active_ts_le _ _ _ Hen). lia.
Qed.

Lemma control_gc_safe_witness :
  exists e r g' r' n,
    EpochGc_sweep (schedule_deletion (EpochGc_new 1000 0) 0 40) r [0]
      (min_active_ts (cs_clients (control_run (ControlServer_new e)
         [Heartbeat 1 90 0; Heartbeat 2 35 0; Deregister 1]))) = Done (g', r', n)
    /\ es_read r' 0 = Done (Some [1; 2; 3]).
Proof.
  destruct sample_alloc_inv as (r & _ & Hinv).
  set (e := mkEngine sample_table sample_region (mkFreeListHeader 0 (zeros 56)) (SlabAllocator_new 0 0)).
  exists e, r.
  destruct (control_gc_safe e [Heartbeat 1 90 0; Heartbeat 2 35 0; Deregister 1]
    (schedule_deletion (EpochGc_new 1000 0) 0 40) (<[0 := new_extent 0 [1; 2; 3]]> ∅) r [0])
    as (g' & r' & n & E & Hk).
  - exact Hinv.
  - constructor; [|constructor]. split; [split; [unfold is_u64; cbn; lia | by vm_compute]|].
    exists (new_extent 0 [1; 2; 3]). split; [apply lookup_insert_eq | reflexivity].
  - cbn [es_offsets region_store]. rewrite (ri_alloc _ _ Hinv). vm_compute. reflexivity.
  - exists g', r', n. split; [exact E|].
    apply (Hk 0 (set_epoch (new_extent 0 [1; 2; 3]) 40)); [vm_compute; reflexivity|].
    left. exists 2, 35. split; [vm_compute; reflexivity | cbn; lia].
Defined.
