(* ===== verification/Session.v ===== *)
(** * Session: control client and client session
    (src/control/client.rs, src/client/session.rs)

    [ControlClient] over a gRPC channel given as a parameter, and
    [ClientSession]: version negotiation, discovery, the choice of the transport,
    metadata refresh, the generation check and reconnection.  The channel's
    contract is that a call fails or reaches the control server of [Engine].
    The theorems: connecting and reconnecting on every branch, and the soundness
    of the generation check over every history of calls, failures and restarts. *)

From S2P Require Import Prelude Errors Layout Slab Extent Cuckoo Transport Engine.
From stdpp Require Import strings.
From Stdlib Require Import Ascii.

Open Scope Z_scope.
Local Open Scope rdmas_scope.

(** ** Errors and data *)

(** [tonic::Status] and [tonic::transport::Error] are their texts. *)
Inductive ClientSessionError : Type :=
| Grpc (status : string)
| TransportError (e : string)
| RdmaErr (e : RdmaError)
| NoDevice
| MissingRegion (name : string)
| SessionVersionMismatch (msg : string)
| Tls (msg : string).

Record GetVersionResponse : Type := mkVersion {
  gv_service_version : Z; gv_service_version_str : string; gv_min_compatible_version : Z
}.

Definition DEFAULT_HEARTBEAT_INTERVAL_MS : Z := 1000.
Definition CLIENT_MIN_COMPATIBLE_VERSION : Z := 1.

Definition ServerMetadata_default : ServerMetadata := mkServerMetadata 0 0 [].

(** ** The channel *)

(** The gRPC channel and the two data transports, as the client sees them. *)
Class Channel (W TR TT : Type) : Type := {
  ch_connect : string -> W -> W * result unit string;
  ch_tls : Type;
  ch_connect_tls : ch_tls -> string -> W -> W * result unit string;
  ch_discover : W -> W * result (option ServerMetadata) string;
  ch_heartbeat : Z -> Z -> W -> W * result HeartbeatResponse string;
  ch_deregister : Z -> W -> W * result unit string;
  ch_get_version : W -> W * result GetVersionResponse string;
  rdma_connect : string -> W -> W * result TR RdmaError;
  tcp_connect : string -> W -> W * result TT RdmaError
}.

(** The PEM texts of a client. *)
Record TlsConfig : Type := mkTlsConfig {
  ca_cert_pem : string;
  client_cert_pem : string;
  client_key_pem : string
}.

Definition to_client_tls_config {ServerTls ClientTls} `{TlsLibrary ServerTls ClientTls} (c : TlsConfig)
  : result ClientTls string :=
  Ok (client_identity (identity_from_pem (client_cert_pem c) (client_key_pem c))
        (ca_certificate (certificate_from_pem (ca_cert_pem c)) client_tls_new)).

Section session.
Context {W TR TT : Type} `{Channel W TR TT}.

(** ** Control client *)

Definition lift_call {A} (f : W -> W * result A string) : stM W string A := fun w => Done (f w).
Definition map_err {S E E' A} (f : E -> E') (m : stM S E A) : stM S E' A := fun s =>
  match m s with
  | Done (s, Ok a) => Done (s, Ok a)
  | Done (s, Err e) => Done (s, Err (f e))
  | Panic => Panic
  end.

Definition ControlClient_connect (addr : string) : stM W string unit :=
  lift_call (ch_connect ("http://" +:+ addr)).
Definition ControlClient_connect_tls (addr : string) (tls_config : ch_tls) : stM W string unit :=
  lift_call (ch_connect_tls tls_config ("https://" +:+ addr)).

Definition ControlClient_discover : stM W string ServerMetadata :=
  let! metadata := lift_call ch_discover in
  match metadata with
  | Some md => st_ret md
  | None => st_err "no metadata in discover response"
  end.

Definition ControlClient_heartbeat (client_id active_ts : Z) : stM W string HeartbeatResponse :=
  lift_call (ch_heartbeat client_id active_ts).
Definition ControlClient_deregister (client_id : Z) : stM W string unit :=
  lift_call (ch_deregister client_id).
Definition ControlClient_get_version : stM W string GetVersionResponse := lift_call ch_get_version.

(** ** Session *)

Record ClientSession : Type := mkSession {
  se_client_id : Z;
  se_server_addr : string;
  se_metadata : ServerMetadata;
  se_server_version : Z;
  se_transport : TR + TT;
  se_heartbeat_interval : Z
}.

(** [s.replace(pat, to)]: every non-overlapping match from the left. *)
Fixpoint replace_go (pat to : string) (skip : nat) (s : string) : string :=
  match s with
  | EmptyString => EmptyString
  | String c s' =>
      match skip with
      | S k => replace_go pat to k s'
      | O => if String.prefix pat s then to +:+ replace_go pat to (String.length pat - 1) s'
             else String c (replace_go pat to 0 s')
      end
  end.
Definition tcp_fallback_addr (server_addr : string) : string := replace_go ":9400" ":9401" 0 server_addr.

(** [fmt] is the text of a transport error. *)
Context (fmt : RdmaError -> string).

Definition create_transport_inner (server_addr : string) : stM W ClientSessionError (TR + TT) := fun w =>
  match rdma_connect server_addr w with
  | (w, Ok rdma) => Done (w, Ok (inl rdma))
  | (w, Err _) =>
      match tcp_connect (tcp_fallback_addr server_addr) w with
      | (w, Ok tcp) => Done (w, Ok (inr tcp))
      | (w, Err e) => Done (w, Err (RdmaErr (Internal ("TCP fallback: " +:+ fmt e))))
      end
  end.

(** Steps 2 to 5 of [connect] and [connect_tls]. *)
Definition open_session (server_addr : string) (client_id : Z) : stM W ClientSessionError ClientSession :=
  let! version := map_err Grpc ControlClient_get_version in
  if gv_service_version version <? CLIENT_MIN_COMPATIBLE_VERSION then
    st_err (SessionVersionMismatch ("Server version " +:+ pretty (gv_service_version version)
      +:+ " is incompatible; minimum required is " +:+ pretty CLIENT_MIN_COMPATIBLE_VERSION))
  else
    let! metadata := map_err Grpc ControlClient_discover in
    let! transport := create_transport_inner server_addr in
    st_ret (mkSession client_id server_addr metadata (gv_service_version version) transport
              DEFAULT_HEARTBEAT_INTERVAL_MS).

Definition ClientSession_connect (server_addr : string) (client_id : Z) : stM W ClientSessionError ClientSession :=
  map_err TransportError (ControlClient_connect server_addr) ;;! open_session server_addr client_id.

Definition ClientSession_connect_tls {ServerTls} `{TlsLibrary ServerTls ch_tls} (server_addr : string) (client_id : Z)
    (tls_config : TlsConfig) : stM W ClientSessionError ClientSession :=
  match to_client_tls_config tls_config with
  | Err e => st_err (Tls ("Failed to build client TLS config: " +:+ e))
  | Ok client_tls =>
      map_err TransportError (ControlClient_connect_tls server_addr client_tls) ;;! open_session server_addr client_id
  end.

Definition region_of_type (t : RegionType) (s : ClientSession) : option RegionMetadata :=
  snd <$> list_find (fun r => rm_type r = t) (sm_regions (se_metadata s)).
Definition hash_table_region : ClientSession -> option RegionMetadata := region_of_type HashTable.
Definition large_object_region : ClientSession -> option RegionMetadata := region_of_type LargeObject.
Definition free_list_region : ClientSession -> option RegionMetadata := region_of_type FreeList.

Definition session_is_rdma `{TransportInfo TR} `{TransportInfo TT} (s : ClientSession) : bool := tr_is_rdma (se_transport s).
Definition transport_name `{TransportInfo TR} `{TransportInfo TT} (s : ClientSession) : string := tr_name (se_transport s).

Definition set_metadata (s : ClientSession) (md : ServerMetadata) : ClientSession :=
  mkSession (se_client_id s) (se_server_addr s) md (se_server_version s) (se_transport s) (se_heartbeat_interval s).
Definition set_transport (s : ClientSession) (t : TR + TT) : ClientSession :=
  mkSession (se_client_id s) (se_server_addr s) (se_metadata s) (se_server_version s) t (se_heartbeat_interval s).

(** Operations on a session: the state is the world and the session. *)
Definition on_world {A} (m : stM W ClientSessionError A) : stM (W * ClientSession) ClientSessionError A :=
  fun '(w, s) => match m w with
                 | Done (w, r) => Done ((w, s), r)
                 | Panic => Panic
                 end.
Definition modify (f : ClientSession -> ClientSession) : stM (W * ClientSession) ClientSessionError unit :=
  fun '(w, s) => Done ((w, f s), Ok tt).

Definition refresh_metadata : stM (W * ClientSession) ClientSessionError unit :=
  let! metadata := on_world (map_err Grpc ControlClient_discover) in
  modify (fun s => set_metadata s metadata).

Definition invalidate_mr_metadata (s : ClientSession) : ClientSession := set_metadata s ServerMetadata_default.

Definition check_reconnect_needed (s : ClientSession) (response : HeartbeatResponse) : bool :=
  hr_reconnect response || negb (hr_generation response =? sm_generation (se_metadata s)).

Definition reconnect : stM (W * ClientSession) ClientSessionError unit :=
  modify invalidate_mr_metadata ;;!
  let! metadata := on_world (map_err Grpc ControlClient_discover) in
  let! ws := st_get in
  let! transport := on_world (create_transport_inner (se_server_addr ws.2)) in
  modify (fun s => set_transport s transport) ;;!
  modify (fun s => set_metadata s metadata).

(** The task of [start_heartbeat].  [stops] are the values it reads from the flag
    as long as it is scheduled; the answer is the delays slept and whether the
    loop exited.  The tick itself is only logged. *)
Fixpoint heartbeat_loop (stops : list bool) (interval : Z) : stM W ClientSessionError (list Z * bool) :=
  match stops with
  | [] => st_ret ([], false)
  | true :: _ => st_ret ([], true)
  | false :: stops =>
      let! slept := heartbeat_loop stops interval in
      st_ret (interval :: slept.1, slept.2)
  end.

Definition start_heartbeat (s : ClientSession) (stops : list bool) : stM W ClientSessionError (list Z * bool) :=
  heartbeat_loop stops (se_heartbeat_interval s).
End session.
Arguments ClientSession : clear implicits.

(** ** A channel to the control server *)

Section served.
Context {W TR TT : Type} `{Channel W TR TT}.

(** What a client can learn of the server behind the channel. *)
Definition advertised (server : W -> ControlServer) (header : W -> Z) (w : W) : ServerMetadata :=
  discover (server w) (header w).
End served.

(** The contract: a call fails, or is answered by the handler of the control
    server; no call changes what the server advertises. *)
Class ServedChannel (W TR TT : Type) `{Channel W TR TT} : Type := {
  sv_server : W -> ControlServer;
  sv_header : W -> Z;
  sv_connect url w : let '(w', _) := ch_connect url w in
    advertised sv_server sv_header w' = advertised sv_server sv_header w;
  sv_connect_tls tls url w : let '(w', _) := ch_connect_tls tls url w in
    advertised sv_server sv_header w' = advertised sv_server sv_header w;
  sv_discover w : let '(w', r) := ch_discover w in
    advertised sv_server sv_header w' = advertised sv_server sv_header w
    /\ ((exists e, r = Err e) \/ r = Ok (Some (advertised sv_server sv_header w)));
  sv_heartbeat c ts w : let '(w', r) := ch_heartbeat c ts w in
    advertised sv_server sv_header w' = advertised sv_server sv_header w
    /\ ((exists e, r = Err e) \/ exists now, r = Ok (heartbeat (sv_server w) c ts now).2
          /\ sv_server w' = (heartbeat (sv_server w) c ts now).1);
  sv_get_version w : let '(w', r) := ch_get_version w in
    advertised sv_server sv_header w' = advertised sv_server sv_header w
    /\ ((exists e, r = Err e) \/
        r = Ok (let '(v, str, m) := get_version (sv_server w) in mkVersion v str m));
  sv_rdma_connect addr w : let '(w', _) := rdma_connect addr w in
    advertised sv_server sv_header w' = advertised sv_server sv_header w;
  sv_tcp_connect addr w : let '(w', _) := tcp_connect addr w in
    advertised sv_server sv_header w' = advertised sv_server sv_header w
}.

Section properties.
Context {W TR TT : Type} `{ServedChannel W TR TT} (fmt : RdmaError -> string).
Abbreviation adv := (advertised sv_server sv_header).
Implicit Types (w : W) (s : ClientSession TR TT).

(** How the transport of a session was chosen. *)
Definition chosen (addr : string) (t : TR + TT) : Prop :=
  exists w0, match t with
  | inl tr => exists w1, rdma_connect addr w0 = (w1, Ok tr)
  | inr tc => exists w1 w2 e, rdma_connect addr w0 = (w1, Err e)
                /\ tcp_connect (tcp_fallback_addr addr) w1 = (w2, Ok tc)
  end.

Lemma create_transport_spec addr w :
  exists w' r, create_transport_inner fmt addr w = Done (w', r) /\ adv w' = adv w
    /\ match r with
       | Ok t => chosen addr t
       | Err e => exists e', e = RdmaErr (Internal ("TCP fallback: " +:+ fmt e'))
       end.
Proof.
  unfold create_transport_inner. pose proof (sv_rdma_connect addr w) as Hr.
  destruct (rdma_connect addr w) as [w1 [tr|e]] eqn:Er.
  - do 2 eexists. split; [reflexivity|]. split; [done|]. exists w, w1. done.
  - pose proof (sv_tcp_connect (tcp_fallback_addr addr) w1) as Ht.
    destruct (tcp_connect (tcp_fallback_addr addr) w1) as [w2 [tc|e2]] eqn:Et;
      (do 2 eexists; split; [reflexivity|]; split; [congruence|]); [|by eexists].
    exists w, w1, w2, e. done.
Qed.

Lemma control_discover_spec w :
  exists w' r, map_err Grpc ControlClient_discover w = Done (w', r) /\ adv w' = adv w
    /\ match r with Ok md => md = adv w | Err e => exists st, e = Grpc st end.
Proof.
  unfold ControlClient_discover, map_err, st_bind, lift_call. pose proof (sv_discover w) as Hd.
  destruct (ch_discover w) as [w1 r], Hd as [Ha [[e ->]| ->]]; do 2 eexists; (split; [reflexivity|]); split; eauto.
Qed.

(** What a session knows right after a successful [connect]. *)
Definition session_fresh (addr : string) (id : Z) w s : Prop :=
  se_client_id s = id /\ se_server_addr s = addr /\ se_metadata s = adv w
  /\ se_server_version s = SERVICE_VERSION /\ se_heartbeat_interval s = 1000 /\ chosen addr (se_transport s).

Definition connect_error (e : ClientSessionError) : Prop :=
  (exists st, e = Grpc st) \/ (exists st, e = TransportError st)
  \/ exists e', e = RdmaErr (Internal ("TCP fallback: " +:+ fmt e')).

Lemma open_session_spec addr id w :
  exists w' r, open_session fmt addr id w = Done (w', r) /\ adv w' = adv w
    /\ match r with Ok s => session_fresh addr id w s | Err e => connect_error e end.
Proof.
  unfold open_session. unfold st_bind at 1, map_err at 1, ControlClient_get_version, lift_call.
  pose proof (sv_get_version w) as Hv. destruct (ch_get_version w) as [w1 r], Hv as [Ha [[e ->]| ->]].
  { do 2 eexists. split; [reflexivity|]. split; [done|]. left. by eexists. }
  cbn [get_version gv_service_version]. change (SERVICE_VERSION <? CLIENT_MIN_COMPATIBLE_VERSION) with false. cbn iota.
  destruct (control_discover_spec w1) as (w2 & r2 & E2 & Ha2 & Hr2). unfold st_bind at 1. rewrite E2.
  destruct r2 as [md|e2].
  2:{ do 2 eexists. split; [reflexivity|]. split; [congruence|]. by left. }
  destruct (create_transport_spec addr w2) as (w3 & r3 & E3 & Ha3 & Hr3). unfold st_bind. rewrite E3.
  destruct r3 as [t|e3].
  - do 2 eexists. split; [reflexivity|]. split; [congruence|]. repeat split; [cbn; congruence | done].
  - do 2 eexists. split; [reflexivity|]. split; [congruence|]. right. by right.
Qed.

(** Steps 2 to 5 after an answer of the channel. *)
Lemma connected_spec addr id (conn : W -> W * result unit string) w :
  (let '(w', _) := conn w in adv w' = adv w) ->
  exists w' r, (map_err TransportError (lift_call conn) ;;! open_session fmt addr id) w = Done (w', r) /\ adv w' = adv w
    /\ match r with Ok s => session_fresh addr id w s | Err e => connect_error e end.
Proof.
  intros Hc. unfold st_bind, map_err, lift_call. destruct (conn w) as [w1 [[]|e]].
  - destruct (open_session_spec addr id w1) as (w2 & r & -> & Ha & Hr). exists w2, r.
    split; [done|]. split; [congruence|]. destruct r; [|done]. unfold session_fresh in *.
    by rewrite Hc in Hr.
  - do 2 eexists. split; [reflexivity|]. split; [done|]. right. left. by eexists.
Qed.

(** Either way to connect. *)
Definition session_connect {ServerTls} `{TlsLibrary ServerTls ch_tls} (tls : option TlsConfig) (addr : string) (id : Z)
  : stM W ClientSessionError (ClientSession TR TT) :=
  match tls with
  | None => ClientSession_connect fmt addr id
  | Some c => ClientSession_connect_tls fmt addr id c
  end.

Lemma connect_spec {ServerTls} `{TlsLibrary ServerTls ch_tls} tls addr id w :
  exists w' r, session_connect tls addr id w = Done (w', r) /\ adv w' = adv w
    /\ match r with Ok s => session_fresh addr id w s | Err e => connect_error e end.
Proof. destruct tls as [c|]; apply connected_spec; [apply sv_connect_tls | apply sv_connect]. Qed.

(** A session that has just discovered the server knows its three regions and
    passes the generation check. *)
Lemma adv_regions w s :
  se_metadata s = adv w ->
  (exists r, hash_table_region s = Some r /\ rm_size r = u64 (engine_bucket_count (cs_engine (sv_server w)) * 64))
  /\ (exists r, large_object_region s = Some r /\ rm_size r = large_object_capacity (cs_engine (sv_server w)))
  /\ (exists r, free_list_region s = Some r /\ rm_vaddr r = sv_header w).
Proof.
  intros E. unfold hash_table_region, large_object_region, free_list_region, region_of_type. rewrite E.
  cbn. split_and!; eexists; (split; [reflexivity|]); reflexivity.
Qed.

Lemma check_after_discover w s c ts now :
  se_metadata s = adv w -> check_reconnect_needed s (heartbeat (sv_server w) c ts now).2 = false.
Proof. intros E. unfold check_reconnect_needed. rewrite E. cbn. by rewrite Z.eqb_refl. Qed.

Lemma refresh_spec w s :
  exists w' s' r, refresh_metadata (w, s) = Done ((w', s'), r) /\ adv w' = adv w
    /\ match r with Ok _ => s' = set_metadata s (adv w) | Err _ => s' = s end.
Proof.
  unfold refresh_metadata, st_bind, on_world. destruct (control_discover_spec w) as (w1 & r & -> & Ha & Hr).
  destruct r as [md|e]; do 3 eexists; (split; [reflexivity|]); split; congruence.
Qed.

Lemma reconnect_spec w s :
  exists w' s' r, reconnect fmt (w, s) = Done ((w', s'), r) /\ adv w' = adv w
    /\ match r with
       | Ok _ => exists t, s' = set_metadata (set_transport s t) (adv w) /\ chosen (se_server_addr s) t
       | Err e => s' = invalidate_mr_metadata s /\ connect_error e
       end.
Proof.
  unfold reconnect, st_bind, on_world, modify, st_get. destruct (control_discover_spec w) as (w1 & r & -> & Ha & Hr).
  destruct r as [md|e].
  2:{ do 3 eexists. split; [reflexivity|]. split; [done|]. split; [done|]. by left. }
  cbn [snd se_server_addr invalidate_mr_metadata set_metadata].
  destruct (create_transport_spec (se_server_addr s) w1) as (w2 & r2 & -> & Ha2 & Hr2). destruct r2 as [t|e].
  - do 3 eexists. split; [reflexivity|]. split; [congruence|]. exists t. by subst md.
  - do 3 eexists. split; [reflexivity|]. split; [congruence|]. split; [done|]. right. by right.
Qed.

(** *** Histories *)

(** The metadata of every incarnation of the server by its generation, with the
    invalidated metadata under 0, and the running server and the session. *)
Abbreviation history := (gmap Z ServerMetadata).

(** The calls of the session succeed or fail; other clients may call the server;
    a restart takes a generation that was not used before. *)
Inductive session_step : history * W * ClientSession TR TT -> history * W * ClientSession TR TT -> Prop :=
| ss_refresh h w s w' s' r :
    refresh_metadata (w, s) = Done ((w', s'), r) -> session_step (h, w, s) (h, w', s')
| ss_reconnect h w s w' s' r :
    reconnect fmt (w, s) = Done ((w', s'), r) -> session_step (h, w, s) (h, w', s')
| ss_heartbeat h w s w' ts r :
    ControlClient_heartbeat (se_client_id s) ts w = Done (w', r) -> session_step (h, w, s) (h, w', s)
| ss_other h w s w' :
    adv w' = adv w -> session_step (h, w, s) (h, w', s)
| ss_restart h w s w' :
    h !! sm_generation (adv w') = None ->
    session_step (h, w, s) (<[sm_generation (adv w') := adv w']> h, w', s).

Definition history_init w : history :=
  <[0 := ServerMetadata_default]> {[ sm_generation (adv w) := adv w ]}.

Definition session_inv (x : history * W * ClientSession TR TT) : Prop :=
  let '(h, w, s) := x in
  h !! 0 = Some ServerMetadata_default /\ h !! sm_generation (adv w) = Some (adv w)
  /\ h !! sm_generation (se_metadata s) = Some (se_metadata s).

Lemma session_inv_step x y : session_step x y -> session_inv x -> session_inv y.
Proof.
  intros [h w s w' s' r E|h w s w' s' r E|h w s w' ts r E|h w s w' Ha|h w s w' Hn] (H1 & H2 & H3).
  - destruct (refresh_spec w s) as (w1 & s1 & r1 & E1 & Ha & Hr). rewrite E in E1. injection E1 as <- <- <-.
    unfold session_inv. rewrite Ha. by destruct r; subst.
  - destruct (reconnect_spec w s) as (w1 & s1 & r1 & E1 & Ha & Hr). rewrite E in E1. injection E1 as <- <- <-.
    unfold session_inv. rewrite Ha. destruct r; [by destruct Hr as (t & -> & _) | by destruct Hr as [-> _]].
  - pose proof (sv_heartbeat (se_client_id s) ts w) as Hh. unfold ControlClient_heartbeat, lift_call in E.
    injection E as E. rewrite E in Hh. destruct Hh as [Ha _]. unfold session_inv. by rewrite Ha.
  - unfold session_inv. by rewrite Ha.
  - split_and!; [by rewrite lookup_insert_ne by congruence | apply lookup_insert_eq|].
    by rewrite lookup_insert_ne by congruence.
Qed.

Lemma session_inv_run x y : rtc session_step x y -> session_inv x -> session_inv y.
Proof. induction 1; eauto using session_inv_step. Qed.

Lemma session_inv_init w s :
  sm_generation (adv w) <> 0 -> se_metadata s = adv w -> session_inv (history_init w, w, s).
Proof.
  intros Hg E. unfold session_inv, history_init. rewrite E, lookup_insert_eq, lookup_insert_ne by done.
  by rewrite lookup_singleton_eq.
Qed.

(** *** Properties *)

(** C27. Connecting, with or without TLS, on every branch: it never panics and changes nothing of what
    the server advertises.  On success the session holds the client's id, the
    address, the server's metadata with its three regions, the negotiated version
    and a transport that is RDMA when that connects and TCP on the fallback
    address otherwise, and the next heartbeat asks for no reconnect.  A failure is
    a channel error, a status or a failed fallback: the version check never
    refuses this server. *)
Theorem session_connect_spec {ServerTls} `{TlsLibrary ServerTls ch_tls} tls addr id w :
  exists w' r, session_connect tls addr id w = Done (w', r) /\ adv w' = adv w
    /\ match r with
       | Ok s =>
           se_client_id s = id /\ se_server_addr s = addr /\ se_metadata s = adv w
           /\ se_server_version s = SERVICE_VERSION /\ chosen addr (se_transport s)
           /\ (exists h, hash_table_region s = Some h
                 /\ rm_size h = u64 (engine_bucket_count (cs_engine (sv_server w)) * 64))
           /\ (exists l, large_object_region s = Some l
                 /\ rm_size l = large_object_capacity (cs_engine (sv_server w)))
           /\ (exists f, free_list_region s = Some f /\ rm_vaddr f = sv_header w)
           /\ forall ts now, check_reconnect_needed s (heartbeat (sv_server w) id ts now).2 = false
       | Err e => connect_error e
       end.
Proof.
  destruct (connect_spec tls addr id w) as (w' & r & E & Ha & Hr). exists w', r. split; [done|]. split; [done|].
  destruct r as [s|e]; [|done]. destruct Hr as (F1 & F2 & F3 & F4 & _ & F5).
  destruct (adv_regions w s F3) as (R1 & R2 & R3). split_and!; try done.
  intros ts now. by apply check_after_discover.
Qed.

(** C13. The generation check is sound: after a session was opened, through any
    history of refreshes, reconnects, heartbeats, calls of others, failures of
    any of them and restarts under new generations, if a heartbeat response asks
    for no reconnect then the cached metadata is exactly what the running server
    advertises; and a failed reconnect leaves no region cached. *)
Theorem generation_check_sound w0 s0 h w s c ts w' resp :
  sm_generation (adv w0) <> 0 -> se_metadata s0 = adv w0 ->
  rtc session_step (history_init w0, w0, s0) (h, w, s) ->
  ControlClient_heartbeat c ts w = Done (w', Ok resp) ->
  (check_reconnect_needed s resp = false -> se_metadata s = adv w)
  /\ (forall w2 s2 e, reconnect fmt (w, s) = Done ((w2, s2), Err e) ->
        hash_table_region s2 = None /\ large_object_region s2 = None /\ free_list_region s2 = None).
Proof.
  intros Hg E0 Hrun Hb. apply session_inv_run in Hrun as (_ & H1 & H2); [|by apply session_inv_init].
  split.
  - pose proof (sv_heartbeat c ts w) as Hh. unfold ControlClient_heartbeat, lift_call in Hb.
    injection Hb as Hb. rewrite Hb in Hh. destruct Hh as [_ [[e [=]]|(now & [= ->] & _)]].
    unfold check_reconnect_needed. cbn. intros Hc%negb_false_iff%Z.eqb_eq.
    change (cs_generation (sv_server w)) with (sm_generation (adv w)) in Hc. rewrite Hc in H1. congruence.
  - intros w2 s2 e E. destruct (reconnect_spec w s) as (w1 & s1 & r1 & E1 & _ & Hr). rewrite E in E1.
    injection E1 as <- <- <-. by destruct Hr as [-> _].
Qed.
End properties.

(** ** The fallback address *)

Fixpoint no_colon (s : string) : bool :=
  match s with
  | EmptyString => true
  | String c s => negb (Ascii.eqb c ":"%char) && no_colon s
  end.

Lemma string_app_nil_r (s : string) : s +:+ EmptyString = s.
Proof. induction s as [|c s IH]; [done|]. change (String c (s +:+ EmptyString) = String c s). by rewrite IH. Qed.

Lemma replace_no_colon h rest :
  no_colon h = true -> replace_go ":9400" ":9401" 0 (h +:+ rest) = h +:+ replace_go ":9400" ":9401" 0 rest.
Proof.
  induction h as [|c h IH]; [done|]. intros [Hc Hh]%andb_true_iff. apply negb_true_iff in Hc.
  apply Ascii.eqb_neq in Hc. change (String c h +:+ rest) with (String c (h +:+ rest)).
  cbn [replace_go String.prefix]. destruct (Ascii.ascii_dec ":"%char c); [congruence|]. by rewrite (IH Hh).
Qed.

(** The TCP address is the server's with port 9401, but only when the server's
    port is 9400: any other port is left as it is, although the documentation
    promises the next port. *)
Lemma fallback_addr_spec host port :
  no_colon host = true -> no_colon port = true ->
  tcp_fallback_addr (host +:+ ":9400") = host +:+ ":9401"
  /\ (String.prefix "9400" port = false -> tcp_fallback_addr (host +:+ ":" +:+ port) = host +:+ ":" +:+ port).
Proof.
  intros Hh Hp. unfold tcp_fallback_addr. split; [by rewrite replace_no_colon|]. intros Hx.
  rewrite replace_no_colon by done. f_equal. change (":" +:+ port) with (String ":"%char port).
  cbn [replace_go]. replace (String.prefix ":9400" (String ":"%char port)) with (String.prefix "9400" port) by reflexivity.
  rewrite Hx. f_equal. rewrite <- (string_app_nil_r port) at 1. rewrite replace_no_colon by done. by rewrite string_app_nil_r.
Qed.

(** ** Restarts of the actual server *)

(** [ControlServer::new] always starts with generation 1, so a restarted server
    is not told from the old one, whatever engine it now has. *)
Lemma restart_undetected {TR TT} e e' (s : ClientSession TR TT) addr c ts now :
  se_metadata s = discover (ControlServer_new e) addr ->
  check_reconnect_needed s (heartbeat (ControlServer_new e') c ts now).2 = false.
Proof. intros E. unfold check_reconnect_needed. by rewrite E. Qed.

(** ** A concrete channel *)

(** A reachable server without RDMA. *)
#[export] Instance direct_channel : Channel ControlServer Empty_set unit := {|
  ch_connect _ w := (w, Ok tt);
  ch_tls := unit;
  ch_connect_tls _ _ w := (w, Ok tt);
  ch_discover w := (w, Ok (Some (discover w 64)));
  ch_heartbeat c ts w := let '(w', r) := heartbeat w c ts 0 in (w', Ok r);
  ch_deregister c w := (deregister w c, Ok tt);
  ch_get_version w := (w, Ok (let '(v, str, m) := get_version w in mkVersion v str m));
  rdma_connect _ w := (w, Err (Internal "No RDMA device found"));
  tcp_connect _ w := (w, Ok tt)
|}.

#[export] Instance direct_served : ServedChannel ControlServer Empty_set unit.
Proof.
  refine {| sv_server := fun w => w; sv_header := fun _ => 64 |}; try done.
  - intros w. split; [done | by right].
  - intros c ts w. split; [done|]. right. by exists 0.
  - intros w. split; [done | by right].
Defined.

(** The task sleeps once per reading of an unset flag, exits at the first set one,
    and makes no call. *)
Lemma heartbeat_loop_spec {W TR TT} `{Channel W TR TT} n rest interval (w : W) :
  heartbeat_loop (replicate n false ++ true :: rest) interval w = Done (w, Ok (replicate n interval, true))
  /\ heartbeat_loop (replicate n false) interval w = Done (w, Ok (replicate n interval, false)).
Proof.
  induction n as [|n [IH1 IH2]]; [done|]. cbn [replicate app heartbeat_loop]. unfold st_bind. by rewrite IH1, IH2.
Qed.

Lemma heartbeat_loop_silent {W TR TT} `{Channel W TR TT} stops interval (w : W) :
  exists slept, heartbeat_loop stops interval w = Done (w, Ok slept).
Proof.
  induction stops as [|[|] stops [slept IH]]; [by eexists | by eexists |]. cbn [heartbeat_loop]. unfold st_bind.
  rewrite IH. by eexists.
Qed.

(** A connected client is unknown to the server: neither [connect] nor the
    heartbeat task, however long it runs, registers it, so the reclamation bound of
    the server does not count it. *)
Lemma connected_client_unregistered addr id (w : ControlServer) stops :
  cs_clients w !! id = None ->
  exists s w' slept, (let! s := ClientSession_connect (fun _ => "") addr id in
                      let! slept := start_heartbeat s stops in st_ret (s, slept)) w = Done (w', Ok (s, slept))
    /\ cs_clients w' !! id = None /\ min_active_ts (cs_clients w') = min_active_ts (cs_clients w).
Proof.
  intros Hn. set (s := mkSession (TR := Empty_set) (TT := unit) id addr (discover w 64) 1 (inr tt) 1000).
  destruct (heartbeat_loop_silent stops 1000 w) as [slept E]. exists s, w, slept. split; [|done].
  unfold st_bind at 1. change (ClientSession_connect (fun _ => "") addr id w) with
    (Done (A := ControlServer * result (ClientSession Empty_set unit) ClientSessionError) (w, Ok s)).
  unfold st_bind, start_heartbeat. change (se_heartbeat_interval s) with 1000. by rewrite E.
Qed.

Definition sample_server (gen : Z) : ControlServer :=
  mkControl (mkEngine (mkTable [] 8 4) (LargeObjectRegion_new 128) (mkFreeListHeader 0 (zeros 56)) (SlabAllocator_new 0 0)) gen ∅ false.

Definition sample_session : ClientSession Empty_set unit :=
  mkSession 7 "h:9400" (discover (sample_server 1) 64) 1 (inr tt) 1000.

(** A TLS library that keeps the texts. *)
#[export] Instance text_tls : TlsLibrary (list string) unit := {|
  Identity := string * string;
  Certificate := string;
  identity_from_pem cert key := (cert, key);
  certificate_from_pem pem := pem;
  server_tls_new := [];
  server_identity i config := config ++ [i.1; i.2];
  client_ca_root c config := config ++ [c];
  client_tls_new := tt;
  ca_certificate _ config := config;
  client_identity _ config := config
|}.

(** Over TLS and without RDMA the session falls back to TCP on the next port. *)
Lemma session_connect_spec_witness :
  exists s, session_connect (fun _ => "") (Some (mkTlsConfig "ca" "cert" "key")) "h:9400" 7 (sample_server 1)
      = Done (sample_server 1, Ok s)
    /\ se_metadata s = discover (sample_server 1) 64 /\ se_server_version s = SERVICE_VERSION.
Proof.
  destruct (session_connect_spec (fun _ => "") (Some (mkTlsConfig "ca" "cert" "key")) "h:9400" 7 (sample_server 1))
    as (w' & r & E & _ & Hr).
  injection E as <- <-. exists sample_session. split; [reflexivity|]. split; apply Hr.
Defined.

(** After a restart under generation 2 and a refresh, the check passes and the
    session knows the new server. *)
Lemma generation_check_sound_witness :
  exists s, refresh_metadata (sample_server 2, sample_session) = Done ((sample_server 2, s), Ok tt)
    /\ se_metadata s = discover (sample_server 2) 64.
Proof.
  exists (set_metadata sample_session (discover (sample_server 2) 64)). split; [reflexivity|].
  refine (proj1 (generation_check_sound (fun _ => "") (sample_server 1) sample_session
    (<[2 := discover (sample_server 2) 64]> (history_init (sample_server 1))) (sample_server 2) _ 7 5
    (heartbeat (sample_server 2) 7 5 0).1 (heartbeat (sample_server 2) 7 5 0).2 _ _ _ _) _); try done.
  eapply rtc_l; [by apply (ss_restart _ _ (sample_server 1) _ (sample_server 2))|].
  eapply rtc_l; [by eapply ss_refresh | apply rtc_refl].
Defined.
