(* ===== verification/Watermark.v ===== *)
(** * Watermark: statistics and load monitoring
    (src/engine/watermark.rs, [stats] of src/engine/bootstrap.rs,
     [fragmentation_ratio] of src/engine/extent.rs, [PerfStats] of src/client/opt.rs)

    The ratios are binary64 quotients of counters ([Float64]).  The theorem: with
    the default thresholds the monitor raises exactly the regions whose exact load
    is above the threshold, in spite of the rounding, and calls back exactly then. *)

From Stdlib Require Import SpecFloat.
From stdpp Require Import strings.
From S2P Require Import Prelude Float64 Layout Cuckoo Extent Slab Engine.

Open Scope Z_scope.

(** ** Watermarks *)

Record WatermarkConfig : Type := mkWmConfig {
  check_interval_ms : Z;
  table_load_threshold : f64;
  extent_usage_threshold : f64;
  slab_usage_threshold : f64
}.

(** The message of the control plane and its handler, which only logs it. *)
Record WatermarkNotification : Type := mkWmNotification {
  wn_table_load : f64;
  wn_extent_usage : f64;
  wn_slab_usage : f64;
  wn_exceeded_regions : list string
}.

Definition notify_watermark (s : ControlServer) (notification : WatermarkNotification) : ControlServer * unit :=
  (s, tt).

(** The literals [0.80] and [0.85] as binary64 numbers. *)
Definition f64_0_80 : f64 := S754_finite false 7205759403792794 (-53).
Definition f64_0_85 : f64 := S754_finite false 7656119366529843 (-53).

Definition WatermarkConfig_default : WatermarkConfig := mkWmConfig 5000 f64_0_80 f64_0_85 f64_0_85.

Record WatermarkStatus : Type := mkWmStatus {
  table_load : f64;
  extent_usage : f64;
  slab_usage : f64;
  any_exceeded : bool;
  exceeded_regions : list string
}.

(** [on_exceeded] is whether a callback is set; [check] returns the status it
    passes to it. *)
Record WatermarkMonitor : Type := mkMonitor {
  wm_config : WatermarkConfig;
  wm_on_exceeded : bool;
  wm_shutdown : bool
}.

Definition WatermarkMonitor_new (config : WatermarkConfig) : WatermarkMonitor := mkMonitor config false false.
Definition set_on_exceeded (m : WatermarkMonitor) : WatermarkMonitor := mkMonitor (wm_config m) true (wm_shutdown m).

Definition load_ratio (used capacity : Z) : f64 :=
  if 0 <? capacity then f64_ratio used capacity else f64_zero.

Definition wm_check (m : WatermarkMonitor) (table_key_count table_capacity extent_used extent_capacity
    slab_allocated slab_total : Z) : WatermarkStatus * option WatermarkStatus :=
  let table_load := load_ratio table_key_count table_capacity in
  let extent_usage := load_ratio extent_used extent_capacity in
  let slab_usage := load_ratio slab_allocated slab_total in
  let regions := if f64_gt table_load (table_load_threshold (wm_config m)) then ["hash_table"] else [] in
  let regions := if f64_gt extent_usage (extent_usage_threshold (wm_config m)) then regions ++ ["extent_region"] else regions in
  let regions := if f64_gt slab_usage (slab_usage_threshold (wm_config m)) then regions ++ ["slab_region"] else regions in
  let any := negb (bool_decide (regions = [])) in
  let status := mkWmStatus table_load extent_usage slab_usage any regions in
  (status, if any && wm_on_exceeded m then Some status else None).

Definition is_exceeded (m : WatermarkMonitor) (status : WatermarkStatus) : bool := any_exceeded status.
Definition check_interval (m : WatermarkMonitor) : Z := check_interval_ms (wm_config m).

(** ** Engine statistics *)

Definition fragmentation_ratio (r : LargeObjectRegion) (order : list Z) : exec f64 :=
  used ← used_bytes r order;
  Done (if used =? 0 then f64_zero else f64_ratio (lor_size r) used).

Record EngineStats : Type := mkStats {
  st_bucket_count : Z;
  st_large_object_capacity : Z;
  st_large_object_used : Z;
  st_free_list_used : Z;
  st_fragmentation_ratio : f64;
  st_slab_total_chunks : Z;
  st_slab_allocated_chunks : Z;
  st_slab_free_chunks : Z
}.

(** [order] is the iteration order of the allocated set. *)
Definition engine_stats (e : BootstrappedEngine) (order : list Z) : exec EngineStats :=
  used ← used_bytes (eng_large_objects e) order;
  ratio ← fragmentation_ratio (eng_large_objects e) order;
  Done (mkStats (engine_bucket_count e) (large_object_capacity e) used (bump_offset (eng_free_list e)) ratio
    (slab_total_chunks (eng_slab e)) (slab_allocated_count (eng_slab e)) (slab_free_count (eng_slab e))).

(** ** Client statistics *)

Record PerfStats : Type := mkPerf {
  reads : Z; writes : Z; cas_ops : Z; retries : Z; poll_iters : Z; completions : Z; h1_hits : Z; h2_hits : Z
}.

Definition h1_hit_ratio (p : PerfStats) : f64 :=
  let total := u64 (h1_hits p + h2_hits p) in
  if total =? 0 then f64_zero else f64_ratio (h1_hits p) total.
Definition read_amplification (p : PerfStats) : f64 :=
  let total := u64 (h1_hits p + h2_hits p) in
  if total =? 0 then f64_zero else f64_ratio (u64 (h1_hits p + u64 (2 * h2_hits p))) total.
Definition completions_per_poll (p : PerfStats) : f64 :=
  if poll_iters p =? 0 then f64_zero else f64_ratio (completions p) (poll_iters p).

(** ** Lemmas *)

Lemma threshold_80 : near_fraction 7205759403792794 4 5.
Proof. unfold near_fraction. lia. Qed.
Lemma threshold_85 : near_fraction 7656119366529843 17 20.
Proof. unfold near_fraction. lia. Qed.

(** A load is above a threshold exactly when the fraction of the counters is. *)
Lemma load_ratio_gt used capacity t u v :
  0 <= used < 2 ^ 53 -> 0 <= capacity <= 2 ^ 40 -> near_fraction t u v ->
  f64_gt (load_ratio used capacity) (S754_finite false t (-53)) = (0 <? capacity) && (u * capacity <? v * used).
Proof.
  intros Hu Hc Ht. unfold load_ratio. destruct (Z.ltb_spec 0 capacity); [|done]. apply f64_ratio_gt; (done || lia).
Qed.

(** The regions whose counters are above the default thresholds, in order. *)
Definition overloaded (keys buckets used size chunks total : Z) : list string :=
  (if (0 <? buckets) && (4 * buckets <? 5 * keys) then ["hash_table"] else [])
  ++ (if (0 <? size) && (17 * size <? 20 * used) then ["extent_region"] else [])
  ++ (if (0 <? total) && (17 * total <? 20 * chunks) then ["slab_region"] else []).

(** The ratios are exact on representable quotients: a ratio of equal counters
    is one. *)
Example f64_ratio_one : f64_ratio 12345 12345 = S754_finite false 4503599627370496 (-52).
Proof. vm_compute. reflexivity. Qed.

(** The fragmentation ratio is capacity over use: a region with one small extent
    and no hole at all reports a ratio far above one. *)
Example fragmentation_of_unfragmented_region :
  ('(r, o) ← allocate (LargeObjectRegion_new 1024) [1; 2; 3];
   ratio ← fragmentation_ratio r [default 0 o];
   Done (free_list r, ratio)) = Done ([], f64_ratio 1024 40).
Proof. vm_compute. reflexivity. Qed.

(** ** Properties *)

(** C38. The monitor with the default thresholds is exact: for capacities up to
    [2^40] the regions it reports are those whose use is above 80 percent of the
    buckets, 85 percent of the extent bytes or of the slab chunks, in spite of
    two roundings to binary64 and one of the literal; an empty capacity is never
    reported; the status says whether any was exceeded, and the callback gets
    exactly this status, once, if it is set and something was exceeded. *)
Theorem watermark_check_exact m keys buckets used size chunks total :
  wm_config m = WatermarkConfig_default ->
  0 <= keys < 2 ^ 53 -> 0 <= buckets <= 2 ^ 40 -> 0 <= used < 2 ^ 53 -> 0 <= size <= 2 ^ 40 ->
  0 <= chunks < 2 ^ 53 -> 0 <= total <= 2 ^ 40 ->
  let regions := overloaded keys buckets used size chunks total in
  let '(status, called) := wm_check m keys buckets used size chunks total in
  exceeded_regions status = regions
  /\ any_exceeded status = negb (bool_decide (regions = []))
  /\ called = if negb (bool_decide (regions = [])) && wm_on_exceeded m then Some status else None.
Proof.
  intros Hcfg Hk Hb Hu Hs Hc Ht regions. unfold wm_check. rewrite Hcfg.
  cbn [table_load_threshold extent_usage_threshold slab_usage_threshold WatermarkConfig_default f64_0_80 f64_0_85].
  unfold f64_0_80, f64_0_85.
  rewrite (load_ratio_gt keys buckets _ 4 5 Hk Hb threshold_80), (load_ratio_gt used size _ 17 20 Hu Hs threshold_85),
    (load_ratio_gt chunks total _ 17 20 Hc Ht threshold_85).
  unfold regions, overloaded. cbn [exceeded_regions any_exceeded].
  destruct ((0 <? buckets) && _), ((0 <? size) && _), ((0 <? total) && _); by split_and!.
Qed.

Lemma watermark_check_exact_witness :
  let '(status, called) := wm_check (set_on_exceeded (WatermarkMonitor_new WatermarkConfig_default)) 900 1000 850 1000 90 100 in
  exceeded_regions status = ["hash_table"; "slab_region"] /\ called = Some status.
Proof.
  pose proof (watermark_check_exact (set_on_exceeded (WatermarkMonitor_new WatermarkConfig_default)) 900 1000 850 1000 90 100
    eq_refl ltac:(lia) ltac:(lia) ltac:(lia) ltac:(lia) ltac:(lia) ltac:(lia)) as H. cbv zeta in H.
  destruct (wm_check _ 900 1000 850 1000 90 100) as [status called]. destruct H as (H1 & _ & H3).
  split; [exact H1 | exact H3].
Defined.
