(* ===== verification/Connector.v ===== *)
(** * Connector: the LMCache connector (crates/lmcache-connector/src/lib.rs)

    [RDMANativeConnector] in the default build (without the [director]
    feature): batches of get, set, exists and delete on the cuckoo table and the
    large object region, with the queue of completions, the notification
    counter and the LRU retry.  The hash function of the xxhash crate is the
    argument [xxh64]; clock readings and map iteration orders are arguments.  A
    memory view is the byte string its [tobytes] returns, [None] when the call
    fails.  The [pending] map is never written and has no counterpart here; the
    descriptor and the worker threads are those of [ConnectorLife]. *)

From stdpp Require Import strings.
From S2P Require Import Prelude Layout Cuckoo CuckooSpec CuckooProps Extent ExtentSpec ExtentProps Lru Engine.

Open Scope Z_scope.

Record Completion : Type := mkCompletion {
  cp_future_id : Z;
  cp_ok : bool;
  cp_error : string;
  cp_per_key_bools : option (list bool)
}.

(** [cn_event_fd] is the counter of the eventfd, [None] once it is closed. *)
Record RDMANativeConnector : Type := mkConnector {
  cn_table : CuckooTable;
  cn_large_objects : LargeObjectRegion;
  cn_next_id : Z;
  cn_completions : list Completion;
  cn_shutdown : bool;
  cn_closed : bool;
  cn_event_fd : option Z;
  cn_lru : LruTracker
}.

Definition is_ok {A E} (r : result A E) : bool := match r with Ok _ => true | Err _ => false end.

Section connector.
Context (xxh64 : list Z -> Z -> Z).

Definition hash_lmcache_key (key : list Z) : HashedKey :=
  let hash := xxh64 key 0 in
  let h2 := xxh64 key 1 in
  mkHashedKey hash (digest_of hash h2).

Definition lru_watermark (batch_chunk_num_bytes : Z) : Z :=
  Z.max (u64 (batch_chunk_num_bytes * 10) / 256) 1000.

(** [eventfd] is false when the system call fails. *)
Definition RDMANativeConnector_new (batch_chunk_num_bytes : Z) (eventfd : bool)
  : exec (result RDMANativeConnector string) :=
  let bucket_count := 2 ^ 20 in
  table ← CuckooTable_new bucket_count 16;
  let large_objects := LargeObjectRegion_new (u64 (batch_chunk_num_bytes * 10)) in
  if negb eventfd then Done (Err "failed to create eventfd")
  else
    let lru := LruTracker_new (lru_watermark batch_chunk_num_bytes) in
    Done (Ok (mkConnector table large_objects 1 [] false false (Some 0) lru)).

(** ** Completions *)

(** A write to an eventfd adds to its counter unless it would overflow. *)
Definition eventfd_write (fd : option Z) : option Z :=
  match fd with
  | Some n => Some (if n + 1 <? 2 ^ 64 - 1 then n + 1 else n)
  | None => None
  end.

Definition push_completion (c : RDMANativeConnector) (future_id : Z) (ok : bool) (error : string)
    (per_key_bools : option (list bool)) : RDMANativeConnector :=
  mkConnector (cn_table c) (cn_large_objects c) (cn_next_id c)
    (cn_completions c ++ [mkCompletion future_id ok error per_key_bools])
    (cn_shutdown c) (cn_closed c) (eventfd_write (cn_event_fd c)) (cn_lru c).

(** [next_id.fetch_add(1)]. *)
Definition take_id (c : RDMANativeConnector) : RDMANativeConnector * Z :=
  (mkConnector (cn_table c) (cn_large_objects c) (u64 (cn_next_id c + 1)) (cn_completions c)
     (cn_shutdown c) (cn_closed c) (cn_event_fd c) (cn_lru c), cn_next_id c).

Definition set_storage (c : RDMANativeConnector) (t : CuckooTable) (r : LargeObjectRegion)
    (lru : LruTracker) : RDMANativeConnector :=
  mkConnector t r (cn_next_id c) (cn_completions c) (cn_shutdown c) (cn_closed c) (cn_event_fd c) lru.

Definition drain_completions (c : RDMANativeConnector)
  : RDMANativeConnector * list (Z * bool * string * option (list bool)) :=
  let comps := cn_completions c in
  (mkConnector (cn_table c) (cn_large_objects c) (cn_next_id c) [] (cn_shutdown c) (cn_closed c)
     (cn_event_fd c) (cn_lru c),
   (fun p => (cp_future_id p, cp_ok p, cp_error p, cp_per_key_bools p)) <$> comps).

Definition connector_close (c : RDMANativeConnector) : RDMANativeConnector :=
  if cn_closed c then c
  else mkConnector (cn_table c) (cn_large_objects c) (cn_next_id c) (cn_completions c) true true None
         (cn_lru c).

(** ** Reading and deleting batches *)

Fixpoint lookup_keys (t : CuckooTable) (keys : list (list Z)) : exec (list bool) :=
  match keys with
  | [] => Done []
  | k :: keys =>
      found ← CuckooTable_lookup t (hash_lmcache_key k);
      results ← lookup_keys t keys;
      Done (bool_decide (is_Some found) :: results)
  end.

Definition submit_batch_get (c : RDMANativeConnector) (keys : list (list Z))
  : exec (RDMANativeConnector * Z) :=
  let '(c, future_id) := take_id c in
  results ← lookup_keys (cn_table c) keys;
  Done (push_completion c future_id true "" (Some results), future_id).

Definition submit_batch_exists (c : RDMANativeConnector) (keys : list (list Z))
  : exec (RDMANativeConnector * Z) :=
  let '(c, future_id) := take_id c in
  results ← lookup_keys (cn_table c) keys;
  Done (push_completion c future_id true "" (Some results), future_id).

Fixpoint delete_keys (t : CuckooTable) (keys : list (list Z)) : exec (CuckooTable * list bool) :=
  match keys with
  | [] => Done (t, [])
  | k :: keys =>
      '(t, deleted) ← CuckooTable_delete t (hash_lmcache_key k);
      '(t, results) ← delete_keys t keys;
      Done (t, deleted :: results)
  end.

Definition submit_batch_delete (c : RDMANativeConnector) (keys : list (list Z))
  : exec (RDMANativeConnector * Z) :=
  let '(c, future_id) := take_id c in
  '(t, results) ← delete_keys (cn_table c) keys;
  Done (push_completion (set_storage c t (cn_large_objects c) (cn_lru c)) future_id true ""
          (Some results), future_id).

(** ** Eviction *)

Fixpoint evict_keys (t : CuckooTable) (candidates : list Z) : exec CuckooTable :=
  match candidates with
  | [] => Done t
  | key_hash :: candidates =>
      let digest := bwrite 0 (to_le 8 key_hash) (zeros 16) in
      '(t, _) ← CuckooTable_delete t (mkHashedKey key_hash digest);
      evict_keys t candidates
  end.

Definition evict_if_needed (t : CuckooTable) (lru : LruTracker) (lru_order : list (Z * Z))
  : exec (CuckooTable * LruTracker) :=
  if negb (needs_eviction lru) then Done (t, lru)
  else
    let n := Z.max (lru_key_count lru / 10) 1 in
    let '(lru, candidates) := select_eviction_candidates lru lru_order n in
    if bool_decide (candidates = []) then Done (t, lru)
    else
      let evicted_count := len candidates in
      t ← evict_keys t candidates;
      Done (t, increment_evicted lru evicted_count).

(** ** Writing batches *)

(** The locals of the first loop of [submit_batch_set]. *)
Record set_state : Type := mkSetState {
  ss_table : CuckooTable;
  ss_large_objects : LargeObjectRegion;
  ss_lru : LruTracker;
  ss_results : list bool;
  ss_eviction_needed : bool
}.

Definition set_one (key : list Z) (mv : option (list Z)) (now : Z) (s : set_state) : exec set_state :=
  let hk := hash_lmcache_key key in
  let lru := record_access (ss_lru s) (hk_hash hk) now in
  let data := default [] mv in
  if bool_decide (data = []) && negb (bool_decide (key = [])) then
    '(t, r) ← CuckooTable_insert (ss_table s) hk data Inline;
    Done (mkSetState t (ss_large_objects s) lru (ss_results s ++ [is_ok r]) (ss_eviction_needed s))
  else
    let mode := if len data <=? 32 then Inline else Extent in
    match mode with
    | Inline =>
        '(t, r) ← CuckooTable_insert (ss_table s) hk data Inline;
        Done (mkSetState t (ss_large_objects s) lru (ss_results s ++ [is_ok r]) (ss_eviction_needed s))
    | Extent =>
        '(lo, allocation) ← allocate (ss_large_objects s) data;
        match allocation with
        | Some offset =>
            '(t, r) ← CuckooTable_insert_extent (ss_table s) hk offset (len data);
            Done (mkSetState t lo lru (ss_results s ++ [is_ok r]) (ss_eviction_needed s))
        | None => Done (mkSetState (ss_table s) lo lru (ss_results s ++ [false]) true)
        end
    end.

(** [keys.iter().zip(mvs.iter())]; [clock i] is the [i]-th clock reading. *)
Fixpoint set_loop (pairs : list (list Z * option (list Z))) (clock : nat -> Z) (s : set_state)
  : exec set_state :=
  match pairs with
  | [] => Done s
  | (key, mv) :: pairs =>
      s ← set_one key mv (clock 0%nat) s;
      set_loop pairs (fun i => clock (S i)) s
  end.

(** The second loop, over [keys.iter().enumerate()] from index [i]. *)
Fixpoint set_retry (keys : list (list Z)) (mvs : list (option (list Z))) (i : Z) (t : CuckooTable)
    (lo : LargeObjectRegion) (results : list bool)
  : exec (CuckooTable * LargeObjectRegion * list bool) :=
  match keys with
  | [] => Done (t, lo, results)
  | key :: keys =>
      done ← vec_get results i;
      if (done : bool) then set_retry keys mvs (i + 1) t lo results
      else
        let hk := hash_lmcache_key key in
        let data := default [] (mjoin (mvs !! Z.to_nat i)) in
        if 32 <? len data then
          '(lo, allocation) ← allocate lo data;
          match allocation with
          | Some offset =>
              '(t, r) ← CuckooTable_insert_extent t hk offset (len data);
              results ← vec_set results i (is_ok r);
              set_retry keys mvs (i + 1) t lo results
          | None => set_retry keys mvs (i + 1) t lo results
          end
        else set_retry keys mvs (i + 1) t lo results
  end.

Definition submit_batch_set (c : RDMANativeConnector) (keys : list (list Z))
    (mvs : list (option (list Z))) (clock : nat -> Z) (lru_order : list (Z * Z))
  : exec (RDMANativeConnector * Z) :=
  let '(c, future_id) := take_id c in
  s ← set_loop (zip keys mvs) clock
        (mkSetState (cn_table c) (cn_large_objects c) (cn_lru c) [] false);
  '(t, lo, lru, results) ←
    (if ss_eviction_needed s then
       '(t, lru) ← evict_if_needed (ss_table s) (ss_lru s) lru_order;
       '(t, lo, results) ← set_retry keys mvs 0 t (ss_large_objects s) (ss_results s);
       Done (t, lo, lru, results)
     else Done (ss_table s, ss_large_objects s, ss_lru s, ss_results s));
  Done (push_completion (set_storage c t lo lru) future_id true "" (Some results), future_id).
End connector.
