(* ===== verification/ConnectorProps.v ===== *)
(** * ConnectorProps: the connector's contract

    No trace of batches panics or breaks the table and the region; every submit
    yields exactly one completion, in order; a key whose set reports success is
    found and reads back its value; eviction as written removes nothing. *)

From stdpp Require Import strings.
From S2P Require Import Prelude Layout Cuckoo CuckooSpec CuckooProps Extent ExtentSpec ExtentProps Lru Engine Connector.

Open Scope Z_scope.

Section connector.
Context (xxh64 : list Z -> Z -> Z).
Hypothesis xxh64_u64 : forall k s, is_u64 (xxh64 k s).

(** ** The table operations for any hash *)

Lemma lmcache_key_wf key : key_wf (hash_lmcache_key xxh64 key).
Proof using xxh64_u64. constructor; [apply xxh64_u64 | apply digest_of_wf..]. Qed.

Lemma delete_total t key :
  table_wf t -> exists t' b, CuckooTable_delete t key = Done (t', b) /\ table_wf t'.
Proof.
  intros Hwf. destruct (decide (hk_hash key = 0)) as [Hz|Hn].
  - destruct (zero_hash_spec t key Hwf Hz) as (_ & t' & b & E & Hwf' & _). by exists t', b.
  - destruct (delete_spec t key Hwf Hn) as (t' & E & Hwf' & _). by do 2 eexists.
Qed.

Lemma lookup_total t key : table_wf t -> exists r, CuckooTable_lookup t key = Done r.
Proof.
  intros Hwf. destruct (decide (hk_hash key = 0)) as [Hz|Hn].
  - by apply zero_hash_spec.
  - rewrite lookup_spec by done. by eexists.
Qed.

Lemma insert_total t key value mode :
  table_wf t -> key_wf key -> Forall is_u8 value ->
  exists t' r, CuckooTable_insert t key value mode = Done (t', r) /\ table_wf t'.
Proof.
  intros Hwf Hk Hv. destruct (decide (hk_hash key = 0)) as [Hz|Hn].
  - unfold CuckooTable_insert. rewrite Hz. by exists t, (Err InvalidKey).
  - destruct (insert_spec t key value mode Hwf Hk Hv Hn) as ([t' r] & E & Hwf' & _). by exists t', r.
Qed.

Lemma insert_extent_total t key o n :
  table_wf t -> key_wf key ->
  exists t' r, CuckooTable_insert_extent t key o n = Done (t', r) /\ table_wf t'.
Proof.
  intros Hwf Hk. destruct (decide (hk_hash key = 0)) as [Hz|Hn].
  - unfold CuckooTable_insert_extent. rewrite Hz. by exists t, (Err InvalidKey).
  - destruct (insert_extent_spec t key o n Hwf Hk Hn) as ([t' r] & E & Hwf' & _). by exists t', r.
Qed.

(** ** The loops *)

Definition storage_ok (t : CuckooTable) (lo : LargeObjectRegion) : Prop :=
  table_wf t /\ exists m, region_inv m lo.

Definition mv_ok (mv : option (list Z)) : Prop := data_ok (default [] mv).

Lemma lookup_keys_total t keys :
  table_wf t -> exists bs, lookup_keys xxh64 t keys = Done bs /\ length bs = length keys.
Proof.
  intros Hwf. induction keys as [|k keys (bs & E & Hl)]; [by exists []|]. cbn [lookup_keys].
  destruct (lookup_total t (hash_lmcache_key xxh64 k) Hwf) as (r & ->).
  rewrite exec_bind_done, E, exec_bind_done. eexists. split; [done|]. cbn. by rewrite Hl.
Qed.

Lemma delete_keys_total t keys :
  table_wf t ->
  exists t' bs, delete_keys xxh64 t keys = Done (t', bs) /\ table_wf t' /\ length bs = length keys.
Proof.
  revert t. induction keys as [|k keys IH]; intros t Hwf; [by exists t, []|]. cbn [delete_keys].
  destruct (delete_total t (hash_lmcache_key xxh64 k) Hwf) as (t1 & b & -> & Hwf1).
  destruct (IH t1 Hwf1) as (t2 & bs & E & Hwf2 & Hl). rewrite exec_bind_done, E, exec_bind_done.
  do 2 eexists. split_and!; [done | done |]. cbn. by rewrite Hl.
Qed.

Lemma evict_total t lru order :
  table_wf t -> exists t' lru', evict_if_needed t lru order = Done (t', lru') /\ table_wf t'.
Proof.
  intros Hwf. unfold evict_if_needed. destruct (needs_eviction lru); cbn [negb]; [|by exists t, lru].
  destruct (select_eviction_candidates lru order _) as [lru' cs]. case_bool_decide; [by exists t, lru'|].
  assert (exists t', evict_keys t cs = Done t' /\ table_wf t') as (t' & -> & Hwf'); [|by do 2 eexists].
  clear -Hwf. revert t Hwf. induction cs as [|k cs IH]; intros t Hwf; [by exists t|]. cbn [evict_keys].
  destruct (delete_total t (mkHashedKey k (bwrite 0 (to_le 8 k) (zeros 16))) Hwf) as (t1 & b & -> & Hwf1).
  rewrite exec_bind_done. by apply IH.
Qed.

Lemma set_one_total key mv now s :
  storage_ok (ss_table s) (ss_large_objects s) -> mv_ok mv ->
  exists s' b, set_one xxh64 key mv now s = Done s' /\ storage_ok (ss_table s') (ss_large_objects s')
    /\ ss_results s' = ss_results s ++ [b].
Proof using xxh64_u64.
  intros [Hwf (m & Hinv)] Hmv. unfold set_one. pose proof (lmcache_key_wf key) as Hk.
  destruct (insert_total (ss_table s) _ (default [] mv) Inline Hwf Hk (proj2 Hmv)) as (t1 & r1 & E1 & Hwf1).
  rewrite E1, exec_bind_done.
  assert (Hin : storage_ok t1 (ss_large_objects s)) by (split; eauto).
  destruct (bool_decide (default [] mv = []) && _); [by do 2 eexists|].
  destruct (len (default [] mv) <=? 32); [by do 2 eexists|].
  destruct (allocate_spec m _ _ Hinv Hmv) as (lo & res & -> & Hres). rewrite exec_bind_done.
  destruct res as [o|].
  - destruct (insert_extent_total (ss_table s) _ o (len (default [] mv)) Hwf Hk) as (t2 & r2 & -> & Hwf2).
    rewrite exec_bind_done. do 2 eexists. split_and!; [done | | done]. destruct Hres. split; eauto.
  - destruct Hres as [-> _]. do 2 eexists. split_and!; [done | | done]. split; eauto.
Qed.

Lemma set_loop_total pairs clock s :
  storage_ok (ss_table s) (ss_large_objects s) -> Forall mv_ok pairs.*2 ->
  exists s', set_loop xxh64 pairs clock s = Done s' /\ storage_ok (ss_table s') (ss_large_objects s')
    /\ length (ss_results s') = (length (ss_results s) + length pairs)%nat.
Proof using xxh64_u64.
  revert clock s. induction pairs as [|[key mv] pairs IH]; intros clock s Hs Hp.
  { exists s. cbn. split_and!; [done | done | lia]. }
  apply Forall_cons in Hp as [Hmv Hp]. cbn [set_loop].
  destruct (set_one_total key mv (clock 0%nat) s Hs Hmv) as (s1 & b & -> & Hs1 & Hr1). rewrite exec_bind_done.
  destruct (IH (fun i => clock (S i)) s1 Hs1 Hp) as (s2 & -> & Hs2 & Hr2). exists s2.
  split_and!; [done | done |]. rewrite Hr2, Hr1, length_app. cbn. lia.
Qed.

Lemma set_retry_total keys mvs i t lo results :
  storage_ok t lo -> Forall mv_ok mvs -> 0 <= i -> i + len keys <= len results ->
  exists t' lo' results', set_retry xxh64 keys mvs i t lo results = Done (t', lo', results')
    /\ storage_ok t' lo' /\ length results' = length results.
Proof using xxh64_u64.
  revert i t lo results. induction keys as [|key keys IH]; intros i t lo results Hs Hm Hi Hl.
  { by exists t, lo, results. }
  unfold len in Hl. cbn [length] in Hl. cbn [set_retry].
  destruct (vec_get_total results i) as (b & -> & Hb); [unfold len; lia|]. rewrite exec_bind_done.
  assert (Hrec : forall t' lo' results', storage_ok t' lo' -> length results' = length results ->
    exists t2 lo2 results2, set_retry xxh64 keys mvs (i + 1) t' lo' results' = Done (t2, lo2, results2)
      /\ storage_ok t2 lo2 /\ length results2 = length results).
  { intros t' lo' rs Hs' Hl'. destruct (IH (i + 1) t' lo' rs) as (t2 & lo2 & r2 & ? & ? & ?);
      [done | done | lia | unfold len; lia|]. exists t2, lo2, r2. split_and!; congruence. }
  destruct b; [by apply Hrec|]. set (data := default [] _).
  destruct (32 <? len data); [|by apply Hrec]. destruct Hs as [Hwf (m & Hinv)].
  assert (Hdata : data_ok data).
  { subst data. destruct (mvs !! Z.to_nat i) as [mv|] eqn:Em; cbn; [by eapply (Forall_lookup_1 mv_ok)|].
    split; [by vm_compute | constructor]. }
  destruct (allocate_spec m _ _ Hinv Hdata) as (lo1 & res & -> & Hres). rewrite exec_bind_done.
  destruct res as [o|]; [|destruct Hres as [-> _]; apply Hrec; [split; eauto | done]].
  destruct (insert_extent_total t _ o (len data) Hwf (lmcache_key_wf key)) as (t2 & r2 & -> & Hwf2).
  rewrite exec_bind_done, vec_set_Done, exec_bind_done by (unfold len; lia).
  apply Hrec; [destruct Hres; split; eauto | by rewrite length_insert].
Qed.
(** ** Traces of calls *)

Inductive conn_op : Type :=
| OGet (keys : list (list Z))
| OSet (keys : list (list Z)) (mvs : list (option (list Z))) (clock : nat -> Z) (lru_order : list (Z * Z))
| OExists (keys : list (list Z))
| ODelete (keys : list (list Z))
| ODrain
| OClose.

Definition completion_tuple : Type := Z * bool * string * option (list bool).

Inductive conn_out : Type :=
| Submitted (future_id : Z)
| Drained (completions : list completion_tuple)
| Closed.

Definition conn_step (c : RDMANativeConnector) (op : conn_op) : exec (RDMANativeConnector * conn_out) :=
  match op with
  | OGet keys => '(c, id) ← submit_batch_get xxh64 c keys; Done (c, Submitted id)
  | OSet keys mvs clock order =>
      '(c, id) ← submit_batch_set xxh64 c keys mvs clock order; Done (c, Submitted id)
  | OExists keys => '(c, id) ← submit_batch_exists xxh64 c keys; Done (c, Submitted id)
  | ODelete keys => '(c, id) ← submit_batch_delete xxh64 c keys; Done (c, Submitted id)
  | ODrain => let '(c, l) := drain_completions c in Done (c, Drained l)
  | OClose => Done (connector_close c, Closed)
  end.

Fixpoint conn_trace (c : RDMANativeConnector) (ops : list conn_op)
  : exec (RDMANativeConnector * list conn_out) :=
  match ops with
  | [] => Done (c, [])
  | op :: ops =>
      '(c, out) ← conn_step c op;
      '(c, outs) ← conn_trace c ops;
      Done (c, out :: outs)
  end.

(** A set needs one view per key, each of a size an extent can hold. *)
Definition conn_op_ok (op : conn_op) : Prop :=
  match op with
  | OSet keys mvs _ _ => (length keys <= length mvs)%nat /\ Forall mv_ok mvs
  | _ => True
  end.

(** The sizes of the submitted batches, in order. *)
Definition batch_size (op : conn_op) : option nat :=
  match op with
  | OGet keys | OSet keys _ _ _ | OExists keys | ODelete keys => Some (length keys)
  | ODrain | OClose => None
  end.
Definition batches (ops : list conn_op) : list nat := omap batch_size ops.

Definition submitted_ids (outs : list conn_out) : list Z :=
  omap (fun o => match o with Submitted id => Some id | _ => None end) outs.
Definition delivered (outs : list conn_out) : list completion_tuple :=
  concat ((fun o => match o with Drained l => l | _ => [] end) <$> outs).
Definition queued (c : RDMANativeConnector) : list completion_tuple := (drain_completions c).2.

(** The completion of a batch: its id, success, and one boolean per key. *)
Definition answers (b : Z * nat) (t : completion_tuple) : Prop :=
  exists bs, t = (b.1, true, ""%string, Some bs) /\ length bs = b.2.

Definition conn_ok (c : RDMANativeConnector) : Prop :=
  storage_ok (cn_table c) (cn_large_objects c) /\ 0 < cn_next_id c.

(** A submit step. *)
Definition submit_step (c : RDMANativeConnector) (n : nat) (r : exec (RDMANativeConnector * Z)) : Prop :=
  exists c' bs, r = Done (c', cn_next_id c) /\ storage_ok (cn_table c') (cn_large_objects c')
    /\ cn_next_id c' = u64 (cn_next_id c + 1) /\ length bs = n
    /\ queued c' = queued c ++ [(cn_next_id c, true, ""%string, Some bs)].

Lemma push_step c c1 bs n :
  storage_ok (cn_table c1) (cn_large_objects c1) -> cn_next_id c1 = u64 (cn_next_id c + 1) ->
  cn_completions c1 = cn_completions c -> length bs = n ->
  submit_step c n (Done (push_completion c1 (cn_next_id c) true "" (Some bs), cn_next_id c)).
Proof.
  intros Hs Hid Hc Hl. do 2 eexists. split; [reflexivity|]. split_and!; [done | done | exact Hl |].
  unfold queued, drain_completions. cbn. by rewrite Hc, fmap_app.
Qed.

Lemma submit_get_step c keys :
  conn_ok c -> submit_step c (length keys) (submit_batch_get xxh64 c keys).
Proof.
  intros [Hs _]. unfold submit_batch_get. cbn [take_id cn_table].
  destruct (lookup_keys_total (cn_table c) keys (proj1 Hs)) as (bs & -> & Hl). by apply push_step.
Qed.

Lemma submit_delete_step c keys :
  conn_ok c -> submit_step c (length keys) (submit_batch_delete xxh64 c keys).
Proof.
  intros [[Hwf Hlo] _]. unfold submit_batch_delete. cbn [take_id cn_table].
  destruct (delete_keys_total (cn_table c) keys Hwf) as (t & bs & -> & Hwf' & Hl). by apply push_step.
Qed.

Lemma submit_set_step c keys mvs clock order :
  conn_ok c -> conn_op_ok (OSet keys mvs clock order) ->
  submit_step c (length keys) (submit_batch_set xxh64 c keys mvs clock order).
Proof using xxh64_u64.
  intros [Hs _] [Hlen Hmv]. unfold submit_batch_set. cbn [take_id].
  destruct (set_loop_total (zip keys mvs) clock
    (mkSetState (cn_table c) (cn_large_objects c) (cn_lru c) [] false) Hs) as (s & E & Hs' & Hl).
  { rewrite Forall_forall in Hmv |- *. intros mv ([k mv'] & -> & Hin)%list_elem_of_fmap.
    apply Hmv. by eapply elem_of_zip_r. }
  rewrite length_zip in Hl. cbn [ss_results length] in Hl.
  cbn [cn_table cn_large_objects cn_lru]. rewrite E, exec_bind_done.
  destruct (ss_eviction_needed s); rewrite ?exec_bind_done; [|apply push_step; [done | done | done | lia]].
  destruct (evict_total (ss_table s) (ss_lru s) order (proj1 Hs')) as (t & lru & -> & Hwf).
  rewrite exec_bind_done.
  destruct (set_retry_total keys mvs 0 t (ss_large_objects s) (ss_results s)) as (t' & lo & rs & -> & Hs2 & Hl2);
    [by split; [|apply Hs'] | done | lia | unfold len; lia|].
  rewrite !exec_bind_done. apply push_step; [done | done | done | lia].
Qed.

(** The trace runs from [c], whose queue answers [hist]: the ids are consecutive
    and the completions answer [hist] and then the batches of the trace. *)
Definition trace_ok (c : RDMANativeConnector) (hist : list (Z * nat)) (ops : list conn_op) : Prop :=
  exists c' outs, conn_trace c ops = Done (c', outs) /\ conn_ok c'
    /\ submitted_ids outs = seqZ (cn_next_id c) (len (batches ops))
    /\ Forall2 answers (hist ++ zip (seqZ (cn_next_id c) (len (batches ops))) (batches ops))
         (delivered outs ++ queued c').

Lemma trace_ok_submit c hist op ops n r :
  conn_ok c -> cn_next_id c + 1 < 2 ^ 64 -> Forall2 answers hist (queued c) ->
  batch_size op = Some n -> submit_step c n r ->
  conn_step c op = ('(c, id) ← r; Done (c, Submitted id)) ->
  (forall c1 hist1, conn_ok c1 -> cn_next_id c1 = cn_next_id c + 1 ->
     Forall2 answers hist1 (queued c1) -> trace_ok c1 hist1 ops) ->
  trace_ok c hist (op :: ops).
Proof.
  intros [_ Hpos] Hid Hh Hb (c1 & bs & -> & Hs1 & Hid1 & Hl & Hq) Hstep IH.
  rewrite u64_small in Hid1 by (unfold is_u64; lia).
  destruct (IH c1 (hist ++ [(cn_next_id c, n)])) as (c2 & outs & E & Hc2 & Hids & Hall);
    [split; [done | lia] | done | |].
  { rewrite Hq. apply Forall2_app; [done|]. constructor; [|constructor]. exists bs. by split. }
  unfold trace_ok. cbn [conn_trace]. rewrite Hstep, !exec_bind_done, E, exec_bind_done.
  do 2 eexists. split; [done|]. split; [done|].
  assert (Hbs : batches (op :: ops) = n :: batches ops) by (unfold batches; cbn; by rewrite Hb).
  assert (Hseq : seqZ (cn_next_id c) (len (batches (op :: ops)))
                 = cn_next_id c :: seqZ (cn_next_id c1) (len (batches ops))).
  { rewrite Hbs, Hid1. unfold len. cbn [length]. rewrite seqZ_cons by lia. f_equal. f_equal; lia. }
  rewrite Hseq, Hbs. split; [cbn; by f_equal|]. cbn [zip zip_with]. by rewrite cons_middle, app_assoc.
Qed.

Lemma conn_trace_spec ops c hist :
  conn_ok c -> Forall conn_op_ok ops -> cn_next_id c + len ops < 2 ^ 64 ->
  Forall2 answers hist (queued c) -> trace_ok c hist ops.
Proof using xxh64_u64.
  revert c hist. induction ops as [|op ops IH]; intros c hist Hc Hops Hid Hh.
  { exists c, []. cbn. rewrite app_nil_r. split_and!; done. }
  apply Forall_cons in Hops as [Hop Hops]. unfold len in Hid. cbn [length] in Hid.
  assert (IH' : forall c1 hist1, conn_ok c1 -> cn_next_id c1 = cn_next_id c + 1 ->
    Forall2 answers hist1 (queued c1) -> trace_ok c1 hist1 ops).
  { intros c1 hist1 Hc1 Hn Hh1. apply IH; [done | done | unfold len; lia | done]. }
  destruct op as [keys|keys mvs clock order|keys|keys| |];
    try (eapply trace_ok_submit; [done | lia | done | reflexivity | | reflexivity | done];
         first [by apply submit_get_step | by apply submit_set_step | by apply submit_delete_step]).
  - unfold trace_ok. cbn [conn_trace conn_step].
    destruct (drain_completions c) as [c1 l] eqn:Ed. rewrite exec_bind_done.
    assert (Hl : l = queued c) by (unfold queued; by rewrite Ed). injection Ed as <- _.
    destruct (IH (mkConnector (cn_table c) (cn_large_objects c) (cn_next_id c) [] (cn_shutdown c)
      (cn_closed c) (cn_event_fd c) (cn_lru c)) []) as (c2 & outs & -> & Hc2 & Hids & Hall);
      [done | done | unfold len; cbn; lia | constructor|].
    rewrite exec_bind_done. do 2 eexists. split; [done|]. split_and!; [done | done |].
    cbn [batches omap list_omap batch_size]. unfold delivered. cbn [fmap list_fmap concat].
    rewrite <- app_assoc. apply Forall2_app; [by rewrite Hl | exact Hall].
  - unfold trace_ok. cbn [conn_trace conn_step]. rewrite exec_bind_done.
    assert (Hsame : conn_ok (connector_close c) /\ cn_next_id (connector_close c) = cn_next_id c
      /\ queued (connector_close c) = queued c)
      by (unfold connector_close; by destruct (cn_closed c)).
    destruct Hsame as (Hc1 & Hn1 & Hq1).
    destruct (IH (connector_close c) hist) as (c2 & outs & -> & Hc2 & Hids & Hall);
      [done | done | unfold len; lia | by rewrite Hq1|].
    rewrite exec_bind_done. do 2 eexists. split; [done|]. rewrite Hn1 in Hids, Hall. by split_and!.
Qed.

Lemma new_connector_ok n :
  0 <= n -> n * 10 <= MAX_ALLOC ->
  exists c, RDMANativeConnector_new n true = Done (Ok c) /\ conn_ok c
    /\ cn_next_id c = 1 /\ cn_completions c = [] /\ table_map (cn_table c) = ∅.
Proof.
  intros Hn Hm. unfold RDMANativeConnector_new.
  destruct (new_spec (2 ^ 20) 16) as (t & -> & Hwf & Htm & _); [by vm_compute | lia | lia |].
  rewrite exec_bind_done. eexists. split; [reflexivity|]. split_and!; [|done..].
  split; [|cbn; lia]. split; [done|]. exists ∅. cbn [cn_large_objects].
  rewrite u64_small by (unfold is_u64, MAX_ALLOC in *; lia). apply region_new_inv. lia.
Qed.

(** ** A set of one key *)

(** The value is found: in the bucket, or in the extent the bucket points to. *)
Definition stored (c : RDMANativeConnector) (key v : list Z) : Prop :=
  exists r, CuckooTable_lookup (cn_table c) (hash_lmcache_key xxh64 key) = Done (Some r) /\
  if len v <=? 32 then r = mkLookupResult (pack_body v Inline) Inline 0 0
  else lr_mode r = Extent /\ lr_extent_length r = len v
       /\ LargeObjectRegion_read (cn_large_objects c) (lr_extent_offset r) = Done (Some v).

(** The table or the region had no place for it. *)
Definition refused (c : RDMANativeConnector) (key v : list Z) : Prop :=
  let hk := hash_lmcache_key xxh64 key in
  if len v <=? 32 then exists t, CuckooTable_insert (cn_table c) hk v Inline = Done (t, Err TableFull)
  else no_room (cn_large_objects c) (extent_total (len v))
       \/ exists o t, CuckooTable_insert_extent (cn_table c) hk o (len v) = Done (t, Err TableFull).

Definition set_answer (c : RDMANativeConnector) (key v : list Z)
    (r : exec (RDMANativeConnector * Z)) : Prop :=
  exists c' b, r = Done (c', cn_next_id c)
    /\ last (queued c') = Some (cn_next_id c, true, ""%string, Some [b])
    /\ if (b : bool) then stored c' key v else refused c key v.

Lemma set_answer_push c c1 key v b :
  (if (b : bool) then stored c1 key v else refused c key v) ->
  set_answer c key v (Done (push_completion c1 (cn_next_id c) true "" (Some [b]), cn_next_id c)).
Proof.
  intros Hb. do 2 eexists. split; [reflexivity|]. split.
  - unfold queued, drain_completions. cbn. rewrite fmap_app. cbn. by rewrite last_snoc.
  - by destruct b.
Qed.

Lemma set_one_inline key v now s :
  len v <= 32 ->
  set_one xxh64 key (Some v) now s
  = ('(t, r) ← CuckooTable_insert (ss_table s) (hash_lmcache_key xxh64 key) v Inline;
     Done (mkSetState t (ss_large_objects s) (record_access (ss_lru s) (xxh64 key 0) now)
             (ss_results s ++ [is_ok r]) (ss_eviction_needed s))).
Proof.
  intros Hl. unfold set_one. change (default [] (Some v)) with v. rewrite (proj2 (Z.leb_le _ _)) by done.
  by destruct (bool_decide (v = []) && negb (bool_decide (key = []))).
Qed.

Lemma set_one_extent key v now s :
  32 < len v ->
  set_one xxh64 key (Some v) now s
  = ('(lo, allocation) ← allocate (ss_large_objects s) v;
     match allocation with
     | Some offset =>
         '(t, r) ← CuckooTable_insert_extent (ss_table s) (hash_lmcache_key xxh64 key) offset (len v);
         Done (mkSetState t lo (record_access (ss_lru s) (xxh64 key 0) now)
                 (ss_results s ++ [is_ok r]) (ss_eviction_needed s))
     | None => Done (mkSetState (ss_table s) lo (record_access (ss_lru s) (xxh64 key 0) now)
                 (ss_results s ++ [false]) true)
     end).
Proof.
  intros Hl. unfold set_one. change (default [] (Some v)) with v. rewrite (proj2 (Z.leb_gt _ _)) by done.
  rewrite bool_decide_eq_false_2; [done|]. intros ->. by vm_compute in Hl.
Qed.

Lemma stored_inline c key v t :
  table_wf t -> len v <= 32 -> xxh64 key 0 <> 0 -> cn_table c = t ->
  table_map t !! key_of (hash_lmcache_key xxh64 key) = Some (pack_body v Inline, Inline) ->
  stored c key v.
Proof.
  intros Hwf Hl Hn Ht Hm. unfold stored. rewrite Ht, lookup_spec, Hm by done. eexists. split; [done|].
  by rewrite (proj2 (Z.leb_le _ _)).
Qed.

Lemma stored_extent c key v t m o :
  table_wf t -> 32 < len v -> data_ok v -> xxh64 key 0 <> 0 -> cn_table c = t ->
  table_map t !! key_of (hash_lmcache_key xxh64 key) = Some (extent_body o (len v), Extent) ->
  region_inv (<[o := new_extent 0 v]> m) (cn_large_objects c) ->
  stored c key v.
Proof.
  intros Hwf Hl [Hd _] Hn Ht Hm Hinv. unfold stored. rewrite Ht, lookup_spec, Hm by done.
  eexists. split; [done|]. rewrite (proj2 (Z.leb_gt _ _)) by done.
  destruct (region_ext_room _ _ _ _ Hinv (lookup_insert_eq _ _ _)) as (Hx & _ & Ho & Hin & Hmax).
  pose proof (footprint_bounds _ Hx). pose proof (len_nonneg (xt_data (new_extent 0 v))).
  rewrite extent_body_result by (unfold is_u64, MAX_ALLOC in *; pose proof (header_len_cases (new_extent 0 v)); lia).
  cbn [lr_mode lr_extent_length lr_extent_offset]. split_and!; [done | done |].
  by rewrite (read_spec _ _ _ _ Hinv (lookup_insert_eq _ _ _)).
Qed.

Lemma submit_set_one_spec c key v clock order :
  conn_ok c -> data_ok v -> xxh64 key 0 <> 0 ->
  set_answer c key v (submit_batch_set xxh64 c [key] [Some v] clock order).
Proof using xxh64_u64.
  intros [[Hwf (m & Hinv)] _] Hv Hn. pose proof (lmcache_key_wf key) as Hk.
  unfold submit_batch_set. cbn [take_id zip zip_with set_loop cn_table cn_large_objects cn_lru].
  destruct (Z.le_gt_cases (len v) 32) as [Hl|Hl].
  - rewrite set_one_inline by done. cbn [ss_table].
    destruct (insert_spec (cn_table c) _ v Inline Hwf Hk (proj2 Hv) Hn) as ([t r] & E & Hwf' & _ & Hr).
    rewrite E, !exec_bind_done. cbn [ss_eviction_needed ss_table ss_results ss_large_objects ss_lru app].
    rewrite exec_bind_done. apply set_answer_push. cbn [fst snd] in Hwf', Hr. destruct r as [[]|[]]; cbn [is_ok].
    + eapply (stored_inline _ key v t); try done. rewrite Hr. apply lookup_insert_eq.
    + unfold refused. rewrite (proj2 (Z.leb_le _ _)) by done. by exists t.
    + done.
  - rewrite set_one_extent by done. cbn [ss_large_objects ss_table].
    destruct (allocate_spec m _ _ Hinv Hv) as (lo & res & Ea & Hres). rewrite Ea, exec_bind_done.
    destruct res as [o|].
    + destruct Hres as [_ Hinv'].
      destruct (insert_extent_spec (cn_table c) _ o (len v) Hwf Hk Hn) as ([t r] & E & Hwf' & _ & Hr).
      rewrite E, !exec_bind_done. cbn [ss_eviction_needed ss_table ss_results ss_large_objects ss_lru app].
      rewrite exec_bind_done. apply set_answer_push. cbn [fst snd] in Hwf', Hr. destruct r as [[]|[]]; cbn [is_ok].
      * eapply (stored_extent _ key v t m o); try done. rewrite Hr. apply lookup_insert_eq.
      * unfold refused. rewrite (proj2 (Z.leb_gt _ _)) by done. right. by exists o, t.
      * done.
    + destruct Hres as [-> Hno]. rewrite !exec_bind_done.
      cbn [ss_eviction_needed ss_table ss_results ss_large_objects ss_lru app].
      destruct (evict_total (cn_table c) (record_access (cn_lru c) (xxh64 key 0) (clock 0%nat)) order Hwf)
        as (t & lru & -> & _).
      rewrite exec_bind_done. cbn [set_retry]. change (vec_get [false] 0) with (Done false).
      rewrite exec_bind_done. change (default [] (mjoin ([Some v] !! Z.to_nat 0))) with v.
      rewrite (proj2 (Z.ltb_lt _ _)) by done. rewrite Ea, !exec_bind_done. apply set_answer_push.
      unfold refused. rewrite (proj2 (Z.leb_gt _ _)) by done. by left.
Qed.

(** ** Eviction *)

(** Every stored key carries the second hash in its digest. *)
Definition full_digests (t : CuckooTable) : Prop :=
  forall h d, is_Some (table_map t !! (h, d)) -> exists s, is_u64 s /\ s <> 0 /\ d = digest_of h s.

Lemma evict_keys_noop t cs :
  table_wf t -> full_digests t ->
  exists t', evict_keys t cs = Done t' /\ table_wf t' /\ table_map t' = table_map t.
Proof.
  revert t. induction cs as [|k cs IH]; intros t Hwf Hd; [by exists t|]. cbn [evict_keys].
  set (key := mkHashedKey k _).
  assert (exists t1 b, CuckooTable_delete t key = Done (t1, b) /\ table_wf t1 /\ table_map t1 = table_map t)
    as (t1 & b & -> & Hwf1 & Hm1).
  { destruct (decide (k = 0)) as [Hz|Hn].
    - destruct (zero_hash_spec t key Hwf Hz) as (_ & t' & b & E & Hwf' & _ & Hm'). by exists t', b.
    - destruct (delete_spec t key Hwf Hn) as (t' & E & Hwf' & _ & Hm'). do 2 eexists. split_and!; [exact E | done |].
      rewrite Hm'. apply delete_id. apply eq_None_not_Some. intros Hs.
      destruct (Hd k (hk_digest key) Hs) as (s & Hs64 & Hs0 & Ed). apply Hs0. symmetry.
      apply (digest_of_inj k 0 k s); [by vm_compute | done |]. rewrite <- Ed. reflexivity. }
  rewrite exec_bind_done. destruct (IH t1 Hwf1) as (t2 & -> & Hwf2 & Hm2); [unfold full_digests; by rewrite Hm1|].
  exists t2. split_and!; [done | done | congruence].
Qed.
End connector.

(** ** Properties *)

(** A hash function for the witnesses: the bytes as a number, plus the seed. *)
Definition sample_hash (k : list Z) (seed : Z) : Z := u64 (from_le k + seed).

Lemma sample_hash_u64 k s : is_u64 (sample_hash k s).
Proof. apply u64_range. Qed.

(** C10. The connector over whole traces: from a new connector, any sequence of
    get, set, exists and delete batches, drains and closes (with one view per
    key in a set) runs without panicking and keeps the table and the region well
    formed; the returned future ids are 1, 2, 3, ..., and the drained completions
    together with those still queued answer exactly the submitted batches, each
    once and in order, with one boolean per key. *)
Theorem connector_trace_sound (xxh64 : list Z -> Z -> Z) n ops :
  (forall k s, is_u64 (xxh64 k s)) -> 0 <= n -> n * 10 <= MAX_ALLOC ->
  Forall conn_op_ok ops -> 1 + len ops < 2 ^ 64 ->
  exists c c' outs, RDMANativeConnector_new n true = Done (Ok c)
    /\ conn_trace xxh64 c ops = Done (c', outs)
    /\ table_wf (cn_table c') /\ (exists m, region_inv m (cn_large_objects c'))
    /\ submitted_ids outs = seqZ 1 (len (batches ops))
    /\ Forall2 answers (zip (submitted_ids outs) (batches ops)) (delivered outs ++ queued c').
Proof.
  intros Hx Hn Hm Hops Hlen. destruct (new_connector_ok n Hn Hm) as (c & E & Hc & Hid & Hq & _).
  destruct (conn_trace_spec xxh64 Hx ops c []) as (c' & outs & E' & [[Hwf Hr] _] & Hids & Hall);
    [done | done | lia | unfold queued; cbn; rewrite Hq; constructor|].
  rewrite Hid in Hids, Hall. exists c, c', outs. rewrite Hids. split_and!; done.
Qed.

Lemma connector_trace_sound_witness :
  exists c c' outs, RDMANativeConnector_new 100 true = Done (Ok c)
    /\ conn_trace sample_hash c
         [OSet [[7]; [8]] [Some [1; 2]; None] (fun _ => 5) []; ODrain; OGet [[7]]; OClose; ODelete [[8]]]
       = Done (c', outs)
    /\ submitted_ids outs = [1; 2; 3].
Proof.
  destruct (connector_trace_sound sample_hash 100
    [OSet [[7]; [8]] [Some [1; 2]; None] (fun _ => 5) []; ODrain; OGet [[7]]; OClose; ODelete [[8]]])
    as (c & c' & outs & E & E' & _ & _ & Hids & _).
  - apply sample_hash_u64.
  - lia.
  - by vm_compute.
  - repeat constructor; unfold mv_ok, data_ok, is_u8; cbn; lia.
  - by vm_compute.
  - exists c, c', outs. auto.
Defined.

(** C4. Set then get: submitting one key with a value answers with one boolean;
    if it is true the key is found and its value reads back (from the bucket up
    to 32 bytes, from the extent it points to otherwise), and a following exists
    reports it; if it is false the table was full or the region had no room. *)
Theorem connector_set_get (xxh64 : list Z -> Z -> Z) c key v clock order :
  (forall k s, is_u64 (xxh64 k s)) -> conn_ok c -> data_ok v -> xxh64 key 0 <> 0 ->
  exists c' b, submit_batch_set xxh64 c [key] [Some v] clock order = Done (c', cn_next_id c)
    /\ last (queued c') = Some (cn_next_id c, true, ""%string, Some [b])
    /\ if (b : bool)
       then stored xxh64 c' key v
            /\ exists c'', submit_batch_exists xxh64 c' [key] = Done (c'', cn_next_id c')
                 /\ last (queued c'') = Some (cn_next_id c', true, ""%string, Some [true])
       else refused xxh64 c key v.
Proof.
  intros Hx Hc Hv Hn.
  destruct (submit_set_one_spec xxh64 Hx c key v clock order Hc Hv Hn) as (c' & b & E & Hq & Hb).
  exists c', b. split_and!; [done | done |]. destruct b; [|done]. split; [done|].
  destruct Hb as (r & Hr & _). unfold submit_batch_exists. cbn [take_id cn_table lookup_keys].
  rewrite Hr, !exec_bind_done. eexists. split; [reflexivity|].
  unfold queued, drain_completions. cbn. rewrite fmap_app. cbn. by rewrite last_snoc.
Qed.

Definition sample_connector : RDMANativeConnector :=
  mkConnector sample_table sample_region 1 [] false false (Some 0) (LruTracker_new 1000).

Lemma sample_connector_ok : conn_ok sample_connector.
Proof.
  split; [|cbn; lia]. split; [apply sample_table_wf | exists ∅; apply sample_region_inv].
Qed.

Lemma connector_set_get_witness :
  exists c' b, submit_batch_set sample_hash sample_connector [[6]] [Some [1; 2; 3]] (fun _ => 5) []
      = Done (c', 1)
    /\ if (b : bool) then stored sample_hash c' [6] [1; 2; 3]
       else refused sample_hash sample_connector [6] [1; 2; 3].
Proof.
  destruct (connector_set_get sample_hash sample_connector [6] [1; 2; 3] (fun _ => 5) [])
    as (c' & b & E & _ & Hb).
  - apply sample_hash_u64.
  - apply sample_connector_ok.
  - apply sample_data_ok.
  - by vm_compute.
  - exists c', b. split; [exact E|]. destruct b; [apply Hb | exact Hb].
Defined.

(** Eviction as the connector does it removes no stored key: it rebuilds the
    digest with a zero second half, which no stored key has, and still counts
    the candidates as evicted. *)
Theorem eviction_removes_nothing t lru order :
  table_wf t -> full_digests t ->
  exists t' lru', evict_if_needed t lru order = Done (t', lru') /\ table_wf t' /\ table_map t' = table_map t
    /\ (needs_eviction lru = true ->
        let cs := (select_eviction_candidates lru order (Z.max (lru_key_count lru / 10) 1)).2 in
        lru_evicted lru' = if bool_decide (cs = []) then lru_evicted lru else u64 (lru_evicted lru + len cs)).
Proof.
  intros Hwf Hd. unfold evict_if_needed. destruct (needs_eviction lru); cbn [negb]; [|by exists t, lru].
  assert (He : forall n, lru_evicted (select_eviction_candidates lru order n).1 = lru_evicted lru)
    by (intros n; unfold select_eviction_candidates; by destruct (_ || _)).
  specialize (He (Z.max (lru_key_count lru / 10) 1)).
  destruct (select_eviction_candidates lru order _) as [lru' cs]. cbn [fst snd] in He |- *.
  case_bool_decide; [exists t, lru'; by split_and!|].
  destruct (evict_keys_noop t cs Hwf Hd) as (t' & -> & Hwf' & Hm). rewrite exec_bind_done.
  do 2 eexists. split_and!; [done | done | done |]. intros _. cbn. by rewrite He.
Qed.
