(* ===== verification/Director.v ===== *)
(** * Director: the connector with the [director] feature
    (crates/lmcache-connector/src/director.rs and the gated parts of lib.rs)

    The Director is an external gRPC service.  This file holds the parsing of
    LMCache keys, the messages [DirectorIntegration] builds, the gated set-up in
    the constructor, and the bookkeeping that [submit_batch_set],
    [submit_batch_delete], [drain_completions], [close] and [drop] add to the
    connector.  Strings are their UTF-8 bytes; what the service answers is only
    logged, so an operation is the list of messages it sends.  The success of
    the connection is the argument [open_channel], the clock an argument.

    A drain spawns every report as a task of its own on a multi-threaded
    runtime.  The tasks form the pool [dc_tasks]; the runtime runs any of them
    at any later point of the trace ([DRun k] runs the [k]-th of the pool), so
    nothing is fixed about the order in which the reports are sent. *)

From stdpp Require Import gmap strings.
From S2P Require Import Prelude Layout Cuckoo CuckooSpec CuckooProps Extent ExtentSpec ExtentProps Lru Connector ConnectorProps.

Open Scope Z_scope.

(** ** Strings of the standard library *)

Definition bytes_of (s : string) : list Z := (fun a => Z.of_nat (Ascii.nat_of_ascii a)) <$> String.list_ascii_of_string s.

(** [str::split] on an ASCII character. *)
Fixpoint split_on (c : Z) (s : list Z) : list (list Z) :=
  match s with
  | [] => [[]]
  | b :: s =>
      match split_on c s with
      | [] => [[b]]
      | part :: parts => if b =? c then [] :: part :: parts else (b :: part) :: parts
      end
  end.

(** [char::to_digit]. *)
Definition to_digit (radix b : Z) : option Z :=
  let d := if (48 <=? b) && (b <=? 57) then b - 48
           else if (97 <=? b) && (b <=? 122) then b - 87
           else if (65 <=? b) && (b <=? 90) then b - 55
           else radix in
  if d <? radix then Some d else None.

(** The digit loop of [from_str_radix], with its checked operations. *)
Fixpoint radix_loop (radix max acc : Z) (s : list Z) : option Z :=
  match s with
  | [] => Some acc
  | b :: s =>
      if max <? acc * radix then None
      else match to_digit radix b with
           | Some d => if max <? acc * radix + d then None else radix_loop radix max (acc * radix + d) s
           | None => None
           end
  end.

(** [from_str_radix] of an unsigned type, errors forgotten: the empty string is
    refused, one leading plus sign is accepted. *)
Definition from_str_radix (radix max : Z) (s : list Z) : option Z :=
  match s with
  | [] => None
  | 43 :: b :: digits => radix_loop radix max 0 (b :: digits)
  | _ => radix_loop radix max 0 s
  end.

Definition digit_char (d : Z) : Z := if d <? 10 then 48 + d else 87 + d.

Fixpoint print_loop (fuel : nat) (radix v : Z) (acc : list Z) : list Z :=
  match fuel with
  | O => acc
  | S fuel =>
      let acc := digit_char (v mod radix) :: acc in
      if v / radix =? 0 then acc else print_loop fuel radix (v / radix) acc
  end.

(** The [{}] and [{:x}] formats; a number has at most as many digits as bits. *)
Definition print_radix (radix v : Z) : list Z := print_loop (S (Z.to_nat (Z.log2 v))) radix v [].

(** [str::to_lowercase] on ASCII letters.  It is compared with two ASCII words
    that no other character lowers to. *)
Definition to_lowercase (s : list Z) : list Z :=
  (fun b => if (65 <=? b) && (b <=? 90) then b + 32 else b) <$> s.

(** ** Messages *)

Definition U64_MAX : Z := 2 ^ 64 - 1.
Definition U32_MAX : Z := 2 ^ 32 - 1.

Definition extract_chunk_hash (key : list Z) : option Z :=
  let parts := split_on 64 key in
  if len parts <? 4 then None
  else match parts !! 3%nat with
       | Some part => from_str_radix 16 U64_MAX part
       | None => None
       end.

Inductive InstanceRole : Type := Prefill | Decode | Both.

(** The tonic client and the runtime of the source carry no state. *)
Record DirectorIntegration : Type := mkDirector {
  di_node_id : list Z;
  di_tenant_id : list Z;
  di_model_name : list Z;
  di_block_size : Z;
  di_cache_salt : list Z
}.

Inductive director_request : Type :=
| ReportStoreRequest (node_id : list Z) (block_hashes : list Z) (tenant_id model_name : list Z)
    (block_size : Z) (cache_salt : list Z)
| ReportRemoveRequest (node_id : list Z) (block_hashes : list Z) (tenant_id model_name : list Z)
| RegisterRequest (instance_id : list Z) (role : InstanceRole) (tenant_id model_name rpc_endpoint : list Z)
    (dp_rank : Z) (node_id : list Z) (block_size : Z)
| HeartbeatRequest (instance_id : list Z) (active_ts : Z)
| DeregisterRequest (instance_id : list Z).

(** [open_channel] is the outcome of starting the runtime, parsing the address
    and connecting. *)
Definition DirectorIntegration_connect (open_channel : list Z -> result unit string)
    (addr node_id tenant_id model_name : list Z) (block_size : Z) : result DirectorIntegration string :=
  match open_channel (bytes_of "http://" ++ addr) with
  | Ok _ => Ok (mkDirector node_id tenant_id model_name block_size [])
  | Err e => Err e
  end.

Definition report_store (d : DirectorIntegration) (keys : list (list Z)) : list director_request :=
  let hashes := omap extract_chunk_hash keys in
  if bool_decide (hashes = []) then []
  else [ReportStoreRequest (di_node_id d) hashes (di_tenant_id d) (di_model_name d) (di_block_size d)
          (di_cache_salt d)].

Definition report_remove (d : DirectorIntegration) (keys : list (list Z)) : list director_request :=
  let hashes := omap extract_chunk_hash keys in
  if bool_decide (hashes = []) then []
  else [ReportRemoveRequest (di_node_id d) hashes (di_tenant_id d) (di_model_name d)].

Definition director_register (d : DirectorIntegration) (instance_id : list Z) (role : InstanceRole)
    (rpc_endpoint : list Z) (dp_rank : Z) : director_request :=
  RegisterRequest instance_id role (di_tenant_id d) (di_model_name d) rpc_endpoint dp_rank (di_node_id d)
    (di_block_size d).

(** [millis]: milliseconds since the epoch, 0 when the clock is before it. *)
Definition director_heartbeat (instance_id : list Z) (millis : Z) : director_request :=
  HeartbeatRequest instance_id (u64 millis).

Definition director_deregister (instance_id : list Z) : director_request := DeregisterRequest instance_id.

(** ** Set-up in the constructor *)

Definition str_map : Type := gmap (list Z) (list Z).

(** [heartbeat_handle] is [true] while it holds the handle of the task. *)
Record DirectorSetup : Type := mkSetup {
  su_director : option DirectorIntegration;
  su_instance_id : list Z;
  su_heartbeat_handle : bool;
  su_sent : list director_request
}.

Definition param (params : str_map) (name : string) (dflt : string) : list Z :=
  default (bytes_of dflt) (params !! bytes_of name).

Definition parse_role (role_str : list Z) : InstanceRole :=
  let s := to_lowercase role_str in
  if bool_decide (s = bytes_of "prefill") then Prefill
  else if bool_decide (s = bytes_of "decode") then Decode
  else Both.

(** [micros]: microseconds since the epoch. *)
Definition setup_director (open_channel : list Z -> result unit string) (micros : Z)
    (adapter_params : option str_map) : result DirectorSetup string :=
  let fallback_id := bytes_of "lmcache-" ++ print_radix 10 micros in
  match adapter_params with
  | Some params =>
      match params !! bytes_of "director_addr" with
      | Some director_addr =>
          let node_id := param params "node_id" "" in
          let tenant_id := param params "tenant_id" "" in
          let model_name := param params "model_name" "" in
          let block_size := default 16 (params !! bytes_of "block_size" ≫= from_str_radix 10 U32_MAX) in
          let instance_id := default (node_id ++ bytes_of "-" ++ print_radix 16 micros)
                               (params !! bytes_of "instance_id") in
          let role := parse_role (param params "role" "both") in
          let rpc_endpoint := param params "rpc_endpoint" "http://localhost:8000" in
          match DirectorIntegration_connect open_channel director_addr node_id tenant_id model_name block_size with
          | Ok di => Ok (mkSetup (Some di) instance_id true [director_register di instance_id role rpc_endpoint 0])
          | Err e => Err ("Director connection failed: " ++ e)%string
          end
      | None => Ok (mkSetup None fallback_id false [])
      end
  | None => Ok (mkSetup None fallback_id false [])
  end.

(** ** The connector *)

(** A spawned report: the task owns its keys and reads the immutable fields of
    the shared [DirectorIntegration] when it runs. *)
Inductive report_task : Type :=
| TStore (keys : list (list Z))
| TRemove (keys : list (list Z)).

Definition task_body (d : DirectorIntegration) (t : report_task) : list director_request :=
  match t with TStore keys => report_store d keys | TRemove keys => report_remove d keys end.

(** [dc_tasks]: the spawned reports that have not run; [dc_sent]: the messages
    sent so far. *)
Record DirectorConnector : Type := mkDirectorConnector {
  dc_conn : RDMANativeConnector;
  dc_director : option DirectorIntegration;
  dc_instance_id : list Z;
  dc_heartbeat_handle : bool;
  dc_pending_reports : gmap Z (list (list Z));
  dc_pending_removes : gmap Z (list (list Z));
  dc_tasks : list report_task;
  dc_sent : list director_request
}.

Definition DirectorConnector_new (open_channel : list Z -> result unit string) (micros : Z)
    (batch_chunk_num_bytes : Z) (adapter_params : option str_map) (eventfd : bool)
  : exec (result DirectorConnector string) :=
  conn ← RDMANativeConnector_new batch_chunk_num_bytes eventfd;
  match conn with
  | Err e => Done (Err e)
  | Ok c =>
      match setup_director open_channel micros adapter_params with
      | Err e => Done (Err e)
      | Ok su => Done (Ok (mkDirectorConnector c (su_director su) (su_instance_id su)
                             (su_heartbeat_handle su) ∅ ∅ [] (su_sent su)))
      end
  end.

Definition with_conn (dc : DirectorConnector) (c : RDMANativeConnector) : DirectorConnector :=
  mkDirectorConnector c (dc_director dc) (dc_instance_id dc) (dc_heartbeat_handle dc)
    (dc_pending_reports dc) (dc_pending_removes dc) (dc_tasks dc) (dc_sent dc).

(** [if self.director.is_some() { pending.insert(future_id, keys.clone()) }]. *)
Definition record_keys (dc : DirectorConnector) (pending : gmap Z (list (list Z))) (future_id : Z)
    (keys : list (list Z)) : gmap Z (list (list Z)) :=
  match dc_director dc with Some _ => <[future_id := keys]> pending | None => pending end.

Section operations.
Context (xxh64 : list Z -> Z -> Z).

Definition dc_submit_batch_get (dc : DirectorConnector) (keys : list (list Z))
  : exec (DirectorConnector * Z) :=
  '(c, future_id) ← submit_batch_get xxh64 (dc_conn dc) keys; Done (with_conn dc c, future_id).

Definition dc_submit_batch_exists (dc : DirectorConnector) (keys : list (list Z))
  : exec (DirectorConnector * Z) :=
  '(c, future_id) ← submit_batch_exists xxh64 (dc_conn dc) keys; Done (with_conn dc c, future_id).

(** The source records the keys right after taking the id; the storage work in
    between neither reads nor writes the pending maps. *)
Definition dc_submit_batch_set (dc : DirectorConnector) (keys : list (list Z))
    (mvs : list (option (list Z))) (clock : nat -> Z) (lru_order : list (Z * Z))
  : exec (DirectorConnector * Z) :=
  '(c, future_id) ← submit_batch_set xxh64 (dc_conn dc) keys mvs clock lru_order;
  Done (mkDirectorConnector c (dc_director dc) (dc_instance_id dc) (dc_heartbeat_handle dc)
          (record_keys dc (dc_pending_reports dc) future_id keys) (dc_pending_removes dc)
          (dc_tasks dc) (dc_sent dc),
        future_id).

Definition dc_submit_batch_delete (dc : DirectorConnector) (keys : list (list Z))
  : exec (DirectorConnector * Z) :=
  '(c, future_id) ← submit_batch_delete xxh64 (dc_conn dc) keys;
  Done (mkDirectorConnector c (dc_director dc) (dc_instance_id dc) (dc_heartbeat_handle dc)
          (dc_pending_reports dc) (record_keys dc (dc_pending_removes dc) future_id keys)
          (dc_tasks dc) (dc_sent dc),
        future_id).
End operations.

(** [if let Some(keys) = pending.remove(&id) { handle.spawn(..) }]. *)
Definition take_report (task : list (list Z) -> report_task)
    (pending : gmap Z (list (list Z))) (id : Z) : gmap Z (list (list Z)) * list report_task :=
  match pending !! id with
  | Some keys => (delete id pending, [task keys])
  | None => (pending, [])
  end.

(** [for comp in &comps]: the tasks it spawns. *)
Fixpoint report_loop (comps : list Completion) (reports removes : gmap Z (list (list Z)))
  : gmap Z (list (list Z)) * gmap Z (list (list Z)) * list report_task :=
  match comps with
  | [] => (reports, removes, [])
  | comp :: comps =>
      if cp_ok comp then
        let '(reports, t1) := take_report TStore reports (cp_future_id comp) in
        let '(removes, t2) := take_report TRemove removes (cp_future_id comp) in
        let '(reports, removes, ts) := report_loop comps reports removes in
        (reports, removes, t1 ++ t2 ++ ts)
      else report_loop comps reports removes
  end.

Definition dc_drain_completions (dc : DirectorConnector)
  : DirectorConnector * list (Z * bool * string * option (list bool)) :=
  let comps := cn_completions (dc_conn dc) in
  let '(c, out) := drain_completions (dc_conn dc) in
  match dc_director dc with
  | Some _ =>
      let '(reports, removes, ts) := report_loop comps (dc_pending_reports dc) (dc_pending_removes dc) in
      (mkDirectorConnector c (dc_director dc) (dc_instance_id dc) (dc_heartbeat_handle dc)
         reports removes (dc_tasks dc ++ ts) (dc_sent dc), out)
  | None => (with_conn dc c, out)
  end.

(** The runtime runs the [k]-th spawned report. *)
Definition run_task (dc : DirectorConnector) (k : nat) : DirectorConnector :=
  match dc_director dc, dc_tasks dc !! k with
  | Some d, Some t =>
      mkDirectorConnector (dc_conn dc) (dc_director dc) (dc_instance_id dc) (dc_heartbeat_handle dc)
        (dc_pending_reports dc) (dc_pending_removes dc) (delete k (dc_tasks dc)) (dc_sent dc ++ task_body d t)
  | _, _ => dc
  end.

(** Abort the heartbeat task, then deregister. *)
Definition director_cleanup (dc : DirectorConnector) (c : RDMANativeConnector) : DirectorConnector :=
  mkDirectorConnector c (dc_director dc) (dc_instance_id dc) false (dc_pending_reports dc)
    (dc_pending_removes dc) (dc_tasks dc)
    (dc_sent dc ++ match dc_director dc with Some _ => [director_deregister (dc_instance_id dc)] | None => [] end).

Definition dc_close (dc : DirectorConnector) : DirectorConnector :=
  if cn_closed (dc_conn dc) then dc else director_cleanup dc (connector_close (dc_conn dc)).

(** The drop glue, up to joining the workers, which end once [shutdown] is set. *)
Definition dc_drop (dc : DirectorConnector) : DirectorConnector :=
  if negb (cn_closed (dc_conn dc)) then director_cleanup dc (connector_close (dc_conn dc))
  else mkDirectorConnector (dc_conn dc) (dc_director dc) (dc_instance_id dc) false
         (dc_pending_reports dc) (dc_pending_removes dc) (dc_tasks dc) (dc_sent dc).

(** One round of the heartbeat task, when its sleep is over: an aborted task
    does nothing, and the shutdown flag ends it. *)
Definition heartbeat_tick (dc : DirectorConnector) (millis : Z) : DirectorConnector :=
  if dc_heartbeat_handle dc && negb (cn_shutdown (dc_conn dc)) then
    mkDirectorConnector (dc_conn dc) (dc_director dc) (dc_instance_id dc) (dc_heartbeat_handle dc)
      (dc_pending_reports dc) (dc_pending_removes dc) (dc_tasks dc)
      (dc_sent dc ++ [director_heartbeat (dc_instance_id dc) millis])
  else dc.

Example extract_doc_examples :
  extract_chunk_hash (bytes_of "llama-7b@0@0@a1b2c3d4") = Some 0xa1b2c3d4
  /\ extract_chunk_hash (bytes_of "llama-7b@0@0@a1b2c3d4@salt") = Some 0xa1b2c3d4
  /\ extract_chunk_hash (bytes_of "bad_key") = None
  /\ extract_chunk_hash (bytes_of "m@0@0@") = None
  /\ extract_chunk_hash (bytes_of "m@0@0@+Ff") = Some 255
  /\ extract_chunk_hash (bytes_of "m@0@0@10000000000000000") = None
  /\ print_radix 16 0xa1b2c3d4 = bytes_of "a1b2c3d4" /\ print_radix 10 0 = bytes_of "0".
Proof. split_and!; by vm_compute. Qed.

(** ** Numerals and fields *)

(** The number a digit string denotes. *)
Definition digits_value (radix : Z) (ds : list Z) : Z := foldl (fun a d => a * radix + d) 0 ds.

(** [s] is a numeral of value [v]: digits, after at most one plus sign. *)
Definition numeral (radix : Z) (s : list Z) (v : Z) : Prop :=
  exists digits ds, (s = digits \/ s = 43 :: digits) /\ digits <> []
    /\ mapM (to_digit radix) digits = Some ds /\ v = digits_value radix ds.

Fixpoint join (c : Z) (parts : list (list Z)) : list Z :=
  match parts with
  | [] => []
  | [p] => p
  | p :: ps => p ++ c :: join c ps
  end.

Lemma to_digit_range radix b d : to_digit radix b = Some d -> 0 <= d < radix.
Proof.
  unfold to_digit. intros H.
  repeat match type of H with context [if ?b then _ else _] => destruct b eqn:? end; naive_solver lia.
Qed.

Lemma foldl_grows radix ds acc :
  1 <= radix -> 0 <= acc -> Forall (fun d => 0 <= d) ds ->
  acc <= foldl (fun a d => a * radix + d) acc ds.
Proof.
  intros Hr. revert acc. induction ds as [|d ds IH]; intros acc Ha Hds; cbn; [lia|].
  apply Forall_cons in Hds as [Hd Hds]. specialize (IH (acc * radix + d) ltac:(nia) Hds). nia.
Qed.

Lemma mapM_digits_pos radix s ds : mapM (to_digit radix) s = Some ds -> Forall (fun d => 0 <= d) ds.
Proof.
  intros H%mapM_Some. induction H as [|b d s ds Hd H IH]; constructor; [|done].
  apply to_digit_range in Hd. lia.
Qed.

(** The digits [s] continue the value [acc] to [v], within the type. *)
Definition continues (radix max acc : Z) (s : list Z) (v : Z) : Prop :=
  exists ds, mapM (to_digit radix) s = Some ds /\ v = foldl (fun a d => a * radix + d) acc ds /\ v <= max.

Lemma continues_cons radix max acc b s v :
  continues radix max acc (b :: s) v <->
  exists d, to_digit radix b = Some d /\ continues radix max (acc * radix + d) s v.
Proof.
  split.
  - intros (ds & Hm & -> & Hle). apply mapM_Some in Hm. inversion Hm as [|? d ? ds' Hd Hds]; subst.
    exists d. split; [done|]. exists ds'. by rewrite mapM_Some.
  - intros (d & Hd & ds & Hm & -> & Hle). exists (d :: ds). split_and!; [|done..].
    apply mapM_Some. constructor; [done | by apply mapM_Some].
Qed.

Lemma radix_loop_spec radix max acc s v :
  1 <= radix -> 0 <= acc <= max -> radix_loop radix max acc s = Some v <-> continues radix max acc s v.
Proof.
  intros Hr. revert acc. induction s as [|b s IH]; intros acc Ha; cbn [radix_loop].
  { split; [intros [= <-]; exists []; cbn; split_and!; [done.. | lia] | by intros (ds & [= <-] & -> & _)]. }
  rewrite continues_cons. destruct (to_digit radix b) as [d|] eqn:Hd.
  2: { split; [by destruct (_ <? _) | by intros (? & ? & _)]. }
  apply to_digit_range in Hd. transitivity (continues radix max (acc * radix + d) s v); [|naive_solver].
  assert (Hover : continues radix max (acc * radix + d) s v -> acc * radix + d <= max).
  { intros (ds & Hm%mapM_digits_pos & -> & Hle).
    pose proof (foldl_grows radix ds (acc * radix + d) Hr ltac:(nia) Hm). lia. }
  destruct (Z.ltb_spec max (acc * radix)); [split; [done | intros H1%Hover; lia]|].
  destruct (Z.ltb_spec max (acc * radix + d)); [split; [done | intros H1%Hover; lia]|].
  apply IH. nia.
Qed.

(** The parser accepts exactly the numerals that fit the type. *)
Lemma from_str_radix_spec radix max s v :
  1 <= radix <= 36 -> 0 <= max ->
  from_str_radix radix max s = Some v <-> numeral radix s v /\ v <= max.
Proof.
  intros Hr Hm.
  assert (Hplus : to_digit radix 43 = None) by (unfold to_digit; cbn; by rewrite Z.ltb_irrefl).
  assert (Hloop : forall digits, radix_loop radix max 0 digits = Some v <-> continues radix max 0 digits v)
    by (intros digits; apply radix_loop_spec; lia).
  assert (Hdig : forall digits, digits <> [] -> (continues radix max 0 digits v ->
    forall s, s = digits \/ s = 43 :: digits -> numeral radix s v /\ v <= max)).
  { intros digits Hne (ds & Hds & -> & Hle) s0 Hs0. split; [|done]. by exists digits, ds. }
  assert (Hnum : numeral radix s v /\ v <= max -> exists digits, (s = digits \/ s = 43 :: digits) /\ digits <> []
    /\ continues radix max 0 digits v).
  { intros [(digits & ds & Hs & Hne & Hds & ->) Hle]. exists digits. split_and!; [done..|]. by exists ds. }
  assert (Hno : forall l, ~ continues radix max 0 (43 :: l) v)
    by (intros l (d & Hd & _)%continues_cons; congruence).
  destruct s as [|b s]; [split; [done|]; intros (? & [<-|?] & ? & _)%Hnum; done|].
  destruct (decide (b = 43)) as [->|Hb].
  - destruct s as [|b2 s]; cbn [from_str_radix]; rewrite Hloop.
    + split; [intros H; by apply Hno in H|]. intros (dg & [<-|[= <-]] & ? & Hc)%Hnum; [by apply Hno in Hc | done].
    + split; [intros H; by eapply Hdig; [|exact H|right]|].
      intros (dg & [<-|[= <-]] & ? & Hc)%Hnum; [by apply Hno in Hc | done].
  - assert (Hf : from_str_radix radix max (b :: s) = radix_loop radix max 0 (b :: s)).
    { unfold from_str_radix. destruct s; repeat (case_match; subst; try done). }
    rewrite Hf, Hloop. split; [intros H; by eapply Hdig; [|exact H|left]|].
    by intros (dg & [<-|[= -> _]] & ? & Hc)%Hnum.
Qed.

Lemma to_digit_digit_char radix d : radix <= 36 -> 0 <= d < radix -> to_digit radix (digit_char d) = Some d.
Proof.
  intros Hr Hd. unfold to_digit, digit_char.
  repeat case_match; f_equal; lia.
Qed.

Lemma print_loop_spec fuel radix v acc ds :
  2 <= radix <= 36 -> 0 <= v < 2 ^ Z.of_nat fuel -> mapM (to_digit radix) acc = Some ds -> fuel <> O ->
  exists ds', mapM (to_digit radix) (print_loop fuel radix v acc) = Some (ds' ++ ds)
    /\ digits_value radix ds' = v /\ ds' <> [].
Proof.
  intros Hr. revert v acc ds. induction fuel as [|fuel IH]; intros v acc ds Hv Hacc Hf; [done|].
  cbn [print_loop]. pose proof (Z.mod_pos_bound v radix ltac:(lia)) as Hmod.
  pose proof (Z.div_mod v radix ltac:(lia)) as Hdm.
  assert (Hacc' : mapM (to_digit radix) (digit_char (v mod radix) :: acc) = Some (v mod radix :: ds)).
  { apply mapM_Some. constructor; [by apply to_digit_digit_char; lia | by apply mapM_Some]. }
  rewrite Nat2Z.inj_succ, Z.pow_succ_r in Hv by lia.
  destruct (Z.eqb_spec (v / radix) 0) as [E|E].
  - exists [v mod radix]. split_and!; [done | | done]. cbn. rewrite E in Hdm. lia.
  - assert (0 <= v / radix) by (apply Z.div_pos; lia).
    assert (v / radix < 2 ^ Z.of_nat fuel) by (apply Z.div_lt_upper_bound; nia).
    destruct (IH (v / radix) _ _ ltac:(lia) Hacc') as (ds' & Hm & Hval & _).
    { intros ->. cbn in *. lia. }
    exists (ds' ++ [v mod radix]). rewrite <- app_assoc. split_and!; [done | | by destruct ds'].
    unfold digits_value in *. rewrite foldl_app, Hval. cbn. lia.
Qed.

(** What the formatter prints denotes the number. *)
Lemma print_radix_numeral radix v : 2 <= radix <= 36 -> 0 <= v -> numeral radix (print_radix radix v) v.
Proof.
  intros Hr Hv. unfold print_radix.
  destruct (print_loop_spec (S (Z.to_nat (Z.log2 v))) radix v [] []) as (ds & Hm & Hval & Hne); [done | | done..|].
  { split; [done|]. rewrite Nat2Z.inj_succ, Z2Nat.id by apply Z.log2_nonneg.
    destruct (decide (v = 0)) as [->|]; [done|]. apply Z.log2_spec. lia. }
  rewrite app_nil_r in Hm. exists (print_loop (S (Z.to_nat (Z.log2 v))) radix v []), ds.
  split_and!; [by left | | done | done]. intros E. rewrite E in Hm. by injection Hm as <-.
Qed.

Lemma split_on_nonempty c s : split_on c s <> [].
Proof. destruct s as [|b s]; cbn; [done|]. by destruct (split_on c s); [|destruct (_ =? _)]. Qed.

Lemma join_split c s : join c (split_on c s) = s /\ Forall (fun p => c ∉ p) (split_on c s).
Proof.
  induction s as [|b s [IH Hp]]; cbn [split_on]; [split; [done|]; by repeat constructor; apply not_elem_of_nil|].
  pose proof (split_on_nonempty c s). destruct (split_on c s) as [|p ps]; [done|].
  apply Forall_cons in Hp as [Hp Hps]. destruct (Z.eqb_spec b c) as [->|Hb].
  - split; [change (c :: join c (p :: ps) = c :: s); by rewrite IH|]. repeat constructor; [apply not_elem_of_nil | done | done].
  - split; [destruct ps; cbn in *; by rewrite <- IH|]. constructor; [|done]. rewrite not_elem_of_cons. auto.
Qed.

Lemma split_on_app c p s :
  c ∉ p -> split_on c (p ++ c :: s) = p :: split_on c s.
Proof.
  intros Hp. induction p as [|b p IH]; cbn [app split_on].
  - rewrite Z.eqb_refl. pose proof (split_on_nonempty c s). by destruct (split_on c s).
  - apply not_elem_of_cons in Hp as [Hb Hp]. rewrite IH by done. by apply not_eq_sym, Z.eqb_neq in Hb as ->.
Qed.

Lemma split_join c parts : parts <> [] -> Forall (fun p => c ∉ p) parts -> split_on c (join c parts) = parts.
Proof.
  induction parts as [|p ps IH]; [done|]. intros _ [Hp Hps]%Forall_cons.
  destruct ps as [|q ps]; [|change (join c (p :: q :: ps)) with (p ++ c :: join c (q :: ps)); rewrite split_on_app, IH by done; done].
  cbn [join]. clear -Hp. induction p as [|b p IH]; [done|]. apply not_elem_of_cons in Hp as [Hb Hp].
  cbn. rewrite IH by done. by apply not_eq_sym, Z.eqb_neq in Hb as ->.
Qed.

Lemma extract_join fields model rank group chunk rest :
  fields = model :: rank :: group :: chunk :: rest -> Forall (fun p => 64 ∉ p) fields ->
  extract_chunk_hash (join 64 fields) = from_str_radix 16 U64_MAX chunk.
Proof.
  intros -> Hf. unfold extract_chunk_hash. rewrite split_join by done. unfold len. cbn [length].
  destruct (Z.ltb_spec (Z.of_nat (S (S (S (S (length rest)))))) 4); [lia | done].
Qed.

(** An LMCache key: [model@rank@group@chunk_hash], with optional further fields. *)
Definition key_fields (key model rank group chunk : list Z) (rest : list (list Z)) : Prop :=
  key = join 64 (model :: rank :: group :: chunk :: rest)
  /\ Forall (fun p => 64 ∉ p) (model :: rank :: group :: chunk :: rest).

Lemma extract_fields key h :
  extract_chunk_hash key = Some h ->
  exists model rank group chunk rest, key_fields key model rank group chunk rest
    /\ from_str_radix 16 U64_MAX chunk = Some h.
Proof.
  intros H. destruct (join_split 64 key) as [Hj Hp]. unfold key_fields. unfold extract_chunk_hash in H.
  destruct (split_on 64 key) as [|a [|b [|c [|d rest]]]]; try done.
  destruct (Z.ltb _ 4); [done|]. exists a, b, c, d, rest. by rewrite Hj.
Qed.

(** Reading a chunk hash off an LMCache key: the extraction succeeds with
    [h] exactly on the keys [model@rank@group@chunk], possibly followed by more
    fields, whose fourth field is a hexadecimal numeral of value [h] that fits 64
    bits; every hash the [{:x}] format prints into the fourth field is read back. *)
Theorem chunk_hash_exact key h :
  (extract_chunk_hash key = Some h <->
   exists model rank group chunk rest, key_fields key model rank group chunk rest
     /\ numeral 16 chunk h /\ h <= U64_MAX)
  /\ (forall model rank group rest, is_u64 h ->
      key_fields key model rank group (print_radix 16 h) rest -> extract_chunk_hash key = Some h).
Proof.
  assert (Hspec : forall chunk, from_str_radix 16 U64_MAX chunk = Some h <-> numeral 16 chunk h /\ h <= U64_MAX)
    by (intros; by apply from_str_radix_spec).
  split; [split|].
  - intros (m & r & g & c & rest & Hk & Hc)%extract_fields. exists m, r, g, c, rest. by rewrite <- Hspec.
  - intros (m & r & g & c & rest & [-> Hf] & Hc). rewrite (extract_join _ m r g c rest) by done. by apply Hspec.
  - intros m r g rest Hh [-> Hf]. rewrite (extract_join _ m r g (print_radix 16 h) rest) by done. apply Hspec. unfold is_u64, U64_MAX in *.
    split; [apply print_radix_numeral; lia | lia].
Qed.

(** ** Traces *)

(** Calls of the connector, wake-ups of the heartbeat task, and runs of a
    spawned report, in any interleaving. *)
Inductive dir_op : Type :=
| DCall (op : conn_op)
| DTick (millis : Z)
| DRun (k : nat).

Definition calls (ops : list dir_op) : list conn_op :=
  omap (fun o => match o with DCall op => Some op | DTick _ | DRun _ => None end) ops.

Section traces.
Context (xxh64 : list Z -> Z -> Z).

Definition dc_call (dc : DirectorConnector) (op : conn_op) : exec (DirectorConnector * conn_out) :=
  match op with
  | OGet keys => '(dc, id) ← dc_submit_batch_get xxh64 dc keys; Done (dc, Submitted id)
  | OSet keys mvs clock order =>
      '(dc, id) ← dc_submit_batch_set xxh64 dc keys mvs clock order; Done (dc, Submitted id)
  | OExists keys => '(dc, id) ← dc_submit_batch_exists xxh64 dc keys; Done (dc, Submitted id)
  | ODelete keys => '(dc, id) ← dc_submit_batch_delete xxh64 dc keys; Done (dc, Submitted id)
  | ODrain => let '(dc, l) := dc_drain_completions dc in Done (dc, Drained l)
  | OClose => Done (dc_close dc, Closed)
  end.

Fixpoint dc_trace (dc : DirectorConnector) (ops : list dir_op) : exec (DirectorConnector * list conn_out) :=
  match ops with
  | [] => Done (dc, [])
  | DCall op :: ops =>
      '(dc, out) ← dc_call dc op;
      '(dc, outs) ← dc_trace dc ops;
      Done (dc, out :: outs)
  | DTick millis :: ops => dc_trace (heartbeat_tick dc millis) ops
  | DRun k :: ops => dc_trace (run_task dc k) ops
  end.

(** ** What is reported *)

Definition report_of (d : DirectorIntegration) (op : conn_op) : list director_request :=
  match op with
  | OSet keys _ _ _ => report_store d keys
  | ODelete keys => report_remove d keys
  | _ => []
  end.

Definition is_report (m : director_request) : bool :=
  match m with ReportStoreRequest _ _ _ _ _ _ | ReportRemoveRequest _ _ _ _ => true | _ => false end.
Definition reports (ms : list director_request) : list director_request := filter (fun m => is_report m) ms.
Definition lifecycle (ms : list director_request) : list director_request := filter (fun m => ~ is_report m) ms.

Definition set_keys (e : Z * conn_op) : option (Z * list (list Z)) :=
  match e.2 with OSet keys _ _ _ => Some (e.1, keys) | _ => None end.
Definition delete_batch_keys (e : Z * conn_op) : option (Z * list (list Z)) :=
  match e.2 with ODelete keys => Some (e.1, keys) | _ => None end.

(** The queued completions answer the batches [hist], and the pending maps hold
    exactly their keys. *)
Record pending_inv (hist : list (Z * conn_op)) (dc : DirectorConnector) : Prop := {
  pi_comps : Forall2 (fun e t => t.1.1 = (e.1, true)) hist (queued (dc_conn dc));
  pi_nodup : NoDup hist.*1;
  pi_fresh : Forall (fun id => id < cn_next_id (dc_conn dc)) hist.*1;
  pi_reports : dc_pending_reports dc = list_to_map (omap set_keys hist);
  pi_removes : dc_pending_removes dc = list_to_map (omap delete_batch_keys hist)
}.

Lemma omap_ids_fresh (f : Z * conn_op -> option (Z * list (list Z))) hist id :
  (forall e p, f e = Some p -> p.1 = e.1) -> id ∉ hist.*1 -> id ∉ (omap f hist).*1.
Proof.
  intros Hf Hid Hin. apply Hid.
  apply list_elem_of_fmap in Hin as (p & -> & Hp). apply list_elem_of_omap in Hp as (e & He & Hfe).
  apply list_elem_of_fmap. exists e. split; [by apply Hf | done].
Qed.

Lemma omap_ids_absent (f : Z * conn_op -> option (Z * list (list Z))) hist id :
  (forall e p, f e = Some p -> p.1 = e.1) -> id ∉ hist.*1 ->
  (list_to_map (omap f hist) : gmap Z (list (list Z))) !! id = None.
Proof. intros Hf Hid. by apply not_elem_of_list_to_map, omap_ids_fresh. Qed.

Lemma set_keys_id e p : set_keys e = Some p -> p.1 = e.1.
Proof. destruct e as [id []]; unfold set_keys; cbn; naive_solver. Qed.
Lemma delete_batch_keys_id e p : delete_batch_keys e = Some p -> p.1 = e.1.
Proof. destruct e as [id []]; unfold delete_batch_keys; cbn; naive_solver. Qed.
#[local] Hint Resolve set_keys_id delete_batch_keys_id : core.

Lemma take_report_hit task id keys (m : gmap Z (list (list Z))) :
  m !! id = None -> take_report task (<[id := keys]> m) id = (m, [task keys]).
Proof. intros H. unfold take_report. by rewrite lookup_insert_eq, delete_insert_id by done. Qed.
Lemma take_report_miss task id (m : gmap Z (list (list Z))) :
  m !! id = None -> take_report task m id = (m, []).
Proof. intros H. unfold take_report. by rewrite H. Qed.

(** The tasks of the batches of a history. *)
Definition task_of (op : conn_op) : list report_task :=
  match op with OSet keys _ _ _ => [TStore keys] | ODelete keys => [TRemove keys] | _ => [] end.

(** A drain spawns the report of every queued batch once and empties the maps. *)
Lemma report_loop_spec (hist : list (Z * conn_op)) comps :
  Forall2 (fun e comp => (cp_future_id comp, cp_ok comp) = (e.1, true)) hist comps -> NoDup hist.*1 ->
  report_loop comps (list_to_map (omap set_keys hist)) (list_to_map (omap delete_batch_keys hist))
  = (∅, ∅, concat (task_of ∘ snd <$> hist)).
Proof.
  intros H. induction H as [|[id op] comp hist comps [= Hid Hok] H IH]; [done|].
  subst id. rewrite fmap_cons. intros [Hn Hnd]%NoDup_cons. cbn [fst] in Hn.
  specialize (IH Hnd). cbn [report_loop]. rewrite Hok.
  assert (Hr := omap_ids_absent set_keys hist _ set_keys_id Hn).
  assert (Hd := omap_ids_absent delete_batch_keys hist _ delete_batch_keys_id Hn).
  destruct op; cbn [omap list_omap set_keys delete_batch_keys fst snd list_to_map foldr];
    rewrite ?take_report_hit, ?take_report_miss by done;
    rewrite IH; cbn; by rewrite ?app_nil_r.
Qed.

(** ** The invariant of a trace *)

Definition queued_reports (d : DirectorIntegration) (hist : list (Z * conn_op)) : list director_request :=
  concat (report_of d ∘ snd <$> hist).

(** The reports sent, or spawned and not run yet. *)
Definition told (d : DirectorIntegration) (dc : DirectorConnector) : list director_request :=
  reports (dc_sent dc) ++ concat (task_body d <$> dc_tasks dc).

Lemma queued_tasks d hist :
  concat (task_body d <$> concat (task_of ∘ snd <$> hist)) = queued_reports d hist.
Proof.
  induction hist as [|[id op] hist IH]; [done|]. unfold queued_reports. cbn [fmap list_fmap concat compose snd].
  rewrite fmap_app, concat_app, IH. f_equal. destruct op; cbn; by rewrite ?app_nil_r.
Qed.

(** The messages other than reports: one registration, heartbeats, and one
    deregistration once closed. *)
Definition life_of (reg : director_request) (iid : list Z) (closed : bool) (ms : list director_request) : Prop :=
  exists beats, lifecycle ms = reg :: (HeartbeatRequest iid <$> beats)
    ++ (if closed then [DeregisterRequest iid] else []).

Record dir_inv (d : DirectorIntegration) (reg : director_request) (iid : list Z)
    (hist : list (Z * conn_op)) (dc : DirectorConnector) : Prop := {
  dv_conn : conn_ok (dc_conn dc);
  dv_director : dc_director dc = Some d;
  dv_id : dc_instance_id dc = iid;
  dv_pending : pending_inv hist dc;
  dv_handle : dc_heartbeat_handle dc = negb (cn_closed (dc_conn dc));
  dv_shutdown : cn_shutdown (dc_conn dc) = cn_closed (dc_conn dc);
  dv_life : life_of reg iid (cn_closed (dc_conn dc)) (dc_sent dc)
}.

Lemma submit_flags c op c' id :
  conn_step xxh64 c op = Done (c', Submitted id) ->
  cn_closed c' = cn_closed c /\ cn_shutdown c' = cn_shutdown c.
Proof.
  destruct op; cbn [conn_step]; try done;
    unfold submit_batch_get, submit_batch_set, submit_batch_exists, submit_batch_delete; cbn [take_id];
    intros H;
    repeat match goal with
      | H : mbind _ _ = Done _ |- _ => apply exec_bind_Done_inv in H as (? & ? & H)
      | x : _ * _ |- _ => destruct x
      end; cbn in *; by simplify_eq.
Qed.

Lemma lifecycle_app ms ms' : lifecycle (ms ++ ms') = lifecycle ms ++ lifecycle ms'.
Proof. apply filter_app. Qed.
Lemma reports_app ms ms' : reports (ms ++ ms') = reports ms ++ reports ms'.
Proof. apply filter_app. Qed.

Lemma report_of_reports d op : reports (report_of d op) = report_of d op /\ lifecycle (report_of d op) = [].
Proof. destruct op; cbn; unfold report_store, report_remove; try case_bool_decide; by cbn. Qed.

Lemma queued_reports_only d hist :
  reports (queued_reports d hist) = queued_reports d hist /\ lifecycle (queued_reports d hist) = [].
Proof.
  induction hist as [|[id op] hist [IH1 IH2]]; [done|].
  change (queued_reports d ((id, op) :: hist)) with (report_of d op ++ queued_reports d hist).
  rewrite reports_app, lifecycle_app. destruct (report_of_reports d op) as [H1 H2].
  by rewrite H1, H2, IH1, IH2.
Qed.

(** A call: the plain connector does the same, and what is reported or still
    to be reported grows by the report of the call. *)
Definition call_ok (d : DirectorIntegration) (reg : director_request) (iid : list Z)
    (hist : list (Z * conn_op)) (dc : DirectorConnector) (op : conn_op) : Prop :=
  exists dc' out hist', dc_call dc op = Done (dc', out)
    /\ conn_step xxh64 (dc_conn dc) op = Done (dc_conn dc', out)
    /\ dir_inv d reg iid hist' dc'
    /\ cn_next_id (dc_conn dc') <= cn_next_id (dc_conn dc) + 1
    /\ told d dc' ++ queued_reports d hist' = told d dc ++ queued_reports d hist ++ report_of d op.

Lemma pending_inv_submit d hist dc c' id op bs :
  dc_director dc = Some d -> pending_inv hist dc -> id = cn_next_id (dc_conn dc) ->
  cn_next_id c' = id + 1 -> queued c' = queued (dc_conn dc) ++ [(id, true, ""%string, Some bs)] ->
  pending_inv (hist ++ [(id, op)])
    (mkDirectorConnector c' (dc_director dc) (dc_instance_id dc) (dc_heartbeat_handle dc)
       (match op with OSet keys _ _ _ => record_keys dc (dc_pending_reports dc) id keys
                    | _ => dc_pending_reports dc end)
       (match op with ODelete keys => record_keys dc (dc_pending_removes dc) id keys
                    | _ => dc_pending_removes dc end) (dc_tasks dc) (dc_sent dc)).
Proof.
  intros Hd [Hc Hn Hf Hr Hm] -> Hid Hq.
  assert (Hnew : cn_next_id (dc_conn dc) ∉ hist.*1).
  { intros Hin. rewrite Forall_forall in Hf. specialize (Hf _ Hin). lia. }
  split; cbn [dc_conn dc_pending_reports dc_pending_removes].
  - rewrite Hq. apply Forall2_app; [done|]. by repeat constructor.
  - rewrite fmap_app. apply NoDup_app. split_and!; [done | set_solver | apply NoDup_singleton].
  - rewrite fmap_app, Hid. apply Forall_app. split; [eapply Forall_impl; [exact Hf | cbn; lia]|].
    repeat constructor. cbn. lia.
  - rewrite omap_app, Hr. unfold record_keys. rewrite Hd.
    destruct op; cbn [omap list_omap set_keys snd fst]; rewrite ?app_nil_r; try done.
    by rewrite list_to_map_snoc by (by apply omap_ids_fresh; [apply set_keys_id|]).
  - rewrite omap_app, Hm. unfold record_keys. rewrite Hd.
    destruct op; cbn [omap list_omap delete_batch_keys snd fst]; rewrite ?app_nil_r; try done.
    by rewrite list_to_map_snoc by (by apply omap_ids_fresh; [apply delete_batch_keys_id|]).
Qed.

Lemma submit_call_ok d reg iid hist dc op n r :
  dir_inv d reg iid hist dc -> cn_next_id (dc_conn dc) + 1 < 2 ^ 64 -> submit_step (dc_conn dc) n r ->
  conn_step xxh64 (dc_conn dc) op = ('(c, id) ← r; Done (c, Submitted id)) ->
  (forall c' id, r = Done (c', id) -> dc_call dc op =
     Done (mkDirectorConnector c' (dc_director dc) (dc_instance_id dc) (dc_heartbeat_handle dc)
       (match op with OSet keys _ _ _ => record_keys dc (dc_pending_reports dc) id keys
                    | _ => dc_pending_reports dc end)
       (match op with ODelete keys => record_keys dc (dc_pending_removes dc) id keys
                    | _ => dc_pending_removes dc end) (dc_tasks dc) (dc_sent dc), Submitted id)) ->
  call_ok d reg iid hist dc op.
Proof.
  intros [[Hst Hpos] Hd Hi Hp Hh Hs Hl] Hlt (c' & bs & Er & Hst' & Hid & Hbs & Hq) Hstep Hcall.
  rewrite Er, exec_bind_done in Hstep. rewrite u64_small in Hid by (unfold is_u64; lia).
  destruct (submit_flags _ _ _ _ Hstep) as [Hcl Hsh].
  do 2 eexists. exists (hist ++ [(cn_next_id (dc_conn dc), op)]).
  split; [by apply Hcall|]. split_and!; [done | | cbn; lia |].
  - split; cbn; rewrite ?Hcl, ?Hsh; try done; [split; [done | lia]|].
    by eapply pending_inv_submit.
  - unfold queued_reports, told. cbn [dc_sent dc_tasks]. rewrite fmap_app, concat_app. cbn. by rewrite app_nil_r.
Qed.

(** A drain spawns what is queued. *)
Lemma drain_spawns d reg iid hist dc :
  dir_inv d reg iid hist dc ->
  (dc_drain_completions dc).1
  = mkDirectorConnector (drain_completions (dc_conn dc)).1 (dc_director dc) (dc_instance_id dc)
      (dc_heartbeat_handle dc) ∅ ∅ (dc_tasks dc ++ concat (task_of ∘ snd <$> hist)) (dc_sent dc).
Proof.
  intros [Hc Hd Hi [Hq Hn Hf Hr Hm] Hh Hs Hl]. unfold dc_drain_completions.
  unfold queued, drain_completions in Hq. cbn [snd] in Hq. rewrite Forall2_fmap_r in Hq.
  destruct (drain_completions (dc_conn dc)) as [c out]. cbn [fst].
  by rewrite Hd, Hr, Hm, (report_loop_spec hist).
Qed.

Lemma drain_told d reg iid hist dc :
  dir_inv d reg iid hist dc -> told d (dc_drain_completions dc).1 = told d dc ++ queued_reports d hist.
Proof.
  intros Hinv. rewrite (drain_spawns _ _ _ _ _ Hinv). unfold told. cbn [dc_sent dc_tasks].
  by rewrite fmap_app, concat_app, queued_tasks, app_assoc.
Qed.

Lemma drain_call_ok d reg iid hist dc : dir_inv d reg iid hist dc -> call_ok d reg iid hist dc ODrain.
Proof.
  intros Hinv. unfold call_ok. cbn [dc_call conn_step].
  pose proof (drain_told _ _ _ _ _ Hinv) as Ht. pose proof (drain_spawns _ _ _ _ _ Hinv) as E.
  assert (Eout : (dc_drain_completions dc).2 = (drain_completions (dc_conn dc)).2).
  { unfold dc_drain_completions. rewrite (dv_director _ _ _ _ _ Hinv). destruct (drain_completions _) as [c out].
    by destruct (report_loop _ _ _) as [[? ?] ?]. }
  destruct (dc_drain_completions dc) as [dc' out], (drain_completions (dc_conn dc)) as [c' out'] eqn:Ed.
  cbn [fst snd] in *. subst out. destruct Hinv as [Hc Hd Hi [Hq Hn Hf Hr Hm] Hh Hs Hl].
  injection Ed as <- <-. exists dc'. eexists. exists []. rewrite Ht, E. split_and!; [done | done | | cbn; lia |].
  - split; cbn; try done. split; cbn; [constructor | constructor | constructor | done | done].
  - cbn. by rewrite !app_nil_r.
Qed.

Lemma close_call_ok d reg iid hist dc : dir_inv d reg iid hist dc -> call_ok d reg iid hist dc OClose.
Proof.
  intros Hinv. unfold call_ok. cbn [dc_call conn_step]. do 2 eexists. exists hist. split; [reflexivity|].
  unfold dc_close, connector_close at 1. destruct (cn_closed (dc_conn dc)) eqn:Ec.
  { split_and!; [done | done | lia | cbn; by rewrite app_nil_r]. }
  destruct Hinv as [Hc Hd Hi [Hq Hn Hf Hr Hm] Hh Hs [beats Hl]]. rewrite Ec in *.
  unfold director_cleanup, connector_close. rewrite Ec, Hd. split_and!; [done | | cbn; lia |].
  - split; cbn; try done. exists beats. rewrite lifecycle_app, Hl, Hi. cbn. by rewrite app_nil_r.
  - unfold told. cbn. rewrite reports_app. cbn. by rewrite !app_nil_r.
Qed.

Lemma tick_ok d reg iid hist dc millis :
  dir_inv d reg iid hist dc -> dir_inv d reg iid hist (heartbeat_tick dc millis)
  /\ dc_conn (heartbeat_tick dc millis) = dc_conn dc
  /\ told d (heartbeat_tick dc millis) = told d dc.
Proof.
  intros Hinv. unfold heartbeat_tick. destruct Hinv as [Hc Hd Hi Hp Hh Hs [beats Hl]].
  destruct (cn_closed (dc_conn dc)) eqn:Ec; rewrite Hh, Hs; cbn [negb andb]; [split_and!; [|done..]|].
  { split; rewrite ?Ec; try done. by exists beats. }
  split_and!; [|done | unfold told; cbn; rewrite reports_app; cbn; by rewrite app_nil_r].
  split; cbn; rewrite ?Ec; try done; [by destruct Hp|]. exists (beats ++ [u64 millis]).
  rewrite lifecycle_app, Hl, fmap_app. cbn. by rewrite Hi, !app_nil_r.
Qed.

Lemma task_body_reports d t : reports (task_body d t) = task_body d t /\ lifecycle (task_body d t) = [].
Proof. destruct t; cbn; unfold report_store, report_remove; case_bool_decide; by cbn. Qed.

(** Running a task moves its report from the pool to the messages sent. *)
Lemma run_ok d reg iid hist dc k :
  dir_inv d reg iid hist dc -> dir_inv d reg iid hist (run_task dc k)
  /\ dc_conn (run_task dc k) = dc_conn dc
  /\ told d (run_task dc k) ≡ₚ told d dc.
Proof.
  intros Hinv. unfold run_task. rewrite (dv_director _ _ _ _ _ Hinv).
  destruct (dc_tasks dc !! k) as [t|] eqn:Ek; [|by split_and!].
  destruct (task_body_reports d t) as [Hr Hl'].
  split_and!; [|done|].
  - destruct Hinv as [Hc Hd Hi [Hq Hn Hf Hp Hm] Hh Hs [beats Hl]].
    split; cbn; try done. exists beats. by rewrite lifecycle_app, Hl', app_nil_r.
  - unfold told. cbn [dc_sent dc_tasks]. rewrite reports_app, Hr, <- app_assoc.
    apply Permutation_app_head. apply delete_Permutation in Ek.
    rewrite Ek at 2. done.
Qed.

Context (xxh64_u64 : forall k s, is_u64 (xxh64 k s)).

Lemma call_spec d reg iid hist dc op :
  dir_inv d reg iid hist dc -> conn_op_ok op -> cn_next_id (dc_conn dc) + 1 < 2 ^ 64 ->
  call_ok d reg iid hist dc op.
Proof using xxh64_u64.
  intros Hinv Hop Hlt. pose proof (dv_conn _ _ _ _ _ Hinv) as Hc.
  destruct op as [keys|keys mvs clock order|keys|keys| |];
    [| | | | by apply drain_call_ok | by apply close_call_ok];
    (eapply submit_call_ok; [done | done | | reflexivity |];
      [first [by apply submit_get_step | by apply submit_set_step | by apply submit_delete_step]|];
      intros c' id E; cbn [dc_call];
      unfold dc_submit_batch_get, dc_submit_batch_set, dc_submit_batch_exists, dc_submit_batch_delete;
      by rewrite E).
Qed.

Lemma dc_trace_spec d reg iid ops dc hist :
  dir_inv d reg iid hist dc -> Forall conn_op_ok (calls ops) -> cn_next_id (dc_conn dc) + len ops < 2 ^ 64 ->
  exists dc' outs hist', dc_trace dc ops = Done (dc', outs)
    /\ conn_trace xxh64 (dc_conn dc) (calls ops) = Done (dc_conn dc', outs)
    /\ dir_inv d reg iid hist' dc'
    /\ told d dc' ++ queued_reports d hist'
       ≡ₚ told d dc ++ queued_reports d hist ++ concat (report_of d <$> calls ops).
Proof using xxh64_u64.
  revert dc hist. induction ops as [|[op|millis|k] ops IH]; intros dc hist Hinv Hops Hlt.
  - exists dc, [], hist. cbn. rewrite app_nil_r. by split_and!.
  - unfold len in Hlt. cbn [length] in Hlt. cbn [calls omap list_omap] in Hops.
    apply Forall_cons in Hops as [Hop Hops].
    destruct (call_spec d reg iid hist dc op Hinv Hop) as (dc1 & out & hist1 & E & Ec & Hinv1 & Hid & Hrep); [lia|].
    destruct (IH dc1 hist1 Hinv1 Hops) as (dc2 & outs & hist2 & E2 & Ec2 & Hinv2 & Hrep2); [unfold len; lia|].
    exists dc2, (out :: outs), hist2. cbn [dc_trace]. change (calls (DCall op :: ops)) with (op :: calls ops).
    cbn [conn_trace]. rewrite E, Ec, !exec_bind_done, E2, Ec2. split_and!; [done..|].
    rewrite Hrep2, app_assoc, Hrep. cbn [fmap list_fmap concat]. by rewrite <- !app_assoc.
  - unfold len in Hlt. cbn [length] in Hlt.
    destruct (tick_ok d reg iid hist dc millis Hinv) as (Hinv1 & Hcn & Hrep).
    destruct (IH (heartbeat_tick dc millis) hist Hinv1 Hops) as (dc2 & outs & hist2 & E2 & Ec2 & Hinv2 & Hrep2);
      [rewrite Hcn; unfold len; lia|].
    exists dc2, outs, hist2. rewrite Hcn in Ec2. rewrite Hrep in Hrep2. by split_and!.
  - unfold len in Hlt. cbn [length] in Hlt.
    destruct (run_ok d reg iid hist dc k Hinv) as (Hinv1 & Hcn & Hrep).
    destruct (IH (run_task dc k) hist Hinv1 Hops) as (dc2 & outs & hist2 & E2 & Ec2 & Hinv2 & Hrep2);
      [rewrite Hcn; unfold len; lia|].
    exists dc2, outs, hist2. rewrite Hcn in Ec2. rewrite Hrep in Hrep2. by split_and!.
Qed.

(** A drop leaves the instance deregistered. *)
Lemma dir_inv_drop d reg iid hist dc :
  dir_inv d reg iid hist dc -> life_of reg iid true (dc_sent (dc_drop dc)).
Proof using.
  intros [Hc Hd Hi Hp Hh Hs [beats Hl]]. exists beats. unfold dc_drop.
  destruct (cn_closed (dc_conn dc)); cbn [negb]; [done|].
  cbn. rewrite lifecycle_app, Hl, Hd, Hi. cbn. by rewrite app_nil_r.
Qed.

(** Whatever order the runtime takes, once no task is left everything told is sent. *)
Definition run_tasks (dc : DirectorConnector) (ks : list nat) : DirectorConnector := foldl run_task dc ks.

Lemma run_tasks_ok d reg iid hist dc ks :
  dir_inv d reg iid hist dc -> dir_inv d reg iid hist (run_tasks dc ks)
  /\ told d (run_tasks dc ks) ≡ₚ told d dc.
Proof using.
  revert dc. induction ks as [|k ks IH]; intros dc Hinv; [done|].
  destruct (run_ok d reg iid hist dc k Hinv) as (Hinv' & _ & Hr).
  destruct (IH _ Hinv') as [? Hr']. split; [done|]. by rewrite <- Hr.
Qed.

Lemma run_tasks_drains dc d :
  dc_director dc = Some d -> dc_tasks (run_tasks dc (replicate (length (dc_tasks dc)) 0%nat)) = [].
Proof using.
  remember (dc_tasks dc) as ts eqn:E. revert dc E. induction ts as [|t ts IH]; intros dc E Hd; [done|].
  cbn [length replicate run_tasks foldl]. apply IH; unfold run_task; rewrite Hd, <- E; cbn; done.
Qed.
End traces.

(** The connector a successful constructor returns. *)
Lemma director_new_inv open_channel micros n params c su d reg :
  RDMANativeConnector_new n true = Done (Ok c) -> conn_ok c -> cn_completions c = [] ->
  cn_closed c = false -> cn_shutdown c = false ->
  setup_director open_channel micros params = Ok su -> su_director su = Some d -> su_sent su = [reg] ->
  is_report reg = false -> su_heartbeat_handle su = true ->
  exists dc, DirectorConnector_new open_channel micros n params true = Done (Ok dc)
    /\ dc_conn dc = c /\ dc_sent dc = [reg] /\ dc_tasks dc = [] /\ dir_inv d reg (su_instance_id su) [] dc.
Proof.
  intros E Hc Hq Hcl Hsh Hsu Hd Hs Hr Hh. unfold DirectorConnector_new. rewrite E, exec_bind_done, Hsu.
  eexists. split; [reflexivity|]. split; [done|]. split; [exact Hs|]. split; [done|].
  split; cbn; rewrite ?Hd, ?Hcl; try done.
  - split; cbn; try constructor. unfold queued. cbn. rewrite Hq. constructor.
  - exists []. unfold lifecycle. rewrite Hs. by rewrite filter_cons_True by (rewrite Hr; by intros []).
Qed.

Lemma setup_director_inv open_channel micros params su d :
  setup_director open_channel micros params = Ok su -> su_director su = Some d ->
  exists role rpc, su_sent su = [director_register d (su_instance_id su) role rpc 0]
    /\ su_heartbeat_handle su = true.
Proof.
  unfold setup_director, DirectorIntegration_connect. intros H Hd.
  destruct params as [params|]; [|by simplify_eq].
  destruct (params !! bytes_of "director_addr"); [|by simplify_eq].
  destruct (open_channel _); simplify_eq/=. by do 2 eexists.
Qed.

(** C21. Reporting to the Director: for any interleaving of connector calls,
    heartbeat wake-ups and runs of the spawned report tasks, on a connector that
    reached the Director, the feature is transparent (the plain connector runs
    the same calls with the same answers and ends in the same state).  After a
    final drain nothing is left pending, and once the runtime has run the tasks
    that are left, in whatever order, the reports sent are those of the set and
    delete batches of the trace, each exactly once and up to order only: every
    report is a task of its own, so nothing is claimed about the order of the
    reports, or about their place among the other messages ([reports_unordered]
    shows a report after the deregistration).  The messages other than reports
    are, after a final drop, one registration, heartbeats of the same instance,
    and one deregistration. *)
Theorem director_reports_exact (xxh64 : list Z -> Z -> Z) open_channel micros params n su d ops :
  (forall k s, is_u64 (xxh64 k s)) -> 0 <= n -> n * 10 <= MAX_ALLOC ->
  setup_director open_channel micros params = Ok su -> su_director su = Some d ->
  Forall conn_op_ok (calls ops) -> 1 + len ops < 2 ^ 64 ->
  exists c dc dc' outs role rpc,
    RDMANativeConnector_new n true = Done (Ok c)
    /\ DirectorConnector_new open_channel micros n params true = Done (Ok dc)
    /\ dc_trace xxh64 dc ops = Done (dc', outs)
    /\ conn_trace xxh64 c (calls ops) = Done (dc_conn dc', outs)
    /\ (let dc'' := (dc_drain_completions dc').1 in
        dc_pending_reports dc'' = ∅ /\ dc_pending_removes dc'' = ∅
        /\ (exists ks, dc_tasks (run_tasks dc'' ks) = [])
        /\ forall ks, dc_tasks (run_tasks dc'' ks) = [] ->
             reports (dc_sent (run_tasks dc'' ks)) ≡ₚ concat (report_of d <$> calls ops))
    /\ life_of (director_register d (su_instance_id su) role rpc 0) (su_instance_id su) true (dc_sent (dc_drop dc')).
Proof.
  intros Hx Hn Hm Hsu Hd Hops Hlen.
  destruct (setup_director_inv _ _ _ _ _ Hsu Hd) as (role & rpc & Hs & Hh).
  destruct (new_connector_ok n Hn Hm) as (c & E & Hc & Hid & Hq & _).
  assert (Hfl : cn_closed c = false /\ cn_shutdown c = false).
  { unfold RDMANativeConnector_new in E. apply exec_bind_Done_inv in E as (t & _ & [= <-]). by split. }
  destruct (director_new_inv open_channel micros n params c su d _ E Hc Hq (proj1 Hfl) (proj2 Hfl) Hsu Hd Hs)
    as (dc & Edc & Hdc & Hsent & Htasks & Hinv); [reflexivity | exact Hh |].
  destruct (dc_trace_spec xxh64 Hx d _ _ ops dc [] Hinv Hops) as (dc' & outs & hist & Et & Ec & Hinv' & Hrep);
    [rewrite Hdc, Hid; lia|].
  exists c, dc, dc', outs, role, rpc. rewrite Hdc in Ec. do 4 (split; [done|]).
  split; [|by eapply dir_inv_drop]. cbn zeta.
  pose proof (drain_told _ _ _ _ _ Hinv') as Ht. pose proof (drain_spawns _ _ _ _ _ Hinv') as Esp.
  destruct (drain_call_ok xxh64 _ _ _ _ _ Hinv') as (dc2 & out & hist2 & E2 & _ & Hinv2 & _).
  cbn [dc_call] in E2. destruct (dc_drain_completions dc') as [dc3 out3]. cbn [fst] in *.
  injection E2 as <- <-. split_and!; [by rewrite Esp | by rewrite Esp | |].
  { eexists. eapply run_tasks_drains, dv_director, Hinv2. }
  intros ks Hks. destruct (run_tasks_ok _ _ _ _ _ ks Hinv2) as [_ Hr].
  unfold told in Hr at 1. rewrite Hks in Hr. cbn [fmap list_fmap concat] in Hr. rewrite app_nil_r in Hr.
  rewrite Hr, Ht, Hrep. unfold told. by rewrite Hsent, Htasks.
Qed.

Definition sample_params : str_map :=
  {[ bytes_of "director_addr" := bytes_of "localhost:50051"; bytes_of "node_id" := bytes_of "n1";
     bytes_of "role" := bytes_of "Decode"; bytes_of "block_size" := bytes_of "32" ]}.

Definition sample_trace : list dir_op :=
  [DCall (OSet [bytes_of "m@0@0@ff"] [Some [1; 2]] (fun _ => 5) []); DTick 7; DCall ODrain;
   DCall (ODelete [bytes_of "m@0@0@ff"; bytes_of "bad"]); DRun 0; DCall OClose].

Lemma director_reports_exact_witness :
  exists dc dc' outs ks,
    DirectorConnector_new (fun _ => Ok ()) 255 100 (Some sample_params) true = Done (Ok dc)
    /\ dc_trace sample_hash dc sample_trace = Done (dc', outs)
    /\ dc_tasks (run_tasks (dc_drain_completions dc').1 ks) = []
    /\ reports (dc_sent (run_tasks (dc_drain_completions dc').1 ks))
       ≡ₚ [ReportStoreRequest (bytes_of "n1") [255] [] [] 32 []; ReportRemoveRequest (bytes_of "n1") [255] [] []].
Proof.
  destruct (director_reports_exact sample_hash (fun _ => Ok ()) 255 (Some sample_params) 100
    (mkSetup (Some (mkDirector (bytes_of "n1") [] [] 32 [])) (bytes_of "n1-ff") true
       [director_register (mkDirector (bytes_of "n1") [] [] 32 []) (bytes_of "n1-ff") Decode
          (bytes_of "http://localhost:8000") 0])
    (mkDirector (bytes_of "n1") [] [] 32 []) sample_trace)
    as (c & dc & dc' & outs & role & rpc & _ & E & Et & _ & (_ & _ & [ks Hks] & Hr) & _).
  - apply sample_hash_u64.
  - lia.
  - by vm_compute.
  - by vm_compute.
  - done.
  - unfold calls, sample_trace. cbn [omap list_omap].
    repeat constructor; lia.
  - by vm_compute.
  - exists dc, dc', outs, ks. split; [exact E|]. split; [exact Et|]. split; [exact Hks|].
    etrans; [by apply Hr | by vm_compute].
Defined.

(** A set that stored nothing is reported as a store: the completion of a batch
    is always [ok], and its per-key answers are not consulted. *)
Example failed_set_reported :
  let dc := mkDirectorConnector
    (mkConnector sample_table (LargeObjectRegion_new 0) 1 [] false false (Some 0) (LruTracker_new 1000))
    (Some (mkDirector [] [] [] 16 [])) [] true ∅ ∅ [] [] in
  exists dc' dc'', dc_submit_batch_set sample_hash dc [bytes_of "m@0@0@ff"] [Some (replicate 40 1)] (fun _ => 5) []
      = Done (dc', 1)
    /\ dc_drain_completions dc' = (dc'', [(1, true, ""%string, Some [false])])
    /\ dc_sent (run_task dc'' 0) = [ReportStoreRequest [] [255] [] [] 16 []].
Proof. do 2 eexists. split; [vm_compute; reflexivity|]. split; vm_compute; reflexivity. Qed.

(** The reports are tasks of their own: a key stored and then deleted can be
    reported as removed before it is reported as stored, and both reports can
    reach the Director after the deregistration. *)
Example reports_unordered :
  let dc := mkDirectorConnector
    (mkConnector sample_table (LargeObjectRegion_new 0) 1 [] false false (Some 0) (LruTracker_new 1000))
    (Some (mkDirector [] [] [] 16 [])) (bytes_of "i") true ∅ ∅ [] [] in
  exists dc' outs,
    dc_trace sample_hash dc
      [DCall (OSet [bytes_of "m@0@0@ff"] [Some [1]] (fun _ => 5) []); DCall (ODelete [bytes_of "m@0@0@ff"]);
       DCall ODrain; DCall OClose; DRun 1; DRun 0] = Done (dc', outs)
    /\ dc_sent dc' = [DeregisterRequest (bytes_of "i"); ReportRemoveRequest [] [255] [] [];
                      ReportStoreRequest [] [255] [] [] 16 []].
Proof. do 2 eexists. split; vm_compute; reflexivity. Qed.
